(* ===== verification/_CoqProject ===== *)
-Q . S2P
Prelude.v
PyDict.v
PyString.v
Json.v
Tokens.v
Planner.v
Reconciliation.v
Candidates.v
Mmr.v
Similarity.v
Engine.v
Store.v
Transactions.v
Validation.v
Resilience.v
RateLimit.v
Memory.v
Services.v
Collections.v
Retrieval.v
Capture.v
Streams.v
Http.v
Identity.v
Provider.v
Routes.v
Internal.v
Metrics.v
Middleware.v
Migrations.v
Logging.v
Settings.v
Main.v
Diagnostics.v
Server.v
Registry.v
Steps.v
Concurrency.v
Stability.v
Interleaving.v
Retries.v
Traffic.v
