(* ===== verification/Prelude.v ===== *)
(** * Low Context Inference: a verification development

    Low Context Inference is a proxy in front of an OpenAI-compatible
    inference endpoint.  A request is rate limited, validated, reconciled with
    the durable transcript of its conversation, turned into a prompt that fits
    a context budget (instructions, pinned memory, retrieved blocks, recent
    turns, the current request, tool definitions) and sent upstream behind a
    circuit breaker with bounded retries; the answer is passed on, captured,
    stored, chunked and indexed for later retrieval.  This development models
    that code and proves what makes it correct.

    ** Files and what they model

    Paths are below [src/context_proxy/].

    The data of Python:
    - [Prelude]: exceptions and the error monad [res], folds that can raise,
      stable sorting ([py_sorted]), sums, and the tactics and hints shared by all.
    - [PyDict], [PyString], [Json]: dicts keep insertion order; strings are
      sequences of code points up to U+00FF; JSON values come with truth value,
      equality, [len], iteration, [repr] and [json.dumps] as CPython computes them.

    The context of a request:
    - [Tokens]: [context/tokens.py], the token estimate.
    - [Planner]: [context/planner.py], units and window trimming.
    - [Reconciliation]: [conversation/reconciliation.py].
    - [Candidates], [Mmr], [Similarity]: [context/candidates.py],
      [context/query.py], [context/scoring.py], [context/mmr.py], and the
      settings of [config.py] they read.
    - [Engine]: [context/engine.py], the whole of [build].

    What is stored:
    - [Store]: [conversation/store.py] and [conversation/projection_store.py]
      over the tables of [db/migrations/], a method as one transaction;
      [Transactions]: its writers statement by statement, under the row lock.
    - [Memory]: chunks and memory records of [memory/service.py];
      [Services]: the clients of [memory/embeddings.py] and [memory/qdrant.py];
      [Collections]: concurrent calls of the latter, under its lock;
      [Retrieval]: the indexing and hybrid retrieval of [memory/service.py].
    - [Migrations]: [db/database.py].

    The inference endpoint:
    - [Resilience]: [providers/resilience.py], [providers/errors.py] and the
      send path of [providers/llm.py]; [Provider]: the provider itself, as an
      instance of the interface of [providers/base.py] that the routes use.
    - [Capture]: [capture.py] for a whole stream; [Streams]: the same generators
      and those of [providers/llm.py], step by step.
    - [Http]: [providers/headers.py] and [api/responses.py].

    The application:
    - [Validation]: [api/validation.py]; [Identity]: [conversation/identity.py].
    - [RateLimit]: [observability/ratelimit.py]; [Middleware]:
      [observability/middleware.py]; [Metrics] and [Registry]: the collectors of
      [observability/metrics.py], and those registered with what is done to them;
      [Logging]: [observability/logging_setup.py].
    - [Routes]: [api/routes.py], the chat route from body to response;
      [Internal] and [Diagnostics]: [api/routes_internal.py].
    - [Settings]: [config.py]; [Main]: [main.py], construction and lifespan;
      [Server]: the middleware, the router and all state put together.

    Concurrency:
    - [Steps]: programs of atomic steps, their interleavings with time limits and
      cancellations, and a rely-guarantee logic for them; [Concurrency]: the
      handlers as such programs, which alone are the functions of [Routes],
      [Retrieval] and [Internal]; [Stability], [Interleaving] and [Retries]: what
      concurrent requests can do to each other; [Traffic]: the whole server as such programs,
      from the middleware to the provider and back.

    Definitions keep the names of the source; a method [m] of a class [C] is
    [C_m] where [m] alone would be ambiguous.  [Engine.build] calls [Tokens],
    [Candidates] and [Mmr] the way the class does; [Planner] is the older assembly
    path over the same counter; [Routes] is proved against the class
    [LLMProvider], which [Provider] implements.

    ** How state, errors and concurrency are modelled

    A function that can raise returns [res]; mutable locals of a loop are a
    record threaded through a fold whose step is the loop's body; objects are
    records returned updated.  A store method is a transaction over a record of
    tables: it commits, or leaves the tables as they were.  The routes are
    computations over a record of the tables, the services and the provider, in
    a monad whose exceptions keep the effects made before them.  The breaker, the
    limiter and the collectors hold a lock in every method, so each method is one
    atomic function of the clock reading.

    Concurrency appears at the level at which each component can observe it: for
    the breaker as a step relation over the attempts in flight; for the migrations
    as processes under an advisory lock; for the writers of the store as statements
    under row locks, which justifies taking a transaction as one step elsewhere;
    and for whole requests as programs of steps between two [await]s.

    ** What the theorems show

    - [Server]: from accepted settings through start-up and any sequence of
      requests the tables and the index stay consistent; what is refused touches
      nothing; what is admitted gets the answer of its route.
    - [Routes]: only an accepted request that fits reaches the provider; the client
      gets what the provider said, whatever becomes of its persistence.
    - [Interleaving], [Retries]: requests that interleave, time out and are
      cancelled keep all invariants and lose nothing; whatever is sent to the provider
      meanwhile was validated, fits and holds no text of another conversation;
      concurrent retries store one answer.
    - [Traffic]: under any traffic the limiter, the tables and the index stay
      consistent, no body above the limit reaches the application, and every request
      that has ended is accounted for once; alone, the programs are the server.
    - [Transactions]: the writers of the store serialise, none leaves a trace of an
      unfinished transaction, and they never deadlock.
    - [Engine]: a plan that is built fits the budget it reports and prices
      what it sends; it keeps every instruction, pinned item and message of
      the request, and a suffix of the recent turns, in order; nothing of
      another conversation is sent; it raises exactly when the mandatory part
      does not fit; deduplication keeps the raw message.
    - [Planner]: segmentation partitions a conversation into atomic units;
      a plan fits, drops only whole oldest units, as few as needed, and raises
      exactly when the mandatory part does not fit.
    - [Reconciliation]: every verdict is justified by a relation between the
      two histories; projections that clients make are accepted.
    - [Store]: every history of transactions keeps sequence numbers dense and
      references inside their conversation and only appends; reconciliation
      appends exactly the new messages or nothing, and nothing on a retry.
    - [Mmr], [Similarity]: the selection is the greedy one; similarity is a
      symmetric measure between 0 and 1, and 0 exactly without a common word.
    - [Memory], [Retrieval]: chunking is incremental, complete and exact;
      supersession is consistent and final; retrieval is isolated and ranked, and
      degrades to its lexical leg; indexing converges.
    - [Collections]: the bootstrap of the vector store is serialised and happens once
      for every time the collection was missing, whoever fails or is cancelled.
    - [Capture], [Streams]: a message is rebuilt from any fragmentation of it; the
      passthrough is untouched; a stream that is begun is closed exactly once and
      its callback is told once of what came.
    - [Resilience]: retries are bounded and follow connect failures only; the
      breaker never loses its probe.
    - [RateLimit], [Middleware], [Registry]: the limiter's table is bounded and
      consistent over any traffic; one request through the middleware; each series
      is the sum of what was added to it.
    - [Validation], [Identity]: what an accepted payload looks like; which
      conversation a request belongs to.
    - [Internal], [Diagnostics], [Logging]: nothing behind the gate runs without
      authorization; the preview is what a request would send; the inference URL
      is reduced to host and port; credentials do not reach the logs.
    - [Settings], [Main], [Migrations]: accepted settings build a working
      application, a run of it releases what it owns, and migrations are applied in
      order and once by any number of processes.

    A few [Example]s exhibit inputs on which the code departs from what its
    comments or documents say.

    ** Bounds and fuel

    Python integers are [Z].  Floats are exact rationals [Q], so rounding is
    not modelled except where the source calls [round].  Only loops that a
    structural recursion cannot follow take fuel, and their theorems are total: the
    selection of [mmr_select] takes the number of pairs left, of which every
    iteration removes one; eviction in the rate limiter takes the size of the table,
    of which every iteration removes one entry; retries take the number of attempts
    left.

    ** Parameters

    [Json.Host] stands for the interpreter: the rendering of floats, SHA-256
    and the JSON decoder; [Capture.Utf8] for the decoder of bytes, and
    [Similarity.MathSqrt] for the square root.  [Store.Postgres] stands for the cast
    to [jsonb], which can fail, and the generated identifiers, [Memory.Uuids] and
    [Identity.SessionIds] for the parsing, printing and hashing of UUIDs,
    [Retrieval.Search] for full-text ranks, and [Diagnostics.UrlChecks] for the
    checks of bracketed and non-ASCII hosts in URLs; their laws are classes beside
    them.  The embedding and vector servers and the inference endpoint are oracles
    that answer the n-th exchange in any way.  The similarity of the engine, the
    random numbers of the backoff, the effect of a migration script, the rendering
    of a response by the web framework and its parsing of typed internal requests
    are arguments of the definitions that use them.

    ** Not modelled

    Code points above U+00FF, infinities and NaN; log lines, but for what redaction
    makes of them, and the stage timings they report; the reading of the environment
    by pydantic and the registration of routes by FastAPI; the [ping] and [aclose] of
    clients, except as the lifespan and the diagnostics call them; the connection of
    an upstream answer with an error status. *)

From Corelib Require Export ssreflect.
From stdpp Require Export base sets list list_monad strings option tactics sorting.
From Stdlib Require Export ZArith Lia.

#[global] Open Scope general_if_scope.
Ltac done := stdpp.tactics.done.

(** ** Scopes *)

Declare Scope py_scope.
Delimit Scope py_scope with py.

(** ** Exceptions and the error monad

    Every exception class the modelled code raises.  [TypeError],
    [AttributeError], [KeyError], [IndexError], [AssertionError] and
    [RuntimeError] are Python's own, [PostgresError] (a constraint violation)
    and [DataError] (a parameter of the wrong type) are the database driver's,
    [HTTPError] (a transport failure or an error status) is the HTTP client's;
    the others are the program's.  The texts of infrastructure errors, which
    only go to the logs, are left out. *)

Inductive exn : Type :=
| TypeError
| AttributeError
| KeyError
| IndexError
| AssertionError
| RuntimeError
| PostgresError
| DataError
| HTTPError
| EmbeddingProviderError
| VectorStoreError
| RetrievalError
| HistoryDivergenceError (conversation_id : string) (index : nat)
    (diagnostics : option (string * string * list string))
| ValueError (message : string)
| PayloadValidationError (message : string)
| InvalidConversationId (message : string)
| PlannerOverflowError (required_tokens usable_budget : Z)
| EngineOverflowError (required_tokens usable_budget : Z).

#[global] Instance exn_eq_dec : EqDecision exn.
Proof. solve_decision. Defined.

(** A Python computation returns a value or raises. *)
Inductive res (A : Type) : Type :=
| Ok (a : A)
| Err (e : exn).
Arguments Ok {A} a.
Arguments Err {A} e.

#[global] Instance res_eq_dec `{EqDecision A} : EqDecision (res A).
Proof. solve_decision. Defined.

#[global] Instance res_ret : MRet res := @Ok.
#[global] Instance res_bind : MBind res := λ A B f m,
  match m with Ok a => f a | Err e => Err e end.
#[global] Instance res_fmap : FMap res := λ A B f m,
  match m with Ok a => Ok (f a) | Err e => Err e end.

Definition is_ok {A} (m : res A) : bool :=
  match m with Ok _ => true | Err _ => false end.

Lemma bind_Ok_inv {A B} (m : res A) (f : A → res B) b :
  m ≫= f = Ok b → ∃ a, m = Ok a ∧ f a = Ok b.
Proof. destruct m; simpl; [eauto|done]. Qed.

Lemma bind_Ok_iff {A B} (m : res A) (f : A → res B) b :
  m ≫= f = Ok b ↔ ∃ a, m = Ok a ∧ f a = Ok b.
Proof. split; [apply bind_Ok_inv|]. by intros (a & -> & ?). Qed.

Lemma bind_Err_inv {A B} (m : res A) (f : A → res B) e :
  m ≫= f = Err e → m = Err e ∨ ∃ a, m = Ok a ∧ f a = Err e.
Proof. destruct m; simpl; naive_solver. Qed.

Lemma bind_assoc {A B C} (m : res A) (f : A → res B) (g : B → res C) :
  (m ≫= f) ≫= g = m ≫= (λ a, f a ≫= g).
Proof. by destruct m. Qed.

Lemma fmap_Ok_inv {A B} (m : res A) (f : A → B) b :
  f <$> m = Ok b → ∃ a, m = Ok a ∧ b = f a.
Proof. destruct m; simpl; naive_solver. Qed.

(** [m] raises no exception outside of [E]. *)
Definition raises {A} (E : exn → Prop) (m : res A) : Prop :=
  match m with Ok _ => True | Err e => E e end.

Lemma raises_bind {A B} E (m : res A) (f : A → res B) :
  raises E m → (∀ a, m = Ok a → raises E (f a)) → raises E (m ≫= f).
Proof. destruct m; simpl; auto. Qed.

Lemma raises_fmap {A B} E (f : A → B) (m : res A) : raises E m → raises E (f <$> m).
Proof. by destruct m. Qed.

(** Destructs every successful bind in the hypotheses. *)
Ltac inv_res :=
  repeat match goal with
  | H : mbind _ _ = Ok _ |- _ =>
      let a := fresh "a" in let H1 := fresh "Hok" in let H2 := fresh "Hk" in
      apply bind_Ok_inv in H as (a & H1 & H2); simpl in H2
  | H : fmap _ _ = Ok _ |- _ =>
      let a := fresh "a" in let H1 := fresh "Hok" in
      apply fmap_Ok_inv in H as (a & H1 & ?)
  | H : Ok _ = Ok _ |- _ => injection H as H
  | H : mret _ = Ok _ |- _ => injection H as H
  | H : Err _ = Ok _ |- _ => discriminate H
  | H : Ok _ = Err _ |- _ => discriminate H
  | H : Err _ = Err _ |- _ => injection H as H
  end; simplify_eq.

(** *** [mapM] in the error monad *)

Section res_mapM.
Context {A B : Type}.
Implicit Types (f g : A → res B) (l : list A).

Lemma mapM_res_Ok f l k :
  mapM f l = Ok k ↔ Forall2 (λ x y, f x = Ok y) l k.
Proof.
  revert k. induction l as [|x l IH]; intros k; simpl.
  - split; [intros H; inv_res; constructor|by inversion 1].
  - split.
    + intros H. inv_res. constructor; [done|]. by apply IH.
    + inversion 1 as [|? y ? k' Hx Hl]; subst.
      by rewrite Hx /= (proj2 (IH _) Hl).
Qed.

Lemma mapM_res_app f l1 l2 :
  mapM f (l1 ++ l2) = k1 ← mapM f l1; k2 ← mapM f l2; mret (k1 ++ k2).
Proof.
  induction l1 as [|x l1 IH]; simpl; [by destruct (mapM f l2)|].
  destruct (f x); simpl; [|done]. rewrite IH.
  destruct (mapM f l1); simpl; [|done]. by destruct (mapM f l2).
Qed.

Lemma mapM_res_length f l k : mapM f l = Ok k → length k = length l.
Proof. intros H%mapM_res_Ok. symmetry. by eapply Forall2_length in H. Qed.

Lemma mapM_res_ext f g l :
  (∀ x, x ∈ l → f x = g x) → mapM f l = mapM g l.
Proof.
  induction l as [|x l IH]; intros H; simpl; [done|].
  rewrite (H x); [set_solver|]. rewrite IH; [set_solver|done].
Qed.

(** [mapM] succeeds exactly when every element does. *)
Lemma mapM_res_is_ok f l :
  is_ok (mapM f l) = forallb (λ x, is_ok (f x)) l.
Proof.
  induction l as [|x l IH]; simpl; [done|].
  destruct (f x); simpl; [|done]. rewrite -IH. by destruct (mapM f l).
Qed.
End res_mapM.

(** *** Loops: a [for] statement over a list, threading its local state *)

Section foldM.
Context {S A : Type} (body : S → A → res S).

Fixpoint foldM (s : S) (l : list A) : res S :=
  match l with
  | [] => Ok s
  | x :: l' => s' ← body s x; foldM s' l'
  end.

Lemma foldM_app s l k : foldM s (l ++ k) = s' ← foldM s l; foldM s' k.
Proof. revert s. induction l as [|x l IH]; intros s; simpl; [done|]. destruct (body s x); simpl; auto. Qed.

(** Loop invariant over the processed prefix. *)
Lemma raises_foldM E (P : A → Prop) l s :
  Forall P l → (∀ t x, P x → raises E (body t x)) → raises E (foldM s l).
Proof.
  intros Hl Hb. revert s. induction Hl as [|x l Hx _ IH]; intros s; simpl; [done|].
  apply raises_bind; auto.
Qed.

Lemma foldM_inv (I : list A → S → Prop) s l s' :
  I [] s →
  (∀ pre x t t', I pre t → body t x = Ok t' → I (pre ++ [x]) t') →
  foldM s l = Ok s' → I l s'.
Proof.
  intros H0 Hstep. revert s'. induction l as [|x l IH] using rev_ind; intros s'.
  - simpl. intros H. by injection H as <-.
  - rewrite foldM_app. intros H. inv_res.
    destruct (body a x) as [t|] eqn:E; simpl in *; inv_res. eauto.
Qed.

(** The loop runs to its end when its body never raises under the invariant. *)
Lemma foldM_total (I : list A → S → Prop) s l :
  I [] s →
  (∀ pre x t, pre ++ [x] `prefix_of` l → I pre t →
     ∃ t', body t x = Ok t' ∧ I (pre ++ [x]) t') →
  ∃ s', foldM s l = Ok s' ∧ I l s'.
Proof.
  intros H0. induction l as [|x l IH] using rev_ind; intros Hstep.
  - by exists s.
  - destruct IH as (t & Ht & Hi).
    { intros pre y t Hpre. apply Hstep. by apply prefix_app_r. }
    destruct (Hstep l x t) as (t' & Hb & Hi'); [done..|].
    exists t'. rewrite foldM_app Ht /= Hb. done.
Qed.
End foldM.

(** ** Integer sums *)

Definition sumZ (l : list Z) : Z := foldr Z.add 0%Z l.

Lemma sumZ_app l k : sumZ (l ++ k) = (sumZ l + sumZ k)%Z.
Proof. induction l; simpl; lia. Qed.

Lemma sumZ_nonneg l : Forall (λ z, 0 ≤ z)%Z l → (0 ≤ sumZ l)%Z.
Proof. induction 1; simpl; lia. Qed.

Lemma sumZ_Permutation l k : l ≡ₚ k → sumZ l = sumZ k.
Proof. induction 1; simpl; lia. Qed.

Lemma sumZ_filter_split {A} (P : A → Prop) `{∀ x, Decision (P x)} (f : A → Z) l :
  sumZ (f <$> l) =
  (sumZ (f <$> filter P l) + sumZ (f <$> filter (λ x, ¬ P x) l))%Z.
Proof.
  induction l as [|x l IH]; simpl; [done|].
  rewrite !filter_cons. destruct (decide (P x)); case_decide; csimpl; try tauto; lia.
Qed.

Lemma sumZ_fmap_sublist {A} (f : A → Z) l k :
  (∀ x, 0 ≤ f x)%Z → sublist l k → (sumZ (f <$> l) ≤ sumZ (f <$> k))%Z.
Proof. intros Hf. induction 1 as [|x l k _ IH|x l k _ IH]; csimpl; [done|lia|]. specialize (Hf x). lia. Qed.

(** ** Lists *)

Lemma concat_fmap_app {A B} (f : A → list B) l k :
  concat (f <$> (l ++ k)) = concat (f <$> l) ++ concat (f <$> k).
Proof. by rewrite fmap_app concat_app. Qed.

Lemma elem_of_concat_fmap {A B} (f : A → list B) l y :
  y ∈ concat (f <$> l) ↔ ∃ x, x ∈ l ∧ y ∈ f x.
Proof.
  induction l as [|x l IH]; csimpl; [set_solver|].
  rewrite elem_of_app IH. set_solver.
Qed.

Lemma Forall2_fmap_l_eq {A B C} (f : A → C) (g : B → C) l k :
  Forall2 (λ x y, f x = g y) l k → f <$> l = g <$> k.
Proof. induction 1; csimpl; congruence. Qed.

Lemma filter_all {A} (P : A → Prop) `{∀ x, Decision (P x)} l :
  Forall P l → filter P l = l.
Proof. induction 1; [done|]. rewrite filter_cons_True //. by f_equal. Qed.

Lemma filter_none {A} (P : A → Prop) `{∀ x, Decision (P x)} l :
  Forall (λ x, ¬ P x) l → filter P l = [].
Proof. induction 1; [done|]. by rewrite filter_cons_False. Qed.

Lemma take_split {A} a b (l : list A) : a ≤ b → take b l = take a l ++ drop a (take b l).
Proof.
  intros H. rewrite -{1}(take_drop a (take b l)) take_take.
  by replace (a `min` b) with a by lia.
Qed.

Lemma drop_nonempty {A} n (l : list A) : n < length l → drop n l ≠ [].
Proof. intros H E%(f_equal length). rewrite length_drop /= in E. lia. Qed.

Lemma take_nonempty {A} n (l : list A) : 0 < n → 0 < length l → take n l ≠ [].
Proof. intros H1 H2 E%(f_equal length). rewrite length_take /= in E. lia. Qed.

Lemma Forall_filter_l {A} (P Q : A → Prop) `{∀ x, Decision (Q x)} l :
  Forall P l → Forall P (filter Q l).
Proof. rewrite !Forall_forall. intros Hl x [_ Hx]%list_elem_of_filter. auto. Qed.

Lemma filter_snoc_bool {A} (f : A → bool) b l x :
  filter (λ y, f y = b) (l ++ [x]) =
  filter (λ y, f y = b) l ++ (if Bool.eqb (f x) b then [x] else []).
Proof.
  rewrite filter_app filter_cons filter_nil. case_decide as H.
  - by rewrite H Bool.eqb_reflx.
  - by destruct (f x), b.
Qed.

(** Replacing one summand. *)
Lemma sum_list_with_insert {A} (f : A → nat) (l : list A) i x y :
  l !! i = Some x → (sum_list_with f (<[i := y]> l) + f x = sum_list_with f l + f y)%nat.
Proof.
  intros Hi. rewrite insert_take_drop; [by eapply lookup_lt_Some|].
  rewrite -{3}(take_drop_middle _ _ _ Hi) !sum_list_with_app /=. lia.
Qed.

(** ** Stable sorting

    Python's [sorted(l, key=...)] is stable.  Insertion from the right with a
    non-strict test keeps equal elements in their original order. *)

Section py_sorted.
Context {A : Type} (leb : A → A → bool).

Fixpoint insert_by (x : A) (l : list A) : list A :=
  match l with
  | [] => [x]
  | y :: l' => if leb x y then x :: y :: l' else y :: insert_by x l'
  end.

Definition py_sorted (l : list A) : list A := foldr insert_by [] l.

Lemma insert_by_perm x l : insert_by x l ≡ₚ x :: l.
Proof.
  induction l as [|y l IH]; simpl; [done|].
  destruct (leb x y); [done|]. rewrite IH. apply Permutation_swap.
Qed.

Lemma py_sorted_perm l : py_sorted l ≡ₚ l.
Proof. induction l as [|x l IH]; simpl; [done|]. by rewrite insert_by_perm IH. Qed.

Lemma py_sorted_length l : length (py_sorted l) = length l.
Proof. apply Permutation_length, py_sorted_perm. Qed.

Lemma elem_of_py_sorted x l : x ∈ py_sorted l ↔ x ∈ l.
Proof. by rewrite py_sorted_perm. Qed.

Context (leb_total : ∀ x y, leb x y = true ∨ leb y x = true).
Context (leb_trans : ∀ x y z, leb x y = true → leb y z = true → leb x z = true).

Notation le := (λ x y, leb x y = true).

Lemma insert_by_sorted x l :
  StronglySorted le l → StronglySorted le (insert_by x l).
Proof.
  induction 1 as [|y l Hl IH Hy]; simpl; [repeat constructor|].
  destruct (leb x y) eqn:E.
  - constructor; [by constructor|]. constructor; [done|].
    eapply Forall_impl; [exact Hy|]. eauto.
  - constructor; [done|]. rewrite insert_by_perm.
    constructor; [|done]. destruct (leb_total x y); congruence.
Qed.

Lemma py_sorted_sorted l : StronglySorted le (py_sorted l).
Proof. induction l; simpl; [constructor|]. by apply insert_by_sorted. Qed.

(** Stability: sorting an already sorted list changes nothing. *)
Lemma py_sorted_id l : StronglySorted le l → py_sorted l = l.
Proof.
  induction 1 as [|x l Hl IH Hx]; simpl; [done|]. rewrite IH.
  destruct l as [|y l]; simpl; [done|]. by inversion Hx; simplify_eq; rewrite H1.
Qed.
End py_sorted.

(** A sublist of a sorted list is sorted. *)
Lemma sorted_sublist {A} (R : A → A → Prop) k l :
  sublist k l → StronglySorted R l → StronglySorted R k.
Proof.
  induction 1 as [|x k l Hs IH|x k l Hs IH]; intros Ha; [constructor|..];
    inversion_clear Ha as [|?? Hl Hx]; [|auto].
  constructor; [auto|]. rewrite Forall_forall in Hx. apply Forall_forall.
  intros y Hy. apply Hx. by eapply sublist_subseteq.
Qed.

(** Sorting the images under an order embedding. *)
Lemma py_sorted_fmap {A B} (f : A → B) (leb : A → A → bool) (leb' : B → B → bool) l :
  (∀ x y, leb' (f x) (f y) = leb x y) → py_sorted leb' (f <$> l) = f <$> py_sorted leb l.
Proof.
  intros Hf. induction l as [|x l IH]; [done|]. csimpl. rewrite IH. clear IH.
  induction (py_sorted leb l) as [|y k IH]; [done|]. csimpl. rewrite Hf.
  destruct (leb x y); [done|]. csimpl. by rewrite IH.
Qed.

(** ** Hints *)

Create HintDb py.
#[export] Hint Resolve sumZ_nonneg py_sorted_perm : py.
#[export] Hint Rewrite @sumZ_app @concat_fmap_app : py.
