(* ===== verification/PyDict.v ===== *)
(** * Python dictionaries

    A Python [dict] remembers insertion order: assigning to a present key
    keeps its position, assigning to an absent one appends, and deletion
    removes the entry.  Iteration order is observable in this program (LRU
    ties, tool-call slots, serialization), so a dict is an association list
    in insertion order, not a finite map. *)

From S2P Require Import Prelude.

Section dict.
Context {K V : Type} `{EqDecision K}.
Implicit Types (d : list (K * V)) (k : K) (v : V).

(** [d.get(k)] *)
Fixpoint dget d k : option V :=
  match d with
  | [] => None
  | (k', v) :: d' => if decide (k = k') then Some v else dget d' k
  end.

(** [d[k] = v] *)
Fixpoint dset d k v : list (K * V) :=
  match d with
  | [] => [(k, v)]
  | (k', v') :: d' =>
      if decide (k = k') then (k', v) :: d' else (k', v') :: dset d' k v
  end.

(** [del d[k]], and [d.pop(k, None)] seen as an effect *)
Fixpoint ddel d k : list (K * V) :=
  match d with
  | [] => []
  | (k', v') :: d' =>
      if decide (k = k') then d' else (k', v') :: ddel d' k
  end.

(** [k in d] *)
Definition dmem d k : bool :=
  match dget d k with Some _ => true | None => false end.

(** [d.setdefault(k, v)] seen as an effect *)
Definition dsetdefault d k v : list (K * V) :=
  match dget d k with Some _ => d | None => dset d k v end.

(** No key occurs twice. *)
Definition dwf d : Prop := NoDup d.*1.

Lemma dget_Some_In d k v : dget d k = Some v → (k, v) ∈ d.
Proof.
  induction d as [|[k' v'] d IH]; simpl; [done|].
  case_decide; intros; simplify_eq; set_solver.
Qed.

Lemma dget_Some_key d k v : dget d k = Some v → k ∈ d.*1.
Proof. intros H%dget_Some_In. by apply (list_elem_of_fmap_2 fst) in H. Qed.

Lemma dget_None d k : dget d k = None ↔ k ∉ d.*1.
Proof.
  induction d as [|[k' v'] d IH]; simpl; [set_solver|].
  case_decide; set_solver.
Qed.

Lemma dget_is_Some d k : is_Some (dget d k) ↔ k ∈ d.*1.
Proof. rewrite -not_eq_None_Some dget_None. destruct (decide (k ∈ d.*1)); tauto. Qed.

Lemma dmem_true d k : dmem d k = true ↔ k ∈ d.*1.
Proof. rewrite -dget_is_Some /dmem. destruct (dget d k); naive_solver. Qed.

Lemma dget_In d k v : dwf d → (k, v) ∈ d → dget d k = Some v.
Proof.
  induction d as [|[k' v'] d IH]; [set_solver|].
  intros [Hk Hd]%NoDup_cons Hin. simpl in *.
  apply elem_of_cons in Hin as [|Hin]; simplify_eq; case_decide; simplify_eq; [done|..].
  - destruct Hk. by apply (list_elem_of_fmap_2 fst) in Hin.
  - by apply IH.
Qed.

Lemma dget_dset_eq d k v : dget (dset d k v) k = Some v.
Proof. induction d as [|[k' v'] d IH]; simpl; repeat (case_decide; simpl); congruence. Qed.

Lemma dset_dset d k v w : dset (dset d k v) k w = dset d k w.
Proof. induction d as [|[k' v'] d IH]; simpl; repeat (case_decide; simpl); congruence. Qed.

Lemma dset_dsetdefault d k v w : dset (dsetdefault d k v) k w = dset d k w.
Proof. unfold dsetdefault. destruct (dget d k); [done|]. apply dset_dset. Qed.

Lemma dget_dset_ne d k k' v : k ≠ k' → dget (dset d k v) k' = dget d k'.
Proof.
  intros Hne. induction d as [|[k'' v''] d IH]; simpl; repeat (case_decide; simpl); congruence.
Qed.

Lemma dget_ddel_ne d k k' : k ≠ k' → dget (ddel d k) k' = dget d k'.
Proof.
  intros Hne. induction d as [|[k'' v''] d IH]; simpl; repeat (case_decide; simpl); congruence.
Qed.

Lemma dget_ddel_eq d k : dwf d → dget (ddel d k) k = None.
Proof.
  intros Hd. apply dget_None. unfold dwf in Hd. induction d as [|[k' v] d IH]; simpl in *; [set_solver|].
  apply NoDup_cons in Hd as [Hk Hd]. case_decide; subst; [done|]. csimpl. set_solver.
Qed.

Lemma keys_dset_present d k v : k ∈ d.*1 → (dset d k v).*1 = d.*1.
Proof.
  induction d as [|[k' v'] d IH]; simpl; [set_solver|].
  intros H. case_decide; simpl; f_equal. apply IH. set_solver.
Qed.

Lemma keys_dset_absent d k v : k ∉ d.*1 → (dset d k v).*1 = d.*1 ++ [k].
Proof.
  induction d as [|[k' v'] d IH]; simpl; [done|].
  intros H. case_decide; simpl; [set_solver|]. f_equal. apply IH. set_solver.
Qed.

Lemma elem_of_keys_dset d k k' v : k' ∈ (dset d k v).*1 ↔ k' = k ∨ k' ∈ d.*1.
Proof.
  destruct (decide (k ∈ d.*1)) as [H|H].
  - rewrite keys_dset_present //. set_solver.
  - rewrite keys_dset_absent //. set_solver.
Qed.

Lemma keys_ddel_sublist d k : sublist (ddel d k).*1 d.*1.
Proof.
  induction d as [|[k' v'] d IH]; simpl; [constructor|].
  case_decide; simpl; [by apply sublist_cons|by apply sublist_skip].
Qed.

Lemma elem_of_keys_ddel d k k' :
  dwf d → k' ∈ (ddel d k).*1 ↔ k' ≠ k ∧ k' ∈ d.*1.
Proof.
  induction d as [|[k'' v''] d IH]; simpl; [set_solver|].
  intros [Hk Hd]%NoDup_cons. case_decide; simplify_eq/=; [set_solver|].
  rewrite !elem_of_cons IH //. set_solver.
Qed.

Lemma elem_of_ddel d k x : x ∈ ddel d k → x ∈ d.
Proof.
  induction d as [|[k' v'] d IH]; simpl; [done|]. case_decide; set_solver.
Qed.

Lemma elem_of_dset d k v x : x ∈ (dset d k v).*2 → x = v ∨ x ∈ d.*2.
Proof.
  induction d as [|[k' v'] d IH]; simpl; [set_solver|].
  case_decide; simpl; set_solver.
Qed.

Lemma dwf_dset d k v : dwf d → dwf (dset d k v).
Proof.
  intros Hd. unfold dwf. destruct (decide (k ∈ d.*1)) as [H|H].
  - by rewrite keys_dset_present.
  - rewrite keys_dset_absent //. apply NoDup_app. set_solver by eauto using NoDup_singleton.
Qed.

Lemma dwf_ddel d k : dwf d → dwf (ddel d k).
Proof. intros Hd. by eapply sublist_NoDup; [|apply keys_ddel_sublist]. Qed.

Lemma length_dset_present d k v : k ∈ d.*1 → length (dset d k v) = length d.
Proof. intros H. by rewrite -(length_fmap fst) keys_dset_present // length_fmap. Qed.

Lemma length_dset_absent d k v : k ∉ d.*1 → length (dset d k v) = S (length d).
Proof.
  intros H. rewrite -(length_fmap fst) keys_dset_absent //.
  rewrite length_app length_fmap /=. lia.
Qed.

Lemma length_ddel d k : k ∈ d.*1 → S (length (ddel d k)) = length d.
Proof.
  induction d as [|[k' v'] d IH]; simpl; [set_solver|].
  intros H. case_decide; simpl; [done|]. f_equal. apply IH. set_solver.
Qed.
End dict.

#[export] Hint Resolve dwf_dset dwf_ddel : py.
