(* ===== verification/PyString.v ===== *)
(** * Python strings

    A Python [str] is a sequence of code points.  It is modelled by [string]
    with one [ascii] per code point, which covers U+0000 to U+00FF: on that
    range [len], slicing, [strip], [lower], [splitlines] and comparison are
    written out below exactly as CPython computes them.  Code points above
    U+00FF are outside the model. *)

From S2P Require Import Prelude.
Local Open Scope Z_scope.

(** Code point of a character. *)
Definition ord (c : Ascii.ascii) : Z := Z.of_N (Ascii.N_of_ascii c).
Definition chr (z : Z) : Ascii.ascii := Ascii.ascii_of_N (Z.to_N z).

(** [len(s)] *)
Definition slen (s : string) : Z := Z.of_nat (String.length s).

Definition str1 (c : Ascii.ascii) : string := String c EmptyString.

(** Characters that a literal cannot spell. *)
Definition dquote : string := str1 (chr 34).
Definition nl : string := str1 (chr 10).
Definition blank : Ascii.ascii := chr 32.

(** [str.isspace] on one character; the class [\s] of [re] is the same set. *)
Definition is_space (c : Ascii.ascii) : bool :=
  let z := ord c in
  ((9 <=? z) && (z <=? 13)) || ((28 <=? z) && (z <=? 32)) || (z =? 133) || (z =? 160).

(** [str.lower] on one character. *)
Definition lower_char (c : Ascii.ascii) : Ascii.ascii :=
  let z := ord c in
  if ((65 <=? z) && (z <=? 90)) || ((192 <=? z) && (z <=? 222) && negb (z =? 215))
  then chr (z + 32) else c.

Fixpoint smap (f : Ascii.ascii → Ascii.ascii) (s : string) : string :=
  match s with
  | EmptyString => EmptyString
  | String c s' => String (f c) (smap f s')
  end.

(** [s.lower()] *)
Definition lower : string → string := smap lower_char.

(** [s.lstrip()], [s.rstrip()] and [s.strip()] *)
Fixpoint lstrip (s : string) : string :=
  match s with
  | EmptyString => EmptyString
  | String c s' => if is_space c then lstrip s' else s
  end.

Fixpoint rstrip (s : string) : string :=
  match s with
  | EmptyString => EmptyString
  | String c s' =>
      match rstrip s' with
      | EmptyString => if is_space c then EmptyString else str1 c
      | t => String c t
      end
  end.

Definition strip (s : string) : string := rstrip (lstrip s).

(** [re.sub(r"\s+", " ", s)]: [in_space] says that the previous character
    was white space, so its run has already produced the single blank. *)
Fixpoint collapse_from (in_space : bool) (s : string) : string :=
  match s with
  | EmptyString => EmptyString
  | String c s' =>
      if is_space c
      then if in_space then collapse_from true s'
           else String blank (collapse_from true s')
      else String c (collapse_from false s')
  end.

Definition collapse_spaces : string → string := collapse_from false.

(** [s.startswith(p)] *)
Definition startswith (p s : string) : bool := String.prefix p s.

(** [p in s] *)
Fixpoint contains (p s : string) : bool :=
  String.prefix p s ||
  match s with
  | EmptyString => false
  | String _ s' => contains p s'
  end.

(** [s[:n]] and [s[n:]] for [n] at least 0 *)
Fixpoint stake (n : nat) (s : string) : string :=
  match n, s with
  | O, _ | _, EmptyString => EmptyString
  | S n', String c s' => String c (stake n' s')
  end.

Fixpoint sdrop (n : nat) (s : string) : string :=
  match n, s with
  | O, _ => s
  | S _, EmptyString => EmptyString
  | S n', String _ s' => sdrop n' s'
  end.

(** [sep.join(l)] *)
Fixpoint join (sep : string) (l : list string) : string :=
  match l with
  | [] => EmptyString
  | [s] => s
  | s :: l' => s +:+ sep +:+ join sep l'
  end.

(** The line boundaries of [str.splitlines]. *)
Definition is_linebreak (c : Ascii.ascii) : bool :=
  let z := ord c in
  ((10 <=? z) && (z <=? 13)) || ((28 <=? z) && (z <=? 30)) || (z =? 133).

(** [s.splitlines()]: [acc] is the current line, reversed; [after_cr] says
    that the previous character was a carriage return, so that a line feed
    now belongs to the same boundary. *)
Fixpoint srev_app (s t : string) : string :=
  match s with
  | EmptyString => t
  | String c s' => srev_app s' (String c t)
  end.
Definition srev (s : string) : string := srev_app s EmptyString.

Fixpoint splitlines_from (acc : string) (after_cr : bool) (s : string) : list string :=
  match s with
  | EmptyString => match acc with EmptyString => [] | _ => [srev acc] end
  | String c s' =>
      if after_cr && (ord c =? 10) then splitlines_from acc false s'
      else if is_linebreak c
      then srev acc :: splitlines_from EmptyString (ord c =? 13) s'
      else splitlines_from (String c acc) false s'
  end.

Definition splitlines : string → list string := splitlines_from EmptyString false.

(** [s.split(c)] for a one-character separator. *)
Fixpoint split_char_from (sep : Ascii.ascii) (acc : string) (s : string) : list string :=
  match s with
  | EmptyString => [srev acc]
  | String c s' =>
      if decide (c = sep) then srev acc :: split_char_from sep EmptyString s'
      else split_char_from sep (String c acc) s'
  end.

Definition split_char (sep : Ascii.ascii) : string → list string :=
  split_char_from sep EmptyString.

(** Truth value of a string. *)
Definition snonempty (s : string) : bool :=
  match s with EmptyString => false | _ => true end.

(** Python's [<=] on strings: lexicographic in code points. *)
Definition str_leb (s t : string) : bool := String.leb s t.

(** ** Lemmas *)

Lemma slen_nonneg s : 0 ≤ slen s.
Proof. unfold slen. lia. Qed.

Lemma string_app_nil_r s : s +:+ EmptyString = s.
Proof. induction s as [|c s IH]; [done|]. change (String c (s +:+ EmptyString) = String c s). by f_equal. Qed.

Lemma string_app_assoc s t u : (s +:+ t) +:+ u = s +:+ (t +:+ u).
Proof.
  induction s as [|c s IH]; [done|].
  change (String c ((s +:+ t) +:+ u) = String c (s +:+ (t +:+ u))). by f_equal.
Qed.

Lemma slen_app s t : slen (s +:+ t) = slen s + slen t.
Proof.
  unfold slen. induction s as [|c s IH]; [done|].
  change (String c s +:+ t) with (String c (s +:+ t)). cbn [String.length]. lia.
Qed.

Lemma length_stake n s : String.length (stake n s) = (n `min` String.length s)%nat.
Proof. revert s. induction n as [|n IH]; intros [|c s]; simpl; try done. by rewrite IH. Qed.

Lemma stake_sdrop n s : stake n s +:+ sdrop n s = s.
Proof.
  revert s. induction n as [|n IH]; intros [|c s]; try done.
  change (String c (stake n s +:+ sdrop n s) = String c s). by rewrite IH.
Qed.

Lemma str_leb_total s t : str_leb s t = true ∨ str_leb t s = true.
Proof. apply String.leb_total. Qed.

Lemma str_leb_refl s : str_leb s s = true.
Proof. destruct (str_leb_total s s); done. Qed.

Lemma str_leb_antisym s t : str_leb s t = true → str_leb t s = true → s = t.
Proof. apply String.leb_antisym. Qed.

Lemma str_leb_trans s t u : str_leb s t = true → str_leb t u = true → str_leb s u = true.
Proof.
  intros H1 H2. apply Is_true_true. pose proof (String.le_po) as [[_ Ht] _].
  by apply (Ht s t u); apply Is_true_true.
Qed.

(** Every property of one character is decided on the 256 code points. *)
Ltac by_char c := destruct c as [[][][][][][][][]]; vm_compute; try done; try congruence.

Lemma lower_char_space c : is_space (lower_char c) = is_space c.
Proof. by_char c. Qed.

Lemma lower_char_idemp c : lower_char (lower_char c) = lower_char c.
Proof. by_char c. Qed.

Lemma lower_char_blank : lower_char blank = blank.
Proof. done. Qed.

Lemma is_space_blank : is_space blank = true.
Proof. done. Qed.

(** Collapsed text: every white-space character is a blank and no two are
    adjacent; [b] says that a blank may not come next. *)
Fixpoint collapsed (b : bool) (s : string) : bool :=
  match s with
  | EmptyString => true
  | String c s' =>
      if is_space c
      then negb b && bool_decide (c = blank) && collapsed true s'
      else collapsed false s'
  end.

Lemma collapse_from_collapsed b s : collapsed b (collapse_from b s) = true.
Proof.
  revert b. induction s as [|c s IH]; intros b; simpl; [done|].
  destruct (is_space c) eqn:Ec; [|by simpl; rewrite Ec].
  destruct b; [done|]. simpl. by rewrite IH.
Qed.

Lemma collapsed_collapse b s : collapsed b s = true → collapse_from b s = s.
Proof.
  revert b. induction s as [|c s IH]; intros b; simpl; [done|].
  destruct (is_space c) eqn:Ec.
  - intros [[? ->%bool_decide_eq_true]%andb_prop ?]%andb_prop.
    destruct b; [done|]. by rewrite IH.
  - intros. by rewrite IH.
Qed.

Lemma collapsed_weaken s : collapsed true s = true → collapsed false s = true.
Proof. destruct s as [|c s]; simpl; [done|]. by destruct (is_space c). Qed.

Lemma collapsed_lstrip s : collapsed false s = true → collapsed true (lstrip s) = true.
Proof.
  induction s as [|c s IH]; simpl; [done|]. destruct (is_space c) eqn:Ec.
  - intros [_ H]%andb_prop. apply IH. by apply collapsed_weaken.
  - simpl. by rewrite Ec.
Qed.

Lemma collapsed_rstrip b s : collapsed b s = true → collapsed b (rstrip s) = true.
Proof.
  revert b. induction s as [|c s IH]; intros b; simpl; [done|].
  destruct (is_space c) eqn:Ec.
  - intros [[Hb Hc]%andb_prop Hs]%andb_prop. specialize (IH _ Hs).
    destruct (rstrip s) as [|c' s']; [done|].
    change (collapsed b (String c (String c' s')) = true).
    simpl in *. rewrite Ec Hb Hc /=. done.
  - intros Hs. specialize (IH _ Hs).
    destruct (rstrip s) as [|c' s']; simpl in *; rewrite Ec; done.
Qed.

Lemma collapsed_lower b s : collapsed b s = true → collapsed b (lower s) = true.
Proof.
  revert b. induction s as [|c s IH]; intros b; simpl; [done|].
  rewrite lower_char_space. destruct (is_space c); [|by apply IH].
  intros [[-> ->%bool_decide_eq_true]%andb_prop Hs]%andb_prop. simpl.
  by rewrite IH.
Qed.

Lemma collapsed_lstrip_id s : collapsed true s = true → lstrip s = s.
Proof. destruct s as [|c s]; simpl; [done|]. by destruct (is_space c). Qed.

Lemma rstrip_idemp s : rstrip (rstrip s) = rstrip s.
Proof.
  induction s as [|c s IH]; simpl; [done|].
  destruct (rstrip s) as [|c' s'] eqn:E.
  - destruct (is_space c) eqn:Ec; simpl; [done|]. by rewrite Ec.
  - change (match rstrip (String c' s') with
            | EmptyString => if is_space c then EmptyString else str1 c
            | t => String c t end = String c (String c' s')).
    by rewrite IH.
Qed.

Lemma rstrip_lower s : rstrip (lower s) = lower (rstrip s).
Proof.
  induction s as [|c s IH]; [done|].
  change (lower (String c s)) with (String (lower_char c) (lower s)).
  cbn [rstrip]. rewrite IH lower_char_space.
  destruct (rstrip s) as [|c' s']; simpl; [by destruct (is_space c)|done].
Qed.

Lemma lower_idemp s : lower (lower s) = lower s.
Proof. unfold lower. induction s as [|c s IH]; simpl; [done|]. by rewrite lower_char_idemp IH. Qed.

(** ** Occurrences of a character *)

Fixpoint has_char (x : Ascii.ascii) (s : string) : bool :=
  match s with EmptyString => false | String c s' => bool_decide (c = x) || has_char x s' end.

Lemma has_char_app x s t : has_char x (s +:+ t) = has_char x s || has_char x t.
Proof.
  induction s as [|c s IH]; [done|]. change (String c s +:+ t) with (String c (s +:+ t)). simpl.
  by rewrite IH orb_assoc.
Qed.

Lemma app_cons c s t : String c s +:+ t = String c (s +:+ t).
Proof. done. Qed.
