(* ===== verification/Json.v ===== *)
(** * JSON values and the dynamic operations of Python on them

    The program is written against decoded JSON: [None], booleans, integers,
    floats, strings, lists and string-keyed dicts.  This file gives that data
    type, Python's truth value, equality, [len], iteration, [str]/[repr] and
    attribute errors on it, and [json.dumps].

    Floats are the finite ones, as exact rationals ([NaN] and the infinities
    are not JSON).  Their decimal rendering, the SHA-256 digest and the JSON
    decoder are parameters ([Host]): they belong to the interpreter. *)

From stdpp Require Import pretty.
From Stdlib Require Import QArith.
From S2P Require Import Prelude PyDict PyString.
Local Open Scope Z_scope.

Inductive json : Type :=
| JNull
| JBool (b : bool)
| JInt (z : Z)
| JFloat (q : Q)
| JStr (s : string)
| JList (l : list json)
| JObj (kvs : list (string * json)).

(** A decoded JSON object, the [dict[str, Any]] of the source. *)
Notation obj := (list (string * json)) (only parsing).

(** The interpreter's float formatting, SHA-256 (as a hexadecimal digest) and
    JSON decoder ([None] where [json.loads] raises [ValueError]). *)
Class Host : Type := {
  float_repr : Q → string;
  sha256_hexdigest : string → string;
  json_loads : string → option json;
}.

(** ** Induction and well-formedness *)

Section json_ind.
Context (P : json → Prop).
Context (Hnull : P JNull) (Hbool : ∀ b, P (JBool b)) (Hint : ∀ z, P (JInt z))
  (Hfloat : ∀ q, P (JFloat q)) (Hstr : ∀ s, P (JStr s))
  (Hlist : ∀ l, Forall P l → P (JList l))
  (Hobj : ∀ d : obj, Forall P d.*2 → P (JObj d)).

Fixpoint json_nested_ind (v : json) : P v :=
  match v with
  | JNull => Hnull
  | JBool b => Hbool b
  | JInt z => Hint z
  | JFloat q => Hfloat q
  | JStr s => Hstr s
  | JList l =>
      Hlist l ((fix go l : Forall P l :=
        match l with
        | [] => @List.Forall_nil json P
        | x :: l' => @List.Forall_cons json P x l' (json_nested_ind x) (go l')
        end) l)
  | JObj d =>
      Hobj d ((fix go (d : obj) : Forall P d.*2 :=
        match d with
        | [] => @List.Forall_nil json P
        | (k, x) :: d' => @List.Forall_cons json P x d'.*2 (json_nested_ind x) (go d')
        end) d)
  end.
End json_ind.

(** Every dict in the value has distinct keys. *)
Fixpoint json_wf (v : json) : Prop :=
  match v with
  | JList l => (fix go l := match l with [] => True | x :: l' => json_wf x ∧ go l' end) l
  | JObj d =>
      dwf d ∧
      (fix go (d : obj) := match d with [] => True | (_, x) :: d' => json_wf x ∧ go d' end) d
  | _ => True
  end.

Definition obj_wf (d : obj) : Prop := json_wf (JObj d).

Lemma json_wf_list l : json_wf (JList l) ↔ Forall json_wf l.
Proof. induction l as [|x l IH]; simpl in *; [done|]. by rewrite IH Forall_cons. Qed.

Lemma json_wf_obj (d : obj) : json_wf (JObj d) ↔ dwf d ∧ Forall json_wf d.*2.
Proof.
  simpl. f_equiv. clear. induction d as [|[k x] d IH]; simpl; [done|].
  by rewrite IH Forall_cons.
Qed.

Lemma obj_wf_ddel (d : obj) k : obj_wf d → obj_wf (ddel d k).
Proof.
  unfold obj_wf. rewrite !json_wf_obj. intros [Hd Hv]. split; [by apply dwf_ddel|].
  rewrite !Forall_forall in Hv |- *. intros x (kv & -> & Hin)%list_elem_of_fmap.
  apply Hv, list_elem_of_fmap_2. by eapply elem_of_ddel.
Qed.

Lemma obj_wf_dset (d : obj) k v : json_wf v → obj_wf d → obj_wf (dset d k v).
Proof.
  unfold obj_wf. rewrite !json_wf_obj. intros Hv [Hd Hf]. split; [by apply dwf_dset|].
  rewrite !Forall_forall in Hf |- *. intros x [->|Hx]%elem_of_dset; auto.
Qed.

(** ** Truth value, attribute access, length, iteration *)

(** [bool(v)] *)
Definition truthy (v : json) : bool :=
  match v with
  | JNull => false
  | JBool b => b
  | JInt z => negb (z =? 0)
  | JFloat q => negb (Qeq_bool q 0)
  | JStr s => snonempty s
  | JList l => match l with [] => false | _ => true end
  | JObj d => match d with [] => false | _ => true end
  end.

(** [a or b] *)
Definition py_or (a b : json) : json := if truthy a then a else b.

(** [d.get(k)] on a dict: [None] when absent. *)
Definition oget (d : obj) (k : string) : json := default JNull (dget d k).

(** [v.get(k)] on any value: only dicts have [get]. *)
Definition py_get (v : json) (k : string) : res json :=
  match v with
  | JObj d => Ok (oget d k)
  | _ => Err AttributeError
  end.

(** [len(v)] *)
Definition py_len (v : json) : res Z :=
  match v with
  | JStr s => Ok (slen s)
  | JList l => Ok (Z.of_nat (length l))
  | JObj d => Ok (Z.of_nat (length d))
  | _ => Err TypeError
  end.

Fixpoint chars (s : string) : list json :=
  match s with
  | EmptyString => []
  | String c s' => JStr (str1 c) :: chars s'
  end.

(** [for x in v]: lists by element, strings by character, dicts by key. *)
Definition py_iter (v : json) : res (list json) :=
  match v with
  | JList l => Ok l
  | JStr s => Ok (chars s)
  | JObj d => Ok (JStr <$> d.*1)
  | _ => Err TypeError
  end.

Definition is_str (v : json) : bool := match v with JStr _ => true | _ => false end.
Definition is_list (v : json) : bool := match v with JList _ => true | _ => false end.
Definition is_dict (v : json) : bool := match v with JObj _ => true | _ => false end.
Definition is_bool (v : json) : bool := match v with JBool _ => true | _ => false end.
Definition is_none (v : json) : bool := match v with JNull => true | _ => false end.

(** [v == "literal"] *)
Definition eq_str (v : json) (s : string) : bool :=
  match v with JStr t => bool_decide (t = s) | _ => false end.

Lemma eq_str_true v s : eq_str v s = true ↔ v = JStr s.
Proof. destruct v; simpl; rewrite ?bool_decide_eq_true; naive_solver. Qed.

Lemma oget_dget d k v : dget d k = Some v → oget d k = v.
Proof. unfold oget. by intros ->. Qed.

Lemma oget_wf d k : obj_wf d → json_wf (oget d k).
Proof.
  unfold obj_wf. rewrite json_wf_obj Forall_forall. intros [_ Hd]. unfold oget.
  destruct (dget d k) eqn:E; [|done]. apply Hd. apply dget_Some_In in E.
  by apply (list_elem_of_fmap_2 snd) in E.
Qed.

Lemma py_get_wf v k x : json_wf v → py_get v k = Ok x → json_wf x.
Proof. intros Hv. destruct v; try done. intros [= <-]. by apply oget_wf. Qed.

Lemma py_or_wf a b : json_wf a → json_wf b → json_wf (py_or a b).
Proof. unfold py_or. by destruct (truthy a). Qed.

Lemma chars_wf s : Forall json_wf (chars s).
Proof. induction s; simpl; by constructor. Qed.

Lemma py_iter_wf v l : json_wf v → py_iter v = Ok l → Forall json_wf l.
Proof.
  intros Hv. destruct v as [| | | |s|l'|d]; try done; intros [= <-].
  - apply chars_wf.
  - by apply json_wf_list.
  - apply Forall_fmap, Forall_true. done.
Qed.

Lemma dget_wf (d : obj) k v : obj_wf d → dget d k = Some v → json_wf v.
Proof. intros Hd Hk. pose proof (oget_wf d k Hd) as H. by rewrite (oget_dget _ _ _ Hk) in H. Qed.

Lemma obj_wf_dsetdefault (d : obj) k v : json_wf v → obj_wf d → obj_wf (dsetdefault d k v).
Proof. intros Hv Hd. unfold dsetdefault. destruct (dget d k); [done|by apply obj_wf_dset]. Qed.

(** ** Equality

    [==] is structural, except that booleans, integers and floats compare by
    numeric value and dicts ignore insertion order. *)

Definition py_num (v : json) : option Q :=
  match v with
  | JBool b => Some (if b then 1 else 0)%Q
  | JInt z => Some (inject_Z z)
  | JFloat q => Some q
  | _ => None
  end.

Fixpoint py_eq (a b : json) {struct a} : bool :=
  match a, b with
  | JNull, JNull => true
  | JStr s, JStr t => bool_decide (s = t)
  | JList l, JList m =>
      (fix go l m := match l, m with
       | [], [] => true
       | x :: l', y :: m' => py_eq x y && go l' m'
       | _, _ => false
       end) l m
  | JObj d, JObj e =>
      Nat.eqb (length d) (length e) &&
      (fix go (d : obj) := match d with
       | [] => true
       | (k, x) :: d' =>
           match dget e k with Some y => py_eq x y | None => false end && go d'
       end) d
  | _, _ =>
      match py_num a, py_num b with
      | Some p, Some q => Qeq_bool p q
      | _, _ => false
      end
  end.

Lemma py_eq_list l m :
  py_eq (JList l) (JList m) = true ↔ Forall2 (λ x y, py_eq x y = true) l m.
Proof.
  revert m. induction l as [|x l IH]; intros [|y m]; simpl in *;
    try (split; [done|by inversion 1]); try done.
  rewrite andb_true_iff IH Forall2_cons. done.
Qed.

Lemma py_eq_obj (d e : obj) :
  py_eq (JObj d) (JObj e) = true ↔
  length d = length e ∧
  Forall (λ kv, ∃ y, dget e kv.1 = Some y ∧ py_eq kv.2 y = true) d.
Proof.
  simpl. rewrite andb_true_iff Nat.eqb_eq. f_equiv. clear.
  induction d as [|[k x] d IH]; simpl; [done|].
  rewrite andb_true_iff IH Forall_cons /=. f_equiv.
  destruct (dget e k); naive_solver.
Qed.

Lemma py_eq_refl v : json_wf v → py_eq v v = true.
Proof.
  induction v as [|b|z|q|s|l IH|d IH] using json_nested_ind; intros Hwf;
    try done; try by (simpl; apply bool_decide_eq_true).
  - by destruct b.
  - simpl. by apply Qeq_bool_iff.
  - simpl. by apply Qeq_bool_iff.
  - apply json_wf_list in Hwf. apply py_eq_list.
    revert Hwf. induction IH as [|x l Hx _ IH]; constructor; inversion Hwf; auto.
  - apply json_wf_obj in Hwf as [Hd Hv]. apply py_eq_obj. split; [done|].
    apply Forall_forall. intros [k x] Hin. exists x. split; [by apply dget_In|].
    rewrite !Forall_forall in IH Hv.
    assert (x ∈ d.*2) by by apply (list_elem_of_fmap_2 snd) in Hin. auto.
Qed.

(** *** Equality of dicts by lookup *)

Definition dict_eq (d e : obj) : Prop :=
  ∀ k, option_Forall2 (λ x y, py_eq x y = true) (dget d k) (dget e k).

Lemma py_eq_dict_eq (d e : obj) :
  dwf d → dwf e → py_eq (JObj d) (JObj e) = true ↔ dict_eq d e.
Proof.
  intros Hd He. rewrite py_eq_obj Forall_forall. split.
  - intros [Hlen Hall] k. destruct (dget d k) as [x|] eqn:Ed.
    + apply dget_Some_In in Ed. destruct (Hall _ Ed) as (y & Hy & Hxy). simpl in Hy.
      rewrite Hy. by constructor.
    + assert (k ∉ e.*1) as Hk; [|apply dget_None in Hk as ->; constructor].
      apply dget_None in Ed. intros Hk. apply Ed.
      assert (d.*1 ⊆ e.*1) as Hsub.
      { intros j ([j' x] & -> & Hin)%list_elem_of_fmap. destruct (Hall _ Hin) as (y & Hy & _).
        by eapply dget_Some_key. }
      assert (d.*1 ≡ₚ e.*1) as ->; [|done].
      apply submseteq_length_Permutation; [by apply NoDup_submseteq|].
      rewrite !length_fmap. lia.
  - intros Heq. split.
    + rewrite -(length_fmap fst d) -(length_fmap fst e). apply Permutation_length.
      apply NoDup_Permutation; [done..|]. intros k. rewrite -!dget_is_Some.
      specialize (Heq k). by destruct Heq; split; intros [? ?]; eauto.
    + intros [k x] Hin. apply dget_In in Hin; [|done]. specialize (Heq k).
      rewrite Hin in Heq. inversion Heq; simplify_eq. eauto.
Qed.

Lemma dict_eq_ddel d e k : dwf d → dwf e → dict_eq d e → dict_eq (ddel d k) (ddel e k).
Proof.
  intros Hd He Heq j. destruct (decide (k = j)) as [<-|Hne].
  - rewrite !dget_ddel_eq //. constructor.
  - rewrite !dget_ddel_ne //.
Qed.

Lemma dict_eq_dset d e k v : json_wf v → dict_eq d e → dict_eq (dset d k v) (dset e k v).
Proof.
  intros Hv Heq j. destruct (decide (k = j)) as [<-|Hne].
  - rewrite !dget_dset_eq. constructor. by apply py_eq_refl.
  - rewrite !dget_dset_ne //.
Qed.

Lemma dict_eq_oget d e k : dict_eq d e → py_eq (oget d k) (oget e k) = true.
Proof. intros Heq. specialize (Heq k). unfold oget. by destruct Heq. Qed.

Lemma py_eq_JStr v s : py_eq v (JStr s) = true → v = JStr s.
Proof. destruct v; simpl; try done. by intros ->%bool_decide_eq_true. Qed.

Lemma py_eq_JStr_l v s : py_eq (JStr s) v = true → v = JStr s.
Proof. destruct v; simpl; try done. by intros ->%bool_decide_eq_true. Qed.

Lemma eq_str_py_eq v w s : py_eq v w = true → eq_str v s = eq_str w s.
Proof.
  intros H. destruct (eq_str v s) eqn:Ev.
  - apply eq_str_true in Ev as ->. apply py_eq_JStr_l in H as ->. by rewrite /= bool_decide_eq_true_2.
  - destruct (eq_str w s) eqn:Ew; [|done]. apply eq_str_true in Ew as ->.
    apply py_eq_JStr in H as ->. by rewrite /= bool_decide_eq_true_2 in Ev.
Qed.

(** ** [str] and [repr] *)

Definition hexdigit (z : Z) : Ascii.ascii := if z <? 10 then chr (48 + z) else chr (87 + z).
Definition hex2 (z : Z) : string := String (hexdigit (z / 16)) (str1 (hexdigit (z mod 16))).

(** [str.isprintable] on one character. *)
Definition is_printable (c : Ascii.ascii) : bool :=
  let z := ord c in
  ((32 <=? z) && (z <=? 126)) || ((161 <=? z) && negb (z =? 173)).

Definition backslash : Ascii.ascii := chr 92.

(** One character of [repr(s)] with quote character [q]. *)
Definition repr_char (q c : Ascii.ascii) : string :=
  let z := ord c in
  if bool_decide (c = q) || (z =? 92) then String backslash (str1 c)
  else if z =? 9 then String backslash "t"
  else if z =? 10 then String backslash "n"
  else if z =? 13 then String backslash "r"
  else if is_printable c then str1 c
  else String backslash ("x" +:+ hex2 z).

Fixpoint sconcat_map (f : Ascii.ascii → string) (s : string) : string :=
  match s with
  | EmptyString => EmptyString
  | String c s' => f c +:+ sconcat_map f s'
  end.

(** [repr(s)]: double quotes only when the text has single quotes and no
    double ones. *)
Definition repr_str (s : string) : string :=
  let q := if contains (str1 (chr 39)) s && negb (contains dquote s)
           then chr 34 else chr 39 in
  str1 q +:+ sconcat_map (repr_char q) s +:+ str1 q.

Section repr.
Context {host : Host}.

Fixpoint py_repr (v : json) : string :=
  match v with
  | JNull => "None"
  | JBool b => if b then "True" else "False"
  | JInt z => pretty z
  | JFloat q => float_repr q
  | JStr s => repr_str s
  | JList l =>
      "[" +:+ join ", " ((fix go l := match l with
        | [] => [] | x :: l' => py_repr x :: go l' end) l) +:+ "]"
  | JObj d =>
      "{" +:+ join ", " ((fix go (d : obj) := match d with
        | [] => []
        | (k, x) :: d' => (repr_str k +:+ ": " +:+ py_repr x) :: go d'
        end) d) +:+ "}"
  end.

(** [str(v)], also what an f-string field prints *)
Definition py_str (v : json) : string :=
  match v with JStr s => s | _ => py_repr v end.
End repr.

(** ** [json.dumps(v, ensure_ascii=False, sort_keys=..., separators=...)] *)

(** Escapes of the JSON encoder: backslash, double quote and the controls. *)
Definition json_char (c : Ascii.ascii) : string :=
  let z := ord c in
  if (z =? 34) || (z =? 92) then String backslash (str1 c)
  else if z =? 8 then String backslash "b"
  else if z =? 9 then String backslash "t"
  else if z =? 10 then String backslash "n"
  else if z =? 12 then String backslash "f"
  else if z =? 13 then String backslash "r"
  else if z <? 32 then String backslash ("u00" +:+ hex2 z)
  else str1 c.

Definition json_quote (s : string) : string :=
  dquote +:+ sconcat_map json_char s +:+ dquote.

Record dump_style : Type := DumpStyle {
  item_separator : string;
  key_separator : string;
  sort_keys : bool;
}.

Definition style_default : dump_style := DumpStyle ", " ": " false.
Definition style_compact : dump_style := DumpStyle "," ":" false.
Definition style_canonical : dump_style := DumpStyle "," ":" true.

Definition key_leb {A} (a b : string * A) : bool := str_leb a.1 b.1.

Section dumps.
Context {host : Host} (st : dump_style).

Fixpoint json_dumps (v : json) : string :=
  match v with
  | JNull => "null"
  | JBool b => if b then "true" else "false"
  | JInt z => pretty z
  | JFloat q => float_repr q
  | JStr s => json_quote s
  | JList l =>
      "[" +:+ join (item_separator st) ((fix go l := match l with
        | [] => [] | x :: l' => json_dumps x :: go l' end) l) +:+ "]"
  | JObj d =>
      let entries := (fix go (d : obj) : list (string * string) := match d with
        | [] => []
        | (k, x) :: d' => (k, json_dumps x) :: go d'
        end) d in
      let entries := if sort_keys st then py_sorted key_leb entries else entries in
      "{" +:+ join (item_separator st)
        ((λ kv, json_quote kv.1 +:+ key_separator st +:+ kv.2) <$> entries) +:+ "}"
  end.
End dumps.

#[export] Hint Resolve obj_wf_ddel obj_wf_dset obj_wf_dsetdefault oget_wf py_or_wf : py.

(** ** A concrete interpreter, for evaluating the definitions *)

#[local] Instance sample_host : Host := {|
  float_repr q := pretty (Qnum q) +:+ "/" +:+ pretty (Zpos (Qden q));
  sha256_hexdigest s := "digest:" +:+ s;
  json_loads _ := None;
|}.

(** [{"role": role, "content": content}] *)
Definition chat_message (role content : string) : obj :=
  [("role", JStr role); ("content", JStr content)].
