(* ===== verification/Tokens.v ===== *)
(** * Token estimation ([context/tokens.py])

    The class [TokenCounter] is stateless: each method is a function named
    [TokenCounter_<method>].  The counter is dynamically typed and raises on
    values without a length or a [get]; its results are therefore in [res]. *)

From S2P Require Import Prelude PyDict PyString Json.
Local Open Scope Z_scope.

Definition CHARS_PER_TOKEN : Z := 4.
Definition MESSAGE_OVERHEAD_TOKENS : Z := 4.
Definition TOOL_CALL_OVERHEAD_TOKENS : Z := 8.
Definition TOOL_DEF_OVERHEAD_TOKENS : Z := 8.
Definition IMAGE_PART_TOKENS : Z := 1024.
Definition UNKNOWN_PART_TOKENS : Z := 16.

(** [math.ceil(n / CHARS_PER_TOKEN)] for a length [n]. *)
Definition ceil_tokens (n : Z) : Z := (n + CHARS_PER_TOKEN - 1) / CHARS_PER_TOKEN.

Definition TokenCounter_text (value : json) : res Z :=
  if negb (truthy value) then Ok 0
  else n ← py_len value; Ok (Z.max 1 (ceil_tokens n)).

Definition TokenCounter__part_type (part : json) : option string :=
  match part with
  | JObj d => match oget d "type" with JStr t => Some t | _ => None end
  | _ => None
  end.

(** Cost of one content part. *)
Definition part_tokens (part : json) : res Z :=
  match part, TokenCounter__part_type part with
  | JObj d, Some kind =>
      if bool_decide (kind = "text") then
        if is_str (oget d "text") then TokenCounter_text (oget d "text")
        else Ok UNKNOWN_PART_TOKENS
      else if bool_decide (kind = "image_url") then Ok IMAGE_PART_TOKENS
      else Ok UNKNOWN_PART_TOKENS
  | _, _ => Ok UNKNOWN_PART_TOKENS
  end.

Definition TokenCounter__parts (parts : list json) : res Z :=
  ts ← mapM part_tokens parts; Ok (sumZ ts).

Section counter.
Context {host : Host}.

Definition TokenCounter__serialized (value : json) : res Z :=
  match value with
  | JNull => Ok 0
  | JStr _ => TokenCounter_text value
  | JList parts => TokenCounter__parts parts
  | _ => TokenCounter_text (JStr (json_dumps style_compact value))
  end.

(** The body of the loop over [message.get("tool_calls") or []]. *)
Definition tool_call_tokens (tool_call : json) : res Z :=
  function ← py_get tool_call "function";
  let function := py_or function (JObj []) in
  name ← py_get function "name";
  name_tokens ← TokenCounter_text name;
  arguments ← py_get function "arguments";
  argument_tokens ← TokenCounter__serialized arguments;
  Ok (TOOL_CALL_OVERHEAD_TOKENS + name_tokens + argument_tokens).

(** [if message.get(key): tokens += self.text(message[key])] *)
Definition field_tokens (message : obj) (key : string) : res Z :=
  if truthy (oget message key) then TokenCounter_text (oget message key) else Ok 0.

Definition TokenCounter_message (message : obj) : res Z :=
  content_tokens ← TokenCounter__serialized (oget message "content");
  tool_calls ← py_iter (py_or (oget message "tool_calls") (JList []));
  call_tokens ← mapM tool_call_tokens tool_calls;
  id_tokens ← field_tokens message "tool_call_id";
  name_tokens ← field_tokens message "name";
  Ok (MESSAGE_OVERHEAD_TOKENS + content_tokens + sumZ call_tokens
      + id_tokens + name_tokens).

Definition TokenCounter_messages (messages : list obj) : res Z :=
  ts ← mapM TokenCounter_message messages; Ok (sumZ ts).

Definition TokenCounter_tools (tools : json) : res Z :=
  if negb (truthy tools) then Ok 0
  else
    defs ← py_iter tools;
    ts ← mapM (λ tool, t ← TokenCounter__serialized tool;
                       Ok (TOOL_DEF_OVERHEAD_TOKENS + t)) defs;
    Ok (sumZ ts).
End counter.

(** ** Bounds *)

Lemma ceil_tokens_bounds n : n ≤ 4 * ceil_tokens n < n + 4.
Proof.
  unfold ceil_tokens, CHARS_PER_TOKEN.
  pose proof (Z.div_mod (n + 4 - 1) 4 ltac:(lia)).
  pose proof (Z.mod_pos_bound (n + 4 - 1) 4 ltac:(lia)). lia.
Qed.

Lemma py_len_nonneg v n : py_len v = Ok n → 0 ≤ n.
Proof. destruct v; simpl; intros; inv_res; try apply slen_nonneg; lia. Qed.

Lemma text_str s : ∃ t, TokenCounter_text (JStr s) = Ok t ∧ slen s ≤ 4 * t < slen s + 4.
Proof.
  unfold TokenCounter_text. destruct s as [|c s]; simpl.
  - exists 0. by vm_compute.
  - eexists. split; [done|]. pose proof (ceil_tokens_bounds (slen (String c s))).
    assert (0 < slen (String c s)) by (unfold slen; simpl; lia). lia.
Qed.

Lemma text_nonneg v t : TokenCounter_text v = Ok t → 0 ≤ t.
Proof. unfold TokenCounter_text. case_match; intros; inv_res; lia. Qed.

Lemma part_tokens_ok part : ∃ t, part_tokens part = Ok t ∧ 0 ≤ t.
Proof.
  assert (∃ t, Ok UNKNOWN_PART_TOKENS = Ok t ∧ 0 ≤ t) as Hunk
    by by (exists UNKNOWN_PART_TOKENS; vm_compute).
  destruct part as [| | | | | |d]; try exact Hunk.
  unfold part_tokens. destruct (TokenCounter__part_type _) as [kind|]; [|done].
  repeat case_bool_decide; [|by exists IMAGE_PART_TOKENS; vm_compute|done..].
  destruct (oget d "text") as [| | | |s| |]; try exact Hunk.
  destruct (text_str s) as (t & Ht & ?). exists t. split; [done|].
  by eapply text_nonneg.
Qed.

Lemma parts_ok parts : ∃ t, TokenCounter__parts parts = Ok t ∧ 0 ≤ t.
Proof.
  unfold TokenCounter__parts. induction parts as [|p parts (t & H & ?)]; simpl.
  - by exists 0.
  - destruct (part_tokens_ok p) as (t' & -> & ?). simpl.
    inv_res. rewrite Hok /=. eexists. split; [done|]. simpl. lia.
Qed.

Section counter_facts.
Context {host : Host}.

Lemma serialized_ok v : ∃ t, TokenCounter__serialized v = Ok t ∧ 0 ≤ t.
Proof.
  assert (∀ s, ∃ t, TokenCounter_text (JStr s) = Ok t ∧ 0 ≤ t) as Htext.
  { intros s. destruct (text_str s) as (t & H & ?). exists t.
    split; [done|]. by eapply text_nonneg. }
  destruct v; simpl; eauto using parts_ok. by exists 0.
Qed.

Lemma serialized_nonneg v t : TokenCounter__serialized v = Ok t → 0 ≤ t.
Proof. destruct (serialized_ok v) as (t' & -> & ?). intros. by inv_res. Qed.

Lemma field_tokens_nonneg m k t : field_tokens m k = Ok t → 0 ≤ t.
Proof. unfold field_tokens. case_match; intros; inv_res; eauto using text_nonneg. lia. Qed.

Lemma tool_call_tokens_nonneg c t : tool_call_tokens c = Ok t → 0 ≤ t.
Proof.
  unfold tool_call_tokens. intros H. inv_res.
  apply text_nonneg in Hok1. apply serialized_nonneg in Hok3.
  unfold TOOL_CALL_OVERHEAD_TOKENS. lia.
Qed.

Lemma mapM_nonneg {A} (f : A → res Z) l ts :
  (∀ x t, f x = Ok t → 0 ≤ t) → mapM f l = Ok ts → 0 ≤ sumZ ts.
Proof.
  intros Hf H%mapM_res_Ok. apply sumZ_nonneg.
  induction H; constructor; eauto.
Qed.

Lemma message_lower m t :
  TokenCounter_message m = Ok t → MESSAGE_OVERHEAD_TOKENS ≤ t.
Proof.
  unfold TokenCounter_message. intros H. inv_res.
  apply serialized_nonneg in Hok. apply field_tokens_nonneg in Hok2, Hok3.
  eapply mapM_nonneg in Hok1; [|eauto using tool_call_tokens_nonneg]. lia.
Qed.

Lemma messages_app a b :
  TokenCounter_messages (a ++ b) =
  x ← TokenCounter_messages a; y ← TokenCounter_messages b; Ok (x + y).
Proof.
  unfold TokenCounter_messages. rewrite mapM_res_app.
  destruct (mapM _ a) as [ta|]; [|done]. simpl.
  destruct (mapM _ b) as [tb|]; [|done]. simpl. by rewrite sumZ_app.
Qed.

Lemma messages_lower ms t :
  TokenCounter_messages ms = Ok t →
  MESSAGE_OVERHEAD_TOKENS * Z.of_nat (length ms) ≤ t.
Proof.
  unfold TokenCounter_messages. intros H. inv_res.
  apply mapM_res_Ok in Hok. induction Hok as [|m x ms xs Hm _ IH]; simpl; [lia|].
  apply message_lower in Hm. unfold MESSAGE_OVERHEAD_TOKENS in *. simpl. lia.
Qed.

Lemma messages_nonneg ms t : TokenCounter_messages ms = Ok t → 0 ≤ t.
Proof. intros H%messages_lower. unfold MESSAGE_OVERHEAD_TOKENS in H. lia. Qed.

Lemma tools_nonneg tools t : TokenCounter_tools tools = Ok t → 0 ≤ t.
Proof.
  unfold TokenCounter_tools. case_match; intros; inv_res; [lia|].
  eapply mapM_nonneg; [|done]. intros x t Hx. simpl in Hx. inv_res.
  match goal with H : TokenCounter__serialized x = _ |- _ => apply serialized_nonneg in H end.
  unfold TOOL_DEF_OVERHEAD_TOKENS. lia.
Qed.
End counter_facts.
