(* ===== verification/Planner.v ===== *)
(** * The window planner ([context/planner.py])

    Groups an inbound message list into atomic interaction units and, under
    budget pressure, drops whole units oldest first while instructions
    (system/developer) and the current request are always kept. *)

From S2P Require Import Prelude PyDict PyString Json Tokens.
Local Open Scope Z_scope.

Inductive UnitKind : Type := KSystem | KTurn | KPrefill.

#[global] Instance UnitKind_eq_dec : EqDecision UnitKind.
Proof. solve_decision. Defined.

Record Unit : Type := MkUnit {
  unit_kind : UnitKind;
  unit_messages : list obj;
  unit_tokens : Z;
}.

Definition Unit_is_system (u : Unit) : bool := bool_decide (unit_kind u = KSystem).

(** [role in INSTRUCTION_ROLES]; membership of an unhashable value raises. *)
Definition is_instruction_role (role : json) : res bool :=
  match role with
  | JList _ | JObj _ => Err TypeError
  | _ => Ok (eq_str role "system" || eq_str role "developer")
  end.

Record PlanDetails : Type := MkPlanDetails {
  units_total : Z;
  units_kept : Z;
  system_tokens : Z;
  current_request_tokens : Z;
}.

Record ContextPlan : Type := MkContextPlan {
  plan_messages : list obj;
  plan_total_tokens : Z;
  plan_tools_tokens : Z;
  plan_usable_budget : Z;
  plan_dropped_units : Z;
  plan_dropped_tokens : Z;
  plan_details : PlanDetails;
}.

Definition ContextPlan_within_budget (p : ContextPlan) : bool :=
  plan_total_tokens p + plan_tools_tokens p <=? plan_usable_budget p.

Section planner.
Context {host : Host}.

(** ** Segmentation *)

(** The local variables of [segment_messages]. *)
Record seg_state : Type := SegState {
  seg_units : list Unit;
  seg_prefill : list obj;
  seg_turn : option (list obj);
}.

Definition close_turn (st : seg_state) : res seg_state :=
  match seg_turn st with
  | Some ((_ :: _) as turn) =>
      tokens ← TokenCounter_messages turn;
      Ok (SegState (seg_units st ++ [MkUnit KTurn turn tokens]) (seg_prefill st) None)
  | _ => Ok st
  end.

Definition close_prefill (st : seg_state) : res seg_state :=
  match seg_prefill st with
  | (_ :: _) as prefill =>
      tokens ← TokenCounter_messages prefill;
      Ok (SegState (seg_units st ++ [MkUnit KPrefill prefill tokens]) [] (seg_turn st))
  | [] => Ok st
  end.

(** The body of [for message in messages]. *)
Definition segment_step (st : seg_state) (message : obj) : res seg_state :=
  let role := oget message "role" in
  instruction ← is_instruction_role role;
  if (instruction : bool) then
    st ← close_prefill st;
    tokens ← TokenCounter_messages [message];
    Ok (SegState (seg_units st ++ [MkUnit KSystem [message] tokens])
          (seg_prefill st) (seg_turn st))
  else if eq_str role "user" then
    st ← close_turn st;
    st ← close_prefill st;
    Ok (SegState (seg_units st) (seg_prefill st) (Some [message]))
  else
    match seg_turn st with
    | Some turn => Ok (SegState (seg_units st) (seg_prefill st) (Some (turn ++ [message])))
    | None => Ok (SegState (seg_units st) (seg_prefill st ++ [message]) None)
    end.

Definition segment_messages (messages : list obj) : res (list Unit) :=
  st ← foldM segment_step (SegState [] [] None) messages;
  st ← close_turn st;
  st ← close_prefill st;
  Ok (seg_units st).

(** ** Planning *)

(** The trimming loop of [plan_context] over [enumerate(original)]: the
    [kept] slots and the running [total]. *)
Fixpoint trim_units (available total : Z) (original : list Unit)
    : list (option Unit) * Z :=
  match original with
  | [] => ([], total)
  | unit :: rest =>
      if total <=? available then (Some <$> original, total)
      else if Unit_is_system unit then
        let '(kept, total) := trim_units available total rest in
        (Some unit :: kept, total)
      else
        let '(kept, total) := trim_units available (total - unit_tokens unit) rest in
        (None :: kept, total)
  end.

Definition units_tokens (us : list Unit) : Z := sumZ (unit_tokens <$> us).

Definition plan_context (history current_request : list obj) (tools : json)
    (usable_budget reserved_tokens : Z) : res ContextPlan :=
  tools_tokens ← TokenCounter_tools tools;
  current_unit ← match current_request with
                 | [] => Ok None
                 | _ :: _ =>
                     t ← TokenCounter_messages current_request;
                     Ok (Some (MkUnit KTurn current_request t))
                 end;
  let current_tokens := match current_unit with Some u => unit_tokens u | None => 0 end in
  original ← segment_messages history;
  let mandatory :=
    units_tokens (filter (λ u, Unit_is_system u = true) original)
    + tools_tokens + reserved_tokens + current_tokens in
  if usable_budget <? mandatory then Err (PlannerOverflowError mandatory usable_budget)
  else
    let available_for_history :=
      usable_budget - tools_tokens - reserved_tokens - current_tokens in
    let total := units_tokens original in
    let kept := if available_for_history <? total
                then (trim_units available_for_history total original).1
                else Some <$> original in
    let final_units :=
      omap id kept ++ match current_unit with Some u => [u] | None => [] end in
    let final_total := units_tokens final_units in
    if usable_budget <? final_total + tools_tokens
    then Err (PlannerOverflowError (final_total + tools_tokens) usable_budget)
    else
      let dropped_units :=
        Z.of_nat (length original)
        - (Z.of_nat (length final_units) - (if current_unit then 1 else 0)) in
      let dropped_tokens := units_tokens original - (final_total - current_tokens) in
      Ok (MkContextPlan
            (concat (unit_messages <$> final_units))
            final_total tools_tokens usable_budget
            dropped_units (Z.max 0 dropped_tokens)
            (MkPlanDetails
               (Z.of_nat (length original)) (Z.of_nat (length final_units))
               (units_tokens (filter (λ u, Unit_is_system u = true) final_units))
               current_tokens)).
End planner.

(** ** What the segmentation promises *)

(** The message carries trusted instructions. *)
Definition is_instruction (m : obj) : bool :=
  eq_str (oget m "role") "system" || eq_str (oget m "role") "developer".

Definition is_user (m : obj) : bool := eq_str (oget m "role") "user".

(** Assistant and tool messages: what may follow a user message in a turn. *)
Definition is_reply (m : obj) : Prop := is_instruction m = false ∧ is_user m = false.

Notation instructions l := (filter (λ m, is_instruction m = true) l).
Notation dialogue l := (filter (λ m, is_instruction m = false) l).
Notation sys_units us := (filter (λ u, Unit_is_system u = true) us).
Notation hist_units us := (filter (λ u, Unit_is_system u = false) us).

(** The messages of a list of units. *)
Notation unit_concat us := (concat (unit_messages <$> us)).

(** Every role is a hashable value, which request validation guarantees. *)
Definition roles_hashable (ms : list obj) : Prop :=
  Forall (λ m, is_instruction_role (oget m "role") = Ok (is_instruction m)) ms.

Section segmentation.
Context {host : Host}.

(** A unit is one instruction, one user message with its replies, or a
    non-empty run of replies before the first user message; its cost is
    the counter's. *)
Definition unit_shape (u : Unit) : Prop :=
  TokenCounter_messages (unit_messages u) = Ok (unit_tokens u) ∧
  match unit_kind u with
  | KSystem => ∃ m, unit_messages u = [m] ∧ is_instruction m = true
  | KTurn => ∃ m ms, unit_messages u = m :: ms ∧ is_instruction m = false ∧
                     is_user m = true ∧ Forall is_reply ms
  | KPrefill => unit_messages u ≠ [] ∧ Forall is_reply (unit_messages u)
  end.

Definition turn_shape (st : seg_state) : Prop :=
  match seg_turn st with
  | None => True
  | Some t => seg_prefill st = [] ∧
      ∃ m ms, t = m :: ms ∧ is_instruction m = false ∧ is_user m = true ∧
              Forall is_reply ms
  end.

Definition open_messages (st : seg_state) : list obj :=
  seg_prefill st ++ default [] (seg_turn st).

Record seg_inv (pre : list obj) (st : seg_state) : Prop := {
  inv_units : Forall unit_shape (seg_units st);
  inv_sys : unit_concat (sys_units (seg_units st)) = instructions pre;
  inv_hist : unit_concat (hist_units (seg_units st)) ++ open_messages st = dialogue pre;
  inv_turn : turn_shape st;
  inv_prefill : Forall is_reply (seg_prefill st);
}.

Lemma is_instruction_role_inv m b :
  is_instruction_role (oget m "role") = Ok b → b = is_instruction m.
Proof. unfold is_instruction. destruct (oget m "role"); simpl; intros; by inv_res. Qed.

Lemma sys_units_snoc us u :
  sys_units (us ++ [u]) = sys_units us ++ (if Unit_is_system u then [u] else []).
Proof. rewrite filter_snoc_bool. by destruct (Unit_is_system u). Qed.

Lemma hist_units_snoc us u :
  hist_units (us ++ [u]) = hist_units us ++ (if Unit_is_system u then [] else [u]).
Proof. rewrite filter_snoc_bool. by destruct (Unit_is_system u). Qed.

Lemma instructions_snoc ms m :
  instructions (ms ++ [m]) = instructions ms ++ (if is_instruction m then [m] else []).
Proof. rewrite filter_snoc_bool. by destruct (is_instruction m). Qed.

Lemma dialogue_snoc ms m :
  dialogue (ms ++ [m]) = dialogue ms ++ (if is_instruction m then [] else [m]).
Proof. rewrite filter_snoc_bool. by destruct (is_instruction m). Qed.

Lemma close_turn_inv pre st st' :
  seg_inv pre st → close_turn st = Ok st' → seg_inv pre st' ∧ seg_turn st' = None.
Proof.
  unfold close_turn. intros [Hu Hs Hh Ht Hp] H. unfold turn_shape in Ht.
  destruct (seg_turn st) as [[|m ms]|] eqn:E;
    [by destruct Ht as (_ & ? & ? & ? & _)| |by inv_res; split; [split; rewrite // /turn_shape E|]].
  destruct Ht as (Hpre & m' & ms' & [= <- <-] & Hm & Hmu & Hms).
  inv_res. split; [|done].
  unfold open_messages in *. rewrite E Hpre in Hh. split; simpl.
  - apply Forall_app. split; [done|]. constructor; [|done].
    split; [done|]. by exists m, ms.
  - by rewrite sys_units_snoc app_nil_r.
  - rewrite hist_units_snoc Hpre fmap_app concat_app /= !app_nil_r. done.
  - done.
  - done.
Qed.

Lemma close_prefill_inv pre st st' :
  seg_inv pre st → close_prefill st = Ok st' →
  seg_inv pre st' ∧ seg_prefill st' = [] ∧ seg_turn st' = seg_turn st.
Proof.
  unfold close_prefill. intros [Hu Hs Hh Ht Hp] H.
  destruct (seg_prefill st) as [|m ms] eqn:E; [inv_res; by split_and!; [split; rewrite ?E| |]|].
  inv_res. split_and!; [|done..].
  unfold open_messages, turn_shape in *. split; simpl.
  - apply Forall_app. split; [done|]. constructor; [|done]. by split.
  - by rewrite sys_units_snoc app_nil_r.
  - rewrite hist_units_snoc fmap_app concat_app /= app_nil_r -app_assoc.
    by rewrite -Hh E.
  - unfold turn_shape. simpl. destruct (seg_turn st); naive_solver.
  - constructor.
Qed.

Lemma segment_step_inv pre st m st' :
  seg_inv pre st → segment_step st m = Ok st' → seg_inv (pre ++ [m]) st'.
Proof.
  intros Hinv H. unfold segment_step in H. inv_res.
  apply is_instruction_role_inv in Hok as ->.
  destruct (is_instruction m) eqn:Em.
  - inv_res. destruct (close_prefill_inv _ _ _ Hinv Hok) as ([Hu Hs Hh Ht Hp] & Hpre & Hturn).
    unfold open_messages in *. split; simpl.
    + apply Forall_app. split; [done|]. constructor; [|done]. split; simpl; eauto.
    + rewrite sys_units_snoc instructions_snoc Em fmap_app concat_app Hs. done.
    + rewrite hist_units_snoc dialogue_snoc Em app_nil_r -Hh app_nil_r. done.
    + done.
    + done.
  - destruct (eq_str _ "user") eqn:Eu.
    + inv_res. destruct (close_turn_inv _ _ _ Hinv Hok) as [Hinv1 Hturn1].
      destruct (close_prefill_inv _ _ _ Hinv1 Hok0) as ([Hu Hs Hh Ht Hp] & Hpre & Hturn).
      unfold open_messages in *. split; simpl; [done|..].
      * by rewrite instructions_snoc Em app_nil_r.
      * rewrite dialogue_snoc Em Hpre -Hh Hpre Hturn Hturn1 /= app_nil_r. done.
      * split; [done|]. by exists m, [].
      * done.
    + assert (is_reply m) as Hreply by by split.
      destruct Hinv as [Hu Hs Hh Ht Hp]. unfold open_messages, turn_shape in *.
      destruct (seg_turn st) as [turn|] eqn:Et; inv_res; split; simpl; try done.
      * by rewrite instructions_snoc Em app_nil_r.
      * rewrite dialogue_snoc Em -Hh /=. by rewrite !app_assoc.
      * destruct Ht as (Hpre & m' & ms' & -> & ? & ? & ?). split; [done|].
        exists m', (ms' ++ [m]). split_and!; [done..|].
        apply Forall_app. by split; [|constructor].
      * by rewrite instructions_snoc Em app_nil_r.
      * rewrite /open_messages dialogue_snoc Em -Hh /= !app_nil_r. by rewrite !app_assoc.
      * apply Forall_app. by split; [|constructor].
Qed.

Lemma segment_messages_shape ms us :
  segment_messages ms = Ok us →
  Forall unit_shape us ∧
  unit_concat (sys_units us) = instructions ms ∧
  unit_concat (hist_units us) = dialogue ms.
Proof.
  unfold segment_messages. intros H. inv_res.
  assert (seg_inv ms a) as Hinv.
  { eapply foldM_inv; [|by eauto using segment_step_inv|exact Hok]. by split. }
  destruct (close_turn_inv _ _ _ Hinv Hok0) as [Hinv1 Hturn1].
  destruct (close_prefill_inv _ _ _ Hinv1 Hok1) as ([Hu Hs Hh Ht Hp] & Hpre & Hturn).
  unfold open_messages in Hh. rewrite Hpre Hturn Hturn1 /= app_nil_r in Hh. done.
Qed.
End segmentation.

Section planning.
Context {host : Host}.

(** Every message can be counted. *)
Definition countable_messages (ms : list obj) : Prop :=
  Forall (λ m, is_ok (TokenCounter_message m) = true) ms.

Lemma messages_countable ms :
  countable_messages ms → ∃ t, TokenCounter_messages ms = Ok t.
Proof.
  unfold TokenCounter_messages. induction 1 as [|m ms Hm _ [t IH]]; simpl; [eauto|].
  destruct (TokenCounter_message m); [|done]. inv_res. rewrite Hok /=. eauto.
Qed.

Lemma countable_dialogue ms ms' :
  countable_messages ms → ms' ⊆ dialogue ms → countable_messages ms'.
Proof.
  unfold countable_messages. rewrite !Forall_forall. intros H Hsub m Hm.
  apply H. apply Hsub in Hm. by apply list_elem_of_filter in Hm as [_ ?].
Qed.

Lemma open_messages_sub pre st :
  seg_inv pre st → seg_prefill st ⊆ dialogue pre ∧ default [] (seg_turn st) ⊆ dialogue pre.
Proof. intros [_ _ Hh _ _]. rewrite -Hh /open_messages. set_solver. Qed.

Lemma close_turn_ok pre st :
  seg_inv pre st → countable_messages pre → ∃ st', close_turn st = Ok st'.
Proof.
  intros Hinv Hc. unfold close_turn. destruct (seg_turn st) as [[|m ms]|] eqn:E; eauto.
  destruct (messages_countable (m :: ms)) as [t ->]; [|simpl; eauto].
  eapply countable_dialogue; [done|].
  destruct (open_messages_sub _ _ Hinv) as [_ H]. by rewrite E in H.
Qed.

Lemma close_prefill_ok pre st :
  seg_inv pre st → countable_messages pre → ∃ st', close_prefill st = Ok st'.
Proof.
  intros Hinv Hc. unfold close_prefill. destruct (seg_prefill st) as [|m ms] eqn:E; eauto.
  destruct (messages_countable (m :: ms)) as [t ->]; [|simpl; eauto].
  eapply countable_dialogue; [done|].
  destruct (open_messages_sub _ _ Hinv) as [H _]. by rewrite E in H.
Qed.

Lemma segment_step_ok pre st m :
  seg_inv pre st → countable_messages (pre ++ [m]) → roles_hashable (pre ++ [m]) →
  ∃ st', segment_step st m = Ok st'.
Proof.
  intros Hinv [Hc Hm]%Forall_app [_ Hr]%Forall_app.
  inversion_clear Hr as [|? ? Hrole _]. unfold segment_step. rewrite Hrole /=.
  destruct (messages_countable [m]) as [t Ht]; [done|].
  destruct (is_instruction m).
  - destruct (close_prefill_ok _ _ Hinv Hc) as [st' ->]. simpl. rewrite Ht /=. eauto.
  - destruct (eq_str _ "user"); [|destruct (seg_turn st); eauto].
    destruct (close_turn_ok _ _ Hinv Hc) as [st' Hst]. rewrite Hst /=.
    destruct (close_turn_inv _ _ _ Hinv Hst) as [Hinv' _].
    destruct (close_prefill_ok _ _ Hinv' Hc) as [st'' ->]. simpl. eauto.
Qed.

Lemma segment_messages_ok ms :
  countable_messages ms → roles_hashable ms → ∃ us, segment_messages ms = Ok us.
Proof.
  intros Hc Hr. unfold segment_messages.
  destruct (foldM_total segment_step seg_inv (SegState [] [] None) ms)
    as (st & -> & Hinv); simpl.
  - by split.
  - intros pre m st Hpre Hinv.
    assert (countable_messages (pre ++ [m]) ∧ roles_hashable (pre ++ [m])) as [Hc' Hr'].
    { destruct Hpre as [post ->].
      split; [by apply Forall_app in Hc as [? _]|by apply Forall_app in Hr as [? _]]. }
    destruct (segment_step_ok _ _ _ Hinv Hc' Hr') as [st' Hst]. eauto using segment_step_inv.
  - destruct (close_turn_ok _ _ Hinv Hc) as [st' Hst]. rewrite Hst /=.
    destruct (close_turn_inv _ _ _ Hinv Hst) as [Hinv' _].
    destruct (close_prefill_ok _ _ Hinv' Hc) as [st'' ->]. simpl. eauto.
Qed.

(** ** The trimming loop *)

Lemma units_tokens_split us :
  units_tokens us = units_tokens (sys_units us) + units_tokens (hist_units us).
Proof.
  unfold units_tokens. induction us as [|u us IH]; [done|].
  rewrite !filter_cons. destruct (Unit_is_system u); csimpl; lia.
Qed.

Lemma units_tokens_app us vs : units_tokens (us ++ vs) = units_tokens us + units_tokens vs.
Proof. unfold units_tokens. by rewrite fmap_app sumZ_app. Qed.

Lemma units_tokens_cons u us : units_tokens (u :: us) = unit_tokens u + units_tokens us.
Proof. done. Qed.

Lemma omap_id_Some {A} (l : list A) : omap id (Some <$> l) = l.
Proof. induction l; csimpl; congruence. Qed.

(** What the loop returns on [us]: the instruction units are untouched, a
    prefix [dropped] of the others (the oldest) is gone, and it stopped as
    soon as the rest fitted. *)
Record trimmed (available total : Z) (us kept dropped : list Unit) : Prop := {
  trim_sys : sys_units kept = sys_units us;
  trim_hist : hist_units us = dropped ++ hist_units kept;
  trim_fits : total - units_tokens dropped ≤ available ∨ hist_units kept = [];
  trim_minimal : ∀ d u, dropped = d ++ [u] →
    available < total - units_tokens d;
}.

Lemma trim_units_spec available total us :
  ∃ dropped, trimmed available total us (omap id (trim_units available total us).1) dropped.
Proof.
  revert total. induction us as [|u us IH]; intros total; cbn [trim_units].
  { exists []. split; simpl; [done..|by right|]. by intros [|??] ?. }
  destruct (Z.leb_spec total available).
  { exists []. cbn [fst]. rewrite omap_id_Some.
    split; [done..| |by intros [|??] ?]. left. unfold units_tokens. simpl. lia. }
  destruct (Unit_is_system u) eqn:Eu.
  - destruct (IH total) as [dropped [Hs Hh Hf Hm]]. exists dropped.
    destruct (trim_units available total us) as [kept t]. csimpl in *.
    split; rewrite ?filter_cons; repeat case_decide; congruence || done.
  - destruct (IH (total - unit_tokens u)) as [dropped [Hs Hh Hf Hm]].
    exists (u :: dropped).
    destruct (trim_units available _ us) as [kept t]. csimpl in *.
    split; rewrite ?filter_cons.
    + case_decide; congruence.
    + case_decide; [by rewrite Hh|congruence].
    + rewrite units_tokens_cons. destruct Hf; [left; lia|by right].
    + intros d v Hd. destruct d as [|u' d]; simplify_eq/=; [unfold units_tokens; simpl; lia|].
      specialize (Hm d v eq_refl). rewrite units_tokens_cons. lia.
Qed.
End planning.

Section plan.
Context {host : Host}.

Lemma units_count us :
  Forall unit_shape us → TokenCounter_messages (unit_concat us) = Ok (units_tokens us).
Proof.
  induction 1 as [|u us [Hu _] _ IH]; csimpl; [done|].
  by rewrite messages_app Hu IH.
Qed.

Lemma replies_dialogue ms : Forall is_reply ms → instructions ms = [] ∧ dialogue ms = ms.
Proof.
  intros H. split; [apply filter_none|apply filter_all];
    (eapply Forall_impl; [exact H|]; intros ? [? _]; simpl; congruence).
Qed.

Lemma unit_shape_roles u :
  unit_shape u →
  instructions (unit_messages u) = (if Unit_is_system u then unit_messages u else []) ∧
  dialogue (unit_messages u) = (if Unit_is_system u then [] else unit_messages u).
Proof.
  intros [_ Hu]. unfold Unit_is_system. destruct (unit_kind u); simpl in *.
  - destruct Hu as (m & -> & Hm). by rewrite !filter_cons Hm.
  - destruct Hu as (m & ms & -> & Hm & _ & [H1 H2]%replies_dialogue).
    by rewrite !filter_cons Hm H1 H2.
  - by destruct Hu as [_ Hms%replies_dialogue].
Qed.

Lemma sys_units_messages us :
  Forall unit_shape us →
  instructions (unit_concat us) = unit_concat (sys_units us) ∧
  dialogue (unit_concat us) = unit_concat (hist_units us).
Proof.
  induction 1 as [|u us [H1 H2]%unit_shape_roles _ [IH1 IH2]]; [done|]. csimpl.
  rewrite !filter_app H1 H2 IH1 IH2 !filter_cons.
  by destruct (Unit_is_system u).
Qed.

Lemma kept_shapes us kept dropped :
  Forall unit_shape us → sys_units kept = sys_units us →
  hist_units us = dropped ++ hist_units kept → Forall unit_shape kept.
Proof.
  rewrite !Forall_forall. intros Hus Hs Hh u Hu. apply Hus.
  destruct (Unit_is_system u) eqn:E.
  - assert (u ∈ sys_units us) by (rewrite -Hs; by apply list_elem_of_filter).
    by apply list_elem_of_filter in H as [_ ?].
  - assert (u ∈ hist_units us) by
      (rewrite Hh; apply elem_of_app; right; by apply list_elem_of_filter).
    by apply list_elem_of_filter in H as [_ ?].
Qed.

(** Everything a successful call establishes. *)
Record planned (history current : list obj) (tools : json) (usable reserved : Z)
    (p : ContextPlan) (us kept dropped : list Unit) (tt ct : Z) : Prop := {
  pl_tools : TokenCounter_tools tools = Ok tt;
  pl_segments : segment_messages history = Ok us;
  pl_current : TokenCounter_messages current = Ok ct;
  pl_mandatory : units_tokens (sys_units us) + tt + reserved + ct ≤ usable;
  pl_trim : trimmed (usable - tt - reserved - ct) (units_tokens us) us kept dropped;
  pl_messages : plan_messages p = unit_concat kept ++ current;
  pl_total : plan_total_tokens p = units_tokens kept + ct;
  pl_tools_tokens : plan_tools_tokens p = tt;
  pl_usable : plan_usable_budget p = usable;
  pl_dropped_units : plan_dropped_units p = Z.of_nat (length us) - Z.of_nat (length kept);
  pl_dropped_tokens :
    plan_dropped_tokens p = Z.max 0 (units_tokens us - units_tokens kept);
}.

(** The unit of the current request, as [plan_context] computes it. *)
Lemma current_unit_inv current cu :
  match current with
  | [] => Ok None
  | _ :: _ => t ← TokenCounter_messages current; Ok (Some (MkUnit KTurn current t))
  end = Ok cu →
  ∃ ct, TokenCounter_messages current = Ok ct ∧
    match cu with Some u => unit_tokens u | None => 0 end = ct ∧
    unit_concat (match cu with Some u => [u] | None => [] end) = current ∧
    units_tokens (match cu with Some u => [u] | None => [] end) = ct ∧
    length (match cu with Some u => [u] | None => [] end) = if cu then 1%nat else 0%nat.
Proof.
  destruct current as [|m ms]; intros H; inv_res.
  - by exists 0.
  - exists a. unfold units_tokens. csimpl. rewrite app_nil_r. split_and!; [done..| |done]. lia.
Qed.

Lemma kept_trimmed available us :
  ∃ dropped, trimmed available (units_tokens us) us
    (omap id (if available <? units_tokens us
              then (trim_units available (units_tokens us) us).1
              else Some <$> us)) dropped.
Proof.
  destruct (Z.ltb_spec available (units_tokens us)); [apply trim_units_spec|].
  exists []. rewrite omap_id_Some. split; [done..| |by intros [|??] ?].
  left. unfold units_tokens at 2. simpl. lia.
Qed.

Lemma trimmed_tokens available total us kept dropped :
  trimmed available total us kept dropped →
  units_tokens us = units_tokens kept + units_tokens dropped.
Proof.
  intros [Hs Hh _ _]. rewrite (units_tokens_split us) (units_tokens_split kept).
  rewrite Hs Hh units_tokens_app. lia.
Qed.

Lemma trimmed_fits available us kept dropped :
  trimmed available (units_tokens us) us kept dropped →
  units_tokens (sys_units us) ≤ available → units_tokens kept ≤ available.
Proof.
  intros Htrim Hsys. pose proof (trimmed_tokens _ _ _ _ _ Htrim).
  destruct Htrim as [Hs Hh [Hf|Hf] _]; [lia|].
  rewrite (units_tokens_split kept) Hs Hf. unfold units_tokens at 2. simpl. lia.
Qed.

Lemma plan_context_inv history current tools usable reserved p :
  plan_context history current tools usable reserved = Ok p →
  ∃ us kept dropped tt ct,
    planned history current tools usable reserved p us kept dropped tt ct.
Proof.
  unfold plan_context. intros H. inv_res.
  apply current_unit_inv in Hok0 as (ct & Hct & Hcv & Hcm & Hcu & Hcl). rewrite Hcv in Hk.
  destruct (Z.ltb_spec usable (units_tokens (sys_units a1) + a + reserved + ct)); [done|].
  destruct (kept_trimmed (usable - a - reserved - ct) a1) as [dropped Htrim].
  set (kept := if usable - a - reserved - ct <? units_tokens a1 then _ else _) in *.
  case_match; [done|]. injection Hk as <-. exists a1, (omap id kept), dropped, a, ct.
  split; simpl; try done.
  - by rewrite fmap_app concat_app Hcm.
  - by rewrite units_tokens_app Hcu.
  - rewrite length_app Hcl. destruct a0; simpl; lia.
  - rewrite units_tokens_app Hcu. f_equal. lia.
Qed.

Lemma planned_budget history current tools usable reserved p us kept dropped tt ct :
  planned history current tools usable reserved p us kept dropped tt ct →
  units_tokens kept + ct + tt + reserved ≤ usable.
Proof.
  intros [_ _ _ Hm Htrim _ _ _ _ _ _].
  apply trimmed_fits in Htrim; lia.
Qed.

Lemma planned_count history current tools usable reserved p us kept dropped tt ct :
  planned history current tools usable reserved p us kept dropped tt ct →
  TokenCounter_messages (plan_messages p) = Ok (plan_total_tokens p).
Proof.
  intros [_ Hseg Hct _ [Hs Hh _ _] -> -> _ _ _ _].
  apply segment_messages_shape in Hseg as (Hus & _ & _).
  rewrite messages_app units_count ?Hct //. by eapply kept_shapes.
Qed.

(** What both assemblers promise to the route: the messages end with the current
    request and cost, with the tools, at most the budget. *)
Definition fits_request (current : list obj) (tools : json) (usable : Z) (out : list obj) : Prop :=
  ∃ before tokens tools_tokens,
    out = before ++ current ∧ TokenCounter_messages out = Ok tokens ∧
    TokenCounter_tools tools = Ok tools_tokens ∧ tokens + tools_tokens ≤ usable.

Lemma plan_context_fits history current tools usable reserved p :
  0 ≤ reserved → plan_context history current tools usable reserved = Ok p →
  fits_request current tools usable (plan_messages p).
Proof.
  intros Hr (us & kept & dropped & tt & ct & Hp)%plan_context_inv.
  pose proof (planned_count _ _ _ _ _ _ _ _ _ _ _ Hp) as Hc.
  pose proof (planned_budget _ _ _ _ _ _ _ _ _ _ _ Hp) as Hb.
  destruct Hp as [Ht _ _ _ _ Hm Htot _ _ _ _].
  exists (unit_concat kept), (plan_total_tokens p), tt. split_and!; try done. lia.
Qed.
End plan.

(** ** Correctness of the planner *)

Section correctness.
Context {host : Host}.

(** Segmentation is total on countable messages and is an atomic
    partition: each unit is one instruction, one whole turn (a user message
    with all its replies) or the leading replies, priced by the counter;
    the system units list exactly the instructions in order, and the other
    units concatenate to exactly the remaining messages in order. *)
Theorem segment_messages_partition ms :
  countable_messages ms → roles_hashable ms →
  ∃ us, segment_messages ms = Ok us ∧ Forall unit_shape us ∧
    unit_concat (sys_units us) = instructions ms ∧
    unit_concat (hist_units us) = dialogue ms.
Proof.
  intros Hc Hr. destruct (segment_messages_ok ms Hc Hr) as [us Hus].
  exists us. split; [done|]. by apply segment_messages_shape.
Qed.

(** A returned plan is priced exactly as the messages it emits, and
    messages, tool definitions and the reserved share fit the budget. *)
Theorem plan_context_budget history current tools usable reserved p :
  plan_context history current tools usable reserved = Ok p →
  TokenCounter_messages (plan_messages p) = Ok (plan_total_tokens p) ∧
  TokenCounter_tools tools = Ok (plan_tools_tokens p) ∧
  plan_total_tokens p + plan_tools_tokens p + reserved ≤ usable.
Proof.
  intros (us & kept & dropped & tt & ct & Hp)%plan_context_inv.
  split; [by eapply planned_count|]. pose proof (planned_budget _ _ _ _ _ _ _ _ _ _ _ Hp).
  destruct Hp as [Ht _ _ _ _ _ -> -> _ _ _]. split; [done|lia].
Qed.

(** The plan ends with the whole current request; before it come all
    instructions of the history, in order, and a newest-side run of whole
    units of the rest: only the oldest units are dropped, and no fewer
    could have been. *)
Theorem plan_context_contents history current tools usable reserved p :
  plan_context history current tools usable reserved = Ok p →
  ∃ us kept dropped,
    segment_messages history = Ok us ∧
    plan_messages p = unit_concat kept ++ current ∧
    instructions (unit_concat kept) = instructions history ∧
    hist_units us = dropped ++ hist_units kept ∧
    dialogue history = unit_concat dropped ++ dialogue (unit_concat kept) ∧
    (∀ older newest, dropped = older ++ [newest] →
       usable < plan_total_tokens p + unit_tokens newest
                + plan_tools_tokens p + reserved).
Proof.
  intros (us & kept & dropped & tt & ct & Hp)%plan_context_inv.
  destruct Hp as [_ Hseg Hct _ Htrim Hm Htot Htt _ _ _].
  pose proof (trimmed_tokens _ _ _ _ _ Htrim) as Htok.
  destruct Htrim as [Hs Hh _ Hmin].
  destruct (segment_messages_shape _ _ Hseg) as (Hus & Hsys & Hhist).
  destruct (sys_units_messages kept) as [Hk1 Hk2]; [by eapply kept_shapes|].
  exists us, kept, dropped.
  split_and!; [done|done|by rewrite Hk1 Hs|done|by rewrite Hk2 -Hhist Hh fmap_app concat_app|].
  intros older newest Hd. specialize (Hmin _ _ Hd). subst dropped.
  rewrite units_tokens_app units_tokens_cons in Htok.
  change (units_tokens []) with 0 in Htok. lia.
Qed.

(** Planning fails exactly when the mandatory part (instructions,
    tools, reserve and current request) exceeds the budget, with that sum
    in the error; otherwise it returns a plan. *)
Theorem plan_context_overflow_iff history current tools usable reserved sys tt ct :
  countable_messages history → roles_hashable history →
  TokenCounter_tools tools = Ok tt →
  TokenCounter_messages (instructions history) = Ok sys →
  TokenCounter_messages current = Ok ct →
  0 ≤ reserved →
  if usable <? sys + tt + reserved + ct
  then plan_context history current tools usable reserved
       = Err (PlannerOverflowError (sys + tt + reserved + ct) usable)
  else ∃ p, plan_context history current tools usable reserved = Ok p.
Proof.
  intros Hc Hr Htt Hsys Hct Hres. unfold plan_context. rewrite Htt /=.
  assert (∃ cu, match current with
    | [] => Ok None
    | _ :: _ => t ← TokenCounter_messages current; Ok (Some (MkUnit KTurn current t))
    end = Ok cu) as [cu Hcu].
  { destruct current; [eauto|]. rewrite Hct /=. eauto. }
  rewrite Hcu /=. destruct (current_unit_inv _ _ Hcu) as (ct' & Hct' & -> & _ & Hcut & _).
  assert (ct' = ct) as -> by congruence.
  destruct (segment_messages_ok history Hc Hr) as [us Hus]. rewrite Hus /=.
  destruct (segment_messages_shape _ _ Hus) as (Hshape & Hsysu & _).
  assert (units_tokens (sys_units us) = sys) as Hsu.
  { assert (TokenCounter_messages (unit_concat (sys_units us)) =
      Ok (units_tokens (sys_units us))) as H.
    { apply units_count. by apply Forall_filter_l. }
    rewrite Hsysu in H. congruence. }
  rewrite Hsu. destruct (Z.ltb_spec usable (sys + tt + reserved + ct)); [done|].
  destruct (kept_trimmed (usable - tt - reserved - ct) us) as [dropped Htrim].
  set (kept := omap id (if usable - tt - reserved - ct <? units_tokens us then _ else _)) in *.
  apply trimmed_fits in Htrim; [|lia]. rewrite units_tokens_app Hcut.
  destruct (Z.ltb_spec usable (units_tokens kept + ct + tt)); [lia|eauto].
Qed.

(** C20: what planning does, on countable input.  It fails exactly when the
    mandatory part (instructions, tools, reserve and current request) exceeds
    the budget, with that sum in the error.  Otherwise it returns a plan that
    is priced exactly as what it emits and fits the budget; the plan ends with
    the whole current request, before which come all instructions, in order,
    and a newest-side run of whole units of the rest: only the oldest units
    are dropped, and no fewer could have been. *)
Theorem plan_context_spec history current tools usable reserved sys tt ct :
  countable_messages history → roles_hashable history →
  TokenCounter_tools tools = Ok tt →
  TokenCounter_messages (instructions history) = Ok sys →
  TokenCounter_messages current = Ok ct →
  0 ≤ reserved →
  if usable <? sys + tt + reserved + ct
  then plan_context history current tools usable reserved
       = Err (PlannerOverflowError (sys + tt + reserved + ct) usable)
  else ∃ p us kept dropped,
    plan_context history current tools usable reserved = Ok p ∧
    TokenCounter_messages (plan_messages p) = Ok (plan_total_tokens p) ∧
    plan_total_tokens p + tt + reserved ≤ usable ∧
    segment_messages history = Ok us ∧
    plan_messages p = unit_concat kept ++ current ∧
    instructions (unit_concat kept) = instructions history ∧
    hist_units us = dropped ++ hist_units kept ∧
    (∀ older newest, dropped = older ++ [newest] →
       usable < plan_total_tokens p + unit_tokens newest + tt + reserved).
Proof.
  intros Hc Hr Htt Hsys Hct Hres.
  pose proof (plan_context_overflow_iff _ _ _ usable _ _ _ _ Hc Hr Htt Hsys Hct Hres) as H.
  destruct (usable <? _); [done|]. destruct H as [p Hp].
  destruct (plan_context_budget _ _ _ _ _ _ Hp) as (Hpr & Hpt & Hfit).
  destruct (plan_context_contents _ _ _ _ _ _ Hp)
    as (us & kept & dropped & Hus & Hm & Hi & Hd & _ & Hmin).
  rewrite Htt in Hpt. injection Hpt as Hpt. rewrite -Hpt in Hfit, Hmin. eauto 15.
Qed.
End correctness.

(** ** Witnesses *)

Definition sample_history : list obj :=
  [chat_message "system" "be brief"; chat_message "user" "first question";
   chat_message "assistant" "first answer"; chat_message "developer" "use metric units";
   chat_message "user" "second question"; chat_message "assistant" "second answer"].

Definition sample_request : list obj := [chat_message "user" "third question"].

Lemma segment_messages_partition_witness :
  ∃ us, segment_messages (host:=sample_host) sample_history = Ok us ∧
    Forall (unit_shape (host:=sample_host)) us ∧
    unit_concat (sys_units us) = instructions sample_history ∧
    unit_concat (hist_units us) = dialogue sample_history.
Proof.
  apply (segment_messages_partition (host:=sample_host) sample_history);
    repeat constructor; vm_compute; reflexivity.
Defined.

Lemma plan_context_spec_witness :
  plan_context (host:=sample_host) sample_history sample_request JNull 20 5
    = Err (PlannerOverflowError 27 20) ∧
  ∃ p, plan_context (host:=sample_host) sample_history sample_request JNull 45 5 = Ok p ∧
    plan_dropped_units p = 1 ∧ plan_total_tokens p + 0 + 5 ≤ 45.
Proof.
  split.
  - apply (plan_context_spec (host:=sample_host) sample_history sample_request JNull 20 5 14 0 8);
      try (repeat constructor; vm_compute; reflexivity); vm_compute; discriminate.
  - assert (∃ p us kept dropped,
      plan_context (host:=sample_host) sample_history sample_request JNull 45 5 = Ok p ∧
      TokenCounter_messages (host:=sample_host) (plan_messages p) = Ok (plan_total_tokens p) ∧
      plan_total_tokens p + 0 + 5 ≤ 45 ∧
      segment_messages (host:=sample_host) sample_history = Ok us ∧
      plan_messages p = unit_concat kept ++ sample_request ∧
      instructions (unit_concat kept) = instructions sample_history ∧
      hist_units us = dropped ++ hist_units kept ∧
      (∀ older newest, dropped = older ++ [newest] →
         45 < plan_total_tokens p + unit_tokens newest + 0 + 5))
      as (p & us & kept & dropped & Hp & _ & Hfit & _).
    { apply (plan_context_spec (host:=sample_host) sample_history sample_request JNull 45 5 14 0 8);
        try (repeat constructor; vm_compute; reflexivity); vm_compute; discriminate. }
    exists p. split; [exact Hp|]. split; [|exact Hfit].
    vm_compute in Hp. injection Hp as <-. reflexivity.
Defined.
