(* ===== verification/Reconciliation.v ===== *)
(** * History reconciliation ([conversation/reconciliation.py])

    Clients resend a projection of the conversation: the whole of it, a
    truncation, or a compacted form with a summary.  [reconcile_projection]
    decides whether the projection is consistent with the durable transcript
    and from which message on it is new. *)

From S2P Require Import Prelude PyDict PyString Json.
Local Open Scope nat_scope.

Definition PRUNED_TOOL_RESULT : string := "[Old tool result content cleared]".

(** The [mode] strings of [ReconciliationResult]. *)
Inductive Mode : Type := Exact | Append | Truncate | Compacted | TruncateAppend | Conflict.

#[global] Instance Mode_eq_dec : EqDecision Mode.
Proof. solve_decision. Defined.

Record ReconciliationResult : Type := MkResult {
  mode : Mode;
  append_from : option nat;
}.

#[global] Instance ReconciliationResult_eq_dec : EqDecision ReconciliationResult.
Proof. solve_decision. Defined.

(** ** Message equivalence *)

Definition text_part (part : json) : option string :=
  match part with
  | JObj d =>
      if negb (eq_str (oget d "type") "text") then None
      else match oget d "text" with JStr s => Some s | _ => None end
  | _ => None
  end.

Definition _text_content (value : json) : option string :=
  match value with
  | JStr s => Some s
  | JList parts => join EmptyString <$> mapM text_part parts
  | _ => None
  end.

Definition canonical_message (message : obj) : obj :=
  let result :=
    foldl ddel message ["reasoning_content"; "reasoning"; "reasoning_text"] in
  match _text_content (oget result "content") with
  | Some text => dset result "content" (JStr text)
  | None => result
  end.

Definition equivalent (a b : obj) : bool :=
  let left := canonical_message a in
  let right := canonical_message b in
  if py_eq (JObj left) (JObj right) then true
  else if py_eq (oget left "role") (oget right "role") && eq_str (oget right "role") "tool" then
    let tool_call_id := oget left "tool_call_id" in
    if negb (truthy tool_call_id) || negb (py_eq tool_call_id (oget right "tool_call_id"))
    then false
    else eq_str (oget right "content") PRUNED_TOOL_RESULT
  else false.

Definition is_true_json (v : json) : bool := match v with JBool true => true | _ => false end.

Definition COMPACTION_WRAPPER : string :=
  "The conversation history before this point was compacted into the following summary:".

Definition _is_compaction_summary `{Host} (message : obj) : bool :=
  if is_true_json (oget message "summary") then true
  else if bool_decide
    (lower (py_str (default (JStr EmptyString) (dget message "mode"))) = "compaction")
  then true
  else if match oget message "metadata" with
          | JObj metadata =>
              is_true_json (oget metadata "compaction")
              || is_true_json (oget metadata "compaction_continue")
          | _ => false
          end then true
  else match _text_content (oget message "content") with
       | None => false
       | Some text =>
           if negb (snonempty text) then false
           else contains COMPACTION_WRAPPER text && contains "<summary>" text
                && contains "</summary>" text
       end.

(** ** Sequence matching *)

(** Number of leading positions at which the two lists are equivalent: the
    counter of the [while] loops, on the lists in the order they are walked. *)
Fixpoint match_len (persisted incoming : list obj) : nat :=
  match persisted, incoming with
  | x :: persisted', y :: incoming' =>
      if equivalent x y then S (match_len persisted' incoming') else 0
  | _, _ => 0
  end.

Definition _prefix_len (persisted incoming : list obj) : nat := match_len persisted incoming.

Definition _suffix_match (persisted incoming : list obj) : option (nat * nat) :=
  let n := match_len (reverse persisted) (reverse incoming) in
  if n =? 0 then None else Some (length persisted - n, length incoming - n).

(** One iteration of the scan for an anchor: walk both sequences backwards
    from their ends, not below [prefix]. *)
Definition anchor_at (persisted incoming : list obj) (prefix incoming_end : nat)
    : option (nat * nat * nat) :=
  let n := match_len (reverse (drop prefix persisted))
                     (reverse (drop prefix (take incoming_end incoming))) in
  if n =? 0 then None
  else Some (length persisted - n, incoming_end - n, incoming_end).

Fixpoint first_some {A B} (f : A → option B) (l : list A) : option B :=
  match l with
  | [] => None
  | x :: l' => match f x with Some y => Some y | None => first_some f l' end
  end.

Definition MAX_SCAN : nat := 128.

(** [range(len(incoming), lower - 1, -1)] *)
Definition anchor_ends (incoming : list obj) (prefix : nat) : list nat :=
  let lower := Nat.max (prefix + 1) (length incoming - MAX_SCAN) in
  reverse (seq lower (length incoming + 1 - lower)).

Definition _anchor_before_tail (persisted incoming : list obj) (prefix : nat)
    : option (nat * nat * nat) :=
  if (length incoming <=? prefix) || (length persisted <=? prefix) then None
  else first_some (anchor_at persisted incoming prefix) (anchor_ends incoming prefix).

Section reconcile.
Context {host : Host}.

(** What follows a failed or unusable anchor. *)
Definition tail_projection (persisted incoming : list obj) : ReconciliationResult :=
  match _suffix_match persisted incoming with
  | Some (persisted_start, incoming_start) =>
      if (incoming_start =? 0) && (0 <? persisted_start)
      then MkResult Truncate None else MkResult Conflict None
  | None => MkResult Conflict None
  end.

Definition reconcile_projection (persisted incoming : list obj) : ReconciliationResult :=
  match incoming, persisted with
  | [], _ => MkResult Exact None
  | _, [] => MkResult Append (Some 0)
  | _, _ =>
      let prefix := _prefix_len persisted incoming in
      if prefix =? length incoming then
        if length incoming =? length persisted then MkResult Exact None
        else MkResult Truncate None
      else if prefix =? length persisted then MkResult Append (Some (length persisted))
      else
        match _anchor_before_tail persisted incoming prefix with
        | Some (persisted_start, incoming_start, incoming_end) =>
            let gap := drop prefix (take incoming_start incoming) in
            if prefix <? persisted_start then
              if existsb _is_compaction_summary gap then
                MkResult Compacted (Some incoming_end)
              else if incoming_start =? 0 then
                if incoming_end =? length incoming then MkResult Truncate None
                else MkResult TruncateAppend (Some incoming_end)
              else tail_projection persisted incoming
            else tail_projection persisted incoming
        | None => tail_projection persisted incoming
        end
  end.

(** The messages that the store appends for a result: [None] for a conflict. *)
Definition new_messages (persisted incoming : list obj) : option (list obj) :=
  let result := reconcile_projection persisted incoming in
  if decide (mode result = Conflict) then None
  else match append_from result with
       | None => Some []
       | Some k => Some (drop k incoming)
       end.
End reconcile.

(** ** Lemmas on matching *)

(** Position by position equivalence. *)
Notation matches := (Forall2 (λ x y, equivalent x y = true)).

Lemma match_len_le a b : match_len a b ≤ length a ∧ match_len a b ≤ length b.
Proof.
  revert b. induction a as [|x a IH]; intros [|y b]; simpl; [lia..|].
  destruct (equivalent x y); [|lia]. specialize (IH b). lia.
Qed.

Lemma match_len_matches a b : matches (take (match_len a b) a) (take (match_len a b) b).
Proof.
  revert b. induction a as [|x a IH]; intros [|y b]; simpl; try by constructor.
  destruct (equivalent x y) eqn:E; simpl; by constructor.
Qed.

Lemma match_len_all a b : matches a b → match_len a b = length a.
Proof. induction 1 as [|x y a b Hxy _ IH]; simpl; [done|]. by rewrite Hxy IH. Qed.

Lemma match_len_app a1 a2 b1 b2 :
  matches a1 b1 → match_len (a1 ++ a2) (b1 ++ b2) = length a1 + match_len a2 b2.
Proof. induction 1 as [|x y a b Hxy _ IH]; simpl; [done|]. by rewrite Hxy IH. Qed.

(** A mismatch inside both lists is not affected by what follows. *)
Lemma match_len_extend a b a' :
  match_len a b < length a → match_len (a ++ a') b = match_len a b.
Proof.
  revert b. induction a as [|x a IH]; intros [|y b]; simpl; [lia|lia|done|].
  destruct (equivalent x y); [|done]. intros. f_equal. apply IH. lia.
Qed.

(** The last [n] elements match, for the count [n] of a backward walk. *)
Lemma match_len_rev_suffix a b n :
  match_len (reverse a) (reverse b) = n →
  matches (drop (length a - n) a) (drop (length b - n) b).
Proof.
  intros <-. pose proof (match_len_matches (reverse a) (reverse b)) as H.
  rewrite !take_reverse in H. apply Forall2_reverse in H. by rewrite !reverse_involutive in H.
Qed.

Lemma first_some_Some {A B} (f : A → option B) l y :
  first_some f l = Some y → ∃ x, x ∈ l ∧ f x = Some y.
Proof.
  induction l as [|x l IH]; simpl; [done|]. destruct (f x) eqn:E; intros; simplify_eq.
  - exists x. split; [left|done].
  - destruct IH as (x' & ? & ?); [done|]. exists x'. split; [by right|done].
Qed.

Lemma canonical_message_wf m : obj_wf m → obj_wf (canonical_message m).
Proof.
  intros Hm. unfold canonical_message. simpl.
  destruct (_text_content _); repeat (apply obj_wf_dset || apply obj_wf_ddel); done.
Qed.

Lemma equivalent_refl m : obj_wf m → equivalent m m = true.
Proof. intros Hm. unfold equivalent. by rewrite py_eq_refl; [apply canonical_message_wf|]. Qed.

Lemma matches_refl l : Forall obj_wf l → matches l l.
Proof. induction 1; constructor; by [apply equivalent_refl|]. Qed.

(** Messages that are equal as Python values are equivalent. *)

Lemma text_part_py_eq v w : json_wf v → json_wf w → py_eq v w = true → text_part v = text_part w.
Proof.
  intros Hv Hw H. destruct v as [| | | | | |d], w as [| | | | | |e]; try done; try by simpl in H.
  apply json_wf_obj in Hv as [Hd _], Hw as [He _]. apply py_eq_dict_eq in H; [|done..].
  simpl. rewrite (eq_str_py_eq _ _ _ (dict_eq_oget _ _ "type" H)).
  pose proof (dict_eq_oget _ _ "text" H) as Ht. case_match; [done|].
  destruct (oget d "text") as [| | | |s| |] eqn:E1.
  5: { apply py_eq_JStr_l in Ht as ->. done. }
  all: destruct (oget e "text") eqn:E2; try done; by apply py_eq_JStr in Ht.
Qed.

Lemma _text_content_py_eq v w :
  json_wf v → json_wf w → py_eq v w = true → _text_content v = _text_content w.
Proof.
  intros Hv Hw H. destruct v as [| | | |s|l|], w as [| | | |t|m|]; try done; try by simpl in H.
  - by apply py_eq_JStr in H as [= ->].
  - apply json_wf_list in Hv, Hw. apply py_eq_list in H. simpl. f_equal.
    induction H as [|x y l m Hxy _ IH]; [done|]. inversion_clear Hv. inversion_clear Hw.
    simpl. rewrite (text_part_py_eq x y) //. destruct (text_part y); [|done]. simpl.
    by rewrite IH.
Qed.

Lemma equivalent_py_eq a b :
  obj_wf a → obj_wf b → py_eq (JObj a) (JObj b) = true → equivalent a b = true.
Proof.
  intros Ha Hb H. unfold equivalent.
  assert (py_eq (JObj (canonical_message a)) (JObj (canonical_message b)) = true) as ->; [|done].
  assert (dwf a ∧ dwf b) as [Hda Hdb] by (apply json_wf_obj in Ha, Hb; naive_solver).
  apply py_eq_dict_eq in H; [|done..].
  set (del := λ m : obj, foldl ddel m ["reasoning_content"; "reasoning"; "reasoning_text"]).
  assert (obj_wf (del a) ∧ obj_wf (del b)) as [Ha' Hb'].
  { split; repeat apply obj_wf_ddel; done. }
  assert (dict_eq (del a) (del b)) as Hd.
  { unfold del. simpl. repeat (apply dict_eq_ddel; [by repeat apply dwf_ddel..|]). done. }
  pose proof (canonical_message_wf a Ha) as Hca. pose proof (canonical_message_wf b Hb) as Hcb.
  apply py_eq_dict_eq; [by apply json_wf_obj in Hca as [? _]|by apply json_wf_obj in Hcb as [? _]|].
  unfold canonical_message. fold (del a) (del b).
  rewrite (_text_content_py_eq (oget (del a) "content") (oget (del b) "content"));
    [by apply oget_wf..|by apply dict_eq_oget|].
  destruct (_text_content _); [|done]. by apply dict_eq_dset.
Qed.

(** ** The anchor *)

Lemma anchor_ends_spec incoming prefix e :
  e ∈ anchor_ends incoming prefix → prefix < e ≤ length incoming.
Proof. unfold anchor_ends. rewrite elem_of_reverse elem_of_seq. lia. Qed.

Lemma anchor_ends_head incoming prefix :
  prefix < length incoming → ∃ rest, anchor_ends incoming prefix = length incoming :: rest.
Proof.
  intros H. unfold anchor_ends. set (lower := Nat.max _ _).
  assert (lower ≤ length incoming) by (unfold lower, MAX_SCAN; lia).
  replace (length incoming + 1 - lower) with (S (length incoming - lower)) by lia.
  rewrite seq_S reverse_snoc. eexists. f_equal. lia.
Qed.

(** What an anchor is: the last [n] messages of the transcript match the [n]
    messages of the projection that end at [e]. *)
Record anchored (persisted incoming : list obj) (prefix ps ist e n : nat) : Prop := {
  an_prefix : prefix < length persisted;
  an_range : prefix < e ≤ length incoming;
  an_pos : 0 < n;
  an_ps : ps = length persisted - n;
  an_is : ist = e - n;
  an_ps_bound : n ≤ length persisted - prefix;
  an_is_bound : n ≤ e - prefix;
  an_count : match_len (reverse (drop prefix persisted))
               (reverse (drop prefix (take e incoming))) = n;
  an_matches : matches (drop ps persisted) (drop ist (take e incoming));
}.

Lemma anchor_inv persisted incoming prefix ps ist e :
  _anchor_before_tail persisted incoming prefix = Some (ps, ist, e) →
  ∃ n, anchored persisted incoming prefix ps ist e n.
Proof.
  unfold _anchor_before_tail.
  destruct (Nat.leb_spec (length incoming) prefix); [done|].
  destruct (Nat.leb_spec (length persisted) prefix); [done|]. simpl.
  intros (e' & He%anchor_ends_spec & Hat)%first_some_Some. revert Hat. unfold anchor_at.
  set (n := match_len _ _). destruct (Nat.eqb_spec n 0); [done|]. intros [= <- <- <-].
  pose proof (match_len_le (reverse (drop prefix persisted))
    (reverse (drop prefix (take e' incoming)))) as Hle.
  rewrite !length_reverse !length_drop !length_take in Hle.
  exists n. split; try (done || lia).
  pose proof (match_len_rev_suffix (drop prefix persisted)
    (drop prefix (take e' incoming)) n eq_refl) as Hm.
  rewrite !drop_drop !length_drop !length_take in Hm.
  replace (prefix + (length persisted - prefix - n)) with (length persisted - n) in Hm by lia.
  replace (prefix + (e' `min` length incoming - prefix - n)) with (e' - n) in Hm by lia.
  done.
Qed.

(** A projection that continues the same way after [e] is anchored at its
    very end once its tail has been appended to the transcript. *)
Lemma match_len_after_append persisted incoming tail prefix e :
  matches tail (drop e incoming) → prefix ≤ length persisted → prefix ≤ e ≤ length incoming →
  match_len (reverse (drop prefix (persisted ++ tail)))
            (reverse (drop prefix incoming))
  = length incoming - e
    + match_len (reverse (drop prefix persisted))
                (reverse (drop prefix (take e incoming))).
Proof.
  intros Ht Hp He.
  assert (drop prefix incoming = drop prefix (take e incoming) ++ drop e incoming) as ->.
  { rewrite -{1}(take_drop e incoming) drop_app_le //. rewrite length_take. lia. }
  rewrite drop_app_le // !reverse_app match_len_app; [by apply Forall2_reverse|].
  by rewrite length_reverse (Forall2_length _ _ _ Ht) length_drop.
Qed.

Lemma anchor_after_append persisted incoming tail prefix ps ist e n :
  matches tail (drop e incoming) →
  anchored persisted incoming prefix ps ist e n →
  _anchor_before_tail (persisted ++ tail) incoming prefix = Some (ps, ist, length incoming).
Proof.
  intros Ht [Hp He Hn -> -> Hpb Hib Hcount _]. unfold _anchor_before_tail.
  pose proof (Forall2_length _ _ _ Ht) as Hlen. rewrite length_drop in Hlen.
  rewrite length_app Hlen.
  destruct (Nat.leb_spec (length incoming) prefix); [lia|].
  destruct (Nat.leb_spec (length persisted + (length incoming - e)) prefix); [lia|]. simpl.
  destruct (anchor_ends_head incoming prefix) as [rest ->]; [lia|].
  assert (anchor_at (persisted ++ tail) incoming prefix (length incoming)
    = Some (length persisted - n, e - n, length incoming)) as Hat; [|by simpl; rewrite Hat].
  unfold anchor_at. rewrite firstn_all (match_len_after_append _ _ _ _ e) //; [lia..|].
  rewrite Hcount length_app Hlen.
  destruct (Nat.eqb_spec (length incoming - e + n) 0); [lia|].
  replace (length incoming - (length incoming - e + n)) with (e - n) by lia.
  replace (length persisted + (length incoming - e) - (length incoming - e + n))
    with (length persisted - n) by lia. done.
Qed.

(** ** Soundness of the decision *)

(** The evidence behind each mode, as a relation between the transcript and
    the projection. *)
Inductive justified `{Host} (persisted incoming : list obj) : ReconciliationResult → Prop :=
| just_empty : incoming = [] → justified persisted incoming (MkResult Exact None)
| just_exact : matches persisted incoming → justified persisted incoming (MkResult Exact None)
| just_append known tail :
    incoming = known ++ tail → tail ≠ [] → matches persisted known →
    justified persisted incoming (MkResult Append (Some (length known)))
| just_truncate_end kept gone :
    persisted = kept ++ gone → gone ≠ [] → matches kept incoming →
    justified persisted incoming (MkResult Truncate None)
| just_truncate_start gone kept :
    persisted = gone ++ kept → gone ≠ [] → matches kept incoming →
    justified persisted incoming (MkResult Truncate None)
| just_truncate_append gone kept known tail :
    persisted = gone ++ kept → gone ≠ [] → kept ≠ [] →
    incoming = known ++ tail → tail ≠ [] → matches kept known →
    justified persisted incoming (MkResult TruncateAppend (Some (length known)))
| just_compacted old_head summarized old_tail new_head gap new_tail tail :
    persisted = old_head ++ summarized ++ old_tail → summarized ≠ [] → old_tail ≠ [] →
    incoming = new_head ++ gap ++ new_tail ++ tail →
    existsb _is_compaction_summary gap = true →
    matches old_head new_head → matches old_tail new_tail →
    justified persisted incoming
      (MkResult Compacted (Some (length (new_head ++ gap ++ new_tail))))
| just_conflict : justified persisted incoming (MkResult Conflict None).

Section soundness.
Context {host : Host}.

Lemma tail_projection_justified persisted incoming :
  justified persisted incoming (tail_projection persisted incoming).
Proof.
  unfold tail_projection, _suffix_match. set (n := match_len _ _).
  destruct (Nat.eqb_spec n 0); [constructor|].
  destruct (Nat.eqb_spec (length incoming - n) 0); [|constructor].
  destruct (Nat.ltb_spec 0 (length persisted - n)); [|constructor]. simpl.
  pose proof (match_len_rev_suffix persisted incoming n eq_refl) as Hm.
  rewrite (_ : length incoming - n = 0) // in Hm.
  apply (just_truncate_start _ _ (take (length persisted - n) persisted)
    (drop (length persisted - n) persisted)); [by rewrite take_drop| |done].
  apply take_nonempty; lia.
Qed.

Lemma anchor_justified persisted incoming prefix ps ist e n :
  prefix = match_len persisted incoming →
  anchored persisted incoming prefix ps ist e n → prefix < ps →
  existsb _is_compaction_summary (drop prefix (take ist incoming)) = true →
  justified persisted incoming (MkResult Compacted (Some e)).
Proof.
  intros Hprefix [Hp He Hn Hps His Hpb Hib _ Hm] Hlt Hsum.
  assert (incoming = take prefix incoming ++ drop prefix (take ist incoming)
    ++ drop ist (take e incoming) ++ drop e incoming) as Hi.
  { rewrite -{1}(take_drop e incoming) {1}(take_split ist e); [lia|].
    rewrite {1}(take_split prefix ist); [lia|]. by rewrite -!app_assoc. }
  assert (e = length (take prefix incoming ++ drop prefix (take ist incoming)
    ++ drop ist (take e incoming))) as ->.
  { rewrite !length_app !length_drop !length_take. lia. }
  eapply (just_compacted _ _ (take prefix persisted) (drop prefix (take ps persisted))
    (drop ps persisted)); [|..|exact Hi|exact Hsum| |exact Hm].
  - rewrite -{1}(take_drop ps persisted) {1}(take_split prefix ps); [lia|].
    by rewrite -app_assoc.
  - apply drop_nonempty. rewrite length_take. lia.
  - apply drop_nonempty. lia.
  - rewrite Hprefix. apply match_len_matches.
Qed.

Lemma reconcile_justified persisted incoming :
  justified persisted incoming (reconcile_projection persisted incoming).
Proof.
  destruct incoming as [|i0 incoming]; [by apply just_empty|].
  destruct persisted as [|p0 persisted].
  { by apply (just_append _ _ [] (i0 :: incoming)). }
  unfold reconcile_projection, _prefix_len.
  set (p := p0 :: persisted). set (i := i0 :: incoming).
  pose proof (match_len_le p i) as Hle. pose proof (match_len_matches p i) as Hm.
  destruct (Nat.eqb_spec (match_len p i) (length i)) as [E|E].
  { rewrite E firstn_all in Hm. destruct (Nat.eqb_spec (length i) (length p)) as [El|El].
    - apply just_exact. by rewrite El firstn_all in Hm.
    - eapply just_truncate_end; [symmetry; apply take_drop| |exact Hm].
      apply drop_nonempty. lia. }
  destruct (Nat.eqb_spec (match_len p i) (length p)) as [E'|E'].
  { rewrite E' firstn_all in Hm. rewrite (Forall2_length _ _ _ Hm).
    eapply just_append; [symmetry; apply take_drop|apply drop_nonempty; lia|done]. }
  destruct (_anchor_before_tail p i (match_len p i)) as [[[ps ist] e]|] eqn:Ea;
    [|apply tail_projection_justified].
  apply anchor_inv in Ea as [n Ha].
  destruct (Nat.ltb_spec (match_len p i) ps); [|apply tail_projection_justified].
  destruct (existsb _ _) eqn:Es; [by eapply anchor_justified|].
  destruct (Nat.eqb_spec ist 0) as [->|]; [|apply tail_projection_justified].
  destruct Ha as [Hp He Hn Hps His Hpb Hib _ Ham]. rewrite drop_0 in Ham.
  destruct (Nat.eqb_spec e (length i)) as [->|].
  - rewrite firstn_all in Ham.
    eapply just_truncate_start; [symmetry; apply take_drop| |exact Ham].
    apply take_nonempty; lia.
  - replace (Some e) with (Some (length (take e i))) by (f_equal; rewrite length_take; lia).
    eapply just_truncate_append; [symmetry; apply take_drop| | |symmetry; apply take_drop| |done].
    + apply take_nonempty; lia.
    + apply drop_nonempty; lia.
    + apply drop_nonempty; lia.
Qed.

(** ** Idempotence *)

Lemma reconcile_exact persisted incoming :
  incoming ≠ [] → matches persisted incoming →
  reconcile_projection persisted incoming = MkResult Exact None.
Proof.
  intros Hne Hm. unfold reconcile_projection, _prefix_len.
  rewrite (match_len_all _ _ Hm) -(Forall2_length _ _ _ Hm) Nat.eqb_refl.
  by destruct Hm.
Qed.

(** The decision once neither list is a prefix of the other and an anchor is
    found. *)
Lemma reconcile_at_anchor persisted incoming ps ist e :
  match_len persisted incoming < length incoming →
  match_len persisted incoming < length persisted →
  _anchor_before_tail persisted incoming (match_len persisted incoming) = Some (ps, ist, e) →
  reconcile_projection persisted incoming =
  if match_len persisted incoming <? ps then
    if existsb _is_compaction_summary
         (drop (match_len persisted incoming) (take ist incoming))
    then MkResult Compacted (Some e)
    else if ist =? 0 then
      if e =? length incoming then MkResult Truncate None
      else MkResult TruncateAppend (Some e)
    else tail_projection persisted incoming
  else tail_projection persisted incoming.
Proof.
  intros Hi Hp Ha. unfold reconcile_projection, _prefix_len.
  destruct incoming as [|i0 i]; [simpl in *; lia|].
  destruct persisted as [|p0 p]; [simpl in *; lia|]. rewrite Ha.
  destruct (Nat.eqb_spec (match_len (p0 :: p) (i0 :: i)) (length (i0 :: i))); [lia|].
  destruct (Nat.eqb_spec (match_len (p0 :: p) (i0 :: i)) (length (p0 :: p))); [lia|]. done.
Qed.

Lemma reconcile_no_anchor persisted incoming :
  match_len persisted incoming < length incoming →
  match_len persisted incoming < length persisted →
  _anchor_before_tail persisted incoming (match_len persisted incoming) = None →
  reconcile_projection persisted incoming = tail_projection persisted incoming.
Proof.
  intros Hi Hp Ha. unfold reconcile_projection, _prefix_len.
  destruct incoming as [|i0 i]; [simpl in *; lia|].
  destruct persisted as [|p0 p]; [simpl in *; lia|]. rewrite Ha.
  destruct (Nat.eqb_spec (match_len (p0 :: p) (i0 :: i)) (length (i0 :: i))); [lia|].
  destruct (Nat.eqb_spec (match_len (p0 :: p) (i0 :: i)) (length (p0 :: p))); [lia|]. done.
Qed.

Lemma tail_projection_append persisted incoming :
  append_from (tail_projection persisted incoming) = None.
Proof. unfold tail_projection. repeat case_match; done. Qed.

(** A result that appends comes from a prefix, or from an anchor. *)
Lemma append_from_inv persisted incoming k :
  append_from (reconcile_projection persisted incoming) = Some k →
  (incoming ≠ [] ∧ k = length persisted ∧ matches persisted (take k incoming)) ∨
  ∃ ps ist n,
    match_len persisted incoming < length incoming ∧
    anchored persisted incoming (match_len persisted incoming) ps ist k n ∧
    match_len persisted incoming < ps ∧
    (existsb _is_compaction_summary
       (drop (match_len persisted incoming) (take ist incoming)) = true ∨ ist = 0).
Proof.
  intros H. pose proof (match_len_le persisted incoming) as Hle.
  destruct (decide (length incoming ≤ match_len persisted incoming)) as [Hi|Hi].
  { exfalso. destruct incoming as [|i0 i]; [done|].
    destruct persisted as [|p0 p]; [simpl in *; lia|].
    unfold reconcile_projection, _prefix_len in H.
    destruct (Nat.eqb_spec (match_len (p0 :: p) (i0 :: i)) (length (i0 :: i))); [|lia].
    by destruct (Nat.eqb (length (i0 :: i)) _). }
  destruct (decide (length persisted ≤ match_len persisted incoming)) as [Hp|Hp].
  { left. assert (match_len persisted incoming = length persisted) as E by lia.
    pose proof (match_len_matches persisted incoming) as Hm. rewrite E firstn_all in Hm.
    destruct incoming as [|i0 i]; [simpl in *; lia|].
    unfold reconcile_projection, _prefix_len in H. rewrite E in H.
    destruct persisted as [|p0 p]; [by simplify_eq/=|].
    destruct (Nat.eqb_spec (length (p0 :: p)) (length (i0 :: i))); [lia|].
    rewrite Nat.eqb_refl in H. by simplify_eq/=. }
  right. destruct (_anchor_before_tail persisted incoming (match_len persisted incoming))
    as [[[ps ist] e]|] eqn:Ea.
  - rewrite (reconcile_at_anchor _ _ _ _ _ _ _ Ea) in H; [lia..|].
    apply anchor_inv in Ea as [n Ha]. exists ps, ist, n.
    destruct (Nat.ltb_spec (match_len persisted incoming) ps);
      [|by rewrite tail_projection_append in H].
    destruct (existsb _ _) eqn:Es; [simplify_eq/=; split_and!; auto; lia|].
    destruct (Nat.eqb_spec ist 0); [|by rewrite tail_projection_append in H].
    destruct (Nat.eqb_spec e (length incoming)); simplify_eq/=. split_and!; auto; lia.
  - rewrite reconcile_no_anchor // in H; [lia..|]. by rewrite tail_projection_append in H.
Qed.

Lemma reconcile_again persisted incoming tail k :
  matches tail (drop k incoming) →
  append_from (reconcile_projection persisted incoming) = Some k →
  new_messages (persisted ++ tail) incoming = Some [].
Proof.
  intros Ht H. apply append_from_inv in H as
    [(Hne & -> & Hm)|(ps & ist & n & Hlt & Ha & Hps & Hgap)]; unfold new_messages.
  - rewrite reconcile_exact //. rewrite -{1}(take_drop (length persisted) incoming).
    by apply Forall2_app.
  - pose proof Ha as [Hp He _ _ _ _ _ _ _].
    assert (match_len (persisted ++ tail) incoming = match_len persisted incoming)
      as Hpre by by apply match_len_extend.
    erewrite reconcile_at_anchor; rewrite ?Hpre ?length_app;
      [|lia..|by eapply anchor_after_append].
    destruct (Nat.ltb_spec (match_len persisted incoming) ps); [|lia].
    destruct (existsb _ _) eqn:Es; simpl.
    + by rewrite drop_all.
    + destruct Hgap as [?| ->]; [congruence|]. simpl. rewrite Nat.eqb_refl. done.
Qed.
End soundness.

(** A conflict has a first pair of messages that differ. *)
Lemma match_len_mismatch a b :
  match_len a b < length a → match_len a b < length b →
  ∃ x y, a !! match_len a b = Some x ∧ b !! match_len a b = Some y ∧ equivalent x y = false.
Proof.
  revert b. induction a as [|x a IH]; intros [|y b]; simpl; try lia.
  destruct (equivalent x y) eqn:E; [|by exists x, y]. intros. apply IH; lia.
Qed.

Lemma conflict_position `{Host} persisted incoming :
  mode (reconcile_projection persisted incoming) = Conflict →
  ∃ p m, persisted !! _prefix_len persisted incoming = Some p ∧
    incoming !! _prefix_len persisted incoming = Some m ∧ equivalent p m = false.
Proof.
  unfold _prefix_len. intros Hc. pose proof (match_len_le persisted incoming) as [H1 H2].
  unfold reconcile_projection in Hc.
  destruct incoming as [|m0 i]; [done|]. destruct persisted as [|p0 p]; [done|].
  unfold _prefix_len in Hc.
  destruct (Nat.eqb_spec (match_len (p0 :: p) (m0 :: i)) (length (m0 :: i))) as [E|E].
  { by destruct (length (m0 :: i) =? length (p0 :: p)). }
  destruct (Nat.eqb_spec (match_len (p0 :: p) (m0 :: i)) (length (p0 :: p))) as [E'|E']; [done|].
  apply match_len_mismatch; lia.
Qed.

(** ** Claims *)

Section claims.
Context {host : Host}.

Lemma match_len_take l k : Forall obj_wf l → match_len l (take k l) = length (take k l).
Proof.
  intros Hl. rewrite -{1}(take_drop k l) -{2}(app_nil_r (take k l)) match_len_app.
  - by apply matches_refl, Forall_take.
  - destruct (drop k l); simpl; lia.
Qed.

(** The backward walk from the end of a suffix only stops at its beginning. *)
Lemma match_len_rev_drop l k prefix :
  Forall obj_wf l → k + prefix ≤ length l →
  match_len (reverse (drop prefix l)) (reverse (drop prefix (drop k l)))
  = length l - k - prefix.
Proof.
  intros Hl Hle. rewrite drop_drop.
  assert (drop prefix l = take k (drop prefix l) ++ drop (k + prefix) l) as ->.
  { by rewrite -{1}(take_drop k (drop prefix l)) drop_drop Nat.add_comm. }
  rewrite reverse_app -{2}(app_nil_r (reverse (drop (k + prefix) l))) match_len_app.
  - apply matches_refl, Forall_reverse. by apply Forall_drop.
  - rewrite length_reverse length_drop. destruct (reverse _); simpl; lia.
Qed.

Lemma tail_projection_suffix l k :
  Forall obj_wf l → 0 < k < length l → tail_projection l (drop k l) = MkResult Truncate None.
Proof.
  intros Hl Hk. unfold tail_projection, _suffix_match.
  pose proof (match_len_rev_drop l k 0 Hl) as Hn. rewrite !drop_0 in Hn.
  rewrite Hn; [lia|]. destruct (Nat.eqb_spec (length l - k - 0) 0); [lia|].
  rewrite length_drop. replace (length l - k - (length l - k - 0)) with 0 by lia.
  destruct (Nat.ltb_spec 0 (length l - (length l - k - 0))); [done|lia].
Qed.

Lemma reconcile_suffix l k :
  Forall obj_wf l → 0 < k < length l →
  reconcile_projection l (drop k l) = MkResult Truncate None.
Proof.
  intros Hl Hk. pose proof (match_len_le l (drop k l)) as Hle. rewrite length_drop in Hle.
  destruct (decide (match_len l (drop k l) = length l - k)) as [E|E].
  - unfold reconcile_projection, _prefix_len. rewrite E length_drop Nat.eqb_refl.
    destruct (Nat.eqb_spec (length l - k) (length l)); [lia|].
    destruct (drop k l) eqn:D; [apply (f_equal length) in D; rewrite length_drop in D; simpl in D; lia|].
    destruct l; [simpl in *; lia|done].
  - assert (_anchor_before_tail l (drop k l) (match_len l (drop k l))
      = Some (k + match_len l (drop k l), match_len l (drop k l), length l - k)) as Ha.
    { set (prefix := match_len l (drop k l)) in *. unfold _anchor_before_tail.
      rewrite length_drop.
      destruct (Nat.leb_spec (length l - k) prefix); [lia|].
      destruct (Nat.leb_spec (length l) prefix); [lia|]. simpl.
      destruct (anchor_ends_head (drop k l) prefix) as [rest ->]; [rewrite length_drop; lia|].
      assert (anchor_at l (drop k l) prefix (length (drop k l))
        = Some (k + prefix, prefix, length l - k)) as Hat; [|by simpl; rewrite Hat].
      unfold anchor_at. rewrite firstn_all match_len_rev_drop; [done|lia|].
      destruct (Nat.eqb_spec (length l - k - prefix) 0); [lia|]. rewrite length_drop.
      do 3 f_equal; lia. }
    rewrite (reconcile_at_anchor _ _ _ _ _ _ _ Ha); [rewrite length_drop; lia|lia|].
    rewrite (drop_ge (take _ _)); [rewrite length_take; lia|].
    rewrite length_drop Nat.eqb_refl tail_projection_suffix //.
    by repeat case_match.
Qed.

(** C16: every decision of [reconcile_projection] is backed by evidence: an
    append starts after a projection prefix that matches the whole transcript,
    a truncation is a matching prefix or suffix of it, a truncation with new
    messages resumes after a matching transcript suffix, and a compaction has a
    recognised summary between a matching head and a matching tail. *)
Theorem reconcile_projection_sound persisted incoming :
  justified persisted incoming (reconcile_projection persisted incoming).
Proof. apply reconcile_justified. Qed.

(** The messages that were found to be new, once stored in an equivalent
    form, are not new any more. *)
Lemma reconcile_retry persisted incoming new stored :
  new_messages persisted incoming = Some new → matches stored new →
  new_messages (persisted ++ stored) incoming = Some [].
Proof.
  intros Hnew Hm. pose proof Hnew as Hn. unfold new_messages in Hn.
  case_decide; [done|]. destruct (append_from _) as [k|] eqn:Ek; simplify_eq.
  - by eapply reconcile_again.
  - apply Forall2_nil_inv_r in Hm as ->. by rewrite app_nil_r.
Qed.

(** Reconciling is idempotent: once the messages it found to be new have
    been appended, sending the same projection again yields nothing new, so a
    client's retry never duplicates history. *)
Theorem reconcile_retry_idempotent persisted incoming new :
  Forall obj_wf incoming →
  new_messages persisted incoming = Some new →
  new_messages (persisted ++ new) incoming = Some [].
Proof.
  intros Hwf Hnew. eapply reconcile_retry; [done|]. apply matches_refl.
  unfold new_messages in Hnew. case_decide; [done|].
  destruct (append_from _); simplify_eq; [by apply Forall_drop|constructor].
Qed.

Lemma new_messages_extends persisted known new :
  matches persisted known → new_messages persisted (known ++ new) = Some new.
Proof.
  intros H. pose proof (Forall2_length _ _ _ H) as El.
  destruct persisted as [|m l]; [by inversion H; destruct new|].
  pose proof (match_len_app (m :: l) [] known new H) as Hm.
  rewrite app_nil_r Nat.add_0_r in Hm. unfold new_messages, reconcile_projection, _prefix_len.
  destruct known as [|k known]; [done|]. rewrite Hm length_app -El Nat.eqb_refl.
  destruct new as [|n new]; simpl.
  - by rewrite Nat.add_0_r Nat.eqb_refl.
  - destruct (Nat.eqb_spec (length l) (length l + S (length new))); [lia|].
    simpl in *. injection El as ->. by rewrite drop_app_length.
Qed.

(** One more message than the client knows is its business later; one other than
    the client's is a conflict. *)
Lemma new_messages_fewer persisted extra incoming :
  matches persisted incoming → new_messages (persisted ++ extra) incoming = Some [].
Proof.
  intros H. pose proof (match_len_app persisted extra incoming [] H) as Hm. rewrite app_nil_r in Hm.
  assert (match_len extra [] = 0) as E by by destruct extra.
  destruct incoming as [|i l]; [done|]. destruct persisted as [|p q]; [by inversion H|].
  unfold new_messages, reconcile_projection, _prefix_len. simpl app in *.
  rewrite Hm E Nat.add_0_r (Forall2_length _ _ _ H) Nat.eqb_refl. by destruct (_ =? _).
Qed.

Lemma new_messages_other persisted a incoming m :
  matches persisted incoming → equivalent a m = false →
  new_messages (persisted ++ [a]) (incoming ++ [m]) = None.
Proof.
  intros H Hne. pose proof (Forall2_length _ _ _ H) as El.
  assert (match_len (persisted ++ [a]) (incoming ++ [m]) = length incoming) as Hm.
  { rewrite (match_len_app _ _ _ _ H) /= Hne. lia. }
  unfold new_messages. rewrite reconcile_no_anchor; rewrite ?Hm ?length_app /=; [lia..| |].
  - destruct (_anchor_before_tail _ _ _) as [[[ps ist] e]|] eqn:Ea; [|done].
    apply anchor_inv in Ea as [n [_ He Hn _ _ _ _ Hc _]]. rewrite length_app /= in He.
    assert (e = length (incoming ++ [m])) as -> by (rewrite length_app /=; lia).
    rewrite firstn_all -{1}El !drop_app_length /= Hne in Hc. lia.
  - unfold tail_projection, _suffix_match. by rewrite !reverse_snoc /= Hne.
Qed.

(** C17: honest projections are accepted: a client that resends any prefix or
    any suffix of the transcript adds nothing, and one that resends the whole
    transcript with new messages after it adds exactly these. *)
Theorem reconcile_accepts_projections persisted new k :
  Forall obj_wf persisted →
  new_messages persisted (take k persisted) = Some [] ∧
  new_messages persisted (drop k persisted) = Some [] ∧
  new_messages persisted (persisted ++ new) = Some new.
Proof.
  intros Hwf. split_and!.
  - destruct (take k persisted) as [|m l] eqn:E; [done|]. rewrite -E.
    unfold new_messages, reconcile_projection, _prefix_len.
    rewrite match_len_take // Nat.eqb_refl E.
    destruct persisted; [by rewrite take_nil in E|]. by destruct (length (m :: l) =? _).
  - destruct (decide (k = 0)) as [->|].
    { destruct persisted as [|m l]; [done|]. unfold new_messages.
      rewrite drop_0 reconcile_exact //. by apply matches_refl. }
    destruct (decide (length persisted ≤ k)); [by rewrite drop_ge|].
    unfold new_messages. rewrite reconcile_suffix //. lia.
  - by apply new_messages_extends, matches_refl.
Qed.

(** A request that carries only a new message, with none of the stored
    history around it, is a conflict whenever the message is neither the first
    nor the last one stored. *)
Theorem reconcile_lone_message_conflicts persisted m first last :
  head persisted = Some first → list.last persisted = Some last →
  equivalent first m = false → equivalent last m = false →
  reconcile_projection persisted [m] = MkResult Conflict None.
Proof.
  intros Hf Hl Ef El. destruct persisted as [|p0 p]; [done|]. injection Hf as ->.
  assert (∃ init, first :: p = init ++ [last]) as [init Hi].
  { apply last_Some in Hl as [init ->]. by exists init. }
  assert (match_len (reverse (first :: p)) (reverse [m]) = 0) as Hs.
  { rewrite Hi reverse_snoc /=. by rewrite El. }
  assert (match_len (first :: p) [m] = 0) as Hp by by simpl; rewrite Ef.
  rewrite reconcile_no_anchor ?Hp; [simpl; lia..| |].
  - assert (anchor_at (first :: p) [m] 0 1 = None) as Hat.
    { unfold anchor_at. by rewrite !drop_0 Hs. }
    unfold _anchor_before_tail. change (anchor_ends [m] 0) with [1].
    cbn [first_some]. by rewrite Hat.
  - unfold tail_projection, _suffix_match. by rewrite Hs.
Qed.
End claims.

(** ** Witnesses *)

Definition sample_transcript : list obj :=
  [chat_message "user" "hello"; chat_message "assistant" "hi"; chat_message "user" "more"].

Definition sample_summary : obj :=
  chat_message "user" (COMPACTION_WRAPPER +:+ "<summary>greetings</summary>").

Lemma sample_transcript_wf : Forall obj_wf sample_transcript.
Proof. repeat constructor; set_solver. Qed.

(** A compacted projection with one new message. *)
Definition sample_compacted : list obj :=
  [sample_summary; chat_message "user" "more"; chat_message "assistant" "done"].

Lemma sample_compacted_wf : Forall obj_wf sample_compacted.
Proof. repeat constructor; set_solver. Qed.

Example sample_compacted_mode :
  reconcile_projection (host:=sample_host) sample_transcript sample_compacted
  = MkResult Compacted (Some 2).
Proof. vm_compute. reflexivity. Qed.

Lemma reconcile_retry_idempotent_witness :
  new_messages (host:=sample_host)
    (sample_transcript ++ [chat_message "assistant" "done"]) sample_compacted = Some [].
Proof.
  apply (reconcile_retry_idempotent (host:=sample_host) sample_transcript sample_compacted).
  - exact sample_compacted_wf.
  - vm_compute. reflexivity.
Defined.

Lemma reconcile_accepts_projections_witness :
  new_messages (host:=sample_host) sample_transcript (take 2 sample_transcript) = Some [] ∧
  new_messages (host:=sample_host) sample_transcript (drop 2 sample_transcript) = Some [] ∧
  new_messages (host:=sample_host) sample_transcript
    (sample_transcript ++ [chat_message "assistant" "ok"]) = Some [chat_message "assistant" "ok"].
Proof.
  apply (reconcile_accepts_projections (host:=sample_host) sample_transcript _ 2).
  exact sample_transcript_wf.
Defined.

Lemma reconcile_lone_message_conflicts_witness :
  reconcile_projection (host:=sample_host) sample_transcript [chat_message "user" "next"]
  = MkResult Conflict None.
Proof.
  apply (reconcile_lone_message_conflicts (host:=sample_host) _ _
    (chat_message "user" "hello") (chat_message "user" "more")); vm_compute; reflexivity.
Defined.
