(* ===== verification/Candidates.v ===== *)
(** * Context candidates ([context/candidates.py], [context/scoring.py],
    [context/query.py], the data of [memory/models.py])

    Every source of context is projected to a [Candidate]: who it comes from,
    what it costs, what it renders to, and the canonical text under which
    duplicates are recognised. *)

From stdpp Require Import pretty.
From Stdlib Require Import QArith.
From S2P Require Import Prelude PyDict PyString Json Tokens.
Local Open Scope Z_scope.

(** ** Data *)

Inductive CandidateSource : Type :=
| SYSTEM | TOOL_DEFINITIONS | PINNED | CURRENT_REQUEST | RECENT_TURN | MEMORY | CHUNK.

#[global] Instance CandidateSource_eq_dec : EqDecision CandidateSource.
Proof. solve_decision. Defined.

Definition TIER_BY_SOURCE (s : CandidateSource) : Z :=
  match s with
  | SYSTEM | TOOL_DEFINITIONS => 1
  | PINNED => 2
  | CURRENT_REQUEST => 3
  | RECENT_TURN => 4
  | MEMORY | CHUNK => 5
  end.

Inductive CandidateClassification : Type :=
| TRUSTED_INSTRUCTION | DERIVED_CONTEXT | UNTRUSTED_USER_DATA.

#[global] Instance CandidateClassification_eq_dec : EqDecision CandidateClassification.
Proof. solve_decision. Defined.

Definition CLASSIFICATION_BY_SOURCE (s : CandidateSource) : CandidateClassification :=
  match s with
  | SYSTEM | TOOL_DEFINITIONS | PINNED => TRUSTED_INSTRUCTION
  | CURRENT_REQUEST | RECENT_TURN => UNTRUSTED_USER_DATA
  | MEMORY | CHUNK => DERIVED_CONTEXT
  end.

(** The [metadata] dict of a candidate: one optional field per key that the
    builders write or the engine reads. *)
Record Metadata : Type := MkMetadata {
  md_conversation_id : option string;
  md_classification : option CandidateClassification;
  md_position : option Z;
  md_content_texts : option (list string);
  md_is_tools : option bool;
  md_kind : option string;
  md_score : option Q;
  md_dedup_text : option string;
  md_fingerprint : option string;
  md_start_seq : option Z;
  md_end_seq : option Z;
}.

Definition no_metadata : Metadata :=
  MkMetadata None None None None None None None None None None None.

Record Candidate : Type := MkCandidate {
  c_source : CandidateSource;
  c_key : string;
  c_tokens : Z;
  c_tier : Z;
  c_render : list obj;
  c_text : string;
  c_components : list (string * Q);
  c_metadata : Metadata;
}.

Definition Candidate_conversation_id (c : Candidate) : option string :=
  md_conversation_id (c_metadata c).

Definition Candidate_classification (c : Candidate) : CandidateClassification :=
  match md_classification (c_metadata c) with
  | Some explicit => explicit
  | None => CLASSIFICATION_BY_SOURCE (c_source c)
  end.

Record DroppedCandidate : Type := MkDropped {
  d_key : string;
  d_source : CandidateSource;
  d_reason : string;
}.

Record RetrievedItem : Type := MkRetrievedItem {
  item_type : string;
  item_id : string;
  item_conversation_id : string;
  item_kind : string;
  item_content : string;
  item_score : Q;
  item_components : list (string * Q);
  item_source_message_ids : list string;
  item_start_seq : option Z;
  item_end_seq : option Z;
}.

(** ** Canonical text *)

Definition canonical_text (value : string) : string := lower (strip (collapse_spaces value)).

Section texts.
Context {host : Host}.

Definition _sha256_hex (value : string) : string := sha256_hexdigest value.

Definition _part_fingerprint (part : obj) : string :=
  _sha256_hex (json_dumps style_canonical (JObj part)).

Definition _image_fingerprint (url : string) : string := _sha256_hex url.

(** [image_url.get("url", "")] on a dict, [str(image_url)] on anything else. *)
Definition image_url_text (image_url : json) : string :=
  match image_url with
  | JObj d => py_str (default (JStr EmptyString) (dget d "url"))
  | v => py_str v
  end.

(** The token of a part that is not text. *)
Definition opaque_part_text (part : obj) : string :=
  let kind := oget part "type" in
  if eq_str kind "image_url" then
    "[image:" +:+ _image_fingerprint
      (image_url_text (py_or (oget part "image_url") (JObj []))) +:+ "]"
  else
    "[" +:+ py_str (py_or kind (JStr "unknown")) +:+ ":" +:+ _part_fingerprint part +:+ "]".

Definition part_text (part : obj) : string :=
  py_str (py_or (oget part "text") (JStr EmptyString)).

(** One item of [rendered_parts]; parts that are not dicts are skipped. *)
Definition rendered_part (part : json) : option string :=
  match part with
  | JObj d =>
      Some (if eq_str (oget d "type") "text" then part_text d else opaque_part_text d)
  | _ => None
  end.

Definition rendered_content (content : json) : string :=
  match content with
  | JStr s => s
  | JList parts => join " " (omap rendered_part parts)
  | _ => EmptyString
  end.

(** The line of one tool call. *)
Definition tool_call_line (tool_call : json) : res string :=
  function ← py_get tool_call "function";
  custom ← py_get tool_call "custom";
  let payload_container : obj :=
    match function, custom with
    | JObj f, _ => f
    | _, JObj c => c
    | _, _ => []
    end in
  let kind_label := if is_dict function then "function" else "custom" in
  let payload_value :=
    py_or (oget payload_container "arguments") (oget payload_container "input") in
  Ok ("tool_call[" +:+ kind_label +:+ "]: " +:+ py_str (oget payload_container "name")
      +:+ " " +:+ py_str payload_value).

(** The lines of one message. *)
Definition message_lines (message : obj) : res (list string) :=
  let line := py_str (oget message "role") +:+ ": "
              +:+ rendered_content (oget message "content") in
  tool_calls ← py_iter (py_or (oget message "tool_calls") (JList []));
  calls ← mapM tool_call_line tool_calls;
  Ok (line :: calls).

Definition message_texts (messages : list obj) : res string :=
  parts ← mapM message_lines messages;
  Ok (join nl (concat parts)).

(** One entry of [content_texts]. *)
Definition content_text (part : json) : option string :=
  match part with
  | JObj d =>
      if eq_str (oget d "type") "text" then
        let text_value := canonical_text (part_text d) in
        if snonempty text_value then Some text_value else None
      else Some (opaque_part_text d)
  | _ => None
  end.

Definition content_texts (message : obj) : list string :=
  match oget message "content" with
  | JStr content =>
      let text_value := canonical_text content in
      if snonempty text_value then [text_value] else []
  | JList parts => omap content_text parts
  | _ => []
  end.

(** [None] when some line is not JSON. *)
Definition chunk_lines (raw_content : string) : option (list obj) :=
  parsed ← mapM json_loads (filter (λ l, snonempty l = true) (strip <$> splitlines raw_content));
  Some (omap (λ v, match v with JObj d => Some d | _ => None end) parsed).

Definition chunk_canonical_text (raw_content : string) : res string :=
  match chunk_lines raw_content with
  | None | Some [] => Ok (canonical_text raw_content)
  | Some lines => canonical_text <$> message_texts lines
  end.

Definition content_fingerprint (text : string) : string :=
  stake 16 (sha256_hexdigest (canonical_text text)).

Definition candidate_from_retrieved (item : RetrievedItem) : res Candidate :=
  let label := "[retrieved " +:+ item_type item +:+ ":" +:+ item_kind item
               +:+ " id=" +:+ item_id item +:+ "]" in
  let content := label +:+ nl +:+ item_content item in
  let message : obj := [("role", JStr "user"); ("content", JStr content)] in
  let source := if bool_decide (item_type item = "memory") then MEMORY else CHUNK in
  dedup_text ← (if bool_decide (item_type item = "chunk")
                then chunk_canonical_text (item_content item)
                else Ok (canonical_text (item_content item)));
  tokens ← TokenCounter_message message;
  Ok (MkCandidate source (item_id item) tokens (TIER_BY_SOURCE source) [message]
        (canonical_text content) (item_components item)
        (MkMetadata (Some (item_conversation_id item)) None None None None
           (Some (item_kind item)) (Some (item_score item)) (Some dedup_text)
           (Some (content_fingerprint dedup_text))
           (item_start_seq item) (item_end_seq item))).

(** ** The retrieval query *)

Definition query_part (part : json) : option string :=
  match part with
  | JObj d => if eq_str (oget d "type") "text" then Some (part_text d) else None
  | _ => None
  end.

Fixpoint query_from (messages : list obj) : string :=
  match messages with
  | [] => EmptyString
  | message :: rest =>
      if negb (eq_str (oget message "role") "user") then query_from rest
      else match oget message "content" with
           | JStr content => content
           | JList parts => strip (join " " (omap query_part parts))
           | _ => EmptyString
           end
  end.

Definition extract_retrieval_query (messages : list obj) : string :=
  query_from (reverse messages).
End texts.
