(* ===== verification/Mmr.v ===== *)
(** * Relevance and diversity ([context/scoring.py], [context/mmr.py], the
    assembly settings of [config.py])

    Relevance is a weighted sum of score components; [mmr_select] picks
    greedily for relevance and low redundancy.  Floats are exact rationals. *)

From Stdlib Require Import QArith Lqa.
From S2P Require Import Prelude PyDict PyString Json Candidates.
Local Open Scope Z_scope.

(** ** Settings *)

Record RetrievalSettings : Type := MkRetrievalSettings {
  semantic_weight : Q;
  lexical_weight : Q;
  recency_weight : Q;
  importance_weight : Q;
  type_weight : Q;
  limit_default : Z;
  candidate_pool : Z;
}.

Definition default_RetrievalSettings : RetrievalSettings :=
  MkRetrievalSettings (40 # 100) (25 # 100) (15 # 100) (15 # 100) (5 # 100) 8 50.

Record AssemblySettings : Type := MkAssemblySettings {
  assembly_enabled : bool;
  mmr_lambda : Q;
  max_retrieved_items : Z;
  retrieved_budget_tokens : Z;
}.

Definition default_AssemblySettings : AssemblySettings :=
  MkAssemblySettings true (7 # 10) 8 4000.

(** ** Scoring *)

Definition BASE_SCORE_BY_SOURCE (s : CandidateSource) : Q :=
  match s with
  | SYSTEM | TOOL_DEFINITIONS | CURRENT_REQUEST => 1
  | PINNED => 95 # 100
  | RECENT_TURN => 9 # 10
  | MEMORY | CHUNK => 0
  end.

(** Nearest integer, ties to even, as [round] does. *)
Definition round_half_even (q : Q) : Z :=
  let fl := Qnum q / Zpos (Qden q) in
  let r2 := 2 * (Qnum q mod Zpos (Qden q)) in
  if r2 <? Zpos (Qden q) then fl
  else if Zpos (Qden q) <? r2 then fl + 1
  else if Z.even fl then fl else fl + 1.

(** [round(q, 6)] *)
Definition round6 (q : Q) : Q := Qmake (round_half_even (q * 1000000)) 1000000.

(** [c.get(name, 0.0)] *)
Definition component (c : Candidate) (name : string) : Q := default 0%Q (dget (c_components c) name).

Definition relevance_score (candidate : Candidate) (weights : RetrievalSettings) : Q :=
  let base := BASE_SCORE_BY_SOURCE (c_source candidate) in
  if negb (Qle_bool base 0) then round6 base
  else
    round6 (semantic_weight weights * component candidate "semantic"
            + lexical_weight weights * component candidate "lexical"
            + recency_weight weights * component candidate "recency"
            + importance_weight weights * component candidate "importance"
            + type_weight weights * component candidate "type_priority").

(** ** Ranks: the tuple order of Python *)

(** [a < b] *)
Definition qltb (a b : Q) : bool := negb (Qle_bool b a).
Definition str_ltb (s t : string) : bool := negb (str_leb t s).

Definition rank : Type := Q * Q * string.

(** [(a1, a2, a3) < (b1, b2, b3)] *)
Definition rank_ltb (a b : rank) : bool :=
  let '(a1, a2, a3) := a in
  let '(b1, b2, b3) := b in
  match (a1 ?= b1)%Q with
  | Lt => true
  | Gt => false
  | Eq => match (a2 ?= b2)%Q with Lt => true | Gt => false | Eq => str_ltb a3 b3 end
  end.

(** [(-a[0], a[1]) <= (-b[0], b[1])], the key of the initial sort *)
Definition pair_leb (a b : Q * string) : bool :=
  match (b.1 ?= a.1)%Q with
  | Lt => true
  | Gt => false
  | Eq => str_leb a.2 b.2
  end.

(** ** Selection *)

(** [max(l, default=0.0)] *)
Definition qmax (l : list Q) : Q :=
  match l with
  | [] => 0
  | x :: l' => foldl (λ m y, if qltb m y then y else m) x l'
  end.

Section mmr.
Context (similarity : string → string → Q) (lam : Q).

Definition mmr_rank (selected : list string) (pair : Q * string) : rank :=
  let '(score, key) := pair in
  let max_sim := qmax (similarity key <$> selected) in
  let mmr := (lam * score - (1 - lam) * max_sim)%Q in
  (Qopp mmr, Qopp score, key).

(** The inner [for] loop: the best rank so far with its key. *)
Definition mmr_better (selected : list string) (best : option (rank * string))
    (pair : Q * string) : option (rank * string) :=
  let r := mmr_rank selected pair in
  match best with
  | None => Some (r, pair.2)
  | Some (best_rank, _) => if rank_ltb r best_rank then Some (r, pair.2) else best
  end.

Definition mmr_best (selected : list string) (remaining : list (Q * string))
    : option (rank * string) :=
  foldl (mmr_better selected) None remaining.

(** The [while] loop; every iteration removes the picked pair, so the number
    of remaining pairs is enough fuel. *)
Fixpoint mmr_loop (fuel : nat) (limit : Z) (selected : list string)
    (remaining : list (Q * string)) : list string :=
  match fuel with
  | O => selected
  | S fuel =>
      if bool_decide (remaining = []) || (limit <=? Z.of_nat (length selected)) then selected
      else match mmr_best selected remaining with
           | None => selected
           | Some (_, best_key) =>
               mmr_loop fuel limit (selected ++ [best_key])
                 (filter (λ p, p.2 ≠ best_key) remaining)
           end
  end.

Definition mmr_select (scored : list (Q * string)) (limit : Z) : list string :=
  if limit <=? 0 then []
  else match py_sorted pair_leb scored with
       | [] => []
       | (_, first_key) :: remaining => mmr_loop (length remaining) limit [first_key] remaining
       end.
End mmr.

(** ** The order of ranks *)

Lemma rank_ltb_asym a b : rank_ltb a b = true → rank_ltb b a = false.
Proof.
  destruct a as [[a1 a2] a3], b as [[b1 b2] b3]; simpl.
  destruct (Qcompare_spec a1 b1), (Qcompare_spec b1 a1); try done; try lra.
  destruct (Qcompare_spec a2 b2), (Qcompare_spec b2 a2); try done; try lra.
  unfold str_ltb. destruct (str_leb_total a3 b3) as [->| ->]; simpl; [done|].
  by destruct (str_leb b3 a3).
Qed.

Lemma rank_nlt_trans a b c :
  rank_ltb b a = false → rank_ltb c b = false → rank_ltb c a = false.
Proof.
  destruct a as [[a1 a2] a3], b as [[b1 b2] b3], c as [[c1 c2] c3]; simpl.
  destruct (Qcompare_spec b1 a1), (Qcompare_spec c1 b1), (Qcompare_spec c1 a1);
    try done; try lra.
  destruct (Qcompare_spec b2 a2), (Qcompare_spec c2 b2), (Qcompare_spec c2 a2);
    try done; try lra.
  unfold str_ltb. rewrite !negb_false_iff. eauto using str_leb_trans.
Qed.

Lemma rank_ltb_irrefl a : rank_ltb a a = false.
Proof. destruct (rank_ltb a a) eqn:E; [|done]. pose proof (rank_ltb_asym _ _ E). congruence. Qed.

Lemma pair_leb_total a b : pair_leb a b = true ∨ pair_leb b a = true.
Proof.
  unfold pair_leb. destruct (Qcompare_spec b.1 a.1), (Qcompare_spec a.1 b.1);
    try (by left); try (by right); try lra. apply str_leb_total.
Qed.

Lemma pair_leb_trans a b c : pair_leb a b = true → pair_leb b c = true → pair_leb a c = true.
Proof.
  unfold pair_leb.
  destruct (Qcompare_spec b.1 a.1), (Qcompare_spec c.1 b.1), (Qcompare_spec c.1 a.1);
    try done; try lra. apply str_leb_trans.
Qed.

Lemma sorted_pairs scored : StronglySorted (λ a b, pair_leb a b = true) (py_sorted pair_leb scored).
Proof. apply py_sorted_sorted; [apply pair_leb_total|apply pair_leb_trans]. Qed.

(** ** One step of the selection *)

Section selection.
Context (similarity : string → string → Q) (lam : Q).
Notation mmr_rank := (mmr_rank similarity lam).
Notation mmr_best := (mmr_best similarity lam).
Notation mmr_loop := (mmr_loop similarity lam).
Notation mmr_select := (mmr_select similarity lam).

(** [p] has the least rank in [remaining]. *)
Definition least_rank (selected : list string) (remaining : list (Q * string))
    (p : Q * string) : Prop :=
  p ∈ remaining ∧
  ∀ q, q ∈ remaining → rank_ltb (mmr_rank selected q) (mmr_rank selected p) = false.

Lemma mmr_best_spec selected remaining :
  remaining ≠ [] →
  ∃ p, mmr_best selected remaining = Some (mmr_rank selected p, p.2) ∧
       least_rank selected remaining p.
Proof.
  unfold mmr_best. induction remaining as [|x l IH] using rev_ind; [done|]. intros _.
  rewrite foldl_app /=. destruct (decide (l = [])) as [->|Hne].
  { exists x. split; [done|]. split; [set_solver|].
    intros q ->%list_elem_of_singleton. apply rank_ltb_irrefl. }
  destruct (IH Hne) as (p & -> & Hp & Hmin). simpl.
  destruct (rank_ltb (mmr_rank selected x) (mmr_rank selected p)) eqn:E.
  - exists x. split; [done|]. split; [set_solver|].
    intros q [Hq| ->%list_elem_of_singleton]%elem_of_app; [|apply rank_ltb_irrefl].
    eapply rank_nlt_trans; [by apply rank_ltb_asym in E|]. by apply Hmin.
  - exists p. split; [done|]. split; [set_solver|].
    intros q [Hq| ->%list_elem_of_singleton]%elem_of_app; auto.
Qed.

Lemma mmr_loop_step fuel limit selected remaining :
  remaining ≠ [] → Z.of_nat (length selected) < limit →
  ∃ p, least_rank selected remaining p ∧
    mmr_loop (S fuel) limit selected remaining
    = mmr_loop fuel limit (selected ++ [p.2]) (filter (λ q, q.2 ≠ p.2) remaining).
Proof.
  intros Hne Hlt. destruct (mmr_best_spec selected _ Hne) as (p & Hb & Hp).
  exists p. split; [done|]. simpl. rewrite bool_decide_eq_false_2 // Hb.
  destruct (Z.leb_spec limit (Z.of_nat (length selected))); [lia|done].
Qed.

(** Removing the key of one pair of a list with distinct keys. *)
Lemma length_filter_key (l : list (Q * string)) p :
  NoDup l.*2 → p ∈ l → S (length (filter (λ q, q.2 ≠ p.2) l)) = length l.
Proof.
  induction l as [|x l IH]; csimpl; [set_solver|]. intros [Hx Hl]%NoDup_cons Hp.
  rewrite filter_cons. destruct (decide (x.2 = p.2)) as [E|E].
  - rewrite decide_False; [tauto|]. rewrite filter_all; [|done].
    apply Forall_forall. intros q Hq Eq. apply Hx. rewrite E -Eq.
    by apply list_elem_of_fmap_2.
  - rewrite decide_True //=. f_equal. apply IH; [done|]. set_solver.
Qed.

Lemma keys_filter_sublist (P : Q * string → Prop) `{∀ q, Decision (P q)} l :
  sublist (filter P l).*2 l.*2.
Proof. induction l as [|x l IH]; [done|]. rewrite filter_cons. case_decide; csimpl; by constructor. Qed.

(** What the loop returns: [picks] after [selected], each of least rank
    among the pairs whose key is not yet chosen. *)
Inductive greedy : list string → list (Q * string) → list string → Prop :=
| greedy_nil selected remaining : greedy selected remaining []
| greedy_cons selected remaining p picks :
    least_rank selected remaining p →
    greedy (selected ++ [p.2]) (filter (λ q, q.2 ≠ p.2) remaining) picks →
    greedy selected remaining (p.2 :: picks).

Lemma mmr_loop_spec fuel limit selected remaining :
  NoDup remaining.*2 → (length remaining ≤ fuel)%nat →
  ∃ picks, mmr_loop fuel limit selected remaining = selected ++ picks ∧
    greedy selected remaining picks ∧
    Z.of_nat (length picks)
    = Z.min (Z.max 0 (limit - Z.of_nat (length selected))) (Z.of_nat (length remaining)).
Proof.
  revert selected remaining. induction fuel as [|fuel IH]; intros selected remaining Hnd Hf.
  { destruct remaining; [|simpl in *; lia]. exists []. rewrite app_nil_r.
    split_and!; [done|constructor|simpl; lia]. }
  destruct (decide (remaining = [])) as [->|Hne].
  { exists []. rewrite app_nil_r. split_and!; [done|constructor|simpl; lia]. }
  destruct (Z.ltb_spec (Z.of_nat (length selected)) limit).
  2: { exists []. rewrite app_nil_r. split_and!; [|constructor|simpl; lia].
       simpl. rewrite bool_decide_eq_false_2 //=.
       destruct (Z.leb_spec limit (Z.of_nat (length selected))); [done|lia]. }
  destruct (mmr_loop_step fuel limit selected remaining) as (p & Hp & ->); [done..|].
  pose proof (length_filter_key remaining p Hnd (proj1 Hp)) as Hlen.
  destruct (IH (selected ++ [p.2]) (filter (λ q, q.2 ≠ p.2) remaining))
    as (picks & -> & Hg & Hl).
  - eapply sublist_NoDup; [done|apply keys_filter_sublist].
  - lia.
  - exists (p.2 :: picks). rewrite -app_assoc. split_and!; [done|by constructor|].
    rewrite length_app /= in Hl. simpl. lia.
Qed.

Lemma greedy_keys selected remaining picks :
  greedy selected remaining picks → NoDup picks ∧ picks ⊆ remaining.*2.
Proof.
  induction 1 as [|selected remaining p picks [Hp _] _ [Hnd Hsub]]; [split; [constructor|set_solver]|].
  split.
  - constructor; [|done]. intros Hin. apply Hsub in Hin.
    apply list_elem_of_fmap in Hin as (q & Hq & [? _]%list_elem_of_filter). congruence.
  - intros k [->|Hk]%elem_of_cons; [by apply list_elem_of_fmap_2|].
    apply Hsub in Hk. eapply sublist_subseteq; [apply (keys_filter_sublist (λ q, q.2 ≠ p.2))|done].
Qed.

Lemma mmr_select_nonempty scored limit :
  0 < limit → scored ≠ [] →
  ∃ first remaining, py_sorted pair_leb scored = first :: remaining ∧
    mmr_select scored limit = mmr_loop (length remaining) limit [first.2] remaining.
Proof.
  intros Hl Hne. unfold mmr_select. destruct (Z.leb_spec limit 0); [lia|].
  destruct (py_sorted pair_leb scored) as [|[s k] remaining] eqn:E.
  - apply (f_equal length) in E. rewrite py_sorted_length in E. by destruct scored.
  - by exists (s, k), remaining.
Qed.

Lemma mmr_loop_subset fuel limit selected remaining :
  mmr_loop fuel limit selected remaining ⊆ selected ++ remaining.*2.
Proof.
  revert selected remaining. induction fuel as [|fuel IH]; intros selected remaining;
    [set_solver|].
  destruct (decide (remaining = [])) as [->|Hne]; [simpl; set_solver|].
  destruct (Z.ltb_spec (Z.of_nat (length selected)) limit).
  - destruct (mmr_loop_step fuel limit selected remaining) as (p & [Hp _] & ->); [done..|].
    intros k Hk%IH. pose proof (sublist_subseteq _ _ (keys_filter_sublist (λ q, q.2 ≠ p.2) remaining)).
    apply (list_elem_of_fmap_2 snd) in Hp. set_solver.
  - simpl. rewrite bool_decide_eq_false_2 //=.
    destruct (Z.leb_spec limit (Z.of_nat (length selected))); [set_solver|lia].
Qed.

Lemma mmr_select_subset scored limit : mmr_select scored limit ⊆ scored.*2.
Proof.
  destruct (Z.leb_spec limit 0) as [Hlim|Hlim].
  { unfold mmr_select. destruct (Z.leb_spec limit 0); [set_solver|lia]. }
  destruct (decide (scored = [])) as [->|Hne].
  { unfold mmr_select. destruct (Z.leb_spec limit 0); set_solver. }
  destruct (mmr_select_nonempty scored limit) as (first & others & Hs & ->); [done..|].
  intros k Hk%mmr_loop_subset. by rewrite -(py_sorted_perm pair_leb scored) Hs.
Qed.

Lemma mmr_select_NoDup scored limit :
  NoDup scored.*2 →
  NoDup (mmr_select scored limit) ∧
  Z.of_nat (length (mmr_select scored limit)) ≤ Z.max 0 limit.
Proof.
  intros Hnd. destruct (Z.leb_spec limit 0) as [Hlim|Hlim].
  { unfold mmr_select. destruct (Z.leb_spec limit 0); [|lia].
    split; [constructor|simpl; lia]. }
  destruct (decide (scored = [])) as [->|Hne].
  { unfold mmr_select. destruct (Z.leb_spec limit 0); [lia|].
    split; [constructor|simpl; lia]. }
  destruct (mmr_select_nonempty scored limit) as (first & others & Hs & ->); [done..|].
  rewrite -(py_sorted_perm pair_leb scored) Hs in Hnd. apply NoDup_cons in Hnd as [Hf Ho].
  destruct (mmr_loop_spec (length others) limit [first.2] others) as (picks & -> & Hg & Hl);
    [done|lia|].
  destruct (greedy_keys _ _ _ Hg) as [Hnp Hsub]. split; [|simpl in *; lia].
  constructor; [|done]. intros Hin. by apply Hf, Hsub.
Qed.

(** ** Claims *)

(** C21: [mmr_select] returns distinct keys of the input, exactly as many as
    the limit and the input allow; the first is best by relevance with ties
    by key, and each later one has the least MMR rank (then relevance, then
    key) among the keys not yet chosen. *)
Theorem mmr_select_greedy scored limit :
  NoDup scored.*2 →
  let result := mmr_select scored limit in
  NoDup result ∧ result ⊆ scored.*2 ∧
  Z.of_nat (length result) = Z.min (Z.max 0 limit) (Z.of_nat (length scored)) ∧
  (result = [] ∨
   ∃ first others picks,
     scored ≡ₚ first :: others ∧
     Forall (λ q, pair_leb first q = true) others ∧
     result = first.2 :: picks ∧ greedy [first.2] others picks).
Proof.
  intros Hnd. simpl. destruct (Z.leb_spec limit 0) as [Hlim|Hlim].
  { unfold mmr_select. destruct (Z.leb_spec limit 0); [|lia].
    split_and!; [constructor|set_solver|simpl; lia|by left]. }
  destruct (decide (scored = [])) as [->|Hne].
  { unfold mmr_select. destruct (Z.leb_spec limit 0); [lia|].
    split_and!; [constructor|set_solver|simpl; lia|by left]. }
  destruct (mmr_select_nonempty scored limit) as (first & others & Hs & ->); [done..|].
  pose proof (py_sorted_perm pair_leb scored) as Hp. rewrite Hs in Hp.
  pose proof (sorted_pairs scored) as Hsort. rewrite Hs in Hsort.
  assert (NoDup (first :: others).*2) as [Hf Ho]%NoDup_cons by by rewrite Hp.
  destruct (mmr_loop_spec (length others) limit [first.2] others) as (picks & -> & Hg & Hl);
    [done|lia|].
  destruct (greedy_keys _ _ _ Hg) as [Hnp Hsub]. split_and!.
  - constructor; [|done]. intros Hin. by apply Hf, Hsub.
  - rewrite -Hp. csimpl. set_solver.
  - rewrite -Hp. simpl in *. lia.
  - right. exists first, others, picks. split_and!; [by rewrite Hp| |done|done].
    by apply StronglySorted_inv in Hsort as [_ ?].
Qed.
End selection.

(** ** When diversity plays no part *)

(** The penalty is the same for all keys left over. *)
Definition flat_penalty (similarity : string → string → Q) (lam : Q) (keys : list string) : Prop :=
  ∀ selected k j,
    selected ⊆ keys → k ∈ keys → j ∈ keys → k ∉ selected → j ∉ selected →
    ((1 - lam) * qmax (similarity k <$> selected) == (1 - lam) * qmax (similarity j <$> selected))%Q.

Section pure_relevance.
Context (similarity : string → string → Q) (lam : Q) (keys : list string).
Context (lam_pos : (0 < lam)%Q) (flat : flat_penalty similarity lam keys).

(** The loop's state: nothing chosen is left over. *)
Definition apart (selected : list string) (remaining : list (Q * string)) : Prop :=
  selected ⊆ keys ∧ remaining.*2 ⊆ keys ∧ ∀ k, k ∈ remaining.*2 → k ∉ selected.

Lemma pure_rank selected p q :
  selected ⊆ keys → p.2 ∈ keys → q.2 ∈ keys → p.2 ∉ selected → q.2 ∉ selected →
  pair_leb p q = true → p.2 ≠ q.2 →
  rank_ltb (mmr_rank similarity lam selected p) (mmr_rank similarity lam selected q) = true.
Proof.
  intros Hs Hp Hq Hps Hqs. pose proof (flat selected p.2 q.2 Hs Hp Hq Hps Hqs) as E.
  destruct p as [s k], q as [t j]. unfold pair_leb. simpl in *. intros Hle Hne.
  set (x := ((1 - lam) * qmax (similarity k <$> selected))%Q) in *.
  set (y := ((1 - lam) * qmax (similarity j <$> selected))%Q) in *.
  destruct (Qcompare_spec t s) as [Ets|Ets|Ets], (Qcompare_spec (- (lam * s - x)) (- (lam * t - y))) as [Er|Er|Er];
    try done; try (exfalso; nra).
  destruct (Qcompare_spec (- s) (- t)); try done; try lra.
  unfold str_ltb. destruct (str_leb j k) eqn:Ek; [|done].
  by destruct Hne; apply str_leb_antisym.
Qed.

Lemma pure_least selected p rest r :
  apart selected (p :: rest) →
  StronglySorted (λ a b, pair_leb a b = true) (p :: rest) → NoDup (p :: rest).*2 →
  least_rank similarity lam selected (p :: rest) r → r = p.
Proof.
  intros (Hsel & Hrest & Hap) [_ Hs]%StronglySorted_inv [Hp _]%NoDup_cons [[->|Hr]%elem_of_cons Hmin]; [done|].
  exfalso. rewrite Forall_forall in Hs. pose proof (list_elem_of_fmap_2 snd _ _ Hr) as Hr2.
  assert (rank_ltb (mmr_rank similarity lam selected p) (mmr_rank similarity lam selected r)
    = true) as Hlt.
  { csimpl in *. apply pure_rank; [done|set_solver..|by apply Hs|]. intros E. apply Hp. by rewrite E. }
  rewrite Hmin in Hlt; [|done]. left.
Qed.

Lemma apart_next selected p rest :
  NoDup (p :: rest).*2 → apart selected (p :: rest) → apart (selected ++ [p.2]) rest.
Proof. intros [Hp _]%NoDup_cons (Hsel & Hrest & Hap). csimpl in *. split_and!; set_solver. Qed.

Lemma pure_loop fuel limit selected remaining :
  apart selected remaining →
  StronglySorted (λ a b, pair_leb a b = true) remaining → NoDup remaining.*2 →
  (length remaining ≤ fuel)%nat →
  mmr_loop similarity lam fuel limit selected remaining
  = selected ++ take (Z.to_nat (limit - Z.of_nat (length selected))) remaining.*2.
Proof.
  revert selected remaining. induction fuel as [|fuel IH]; intros selected remaining Hap Hs Hnd Hf.
  { destruct remaining; [|simpl in *; lia]. by rewrite take_nil app_nil_r. }
  destruct remaining as [|p rest]; [by rewrite take_nil app_nil_r|].
  destruct (Z.ltb_spec (Z.of_nat (length selected)) limit).
  2: { replace (Z.to_nat _) with 0%nat by lia. rewrite take_0 app_nil_r. simpl.
       destruct (Z.leb_spec limit (Z.of_nat (length selected))); [done|lia]. }
  destruct (mmr_loop_step similarity lam fuel limit selected (p :: rest)) as (r & Hr & ->);
    [done..|].
  apply pure_least in Hr as ->; [|done..]. pose proof (apart_next _ _ _ Hnd Hap) as Hap'.
  apply StronglySorted_inv in Hs as [Hs _]. apply NoDup_cons in Hnd as [Hp Hnd].
  rewrite filter_cons decide_False; [tauto|]. rewrite filter_all.
  - apply Forall_forall. intros q Hq E. apply Hp. rewrite -E. by apply list_elem_of_fmap_2.
  - rewrite IH //; [simpl in *; lia|]. rewrite length_app -app_assoc /=.
    replace (Z.to_nat (limit - Z.of_nat (length selected)))
      with (S (Z.to_nat (limit - Z.of_nat (length selected + 1)))) by lia. done.
Qed.
End pure_relevance.

(** Under a flat penalty diversity plays no part: the selection is the
    [limit] best keys by relevance, ties by key. *)
Lemma mmr_flat similarity lam scored limit :
  (0 < lam)%Q → flat_penalty similarity lam scored.*2 → NoDup scored.*2 →
  mmr_select similarity lam scored limit
  = take (Z.to_nat limit) (py_sorted pair_leb scored).*2.
Proof.
  intros Hlam Hflat Hnd. destruct (Z.leb_spec limit 0) as [Hl|Hl].
  { unfold mmr_select. destruct (Z.leb_spec limit 0); [|lia].
    by replace (Z.to_nat limit) with 0%nat by lia. }
  destruct (decide (scored = [])) as [->|Hne].
  { unfold mmr_select. destruct (Z.leb_spec limit 0); [lia|]. by rewrite take_nil. }
  destruct (mmr_select_nonempty similarity lam scored limit) as (p & rest & Hs & ->); [done..|].
  pose proof (py_sorted_perm pair_leb scored) as Hp. rewrite Hs in Hp. rewrite -Hp in Hnd.
  pose proof (sorted_pairs scored) as Hsort. rewrite Hs in Hsort. pose proof Hnd as [Hk Hrest]%NoDup_cons.
  rewrite Hs (pure_loop similarity lam scored.*2) //.
  - assert (∀ k, k ∈ (p :: rest).*2 → k ∈ scored.*2) as Hin by (intros k; by rewrite Hp).
    split_and!; csimpl in *; set_solver.
  - by apply StronglySorted_inv in Hsort as [? _].
  - replace (Z.to_nat limit) with (S (Z.to_nat (limit - Z.of_nat (length [p.2])))); [done|].
    simpl. lia.
Qed.

(** So it is with the trade-off at 1.0, *)
Corollary mmr_pure_relevance similarity lam scored limit :
  (lam == 1)%Q → NoDup scored.*2 →
  mmr_select similarity lam scored limit
  = take (Z.to_nat limit) (py_sorted pair_leb scored).*2.
Proof.
  intros Hlam. apply mmr_flat; [lra|]. intros selected k j _ _ _ _ _. rewrite Hlam. ring.
Qed.

(** and when no two keys are similar. *)
Corollary mmr_unrelated similarity lam scored limit :
  (0 < lam)%Q → NoDup scored.*2 →
  (∀ k j, k ∈ scored.*2 → j ∈ scored.*2 → k ≠ j → similarity k j = 0%Q) →
  mmr_select similarity lam scored limit
  = take (Z.to_nat limit) (py_sorted pair_leb scored).*2.
Proof.
  intros Hlam Hnd Hsim. apply mmr_flat; [done| |done]. intros selected k j Hs Hk Hj Hks Hjs.
  assert (similarity k <$> selected = similarity j <$> selected) as ->; [|reflexivity].
  apply list_fmap_ext. intros i c Hc%list_elem_of_lookup_2. rewrite !Hsim //; set_solver.
Qed.

(** ** Witnesses *)

Definition sample_scored : list (Q * string) :=
  [(5 # 10, "b"); (9 # 10, "a"); (89 # 100, "aa"); (5 # 10, "c")]%Q.

(** Keys with the same first letter are similar. *)
Definition sample_similarity (s t : string) : Q :=
  if bool_decide (stake 1 s = stake 1 t) then 1%Q else 0%Q.

(** The near-duplicate of the best key loses to a less relevant one. *)
Example sample_mmr : mmr_select sample_similarity (7 # 10) sample_scored 3 = ["a"; "b"; "c"].
Proof. vm_compute. reflexivity. Qed.

Lemma mmr_select_greedy_witness :
  NoDup (mmr_select sample_similarity (7 # 10) sample_scored 3) ∧
  Z.of_nat (length (mmr_select sample_similarity (7 # 10) sample_scored 3)) = 3.
Proof.
  destruct (mmr_select_greedy sample_similarity (7 # 10) sample_scored 3) as (H1 & _ & H3 & _).
  - by apply (bool_decide_unpack (NoDup sample_scored.*2)); vm_compute.
  - split; [exact H1|]. rewrite H3. reflexivity.
Defined.

Lemma mmr_pure_relevance_witness :
  mmr_select sample_similarity 1%Q sample_scored 3 = ["a"; "aa"; "b"].
Proof.
  rewrite (mmr_pure_relevance sample_similarity 1%Q sample_scored 3).
  - reflexivity.
  - by apply (bool_decide_unpack (NoDup sample_scored.*2)); vm_compute.
  - reflexivity.
Defined.
