(* ===== verification/Similarity.v ===== *)
(** * Similarity of texts ([cosine_similarity] of [context/mmr.py])

    Texts are compared by how often they use the same words.  The square root of
    floating point is a parameter; everything else is computed. *)

From stdpp Require Import list.
From Stdlib Require Import QArith Lqa.
From S2P Require Import Prelude PyDict PyString Mmr.
Local Open Scope Z_scope.

(** [math.sqrt], as a float. *)
Class MathSqrt : Type := { math_sqrt : Z → Q }.

(** The root of a positive number is positive. *)
Class MathSqrtLaws `{MathSqrt} : Prop := { math_sqrt_pos : ∀ n, 0 < n → (0 < math_sqrt n)%Q }.

(** ** Words *)

(** [[a-z0-9]] *)
Definition word_char (c : Ascii.ascii) : bool :=
  ((97 <=? ord c) && (ord c <=? 122)) || ((48 <=? ord c) && (ord c <=? 57)).

(** [_TOKEN.findall(text)]: the maximal runs; [acc] is the current one, reversed. *)
Fixpoint tokens_from (acc s : string) : list string :=
  match s with
  | EmptyString => match acc with EmptyString => [] | _ => [srev acc] end
  | String c s' =>
      if word_char c then tokens_from (String c acc) s'
      else match acc with EmptyString => [] | _ => [srev acc] end ++ tokens_from EmptyString s'
  end.

Definition tokens (s : string) : list string := tokens_from EmptyString s.

(** [Counter(tokens)] *)
Definition count_token (d : list (string * Z)) (t : string) : list (string * Z) :=
  dset d t (default 0 (dget d t) + 1).

Definition _vector (text : string) : list (string * Z) := foldl count_token [] (tokens text).

(** ** The cosine *)

Definition zsum (l : list Z) : Z := foldr Z.add 0 l.

Definition dot (va vb : list (string * Z)) : Z := zsum ((λ kv, kv.2 * default 0 (dget vb kv.1)) <$> va).

Definition norm (va : list (string * Z)) : Z := zsum ((λ kv, kv.2 * kv.2) <$> va).

Definition qclamp (q : Q) : Q :=
  let q := if Qle_bool q 1 then q else 1%Q in
  if Qle_bool q 0 then 0%Q else q.

Definition cosine_similarity `{MathSqrt} (a b : string) : Q :=
  let va := _vector a in
  let vb := _vector b in
  match va, vb with
  | [], _ | _, [] => 0%Q
  | _, _ =>
      let d := dot va vb in
      if d =? 0 then 0%Q
      else qclamp (inject_Z d / (math_sqrt (norm va) * math_sqrt (norm vb)))%Q
  end.

(** ** Counting *)

Definition occurrences (t : string) (l : list string) : Z := Z.of_nat (length (filter (λ x, x = t) l)).

Lemma occurrences_snoc t l x : occurrences t (l ++ [x]) = occurrences t l + if decide (x = t) then 1 else 0.
Proof.
  unfold occurrences. rewrite filter_app length_app filter_cons filter_nil. case_decide; simpl; lia.
Qed.

Lemma occurrences_cons t l x : occurrences t (x :: l) = (if decide (x = t) then 1 else 0) + occurrences t l.
Proof. unfold occurrences. rewrite filter_cons. case_decide; simpl; lia. Qed.

Lemma occurrences_nonneg t l : 0 ≤ occurrences t l.
Proof. unfold occurrences. lia. Qed.

Lemma occurrences_pos t l : 0 < occurrences t l ↔ t ∈ l.
Proof.
  induction l as [|x l IH]; [split; [done|by intros ?%not_elem_of_nil]|].
  rewrite occurrences_cons elem_of_cons -IH. pose proof (occurrences_nonneg t l).
  case_decide; split; intros H'; [by left|lia| |].
  - right. lia.
  - destruct H' as [->|]; [done|lia].
Qed.

(** The counter has every word with its number of occurrences. *)
Lemma counter_get l t :
  default 0 (dget (foldl count_token [] l) t) = occurrences t l.
Proof.
  induction l as [|x l IH] using rev_ind; [done|].
  rewrite foldl_app occurrences_snoc -IH. simpl. unfold count_token at 1. case_decide as E.
  - subst. by rewrite dget_dset_eq.
  - rewrite dget_dset_ne //. lia.
Qed.

Lemma dot_set va vb t n :
  dwf va → dot (dset va t n) vb = dot va vb + (n - default 0 (dget va t)) * default 0 (dget vb t).
Proof.
  induction va as [|[k v] va IH]; intros Hwf; [unfold dot; simpl; lia|].
  apply NoDup_cons in Hwf as [Hk Hwf]. specialize (IH Hwf). unfold dot in *. simpl.
  case_decide as E; simpl; [subst; lia|]. change (@list_fmap ?A ?B) with (@fmap list _ A B). rewrite IH. lia.
Qed.

(** Every word of [l] meets its occurrences on the other side. *)
Definition meetings (l : list string) (vb : list (string * Z)) : Z :=
  zsum ((λ t, default 0 (dget vb t)) <$> l).

Lemma zsum_app l k : zsum (l ++ k) = zsum l + zsum k.
Proof. induction l as [|x l IH]; simpl; lia. Qed.

Lemma count_tokens_wf l : dwf (foldl count_token [] l).
Proof.
  induction l as [|x l IH] using rev_ind; [constructor|]. rewrite foldl_app. by apply dwf_dset.
Qed.

Lemma dot_meetings l vb : dot (foldl count_token [] l) vb = meetings l vb.
Proof.
  induction l as [|x l IH] using rev_ind; [done|]. rewrite foldl_app. simpl. unfold count_token at 1.
  rewrite dot_set; [apply count_tokens_wf|]. rewrite IH. unfold meetings. rewrite fmap_app zsum_app. simpl. lia.
Qed.

Lemma meetings_occurrences l k :
  meetings l (foldl count_token [] k) = zsum ((λ t, occurrences t k) <$> l).
Proof. unfold meetings. induction l as [|x l IH]; simpl; [done|]. by rewrite IH counter_get. Qed.

(** Counting pairs from either side gives the same. *)
Lemma occurrences_sym l k : zsum ((λ t, occurrences t k) <$> l) = zsum ((λ t, occurrences t l) <$> k).
Proof.
  revert k. induction l as [|x l IH]; intros k; csimpl.
  - induction k as [|y k IH]; csimpl; [done|]. by rewrite -IH.
  - rewrite IH. clear IH. induction k as [|y k IH]; csimpl; [done|].
    rewrite !occurrences_cons -IH. case_decide; case_decide; subst; try done; lia.
Qed.

Lemma dot_vectors a b :
  dot (_vector a) (_vector b) = zsum ((λ t, occurrences t (tokens b)) <$> tokens a).
Proof. unfold _vector. by rewrite dot_meetings meetings_occurrences. Qed.

Lemma zsum_pos l : Forall (λ n, 0 ≤ n) l → 0 ≤ zsum l ∧ (0 < zsum l ↔ Exists (λ n, 0 < n) l).
Proof.
  induction 1 as [|n l Hn _ [IH1 IH2]]; simpl; [split; [done|]; rewrite Exists_nil; lia|].
  split; [lia|]. rewrite Exists_cons -IH2. lia.
Qed.

Lemma dot_pos a b :
  0 ≤ dot (_vector a) (_vector b) ∧
  (0 < dot (_vector a) (_vector b) ↔ ∃ t, t ∈ tokens a ∧ t ∈ tokens b).
Proof.
  rewrite dot_vectors. destruct (zsum_pos ((λ t, occurrences t (tokens b)) <$> tokens a)) as [H1 H2].
  { apply Forall_fmap, Forall_true. intros t. apply occurrences_nonneg. }
  split; [done|]. rewrite H2 Exists_fmap Exists_exists. by setoid_rewrite occurrences_pos.
Qed.

(** Every entry counts a word that occurs. *)
Lemma count_tokens_pos l : Forall (λ kv, 0 < kv.2) (foldl count_token [] l).
Proof.
  induction l as [|x l IH] using rev_ind; [constructor|]. rewrite foldl_app. simpl. unfold count_token at 1.
  rewrite counter_get. pose proof (occurrences_nonneg x l). induction IH as [|[k v] va Hv Hva IHva]; simpl.
  - constructor; [simpl; lia|constructor].
  - case_decide; constructor; simpl in *; auto; lia.
Qed.

Lemma norm_nonneg va : 0 ≤ norm va.
Proof. apply zsum_pos, Forall_fmap, Forall_true. intros [? n]. simpl. nia. Qed.

Lemma norm_pos a : _vector a ≠ [] → 0 < norm (_vector a).
Proof.
  intros Hne. pose proof (count_tokens_pos (tokens a)) as Hv. fold (_vector a) in Hv. unfold norm.
  destruct Hv as [|kv va Hkv Hva]; [done|]. csimpl.
  pose proof (norm_nonneg va) as Hn. unfold norm in Hn. nia.
Qed.

(** ** Cauchy and Schwarz *)

(** One more term on both sides. *)
Lemma cauchy_step D A B v w :
  0 ≤ A → 0 ≤ B → D * D ≤ A * B → (v * w + D) * (v * w + D) ≤ (v * v + A) * (w * w + B).
Proof.
  intros HA HB HD.
  assert (2 * (D * (v * w)) ≤ A * (w * w) + B * (v * v)); [|nia].
  destruct (Z.le_gt_cases (2 * (D * (v * w))) (A * (w * w) + B * (v * v))) as [|Hgt]; [done|].
  exfalso. set (p := A * (w * w)) in *. set (q := B * (v * v)) in *.
  assert (0 ≤ p) by (unfold p; nia). assert (0 ≤ q) by (unfold q; nia).
  assert ((p + q) * (p + q) < 2 * (D * (v * w)) * (2 * (D * (v * w)))) by nia.
  assert (2 * (D * (v * w)) * (2 * (D * (v * w))) ≤ 4 * (p * q)).
  { replace (p * q) with ((A * B) * ((v * w) * (v * w))) by (unfold p, q; ring).
    assert ((D * D) * ((v * w) * (v * w)) ≤ (A * B) * ((v * w) * (v * w)));
      [apply Z.mul_le_mono_nonneg_r; [apply Z.square_nonneg|done]|]. lia. }
  assert (0 ≤ (p - q) * (p - q)) by apply Z.square_nonneg. lia.
Qed.

Lemma norm_ddel vb k :
  dwf vb → norm vb = default 0 (dget vb k) * default 0 (dget vb k) + norm (ddel vb k).
Proof.
  unfold norm. induction vb as [|[j w] vb IH]; [done|]. intros [Hj Hwf]%NoDup_cons. csimpl.
  case_decide as E; subst; csimpl; [done|]. rewrite IH //. lia.
Qed.

(** A word that [va] does not have may leave [vb]. *)
Lemma dot_ddel va vb k : k ∉ va.*1 → dwf vb → dot va (ddel vb k) = dot va vb.
Proof.
  intros Hk Hwf. unfold dot. f_equal. apply list_fmap_ext. intros i [j v] Hin%list_elem_of_lookup_2. simpl.
  rewrite dget_ddel_ne //. intros ->. apply Hk. by apply (list_elem_of_fmap_2 fst) in Hin.
Qed.

Lemma cauchy_schwarz va vb : dwf va → dwf vb → dot va vb * dot va vb ≤ norm va * norm vb.
Proof.
  revert vb. induction va as [|[k v] va IH]; intros vb Ha Hb.
  { pose proof (norm_nonneg vb). unfold dot, norm. simpl. lia. }
  apply NoDup_cons in Ha as [Hk Ha]. specialize (IH (ddel vb k) Ha (dwf_ddel _ _ Hb)).
  rewrite dot_ddel // in IH. rewrite (norm_ddel vb k) //.
  unfold dot, norm in *. csimpl. apply cauchy_step; [apply (norm_nonneg va)|apply (norm_nonneg (ddel vb k))|done].
Qed.

Lemma dot_self va : dwf va → dot va va = norm va.
Proof.
  intros Hwf. unfold dot, norm. f_equal. apply list_fmap_ext. intros i [k v] Hin%list_elem_of_lookup_2. simpl.
  by rewrite (dget_In _ _ _ Hwf Hin).
Qed.

(** ** The measure *)

Lemma qclamp_range q : (0 <= qclamp q <= 1)%Q ∧ ((0 < q)%Q → (0 < qclamp q)%Q).
Proof.
  unfold qclamp. destruct (Qle_bool q 1) eqn:E1.
  - apply Qle_bool_iff in E1. destruct (Qle_bool q 0) eqn:E0.
    + apply Qle_bool_iff in E0. split; [lra|]. lra.
    + assert (¬ (q <= 0)%Q) by (intros H; apply Qle_bool_iff in H; congruence). lra.
  - simpl. split; lra.
Qed.

#[export] Instance qclamp_proper : Proper (Qeq ==> Qeq) qclamp.
Proof.
  intros p q E. unfold qclamp.
  assert (∀ n, Qle_bool p n = Qle_bool q n) as Hle by (intros n; apply Qleb_comp; [done|reflexivity]).
  rewrite Hle. destruct (Qle_bool q 1); [|reflexivity]. rewrite Hle. by destruct (Qle_bool q 0).
Qed.

(** The two early returns are those of a cosine whose words do not meet. *)
Lemma cosine_cases `{MathSqrt} a b :
  cosine_similarity a b =
  if dot (_vector a) (_vector b) =? 0 then 0%Q
  else qclamp (inject_Z (dot (_vector a) (_vector b)) / (math_sqrt (norm (_vector a)) * math_sqrt (norm (_vector b))))%Q.
Proof.
  unfold cosine_similarity. cbv zeta. generalize (_vector a) as va, (_vector b) as vb. intros va vb.
  destruct va as [|x va]; [done|]. destruct vb as [|y vb]; [|done].
  destruct (Z.eqb_spec (dot (x :: va) []) 0) as [|Hne]; [done|]. destruct Hne.
  clear. unfold dot. induction (x :: va) as [|z l IH]; csimpl; [done|]. rewrite IH. lia.
Qed.

Lemma dot_sym a b : dot (_vector a) (_vector b) = dot (_vector b) (_vector a).
Proof. by rewrite !dot_vectors occurrences_sym. Qed.

(** Texts that share a word have vectors, so both roots are positive. *)
Lemma cosine_pos `{MathSqrtLaws} a b :
  0 < dot (_vector a) (_vector b) →
  (0 < inject_Z (dot (_vector a) (_vector b)) / (math_sqrt (norm (_vector a)) * math_sqrt (norm (_vector b))))%Q.
Proof.
  intros Hd. assert (0 < norm (_vector a)).
  { apply norm_pos. intros E. rewrite E in Hd. done. }
  assert (0 < norm (_vector b)).
  { apply norm_pos. intros E. rewrite dot_sym E in Hd. done. }
  apply Qlt_shift_div_l.
  - apply Qmult_lt_0_compat; by apply math_sqrt_pos.
  - rewrite Qmult_0_l. change 0%Q with (inject_Z 0). by rewrite -Zlt_Qlt.
Qed.

(** C38: the similarity of two texts lies between 0 and 1, is the same in
    either direction, and is 0 exactly when they share no word.  What is
    divided is a cosine: the dot product of the word counts is at most the
    product of the norms, with equality for a text and itself, so the clamp
    only removes what rounding adds. *)
Theorem similarity_spec `{MathSqrtLaws} a b :
  (0 <= cosine_similarity a b <= 1)%Q ∧
  (cosine_similarity a b == cosine_similarity b a)%Q ∧
  ((cosine_similarity a b == 0)%Q ↔ ¬ ∃ t, t ∈ tokens a ∧ t ∈ tokens b) ∧
  dot (_vector a) (_vector b) * dot (_vector a) (_vector b) ≤ norm (_vector a) * norm (_vector b) ∧
  dot (_vector a) (_vector a) = norm (_vector a).
Proof.
  pose proof (dot_pos a b) as [Hnn Hd]. rewrite !cosine_cases -(dot_sym a b). split_and!.
  - destruct (Z.eqb_spec (dot (_vector a) (_vector b)) 0); [lra|]. apply qclamp_range.
  - destruct (Z.eqb_spec (dot (_vector a) (_vector b)) 0); [lra|]. apply qclamp_range.
  - destruct (Z.eqb_spec (dot (_vector a) (_vector b)) 0); [reflexivity|].
    rewrite (Qmult_comm (math_sqrt (norm (_vector a)))). reflexivity.
  - rewrite -Hd. destruct (Z.eqb_spec (dot (_vector a) (_vector b)) 0) as [E|E]; [split; [lia|reflexivity]|].
    assert (0 < dot (_vector a) (_vector b)) as Hpos by lia.
    pose proof (proj2 (qclamp_range _) (cosine_pos a b Hpos)). split; [lra|lia].
  - apply cauchy_schwarz; apply count_tokens_wf.
  - apply dot_self, count_tokens_wf.
Qed.

(** A root that is exact on squares up to rounding down. *)
Definition sample_sqrt : MathSqrt := {| math_sqrt := λ n, inject_Z (Z.sqrt n) |}.

Lemma sample_sqrt_laws : @MathSqrtLaws sample_sqrt.
Proof.
  constructor. intros n Hn. simpl. change 0%Q with (inject_Z 0). rewrite -Zlt_Qlt. apply Z.sqrt_pos in Hn. lia.
Qed.

Lemma similarity_spec_witness :
  (@cosine_similarity sample_sqrt "the quick red fox" "the lazy red dog" == 1 # 2)%Q ∧
  @cosine_similarity sample_sqrt "fox" "dog" = 0%Q ∧
  ((@cosine_similarity sample_sqrt "fox" "dog" == 0)%Q ↔ ¬ ∃ t, t ∈ tokens "fox" ∧ t ∈ tokens "dog").
Proof.
  split; [|split].
  - vm_compute. reflexivity.
  - vm_compute. reflexivity.
  - destruct (@similarity_spec sample_sqrt sample_sqrt_laws "fox" "dog") as (_ & _ & H & _). exact H.
Defined.

(** ** Diversity over identifiers *)

Lemma cosine_unrelated `{MathSqrt} a b :
  (∀ t, t ∈ tokens a → t ∉ tokens b) → cosine_similarity a b = 0%Q.
Proof.
  intros Hsep. rewrite cosine_cases. destruct (Z.eqb_spec (dot (_vector a) (_vector b)) 0) as [|Hne]; [done|].
  destruct (dot_pos a b) as [Hnn [Hd _]]. destruct Hd as (t & Ha & Hb); [lia|]. by destruct (Hsep t Ha).
Qed.

(** [ContextEngine] hands [mmr_select] the keys of the candidates, which
    are identifiers, together with the similarity of texts.  Identifiers that
    share no word are never similar, so for any positive trade-off the
    selection is the plain relevance order, whatever the candidates say: the
    redundancy penalty has no effect. *)
Theorem identifiers_lose_diversity `{MathSqrt} lam scored limit :
  (0 < lam)%Q → NoDup scored.*2 →
  (∀ k j t, k ∈ scored.*2 → j ∈ scored.*2 → k ≠ j → t ∈ tokens k → t ∉ tokens j) →
  mmr_select cosine_similarity lam scored limit
  = take (Z.to_nat limit) (py_sorted pair_leb scored).*2.
Proof.
  intros Hlam Hnd Hsep. apply mmr_unrelated; [done..|]. intros k j Hk Hj Hne.
  apply cosine_unrelated. intros t. by apply Hsep.
Qed.

Definition sample_identifiers : list (Q * string) :=
  [(9 # 10, "5f0c51aa-2d1c-4b7e-9a30-0d9c4be3f001"); (8 # 10, "77e1d0ce-91bb-4c02-8f4d-6b2f1f3e9a02");
   (7 # 10, "0a3b9f44-6e58-4d91-b6c7-f2d8a1c5e703")]%Q.

Lemma identifiers_lose_diversity_witness :
  @mmr_select (@cosine_similarity sample_sqrt) (7 # 10) sample_identifiers 2
  = ["5f0c51aa-2d1c-4b7e-9a30-0d9c4be3f001"; "77e1d0ce-91bb-4c02-8f4d-6b2f1f3e9a02"].
Proof.
  rewrite (@identifiers_lose_diversity sample_sqrt (7 # 10) sample_identifiers 2).
  - reflexivity.
  - apply (bool_decide_unpack (NoDup sample_identifiers.*2)). vm_compute. exact I.
  - assert (Forall (λ k, Forall (λ j, k = j ∨ Forall (λ t, t ∉ tokens j) (tokens k)) sample_identifiers.*2)
              sample_identifiers.*2) as HF
      by (apply (bool_decide_unpack _); vm_compute; exact I).
    intros k j t Hk Hj Hne. rewrite Forall_forall in HF. specialize (HF k Hk). rewrite Forall_forall in HF.
    destruct (HF j Hj) as [|Ht]; [contradiction|]. rewrite Forall_forall in Ht. apply Ht.
  - vm_compute. reflexivity.
Defined.

(** Words are lowercase only where the text is: a capital breaks a word. *)
Example capitals_split : tokens "New York" = ["ew"; "ork"].
Proof. vm_compute. reflexivity. Qed.
