(* ===== verification/Engine.v ===== *)
(** * The context assembly engine ([context/engine.py])

    Fusion, filtering, deduplication, scoring, allocation and packing, as
    the class [ContextAssemblyEngine] composes them.  The injected
    similarity is a parameter; the log line is not modelled. *)

From stdpp Require Import gmap pretty.
From Stdlib Require Import QArith.
From S2P Require Import Prelude PyDict PyString Json Tokens Planner Candidates Mmr.
Local Open Scope Z_scope.

Definition CURRENT_REQUEST_KEY : string := "current_request".

Definition is_retrieval_source (s : CandidateSource) : bool :=
  match s with MEMORY | CHUNK => true | _ => false end.

(** ** Splitting off the current request *)

(** Splits at the last user message: the messages before it, and from it on. *)
Fixpoint split_last_user (messages : list obj) : option (list obj * list obj) :=
  match messages with
  | [] => None
  | m :: rest =>
      match split_last_user rest with
      | Some (before, from) => Some (m :: before, from)
      | None => if eq_str (oget m "role") "user" then Some ([], messages) else None
      end
  end.

(** The [while] loop over the end of the request: the maximal suffix of
    instructions; membership of an unhashable role raises.  The loop walks
    backwards, so it runs on the reversed list. *)
Fixpoint split_trailing (rev_messages : list obj) : res (list obj * list obj) :=
  match rev_messages with
  | [] => Ok ([], [])
  | m :: rest =>
      instruction ← is_instruction_role (oget m "role");
      if (instruction : bool) then
        split ← split_trailing rest; Ok (split.1, split.2 ++ [m])
      else Ok (reverse rev_messages, [])
  end.

(** Returns [(history, current_request)]. *)
Definition separate_current_request (messages : list obj) : res (list obj * list obj) :=
  match split_last_user messages with
  | None => Ok (messages, [])
  | Some (before, []) => Ok (before, [])
  | Some (before, user :: after) =>
      split ← split_trailing (reverse after);
      Ok (before ++ split.2, user :: split.1)
  end.

(** ** Plans *)

Record SelectedItem : Type := MkSelected {
  s_key : string;
  s_source : CandidateSource;
  s_tokens : Z;
  s_score : Q;
}.

Record alloc_stats : Type := MkStats {
  recent_tokens : Z;
  retrieved_tokens : Z;
  mandatory_tokens : Z;
  tools_tokens : Z;
}.

Record _Allocation : Type := MkAllocation {
  ordered : list Candidate;
  stats : alloc_stats;
}.

Record plan_diagnostics : Type := MkDiagnostics {
  diag_stats : alloc_stats;
  diag_mmr_lambda : Q;
  diag_max_retrieved_items : Z;
  diag_retrieved_budget_tokens : Z;
  diag_weights : RetrievalSettings;
  diag_drop_reasons : list string;
}.

Record EnginePlan : Type := MkEnginePlan {
  ep_messages : list obj;
  ep_selected_items : list SelectedItem;
  ep_dropped_items : list DroppedCandidate;
  ep_token_estimate : Z;
  ep_tools_tokens : Z;
  ep_usable : Z;
  ep_rationale : string;
  ep_diagnostics : plan_diagnostics;
}.

Definition EnginePlan_within_budget (p : EnginePlan) : bool :=
  ep_token_estimate p <=? ep_usable p.

(** The engine object. *)
Record ContextAssemblyEngine : Type := MkEngine {
  eng_usable : Z;
  eng_settings : AssemblySettings;
  eng_retrieval : RetrievalSettings;
  eng_similarity : string → string → Q;
}.

Definition ContextAssemblyEngine_init (usable_budget : Z) (settings : AssemblySettings)
    (retrieval_settings : RetrievalSettings) (similarity : string → string → Q)
    : res ContextAssemblyEngine :=
  if usable_budget <=? 0 then Err (ValueError "usable_budget must be positive")
  else Ok (MkEngine usable_budget settings retrieval_settings similarity).

(** The [dropped] dict. *)
Notation dropped_dict := (list (string * DroppedCandidate)).

Definition drop_candidate (dropped : dropped_dict) (c : Candidate) (reason : string)
    : dropped_dict :=
  dset dropped (c_key c) (MkDropped (c_key c) (c_source c) reason).

Section engine.
Context {host : Host}.

(** ** Fusion *)

Definition position_metadata (index : Z) : Metadata :=
  MkMetadata None None (Some index) None None None None None None None None.

(** The candidate of the [index]-th unit of the history. *)
Definition unit_candidate (index : nat) (unit : Unit) : res Candidate :=
  let source := if Unit_is_system unit then SYSTEM else RECENT_TURN in
  texts ← message_texts (unit_messages unit);
  Ok (MkCandidate source ("unit:" +:+ pretty (Z.of_nat index)) (unit_tokens unit)
        (TIER_BY_SOURCE source) (unit_messages unit) (canonical_text texts) []
        (MkMetadata None None (Some (Z.of_nat index))
           (Some (concat (content_texts <$> unit_messages unit)))
           None None None None None None None)).

Definition request_candidates (current_request : list obj) (position : Z)
    : res (list Candidate) :=
  match current_request with
  | [] => Ok []
  | _ :: _ =>
      tokens ← TokenCounter_messages current_request;
      texts ← message_texts current_request;
      Ok [MkCandidate CURRENT_REQUEST CURRENT_REQUEST_KEY tokens
            (TIER_BY_SOURCE CURRENT_REQUEST) current_request (canonical_text texts) []
            (position_metadata position)]
  end.

Definition tools_candidates (tools : json) : res (list Candidate) :=
  if negb (truthy tools) then Ok []
  else
    tokens ← TokenCounter_tools tools;
    Ok [MkCandidate TOOL_DEFINITIONS "tool_definitions" tokens
          (TIER_BY_SOURCE TOOL_DEFINITIONS) [] EmptyString []
          (MkMetadata None None None None (Some true) None None None None None None)].

Definition pinned_candidate (index : nat) (message : obj) : res Candidate :=
  tokens ← TokenCounter_message message;
  texts ← message_texts [message];
  Ok (MkCandidate PINNED ("pinned:" +:+ pretty (Z.of_nat index)) tokens
        (TIER_BY_SOURCE PINNED) [message] (canonical_text texts) []
        (position_metadata (Z.of_nat index))).

(** [[f(i, x) for i, x in enumerate(l)]] *)
Fixpoint mapM_enum {A B} (f : nat → A → res B) (index : nat) (l : list A) : res (list B) :=
  match l with
  | [] => Ok []
  | x :: l' => y ← f index x; k ← mapM_enum f (S index) l'; Ok (y :: k)
  end.

Definition _fuse_candidates (history current_request : list obj) (tools : json)
    (pinned : list obj) (retrieved : list RetrievedItem) : res (list Candidate) :=
  units ← segment_messages history;
  history_candidates ← mapM_enum unit_candidate 0 units;
  request ← request_candidates current_request (Z.of_nat (length units));
  tool_definitions ← tools_candidates tools;
  pins ← mapM_enum pinned_candidate 0 pinned;
  items ← mapM candidate_from_retrieved retrieved;
  Ok (history_candidates ++ request ++ tool_definitions ++ pins ++ items).

(** ** Filtering and deduplication *)

Definition superseded (superseded_memory_ids : gset string) (c : Candidate) : bool :=
  bool_decide (c_source c = MEMORY) && bool_decide (c_key c ∈ superseded_memory_ids).

(** A filter that records what it rejects in [dropped]. *)
Fixpoint filter_dropping (reject : Candidate → bool) (reason : string)
    (candidates : list Candidate) (dropped : dropped_dict) : list Candidate * dropped_dict :=
  match candidates with
  | [] => ([], dropped)
  | c :: rest =>
      if reject c then filter_dropping reject reason rest (drop_candidate dropped c reason)
      else let '(kept, dropped) := filter_dropping reject reason rest dropped in
           (c :: kept, dropped)
  end.

Definition _filter_superseded (candidates : list Candidate)
    (superseded_memory_ids : gset string) (dropped : dropped_dict)
    : list Candidate * dropped_dict :=
  filter_dropping (superseded superseded_memory_ids) "superseded" candidates dropped.

Definition foreign (conversation_id : string) (c : Candidate) : bool :=
  is_retrieval_source (c_source c)
  && negb (bool_decide (Candidate_conversation_id c = Some conversation_id)).

Definition _filter_foreign (candidates : list Candidate) (conversation_id : option string)
    (dropped : dropped_dict) : list Candidate * dropped_dict :=
  match conversation_id with
  | None => (candidates, dropped)
  | Some id => filter_dropping (foreign id) "foreign_conversation" candidates dropped
  end.

(** The local variables of [_deduplicate]. *)
Record dedup_state : Type := DedupState {
  seen_raw : gset string;
  seen_retrieval : gset string;
  duplicates : dropped_dict;
  dd_kept : list Candidate;
}.

Definition dedup_step (st : dedup_state) (c : Candidate) : dedup_state :=
  if c_tier c <=? TIER_BY_SOURCE RECENT_TURN then
    DedupState
      ((if snonempty (c_text c) then {[c_text c]} else ∅)
       ∪ list_to_set (default [] (md_content_texts (c_metadata c))) ∪ seen_raw st)
      (seen_retrieval st) (duplicates st) (dd_kept st ++ [c])
  else
    match md_dedup_text (c_metadata c) with
    | Some ((String _ _) as dedup_text) =>
        if bool_decide (dedup_text ∈ seen_raw st)
           || bool_decide (dedup_text ∈ seen_retrieval st)
        then DedupState (seen_raw st) (seen_retrieval st)
               (drop_candidate (duplicates st) c "duplicate") (dd_kept st)
        else DedupState (seen_raw st) ({[dedup_text]} ∪ seen_retrieval st)
               (duplicates st) (dd_kept st ++ [c])
    | _ => DedupState (seen_raw st) (seen_retrieval st) (duplicates st) (dd_kept st ++ [c])
    end.

Definition _deduplicate (candidates : list Candidate) : list Candidate * dropped_dict :=
  let st := foldl dedup_step (DedupState ∅ ∅ [] []) candidates in
  (dd_kept st, duplicates st).

(** ** Allocation *)

(** The classification loop: mandatory, recent, retrieval and tools. *)
Record alloc_classes : Type := MkClasses {
  cl_mandatory : list Candidate;
  cl_recent : list Candidate;
  cl_retrieval : list Candidate;
  cl_tools : option Candidate;
}.

Definition classify_step (st : alloc_classes) (c : Candidate) : alloc_classes :=
  if bool_decide (c_source c = TOOL_DEFINITIONS)
  then MkClasses (cl_mandatory st) (cl_recent st) (cl_retrieval st) (Some c)
  else if c_tier c <=? TIER_BY_SOURCE PINNED
  then MkClasses (cl_mandatory st ++ [c]) (cl_recent st) (cl_retrieval st) (cl_tools st)
  else if bool_decide (c_source c = CURRENT_REQUEST)
  then MkClasses (cl_mandatory st ++ [c]) (cl_recent st) (cl_retrieval st) (cl_tools st)
  else if bool_decide (c_source c = RECENT_TURN)
  then MkClasses (cl_mandatory st) (cl_recent st ++ [c]) (cl_retrieval st) (cl_tools st)
  else MkClasses (cl_mandatory st) (cl_recent st) (cl_retrieval st ++ [c]) (cl_tools st).

Definition classify (candidates : list Candidate) : alloc_classes :=
  foldl classify_step (MkClasses [] [] [] None) candidates.

Definition tokens_of (cs : list Candidate) : Z := sumZ (c_tokens <$> cs).

(** The newest-first loop over [reversed(recent)]: what is kept, newest
    first, and its cost. *)
Fixpoint keep_recent (remaining used : Z) (rev_recent : list Candidate)
    : list Candidate * Z :=
  match rev_recent with
  | [] => ([], used)
  | c :: rest =>
      if remaining <? used + c_tokens c then ([], used)
      else let '(kept, used) := keep_recent remaining (used + c_tokens c) rest in
           (c :: kept, used)
  end.

(** [for c in cs: if reject(c.key, dropped): dropped[c.key] = ...] *)
Definition drop_unless (keep : string → dropped_dict → bool) (reason : string)
    (cs : list Candidate) (dropped : dropped_dict) : dropped_dict :=
  foldl (λ dropped c, if keep (c_key c) dropped then dropped
                      else drop_candidate dropped c reason) dropped cs.

(** [key in {c.key for c in cs}] *)
Definition key_in (cs : list Candidate) (key : string) : bool :=
  bool_decide (key ∈ (c_key <$> cs)).

(** [{c.key: c for c in cs}] *)
Definition by_key (cs : list Candidate) : list (string * Candidate) :=
  foldl (λ d c, dset d (c_key c) c) [] cs.

(** The packing loop over the MMR order. *)
Record pack_state : Type := PackState {
  pk_picked : list Candidate;
  pk_tokens : Z;
  pk_dropped : dropped_dict;
}.

Definition pack_step (index : list (string * Candidate)) (cap : Z)
    (st : pack_state) (key : string) : res pack_state :=
  match dget index key with
  | None => Err KeyError
  | Some c =>
      if cap <? pk_tokens st + c_tokens c
      then Ok (PackState (pk_picked st) (pk_tokens st)
                 (dset (pk_dropped st) key (MkDropped key (c_source c) "budget")))
      else Ok (PackState (pk_picked st ++ [c]) (pk_tokens st + c_tokens c) (pk_dropped st))
  end.

(** [scores[c.key]] *)
Definition score_of (scores : list (string * Q)) (c : Candidate) : res (Q * string) :=
  match dget scores (c_key c) with
  | Some s => Ok (s, c_key c)
  | None => Err KeyError
  end.

Definition pack_retrieval (eng : ContextAssemblyEngine) (scores : list (string * Q))
    (retrieval : list Candidate) (remaining : Z) (dropped : dropped_dict) : res pack_state :=
  if bool_decide (retrieval = []) || (remaining <=? 0)
     || (max_retrieved_items (eng_settings eng) <=? 0)
  then Ok (PackState [] 0 dropped)
  else
    scored ← mapM (score_of scores) retrieval;
    let ranked :=
      mmr_select (eng_similarity eng) (mmr_lambda (eng_settings eng)) scored
        (Z.min (max_retrieved_items (eng_settings eng)) (Z.of_nat (length retrieval))) in
    let retrieved_cap := Z.min remaining (retrieved_budget_tokens (eng_settings eng)) in
    foldM (pack_step (by_key retrieval) retrieved_cap) (PackState [] 0 dropped) ranked.

(** The sort key [(c.tier, c.metadata.get("position", 0), c.key)] *)
Definition head_leb (a b : Candidate) : bool :=
  let pa := default 0 (md_position (c_metadata a)) in
  let pb := default 0 (md_position (c_metadata b)) in
  match c_tier a ?= c_tier b with
  | Lt => true
  | Gt => false
  | Eq => match pa ?= pb with
          | Lt => true
          | Gt => false
          | Eq => str_leb (c_key a) (c_key b)
          end
  end.

(** The first current-request candidate, and the list without it. *)
Fixpoint split_request (head : list Candidate) : list Candidate * option Candidate :=
  match head with
  | [] => ([], None)
  | c :: rest =>
      if bool_decide (c_source c = CURRENT_REQUEST) then (rest, Some c)
      else let '(others, tail) := split_request rest in (c :: others, tail)
  end.

Definition _allocate (eng : ContextAssemblyEngine) (candidates : list Candidate)
    (scores : list (string * Q)) (dropped : dropped_dict)
    : res (_Allocation * dropped_dict) :=
  let classes := classify candidates in
  let mandatory := cl_mandatory classes in
  let recent := cl_recent classes in
  let retrieval := cl_retrieval classes in
  let tools_tokens := match cl_tools classes with Some c => c_tokens c | None => 0 end in
  let mandatory_tokens := tokens_of mandatory in
  if eng_usable eng <? mandatory_tokens + tools_tokens
  then Err (EngineOverflowError (mandatory_tokens + tools_tokens) (eng_usable eng))
  else
    let remaining := eng_usable eng - mandatory_tokens - tools_tokens in
    let '(rev_kept, recent_tokens) := keep_recent remaining 0 (reverse recent) in
    let kept_recent := reverse rev_kept in
    let remaining := remaining - recent_tokens in
    let dropped := drop_unless (λ key _, key_in kept_recent key) "budget" recent dropped in
    packed ← pack_retrieval eng scores retrieval remaining dropped;
    let picked := pk_picked packed in
    let dropped := drop_unless (λ key dropped, key_in picked key || dmem dropped key)
                     "not_selected" retrieval (pk_dropped packed) in
    let head := py_sorted head_leb mandatory in
    let '(head_no_request, tail) := split_request head in
    Ok (MkAllocation
          (head_no_request ++ picked ++ kept_recent
           ++ match tail with Some c => [c] | None => [] end)
          (MkStats recent_tokens (pk_tokens packed) mandatory_tokens tools_tokens),
        dropped).

(** ** The plan *)

(** The trust-boundary guard of [_make_plan]. *)
Definition promotes_derived (c : Candidate) : bool :=
  bool_decide (Candidate_classification c = DERIVED_CONTEXT)
  && match c_render c with
     | m :: _ => eq_str (oget m "role") "system"
     | [] => false
     end.

Record plan_state : Type := PlanState {
  ps_messages : list obj;
  ps_tokens : Z;
  ps_selected : list SelectedItem;
}.

Definition plan_step (scores : list (string * Q)) (st : plan_state) (c : Candidate)
    : res plan_state :=
  if promotes_derived c then Err RuntimeError
  else Ok (PlanState (ps_messages st ++ c_render c) (ps_tokens st + c_tokens c)
             (if bool_decide (c_source c = TOOL_DEFINITIONS) then ps_selected st
              else ps_selected st ++ [MkSelected (c_key c) (c_source c) (c_tokens c)
                                        (default 0%Q (dget scores (c_key c)))])).

Definition sorted_keys {A} (d : list (string * A)) : list string := py_sorted str_leb d.*1.

Definition plan_rationale (selected_count : nat) (st : alloc_stats) (dropped_count : nat)
    : string :=
  "selected " +:+ pretty (Z.of_nat selected_count) +:+ " items (recent="
  +:+ pretty (recent_tokens st) +:+ "tok, retrieved=" +:+ pretty (retrieved_tokens st)
  +:+ "tok, mandatory=" +:+ pretty (mandatory_tokens st) +:+ "tok, tools="
  +:+ pretty (tools_tokens st) +:+ "tok); dropped " +:+ pretty (Z.of_nat dropped_count).

Definition _make_plan (eng : ContextAssemblyEngine) (allocation : _Allocation)
    (scores : list (string * Q)) (dropped : dropped_dict) : res EnginePlan :=
  st ← foldM (plan_step scores) (PlanState [] 0 []) (ordered allocation);
  let tools_tokens := tools_tokens (stats allocation) in
  let token_estimate := ps_tokens st + tools_tokens in
  if eng_usable eng <? token_estimate
  then Err (EngineOverflowError token_estimate (eng_usable eng))
  else
    Ok (MkEnginePlan (ps_messages st) (ps_selected st)
          (omap (dget dropped) (sorted_keys dropped))
          token_estimate tools_tokens (eng_usable eng)
          (plan_rationale (length (ps_selected st)) (stats allocation) (length dropped))
          (MkDiagnostics (stats allocation) (mmr_lambda (eng_settings eng))
             (max_retrieved_items (eng_settings eng))
             (retrieved_budget_tokens (eng_settings eng)) (eng_retrieval eng)
             (py_sorted str_leb (remove_dups (d_reason <$> dropped.*2))))).

(** [{c.key: relevance_score(c, self._retrieval) for c in fused}] *)
Definition score_table (eng : ContextAssemblyEngine) (cs : list Candidate)
    : list (string * Q) :=
  foldl (λ d c, dset d (c_key c) (relevance_score c (eng_retrieval eng))) [] cs.

(** The filtering steps of [build]. *)
Definition filter_all_candidates (fused : list Candidate) (superseded_ids : gset string)
    (conversation_id : option string) : list Candidate * dropped_dict :=
  let '(fused, dropped) := _filter_superseded fused superseded_ids [] in
  let '(fused, dropped) := _filter_foreign fused conversation_id dropped in
  let '(fused, duplicates) := _deduplicate fused in
  (fused, foldl (λ d kv, dset d kv.1 kv.2) dropped duplicates).

Definition build (eng : ContextAssemblyEngine) (history current_request : list obj)
    (tools : json) (pinned : list obj) (retrieved : list RetrievedItem)
    (superseded_memory_ids : gset string) (conversation_id : option string)
    : res EnginePlan :=
  fused ← _fuse_candidates history current_request tools pinned retrieved;
  let '(fused, dropped) := filter_all_candidates fused superseded_memory_ids conversation_id in
  let scored := score_table eng fused in
  allocated ← _allocate eng fused scored dropped;
  _make_plan eng allocated.1 scored allocated.2.
End engine.

(** ** Splitting off the current request *)

Lemma split_last_user_Some ms before from :
  split_last_user ms = Some (before, from) →
  ms = before ++ from ∧
  ∃ user after, from = user :: after ∧ is_user user = true ∧
    Forall (λ m, is_user m = false) after.
Proof.
  assert (∀ ms, split_last_user ms = None → Forall (λ m, is_user m = false) ms) as Hnone.
  { clear. induction ms as [|m ms IH]; simpl; [by constructor|].
    destruct (split_last_user ms) as [[]|]; [done|].
    unfold is_user. destruct (eq_str _ _) eqn:E; [done|]. constructor; auto. }
  revert before from. induction ms as [|m ms IH]; intros before from; simpl; [done|].
  destruct (split_last_user ms) as [[b f]|] eqn:E.
  - intros [= <- <-]. destruct (IH b f) as [-> H]; done.
  - destruct (eq_str _ _) eqn:Eu; [|done]. intros [= <- <-]. split; [done|].
    exists m, ms. split_and!; auto.
Qed.

Lemma split_last_user_None ms :
  split_last_user ms = None ↔ Forall (λ m, is_user m = false) ms.
Proof.
  induction ms as [|m ms IH]; simpl; [done|]. rewrite Forall_cons -IH.
  destruct (split_last_user ms) as [[]|]; [naive_solver|].
  unfold is_user. destruct (eq_str _ _); naive_solver.
Qed.

Lemma split_trailing_spec ms a b :
  split_trailing (reverse ms) = Ok (a, b) →
  ms = a ++ b ∧ Forall (λ m, is_instruction m = true) b ∧
  (∀ l m, a = l ++ [m] → is_instruction m = false).
Proof.
  revert a b. induction ms as [|m ms IH] using rev_ind; intros a b.
  { simpl. intros H. inv_res. split_and!; [done|constructor|].
    intros [] m; simpl; congruence. }
  rewrite reverse_snoc /=. intros H. inv_res. apply is_instruction_role_inv in Hok as ->.
  destruct (is_instruction m) eqn:Em; inv_res.
  - destruct a0 as [a0 b0]. destruct (IH a0 b0 Hok) as (-> & Hb & Ha). simpl in *. simplify_eq.
    split_and!; [by rewrite app_assoc| |done]. apply Forall_app. auto.
  - rewrite -reverse_snoc reverse_involutive. split_and!; [by rewrite app_nil_r|constructor|].
    intros l x [_ [=<-]]%app_inj_tail. done.
Qed.

(** Splitting a payload loses and reorders nothing within each half:
    the current request starts at the last user message and ends before the
    trailing instructions, which stay in the history after everything that
    precedes the request; a payload without a user message is all history. *)
Theorem separate_current_request_spec messages history current :
  separate_current_request messages = Ok (history, current) →
  (Forall (λ m, is_user m = false) messages ∧ history = messages ∧ current = []) ∨
  ∃ before user replies trailing,
    messages = before ++ (user :: replies) ++ trailing ∧
    history = before ++ trailing ∧ current = user :: replies ∧
    is_user user = true ∧ Forall (λ m, is_user m = false) replies ∧
    Forall (λ m, is_instruction m = true) trailing ∧
    (∀ l m, replies = l ++ [m] → is_instruction m = false).
Proof.
  unfold separate_current_request.
  destruct (split_last_user messages) as [[before from]|] eqn:E.
  2: { intros H. inv_res. left. by apply split_last_user_None in E. }
  apply split_last_user_Some in E as (-> & user & after & -> & Hu & Ha).
  intros H. inv_res. destruct a as [replies trailing].
  apply split_trailing_spec in Hok as (-> & Ht & Hl). right.
  exists before, user, replies, trailing. apply Forall_app in Ha as [Hr _].
  split_and!; auto.
Qed.

(** ** What fusion promises *)

Section enum.
Context {A B : Type} (f : nat → A → res B).

Lemma mapM_enum_Forall2 (R : A → B → Prop) i l k :
  (∀ j x y, f j x = Ok y → R x y) → mapM_enum f i l = Ok k → Forall2 R l k.
Proof.
  intros HR. revert i k. induction l as [|x l IH]; simpl; intros i k H; inv_res;
    constructor; eauto.
Qed.

Lemma mapM_enum_sorted (pos : B → Z) i l k :
  (∀ j x y, f j x = Ok y → pos y = Z.of_nat j) → mapM_enum f i l = Ok k →
  StronglySorted (λ a b, pos a < pos b) k ∧ Forall (λ y, Z.of_nat i ≤ pos y) k.
Proof.
  intros Hf. revert i k. induction l as [|x l IH]; simpl; intros i k H; inv_res;
    [repeat constructor|].
  apply Hf in Hok. destruct (IH (S i) a0) as [Hs Hle]; [done|]. split.
  - constructor; [done|]. eapply Forall_impl; [done|]. simpl. lia.
  - constructor; [lia|]. eapply Forall_impl; [done|]. simpl. lia.
Qed.
End enum.

Section fusion.
Context {host : Host}.

Definition c_position (c : Candidate) : Z := default 0 (md_position (c_metadata c)).

(** Every candidate has the tier of its source and no classification of its
    own; its cost is that of the messages it renders to; retrieved ones
    render to one user message. *)
Record cand_ok (c : Candidate) : Prop := {
  ok_tier : c_tier c = TIER_BY_SOURCE (c_source c);
  ok_class : md_classification (c_metadata c) = None;
  ok_tokens : c_source c ≠ TOOL_DEFINITIONS → TokenCounter_messages (c_render c) = Ok (c_tokens c);
  ok_nonneg : 0 ≤ c_tokens c;
  ok_tools : c_source c = TOOL_DEFINITIONS → c_render c = [];
  ok_user : is_retrieval_source (c_source c) = true →
    ∃ text, c_render c = [chat_message "user" text];
}.

Lemma messages_singleton m t :
  TokenCounter_message m = Ok t → TokenCounter_messages [m] = Ok t.
Proof. intros H. unfold TokenCounter_messages. simpl. rewrite H /= Z.add_0_r. done. Qed.

Lemma unit_candidate_inv i u c :
  unit_candidate i u = Ok c →
  c_source c = (if Unit_is_system u then SYSTEM else RECENT_TURN) ∧
  c_tokens c = unit_tokens u ∧ c_render c = unit_messages u ∧
  c_position c = Z.of_nat i ∧
  (unit_shape u → cand_ok c).
Proof.
  unfold unit_candidate. intros H. inv_res. split_and!; try done.
  intros [Ht _]. split; simpl; try done.
  - by eapply messages_nonneg.
  - by destruct (Unit_is_system u).
  - by destruct (Unit_is_system u).
Qed.

Lemma request_candidates_inv current pos cs :
  request_candidates current pos = Ok cs →
  ∃ ct, TokenCounter_messages current = Ok ct ∧ tokens_of cs = ct ∧
    concat (c_render <$> cs) = current ∧
    Forall (λ c, c_source c = CURRENT_REQUEST ∧ cand_ok c) cs ∧ (length cs ≤ 1)%nat.
Proof.
  unfold request_candidates. destruct current as [|m ms]; intros H; inv_res.
  - exists 0. split_and!; [done..|simpl; lia].
  - exists a. unfold tokens_of. csimpl. rewrite app_nil_r Z.add_0_r.
    split_and!; try done. repeat constructor; simpl; try done. by eapply messages_nonneg.
Qed.

Lemma tools_candidates_inv tools cs :
  tools_candidates tools = Ok cs →
  ∃ tt, TokenCounter_tools tools = Ok tt ∧
    (cs = [] ∧ tt = 0 ∨
     ∃ c, cs = [c] ∧ c_source c = TOOL_DEFINITIONS ∧ c_tokens c = tt ∧ cand_ok c).
Proof.
  unfold tools_candidates. destruct (truthy tools) eqn:E; simpl; intros H; inv_res.
  - exists a. split; [done|]. right. eexists. split_and!; [done..|].
    split; simpl; try done. by eapply tools_nonneg.
  - exists 0. split; [|by left]. unfold TokenCounter_tools. by rewrite E.
Qed.

Lemma pinned_candidate_inv i m c :
  pinned_candidate i m = Ok c →
  c_source c = PINNED ∧ c_render c = [m] ∧ c_position c = Z.of_nat i ∧ cand_ok c.
Proof.
  unfold pinned_candidate. intros H. inv_res. split_and!; try done.
  split; simpl; try done; intros; [by apply messages_singleton|].
  by eapply messages_nonneg, messages_singleton.
Qed.

Lemma candidate_from_retrieved_inv item c :
  candidate_from_retrieved item = Ok c →
  c_source c = (if bool_decide (item_type item = "memory") then MEMORY else CHUNK) ∧
  c_key c = item_id item ∧
  Candidate_conversation_id c = Some (item_conversation_id item) ∧ cand_ok c.
Proof.
  unfold candidate_from_retrieved. intros H. inv_res. split_and!; try done.
  split; simpl; try done; intros.
  - by apply messages_singleton.
  - unfold MESSAGE_OVERHEAD_TOKENS. lia.
  - by case_bool_decide.
  - by eexists.
Qed.

(** The groups of candidates that fusion concatenates. *)
Record fused_groups (history current : list obj) (tools : json) (pinned : list obj)
    (retrieved : list RetrievedItem) (units : list Unit)
    (hist req tool pins items : list Candidate) (ct tt : Z) : Prop := {
  fg_units : segment_messages history = Ok units;
  fg_hist : Forall2 (λ u c, c_source c = (if Unit_is_system u then SYSTEM else RECENT_TURN) ∧
      c_tokens c = unit_tokens u ∧ c_render c = unit_messages u) units hist;
  fg_hist_ok : Forall cand_ok hist;
  fg_hist_pos : StronglySorted (λ a b, c_position a < c_position b) hist;
  fg_ct : TokenCounter_messages current = Ok ct;
  fg_req_tokens : tokens_of req = ct;
  fg_req_render : concat (c_render <$> req) = current;
  fg_req : Forall (λ c, c_source c = CURRENT_REQUEST ∧ cand_ok c) req;
  fg_req_one : (length req ≤ 1)%nat;
  fg_tt : TokenCounter_tools tools = Ok tt;
  fg_tool : tool = [] ∧ tt = 0 ∨
    ∃ c, tool = [c] ∧ c_source c = TOOL_DEFINITIONS ∧ c_tokens c = tt ∧ cand_ok c;
  fg_pins_render : concat (c_render <$> pins) = pinned;
  fg_pins : Forall (λ c, c_source c = PINNED ∧ cand_ok c) pins;
  fg_pins_pos : StronglySorted (λ a b, c_position a < c_position b) pins;
  fg_items : Forall2 (λ i c, candidate_from_retrieved i = Ok c) retrieved items;
}.

Lemma fuse_inv history current tools pinned retrieved fused :
  _fuse_candidates history current tools pinned retrieved = Ok fused →
  ∃ units hist req tool pins items ct tt,
    fused = hist ++ req ++ tool ++ pins ++ items ∧
    fused_groups history current tools pinned retrieved units hist req tool pins items ct tt.
Proof.
  unfold _fuse_candidates. intros H. inv_res.
  rename a into units, a0 into hist, a1 into req, a2 into tool, a3 into pins, a4 into items.
  apply request_candidates_inv in Hok1 as (ct & ? & ? & ? & ? & ?).
  apply tools_candidates_inv in Hok2 as (tt & ? & ?).
  exists units, hist, req, tool, pins, items, ct, tt. split; [done|].
  pose proof (segment_messages_shape _ _ Hok) as (Hshape & _ & _).
  assert (Forall2 (λ u c, c_source c = (if Unit_is_system u then SYSTEM else RECENT_TURN) ∧
    c_tokens c = unit_tokens u ∧ c_render c = unit_messages u ∧ (unit_shape u → cand_ok c))
    units hist) as Hh.
  { eapply mapM_enum_Forall2; [|done]. intros j u c (?&?&?&?&?)%unit_candidate_inv. done. }
  assert (Forall2 (λ m c, c_source c = PINNED ∧ c_render c = [m] ∧ cand_ok c) pinned pins) as Hp.
  { eapply mapM_enum_Forall2; [|done]. intros j m c (?&?&?&?)%pinned_candidate_inv. done. }
  split; try done.
  - eapply Forall2_impl; [exact Hh|]. naive_solver.
  - clear -Hh Hshape. induction Hh as [|u c us cs (_ & _ & _ & Hc) _ IH]; [done|].
    inversion_clear Hshape. constructor; auto.
  - eapply (mapM_enum_sorted _ c_position) in Hok0 as [? _]; [done|].
    intros j u c (?&?&?&?&?)%unit_candidate_inv. done.
  - clear -Hp. induction Hp as [|m c ms cs (_ & Hr & _) _ IH]; csimpl; [done|].
    by rewrite Hr IH.
  - clear -Hp. induction Hp as [|m c ms cs (? & _ & ?) _ IH]; by constructor.
  - eapply (mapM_enum_sorted _ c_position) in Hok3 as [? _]; [done|].
    intros j u c (?&?&?&?)%pinned_candidate_inv. done.
  - by apply mapM_res_Ok.
Qed.
End fusion.

(** ** Filtering and deduplication *)

Notation keys cs := (c_key <$> cs).

Lemma keys_drop_candidate d c reason k :
  k ∈ (drop_candidate d c reason).*1 ↔ k = c_key c ∨ k ∈ d.*1.
Proof. apply elem_of_keys_dset. Qed.

(** [cs] splits into what is kept and what is rejected, and the dict of
    dropped candidates grows by exactly the rejected keys. *)
Definition accounted (cs kept : list Candidate) (d d' : dropped_dict) : Prop :=
  ∃ rejected, cs ≡ₚ kept ++ rejected ∧
    ∀ k, k ∈ d'.*1 ↔ k ∈ d.*1 ∨ k ∈ keys rejected.

Lemma accounted_refl cs d : accounted cs cs d d.
Proof. exists []. rewrite app_nil_r. set_solver. Qed.

Lemma accounted_trans cs1 cs2 cs3 d1 d2 d3 :
  accounted cs1 cs2 d1 d2 → accounted cs2 cs3 d2 d3 → accounted cs1 cs3 d1 d3.
Proof.
  intros (r1 & H1 & Hd1) (r2 & H2 & Hd2). exists (r2 ++ r1). split.
  - by rewrite H1 H2 -app_assoc.
  - intros k. rewrite Hd2 Hd1 fmap_app elem_of_app. tauto.
Qed.

Lemma filter_dropping_spec reject reason cs d :
  let '(kept, d') := filter_dropping reject reason cs d in
  kept = filter (λ c, reject c = false) cs ∧ accounted cs kept d d'.
Proof.
  revert d. induction cs as [|c cs IH]; intros d; simpl; [split; [done|apply accounted_refl]|].
  destruct (reject c) eqn:E.
  - specialize (IH (drop_candidate d c reason)).
    destruct (filter_dropping _ _ _ _) as [kept d']. destruct IH as [-> (rej & Hp & Hd)].
    rewrite filter_cons_False; [congruence|]. split; [done|]. exists (c :: rej). split.
    + by rewrite {1}Hp -Permutation_middle.
    + intros k. rewrite Hd keys_drop_candidate. csimpl. rewrite elem_of_cons. tauto.
  - specialize (IH d). destruct (filter_dropping _ _ _ _) as [kept d'].
    destruct IH as [-> (rej & Hp & Hd)]. rewrite filter_cons_True //. split; [done|].
    exists rej. split; [by rewrite {1}Hp|done].
Qed.

(** *** Deduplication *)

(** The text under which a retrieved candidate is compared, when not empty. *)
Definition dedup_key (c : Candidate) : option string :=
  match md_dedup_text (c_metadata c) with
  | Some EmptyString | None => None
  | Some t => Some t
  end.

(** The texts that a raw candidate puts on record. *)
Definition raw_texts (c : Candidate) : gset string :=
  (if snonempty (c_text c) then {[c_text c]} else ∅)
  ∪ list_to_set (default [] (md_content_texts (c_metadata c))).

Definition is_raw (c : Candidate) : Prop := c_tier c ≤ TIER_BY_SOURCE RECENT_TURN.

Lemma dedup_raw cs st :
  Forall is_raw cs →
  foldl dedup_step st cs =
  DedupState (union_list (reverse (raw_texts <$> cs)) ∪ seen_raw st)
    (seen_retrieval st) (duplicates st) (dd_kept st ++ cs).
Proof.
  revert st. induction cs as [|c cs IH]; intros st Hraw; csimpl.
  { destruct st. simpl. f_equal; [set_solver|by rewrite app_nil_r]. }
  inversion_clear Hraw as [|?? Hc Hcs]. rewrite IH //. unfold dedup_step.
  unfold is_raw in Hc. destruct (Z.leb_spec (c_tier c) (TIER_BY_SOURCE RECENT_TURN)); [|lia].
  simpl. f_equal; [|by rewrite -app_assoc].
  rewrite reverse_cons union_list_app_L /=. unfold raw_texts. set_solver.
Qed.

(** What the scan over the retrieved candidates keeps. *)
Record deduped (st : dedup_state) (cs : list Candidate) (st' : dedup_state)
    (kept : list Candidate) : Prop := {
  dd_raw : seen_raw st' = seen_raw st;
  dd_list : dd_kept st' = dd_kept st ++ kept;
  dd_sub : sublist kept cs;
  dd_account : accounted cs kept (duplicates st) (duplicates st');
  dd_fresh : ∀ t, t ∈ omap dedup_key kept → t ∉ seen_raw st ∧ t ∉ seen_retrieval st;
  dd_nodup : NoDup (omap dedup_key kept);
  dd_reason : ∀ c, c ∈ cs → c ∈ kept ∨ ∃ t, dedup_key c = Some t ∧
    (t ∈ seen_raw st ∨ t ∈ seen_retrieval st ∨ t ∈ omap dedup_key kept);
}.

Lemma dedup_step_retrieved st c :
  ¬ is_raw c →
  dedup_step st c =
  match dedup_key c with
  | Some t =>
      if bool_decide (t ∈ seen_raw st) || bool_decide (t ∈ seen_retrieval st)
      then DedupState (seen_raw st) (seen_retrieval st)
             (drop_candidate (duplicates st) c "duplicate") (dd_kept st)
      else DedupState (seen_raw st) ({[t]} ∪ seen_retrieval st)
             (duplicates st) (dd_kept st ++ [c])
  | None => DedupState (seen_raw st) (seen_retrieval st) (duplicates st) (dd_kept st ++ [c])
  end.
Proof.
  intros H. unfold dedup_step, dedup_key. unfold is_raw in H.
  destruct (Z.leb_spec (c_tier c) (TIER_BY_SOURCE RECENT_TURN)); [lia|].
  by destruct (md_dedup_text _) as [[]|].
Qed.

Lemma accounted_keep c cs kept d d' : accounted cs kept d d' → accounted (c :: cs) (c :: kept) d d'.
Proof. intros (rej & Hp & Hd). exists rej. split; [by rewrite {1}Hp|done]. Qed.

Lemma accounted_drop c cs kept d d' reason :
  accounted cs kept (drop_candidate d c reason) d' → accounted (c :: cs) kept d d'.
Proof.
  intros (rej & Hp & Hd). exists (c :: rej). split; [by rewrite {1}Hp -Permutation_middle|].
  intros k. rewrite Hd keys_drop_candidate. csimpl. rewrite elem_of_cons. tauto.
Qed.

Lemma dedup_retrieved cs st :
  Forall (λ c, ¬ is_raw c) cs →
  ∃ kept, deduped st cs (foldl dedup_step st cs) kept.
Proof.
  revert st. induction cs as [|c cs IH]; intros st Hr; csimpl.
  { exists []. split; try done; [by rewrite app_nil_r|apply accounted_refl| |constructor|].
    all: csimpl; set_solver. }
  inversion_clear Hr as [|?? Hc Hcs]. rewrite dedup_step_retrieved //.
  destruct (dedup_key c) as [t|] eqn:Et.
  2: { destruct (IH (DedupState (seen_raw st) (seen_retrieval st) (duplicates st)
         (dd_kept st ++ [c])) Hcs) as [kept [H1 H2 H3 H4 H5 H6 H7]]. simpl in *.
       exists (c :: kept). split; csimpl; rewrite ?Et; try done;
         [by rewrite H2 -app_assoc|by constructor|by apply accounted_keep|set_solver]. }
  destruct (bool_decide (t ∈ seen_raw st) || bool_decide (t ∈ seen_retrieval st)) eqn:Eb.
  - destruct (IH (DedupState (seen_raw st) (seen_retrieval st)
      (drop_candidate (duplicates st) c "duplicate") (dd_kept st)) Hcs)
      as [kept [H1 H2 H3 H4 H5 H6 H7]]. simpl in *.
    exists kept. split; try done; [by constructor|by eapply accounted_drop|].
    intros c' [->|Hc']%elem_of_cons; [|by apply H7]. right. exists t. split; [done|].
    apply orb_true_iff in Eb as [?%bool_decide_eq_true|?%bool_decide_eq_true]; tauto.
  - apply orb_false_iff in Eb as [Er%bool_decide_eq_false Es%bool_decide_eq_false].
    destruct (IH (DedupState (seen_raw st) ({[t]} ∪ seen_retrieval st) (duplicates st)
         (dd_kept st ++ [c])) Hcs) as [kept [H1 H2 H3 H4 H5 H6 H7]]. simpl in *.
    exists (c :: kept). split; csimpl; rewrite ?Et; try done;
      [by rewrite H2 -app_assoc|by constructor|by apply accounted_keep| | |].
    + intros u [->|Hu]%elem_of_cons; [done|]. apply H5 in Hu. set_solver.
    + constructor; [|done]. intros Hin. apply H5 in Hin. set_solver.
    + intros c' [->|[?|(u & Hu & Hor)]%H7]%elem_of_cons; [by left; left|by left; right|].
      right. exists u. split; [done|]. set_solver.
Qed.

(** *** The three filters together *)

(** Not a block retrieved from another conversation. *)
Definition own (conversation_id : option string) (c : Candidate) : bool :=
  match conversation_id with Some id => negb (foreign id c) | None => true end.

(** A candidate that the filters let through. *)
Definition admissible (superseded_ids : gset string) (conversation_id : option string)
    (c : Candidate) : Prop :=
  superseded superseded_ids c = false ∧ own conversation_id c = true.

Lemma keys_update (d e : dropped_dict) k :
  k ∈ (foldl (λ d kv, dset d kv.1 kv.2) d e).*1 ↔ k ∈ d.*1 ∨ k ∈ e.*1.
Proof.
  revert d. induction e as [|kv e IH]; intros d; csimpl; [set_solver|].
  rewrite IH elem_of_keys_dset elem_of_cons. tauto.
Qed.

Lemma filter_foreign_spec cs cid d :
  let '(kept, d') := _filter_foreign cs cid d in
  kept = filter (λ c, own cid c = true) cs ∧ accounted cs kept d d'.
Proof.
  unfold _filter_foreign. destruct cid as [id|].
  - pose proof (filter_dropping_spec (foreign id) "foreign_conversation" cs d) as H.
    destruct (filter_dropping _ _ _ _) as [kept d']. destruct H as [-> H]. split; [|done].
    apply list_filter_iff. intros c. simpl. by destruct (foreign id c).
  - split; [|apply accounted_refl]. symmetry. apply filter_all. by apply Forall_forall.
Qed.

(** What survives of the retrieved candidates [items] after the raw ones. *)
Record survivors (raw items : list Candidate) (ids : gset string) (cid : option string)
    (kept : list Candidate) (d : dropped_dict) : Prop := {
  sv_sub : sublist kept items;
  sv_admissible : Forall (admissible ids cid) kept;
  sv_fresh : ∀ t, t ∈ omap dedup_key kept → t ∉ union_list (raw_texts <$> raw);
  sv_nodup : NoDup (omap dedup_key kept);
  sv_account : ∃ rejected, items ≡ₚ kept ++ rejected ∧ ∀ k, k ∈ d.*1 ↔ k ∈ keys rejected;
}.

Lemma union_list_reverse (l : list (gset string)) x :
  x ∈ union_list (reverse l) ↔ x ∈ union_list l.
Proof. rewrite !elem_of_union_list. setoid_rewrite elem_of_reverse. done. Qed.

Lemma filter_all_candidates_spec raw items ids cid :
  Forall (λ c, is_raw c ∧ is_retrieval_source (c_source c) = false) raw →
  Forall (λ c, ¬ is_raw c) items →
  ∃ kept d, filter_all_candidates (raw ++ items) ids cid = (raw ++ kept, d) ∧
    survivors raw items ids cid kept d.
Proof.
  intros Hraw Hitems. unfold filter_all_candidates.
  pose proof (filter_dropping_spec (superseded ids) "superseded" (raw ++ items) []) as Hs.
  unfold _filter_superseded. destruct (filter_dropping _ _ _ _) as [f1 d1].
  destruct Hs as [-> Ha1].
  pose proof (filter_foreign_spec (filter (λ c, superseded ids c = false) (raw ++ items)) cid d1)
    as Hf. destruct (_filter_foreign _ _ _) as [f2 d2]. destruct Hf as [-> Ha2].
  assert (filter (λ c, own cid c = true) (filter (λ c, superseded ids c = false) raw) = raw) as Er.
  { rewrite (filter_all _ raw).
    - eapply Forall_impl; [exact Hraw|]. intros c [_ Hc]. unfold superseded.
      destruct (c_source c); done.
    - apply filter_all. eapply Forall_impl; [exact Hraw|]. intros c [_ Hc]. unfold own, foreign.
      destruct cid; [by rewrite Hc|done]. }
  rewrite !filter_app Er in Ha2 |- *.
  set (mid := filter _ (filter _ items)) in *.
  assert (sublist mid items) as Hmid.
  { etrans; [apply sublist_filter|apply sublist_filter]. }
  unfold _deduplicate. rewrite foldl_app (dedup_raw raw).
  { eapply Forall_impl; [exact Hraw|]. naive_solver. }
  match goal with |- context [foldl dedup_step ?s mid] => set (st := s) end.
  destruct (dedup_retrieved mid st) as [kept [H1 H2 H3 H4 H5 H6 H7]].
  { rewrite !Forall_forall in Hitems |- *. intros c Hc. apply Hitems.
    by eapply sublist_subseteq. }
  eexists kept, _. rewrite H2. split; [done|]. split.
  - by etrans.
  - apply Forall_forall. intros c Hc. eapply sublist_subseteq in Hc; [|exact H3].
    by apply list_elem_of_filter in Hc as [Hc2 [Hc1 _]%list_elem_of_filter].
  - intros t [Ht _]%H5 Hin. apply Ht, elem_of_union_l. by apply union_list_reverse.
  - done.
  - assert (accounted (raw ++ items) (raw ++ kept) [] (foldl (λ d kv, dset d kv.1 kv.2) d2
      (duplicates (foldl dedup_step st mid)))) as (rej & Hp & Hd).
    { eapply accounted_trans; [exact Ha1|]. rewrite filter_app.
      eapply accounted_trans; [exact Ha2|]. destruct H4 as (rej & Hp & Hd).
      exists rej. split; [by rewrite {1}Hp app_assoc|]. intros k. rewrite keys_update Hd.
      set_solver. }
    exists rej. split.
    + rewrite -app_assoc in Hp. by apply Permutation_app_inv_l in Hp.
    + intros k. rewrite Hd. set_solver.
Qed.

(** ** Allocation *)

Lemma tokens_of_app a b : tokens_of (a ++ b) = tokens_of a + tokens_of b.
Proof. unfold tokens_of. by rewrite fmap_app sumZ_app. Qed.

Lemma tokens_of_perm a b : a ≡ₚ b → tokens_of a = tokens_of b.
Proof. intros H. unfold tokens_of. apply sumZ_Permutation. by rewrite H. Qed.

Lemma tokens_of_reverse a : tokens_of (reverse a) = tokens_of a.
Proof. apply tokens_of_perm, reverse_Permutation. Qed.

Lemma tokens_of_nonneg cs : Forall (λ c, 0 ≤ c_tokens c) cs → 0 ≤ tokens_of cs.
Proof. intros H. apply sumZ_nonneg. by rewrite Forall_fmap. Qed.

Definition is_mandatory (c : Candidate) : bool :=
  match c_source c with SYSTEM | PINNED | CURRENT_REQUEST => true | _ => false end.

Lemma classify_spec cs :
  Forall (λ c, c_tier c = TIER_BY_SOURCE (c_source c)) cs →
  classify cs =
  MkClasses (filter (λ c, is_mandatory c = true) cs)
    (filter (λ c, c_source c = RECENT_TURN) cs)
    (filter (λ c, is_retrieval_source (c_source c) = true) cs)
    (last (filter (λ c, c_source c = TOOL_DEFINITIONS) cs)).
Proof.
  unfold classify. induction cs as [|c cs IH] using rev_ind; [done|].
  intros [Hcs Hc]%Forall_app. inversion_clear Hc as [|?? Ht _].
  rewrite foldl_app /= IH //. unfold classify_step, is_mandatory. rewrite Ht !filter_app.
  destruct (c_source c) eqn:E; rewrite !filter_cons !filter_nil E /=;
    rewrite ?app_nil_r ?last_snoc; done.
Qed.

Lemma keep_recent_spec remaining used cs kept used' :
  keep_recent remaining used cs = (kept, used') →
  ∃ rest, cs = kept ++ rest ∧ used' = used + tokens_of kept ∧
    (used ≤ remaining → used' ≤ remaining) ∧
    (∀ c rest', rest = c :: rest' → remaining < used' + c_tokens c).
Proof.
  revert used kept used'. induction cs as [|c cs IH]; intros used kept used'; simpl.
  { intros [= <- <-]. exists []. unfold tokens_of. simpl. split_and!; [done|lia|done|done]. }
  destruct (Z.ltb_spec remaining (used + c_tokens c)).
  { intros [= <- <-]. exists (c :: cs). unfold tokens_of. simpl.
    split_and!; [done|lia|done|]. intros ? ? [= <- <-]. done. }
  destruct (keep_recent remaining (used + c_tokens c) cs) as [k u] eqn:E.
  intros [= <- <-]. destruct (IH _ _ _ E) as (rest & -> & -> & Hle & Hmax).
  exists rest. unfold tokens_of in *. csimpl. split_and!; [done|lia|lia|done].
Qed.

(** The window of recent turns: the newest run that fits. *)
Lemma kept_window remaining recent rev_kept used :
  0 ≤ remaining →
  keep_recent remaining 0 (reverse recent) = (rev_kept, used) →
  ∃ older, recent = older ++ reverse rev_kept ∧ used = tokens_of (reverse rev_kept) ∧
    used ≤ remaining ∧
    (∀ l c, older = l ++ [c] → remaining < used + c_tokens c).
Proof.
  intros Hr (rest & Hcs & -> & Hle & Hmax)%keep_recent_spec.
  exists (reverse rest). rewrite tokens_of_reverse. split_and!; [|done|lia|].
  - by rewrite -reverse_app -Hcs reverse_involutive.
  - intros l c Hl. apply (f_equal reverse) in Hl.
    rewrite reverse_involutive reverse_snoc in Hl. eauto.
Qed.

Lemma keys_drop_unless keep reason cs d k :
  (∀ key d1 d2, (∀ j, j ∈ d1.*1 → j ∈ d2.*1) → keep key d1 = true → keep key d2 = true) →
  (∀ key d1 c, keep key (drop_candidate d1 c reason) = true → key ≠ c_key c → keep key d1 = true) →
  k ∈ (drop_unless keep reason cs d).*1 ↔ k ∈ d.*1 ∨ (k ∈ keys cs ∧ keep k d = false).
Proof.
  intros Hmono Hback. unfold drop_unless. revert d.
  induction cs as [|c cs IH]; intros d; csimpl; [set_solver|].
  rewrite IH elem_of_cons. destruct (keep (c_key c) d) eqn:E.
  - naive_solver congruence.
  - rewrite keys_drop_candidate.
    assert (keep k (drop_candidate d c reason) = false → keep k d = false) as H1.
    { intros H. destruct (keep k d) eqn:Ek; [|done].
      rewrite -H. symmetry. apply (Hmono k d); [|done].
      intros j Hj. rewrite keys_drop_candidate. by right. }
    assert (k ≠ c_key c → keep k d = false → keep k (drop_candidate d c reason) = false) as H2.
    { intros Hne Hk. destruct (keep k (drop_candidate d c reason)) eqn:Ek; [|done].
      by rewrite (Hback _ _ _ Ek Hne) in Hk. }
    destruct (decide (k = c_key c)) as [->|]; naive_solver.
Qed.

Lemma key_in_true cs k : key_in cs k = true ↔ k ∈ keys cs.
Proof. apply bool_decide_eq_true. Qed.

Lemma key_in_false cs k : key_in cs k = false ↔ k ∉ keys cs.
Proof. apply bool_decide_eq_false. Qed.

Lemma keys_drop_budget window recent d k :
  k ∈ (drop_unless (λ key _, key_in window key) "budget" recent d).*1 ↔
  k ∈ d.*1 ∨ (k ∈ keys recent ∧ k ∉ keys window).
Proof. rewrite keys_drop_unless; [by auto..|]. by rewrite key_in_false. Qed.

Lemma keys_drop_not_selected picked retrieval d k :
  k ∈ (drop_unless (λ key dropped, key_in picked key || dmem dropped key)
         "not_selected" retrieval d).*1 ↔
  k ∈ d.*1 ∨ (k ∈ keys retrieval ∧ k ∉ keys picked).
Proof.
  rewrite keys_drop_unless.
  - intros key d1 d2 Hsub. rewrite !orb_true_iff !dmem_true. naive_solver.
  - intros key d1 c. rewrite !orb_true_iff !dmem_true keys_drop_candidate. tauto.
  - rewrite orb_false_iff key_in_false. rewrite -not_true_iff_false dmem_true.
    destruct (decide (k ∈ d.*1)); tauto.
Qed.

(** *** Packing the retrieved candidates *)

Lemma by_key_spec cs k :
  match dget (by_key cs) k with
  | Some c => c ∈ cs ∧ c_key c = k
  | None => k ∉ keys cs
  end.
Proof.
  unfold by_key. induction cs as [|c cs IH] using rev_ind; [simpl; set_solver|].
  rewrite foldl_app /=. destruct (decide (c_key c = k)) as [<-|Hne].
  - rewrite dget_dset_eq. set_solver.
  - rewrite dget_dset_ne //. destruct (dget _ k) as [c'|]; set_solver.
Qed.

Lemma by_key_lookup cs c : NoDup (keys cs) → c ∈ cs → dget (by_key cs) (c_key c) = Some c.
Proof.
  intros Hnd Hc. pose proof (by_key_spec cs (c_key c)) as H.
  destruct (dget _ _) as [c'|].
  - destruct H as [Hc' Hk]. f_equal.
    apply list_elem_of_lookup in Hc as [i Hi], Hc' as [j Hj].
    assert (i = j) as ->; [|congruence].
    eapply (NoDup_lookup (keys cs)); rewrite ?list_lookup_fmap ?Hi ?Hj /=; [done..|congruence].
  - destruct H. by apply list_elem_of_fmap_2.
Qed.

(** What the packing loop has done after the keys [pre]. *)
Record packed (index : list (string * Candidate)) (cap : Z) (d : dropped_dict)
    (pre : list string) (st : pack_state) : Prop := {
  pk_sub : sublist (pk_picked st) (omap (dget index) pre);
  pk_count : pk_tokens st = tokens_of (pk_picked st);
  pk_cap : pk_tokens st ≤ Z.max 0 cap;
  pk_keys : NoDup pre → ∀ k, k ∈ (pk_dropped st).*1 ↔
    k ∈ d.*1 ∨ (k ∈ pre ∧ k ∉ keys (pk_picked st));
}.

Lemma pack_step_ok index cap d pre key st :
  (∀ k c, dget index k = Some c → c_key c = k) → key ∈ index.*1 →
  packed index cap d pre st →
  ∃ st', pack_step index cap st key = Ok st' ∧ packed index cap d (pre ++ [key]) st'.
Proof.
  intros Hkey [c Hc]%dget_is_Some [Hs Ht Hcap Hk]. unfold pack_step. rewrite Hc.
  pose proof (Hkey _ _ Hc) as <-.
  assert (keys (pk_picked st) ⊆ pre) as Hsub.
  { intros k (c' & -> & Hin)%list_elem_of_fmap. eapply sublist_subseteq in Hin; [|exact Hs].
    apply list_elem_of_omap in Hin as (k' & Hk' & E). by rewrite (Hkey _ _ E). }
  destruct (Z.ltb_spec cap (pk_tokens st + c_tokens c)).
  - eexists. split; [done|]. split; simpl.
    + rewrite omap_app /= Hc. by apply sublist_inserts_r.
    + done.
    + done.
    + intros [Hnd [Hx _]]%NoDup_app k. rewrite elem_of_keys_dset Hk //.
      specialize (Hx (c_key c)). set_solver.
  - eexists. split; [done|]. split; simpl.
    + rewrite omap_app /= Hc. by apply sublist_app.
    + rewrite tokens_of_app Ht. unfold tokens_of. simpl. lia.
    + lia.
    + intros [Hnd [Hx _]]%NoDup_app k. rewrite Hk //. rewrite fmap_app.
      specialize (Hx (c_key c)). set_solver.
Qed.

Lemma pack_loop index cap d ranked :
  (∀ k c, dget index k = Some c → c_key c = k) → ranked ⊆ index.*1 →
  ∃ st, foldM (pack_step index cap) (PackState [] 0 d) ranked = Ok st ∧
    packed index cap d ranked st.
Proof.
  intros Hkey Hsub. apply foldM_total.
  - split; simpl; [done|done|lia|]. intros _ k. set_solver.
  - intros pre key st [post ->] Hp. apply pack_step_ok; [done| |done].
    apply Hsub. set_solver.
Qed.

Lemma by_key_key cs k c : dget (by_key cs) k = Some c → c_key c = k.
Proof. intros H. pose proof (by_key_spec cs k) as Hb. rewrite H in Hb. tauto. Qed.

Lemma by_key_keys cs k : k ∈ keys cs → k ∈ (by_key cs).*1.
Proof.
  intros Hk. pose proof (by_key_spec cs k) as Hb. destruct (dget (by_key cs) k) eqn:E; [|done].
  by eapply dget_Some_key.
Qed.

(** The outcome of packing: within the cap and the item limit, from the
    candidates offered, and accounting for what it leaves. *)
Record packing (eng : ContextAssemblyEngine) (retrieval : list Candidate) (remaining : Z)
    (d : dropped_dict) (st : pack_state) : Prop := {
  pg_sub : pk_picked st ⊆ retrieval;
  pg_count : pk_tokens st = tokens_of (pk_picked st);
  pg_remaining : pk_tokens st ≤ Z.max 0 remaining;
  pg_cap : pk_tokens st ≤ Z.max 0 (retrieved_budget_tokens (eng_settings eng));
  pg_limit : NoDup (keys retrieval) →
    NoDup (keys (pk_picked st)) ∧
    Z.of_nat (length (pk_picked st)) ≤ Z.max 0 (max_retrieved_items (eng_settings eng));
  pg_keys : NoDup (keys retrieval) → ∀ k, k ∈ (pk_dropped st).*1 →
    k ∈ d.*1 ∨ (k ∈ keys retrieval ∧ k ∉ keys (pk_picked st));
  pg_keys_mono : NoDup (keys retrieval) → ∀ k, k ∈ d.*1 → k ∈ (pk_dropped st).*1;
}.

Lemma score_keys scores retrieval scored :
  mapM (score_of scores) retrieval = Ok scored → scored.*2 = keys retrieval.
Proof.
  rewrite mapM_res_Ok. induction 1 as [|c p cs ps Hc _ IH]; csimpl; [done|].
  rewrite IH. f_equal. revert Hc. unfold score_of. destruct (dget _ _); intros; by inv_res.
Qed.

Lemma keys_omap_index cs ranked :
  ranked ⊆ keys cs → keys (omap (dget (by_key cs)) ranked) = ranked.
Proof.
  induction ranked as [|k ranked IH]; intros Hsub; csimpl; [done|].
  pose proof (by_key_spec cs k) as Hb. destruct (dget (by_key cs) k) as [c|].
  - csimpl. destruct Hb as [_ ->]. f_equal. apply IH. set_solver.
  - set_solver.
Qed.

Lemma pack_retrieval_ok eng scores retrieval remaining d :
  (∀ c, c ∈ retrieval → c_key c ∈ scores.*1) →
  ∃ st, pack_retrieval eng scores retrieval remaining d = Ok st ∧
    packing eng retrieval remaining d st.
Proof.
  intros Hscores. unfold pack_retrieval.
  destruct (bool_decide (retrieval = []) || (remaining <=? 0)
    || (max_retrieved_items (eng_settings eng) <=? 0)) eqn:Eb.
  { eexists. split; [done|]. split; simpl; [set_solver|done|lia|lia| |auto..].
    split; [constructor|lia]. }
  apply orb_false_iff in Eb as [[_ Hrem%Z.leb_gt]%orb_false_iff Hmax%Z.leb_gt].
  destruct (mapM (score_of scores) retrieval) as [scored|] eqn:Es.
  2: { exfalso. pose proof (mapM_res_is_ok (score_of scores) retrieval) as Hok.
       rewrite Es /= in Hok. symmetry in Hok. apply not_true_iff_false in Hok. apply Hok.
       apply forallb_forall. intros c Hc%list_elem_of_In. apply Hscores in Hc.
       apply dget_is_Some in Hc as [s Hs]. unfold score_of. by rewrite Hs. }
  pose proof (score_keys _ _ _ Es) as Hk. simpl.
  set (limit := Z.min (max_retrieved_items _) _).
  set (ranked := mmr_select _ _ scored limit).
  assert (ranked ⊆ keys retrieval) as Hsub by (rewrite -Hk; apply mmr_select_subset).
  destruct (pack_loop (by_key retrieval)
    (Z.min remaining (retrieved_budget_tokens (eng_settings eng))) d ranked)
    as (st & -> & [Hs Ht Hcap Hdk]); [apply by_key_key|intros k ?; by apply by_key_keys, Hsub|].
  exists st. split; [done|].
  assert (NoDup (keys retrieval) → NoDup ranked ∧ Z.of_nat (length ranked) ≤ Z.max 0 limit)
    as Hnd by (rewrite -Hk; apply mmr_select_NoDup).
  split; [|done|lia|lia|..].
  - intros c Hc. eapply sublist_subseteq in Hc; [|exact Hs].
    apply list_elem_of_omap in Hc as (k & _ & Hc). pose proof (by_key_spec retrieval k) as Hb.
    rewrite Hc in Hb. tauto.
  - intros [Hr Hlen]%Hnd. pose proof (keys_omap_index _ _ Hsub) as Hko.
    pose proof (sublist_length _ _ Hs) as Hl. apply (fmap_sublist c_key) in Hs.
    rewrite Hko in Hs. split; [by eapply sublist_NoDup|].
    apply (f_equal length) in Hko. rewrite length_fmap in Hko. lia.
  - intros [Hr _]%Hnd k Hin%(Hdk Hr). set_solver.
  - intros [Hr _]%Hnd k Hin. apply Hdk; auto.
Qed.

(** *** The order of the mandatory candidates *)

Lemma head_leb_tier a b : c_tier a < c_tier b → head_leb a b = true ∧ head_leb b a = false.
Proof.
  intros H. unfold head_leb.
  destruct (Z.compare_spec (c_tier a) (c_tier b)), (Z.compare_spec (c_tier b) (c_tier a));
    done || lia.
Qed.

Lemma head_leb_position a b :
  c_tier a = c_tier b → c_position a < c_position b → head_leb a b = true.
Proof.
  intros Ht Hp. unfold head_leb. rewrite Ht Z.compare_refl. fold (c_position a) (c_position b).
  destruct (Z.compare_spec (c_position a) (c_position b)); done || lia.
Qed.

Lemma positions_sorted cs t :
  Forall (λ c, c_tier c = t) cs → StronglySorted (λ a b, c_position a < c_position b) cs →
  StronglySorted (λ a b, head_leb a b = true) cs.
Proof.
  intros Ht. induction 1 as [|c cs _ IH Hc]; [constructor|]. inversion_clear Ht.
  constructor; [by apply IH|]. apply Forall_forall. intros c' Hc'.
  rewrite !Forall_forall in H0 Hc. apply head_leb_position; [|by apply Hc].
  rewrite (H0 c') //.
Qed.

Definition of_tier (t : Z) : Candidate → Prop := λ c, c_tier c = t.

Lemma py_sorted_head sys req pins :
  Forall (of_tier 1) sys → Forall (of_tier 2) pins → Forall (of_tier 3) req →
  (length req ≤ 1)%nat →
  StronglySorted (λ a b, c_position a < c_position b) sys →
  StronglySorted (λ a b, c_position a < c_position b) pins →
  py_sorted head_leb (sys ++ req ++ pins) = sys ++ pins ++ req.
Proof.
  intros Hs Hp Hr Hone Hss Hps.
  pose proof (positions_sorted _ _ Hp Hps) as Hsp. pose proof (positions_sorted _ _ Hs Hss) as Hsk.
  assert (StronglySorted (λ a b, head_leb a b = true) (pins ++ req)) as Hpr.
  { apply StronglySorted_app_2; [|done|].
    - rewrite !Forall_forall in Hp Hr. intros a b Ha%Hp Hb%Hr. apply head_leb_tier.
      unfold of_tier in *. lia.
    - destruct req as [|r [|]]; [constructor|repeat constructor|simpl in *; lia]. }
  assert (py_sorted head_leb (req ++ pins) = pins ++ req) as E.
  { destruct req as [|r [|]]; [|simpl|simpl in *; lia].
    - rewrite app_nil_r. by apply py_sorted_id.
    - rewrite py_sorted_id //. inversion_clear Hr as [|?? Hr' _]. clear -Hp Hr'.
      induction Hp as [|p pins Hp _ IH]; simpl; [done|].
      destruct (head_leb_tier p r) as [_ ->]; [unfold of_tier in *; lia|]. by rewrite IH. }
  assert (py_sorted head_leb (sys ++ req ++ pins) = py_sorted head_leb (sys ++ pins ++ req)) as ->.
  { unfold py_sorted in *. etrans; [apply foldr_app|]. rewrite E. symmetry.
    etrans; [apply foldr_app|]. f_equal. by apply py_sorted_id. }
  apply py_sorted_id. apply StronglySorted_app_2; [|done|done].
  rewrite !Forall_forall in Hp Hr Hs.
  intros a b Ha%Hs [Hb%Hp|Hb%Hr]%elem_of_app; apply head_leb_tier; unfold of_tier in *; lia.
Qed.

Lemma split_request_app others req :
  Forall (λ c, c_source c ≠ CURRENT_REQUEST) others →
  Forall (λ c, c_source c = CURRENT_REQUEST) req → (length req ≤ 1)%nat →
  split_request (others ++ req) = (others, head req).
Proof.
  intros Ho Hr Hone. induction Ho as [|c cs Hc _ IH]; simpl.
  - destruct req as [|r [|]]; simpl; [done| |simpl in *; lia].
    inversion_clear Hr. by rewrite bool_decide_eq_true_2.
  - rewrite bool_decide_eq_false_2 // IH. done.
Qed.

(** *** The allocation *)

Section allocation.
Context {host : Host}.

Notation sys_of hist := (filter (λ c, c_source c = SYSTEM) hist).
Notation recent_of hist := (filter (λ c, c_source c = RECENT_TURN) hist).

(** Every raw group, and the retrieved candidates that survived the filters. *)
Record raw_groups (hist req tool pins kept : list Candidate) (tt : Z) : Prop := {
  rg_hist : Forall (λ c, cand_ok c ∧ (c_source c = SYSTEM ∨ c_source c = RECENT_TURN)) hist;
  rg_hist_pos : StronglySorted (λ a b, c_position a < c_position b) hist;
  rg_req : Forall (λ c, c_source c = CURRENT_REQUEST ∧ cand_ok c) req;
  rg_req_one : (length req ≤ 1)%nat;
  rg_tool : tool = [] ∧ tt = 0 ∨
    ∃ c, tool = [c] ∧ c_source c = TOOL_DEFINITIONS ∧ c_tokens c = tt ∧ cand_ok c;
  rg_pins : Forall (λ c, c_source c = PINNED ∧ cand_ok c) pins;
  rg_pins_pos : StronglySorted (λ a b, c_position a < c_position b) pins;
  rg_kept : Forall (λ c, is_retrieval_source (c_source c) = true ∧ cand_ok c) kept;
}.

Ltac by_source :=
  apply Forall_forall; rewrite ?Forall_forall;
  intros c Hc; unfold is_mandatory;
  repeat match goal with H : Forall _ _ |- _ => rewrite Forall_forall in H end;
  match goal with H : ∀ x, x ∈ ?l → _, Hc : ?c ∈ ?l |- _ => specialize (H c Hc) end;
  destruct (c_source c) eqn:?; naive_solver.

Lemma classify_groups hist req tool pins kept tt :
  raw_groups hist req tool pins kept tt →
  classify (hist ++ req ++ tool ++ pins ++ kept) =
  MkClasses (sys_of hist ++ req ++ pins) (recent_of hist) kept (head tool).
Proof.
  intros [Hh _ Hr _ Ht Hp _ Hk]. rewrite classify_spec.
  - rewrite !Forall_app. split_and!.
    + eapply Forall_impl; [exact Hh|]. by intros c [[] _].
    + eapply Forall_impl; [exact Hr|]. by intros c [_ []].
    + destruct Ht as [[-> _]|(c & -> & _ & _ & [])]; by repeat constructor.
    + eapply Forall_impl; [exact Hp|]. by intros c [_ []].
    + eapply Forall_impl; [exact Hk|]. by intros c [_ []].
  - rewrite !filter_app.
    rewrite (filter_all (λ c, is_mandatory c = true) req); [by_source|].
    rewrite (filter_all (λ c, is_mandatory c = true) pins); [by_source|].
    rewrite (filter_all (λ c, is_retrieval_source (c_source c) = true) kept); [by_source|].
    rewrite (filter_none (λ c, is_mandatory c = true) kept); [by_source|].
    rewrite (filter_none (λ c, c_source c = RECENT_TURN) req); [by_source|].
    rewrite (filter_none (λ c, c_source c = RECENT_TURN) pins); [by_source|].
    rewrite (filter_none (λ c, c_source c = RECENT_TURN) kept); [by_source|].
    rewrite (filter_none (λ c, is_retrieval_source (c_source c) = true) hist); [by_source|].
    rewrite (filter_none (λ c, is_retrieval_source (c_source c) = true) req); [by_source|].
    rewrite (filter_none (λ c, is_retrieval_source (c_source c) = true) pins); [by_source|].
    rewrite (filter_none (λ c, c_source c = TOOL_DEFINITIONS) hist); [by_source|].
    rewrite (filter_none (λ c, c_source c = TOOL_DEFINITIONS) req); [by_source|].
    rewrite (filter_none (λ c, c_source c = TOOL_DEFINITIONS) pins); [by_source|].
    rewrite (filter_none (λ c, c_source c = TOOL_DEFINITIONS) kept); [by_source|].
    assert (filter (λ c, is_mandatory c = true) hist = sys_of hist) as ->.
    { clear -Hh. induction Hh as [|c cs [_ Hc] _ IH]; [done|]. rewrite !filter_cons IH.
      unfold is_mandatory. by destruct Hc as [-> | ->]. }
    destruct Ht as [[-> _]|(c & -> & Hc & _)]; rewrite ?filter_cons ?filter_nil /is_mandatory ?Hc;
      simpl; rewrite ?app_nil_r; done.
Qed.

(** The outcome of a successful allocation. *)
Record allocated (eng : ContextAssemblyEngine) (hist req pins kept : list Candidate) (tt : Z)
    (d : dropped_dict) (a : _Allocation) (d' : dropped_dict)
    (older window picked : list Candidate) : Prop := {
  al_fits : tokens_of (sys_of hist ++ req ++ pins) + tt ≤ eng_usable eng;
  al_ordered : ordered a = (sys_of hist ++ pins) ++ picked ++ window ++ req;
  al_stats : stats a = MkStats (tokens_of window) (tokens_of picked)
                         (tokens_of (sys_of hist ++ req ++ pins)) tt;
  al_recent : recent_of hist = older ++ window;
  al_window : ∀ l c, older = l ++ [c] →
    eng_usable eng < tokens_of (sys_of hist ++ req ++ pins) + tt + tokens_of window + c_tokens c;
  al_picked : picked ⊆ kept;
  al_total : tokens_of (sys_of hist ++ req ++ pins) + tt + tokens_of window + tokens_of picked
             ≤ eng_usable eng;
  al_cap : tokens_of picked ≤ Z.max 0 (retrieved_budget_tokens (eng_settings eng));
  al_limit : NoDup (keys kept) → NoDup (keys picked) ∧
    Z.of_nat (length picked) ≤ Z.max 0 (max_retrieved_items (eng_settings eng));
  al_keys : NoDup (keys kept) → ∀ k, k ∈ d'.*1 ↔
    k ∈ d.*1 ∨ (k ∈ keys (recent_of hist) ∧ k ∉ keys window) ∨ (k ∈ keys kept ∧ k ∉ keys picked);
}.

Lemma sys_of_tier hist :
  Forall (λ c, cand_ok c ∧ (c_source c = SYSTEM ∨ c_source c = RECENT_TURN)) hist →
  Forall (of_tier 1) (sys_of hist).
Proof.
  rewrite !Forall_forall. intros Hh c [Hs Hc]%list_elem_of_filter.
  destruct (Hh c Hc) as [[Ht _ _ _ _ _] _]. unfold of_tier. by rewrite Ht Hs.
Qed.

Lemma source_tier s t cs :
  TIER_BY_SOURCE s = t → Forall (λ c, c_source c = s ∧ cand_ok c) cs → Forall (of_tier t) cs.
Proof.
  intros Ht Hcs. eapply Forall_impl; [exact Hcs|]. intros c [Hs [Hc _ _ _ _ _]].
  unfold of_tier. by rewrite Hc Hs.
Qed.

Lemma head_order hist req tool pins kept tt :
  raw_groups hist req tool pins kept tt →
  split_request (py_sorted head_leb (sys_of hist ++ req ++ pins))
  = (sys_of hist ++ pins, head req).
Proof.
  intros [Hh Hhp Hr Hr1 _ Hp Hpp _]. rewrite py_sorted_head //.
  - by apply sys_of_tier.
  - by apply (source_tier PINNED).
  - by apply (source_tier CURRENT_REQUEST).
  - eapply sorted_sublist; [apply sublist_filter|done].
  - rewrite app_assoc. apply split_request_app; [|by eapply Forall_impl; [exact Hr|]; naive_solver|done].
    apply Forall_app. split.
    + apply Forall_forall. intros c [-> _]%list_elem_of_filter. done.
    + eapply Forall_impl; [exact Hp|]. naive_solver congruence.
Qed.

Lemma head_option {A} (l : list A) :
  (length l ≤ 1)%nat → match head l with Some c => [c] | None => [] end = l.
Proof. destruct l as [|x [|]]; simpl; [done..|lia]. Qed.

Lemma tools_tokens_head tool tt :
  tool = [] ∧ tt = 0 ∨
    (∃ c, tool = [c] ∧ c_source c = TOOL_DEFINITIONS ∧ c_tokens c = tt ∧ cand_ok c) →
  match head tool with Some c => c_tokens c | None => 0 end = tt.
Proof. by intros [[-> ->]|(c & -> & _ & <- & _)]. Qed.

Lemma allocate_spec eng hist req tool pins kept tt scores d :
  raw_groups hist req tool pins kept tt →
  (∀ c, c ∈ kept → c_key c ∈ scores.*1) →
  let m := tokens_of (sys_of hist ++ req ++ pins) in
  if eng_usable eng <? m + tt
  then _allocate eng (hist ++ req ++ tool ++ pins ++ kept) scores d
       = Err (EngineOverflowError (m + tt) (eng_usable eng))
  else ∃ a d' older window picked,
    _allocate eng (hist ++ req ++ tool ++ pins ++ kept) scores d = Ok (a, d') ∧
    allocated eng hist req pins kept tt d a d' older window picked.
Proof.
  intros Hg Hscores. simpl. unfold _allocate. rewrite (classify_groups _ _ _ _ _ _ Hg). simpl.
  rewrite (tools_tokens_head tool tt); [apply Hg|].
  set (m := tokens_of (sys_of hist ++ req ++ pins)).
  destruct (Z.ltb_spec (eng_usable eng) (m + tt)) as [|Hle]; [done|].
  destruct (keep_recent _ _ _) as [rev_kept used] eqn:Ek.
  apply kept_window in Ek as (older & Hrec & -> & Hw & Hmax); [|lia].
  destruct (pack_retrieval_ok eng scores kept
    (eng_usable eng - m - tt - tokens_of (reverse rev_kept))
    (drop_unless (λ key _, key_in (reverse rev_kept) key) "budget" (recent_of hist) d))
    as (st & -> & [Hsub Hcnt Hrem Hcap Hlim Hk1 Hk2]); [done|]. simpl.
  rewrite (head_order _ _ _ _ _ _ Hg) Hcnt head_option; [apply Hg|].
  eexists _, _, older, (reverse rev_kept), (pk_picked st). split; [done|].
  split; simpl; fold m; try done; [by intros l c ?%Hmax; lia|lia|by rewrite -Hcnt|].
  intros Hnd k. rewrite keys_drop_not_selected.
  specialize (Hk1 Hnd k). specialize (Hk2 Hnd k). rewrite keys_drop_budget in Hk1, Hk2.
  destruct (decide (k ∈ (pk_dropped st).*1)); tauto.
Qed.

(** ** The plan *)

Lemma plan_loop scores cs :
  Forall cand_ok cs →
  Forall (λ c, c_source c ≠ TOOL_DEFINITIONS) cs →
  ∃ st, foldM (plan_step scores) (PlanState [] 0 []) cs = Ok st ∧
    ps_messages st = concat (c_render <$> cs) ∧ ps_tokens st = tokens_of cs ∧
    TokenCounter_messages (ps_messages st) = Ok (ps_tokens st) ∧
    s_key <$> ps_selected st = keys cs.
Proof.
  intros Hok Hnt.
  destruct (foldM_total (plan_step scores) (λ pre st,
    ps_messages st = concat (c_render <$> pre) ∧ ps_tokens st = tokens_of pre ∧
    TokenCounter_messages (ps_messages st) = Ok (ps_tokens st) ∧
    s_key <$> ps_selected st = keys pre) (PlanState [] 0 []) cs) as (st & ? & H); [done| |by exists st].
  intros pre c st [post ->] (Hm & Ht & Hc & Hs).
  apply Forall_app in Hok as [[_ Hok]%Forall_app _]. inversion_clear Hok as [|?? Hcok _].
  apply Forall_app in Hnt as [[_ Hnt]%Forall_app _]. inversion_clear Hnt as [|?? Hct _].
  assert (promotes_derived c = false) as Hpd.
  { unfold promotes_derived, Candidate_classification. destruct Hcok as [_ -> _ _ _ Hu].
    destruct (c_source c); try done; destruct Hu as [text ->]; done. }
  unfold plan_step. rewrite Hpd bool_decide_eq_false_2 //. eexists. split; [done|]. simpl.
  split_and!.
  - rewrite Hm fmap_app concat_app /= app_nil_r. done.
  - rewrite Ht tokens_of_app. unfold tokens_of. simpl. lia.
  - rewrite messages_app Hc /=. destruct Hcok as [_ _ -> _ _ _]; [done|]. done.
  - rewrite fmap_app Hs fmap_app. done.
Qed.

Lemma keys_sorted_dropped (d : dropped_dict) k :
  k ∈ sorted_keys d ↔ k ∈ d.*1.
Proof. apply elem_of_py_sorted. Qed.

(** *** Entries of the dropped dict carry their own key *)

Definition dropped_ok (d : dropped_dict) : Prop :=
  dwf d ∧ ∀ k v, dget d k = Some v → d_key v = k.

Lemma dropped_ok_dset d v : dropped_ok d → dropped_ok (dset d (d_key v) v).
Proof.
  intros [Hwf Hd]. split; [by apply dwf_dset|]. intros k w.
  destruct (decide (d_key v = k)) as [<-|Hne].
  - rewrite dget_dset_eq. by intros [= <-].
  - rewrite dget_dset_ne //. apply Hd.
Qed.

Lemma dropped_ok_candidate d c reason : dropped_ok d → dropped_ok (drop_candidate d c reason).
Proof. apply (dropped_ok_dset d (MkDropped (c_key c) (c_source c) reason)). Qed.

Lemma dropped_ok_nil : dropped_ok [].
Proof. split; [constructor|done]. Qed.

Lemma dropped_ok_filter reject reason cs d :
  dropped_ok d → dropped_ok (filter_dropping reject reason cs d).2.
Proof.
  revert d. induction cs as [|c cs IH]; intros d Hd; simpl; [done|]. destruct (reject c).
  - apply IH. by apply dropped_ok_candidate.
  - specialize (IH d Hd). by destruct (filter_dropping _ _ _ _).
Qed.

Lemma dropped_ok_dedup cs st :
  dropped_ok (duplicates st) → dropped_ok (duplicates (foldl dedup_step st cs)).
Proof.
  revert st. induction cs as [|c cs IH]; intros st Hd; simpl; [done|]. apply IH.
  unfold dedup_step. repeat case_match; try done. by apply dropped_ok_candidate.
Qed.

Lemma dropped_ok_update d e :
  dropped_ok d → (∀ k v, (k, v) ∈ e → d_key v = k) →
  dropped_ok (foldl (λ d kv, dset d kv.1 kv.2) d e).
Proof.
  revert d. induction e as [|[k v] e IH]; intros d Hd He; simpl; [done|]. apply IH.
  - rewrite -(He k v); [left|]. by apply dropped_ok_dset.
  - intros. apply He. by right.
Qed.

Lemma dropped_ok_filters fused ids cid : dropped_ok (filter_all_candidates fused ids cid).2.
Proof.
  unfold filter_all_candidates, _filter_superseded.
  pose proof (dropped_ok_filter (superseded ids) "superseded" fused [] dropped_ok_nil) as H1.
  destruct (filter_dropping _ _ _ _) as [f1 d1]. simpl in H1.
  assert (dropped_ok (_filter_foreign f1 cid d1).2) as H2.
  { unfold _filter_foreign. destruct cid; [by apply dropped_ok_filter|done]. }
  destruct (_filter_foreign f1 cid d1) as [f2 d2]. simpl in *.
  apply dropped_ok_update; [done|]. intros k v Hin.
  destruct (dropped_ok_dedup f2 (DedupState ∅ ∅ [] []) dropped_ok_nil) as [Hwf Hd].
  by apply Hd, dget_In.
Qed.

Lemma dropped_ok_unless keep reason cs d :
  dropped_ok d → dropped_ok (drop_unless keep reason cs d).
Proof.
  unfold drop_unless. revert d. induction cs as [|c cs IH]; intros d Hd; simpl; [done|].
  apply IH. case_match; [done|]. by apply dropped_ok_candidate.
Qed.

Lemma dropped_ok_pack eng scores retrieval remaining d st :
  dropped_ok d → pack_retrieval eng scores retrieval remaining d = Ok st →
  dropped_ok (pk_dropped st).
Proof.
  intros Hd. unfold pack_retrieval. case_match; intros Hp; inv_res; [done|].
  revert Hk. apply (foldM_inv _ (λ _ st, dropped_ok (pk_dropped st))); [done|].
  intros pre key t t' Ht. unfold pack_step. case_match; intros Hs; [|done].
  case_match; inv_res; [|done]. simpl.
  apply (dropped_ok_dset _ (MkDropped key (c_source _) "budget")). done.
Qed.

Lemma dropped_ok_allocate eng cs scores d a d' :
  dropped_ok d → _allocate eng cs scores d = Ok (a, d') → dropped_ok d'.
Proof.
  intros Hd. unfold _allocate. case_match; [done|].
  destruct (keep_recent _ _ _) as [rk used]. intros H'. inv_res.
  destruct (split_request _). inv_res. apply dropped_ok_unless.
  eapply dropped_ok_pack; [|done]. by apply dropped_ok_unless.
Qed.

Lemma dropped_items_keys d k :
  dropped_ok d → k ∈ d_key <$> omap (dget d) (sorted_keys d) ↔ k ∈ d.*1.
Proof.
  intros [_ Hd]. rewrite list_elem_of_fmap. setoid_rewrite list_elem_of_omap. split.
  - intros (v & -> & k' & _ & Hv). rewrite (Hd _ _ Hv). by eapply dget_Some_key.
  - intros Hk. pose proof Hk as [v Hv]%dget_is_Some. exists v. split; [by rewrite (Hd _ _ Hv)|].
    exists k. split; [by apply keys_sorted_dropped|done].
Qed.

(** ** [build] as a whole *)

Lemma score_table_keys eng cs c : c ∈ cs → c_key c ∈ (score_table eng cs).*1.
Proof.
  unfold score_table. induction cs as [|x cs IH] using rev_ind; [set_solver|].
  rewrite foldl_app /= elem_of_app list_elem_of_singleton elem_of_keys_dset.
  intros [?| ->]; auto.
Qed.

Lemma retrieved_ok (retrieved : list RetrievedItem) items :
  Forall2 (λ i c, candidate_from_retrieved i = Ok c) retrieved items →
  Forall (λ c, is_retrieval_source (c_source c) = true ∧ cand_ok c) items.
Proof.
  induction 1 as [|i c its cs Hc _ IH]; constructor; [|done].
  apply candidate_from_retrieved_inv in Hc as (-> & _ & _ & ?). split; [by case_bool_decide|done].
Qed.

Lemma not_raw c : is_retrieval_source (c_source c) = true ∧ cand_ok c → ¬ is_raw c.
Proof. intros [Hs [Ht _ _ _ _ _]]. unfold is_raw. rewrite Ht. destruct (c_source c); simpl in *; done || lia. Qed.

Lemma raw_source c :
  cand_ok c → is_retrieval_source (c_source c) = false →
  is_raw c ∧ is_retrieval_source (c_source c) = false.
Proof. intros [Ht _ _ _ _ _] Hs. split; [|done]. unfold is_raw. rewrite Ht. by destruct (c_source c). Qed.

Lemma hist_sources (units : list Unit) hist :
  Forall2 (λ u c, c_source c = (if Unit_is_system u then SYSTEM else RECENT_TURN) ∧
      c_tokens c = unit_tokens u ∧ c_render c = unit_messages u) units hist →
  Forall cand_ok hist →
  Forall (λ c, cand_ok c ∧ (c_source c = SYSTEM ∨ c_source c = RECENT_TURN)) hist.
Proof.
  induction 1 as [|u c us cs (Hs & _) _ IH]; [by constructor|]. intros Hok.
  inversion_clear Hok. constructor; [|by apply IH]. split; [done|].
  rewrite Hs. destruct (Unit_is_system u); auto.
Qed.

Lemma groups_raw history current tools pinned retrieved units hist req tool pins items ct tt kept :
  fused_groups history current tools pinned retrieved units hist req tool pins items ct tt →
  sublist kept items →
  raw_groups hist req tool pins kept tt ∧
  Forall (λ c, is_raw c ∧ is_retrieval_source (c_source c) = false) (hist ++ req ++ tool ++ pins) ∧
  Forall (λ c, ¬ is_raw c) items.
Proof.
  intros [_ Hh Hho Hhp _ _ _ Hr Hr1 _ Ht _ Hp Hpp Hi] Hsub.
  pose proof (hist_sources _ _ Hh Hho) as Hhs. apply retrieved_ok in Hi.
  split_and!.
  - split; try done. rewrite !Forall_forall in Hi |- *. intros c Hc.
    by apply Hi, (sublist_subseteq _ _ Hsub).
  - rewrite !Forall_app. split_and!.
    + eapply Forall_impl; [exact Hhs|]. intros c [Hc [Hs|Hs]]; apply raw_source; by rewrite ?Hs.
    + eapply Forall_impl; [exact Hr|]. intros c [Hs Hc]; apply raw_source; by rewrite ?Hs.
    + destruct Ht as [[-> _]|(c & -> & Hs & _ & Hc)]; repeat constructor;
        apply raw_source; by rewrite ?Hs.
    + eapply Forall_impl; [exact Hp|]. intros c [Hs Hc]; apply raw_source; by rewrite ?Hs.
  - eapply Forall_impl; [exact Hi|]. apply not_raw.
Qed.

(** Everything known of a plan returned by [build]. *)
Record built (eng : ContextAssemblyEngine) (hist req pins kept : list Candidate) (tt : Z)
    (d : dropped_dict) (p : EnginePlan) (older window picked : list Candidate)
    (d' : dropped_dict) : Prop := {
  bt_alloc : ∃ a, allocated eng hist req pins kept tt d a d' older window picked;
  bt_messages : ep_messages p =
    concat (c_render <$> ((sys_of hist ++ pins) ++ picked ++ window ++ req));
  bt_estimate : ep_token_estimate p =
    tokens_of ((sys_of hist ++ pins) ++ picked ++ window ++ req) + tt;
  bt_count : TokenCounter_messages (ep_messages p) = Ok (ep_token_estimate p - tt);
  bt_tools : ep_tools_tokens p = tt;
  bt_selected : s_key <$> ep_selected_items p =
    keys ((sys_of hist ++ pins) ++ picked ++ window ++ req);
  bt_dropped : ∀ k, k ∈ d_key <$> ep_dropped_items p ↔ k ∈ d'.*1;
}.

Lemma ordered_ok hist req tool pins kept tt older window picked :
  raw_groups hist req tool pins kept tt → recent_of hist = older ++ window → picked ⊆ kept →
  Forall (λ c, cand_ok c ∧ c_source c ≠ TOOL_DEFINITIONS)
    ((sys_of hist ++ pins) ++ picked ++ window ++ req).
Proof.
  intros [Hh _ Hr _ _ Hp _ Hk] Hrec Hpk.
  assert (∀ c, c ∈ window → c ∈ recent_of hist) as Hw by (rewrite Hrec; set_solver).
  rewrite !Forall_forall in Hh Hr Hp Hk |- *.
  intros c [[[Hs Hc%Hh]%list_elem_of_filter|Hc%Hp]%elem_of_app
    |[Hc%Hpk%Hk|[[Hs Hc%Hh]%Hw%list_elem_of_filter|Hc%Hr]%elem_of_app]%elem_of_app]%elem_of_app.
  - split; [by apply Hc|by rewrite Hs].
  - destruct Hc as [-> ?]. done.
  - destruct Hc as [Hs ?]. split; [done|]. by destruct (c_source c).
  - split; [by apply Hc|by rewrite Hs].
  - destruct Hc as [-> ?]. done.
Qed.

Lemma build_spec eng history current tools pinned retrieved ids cid fused :
  _fuse_candidates history current tools pinned retrieved = Ok fused →
  ∃ units hist req tool pins items ct tt kept d,
    fused = hist ++ req ++ tool ++ pins ++ items ∧
    fused_groups history current tools pinned retrieved units hist req tool pins items ct tt ∧
    survivors (hist ++ req ++ tool ++ pins) items ids cid kept d ∧
    let m := tokens_of (sys_of hist ++ req ++ pins) in
    if eng_usable eng <? m + tt
    then build eng history current tools pinned retrieved ids cid
         = Err (EngineOverflowError (m + tt) (eng_usable eng))
    else ∃ p older window picked d',
      build eng history current tools pinned retrieved ids cid = Ok p ∧
      built eng hist req pins kept tt d p older window picked d'.
Proof.
  intros Hf. pose proof (fuse_inv _ _ _ _ _ _ Hf)
    as (units & hist & req & tool & pins & items & ct & tt & -> & Hg).
  destruct (groups_raw _ _ _ _ _ _ _ _ _ _ _ _ _ [] Hg) as (_ & Hraw & Hitems);
    [apply sublist_nil_l|].
  destruct (filter_all_candidates_spec _ _ ids cid Hraw Hitems) as (kept & d & Hfa & Hsv).
  exists units, hist, req, tool, pins, items, ct, tt, kept, d. split_and!; [done..|].
  destruct (groups_raw _ _ _ _ _ _ _ _ _ _ _ _ _ kept Hg (sv_sub _ _ _ _ _ _ Hsv))
    as (Hrg & _ & _).
  pose proof (dropped_ok_filters ((hist ++ req ++ tool ++ pins) ++ items) ids cid) as Hdok.
  rewrite Hfa in Hdok. simpl in Hdok.
  unfold build. rewrite Hf /=.
  rewrite -!app_assoc in Hfa. rewrite Hfa.
  set (scores := score_table eng _).
  pose proof (allocate_spec eng _ _ _ _ _ _ scores d Hrg) as Ha. simpl in Ha |- *.
  destruct (Z.ltb_spec (eng_usable eng) (tokens_of (sys_of hist ++ req ++ pins) + tt)).
  { rewrite Ha //. intros c Hc. apply score_table_keys. set_solver. }
  destruct Ha as (a & d' & older & window & picked & Ha & Hal).
  { intros c Hc. apply score_table_keys. set_solver. }
  rewrite Ha /=. unfold _make_plan. pose proof Hal as [Hfit Hord Hst Hrec _ Hpk Htot _ _ _].
  pose proof (ordered_ok _ _ _ _ _ _ _ _ _ Hrg Hrec Hpk) as Hoo. rewrite -Hord in Hoo.
  destruct (plan_loop scores (ordered a)) as (st & -> & Hm & Htk & Hcnt & Hsel);
    [by eapply Forall_impl; [exact Hoo|]; naive_solver..|].
  rewrite Hst /=.
  assert (ps_tokens st + tt ≤ eng_usable eng) as Hle.
  { rewrite Htk Hord !tokens_of_app. rewrite !tokens_of_app in Htot. lia. }
  destruct (Z.ltb_spec (eng_usable eng) (ps_tokens st + tt)); [lia|].
  eexists _, older, window, picked, d'. split; [done|]. split; simpl.
  - by exists a.
  - by rewrite Hm Hord.
  - by rewrite Htk Hord.
  - rewrite Hcnt. f_equal. lia.
  - done.
  - by rewrite Hsel Hord.
  - intros k. apply dropped_items_keys. by eapply dropped_ok_allocate.
Qed.

Definition unit_as (u : Unit) (c : Candidate) : Prop :=
  c_tokens c = unit_tokens u ∧ c_render c = unit_messages u.

Lemma hist_split (units : list Unit) hist :
  Forall2 (λ u c, c_source c = (if Unit_is_system u then SYSTEM else RECENT_TURN) ∧
      c_tokens c = unit_tokens u ∧ c_render c = unit_messages u) units hist →
  Forall2 unit_as (sys_units units) (sys_of hist) ∧
  Forall2 unit_as (hist_units units) (recent_of hist).
Proof.
  induction 1 as [|u c us cs (Hs & Ht & Hr) _ [IH1 IH2]]; [done|].
  rewrite !filter_cons Hs. by destruct (Unit_is_system u); split; try constructor.
Qed.

Lemma unit_as_render us cs : Forall2 unit_as us cs → concat (c_render <$> cs) = unit_concat us.
Proof. induction 1 as [|u c us cs [_ Hr] _ IH]; csimpl; [done|]. by rewrite Hr IH. Qed.

Lemma unit_as_tokens us cs : Forall2 unit_as us cs → tokens_of cs = units_tokens us.
Proof.
  unfold tokens_of, units_tokens.
  induction 1 as [|u c us cs [Ht _] _ IH]; csimpl; [done|]. by rewrite Ht IH.
Qed.

Lemma render_count cs :
  Forall (λ c, cand_ok c ∧ c_source c ≠ TOOL_DEFINITIONS) cs →
  TokenCounter_messages (concat (c_render <$> cs)) = Ok (tokens_of cs).
Proof.
  induction 1 as [|c cs [[_ _ Ht _ _ _] Hs] _ IH]; csimpl; [done|].
  rewrite messages_app IH Ht //.
Qed.

(** The instructions, pinned messages and current request, as candidates. *)
Lemma mandatory_render history current tools pinned retrieved units hist req tool pins items ct tt :
  fused_groups history current tools pinned retrieved units hist req tool pins items ct tt →
  concat (c_render <$> sys_of hist) = instructions history ∧
  TokenCounter_messages (instructions history ++ pinned ++ current)
  = Ok (tokens_of (sys_of hist ++ req ++ pins)).
Proof.
  intros Hg. destruct (groups_raw _ _ _ _ _ _ _ _ _ _ _ _ _ [] Hg) as (Hrg & _ & _);
    [apply sublist_nil_l|].
  pose proof (ordered_ok _ _ _ _ _ _ (recent_of hist) [] [] Hrg) as Hoo.
  destruct Hg as [Hu Hh _ _ _ _ Hrr _ _ _ _ Hpr _ _ _].
  destruct (hist_split _ _ Hh) as [Hsys _]. apply unit_as_render in Hsys.
  destruct (segment_messages_shape _ _ Hu) as (_ & Hinst & _).
  assert (concat (c_render <$> sys_of hist) = instructions history) as Hi by by rewrite Hsys.
  split; [done|]. rewrite app_nil_r in Hoo.
  specialize (Hoo eq_refl). rewrite -Hi -Hpr -Hrr -!concat_app -!fmap_app.
  rewrite render_count.
  - rewrite app_assoc. apply Hoo. set_solver.
  - f_equal. rewrite !tokens_of_app. lia.
Qed.

(** *** Totality of fusion *)

Lemma tool_call_line_ok call t : tool_call_tokens call = Ok t → ∃ line, tool_call_line call = Ok line.
Proof.
  unfold tool_call_tokens, tool_call_line. destruct call; simpl; try done. eauto.
Qed.

Lemma message_lines_ok m :
  is_ok (TokenCounter_message m) = true → ∃ lines, message_lines m = Ok lines.
Proof.
  unfold TokenCounter_message, message_lines.
  destruct (TokenCounter__serialized _); simpl; [|done].
  destruct (py_iter _) as [calls|]; simpl; [|done].
  destruct (mapM tool_call_tokens calls) as [ts|] eqn:E; simpl; [|done]. intros _.
  apply mapM_res_Ok in E.
  assert (∃ lines, mapM tool_call_line calls = Ok lines) as [lines ->]; [|simpl; eauto].
  clear -E. induction E as [|c t calls ts Hc _ [lines IH]]; simpl; [eauto|].
  apply tool_call_line_ok in Hc as [line ->]. simpl. rewrite IH /=. eauto.
Qed.

Lemma message_texts_ok ms : countable_messages ms → ∃ text, message_texts ms = Ok text.
Proof.
  intros H. unfold message_texts.
  assert (∃ parts, mapM message_lines ms = Ok parts) as [parts ->]; [|simpl; eauto].
  induction H as [|m ms Hm _ [parts IH]]; simpl; [eauto|].
  apply message_lines_ok in Hm as [lines ->]. simpl. rewrite IH /=. eauto.
Qed.

Lemma mapM_enum_ok {A B} (f : nat → A → res B) i l :
  (∀ j x, x ∈ l → ∃ y, f j x = Ok y) → ∃ k, mapM_enum f i l = Ok k.
Proof.
  revert i. induction l as [|x l IH]; intros i H; simpl; [eauto|].
  destruct (H i x) as [y ->]; [left|]. simpl.
  destruct (IH (S i)) as [k ->]; [|simpl; eauto]. intros. apply H. by right.
Qed.

Lemma segment_countable ms us u :
  countable_messages ms → segment_messages ms = Ok us → u ∈ us →
  countable_messages (unit_messages u).
Proof.
  intros Hc Hs Hu. destruct (segment_messages_shape _ _ Hs) as (_ & H1 & H2).
  unfold countable_messages in *. rewrite !Forall_forall in Hc |- *. intros m Hm. apply Hc.
  assert (∀ vs : list Unit, u ∈ vs → m ∈ unit_concat vs) as Hin.
  { intros vs Hv. apply elem_of_concat_fmap. eauto. }
  destruct (Unit_is_system u) eqn:E.
  - assert (m ∈ instructions ms) as [_ ?]%list_elem_of_filter; [|done].
    rewrite -H1. apply Hin. by apply list_elem_of_filter.
  - assert (m ∈ dialogue ms) as [_ ?]%list_elem_of_filter; [|done].
    rewrite -H2. apply Hin. by apply list_elem_of_filter.
Qed.

Lemma fuse_ok history current tools pinned retrieved :
  countable_messages history → roles_hashable history →
  countable_messages current → countable_messages pinned →
  is_ok (TokenCounter_tools tools) = true →
  Forall (λ i, is_ok (candidate_from_retrieved i) = true) retrieved →
  ∃ fused, _fuse_candidates history current tools pinned retrieved = Ok fused.
Proof.
  intros Hh Hr Hc Hp Ht Hi. unfold _fuse_candidates.
  destruct (segment_messages_ok history Hh Hr) as [us Hus]. rewrite Hus /=.
  destruct (mapM_enum_ok unit_candidate 0 us) as [hc ->].
  { intros j u Hu. unfold unit_candidate.
    destruct (message_texts_ok (unit_messages u)) as [text ->]; [by apply (segment_countable history us)|].
    simpl. eauto. }
  assert (∃ req, request_candidates current (Z.of_nat (length us)) = Ok req) as [req Hreq].
  { unfold request_candidates. destruct current as [|m ms]; [eauto|].
    destruct (messages_countable _ Hc) as [t ->]. simpl.
    destruct (message_texts_ok _ Hc) as [text ->]. simpl. eauto. }
  simpl. rewrite Hreq.
  assert (∃ tool, tools_candidates tools = Ok tool) as [tool Htool].
  { unfold tools_candidates. destruct (truthy tools); simpl; [|eauto].
    destruct (TokenCounter_tools tools); [simpl; eauto|done]. }
  simpl. rewrite Htool. destruct (mapM_enum_ok pinned_candidate 0 pinned) as [pc ->].
  { intros j m Hm. unfold countable_messages in Hp. rewrite Forall_forall in Hp.
    specialize (Hp m Hm). unfold pinned_candidate.
    destruct (message_texts_ok [m]) as [text ->]; [by repeat constructor|].
    destruct (TokenCounter_message m); [simpl; eauto|done]. }
  assert (∃ items, mapM candidate_from_retrieved retrieved = Ok items) as [items ->];
    [|simpl; eauto].
  induction Hi as [|i its Hi _ [items IH]]; simpl; [eauto|].
  destruct (candidate_from_retrieved i); [|done]. simpl. rewrite IH /=. eauto.
Qed.
End allocation.

(** ** Claims *)

Section claims.
Context {host : Host}.

(** [m] is the block that the retrieved item renders to. *)
Definition block_of (item : RetrievedItem) (m : obj) : Prop :=
  ∃ c, candidate_from_retrieved item = Ok c ∧ c_render c = [m].

Lemma build_inv eng history current tools pinned retrieved ids cid p :
  build eng history current tools pinned retrieved ids cid = Ok p →
  ∃ units hist req tool pins items ct tt kept d older window picked d',
    fused_groups history current tools pinned retrieved units hist req tool pins items ct tt ∧
    _fuse_candidates history current tools pinned retrieved
    = Ok (hist ++ req ++ tool ++ pins ++ items) ∧
    survivors (hist ++ req ++ tool ++ pins) items ids cid kept d ∧
    built eng hist req pins kept tt d p older window picked d'.
Proof.
  intros Hb. destruct (_fuse_candidates history current tools pinned retrieved) as [fused|] eqn:Hf.
  2: { unfold build in Hb. by rewrite Hf in Hb. }
  destruct (build_spec eng _ _ _ _ _ ids cid _ Hf)
    as (units & hist & req & tool & pins & items & ct & tt & kept & d & -> & Hg & Hsv & Hm).
  simpl in Hm. case_match; [congruence|].
  destruct Hm as (p' & older & window & picked & d' & Hb' & Hbt).
  assert (p' = p) as -> by congruence. exists units, hist, req, tool, pins, items, ct, tt, kept, d, older, window, picked, d'. done.
Qed.

Lemma build_fits eng history current tools pinned retrieved ids cid p :
  build eng history current tools pinned retrieved ids cid = Ok p →
  fits_request current tools (eng_usable eng) (ep_messages p).
Proof.
  intros (units & hist & req & tool & pins & items & ct & tt & kept & d & older & window
    & picked & d' & Hg & _ & _ & [[a Hal] Hm He Hc Ht _ _])%build_inv.
  eexists _, _, tt. split_and!; [|exact Hc|apply Hg|].
  - rewrite Hm !fmap_app !concat_app. rewrite !app_assoc.
    by rewrite (fg_req_render _ _ _ _ _ _ _ _ _ _ _ _ _ Hg).
  - destruct Hal as [_ _ _ _ _ _ Htot _ _ _]. rewrite He. rewrite !tokens_of_app in Htot |- *. lia.
Qed.

(** C12: a returned plan never exceeds the usable budget, and its estimate is
    exact: the cost of the messages it emits plus the cost of the tool
    definitions. *)
Theorem build_budget eng history current tools pinned retrieved ids cid p :
  build eng history current tools pinned retrieved ids cid = Ok p →
  TokenCounter_messages (ep_messages p) = Ok (ep_token_estimate p - ep_tools_tokens p) ∧
  TokenCounter_tools tools = Ok (ep_tools_tokens p) ∧
  ep_token_estimate p ≤ eng_usable eng.
Proof.
  intros (units & hist & req & tool & pins & items & ct & tt & kept & d & older & window
    & picked & d' & Hg & _ & _ & [[a Hal] _ He Hc Ht _ _])%build_inv.
  rewrite Ht. split; [done|]. split; [apply Hg|].
  destruct Hal as [_ _ _ _ _ _ Htot _ _ _]. rewrite He. rewrite !tokens_of_app in Htot |- *. lia.
Qed.

(** C13: what a plan consists of, in order: every instruction of the history,
    the pinned messages, blocks retrieved as user messages, one contiguous
    run of the newest whole units of the history, and the whole current
    request last; and the run cannot be extended by the next older unit. *)
Theorem build_contents eng history current tools pinned retrieved ids cid p :
  build eng history current tools pinned retrieved ids cid = Ok p →
  ∃ units older window blocks fixed,
    segment_messages history = Ok units ∧
    hist_units units = older ++ window ∧
    ep_messages p = instructions history ++ pinned ++ blocks ++ unit_concat window ++ current ∧
    Forall (λ m, ∃ text, m = chat_message "user" text) blocks ∧
    TokenCounter_messages (instructions history ++ pinned ++ current) = Ok fixed ∧
    (∀ l u, older = l ++ [u] →
       eng_usable eng < fixed + ep_tools_tokens p + units_tokens window + unit_tokens u).
Proof.
  intros (units & hist & req & tool & pins & items & ct & tt & kept & d & older & window
    & picked & d' & Hg & _ & Hsv & [[a Hal] Hm _ _ Ht _ _])%build_inv.
  destruct (mandatory_render _ _ _ _ _ _ _ _ _ _ _ _ _ Hg) as [Hi Hfix].
  pose proof (groups_raw _ _ _ _ _ _ _ _ _ _ _ _ _ kept Hg (sv_sub _ _ _ _ _ _ Hsv)) as [Hrg _].
  destruct Hg as [Hu Hh _ _ _ _ Hrr _ _ _ _ Hpr _ _ _].
  destruct (hist_split _ _ Hh) as [_ Hrec]. destruct Hal as [_ _ _ Hr Hw Hpk _ _ _ _].
  rewrite Hr in Hrec. apply Forall2_app_inv_r in Hrec as (uo & uw & Ho & Hwd & Hus).
  eexists units, uo, uw, (concat (c_render <$> picked)), _. split_and!; [done|done| | |done|].
  - rewrite Hm !fmap_app !concat_app Hi Hpr Hrr (unit_as_render _ _ Hwd). by rewrite -!app_assoc.
  - apply Forall_forall. intros m (c & Hc & Hmc)%elem_of_concat_fmap.
    destruct Hrg as [_ _ _ _ _ _ _ Hk]. rewrite Forall_forall in Hk.
    destruct (Hk c (Hpk c Hc)) as [Hs [_ _ _ _ _ Huser]].
    destruct (Huser Hs) as [text E]. exists text. rewrite E in Hmc. set_solver.
  - intros l u ->. apply Forall2_app_inv_l in Ho as (lo & lc & _ & Hlc & ->).
    apply Forall2_cons_inv_l in Hlc as (c & ? & [Htc _] & Hnil & ->).
    apply Forall2_nil_inv_l in Hnil as ->. rewrite Ht -Htc.
    specialize (Hw lo c eq_refl). by rewrite (unit_as_tokens _ _ Hwd) in Hw.
Qed.

(** The retrieved item behind a candidate that survived the filters. *)
Lemma survivor_item (retrieved : list RetrievedItem) raw items ids cid kept d c :
  Forall2 (λ i c, candidate_from_retrieved i = Ok c) retrieved items →
  survivors raw items ids cid kept d → c ∈ kept →
  ∃ item, item ∈ retrieved ∧ candidate_from_retrieved item = Ok c ∧
    (∀ id, cid = Some id → item_conversation_id item = id) ∧
    (item_type item = "memory" → item_id item ∉ ids).
Proof.
  intros Hi [Hsub Hadm _ _ _] Hc. rewrite Forall_forall in Hadm.
  destruct (Hadm c Hc) as [Hss Hown]. apply (sublist_subseteq _ _ Hsub) in Hc.
  apply list_elem_of_lookup in Hc as [n Hn].
  destruct (Forall2_lookup_r _ _ _ _ _ Hi Hn) as (item & Hl & Hcand).
  exists item. split; [by eapply list_elem_of_lookup_2|]. split; [done|].
  apply candidate_from_retrieved_inv in Hcand as (Hs & Hk & Hcid & _). split.
  - intros id ->. unfold own, foreign in Hown. rewrite Hcid Hs in Hown.
    case_bool_decide; case_bool_decide; simpl in *; congruence.
  - intros Ht. rewrite (bool_decide_eq_true_2 _ Ht) in Hs. unfold superseded in Hss.
    rewrite Hs Hk /= in Hss. by apply bool_decide_eq_false in Hss.
Qed.

(** Conversation isolation and supersession: every message of a plan is one of the
    history, the pinned messages or the current request, or the block of a retrieved
    item of this very conversation that is not a superseded memory. *)
Lemma build_sources eng history current tools pinned retrieved ids id p :
  build eng history current tools pinned retrieved ids (Some id) = Ok p →
  Forall (λ m, m ∈ history ∨ m ∈ pinned ∨ m ∈ current ∨
    ∃ item, item ∈ retrieved ∧ block_of item m ∧ item_conversation_id item = id ∧
      (item_type item = "memory" → item_id item ∉ ids)) (ep_messages p).
Proof.
  intros (units & hist & req & tool & pins & items & ct & tt & kept & d & older & window
    & picked & d' & Hg & _ & Hsv & [[a Hal] Hm _ _ _ _ _])%build_inv.
  destruct (mandatory_render _ _ _ _ _ _ _ _ _ _ _ _ _ Hg) as [Hi _].
  pose proof (groups_raw _ _ _ _ _ _ _ _ _ _ _ _ _ kept Hg (sv_sub _ _ _ _ _ _ Hsv)) as [Hrg _].
  destruct Hg as [Hu Hh _ _ _ _ Hrr _ _ _ _ Hpr _ _ Hit].
  destruct (hist_split _ _ Hh) as [_ Hrec]. destruct Hal as [_ _ _ Hr _ Hpk _ _ _ _].
  destruct (segment_messages_shape _ _ Hu) as (_ & _ & Hdia).
  rewrite -(unit_as_render _ _ Hrec) Hr fmap_app concat_app in Hdia.
  rewrite Hm !fmap_app !concat_app Hi Hpr Hrr. apply Forall_forall. intros m.
  rewrite !elem_of_app. intros [[Hm1|Hm1]|[Hm1|[Hm1|Hm1]]]; try tauto.
  - left. by apply list_elem_of_filter in Hm1 as [_ ?].
  - right; right; right. apply elem_of_concat_fmap in Hm1 as (c & Hc & Hmc).
    destruct Hrg as [_ _ _ _ _ _ _ Hk]. rewrite Forall_forall in Hk.
    destruct (Hk c (Hpk c Hc)) as [Hs [_ _ _ _ _ Huser]]. destruct (Huser Hs) as [text E].
    destruct (survivor_item _ _ _ _ _ _ _ c Hit Hsv (Hpk c Hc)) as (item & ? & ? & ? & ?).
    exists item. split_and!; auto. exists c. split; [done|].
    rewrite E in Hmc |- *. by apply list_elem_of_singleton in Hmc as ->.
  - left. assert (m ∈ dialogue history) as [_ ?]%list_elem_of_filter; [|done].
    rewrite -Hdia. set_solver.
Qed.

(** C14: on countable input [build] never fails but for the budget: it
    raises the overflow error exactly when instructions, pinned messages,
    current request and tool definitions exceed the usable budget, with
    their sum in the error; neither the trust-boundary guard nor any other
    exception can fire. *)
Theorem build_overflow_iff eng history current tools pinned retrieved ids cid fixed tt :
  countable_messages history → roles_hashable history →
  countable_messages current → countable_messages pinned →
  TokenCounter_messages (instructions history ++ pinned ++ current) = Ok fixed →
  TokenCounter_tools tools = Ok tt →
  Forall (λ i, is_ok (candidate_from_retrieved i) = true) retrieved →
  if eng_usable eng <? fixed + tt
  then build eng history current tools pinned retrieved ids cid
       = Err (EngineOverflowError (fixed + tt) (eng_usable eng))
  else ∃ p, build eng history current tools pinned retrieved ids cid = Ok p.
Proof.
  intros Hh Hr Hc Hp Hfix Htt Hi.
  destruct (fuse_ok history current tools pinned retrieved) as [fused Hf]; [done..|by rewrite Htt|done|].
  destruct (build_spec eng _ _ _ _ _ ids cid _ Hf)
    as (units & hist & req & tool & pins & items & ct & tt' & kept & d & -> & Hg & Hsv & Hm).
  destruct (mandatory_render _ _ _ _ _ _ _ _ _ _ _ _ _ Hg) as [_ Hfix'].
  rewrite Hfix in Hfix'. injection Hfix' as ->.
  pose proof (fg_tt _ _ _ _ _ _ _ _ _ _ _ _ _ Hg) as Ht'. rewrite Htt in Ht'. injection Ht' as ->.
  simpl in Hm. case_match; [done|]. destruct Hm as (p & ? & ? & ? & ? & ? & _). eauto.
Qed.

(** At most [max_retrieved_items] retrieved blocks are selected, none
    twice, their cost stays within [retrieved_budget_tokens], and they are
    rendered between the pinned messages and the recent window. *)
Theorem build_retrieved_limits eng history current tools pinned retrieved ids cid p :
  NoDup (item_id <$> retrieved) →
  build eng history current tools pinned retrieved ids cid = Ok p →
  ∃ picked window cost,
    ep_messages p = instructions history ++ pinned ++ concat (c_render <$> picked)
                    ++ window ++ current ∧
    (∀ c, c ∈ picked → ∃ item, item ∈ retrieved ∧ candidate_from_retrieved item = Ok c) ∧
    NoDup (keys picked) ∧ keys picked ⊆ s_key <$> ep_selected_items p ∧
    Z.of_nat (length picked) ≤ Z.max 0 (max_retrieved_items (eng_settings eng)) ∧
    TokenCounter_messages (concat (c_render <$> picked)) = Ok cost ∧
    cost ≤ Z.max 0 (retrieved_budget_tokens (eng_settings eng)).
Proof.
  intros Hnd (units & hist & req & tool & pins & items & ct & tt & kept & d & older & window
    & picked & d' & Hg & _ & Hsv & [[a Hal] Hm _ _ _ Hsel _])%build_inv.
  destruct (mandatory_render _ _ _ _ _ _ _ _ _ _ _ _ _ Hg) as [Hi _].
  pose proof (groups_raw _ _ _ _ _ _ _ _ _ _ _ _ _ kept Hg (sv_sub _ _ _ _ _ _ Hsv)) as [Hrg _].
  pose proof (fg_items _ _ _ _ _ _ _ _ _ _ _ _ _ Hg) as Hit.
  destruct Hg as [_ _ _ _ _ _ Hrr _ _ _ _ Hpr _ _ _].
  assert (NoDup (keys kept)) as Hk.
  { eapply sublist_NoDup; [|apply fmap_sublist, (sv_sub _ _ _ _ _ _ Hsv)].
    assert (keys items = item_id <$> retrieved) as ->; [|done]. symmetry.
    apply Forall2_fmap_l_eq. eapply Forall2_impl; [exact Hit|].
    by intros i c (_ & -> & _)%candidate_from_retrieved_inv. }
  destruct Hal as [_ _ _ Hr _ Hpk _ Hcap Hlim _]. destruct (Hlim Hk) as [Hnp Hlen].
  pose proof (ordered_ok _ _ _ _ _ _ _ _ _ Hrg Hr Hpk) as Hoo.
  exists picked, (concat (c_render <$> window)), (tokens_of picked). split_and!; try done.
  - rewrite Hm !fmap_app !concat_app Hi Hpr Hrr. by rewrite -!app_assoc.
  - intros c Hc. destruct (survivor_item _ _ _ _ _ _ _ c Hit Hsv (Hpk c Hc)) as (item & ? & ? & _).
    eauto.
  - rewrite Hsel !fmap_app. set_solver.
  - apply render_count. apply Forall_app in Hoo as [_ [? _]%Forall_app]. done.
Qed.

Lemma hist_partition (units : list Unit) hist :
  Forall2 (λ u c, c_source c = (if Unit_is_system u then SYSTEM else RECENT_TURN) ∧
      c_tokens c = unit_tokens u ∧ c_render c = unit_messages u) units hist →
  hist ≡ₚ filter (λ c, c_source c = SYSTEM) hist ++ filter (λ c, c_source c = RECENT_TURN) hist.
Proof.
  induction 1 as [|u c us cs (Hs & _) _ IH]; [done|]. rewrite !filter_cons Hs.
  destruct (Unit_is_system u); simpl.
  - by rewrite {1}IH.
  - by rewrite -Permutation_middle {1}IH.
Qed.

Lemma NoDup_keys_inj (cs : list Candidate) a b :
  NoDup (keys cs) → a ∈ cs → b ∈ cs → c_key a = c_key b → a = b.
Proof.
  intros Hnd Ha Hb E. pose proof (by_key_lookup _ _ Hnd Ha) as H1.
  pose proof (by_key_lookup _ _ Hnd Hb) as H2. rewrite E in H1. congruence.
Qed.

(** The final bookkeeping, on keys alone. *)
Lemma accounting (sys older window req tool pins kept rej picked : list string) k :
  k ∉ tool → (k ∈ picked → k ∈ kept) →
  NoDup (sys ++ older ++ window ++ req ++ tool ++ pins ++ kept ++ rej) →
  k ∈ sys ++ older ++ window ++ req ++ tool ++ pins ++ kept ++ rej →
  (k ∈ sys ++ pins ++ picked ++ window ++ req ↔
   ¬ (k ∈ rej ∨ (k ∈ older ++ window ∧ k ∉ window) ∨ (k ∈ kept ∧ k ∉ picked))).
Proof.
  intros Ht Hp Hnd. repeat (apply NoDup_app in Hnd as (_ & ?H & Hnd)).
  repeat match goal with H : ∀ x, x ∈ _ → _ |- _ => specialize (H k) end.
  rewrite !elem_of_app in H, H0, H1, H2, H3, H4, H5 |- *.
  clear Hnd. destruct (decide (k ∈ picked)), (decide (k ∈ window)); intuition.
Qed.

(** Every candidate but the tool definitions is accounted for exactly
    once: its key is either selected or recorded as dropped, never both and
    never neither. *)
Theorem build_accounts_for_all eng history current tools pinned retrieved ids cid p fused :
  _fuse_candidates history current tools pinned retrieved = Ok fused →
  NoDup (keys fused) →
  build eng history current tools pinned retrieved ids cid = Ok p →
  ∀ c, c ∈ fused → c_source c ≠ TOOL_DEFINITIONS →
    (c_key c ∈ s_key <$> ep_selected_items p ↔ c_key c ∉ d_key <$> ep_dropped_items p).
Proof.
  intros Hf Hnd (units & hist & req & tool & pins & items & ct & tt & kept & d & older & window
    & picked & d' & Hg & Hf' & Hsv & [[a Hal] _ _ _ _ Hsel Hdrop])%build_inv c Hc Ht.
  rewrite Hf in Hf'. injection Hf' as ->. rewrite Hdrop Hsel. clear Hf Hdrop Hsel.
  assert (∃ rejected, items ≡ₚ kept ++ rejected ∧ ∀ k, k ∈ d.*1 ↔ k ∈ keys rejected)
    as (rej & Hperm & Hd) by apply Hsv.
  pose proof (hist_partition _ _ (fg_hist _ _ _ _ _ _ _ _ _ _ _ _ _ Hg)) as Hhist.
  assert (c_key c ∉ keys tool) as Hnt.
  { intros (c' & E & Hc')%list_elem_of_fmap.
    destruct (fg_tool _ _ _ _ _ _ _ _ _ _ _ _ _ Hg) as [[-> _]|(t & -> & Hs & _)]; [set_solver|].
    apply list_elem_of_singleton in Hc' as ->. by rewrite (NoDup_keys_inj _ _ _ Hnd Hc _ E) in Ht;
      [set_solver|]. }
  destruct Hal as [_ _ _ Hr _ Hpk _ _ _ Hkeys].
  assert (c_key c ∈ keys (hist ++ req ++ tool ++ pins ++ items)) as Hk by by apply list_elem_of_fmap_2.
  rewrite Hhist Hr Hperm in Hnd Hk. rewrite Hkeys; [|rewrite Hd Hr].
  { rewrite !fmap_app in Hnd. repeat (apply NoDup_app in Hnd as (? & ? & Hnd)). done. }
  assert (keys picked ⊆ keys kept) as Hpk'.
  { intros k (x & -> & Hx)%list_elem_of_fmap. by apply list_elem_of_fmap_2, Hpk. }
  specialize (Hpk' (c_key c)). clear -Hnd Hk Hnt Hpk'. revert Hnd Hk.
  rewrite !fmap_app -!app_assoc. apply accounting; done.
Qed.

(** C15: deduplication over raw candidates followed by retrieved ones keeps
    every raw candidate, and of the retrieved ones a subsequence whose
    non-empty comparison texts are distinct and absent from the raw texts;
    one is only removed when its text is raw text or belongs to a kept one. *)
Theorem deduplicate_spec raw items :
  Forall is_raw raw → Forall (λ c, ¬ is_raw c) items →
  ∃ kept, (_deduplicate (raw ++ items)).1 = raw ++ kept ∧ sublist kept items ∧
    NoDup (omap dedup_key kept) ∧
    (∀ t, t ∈ omap dedup_key kept → t ∉ union_list (raw_texts <$> raw)) ∧
    (∀ c, c ∈ items → c ∈ kept ∨ ∃ t, dedup_key c = Some t ∧
       (t ∈ union_list (raw_texts <$> raw) ∨ t ∈ omap dedup_key kept)).
Proof.
  intros Hraw Hitems. unfold _deduplicate. rewrite foldl_app (dedup_raw raw) //.
  match goal with |- context [foldl dedup_step ?s items] => set (st := s) end.
  destruct (dedup_retrieved items st Hitems) as [kept [H1 H2 H3 H4 H5 H6 H7]].
  assert (∀ t, t ∈ seen_raw st ↔ t ∈ union_list (raw_texts <$> raw)) as Hst.
  { intros t. simpl. rewrite elem_of_union union_list_reverse. set_solver. }
  exists kept. simpl. split_and!; [done..| |].
  - intros t [Ht _]%H5. by rewrite Hst in Ht.
  - intros c [?|(t & Ht & Hor)]%H7; [by left|]. right. exists t. split; [done|].
    rewrite Hst in Hor. set_solver.
Qed.
End claims.

(** ** Witnesses *)

Definition sample_engine (usable : Z) : ContextAssemblyEngine :=
  MkEngine usable default_AssemblySettings default_RetrievalSettings sample_similarity.

Definition sample_item (kind id conversation content : string) : RetrievedItem :=
  MkRetrievedItem kind id conversation "fact" content (1 # 2)
    [("semantic", (8 # 10)%Q)] [] None None.

(** Two memories of this conversation, one superseded, one of another
    conversation, and one that repeats a turn of the history. *)
Definition sample_retrieved : list RetrievedItem :=
  [sample_item "memory" "m1" "conv" "prefers metric units";
   sample_item "memory" "m2" "conv" "old decision";
   sample_item "memory" "m3" "other" "someone else";
   sample_item "memory" "m4" "conv" "First  question"].

Definition sample_build (usable : Z) : res EnginePlan :=
  build (host:=sample_host) (sample_engine usable) sample_history sample_request JNull
    [chat_message "system" "pinned"] sample_retrieved {["m2"]} (Some "conv").

Definition sample_fused : res (list Candidate) :=
  _fuse_candidates (host:=sample_host) sample_history sample_request JNull
    [chat_message "system" "pinned"] sample_retrieved.

Example sample_build_dropped :
  match sample_build 80 with
  | Ok p => (λ d, (d_key d, d_reason d)) <$> ep_dropped_items p
  | Err _ => []
  end = [("m2", "superseded"); ("m3", "foreign_conversation"); ("m4", "duplicate")].
Proof. vm_compute. reflexivity. Qed.

Lemma separate_current_request_spec_witness :
  ∃ history current,
    separate_current_request
      (sample_history ++ sample_request ++ [chat_message "system" "late"]) = Ok (history, current) ∧
    ∃ before user replies trailing,
      history = before ++ trailing ∧ current = user :: replies ∧
      Forall (λ m, is_instruction m = true) trailing.
Proof.
  eexists _, _. split; [vm_compute; reflexivity|].
  match goal with |- ∃ b u r t, ?h = _ ∧ ?c = _ ∧ _ =>
    destruct (separate_current_request_spec
      (sample_history ++ sample_request ++ [chat_message "system" "late"]) h c)
      as [(H & _)|(b' & u' & r' & t' & H1 & H2 & H3 & H4 & H5 & H6 & H7)] end.
  - vm_compute. reflexivity.
  - exfalso. rewrite Forall_forall in H.
    specialize (H (chat_message "user" "third question")). vm_compute in H.
    discriminate H. repeat constructor.
  - exists b', u', r', t'. auto.
Defined.

Lemma build_budget_witness :
  ∃ p, sample_build 60 = Ok p ∧ ep_token_estimate p ≤ 60.
Proof.
  destruct (sample_build 60) as [p|] eqn:E; [|vm_compute in E; discriminate].
  exists p. split; [reflexivity|].
  apply (build_budget (host:=sample_host) _ _ _ _ _ _ _ _ _ E).
Defined.

Lemma build_contents_witness :
  ∃ p units older window,
    segment_messages (host:=sample_host) sample_history = Ok units ∧
    hist_units units = older ++ window ∧ sample_build 60 = Ok p.
Proof.
  destruct (sample_build 60) as [p|] eqn:E; [|vm_compute in E; discriminate].
  destruct (build_contents (host:=sample_host) _ _ _ _ _ _ _ _ _ E)
    as (units & older & window & blocks & fixed & H1 & H2 & _).
  exists p, units, older, window. auto.
Defined.

Lemma build_overflow_iff_witness :
  build (host:=sample_host) (sample_engine 20) sample_history sample_request JNull
    [chat_message "system" "pinned"] sample_retrieved ∅ None
  = Err (EngineOverflowError 28 20).
Proof.
  apply (build_overflow_iff (host:=sample_host) (sample_engine 20) sample_history sample_request
    JNull [chat_message "system" "pinned"] sample_retrieved ∅ None 28 0);
    try (repeat constructor; vm_compute; reflexivity).
Defined.

Lemma build_retrieved_limits_witness :
  ∃ p picked, sample_build 80 = Ok p ∧ Z.of_nat (length picked) ≤ 8 ∧
    c_key <$> picked ⊆ s_key <$> ep_selected_items p.
Proof.
  destruct (sample_build 80) as [p|] eqn:E; [|vm_compute in E; discriminate].
  destruct (build_retrieved_limits (host:=sample_host) (sample_engine 80) sample_history
    sample_request JNull [chat_message "system" "pinned"] sample_retrieved {["m2"]}
    (Some "conv") p) as (picked & _ & _ & _ & _ & _ & Hs & Hl & _).
  - by apply (bool_decide_unpack (NoDup (item_id <$> sample_retrieved))); vm_compute.
  - exact E.
  - exists p, picked. auto.
Defined.

Lemma build_accounts_for_all_witness :
  ∃ p fused, sample_build 60 = Ok p ∧ sample_fused = Ok fused ∧
    ∀ c, c ∈ fused → c_source c ≠ TOOL_DEFINITIONS →
      (c_key c ∈ s_key <$> ep_selected_items p ↔ c_key c ∉ d_key <$> ep_dropped_items p).
Proof.
  destruct (sample_build 60) as [p|] eqn:E; [|vm_compute in E; discriminate].
  destruct sample_fused as [fused|] eqn:F; [|vm_compute in F; discriminate].
  exists p, fused. split; [reflexivity|]. split; [reflexivity|].
  apply (build_accounts_for_all (host:=sample_host) (sample_engine 60) sample_history
    sample_request JNull [chat_message "system" "pinned"] sample_retrieved {["m2"]}
    (Some "conv")); [exact F| |exact E].
  vm_compute in F. injection F as <-.
  match goal with |- NoDup ?l => by apply (bool_decide_unpack (NoDup l)); vm_compute end.
Defined.

Definition sample_raw : Candidate :=
  MkCandidate RECENT_TURN "unit:0" 8 4 [chat_message "user" "hello"] "user: hello" []
    (MkMetadata None None (Some 0) (Some ["hello"]) None None None None None None None).

Definition sample_memory (key text : string) : Candidate :=
  MkCandidate MEMORY key 8 5 [chat_message "user" text] text []
    (MkMetadata (Some "conv") None None None None None None (Some text) None None None).

Example sample_dedup :
  c_key <$> (_deduplicate [sample_raw; sample_memory "a" "hello"; sample_memory "b" "new";
                           sample_memory "c" "new"]).1 = ["unit:0"; "b"].
Proof. vm_compute. reflexivity. Qed.

Lemma deduplicate_spec_witness :
  ∃ kept, (_deduplicate ([sample_raw] ++ [sample_memory "a" "hello"; sample_memory "b" "new"])).1
          = [sample_raw] ++ kept ∧ NoDup (omap dedup_key kept).
Proof.
  destruct (deduplicate_spec [sample_raw] [sample_memory "a" "hello"; sample_memory "b" "new"])
    as (kept & H1 & _ & H3 & _).
  - repeat constructor. unfold is_raw. simpl. lia.
  - repeat constructor; unfold is_raw; simpl; lia.
  - exists kept. auto.
Defined.
