(* ===== verification/Store.v ===== *)
(** * The conversation store ([conversation/store.py],
    [conversation/projection_store.py])

    The PostgreSQL tables are lists of rows in insertion order with the
    constraints of the migrations; each method is a transaction, which either
    commits or leaves the database as it was.  The conversation row lock
    serialises the writers of a conversation, as [Transactions] shows, so a history
    of the store is a sequence of such transactions. *)

From S2P Require Import Prelude PyDict PyString Json Tokens Reconciliation.
Local Open Scope Z_scope.

(** ** PostgreSQL *)

(** What the program relies on of PostgreSQL: the cast of serialized JSON to
    [jsonb] and back (it can fail, and it normalises the value), and the
    [n]-th identifier that [gen_random_uuid()] draws. *)
Class Postgres : Type := {
  jsonb : json → res json;
  uuid_at : nat → Z;
}.

(** Documented behaviour: a value read back from [jsonb] is equal as a Python
    value, its dicts have distinct keys, a value that cannot be stored is a
    database error, and identifiers are not repeated. *)
Class PostgresLaws `{Postgres} : Prop := {
  jsonb_eq : ∀ v w, json_wf v → jsonb v = Ok w → json_wf w ∧ py_eq w v = true;
  jsonb_error : ∀ v, raises (λ e, e = PostgresError ∨ e = DataError) (jsonb v);
  uuid_inj : ∀ i j, uuid_at i = uuid_at j → i = j;
}.

Record MessageRow : Type := MkMessageRow {
  m_id : Z;
  m_conversation : string;
  m_seq : Z;
  m_role : string;
  m_content : json;
  m_metadata : json;
}.

Record ToolCallRow : Type := MkToolCallRow {
  tc_id : Z;
  tc_message : Z;
  tc_call_id : string;
  tc_type : string;
  tc_name : string;
  tc_arguments : option json;
  tc_input : option json;
  tc_extra : json;
  tc_created_at : Z;
}.

Record ToolResultRow : Type := MkToolResultRow {
  tr_message : Z;
  tr_call_ref : option Z;
  tr_call_id : string;
  tr_content : json;
}.

Record MediaRow : Type := MkMediaRow {
  md_conversation : string;
  md_message : Z;
  md_part_index : nat;
  md_media_kind : string;
  md_source : string;
  md_media_hash : string;
  md_source_size : Z;
}.

(** [db_draws] counts the identifiers drawn so far. *)
Record DB : Type := MkDB {
  db_conversations : list string;
  db_messages : list MessageRow;
  db_tool_calls : list ToolCallRow;
  db_tool_results : list ToolResultRow;
  db_media : list MediaRow;
  db_draws : nat;
}.

Definition empty_db : DB := MkDB [] [] [] [] [] 0.

(** [async with conn.transaction()]: an exception rolls back. *)
Definition transaction {A} (f : DB → res (A * DB)) (db : DB) : res A * DB :=
  match f db with
  | Ok (a, db') => (Ok a, db')
  | Err e => (Err e, db)
  end.

(** A [TEXT] parameter: a string or NULL. *)
Definition text_param (v : json) : res (option string) :=
  match v with
  | JStr s => Ok (Some s)
  | JNull => Ok None
  | _ => Err DataError
  end.

(** A [TEXT NOT NULL] column. *)
Definition not_null (v : option string) : res string :=
  match v with Some s => Ok s | None => Err PostgresError end.

(** [CHECK (role IN (...))] *)
Definition valid_role (role : string) : bool :=
  bool_decide (role ∈ ["system"; "developer"; "user"; "assistant"; "tool"]).

(** ** Diagnostics of a divergence *)

Section diagnostics.
Context {host : Host}.

Definition _message_fingerprint (message : obj) : string :=
  stake 16 (sha256_hexdigest (json_dumps style_canonical (JObj message))).

(** [persisted.get(key, _MISSING) != incoming.get(key, _MISSING)] *)
Definition differs (persisted incoming : obj) (key : string) : bool :=
  match dget persisted key, dget incoming key with
  | Some x, Some y => negb (py_eq x y)
  | None, None => false
  | _, _ => true
  end.

Definition _differing_fields (persisted incoming : obj) : list string :=
  py_sorted str_leb
    (filter (λ k, differs persisted incoming k = true)
       (remove_dups (persisted.*1 ++ incoming.*1))).

(** The constructor of the exception. *)
Definition divergence (conversation_id : string) (index : nat)
    (persisted incoming : option obj) : exn :=
  HistoryDivergenceError conversation_id index
    match persisted, incoming with
    | Some p, Some i =>
        Some (_message_fingerprint p, _message_fingerprint i, _differing_fields p i)
    | _, _ => None
    end.
End diagnostics.

(** ** Operations *)

Section store.
Context {host : Host} {pg : Postgres}.

(** [INSERT ... ON CONFLICT (id) DO UPDATE SET updated_at = now()] *)
Definition _ensure_conversation (db : DB) (conversation_id : string) : DB :=
  if bool_decide (conversation_id ∈ db_conversations db) then db
  else MkDB (db_conversations db ++ [conversation_id]) (db_messages db) (db_tool_calls db)
         (db_tool_results db) (db_media db) (db_draws db).

(** Rows of one conversation, [ORDER BY seq]. *)
Definition conversation_rows (db : DB) (conversation_id : string) : list MessageRow :=
  py_sorted (λ a b, m_seq a <=? m_seq b)
    (filter (λ r, m_conversation r = conversation_id) (db_messages db)).

Definition as_dict (v : json) : res obj :=
  match v with JObj d => Ok d | _ => Err TypeError end.

Definition _fetch_messages (db : DB) (conversation_id : string) : res (list obj) :=
  mapM (λ r, as_dict (m_content r)) (conversation_rows db conversation_id).

(** [SELECT COALESCE(MAX(seq), -1)] *)
Definition max_seq (db : DB) (conversation_id : string) : Z :=
  foldr (λ r m, if decide (m_conversation r = conversation_id) then Z.max (m_seq r) m else m)
    (-1) (db_messages db).

(** [INSERT INTO messages ... RETURNING id] *)
Definition insert_message_row (db : DB) (conversation_id : string) (seq : Z)
    (message : obj) (metadata : json) : res (Z * DB) :=
  role ← text_param (oget message "role");
  role ← not_null role;
  content ← jsonb (JObj message);
  meta ← jsonb metadata;
  let id := uuid_at (db_draws db) in
  if negb (valid_role role) then Err PostgresError
  else if negb (bool_decide (conversation_id ∈ db_conversations db)) then Err PostgresError
  else if bool_decide ((conversation_id, seq)
            ∈ ((λ r, (m_conversation r, m_seq r)) <$> db_messages db)) then Err PostgresError
  else Ok (id, MkDB (db_conversations db)
                 (db_messages db ++ [MkMessageRow id conversation_id seq role content meta])
                 (db_tool_calls db) (db_tool_results db) (db_media db) (S (db_draws db))).

(** [INSERT INTO tool_calls ... ON CONFLICT (message_id, tool_call_id) DO NOTHING] *)
Definition insert_tool_call (now : Z) (db : DB) (message_id : Z) (call_id call_type name : json)
    (arguments input : option json) (extra : json) : res DB :=
  call_id ← text_param call_id;
  call_id ← not_null call_id;
  call_type ← text_param call_type;
  call_type ← not_null call_type;
  name ← text_param name;
  name ← not_null name;
  arguments ← match arguments with None => Ok None | Some v => Some <$> jsonb v end;
  input ← match input with None => Ok None | Some v => Some <$> jsonb v end;
  extra ← jsonb extra;
  let id := uuid_at (db_draws db) in
  if bool_decide ((message_id, call_id)
       ∈ ((λ r, (tc_message r, tc_call_id r)) <$> db_tool_calls db))
  then Ok (MkDB (db_conversations db) (db_messages db) (db_tool_calls db)
             (db_tool_results db) (db_media db) (S (db_draws db)))
  else Ok (MkDB (db_conversations db) (db_messages db)
             (db_tool_calls db
              ++ [MkToolCallRow id message_id call_id call_type name arguments input extra now])
             (db_tool_results db) (db_media db) (S (db_draws db))).

(** The body of the loop over the tool calls of a message. *)
Definition persist_tool_call (now : Z) (message_id : Z) (db : DB) (tool_call : json) : res DB :=
  call_type ← py_get tool_call "type";
  let call : obj := match tool_call with JObj d => d | _ => [] end in
  let call_type :=
    if is_none call_type
    then if dmem call "custom" then JStr "custom" else JStr "function"
    else call_type in
  shape ←
    (if eq_str call_type "custom" then
       let custom := py_or (oget call "custom") (JObj []) in
       name ← py_get custom "name";
       input ← py_get custom "input";
       Ok (name, None, Some input)
     else
       let function := py_or (oget call "function") (JObj []) in
       name ← py_get function "name";
       arguments ← py_get function "arguments";
       Ok (name, Some arguments, None));
  let '(name, arguments, call_input) := shape in
  let extra := filter (λ kv, kv.1 ∉ ["id"; "type"; "function"; "custom"]) call in
  insert_tool_call now db message_id (oget call "id") (JStr (py_str call_type)) name
    arguments call_input (JObj extra).

(** The calls of a conversation with a given id, and the one that
    [ORDER BY tc.created_at DESC, tc.id DESC LIMIT 1] picks. *)
Definition calls_with_id (db : DB) (conversation_id call_id : string) : list ToolCallRow :=
  filter (λ tc, tc_call_id tc = call_id ∧
    Exists (λ m, m_id m = tc_message tc ∧ m_conversation m = conversation_id)
      (db_messages db)) (db_tool_calls db).

Definition later_call (a b : ToolCallRow) : bool :=
  (tc_created_at b <? tc_created_at a)
  || ((tc_created_at b =? tc_created_at a) && (tc_id b <=? tc_id a)).

Definition latest_call (calls : list ToolCallRow) : option ToolCallRow :=
  head (py_sorted later_call calls).

Definition persist_tool_result (conversation_id : string) (message_id : Z) (db : DB)
    (message : obj) : res DB :=
  if eq_str (oget message "role") "tool" && truthy (oget message "tool_call_id") then
    call_id ← text_param (oget message "tool_call_id");
    call_id ← not_null call_id;
    let ref := tc_id <$> latest_call (calls_with_id db conversation_id call_id) in
    content ← jsonb (oget message "content");
    if bool_decide ((message_id, call_id)
         ∈ ((λ r, (tr_message r, tr_call_id r)) <$> db_tool_results db))
    then Err PostgresError
    else Ok (MkDB (db_conversations db) (db_messages db) (db_tool_calls db)
               (db_tool_results db ++ [MkToolResultRow message_id ref call_id content])
               (db_media db) (db_draws db))
  else Ok db.

Definition _persist_tool_parts (now : Z) (conversation_id : string) (message_id : Z)
    (db : DB) (message : obj) : res DB :=
  tool_calls ← py_iter (py_or (oget message "tool_calls") (JList []));
  db ← foldM (persist_tool_call now message_id) db tool_calls;
  persist_tool_result conversation_id message_id db message.

(** The body of the loop over the content parts; parts that are not images
    are skipped. *)
Definition persist_media_part (conversation_id : string) (message_id : Z)
    (db : DB) (index : nat) (part : json) : DB :=
  match part with
  | JObj d =>
      if negb (eq_str (oget d "type") "image_url") then db
      else
        let url := match py_or (oget d "image_url") (JObj []) with
                   | JObj i => py_str (default (JStr EmptyString) (dget i "url"))
                   | v => py_str v
                   end in
        let source := if startswith "data:" url then "data" else "url" in
        if bool_decide ((message_id, index)
             ∈ ((λ r, (md_message r, md_part_index r)) <$> db_media db)) then db
        else MkDB (db_conversations db) (db_messages db) (db_tool_calls db)
               (db_tool_results db)
               (db_media db ++ [MkMediaRow conversation_id message_id index "image_url"
                                  source (sha256_hexdigest url) (slen url)])
               (db_draws db)
  | _ => db
  end.

Fixpoint persist_media_from (conversation_id : string) (message_id : Z) (db : DB)
    (index : nat) (parts : list json) : DB :=
  match parts with
  | [] => db
  | part :: rest =>
      persist_media_from conversation_id message_id
        (persist_media_part conversation_id message_id db index part) (S index) rest
  end.

Definition _persist_media_parts (conversation_id : string) (message_id : Z) (db : DB)
    (message : obj) : DB :=
  match oget message "content" with
  | JList parts => persist_media_from conversation_id message_id db 0 parts
  | _ => db
  end.

(** The loop of [_insert_messages]: database, last seq used, ids returned. *)
Record insert_state : Type := InsertState {
  ins_db : DB;
  ins_seq : Z;
  ins_ids : list Z;
}.

Definition insert_step (now : Z) (conversation_id : string) (metadata : json)
    (st : insert_state) (message : obj) : res insert_state :=
  let seq := ins_seq st + 1 in
  inserted ← insert_message_row (ins_db st) conversation_id seq message metadata;
  let '(message_id, db) := inserted in
  db ← _persist_tool_parts now conversation_id message_id db message;
  let db := _persist_media_parts conversation_id message_id db message in
  Ok (InsertState db seq (ins_ids st ++ [message_id])).

Definition _insert_messages (now : Z) (db : DB) (conversation_id : string)
    (messages : list obj) (metadata : option obj) : res (list Z * DB) :=
  match messages with
  | [] => Ok ([], db)
  | _ :: _ =>
      let meta := match metadata with
                  | Some ((_ :: _) as d) => JObj d
                  | _ => JObj []
                  end in
      st ← foldM (insert_step now conversation_id meta)
             (InsertState db (max_seq db conversation_id) []) messages;
      Ok (ins_ids st, ins_db st)
  end.

Definition ensure_conversation (conversation_id : string) (db : DB) : res unit * DB :=
  (Ok tt, _ensure_conversation db conversation_id).

Definition append_messages (now : Z) (conversation_id : string) (messages : list obj)
    (metadata : option obj) (db : DB) : res (list Z) * DB :=
  match messages with
  | [] => (Ok [], db)
  | _ :: _ =>
      transaction (λ db, let db := _ensure_conversation db conversation_id in
        _insert_messages now db conversation_id messages metadata) db
  end.

(** The new suffix of a projection, once it is not a conflict. *)
Definition append_suffix (now : Z) (conversation_id : string) (messages : list obj)
    (metadata : option obj) (result : ReconciliationResult) (db : DB) : res (list Z * DB) :=
  match append_from result with
  | None => Ok ([], db)
  | Some k =>
      if (length messages <=? k)%nat then Ok ([], db)
      else _insert_messages now db conversation_id (drop k messages) metadata
  end.

(** [PostgresConversationStore.reconcile_history]: the index of a conflict
    is the first pair of messages that differ. *)
Definition base_reconcile_history (now : Z) (conversation_id : string) (messages : list obj)
    (metadata : option obj) : DB → res (list Z) * DB :=
  transaction (λ db,
    let db := _ensure_conversation db conversation_id in
    persisted ← _fetch_messages db conversation_id;
    let result := reconcile_projection persisted messages in
    if decide (mode result = Conflict) then
      let index := _prefix_len persisted messages in
      Err (divergence conversation_id index (persisted !! index) (messages !! index))
    else append_suffix now conversation_id messages metadata result db).

(** [ProjectionAwareConversationStore.reconcile_history]: the index of a
    conflict is the length of the shorter history. *)
Definition reconcile_history (now : Z) (conversation_id : string) (messages : list obj)
    (metadata : option obj) : DB → res (list Z) * DB :=
  transaction (λ db,
    let db := _ensure_conversation db conversation_id in
    persisted ← _fetch_messages db conversation_id;
    let result := reconcile_projection persisted messages in
    if decide (mode result = Conflict) then
      let index := Nat.min (length persisted) (length messages) in
      Err (divergence conversation_id index (persisted !! index) (messages !! index))
    else append_suffix now conversation_id messages metadata result db).

Definition get_messages (conversation_id : string) (db : DB) : res (list obj) :=
  _fetch_messages db conversation_id.
End store.

(** ** The invariant of the database *)

(** The row belongs to a stored message, of conversation [c]. *)
Definition owned (db : DB) (message_id : Z) (c : string) : Prop :=
  ∃ m, m ∈ db_messages db ∧ m_id m = message_id ∧ m_conversation m = c.

(** A tool result is either an orphan or linked to a call with its id in its
    own conversation. *)
Definition result_linked (db : DB) (tr : ToolResultRow) : Prop :=
  ∃ c, owned db (tr_message tr) c ∧
    ∀ r, tr_call_ref tr = Some r →
      ∃ tc, tc ∈ db_tool_calls db ∧ tc_id tc = r ∧ tc_call_id tc = tr_call_id tr ∧
            owned db (tc_message tc) c.

(** Referential integrity of the derived tables. *)
Record refs_ok (db : DB) : Prop := {
  ref_calls : Forall (λ tc, ∃ c, owned db (tc_message tc) c) (db_tool_calls db);
  ref_results : Forall (result_linked db) (db_tool_results db);
  ref_media : Forall (λ md, owned db (md_message md) (md_conversation md)) (db_media db);
}.

(** The messages of conversation [c] in insertion order. *)
Notation rows_of db c := (filter (λ r, m_conversation r = c) (db_messages db)).

Section invariant.
Context {pg : Postgres}.

(** Contiguous sequence numbers per conversation, dict contents with a legal
    role, identifiers that have been drawn, and referential integrity. *)
Record db_ok (db : DB) : Prop := {
  ok_seq : ∀ c, m_seq <$> rows_of db c = Z.of_nat <$> seq 0 (length (rows_of db c));
  ok_known : Forall (λ r, m_conversation r ∈ db_conversations db) (db_messages db);
  ok_content : Forall (λ r, ∃ d, m_content r = JObj d ∧ obj_wf d) (db_messages db);
  ok_role : Forall (λ r, valid_role (m_role r) = true) (db_messages db);
  ok_drawn : Forall (λ r, ∃ i, (i < db_draws db)%nat ∧ m_id r = uuid_at i) (db_messages db);
  ok_ids : NoDup (m_id <$> db_messages db);
  ok_refs : refs_ok db;
}.
End invariant.

(** [db'] has all rows of [db], in the same order: nothing is rewritten. *)
Record extends (db db' : DB) : Prop := {
  ex_conversations : db_conversations db `prefix_of` db_conversations db';
  ex_messages : db_messages db `prefix_of` db_messages db';
  ex_calls : db_tool_calls db `prefix_of` db_tool_calls db';
  ex_results : db_tool_results db `prefix_of` db_tool_results db';
  ex_media : db_media db `prefix_of` db_media db';
  ex_draws : (db_draws db ≤ db_draws db')%nat;
}.

#[global] Instance extends_preorder : PreOrder extends.
Proof.
  split.
  - by split.
  - intros a b c [] []. split; try by etrans.
Qed.

Lemma owned_mono db db' i c :
  db_messages db ⊆ db_messages db' → owned db i c → owned db' i c.
Proof. intros H (m & Hm & ?). exists m. auto. Qed.

Lemma prefix_subset {A} (l k : list A) : l `prefix_of` k → l ⊆ k.
Proof. intros [x ->]. set_solver. Qed.

Lemma refs_ok_messages db db' :
  refs_ok db → db_messages db ⊆ db_messages db' →
  db_tool_calls db' = db_tool_calls db → db_tool_results db' = db_tool_results db →
  db_media db' = db_media db → refs_ok db'.
Proof.
  intros [H1 H2 H3] Hm E1 E2 E3. split.
  - rewrite E1. eapply Forall_impl; [exact H1|]. intros tc [c ?]. eauto using owned_mono.
  - rewrite E2. eapply Forall_impl; [exact H2|]. intros tr (c & Ho & Hr).
    exists c. split; [by eapply owned_mono|]. intros r (tc & ? & ? & ? & ?)%Hr.
    exists tc. rewrite E1. split_and!; eauto using owned_mono.
  - rewrite E3. eapply Forall_impl; [exact H3|]. intros. by eapply owned_mono.
Qed.

(** ** The derived tables *)

(** Work on the derived tables leaves messages and conversations alone. *)
Record derived (db db' : DB) : Prop := {
  dv_extends : extends db db';
  dv_conversations : db_conversations db' = db_conversations db;
  dv_messages : db_messages db' = db_messages db;
  dv_refs : refs_ok db → refs_ok db';
}.

#[global] Instance derived_preorder : PreOrder derived.
Proof.
  split.
  - by split.
  - intros a b c [] []. split; [by etrans|congruence|congruence|auto].
Qed.

Section derived_tables.
Context {host : Host} {pg : Postgres}.

Lemma insert_tool_call_derived now db id call_id ty name args input extra c db' :
  owned db id c →
  insert_tool_call now db id call_id ty name args input extra = Ok db' → derived db db'.
Proof.
  intros Ho. unfold insert_tool_call. intros H. inv_res. case_bool_decide; inv_res.
  - split; simpl; [|done|done|by intros []; split]. split; simpl; done || lia.
  - split; simpl; [|done|done|].
    + split; simpl; try done; [by apply prefix_app_r|lia].
    + intros [H1 H2 H3]. split; simpl.
      * apply Forall_app. split; [|by repeat constructor; exists c].
        eapply Forall_impl; [exact H1|]. done.
      * eapply Forall_impl; [exact H2|]. intros tr (c' & Ho' & Hr). exists c'. split; [done|].
        intros r (tc & ? & ?)%Hr. exists tc. simpl. set_solver.
      * done.
Qed.

Lemma persist_tool_call_derived now id db call c db' :
  owned db id c → persist_tool_call now id db call = Ok db' → derived db db'.
Proof.
  intros Ho. unfold persist_tool_call. intros H. inv_res.
  destruct a0 as [[name args] input]. by eapply insert_tool_call_derived.
Qed.

Lemma latest_call_elem calls tc : latest_call calls = Some tc → tc ∈ calls.
Proof.
  unfold latest_call. intros H. apply (elem_of_py_sorted later_call).
  destruct (py_sorted later_call calls); [done|]. simplify_eq/=. left.
Qed.

Lemma calls_with_id_elem db c k tc :
  tc ∈ calls_with_id db c k →
  tc ∈ db_tool_calls db ∧ tc_call_id tc = k ∧ owned db (tc_message tc) c.
Proof.
  unfold calls_with_id. rewrite list_elem_of_filter Exists_exists.
  intros [[? (m & ? & ? & ?)] ?]. split_and!; [done|done|]. by exists m.
Qed.

Lemma persist_tool_result_derived c id db m db' :
  owned db id c → persist_tool_result c id db m = Ok db' → derived db db'.
Proof.
  intros Ho. unfold persist_tool_result. case_match; intros Hp; inv_res; [|done].
  case_bool_decide; inv_res. split; simpl; [|done|done|].
  - split; simpl; try done. by apply prefix_app_r.
  - intros [H1 H2 H3]. split; simpl; [done| |done].
    apply Forall_app. split; [done|]. constructor; [|constructor].
    exists c. split; [done|]. simpl. intros r Hr.
    destruct (latest_call _) as [tc|] eqn:E; simplify_eq/=.
    apply latest_call_elem, calls_with_id_elem in E as (? & ? & ?). by exists tc.
Qed.

Lemma derived_owned db db' id c : derived db db' → owned db id c → owned db' id c.
Proof. intros [_ _ Hm _] (m & ? & ?). exists m. by rewrite Hm. Qed.

Lemma persist_tool_parts_derived now c id db m db' :
  owned db id c → _persist_tool_parts now c id db m = Ok db' → derived db db'.
Proof.
  intros Ho. unfold _persist_tool_parts. intros H. inv_res.
  assert (derived db a0) as Hd.
  { eapply (foldM_inv _ (λ _ s, derived db s)); [done| |done].
    intros pre x t t' Hd Hs. etrans; [exact Hd|]. eapply persist_tool_call_derived; [|done].
    by eapply derived_owned. }
  etrans; [exact Hd|]. eapply persist_tool_result_derived; [|done]. by eapply derived_owned.
Qed.

Lemma persist_media_part_derived c id db index part :
  owned db id c → derived db (persist_media_part c id db index part).
Proof.
  intros Ho. unfold persist_media_part. destruct part; try done.
  destruct (eq_str _ _); simpl; [|done]. case_bool_decide; [done|].
  split; simpl; [|done|done|].
  - split; simpl; try done. by apply prefix_app_r.
  - intros [H1 H2 H3]. split; simpl; [done|done|].
    apply Forall_app. split; [done|]. by repeat constructor.
Qed.

Lemma persist_media_parts_derived c id db m :
  owned db id c → derived db (_persist_media_parts c id db m).
Proof.
  intros Ho. unfold _persist_media_parts. destruct (oget m "content") as [| | | | |parts|]; try done.
  generalize 0%nat as index. revert db Ho.
  induction parts as [|p ps IH]; intros db Ho index; simpl; [done|].
  etrans; [by apply persist_media_part_derived|]. apply IH.
  eapply derived_owned; [by apply persist_media_part_derived|done].
Qed.
End derived_tables.

(** ** Inserting messages *)

(** A row holds a message: same conversation, and content equal as a Python
    value. *)
Definition row_holds (c : string) (r : MessageRow) (m : obj) : Prop :=
  m_conversation r = c ∧ ∃ d, m_content r = JObj d ∧ obj_wf d ∧ py_eq (JObj d) (JObj m) = true.

Section inserting.
Context {host : Host} {pg : Postgres} {laws : PostgresLaws}.

(** Adding one row to the messages keeps the invariant. *)
Lemma db_ok_snoc db db' row :
  db_ok db → extends db db' → db_conversations db' = db_conversations db →
  db_messages db' = db_messages db ++ [row] → refs_ok db' →
  m_conversation row ∈ db_conversations db →
  m_seq row = Z.of_nat (length (rows_of db (m_conversation row))) →
  (∃ d, m_content row = JObj d ∧ obj_wf d) → valid_role (m_role row) = true →
  m_id row = uuid_at (db_draws db) → (db_draws db < db_draws db')%nat →
  db_ok db'.
Proof.
  intros [Hs Hk Hc Hr Hd Hi _] _ Econv Em Hrefs Hconv Hseq Hcont Hrole Hid Hdraw. split.
  - intros c. rewrite Em filter_app. destruct (decide (m_conversation row = c)) as [<-|Hne].
    + rewrite filter_cons_True // filter_nil length_app fmap_app Hs seq_app fmap_app /=.
      by rewrite Hseq.
    + rewrite filter_cons_False // filter_nil app_nil_r. apply Hs.
  - rewrite Em Econv. apply Forall_app. split; [done|by repeat constructor].
  - rewrite Em. apply Forall_app. split; [done|by repeat constructor].
  - rewrite Em. apply Forall_app. split; [done|by repeat constructor].
  - rewrite Em. apply Forall_app. split.
    + eapply Forall_impl; [exact Hd|]. intros r (i & ? & ?). exists i. split; [lia|done].
    + repeat constructor. eauto.
  - rewrite Em fmap_app. apply NoDup_app. split; [done|]. split; [|apply NoDup_singleton].
    intros x (r & -> & Hin)%list_elem_of_fmap Hx%list_elem_of_singleton.
    rewrite Forall_forall in Hd. destruct (Hd r Hin) as (i & Hlt & E).
    rewrite -Hx E in Hid. apply uuid_inj in Hid. lia.
  - done.
Qed.

Lemma insert_message_row_spec db c seq m meta id db1 :
  obj_wf m → insert_message_row db c seq m meta = Ok (id, db1) →
  ∃ row, row_holds c row m ∧ m_id row = id ∧ id = uuid_at (db_draws db) ∧
    m_seq row = seq ∧ valid_role (m_role row) = true ∧ c ∈ db_conversations db ∧
    db1 = MkDB (db_conversations db) (db_messages db ++ [row]) (db_tool_calls db)
            (db_tool_results db) (db_media db) (S (db_draws db)).
Proof.
  intros Hm. unfold insert_message_row. intros H. inv_res.
  destruct (valid_role a0) eqn:Er; simpl in *; [|done].
  destruct (bool_decide (c ∈ db_conversations db)) eqn:Ec; simpl in *; [|done].
  case_bool_decide; inv_res. apply bool_decide_eq_true in Ec.
  exists (MkMessageRow (uuid_at (db_draws db)) c seq a0 a1 a2). split_and!; try done.
  destruct (jsonb_eq _ _ Hm Hok1) as [Hwf Heq]. split; [done|].
  destruct a1 as [| | | | | |d]; try by simpl in Heq. by exists d.
Qed.

Lemma insert_step_spec now c meta st m st' :
  db_ok (ins_db st) → obj_wf m →
  ins_seq st + 1 = Z.of_nat (length (rows_of (ins_db st) c)) →
  insert_step now c meta st m = Ok st' →
  ∃ row, db_ok (ins_db st') ∧ extends (ins_db st) (ins_db st') ∧
    db_conversations (ins_db st') = db_conversations (ins_db st) ∧
    db_messages (ins_db st') = db_messages (ins_db st) ++ [row] ∧
    row_holds c row m ∧ ins_seq st' = ins_seq st + 1 ∧ ins_ids st' = ins_ids st ++ [m_id row].
Proof.
  intros Hok Hm Hseq. unfold insert_step. intros H. inv_res. destruct a as [id db1].
  apply insert_message_row_spec in Hok0 as (row & Hrow & <- & Hid & Hs & Hr & Hc & ->); [|done].
  inv_res. rename a into db2.
  set (db1 := MkDB _ _ _ _ _ _) in *.
  assert (owned db1 (m_id row) c) as Ho.
  { exists row. split_and!; [simpl; set_solver|done|apply Hrow]. }
  assert (derived db1 (_persist_media_parts c (m_id row) db2 m)) as Hd.
  { pose proof (persist_tool_parts_derived _ _ _ _ _ _ Ho Hok0) as Hd1. etrans; [exact Hd1|].
    apply persist_media_parts_derived. by eapply derived_owned. }
  assert (extends (ins_db st) db1) as He1.
  { split; simpl; [done|by apply prefix_app_r|done|done|done|lia]. }
  assert (refs_ok db1) as Hrefs.
  { eapply refs_ok_messages; [apply Hok|simpl; set_solver|done..]. }
  destruct Hd as [He2 Hc2 Hm2 Hrefs2].
  exists row. simpl. split_and!; try done; [|by etrans].
  eapply (db_ok_snoc (ins_db st) _ row); try done.
  - by etrans.
  - by apply Hrefs2.
  - by destruct Hrow as [-> _].
  - destruct Hrow as [-> _]. lia.
  - destruct Hrow as (_ & d & ? & ? & _). eauto.
  - destruct He2 as [_ _ _ _ _ Hdr]. simpl in Hdr. lia.
Qed.

Lemma max_seq_spec db c : db_ok db → max_seq db c + 1 = Z.of_nat (length (rows_of db c)).
Proof.
  intros Hok. pose proof (ok_seq _ Hok c) as Hs.
  assert (max_seq db c = foldr Z.max (-1) (m_seq <$> rows_of db c)) as ->.
  { unfold max_seq. clear. induction (db_messages db) as [|r l IH]; [done|].
    rewrite filter_cons. simpl. case_decide; csimpl; by rewrite IH. }
  rewrite Hs. clear. generalize (length (rows_of db c)) as n. intros n.
  assert (∀ k, foldr Z.max (-1) (Z.of_nat <$> seq k n)
    = if decide (n = 0)%nat then -1 else Z.of_nat (k + n) - 1) as H.
  { induction n as [|n IH]; intros k; csimpl; [done|]. rewrite IH. case_decide; lia. }
  rewrite H. case_decide; lia.
Qed.

(** The effect of inserting [messages] into conversation [c]. *)
Record inserted (c : string) (messages : list obj) (db : DB) (ids : list Z) (db' : DB) : Prop := {
  is_ok_db : db_ok db';
  is_extends : extends db db';
  is_rows : ∃ rows, db_messages db' = db_messages db ++ rows ∧
              Forall2 (row_holds c) rows messages ∧ ids = m_id <$> rows;
}.

Lemma insert_messages_spec now db c messages metadata ids db' :
  db_ok db → Forall obj_wf messages →
  _insert_messages now db c messages metadata = Ok (ids, db') →
  inserted c messages db ids db'.
Proof.
  intros Hok Hwf. unfold _insert_messages. destruct messages as [|m0 ms] eqn:Em.
  { intros H. inv_res. split; [done|done|]. exists []. by rewrite app_nil_r. }
  rewrite -Em. rewrite -Em in Hwf. clear Em m0 ms. intros H. inv_res. rename a into st.
  enough (Forall obj_wf messages → inserted c messages db (ins_ids st) (ins_db st) ∧
    ins_seq st + 1 = Z.of_nat (length (rows_of (ins_db st) c))) as Hres by by apply Hres.
  revert Hok0. apply (foldM_inv _ (λ pre st, Forall obj_wf pre →
    inserted c pre db (ins_ids st) (ins_db st) ∧
    ins_seq st + 1 = Z.of_nat (length (rows_of (ins_db st) c)))).
  { intros _. split; [|by apply max_seq_spec]. split; [done|done|].
    exists []. by rewrite app_nil_r. }
  intros pre m t t' IH Hs [Hpre Hm]%Forall_app. destruct (IH Hpre) as [[Hok1 He1 Hr1] Hq].
  inversion_clear Hm as [|?? Hm' _].
  destruct (insert_step_spec _ _ _ _ _ _ Hok1 Hm' Hq Hs)
    as (row & Hok2 & He2 & _ & Hmsg & Hrow & Hseq & Hids).
  destruct Hr1 as (rows & Hdb & Hrows & Hi). split.
  - split; [done|by etrans|]. exists (rows ++ [row]). split_and!.
    + by rewrite Hmsg Hdb -app_assoc.
    + apply Forall2_app; [done|]. constructor; [done|]. constructor.
    + by rewrite Hids Hi fmap_app.
  - rewrite Hseq Hmsg filter_app length_app. destruct Hrow as [Hc _].
    rewrite filter_cons_True // filter_nil /=. lia.
Qed.
End inserting.

(** ** Reading back *)

Section reading.
Context {host : Host} {pg : Postgres}.

Lemma conversation_rows_ok db c : db_ok db → conversation_rows db c = rows_of db c.
Proof.
  intros Hok. unfold conversation_rows. apply py_sorted_id.
  pose proof (ok_seq _ Hok c) as Hs. revert Hs. generalize (rows_of db c) as rows.
  intros rows. generalize 0%nat as k. induction rows as [|r rows IH]; intros k Hs; [constructor|].
  csimpl in Hs. injection Hs as Hr Hs. constructor; [by eapply IH|].
  apply Forall_forall. intros r' Hin. apply (list_elem_of_fmap_2 m_seq) in Hin.
  rewrite Hs in Hin. apply list_elem_of_fmap in Hin as (j & Hj & Hin%elem_of_seq).
  apply Z.leb_le. lia.
Qed.

(** The content of a row as a dict. *)
Definition row_dict (r : MessageRow) (d : obj) : Prop := m_content r = JObj d ∧ obj_wf d.

Lemma fetch_ok db c :
  db_ok db → ∃ ds, _fetch_messages db c = Ok ds ∧ Forall2 row_dict (rows_of db c) ds.
Proof.
  intros Hok. unfold _fetch_messages. rewrite conversation_rows_ok //.
  assert (Forall (λ r, ∃ d, row_dict r d) (rows_of db c)) as H.
  { apply Forall_filter_l. apply Hok. }
  induction H as [|r rows [d Hd] _ (ds & IH & Hds)]; simpl; [by exists []|].
  exists (d :: ds). destruct Hd as [Hd ?]. rewrite Hd /= IH. split; [done|]. by constructor.
Qed.

Lemma fetch_Forall2 db c ds :
  db_ok db → _fetch_messages db c = Ok ds → Forall2 row_dict (rows_of db c) ds.
Proof.
  intros Hok H. destruct (fetch_ok db c Hok) as (ds' & H' & ?). rewrite H in H'.
  by injection H' as ->.
Qed.

(** The transcript after an insertion is the old one followed by the stored
    form of the new messages. *)
Lemma fetch_inserted db db' c messages ids ds :
  db_ok db → inserted c messages db ids db' → _fetch_messages db c = Ok ds →
  ∃ stored, _fetch_messages db' c = Ok (ds ++ stored) ∧
    Forall2 (λ d m, obj_wf d ∧ py_eq (JObj d) (JObj m) = true) stored messages.
Proof.
  intros Hok [Hok' _ (rows & Hdb & Hrows & _)] Hds. apply fetch_Forall2 in Hds; [|done].
  destruct (fetch_ok db' c Hok') as (ds' & Hds' & Hall).
  assert (rows_of db' c = rows_of db c ++ rows) as E.
  { rewrite Hdb filter_app. f_equal. apply filter_all. clear -Hrows.
    induction Hrows as [|r m rows ms [] _ IH]; by constructor. }
  rewrite E in Hall. apply Forall2_app_inv_l in Hall as (ds1 & stored & H1 & H2 & ->).
  assert (ds1 = ds) as ->.
  { clear -H1 Hds. revert ds Hds. induction H1 as [|r d rs ds1 [Hd _] _ IH]; intros ds Hds;
      inversion Hds as [|? d' ? ds' [Hd' _] Hrest]; subst; [done|].
    rewrite Hd in Hd'. injection Hd' as ->. f_equal. by apply IH. }
  exists stored. split; [done|]. clear -H2 Hrows. revert stored H2.
  induction Hrows as [|r m rows ms (_ & d & Hd & Hwf & Heq) _ IH]; intros stored H2;
    inversion H2 as [|? d' ? ds' [Hd' _] Hrest]; subst; [constructor|].
  rewrite Hd in Hd'. injection Hd' as <-. constructor; auto.
Qed.

Lemma other_rows_inserted db db' c c' messages ids :
  c' ≠ c → inserted c messages db ids db' → rows_of db' c' = rows_of db c'.
Proof.
  intros Hne [_ _ (rows & Hdb & Hrows & _)]. rewrite Hdb filter_app (filter_none _ rows).
  - clear -Hne Hrows. induction Hrows as [|r m rows ms [] _ IH]; constructor; [congruence|done].
  - by rewrite app_nil_r.
Qed.
End reading.

(** ** The operations *)

Section operations.
Context {host : Host} {pg : Postgres} {laws : PostgresLaws}.

Lemma ensure_spec db c :
  db_ok db → db_ok (_ensure_conversation db c) ∧ extends db (_ensure_conversation db c) ∧
    db_messages (_ensure_conversation db c) = db_messages db ∧
    c ∈ db_conversations (_ensure_conversation db c).
Proof.
  intros Hok. unfold _ensure_conversation. case_bool_decide; [done|].
  pose proof Hok as [Hs Hk Hc Hr Hd Hi Hrefs]. simpl. split_and!.
  - split; simpl; try done.
    + eapply Forall_impl; [exact Hk|]. set_solver.
    + eapply refs_ok_messages; [exact Hrefs|done..].
  - split; simpl; try done. by apply prefix_app_r.
  - done.
  - set_solver.
Qed.

Lemma ensure_known db c : c ∈ db_conversations db → _ensure_conversation db c = db.
Proof. intros H. unfold _ensure_conversation. by rewrite bool_decide_eq_true_2. Qed.

Lemma fetch_ensure db c c' : _fetch_messages (_ensure_conversation db c) c' = _fetch_messages db c'.
Proof. unfold _ensure_conversation. by case_bool_decide. Qed.

(** What a committed write on conversation [c] does to the database. *)
Record committed (c : string) (messages : list obj) (db : DB) (ids : list Z) (db' : DB) : Prop := {
  cm_ok : db_ok db';
  cm_extends : extends db db';
  cm_others : ∀ c', c' ≠ c → rows_of db' c' = rows_of db c';
  cm_known : messages ≠ [] → c ∈ db_conversations db';
  cm_ids : length ids = length messages ∧ NoDup ids;
  cm_fetch : ∀ ds, _fetch_messages db c = Ok ds →
    ∃ stored, _fetch_messages db' c = Ok (ds ++ stored) ∧
      Forall2 (λ d m, obj_wf d ∧ py_eq (JObj d) (JObj m) = true) stored messages;
}.

Lemma committed_insert now db c messages metadata ids db' :
  db_ok db → Forall obj_wf messages →
  _insert_messages now (_ensure_conversation db c) c messages metadata = Ok (ids, db') →
  committed c messages db ids db'.
Proof.
  intros Hok Hwf H. destruct (ensure_spec db c Hok) as (Hok1 & He1 & Hm1 & Hc1).
  pose proof (insert_messages_spec _ _ _ _ _ _ _ Hok1 Hwf H) as Hins.
  pose proof Hins as [Hok2 He2 (rows & Hdb & Hrows & ->)]. split.
  - done.
  - by etrans.
  - intros c' Hne. rewrite (other_rows_inserted _ _ _ _ _ _ Hne Hins). by rewrite Hm1.
  - intros _. destruct He2 as [Hp _ _ _ _ _]. by apply (prefix_subset _ _ Hp).
  - split; [by rewrite length_fmap (Forall2_length _ _ _ Hrows)|].
    pose proof (ok_ids _ Hok2) as Hnd. rewrite Hdb fmap_app in Hnd.
    by apply NoDup_app in Hnd as (_ & _ & ?).
  - intros ds Hds. eapply fetch_inserted; [exact Hok1|done|]. by rewrite fetch_ensure.
Qed.

Lemma committed_nothing db c :
  db_ok db → committed c [] db [] (_ensure_conversation db c).
Proof.
  intros Hok. destruct (ensure_spec db c Hok) as (Hok1 & He1 & Hm1 & Hc1).
  split; try done; [|split; [done|constructor]|].
  - intros c' _. by rewrite Hm1.
  - intros ds Hds. exists []. rewrite app_nil_r fetch_ensure. done.
Qed.

Lemma append_suffix_spec now c messages metadata persisted db ids db' :
  db_ok db → Forall obj_wf messages →
  mode (reconcile_projection persisted messages) ≠ Conflict →
  append_suffix now c messages metadata (reconcile_projection persisted messages)
    (_ensure_conversation db c) = Ok (ids, db') →
  ∃ new, new_messages persisted messages = Some new ∧ committed c new db ids db'.
Proof.
  intros Hok Hwf Hmode. unfold append_suffix, new_messages. rewrite decide_False //.
  destruct (append_from _) as [k|].
  - destruct (Nat.leb_spec (length messages) k) as [Hle|Hlt]; intros H; inv_res.
    + exists (drop k messages). split; [done|]. rewrite drop_ge //. by apply committed_nothing.
    + exists (drop k messages). split; [done|]. eapply committed_insert; [done| |done].
      by apply Forall_drop.
  - intros H. inv_res. exists []. split; [done|]. by apply committed_nothing.
Qed.
End operations.

(** ** Histories of the store *)

(** One transaction of one client. *)
Inductive store_op : Type :=
| OpEnsure (c : string)
| OpAppend (now : Z) (c : string) (messages : list obj) (metadata : option obj)
| OpReconcile (now : Z) (c : string) (messages : list obj) (metadata : option obj)
| OpBaseReconcile (now : Z) (c : string) (messages : list obj) (metadata : option obj).

Definition op_conversation (op : store_op) : string :=
  match op with
  | OpEnsure c | OpAppend _ c _ _ | OpReconcile _ c _ _ | OpBaseReconcile _ c _ _ => c
  end.

(** The messages are decoded JSON objects. *)
Definition op_wf (op : store_op) : Prop :=
  match op with
  | OpEnsure _ => True
  | OpAppend _ _ ms _ | OpReconcile _ _ ms _ | OpBaseReconcile _ _ ms _ => Forall obj_wf ms
  end.

Section history.
Context {host : Host} {pg : Postgres}.

Definition run_op (op : store_op) (db : DB) : res (list Z) * DB :=
  match op with
  | OpEnsure c => let '(_, db') := ensure_conversation c db in (Ok [], db')
  | OpAppend now c ms md => append_messages now c ms md db
  | OpReconcile now c ms md => reconcile_history now c ms md db
  | OpBaseReconcile now c ms md => base_reconcile_history now c ms md db
  end.

(** The database after the transactions of [ops], in commit order. *)
Definition run_ops (ops : list store_op) (db : DB) : DB :=
  foldl (λ db op, (run_op op db).2) db ops.

Context {laws : PostgresLaws}.

Lemma reconcile_inv (report : list obj → list obj → exn) now c ms md db r db' :
  db_ok db → Forall obj_wf ms →
  transaction (λ db, let db := _ensure_conversation db c in
    persisted ← _fetch_messages db c;
    let result := reconcile_projection persisted ms in
    if decide (mode result = Conflict) then Err (report persisted ms)
    else append_suffix now c ms md result db) db = (r, db') →
  ∃ persisted, _fetch_messages db c = Ok persisted ∧
    match r with
    | Ok ids => ∃ new, new_messages persisted ms = Some new ∧ committed c new db ids db'
    | Err e => db' = db ∧ (new_messages persisted ms = None → e = report persisted ms)
    end.
Proof.
  intros Hok Hwf Ht. destruct (fetch_ok db c Hok) as (persisted & Hf & _).
  exists persisted. split; [done|]. revert Ht. unfold transaction. rewrite /= fetch_ensure Hf /=.
  destruct (decide (mode (reconcile_projection persisted ms) = Conflict)) as [Hm|Hm].
  - intros [= <- <-]. split; done.
  - destruct (append_suffix _ _ _ _ _ _) as [[ids db1]|e] eqn:E; intros [= <- <-].
    + by eapply append_suffix_spec.
    + split; [done|]. unfold new_messages. rewrite decide_False //.
      by destruct (append_from _).
Qed.

(** *** Errors of the transactions *)

Definition storage_error (e : exn) : Prop := e = PostgresError ∨ e = DataError.

Lemma jsonb_raises v : raises storage_error (jsonb v).
Proof. apply jsonb_error. Qed.

Lemma text_param_raises v : raises storage_error (text_param v).
Proof. destruct v; simpl; unfold storage_error; auto. Qed.

Lemma not_null_raises v : raises storage_error (not_null v).
Proof. destruct v; simpl; unfold storage_error; auto. Qed.

Lemma insert_message_row_raises db c seq m meta :
  raises storage_error (insert_message_row db c seq m meta).
Proof.
  unfold insert_message_row. do 2 (apply raises_bind; [auto using text_param_raises, not_null_raises|]; intros ? _).
  do 2 (apply raises_bind; [apply jsonb_raises|]; intros ? _).
  repeat case_match; simpl; unfold storage_error; auto.
Qed.

Lemma insert_tool_call_raises now db id call_id ty name args input extra :
  raises storage_error (insert_tool_call now db id call_id ty name args input extra).
Proof.
  unfold insert_tool_call. do 6 (apply raises_bind; [auto using text_param_raises, not_null_raises|]; intros ? _).
  do 2 (apply raises_bind; [case_match; [apply raises_fmap, jsonb_raises|done]|]; intros ? _).
  apply raises_bind; [apply jsonb_raises|]; intros ? _. by case_match.
Qed.

(** A tool call whose [function] and [custom], if any, are dicts. *)
Definition storable_call (v : json) : bool :=
  match v with
  | JObj d => is_dict (py_or (oget d "function") (JObj [])) && is_dict (py_or (oget d "custom") (JObj []))
  | _ => false
  end.

(** A message whose tool calls, if any, are a list of such calls. *)
Definition storable (m : obj) : bool :=
  match py_or (oget m "tool_calls") (JList []) with
  | JList calls => forallb storable_call calls
  | _ => false
  end.

Lemma persist_tool_call_raises now id db call :
  storable_call call = true → raises storage_error (persist_tool_call now id db call).
Proof.
  destruct call as [| | | | | |d]; try done. simpl. intros [Hf Hc]%andb_true_iff.
  unfold persist_tool_call. simpl.
  destruct (py_or (oget d "function") _); try done. destruct (py_or (oget d "custom") _); try done.
  destruct (eq_str _ _); apply insert_tool_call_raises.
Qed.

Lemma persist_tool_result_raises c id db m : raises storage_error (persist_tool_result c id db m).
Proof.
  unfold persist_tool_result. case_match; [|done].
  do 2 (apply raises_bind; [auto using text_param_raises, not_null_raises|]; intros ? _).
  apply raises_bind; [apply jsonb_raises|]; intros ? _. case_match; simpl; unfold storage_error; auto.
Qed.

Lemma insert_step_raises now c meta st m :
  storable m = true → raises storage_error (insert_step now c meta st m).
Proof.
  intros Hs. unfold insert_step. apply raises_bind; [apply insert_message_row_raises|]. intros [id db] _.
  apply raises_bind; [|done]. unfold _persist_tool_parts. unfold storable in Hs.
  destruct (py_or (oget m "tool_calls") _) as [| | | | |calls|]; try done. simpl.
  apply raises_bind; [|intros; apply persist_tool_result_raises].
  apply (raises_foldM _ _ (λ call, storable_call call = true)).
  - apply Forall_forall. intros x Hx%list_elem_of_In. by apply (proj1 (List.forallb_forall _ _) Hs).
  - intros. by apply persist_tool_call_raises.
Qed.

(** Reconciling storable messages raises nothing but a divergence and the
    errors of the database. *)
Lemma reconcile_history_raises now c ms md db :
  db_ok db → Forall (λ m, storable m = true) ms →
  raises (λ e, storage_error e ∨ ∃ i d, e = HistoryDivergenceError c i d)
    (reconcile_history now c ms md db).1.
Proof.
  intros Hok Hs. destruct (fetch_ok db c Hok) as (persisted & Hf & _).
  unfold reconcile_history, transaction. rewrite /= fetch_ensure Hf /=.
  destruct (decide _) as [|_]; [right; by eexists _, _|].
  assert (raises storage_error (append_suffix now c ms md (reconcile_projection persisted ms)
    (_ensure_conversation db c))) as H.
  { unfold append_suffix. case_match; [|done]. case_match; [done|].
    assert (Forall (λ m, storable m = true) (drop n ms)) as Hd by by apply Forall_drop.
    unfold _insert_messages. destruct (drop n ms); [done|]. apply raises_bind; [|done].
    eapply raises_foldM; [exact Hd|]. intros. by apply insert_step_raises. }
  destruct (append_suffix _ _ _ _ _ _) as [[ids db']|e]; simpl; [done|by left].
Qed.

Lemma append_inv now c ms md db ids db' :
  db_ok db → Forall obj_wf ms → ms ≠ [] →
  append_messages now c ms md db = (Ok ids, db') → committed c ms db ids db'.
Proof.
  intros Hok Hwf Hne. unfold append_messages, transaction. destruct ms as [|m ms]; [done|].
  destruct (_insert_messages _ _ _ _ _) as [[ids' db1]|e] eqn:E; intros [= <- <-].
  by eapply committed_insert.
Qed.

(** What every transaction guarantees. *)
Record step_ok (c : string) (r : res (list Z)) (db db' : DB) : Prop := {
  st_ok : db_ok db';
  st_extends : extends db db';
  st_others : ∀ c', c' ≠ c → rows_of db' c' = rows_of db c';
  st_rollback : ∀ e, r = Err e → db' = db;
}.

Lemma step_same c e db : db_ok db → step_ok c (Err e) db db.
Proof. by split. Qed.

Lemma step_committed c ms ids db db' : committed c ms db ids db' → step_ok c (Ok ids) db db'.
Proof. by intros []; split. Qed.

Lemma run_op_ok op db :
  db_ok db → op_wf op → step_ok (op_conversation op) (run_op op db).1 db (run_op op db).2.
Proof.
  intros Hok Hwf. destruct op as [c|now c ms md|now c ms md|now c ms md]; simpl in *.
  - eapply step_committed. by apply committed_nothing.
  - destruct (append_messages now c ms md db) as [r db'] eqn:E.
    destruct ms as [|m ms']; [simplify_eq/=; by split|].
    destruct r as [ids|e]; simpl.
    + eapply step_committed. by eapply append_inv.
    + unfold append_messages, transaction in E.
      destruct (_insert_messages _ _ _ _ _) as [[]|]; simplify_eq. by apply step_same.
  - destruct (reconcile_history now c ms md db) as [r db'] eqn:E.
    apply (reconcile_inv (λ p i, divergence c (Nat.min (length p) (length i))
      (p !! Nat.min (length p) (length i)) (i !! Nat.min (length p) (length i)))) in E
      as (p & _ & H); [|done..].
    destruct r as [ids|e]; simpl; [destruct H as (new & _ & ?); by eapply step_committed|].
    destruct H as [-> _]. by apply step_same.
  - destruct (base_reconcile_history now c ms md db) as [r db'] eqn:E.
    apply (reconcile_inv (λ p i, divergence c (_prefix_len p i)
      (p !! _prefix_len p i) (i !! _prefix_len p i))) in E as (p & _ & H); [|done..].
    destruct r as [ids|e]; simpl; [destruct H as (new & _ & ?); by eapply step_committed|].
    destruct H as [-> _]. by apply step_same.
Qed.

Lemma empty_db_ok : db_ok empty_db.
Proof. split; simpl; try by constructor. Qed.

Lemma run_ops_ok ops db :
  db_ok db → Forall op_wf ops → db_ok (run_ops ops db) ∧ extends db (run_ops ops db).
Proof.
  unfold run_ops. revert db. induction ops as [|op ops IH]; intros db Hok Hwf; simpl; [done|].
  inversion_clear Hwf as [|?? Hop Hops]. destruct (run_op_ok op db Hok Hop) as [Hok' He _ _].
  destruct (IH _ Hok' Hops) as [? ?]. split; [done|by etrans].
Qed.
End history.

(** ** Claims *)

Section claims.
Context {host : Host} {pg : Postgres} {laws : PostgresLaws}.

(** C18: whatever transactions are run, the database stays well formed: each
    conversation's messages are numbered 0, 1, 2, ... without gaps, carry a
    legal role and a distinct id, and every tool call, tool result and media
    row belongs to a stored message, a linked result to a call with its own
    id in its own conversation. *)
Theorem store_invariant ops :
  Forall op_wf ops → db_ok (run_ops ops empty_db).
Proof. intros H. apply run_ops_ok; [apply empty_db_ok|done]. Qed.

(** The store is append-only and isolated: a transaction never changes
    or removes a row, never touches the messages of another conversation, and
    leaves the database exactly as it was when it fails. *)
Theorem store_append_only op db :
  db_ok db → op_wf op →
  extends db (run_op op db).2 ∧
  (∀ c, c ≠ op_conversation op → rows_of (run_op op db).2 c = rows_of db c) ∧
  (∀ e, (run_op op db).1 = Err e → (run_op op db).2 = db).
Proof. intros Hok Hwf. by destruct (run_op_ok op db Hok Hwf). Qed.

(** What is appended is read back: the transcript becomes the old one
    followed by the messages, each equal to the one sent, and one fresh
    identifier is returned per message. *)
Theorem append_then_get now c messages metadata db ids db' before :
  db_ok db → Forall obj_wf messages → messages ≠ [] →
  append_messages now c messages metadata db = (Ok ids, db') →
  get_messages c db = Ok before →
  length ids = length messages ∧ NoDup ids ∧
  ∃ stored, get_messages c db' = Ok (before ++ stored) ∧
    Forall2 (λ d m, py_eq (JObj d) (JObj m) = true) stored messages.
Proof.
  intros Hok Hwf Hne Ha Hb. destruct (append_inv _ _ _ _ _ _ _ Hok Hwf Hne Ha)
    as [_ _ _ _ [Hl Hnd] Hf].
  destruct (Hf _ Hb) as (stored & Hg & Hs). split_and!; [done|done|].
  exists stored. split; [done|]. eapply Forall2_impl; [exact Hs|]. by intros ? ? [_ ?].
Qed.

(** C19: reconciling implements the projection policy atomically: a conflict
    is reported and changes nothing; otherwise exactly the new messages of the
    projection are appended to the transcript. *)
Theorem reconcile_history_spec now c messages metadata db r db' persisted :
  db_ok db → Forall obj_wf messages →
  get_messages c db = Ok persisted →
  reconcile_history now c messages metadata db = (r, db') →
  match new_messages persisted messages, r with
  | None, Err e => db' = db ∧
      e = HistoryDivergenceError c (Nat.min (length persisted) (length messages)) None
  | Some new, Ok ids => length ids = length new ∧
      ∃ stored, get_messages c db' = Ok (persisted ++ stored) ∧
        Forall2 (λ d m, py_eq (JObj d) (JObj m) = true) stored new
  | Some _, Err _ => db' = db
  | None, Ok _ => False
  end.
Proof.
  intros Hok Hwf Hp Hr.
  apply (reconcile_inv (λ p i, divergence c (Nat.min (length p) (length i))
    (p !! Nat.min (length p) (length i)) (i !! Nat.min (length p) (length i)))) in Hr
    as (p & Hp' & H); [|done..].
  assert (p = persisted) as -> by (unfold get_messages in Hp; congruence).
  destruct r as [ids|e].
  - destruct H as (new & -> & [_ _ _ _ [Hl _] Hf]). split; [done|].
    destruct (Hf _ Hp') as (stored & Hg & Hs). exists stored. split; [done|].
    eapply Forall2_impl; [exact Hs|]. by intros ? ? [_ ?].
  - destruct H as [-> He]. destruct (new_messages persisted messages); [done|].
    split; [done|]. rewrite He //. unfold divergence. f_equal.
    destruct (Nat.min_spec (length persisted) (length messages)) as [[_ ->]|[_ ->]].
    + by rewrite lookup_ge_None_2.
    + rewrite (lookup_ge_None_2 messages) //. by case_match.
Qed.

(** A client may retry: sending a projection again after it was accepted
    inserts nothing and leaves the database unchanged. *)
Theorem reconcile_history_retry now now' c messages metadata metadata' db ids db' :
  db_ok db → Forall obj_wf messages →
  reconcile_history now c messages metadata db = (Ok ids, db') →
  reconcile_history now' c messages metadata' db' = (Ok [], db').
Proof.
  intros Hok Hwf Hr. pose proof Hr as Hr'.
  apply (reconcile_inv (λ p i, divergence c (Nat.min (length p) (length i))
    (p !! Nat.min (length p) (length i)) (i !! Nat.min (length p) (length i)))) in Hr'
    as (p & Hp & new & Hnew & [Hok' He _ _ _ Hf]); [|done..].
  destruct (Hf _ Hp) as (stored & Hg & Hs).
  assert (c ∈ db_conversations db') as Hc.
  { revert Hr. unfold reconcile_history, transaction. rewrite /= fetch_ensure Hp /=.
    case_decide; [done|]. unfold append_suffix, _insert_messages.
    destruct (ensure_spec db c Hok) as (Hok1 & _ & _ & Hc).
    destruct (append_from _) as [k|]; [|by intros [= <- <-]].
    destruct (Nat.leb_spec (length messages) k); [by intros [= <- <-]|].
    fold (_insert_messages now (_ensure_conversation db c) c (drop k messages) metadata).
    destruct (_insert_messages _ _ _ _ _) as [[ids1 db1]|] eqn:E; intros [= <- <-].
    apply insert_messages_spec in E as [_ Hex _]; [|done|by apply Forall_drop].
    destruct Hex as [Hpre _ _ _ _ _]. by apply (prefix_subset _ _ Hpre). }
  assert (new_messages (p ++ stored) messages = Some []) as Hagain.
  { eapply reconcile_retry; [exact Hnew|].
    assert (Forall obj_wf new) as Hwn.
    { unfold new_messages in Hnew. case_decide; [done|].
      destruct (append_from _); simplify_eq; [by apply Forall_drop|constructor]. }
    clear -Hs Hwn. induction Hs as [|d m ds ms [Hd Heq] _ IH]; constructor; inversion_clear Hwn;
      [by apply equivalent_py_eq|by apply IH]. }
  unfold reconcile_history, transaction. rewrite /= ensure_known // Hg /=.
  revert Hagain. unfold new_messages, append_suffix. case_decide; [done|].
  destruct (append_from _) as [k|]; [|done]. intros [= Hd].
  apply (f_equal length) in Hd. rewrite length_drop /= in Hd.
  destruct (Nat.leb_spec (length messages) k); [done|lia].
Qed.

(** the base class reports a conflict at the first pair of messages that
    differ, with the fingerprints and field names of that pair. *)
Theorem base_conflict_diagnostics now c messages metadata db persisted :
  get_messages c db = Ok persisted →
  new_messages persisted messages = None →
  ∃ p m, base_reconcile_history now c messages metadata db =
    (Err (HistoryDivergenceError c (_prefix_len persisted messages)
            (Some (_message_fingerprint p, _message_fingerprint m, _differing_fields p m))), db) ∧
    persisted !! _prefix_len persisted messages = Some p ∧
    messages !! _prefix_len persisted messages = Some m ∧ equivalent p m = false.
Proof.
  intros Hp Hn. unfold new_messages in Hn. case_decide as Hc; [|by destruct (append_from _)].
  destruct (conflict_position _ _ Hc) as (p & m & Hp1 & Hm1 & He).
  exists p, m. split_and!; try done.
  unfold base_reconcile_history, transaction. rewrite /= fetch_ensure.
  unfold get_messages in Hp. rewrite Hp /= decide_True //. by rewrite Hp1 Hm1.
Qed.

Lemma later_call_total a b : later_call a b = true ∨ later_call b a = true.
Proof. unfold later_call. rewrite !orb_true_iff !andb_true_iff !Z.ltb_lt !Z.eqb_eq !Z.leb_le. lia. Qed.

Lemma later_call_trans a b c :
  later_call a b = true → later_call b c = true → later_call a c = true.
Proof. unfold later_call. rewrite !orb_true_iff !andb_true_iff !Z.ltb_lt !Z.eqb_eq !Z.leb_le. lia. Qed.

(** A stored tool result is linked to the latest call that has its id in
    its conversation; it is an orphan exactly when there is none, and then it
    is still stored. *)
Theorem tool_result_link c message_id db message call_id db' :
  oget message "role" = JStr "tool" → oget message "tool_call_id" = JStr call_id →
  call_id ≠ EmptyString →
  persist_tool_result c message_id db message = Ok db' →
  ∃ row, db_tool_results db' = db_tool_results db ++ [row] ∧
    tr_message row = message_id ∧ tr_call_id row = call_id ∧
    match tr_call_ref row with
    | None => calls_with_id db c call_id = []
    | Some ref => ∃ tc, tc ∈ calls_with_id db c call_id ∧ tc_id tc = ref ∧
        ∀ tc', tc' ∈ calls_with_id db c call_id → later_call tc tc' = true
    end.
Proof.
  intros Hr Hk Hne. unfold persist_tool_result. rewrite Hr Hk /=.
  destruct call_id as [|x s]; [done|]. simpl. set (k := String x s).
  intros H. inv_res. case_bool_decide; inv_res. eexists. split_and!; [done..|]. simpl.
  unfold latest_call.
  pose proof (py_sorted_perm later_call (calls_with_id db c k)) as Hp.
  pose proof (py_sorted_sorted later_call later_call_total later_call_trans
    (calls_with_id db c k)) as Hs.
  destruct (py_sorted later_call (calls_with_id db c k)) as [|tc l]; simpl.
  - by apply Permutation_nil_l in Hp.
  - exists tc. split_and!; [rewrite -Hp; left|done|].
    intros tc'. rewrite -Hp. apply StronglySorted_inv in Hs as [_ Hs].
    rewrite Forall_forall in Hs. intros [->|?]%elem_of_cons; [|by apply Hs].
    by destruct (later_call_total tc tc).
Qed.
End claims.

(** ** Witnesses *)

(** A database whose [jsonb] keeps values as they are and whose identifiers
    are consecutive. *)
#[local] Instance sample_postgres : Postgres := {|
  jsonb v := Ok v;
  uuid_at n := Z.of_nat n;
|}.

Lemma sample_laws : PostgresLaws (H:=sample_postgres).
Proof.
  split.
  - intros v w Hv [= <-]. split; [done|]. by apply py_eq_refl.
  - done.
  - simpl. lia.
Qed.

Definition sample_call : obj :=
  [("role", JStr "assistant"); ("content", JNull);
   ("tool_calls", JList [JObj [("id", JStr "call-1"); ("type", JStr "function");
     ("function", JObj [("name", JStr "lookup"); ("arguments", JStr "{}")])]])].

Definition sample_result : obj :=
  [("role", JStr "tool"); ("tool_call_id", JStr "call-1"); ("content", JStr "42")].

Definition sample_turn : list obj := [chat_message "user" "what is it?"; sample_call; sample_result].

Lemma sample_turn_wf : Forall obj_wf sample_turn.
Proof. repeat constructor; set_solver. Qed.

Lemma sample_unrelated_wf : Forall obj_wf [chat_message "user" "unrelated"].
Proof. repeat constructor; set_solver. Qed.

Definition sample_db : DB :=
  (append_messages (host:=sample_host) (pg:=sample_postgres) 7 "conv" sample_turn None empty_db).2.

Example sample_db_rows :
  ((λ r, (m_id r, m_seq r, m_role r)) <$> db_messages sample_db,
   (λ r, (tc_id r, tc_call_id r)) <$> db_tool_calls sample_db,
   (λ r, (tr_message r, tr_call_ref r)) <$> db_tool_results sample_db)
  = ([(0, 0, "user"); (1, 1, "assistant"); (3, 2, "tool")], [(2, "call-1")], [(3, Some 2)]).
Proof. vm_compute. reflexivity. Qed.

Lemma store_invariant_witness :
  db_ok (pg:=sample_postgres)
    (run_ops (host:=sample_host) [OpEnsure "other"; OpAppend 7 "conv" sample_turn None;
       OpReconcile 8 "conv" (sample_turn ++ [chat_message "assistant" "42"]) None] empty_db).
Proof.
  apply (store_invariant (host:=sample_host) (pg:=sample_postgres) (laws:=sample_laws)).
  constructor; [exact I|]. constructor; [exact sample_turn_wf|]. constructor; [|constructor].
  apply Forall_app. split; [exact sample_turn_wf|]. repeat constructor; set_solver.
Defined.

Lemma sample_db_ok : db_ok (pg:=sample_postgres) sample_db.
Proof.
  destruct (run_ops_ok (host:=sample_host) (pg:=sample_postgres) (laws:=sample_laws)
    [OpAppend 7 "conv" sample_turn None] empty_db) as [H _].
  - apply empty_db_ok.
  - constructor; [exact sample_turn_wf|constructor].
  - exact H.
Qed.

Lemma store_append_only_witness :
  extends sample_db (run_op (host:=sample_host) (pg:=sample_postgres)
    (OpReconcile 9 "conv" [chat_message "user" "unrelated"] None) sample_db).2.
Proof.
  apply (store_append_only (host:=sample_host) (pg:=sample_postgres) (laws:=sample_laws)).
  - exact sample_db_ok.
  - repeat constructor; set_solver.
Defined.

Lemma append_then_get_witness :
  ∃ stored, get_messages "conv" sample_db = Ok ([] ++ stored) ∧
    Forall2 (λ d m, py_eq (JObj d) (JObj m) = true) stored sample_turn.
Proof.
  destruct (append_then_get (host:=sample_host) (pg:=sample_postgres) (laws:=sample_laws)
    7 "conv" sample_turn None empty_db [0; 1; 3] sample_db []) as (_ & _ & H).
  - apply empty_db_ok.
  - exact sample_turn_wf.
  - discriminate.
  - vm_compute. reflexivity.
  - reflexivity.
  - exact H.
Defined.

Lemma reconcile_history_spec_witness :
  ∃ r db', reconcile_history (host:=sample_host) (pg:=sample_postgres) 9 "conv"
             [chat_message "user" "unrelated"] None sample_db = (r, db') ∧
    match new_messages (host:=sample_host) sample_turn [chat_message "user" "unrelated"], r with
    | None, Err e => db' = sample_db ∧ e = HistoryDivergenceError "conv" 1 None
    | Some new, Ok ids => length ids = length new
    | Some _, Err _ => db' = sample_db
    | None, Ok _ => False
    end.
Proof.
  destruct (reconcile_history (host:=sample_host) (pg:=sample_postgres) 9 "conv"
    [chat_message "user" "unrelated"] None sample_db) as [r db'] eqn:E.
  exists r, db'. split; [reflexivity|].
  assert (get_messages "conv" sample_db = Ok sample_turn) as Hg by (vm_compute; reflexivity).
  pose proof (reconcile_history_spec (host:=sample_host) (pg:=sample_postgres) (laws:=sample_laws)
    9 "conv" [chat_message "user" "unrelated"] None sample_db r db' sample_turn
    sample_db_ok sample_unrelated_wf Hg E) as H.
  clear Hg E. destruct (new_messages sample_turn _) as [new|], r as [ids|e];
    [by destruct H|done|done|exact H].
Defined.

Lemma reconcile_history_retry_witness :
  ∃ db', reconcile_history (host:=sample_host) (pg:=sample_postgres) 8 "conv"
           (sample_turn ++ [chat_message "assistant" "42"]) None sample_db = (Ok [4], db') ∧
    reconcile_history (host:=sample_host) (pg:=sample_postgres) 9 "conv"
      (sample_turn ++ [chat_message "assistant" "42"]) None db' = (Ok [], db').
Proof.
  eexists. split; [vm_compute; reflexivity|].
  eapply (reconcile_history_retry (host:=sample_host) (pg:=sample_postgres) (laws:=sample_laws)
    8 9 "conv" (sample_turn ++ [chat_message "assistant" "42"]) None None sample_db).
  - exact sample_db_ok.
  - apply Forall_app. split; [exact sample_turn_wf|]. repeat constructor; set_solver.
  - vm_compute. reflexivity.
Defined.

Lemma base_conflict_diagnostics_witness :
  ∃ p m, base_reconcile_history (host:=sample_host) (pg:=sample_postgres) 9 "conv"
    [chat_message "user" "unrelated"] None sample_db =
    (Err (HistoryDivergenceError "conv" 0
       (Some (_message_fingerprint (host:=sample_host) p, _message_fingerprint (host:=sample_host) m,
              _differing_fields p m))), sample_db).
Proof.
  destruct (base_conflict_diagnostics (host:=sample_host) (pg:=sample_postgres)
    9 "conv" [chat_message "user" "unrelated"] None sample_db sample_turn) as (p & m & H & _).
  - vm_compute. reflexivity.
  - vm_compute. reflexivity.
  - exists p, m. exact H.
Defined.

Lemma tool_result_link_witness :
  ∃ db' row, persist_tool_result (pg:=sample_postgres) "conv" 99 sample_db sample_result = Ok db' ∧
    db_tool_results db' = db_tool_results sample_db ++ [row] ∧ tr_call_id row = "call-1".
Proof.
  destruct (persist_tool_result (pg:=sample_postgres) "conv" 99 sample_db sample_result)
    as [db'|] eqn:E; [|vm_compute in E; discriminate].
  destruct (tool_result_link (pg:=sample_postgres) "conv" 99 sample_db sample_result "call-1" db')
    as (row & H1 & _ & H2 & _); [reflexivity|reflexivity|discriminate|exact E|].
  exists db', row. auto.
Defined.
