(* ===== verification/Transactions.v ===== *)
(** * Concurrent writers of the store ([conversation/store.py])

    [Store] gives every method as one atomic transaction.  Here the writers run
    statement by statement and interleave: each begins, waits for the row of its
    conversation, reads the transcript and the last sequence number under the lock,
    and inserts and commits.  What a transaction inserts is seen by nobody before it
    commits, so the inserts and the commit are one step. *)

From S2P Require Import Prelude PyDict PyString Json Reconciliation Store.
Local Open Scope Z_scope.

(** ** Writers *)

Inductive phase : Type :=
| Waiting
| Locked
| HasRead (persisted : list obj)
| Numbered (todo : list obj) (last_seq : Z)
| Finished (r : res (list Z))
| Cancelled.

Record Writers : Type := MkWriters {
  wr_db : DB;
  wr_sessions : list (store_op * phase);
}.

(** Between taking the row and the end of the transaction. *)
Definition holding (p : phase) : bool :=
  match p with Locked | HasRead _ | Numbered _ _ => true | _ => false end.

Definition holds (c : string) (w : store_op * phase) : bool :=
  bool_decide (op_conversation w.1 = c) && holding w.2.

(** Nobody holds the row of [c]. *)
Definition row_free (c : string) (s : Writers) : bool := forallb (λ w, negb (holds c w)) (wr_sessions s).

Section writers.
Context {host : Host} {pg : Postgres}.

(** [_insert_messages] once it knows the last sequence number. *)
Definition insert_from (now : Z) (db : DB) (c : string) (seq : Z) (messages : list obj) (metadata : option obj)
    : res (list Z * DB) :=
  let meta := match metadata with Some ((_ :: _) as d) => JObj d | _ => JObj [] end in
  st ← foldM (insert_step now c meta) (InsertState db seq []) messages;
  Ok (ins_ids st, ins_db st).

(** The report of a conflict, which the two stores index differently. *)
Definition report (op : store_op) (persisted messages : list obj) : exn :=
  let c := op_conversation op in
  let index := match op with
               | OpBaseReconcile _ _ _ _ => _prefix_len persisted messages
               | _ => Nat.min (length persisted) (length messages)
               end in
  divergence c index (persisted !! index) (messages !! index).

Definition op_parts (op : store_op) : Z * list obj * option obj :=
  match op with
  | OpEnsure _ => (0, [], None)
  | OpAppend now _ ms md | OpReconcile now _ ms md | OpBaseReconcile now _ ms md => (now, ms, md)
  end.

(** The next statement of a writer over the committed tables [db]: its phase and the
    tables after it.  [free] tells whether its row is free. *)
Definition statement (op : store_op) (p : phase) (free : bool) (db : DB) : option (phase * DB) :=
  let c := op_conversation op in
  let '(now, ms, md) := op_parts op in
  let own := _ensure_conversation db c in
  match p with
  | Waiting =>
      match op with
      | OpAppend _ _ [] _ => Some (Finished (Ok []), db)
      | OpEnsure _ => if free then Some (Finished (Ok []), own) else None
      | _ => if free then Some (Locked, db) else None
      end
  | Locked =>
      match op with
      | OpReconcile _ _ _ _ | OpBaseReconcile _ _ _ _ =>
          Some (match _fetch_messages own c with
                | Ok persisted => HasRead persisted
                | Err e => Finished (Err e)
                end, db)
      | _ => Some (Numbered ms (max_seq own c), db)
      end
  | HasRead persisted =>
      let result := reconcile_projection persisted ms in
      if decide (mode result = Conflict) then Some (Finished (Err (report op persisted ms)), db)
      else match append_from result with
           | None => Some (Finished (Ok []), own)
           | Some k =>
               if (length ms <=? k)%nat then Some (Finished (Ok []), own)
               else Some (Numbered (drop k ms) (max_seq own c), db)
           end
  | Numbered todo seq =>
      Some (match insert_from now own c seq todo md with
            | Ok (ids, db') => (Finished (Ok ids), db')
            | Err e => (Finished (Err e), db)
            end)
  | Finished _ | Cancelled => None
  end.

(** The next statement of writer [i]; [None] when it waits or is done. *)
Definition advance (i : nat) (s : Writers) : option Writers :=
  '(op, p) ← wr_sessions s !! i;
  '(p', db) ← statement op p (row_free (op_conversation op) s) (wr_db s);
  Some (MkWriters db (<[i := (op, p')]> (wr_sessions s))).

(** The client leaves or the connection breaks: the transaction is rolled back. *)
Definition cancel (i : nat) (s : Writers) : option Writers :=
  '(op, p) ← wr_sessions s !! i;
  match p with
  | Finished _ | Cancelled => None
  | _ => Some (MkWriters (wr_db s) (<[i := (op, Cancelled)]> (wr_sessions s)))
  end.

Inductive turn : Type := Advance (i : nat) | Cancel (i : nat).

Definition take_turn (t : turn) (s : Writers) : Writers :=
  default s match t with Advance i => advance i s | Cancel i => cancel i s end.

Definition run_turns (ts : list turn) (s : Writers) : Writers := foldl (λ s t, take_turn t s) s ts.

Definition started (ops : list store_op) (db : DB) : Writers := MkWriters db ((λ op, (op, Waiting)) <$> ops).

(** ** The atomic operations, one after the other *)

(** The writers of [order] run alone in that order, each with the result it has. *)
Inductive serial (ws : list (store_op * phase)) : list nat → DB → DB → Prop :=
| serial_nil db : serial ws [] db db
| serial_snoc order i op r db db1 db2 :
    serial ws order db db1 → ws !! i = Some (op, Finished r) → run_op op db1 = (r, db2) →
    serial ws (order ++ [i]) db db2.
End writers.

(** ** What a writer may rely on *)

Section reliance.
Context {host : Host} {pg : Postgres} {laws : PostgresLaws}.

Definition reconciles (op : store_op) : Prop :=
  match op with OpReconcile _ _ _ _ | OpBaseReconcile _ _ _ _ => True | _ => False end.

(** What a reconciliation does with a transcript: the new suffix is inserted. *)
Definition takes (persisted ms todo : list obj) : Prop :=
  mode (reconcile_projection persisted ms) ≠ Conflict ∧
  ∃ k, append_from (reconcile_projection persisted ms) = Some k ∧ (k < length ms)%nat ∧ todo = drop k ms.

(** What a writer has read is still so. *)
Definition reads_stand (db : DB) (op : store_op) (p : phase) : Prop :=
  let c := op_conversation op in
  let '(_, ms, _) := op_parts op in
  match p with
  | Waiting | Finished _ | Cancelled => True
  | Locked => reconciles op ∨ ms ≠ [] ∧ ¬ reconciles op
  | HasRead persisted => reconciles op ∧ _fetch_messages db c = Ok persisted
  | Numbered todo seq =>
      seq = max_seq db c ∧
      (¬ reconciles op ∧ todo = ms ∧ ms ≠ [] ∨
       reconciles op ∧ ∃ persisted, _fetch_messages db c = Ok persisted ∧ takes persisted ms todo)
  end.

Lemma max_seq_ensure db c c' : max_seq (_ensure_conversation db c) c' = max_seq db c'.
Proof. unfold _ensure_conversation. by case_bool_decide. Qed.

Lemma insert_from_max now db c ms md :
  ms ≠ [] → insert_from now db c (max_seq db c) ms md = _insert_messages now db c ms md.
Proof. by destruct ms. Qed.

(** Both stores reconcile with the same transaction but for the report. *)
Lemma run_reconciles op db :
  reconciles op →
  let '(now, ms, md) := op_parts op in
  let c := op_conversation op in
  run_op op db =
  transaction (λ db, let db := _ensure_conversation db c in
    persisted ← _fetch_messages db c;
    let result := reconcile_projection persisted ms in
    if decide (mode result = Conflict) then Err (report op persisted ms)
    else append_suffix now c ms md result db) db.
Proof. by destruct op. Qed.

Lemma run_appends op db :
  ¬ reconciles op →
  let '(now, ms, md) := op_parts op in
  let c := op_conversation op in
  ms ≠ [] →
  run_op op db =
  transaction (λ db, _insert_messages now (_ensure_conversation db c) c ms md) db.
Proof. destruct op as [|now c [|m ms] md| |]; simpl; try done. all: intros H; by destruct H. Qed.

(** The statement that ends a writer does what the whole transaction would do now. *)
Lemma statement_ends op p free db r db' :
  reads_stand db op p → statement op p free db = Some (Finished r, db') → run_op op db = (r, db').
Proof.
  unfold reads_stand, statement. destruct (op_parts op) as [[now ms] md] eqn:Ep.
  destruct p as [| |persisted|todo seq|r0|]; [| | | |done|done].
  - intros _. destruct op as [c|? c [|m ms'] md'| |]; simpl; try destruct free; intros [= <- <-]; done.
  - intros _. destruct op as [c|? c ms' md'|n c ms' md'|n c ms' md']; simpl; [done|done|..];
      rewrite fetch_ensure; destruct (_fetch_messages db c) as [|e] eqn:E; intros [= <- <-];
      rewrite /reconcile_history /base_reconcile_history /transaction /= fetch_ensure E //.
  - intros [Hr Hf]. pose proof (run_reconciles op db Hr) as Hrun. rewrite Ep in Hrun. rewrite Hrun.
    unfold transaction. rewrite /= fetch_ensure Hf /=. unfold append_suffix.
    destruct (decide _); [by intros [= <- <-]|].
    destruct (append_from _) as [k|]; [|by intros [= <- <-]]. destruct (_ <=? _)%nat; [|done]. by intros [= <- <-].
  - intros [-> [(Hr & -> & Hne)|(Hr & persisted & Hf & Hm & k & Hk & Hlt & ->)]] [= H].
    + pose proof (run_appends op db Hr) as Hrun. rewrite Ep in Hrun. rewrite Hrun //. unfold transaction.
      rewrite -(max_seq_ensure db (op_conversation op)) insert_from_max // in H.
      destruct (_insert_messages _ _ _ _ _) as [[ids db1]|e]; by simplify_eq.
    + pose proof (run_reconciles op db Hr) as Hrun. rewrite Ep in Hrun. rewrite Hrun. unfold transaction.
      rewrite /= fetch_ensure Hf /= decide_False //. unfold append_suffix. rewrite Hk.
      rewrite -(max_seq_ensure db (op_conversation op)) insert_from_max in H.
      { intros E. apply (f_equal length) in E. rewrite length_drop /= in E. lia. }
      destruct (Nat.leb_spec (length ms) k); [lia|].
      destruct (_insert_messages _ _ _ _ _) as [[ids db1]|e]; by simplify_eq.
Qed.

(** Any other statement leaves the tables alone and reads what stands. *)
Lemma statement_goes_on op p free db p' db' :
  reads_stand db op p → statement op p free db = Some (p', db') → (∀ r, p' ≠ Finished r) →
  db' = db ∧ reads_stand db op p' ∧ holding p' = true ∧ (p = Waiting → free = true).
Proof.
  unfold reads_stand, statement. destruct (op_parts op) as [[now ms] md] eqn:Ep. intros Hp Hs Hne.
  destruct p as [| |persisted|todo seq|r0|]; [| | | |done|done].
  - destruct op as [c|? c [|m ms'] md'|? c ms' md'|? c ms' md']; destruct free; try done; simpl in Ep;
      injection Hs as <- <-; injection Ep as <- <- <-; try (by destruct (Hne (Ok []))); split_and!; auto.
  - destruct op as [c|? c ms' md'|n c ms' md'|n c ms' md']; simpl in *; rewrite ?max_seq_ensure ?fetch_ensure in Hs.
    1,2: injection Hs as <- <-; destruct Hp as [[]|[Hm Hr]]; split_and!; try done; by left.
    all: destruct (_fetch_messages db c) as [ps|e] eqn:E; injection Hs as <- <-; [|by destruct (Hne (Err e))];
      by split_and!.
  - destruct Hp as [Hr Hf]. rewrite max_seq_ensure in Hs. destruct (decide _) as [|Hm].
    { injection Hs as <- <-. by destruct (Hne (Err (report op persisted ms))). }
    destruct (append_from _) as [k|] eqn:Hk; [|injection Hs as <- <-; by destruct (Hne (Ok []))].
    destruct (Nat.leb_spec (length ms) k); injection Hs as <- <-; [by destruct (Hne (Ok []))|].
    split; [done|]. split; [|done]. split; [done|]. right. split; [done|]. exists persisted.
    split; [done|]. split; [done|]. by exists k.
  - destruct (insert_from _ _ _ _ _ _) as [[ids db1]|e]; injection Hs as <- <-;
      [by destruct (Hne (Ok ids))|by destruct (Hne (Err e))].
Qed.

(** What others commit elsewhere does not disturb it. *)
Lemma reads_stand_elsewhere db db' op p :
  db_ok db → db_ok db' → rows_of db' (op_conversation op) = rows_of db (op_conversation op) →
  reads_stand db op p → reads_stand db' op p.
Proof.
  intros Hok Hok' E. unfold reads_stand. destruct (op_parts op) as [[now ms] md].
  assert (_fetch_messages db' (op_conversation op) = _fetch_messages db (op_conversation op)) as ->.
  { unfold _fetch_messages, conversation_rows. by rewrite E. }
  assert (max_seq db' (op_conversation op) = max_seq db (op_conversation op)) as ->; [|done].
  pose proof (max_seq_spec db (op_conversation op) Hok). pose proof (max_seq_spec db' (op_conversation op) Hok').
  rewrite E in H0. lia.
Qed.
End reliance.

(** ** The system *)

Definition unfinished (p : phase) : bool := match p with Finished _ | Cancelled => false | _ => true end.

(** How many statements a writer can still make. *)
Definition statements_left (w : store_op * phase) : nat :=
  match w.2 with Waiting => 4 | Locked => 3 | HasRead _ => 2 | Numbered _ _ => 1 | Finished _ | Cancelled => 0 end.

Definition work_left (s : Writers) : nat := sum_list_with statements_left (wr_sessions s).

Section system.
Context {host : Host} {pg : Postgres} {laws : PostgresLaws}.

Definition exclusive (ws : list (store_op * phase)) : Prop :=
  ∀ c i j wi wj, ws !! i = Some wi → ws !! j = Some wj → holds c wi = true → holds c wj = true → i = j.

Record sound (ops : list store_op) (db0 : DB) (s : Writers) : Prop := {
  so_ops : (wr_sessions s).*1 = ops;
  so_db : db_ok (wr_db s);
  so_reads : ∀ i op p, wr_sessions s !! i = Some (op, p) → reads_stand (wr_db s) op p;
  so_exclusive : exclusive (wr_sessions s);
  so_serial : ∃ order, NoDup order ∧
    (∀ i, i ∈ order ↔ ∃ op r, wr_sessions s !! i = Some (op, Finished r)) ∧
    serial (wr_sessions s) order db0 (wr_db s);
}.

Lemma started_sound ops db : db_ok db → sound ops db (started ops db).
Proof.
  intros Hok. unfold started. split; simpl.
  - rewrite -list_fmap_compose. apply list_fmap_id.
  - done.
  - intros i op p Hi. apply list_lookup_fmap_Some in Hi as (op' & [= -> ->] & _).
    unfold reads_stand. by destruct (op_parts _) as [[]].
  - intros c i j wi wj Hi _ Hh. apply list_lookup_fmap_Some in Hi as (op' & -> & _).
    unfold holds in Hh. by rewrite andb_false_r in Hh.
  - exists []. split; [constructor|]. split; [|constructor]. intros i. split; [set_solver|].
    intros (op & r & Hi). by apply list_lookup_fmap_Some in Hi as (? & ? & _).
Qed.

Lemma row_free_spec c s j w : row_free c s = true → wr_sessions s !! j = Some w → holds c w = false.
Proof.
  unfold row_free. rewrite forallb_forall. intros H Hj. apply negb_true_iff, H.
  apply list_elem_of_In. by eapply list_elem_of_lookup_2.
Qed.

Lemma serial_insert ws order db db' i op p w :
  ws !! i = Some (op, p) → unfinished p = true → serial ws order db db' → serial (<[i := w]> ws) order db db'.
Proof.
  intros Hi Hp. induction 1 as [|order j op' r db db1 db2 _ IH Hj Hrun]; [constructor|].
  econstructor; [exact IH| |exact Hrun]. rewrite list_lookup_insert_ne //.
  intros <-. rewrite Hi in Hj. simplify_eq/=.
Qed.

(** One writer moves to a phase that does not hold the row if it did not, and its
    reads stand, while the tables stay. *)
Lemma sound_still ops db0 s i op p p' :
  sound ops db0 s → wr_sessions s !! i = Some (op, p) → unfinished p = true →
  (∀ r, p' ≠ Finished r) → reads_stand (wr_db s) op p' →
  (holding p' = true → holding p = true ∨ row_free (op_conversation op) s = true) →
  sound ops db0 (MkWriters (wr_db s) (<[i := (op, p')]> (wr_sessions s))).
Proof.
  intros [Hops Hdb Hreads Hex (order & Hnd & Hin & Hser)] Hi Hu Hne Hr Hh. split; simpl.
  - rewrite list_fmap_insert /= Hops. apply list_insert_id. by rewrite -Hops list_lookup_fmap Hi.
  - done.
  - intros j op' q Hj. destruct (decide (i = j)) as [<-|Hij].
    + rewrite list_lookup_insert_eq in Hj; [by eapply lookup_lt_Some|]. by simplify_eq.
    + rewrite list_lookup_insert_ne // in Hj. by apply (Hreads j).
  - assert (∀ c j wj, wr_sessions s !! j = Some wj → i ≠ j → holds c (op, p') = true → holds c wj = true → False) as Hclash.
    { intros c j wj Hj Hij Hp' Hwj. pose proof Hp' as Hp''. unfold holds in Hp'. simpl in Hp'.
      apply andb_true_iff in Hp' as [Hc Hp']. apply bool_decide_eq_true in Hc. destruct (Hh Hp') as [Hp|Hfree].
      - apply Hij. eapply (Hex c); [exact Hi|exact Hj| |exact Hwj]. unfold holds. simpl.
        by rewrite bool_decide_eq_true_2.
      - rewrite Hc in Hfree. by rewrite (row_free_spec _ _ _ _ Hfree Hj) in Hwj. }
    intros c j k wj wk Hj Hk Hwj Hwk.
    apply list_lookup_insert_Some in Hj as [(<- & <- & _)|[Hij Hj]];
      apply list_lookup_insert_Some in Hk as [(<- & <- & _)|[Hik Hk]]; [done|..].
    + by destruct (Hclash c k wk).
    + by destruct (Hclash c j wj).
    + by eapply Hex.
  - exists order. split; [done|]. split; [|by eapply serial_insert].
    intros j. rewrite Hin. destruct (decide (i = j)) as [<-|Hij]; [|by rewrite list_lookup_insert_ne].
    rewrite list_lookup_insert_eq; [by eapply lookup_lt_Some|]. rewrite Hi.
    split; intros (op1 & r & [= <- ->]); [done|by destruct (Hne r)].
Qed.

(** One writer ends: it is the last in the order. *)
Lemma sound_ends ops db0 s i op p r db' :
  sound ops db0 s → Forall op_wf ops → wr_sessions s !! i = Some (op, p) → unfinished p = true →
  run_op op (wr_db s) = (r, db') →
  (holding p = true ∨ row_free (op_conversation op) s = true ∨ db' = wr_db s) →
  sound ops db0 (MkWriters db' (<[i := (op, Finished r)]> (wr_sessions s))).
Proof.
  intros Hs Hwf Hi Hu Hrun Hlock. pose proof Hs as [Hops Hdb Hreads Hex (order & Hnd & Hin & Hser)].
  assert (op_wf op) as Hop.
  { rewrite Forall_lookup in Hwf. apply (Hwf i). by rewrite -Hops list_lookup_fmap Hi. }
  pose proof (run_op_ok op (wr_db s) Hdb Hop) as Hstep. rewrite Hrun in Hstep. destruct Hstep as [Hok' _ Hothers _].
  simpl in *.
  destruct (sound_still ops db0 s i op p Cancelled Hs Hi Hu) as [Hops' _ _ Hex' _]; [done|..|done|].
  { unfold reads_stand. by destruct (op_parts op) as [[]]. }
  simpl in Hops', Hex'. split; simpl.
  - rewrite -Hops' !list_fmap_insert //.
  - done.
  - intros j op' q Hj. apply list_lookup_insert_Some in Hj as [(<- & [= <- <-] & _)|[Hij Hj]].
    { unfold reads_stand. by destruct (op_parts op) as [[]]. }
    destruct (decide (op_conversation op' = op_conversation op)) as [Ec|Ec].
    2: { eapply reads_stand_elsewhere; [exact Hdb|done| |by apply (Hreads j)]. by apply Hothers. }
    destruct Hlock as [Hp|[Hfree| ->]]; [..|by apply (Hreads j)];
      (assert (holding q = false); [|unfold reads_stand; destruct (op_parts op') as [[]]; by destruct q]).
    + destruct (holding q) eqn:Eq; [|done]. destruct Hij.
      eapply (Hex (op_conversation op)); [exact Hi|exact Hj|..]; unfold holds; simpl; by rewrite bool_decide_eq_true_2.
    + pose proof (row_free_spec _ _ _ _ Hfree Hj) as Hh. unfold holds in Hh. simpl in Hh.
      by rewrite bool_decide_eq_true_2 in Hh.
  - intros c j k wj wk Hj Hk Hwj Hwk.
    apply list_lookup_insert_Some in Hj as [(<- & <- & _)|[Hij Hj]]; [by rewrite /holds andb_false_r in Hwj|].
    apply list_lookup_insert_Some in Hk as [(<- & <- & _)|[Hik Hk]]; [by rewrite /holds andb_false_r in Hwk|].
    by eapply Hex.
  - exists (order ++ [i]). split; [|split].
    + apply NoDup_app. split; [done|]. split; [|apply NoDup_singleton].
      intros j Hj%Hin ->%list_elem_of_singleton. destruct Hj as (? & ? & ?). by simplify_eq.
    + intros j. rewrite elem_of_app list_elem_of_singleton Hin. destruct (decide (i = j)) as [<-|Hij].
      * rewrite list_lookup_insert_eq; [by eapply lookup_lt_Some|]. naive_solver.
      * rewrite list_lookup_insert_ne //. naive_solver.
    + econstructor; [by eapply serial_insert| |exact Hrun].
      rewrite list_lookup_insert_eq //. by eapply lookup_lt_Some.
Qed.
Lemma advance_inv i s s' :
  advance i s = Some s' →
  ∃ op p p' db', wr_sessions s !! i = Some (op, p) ∧
    statement op p (row_free (op_conversation op) s) (wr_db s) = Some (p', db') ∧
    s' = MkWriters db' (<[i := (op, p')]> (wr_sessions s)).
Proof.
  unfold advance. destruct (wr_sessions s !! i) as [[op p]|]; [|done]. simpl.
  destruct (statement _ _ _ _) as [[p' db']|] eqn:E; [|done]. intros [= <-]. by exists op, p, p', db'.
Qed.

Lemma statement_unfinished op p free db p' db' : statement op p free db = Some (p', db') → unfinished p = true.
Proof. unfold statement. destruct (op_parts op) as [[]]. by destruct p. Qed.

(** A statement that ends a writer either holds the row, or finds it free, or has
    nothing to do. *)
Lemma statement_lock op p free db r db' :
  statement op p free db = Some (Finished r, db') → holding p = true ∨ free = true ∨ db' = db.
Proof.
  unfold statement. destruct p; try (by left); [|by destruct (op_parts op) as [[]]..].
  destruct op as [c|? c [|m ms] md|? c ms md|? c ms md], free; simpl; intros [=]; auto.
Qed.

Lemma advance_sound ops db0 i s s' :
  sound ops db0 s → Forall op_wf ops → advance i s = Some s' → sound ops db0 s'.
Proof.
  intros Hs Hwf (op & p & p' & db' & Hi & E & ->)%advance_inv. pose proof (statement_unfinished _ _ _ _ _ _ E) as Hu.
  pose proof (so_reads _ _ _ Hs i op p Hi) as Hr.
  assert ((∀ r, p' ≠ Finished r) ∨ ∃ r, p' = Finished r) as [Hne|[r ->]] by (destruct p'; eauto).
  - destruct (statement_goes_on _ _ _ _ _ _ Hr E Hne) as (-> & Hr' & Hh & Hfree).
    eapply sound_still; [done..|]. intros _. destruct (holding p) eqn:Ep; [by left|right]. apply Hfree. by destruct p.
  - eapply sound_ends; [done..|by eapply statement_ends|by eapply statement_lock].
Qed.

Lemma cancel_sound ops db0 i s s' : sound ops db0 s → cancel i s = Some s' → sound ops db0 s'.
Proof.
  intros Hs. unfold cancel. destruct (wr_sessions s !! i) as [[op p]|] eqn:Hi; [|done]. simpl.
  intros Hc. assert (unfinished p = true ∧ s' = MkWriters (wr_db s) (<[i:=(op, Cancelled)]> (wr_sessions s))) as [Hu ->].
  { destruct p; try discriminate Hc; by injection Hc as <-. }
  eapply sound_still; [done..| |done]. unfold reads_stand. by destruct (op_parts op) as [[]].
Qed.

Lemma turns_sound ops db ts :
  db_ok db → Forall op_wf ops → sound ops db (run_turns ts (started ops db)).
Proof.
  intros Hok Hwf. unfold run_turns. generalize (started_sound ops db Hok). generalize (started ops db).
  induction ts as [|t ts IH]; intros s Hs; [done|]. simpl. apply IH. unfold take_turn.
  destruct t as [i|i]; [destruct (advance i s) eqn:E|destruct (cancel i s) eqn:E]; simpl; try done.
  - by eapply advance_sound.
  - by eapply cancel_sound.
Qed.

(** *** Progress *)

Lemma holding_advances i op p s :
  wr_sessions s !! i = Some (op, p) → holding p = true → is_Some (advance i s).
Proof.
  intros Hi Hp. unfold advance. rewrite Hi. simpl.
  assert (is_Some (statement op p (row_free (op_conversation op) s) (wr_db s))) as [[p' db'] ->]; [|by eexists].
  unfold statement. destruct (op_parts op) as [[now ms] md]. destruct p as [| |persisted|todo seq| |]; try done.
  - by destruct op.
  - destruct (decide _); [done|]. destruct (append_from _) as [k|]; [|done]. by destruct (_ <=? _)%nat.
Qed.

(** Some writer can move while any is left: the one that holds the row, if there is
    one, and else whoever waits for it. *)
Lemma some_advance i op p s :
  wr_sessions s !! i = Some (op, p) → unfinished p = true → ∃ j, is_Some (advance j s).
Proof.
  intros Hi Hu. destruct (holding p) eqn:Hp; [exists i; by eapply holding_advances|].
  destruct (row_free (op_conversation op) s) eqn:Hf.
  - exists i. unfold advance. rewrite Hi /= Hf. destruct p; try done.
    unfold statement. destruct (op_parts op) as [[]]. by destruct op as [|? ? [|? ?] ?| |].
  - unfold row_free in Hf. apply not_true_iff_false in Hf.
    destruct (existsb (holds (op_conversation op)) (wr_sessions s)) eqn:Ex.
    + apply existsb_exists in Ex as ([op' q] & Hin%list_elem_of_In & Hq).
      apply list_elem_of_lookup_1 in Hin as [j Hj]. exists j. eapply holding_advances; [exact Hj|].
      unfold holds in Hq. by apply andb_true_iff in Hq as [_ ?].
    + destruct Hf. apply forallb_forall. intros w Hw. apply negb_true_iff.
      destruct (holds _ w) eqn:Eh; [|done]. rewrite -Ex. symmetry. apply existsb_exists. by exists w.
Qed.

Lemma advance_works i s s' : advance i s = Some s' → (work_left s' < work_left s)%nat.
Proof.
  intros (op & p & p' & db' & Hi & E & ->)%advance_inv. unfold work_left. simpl.
  enough (statements_left (op, p') < statements_left (op, p))%nat as Hless.
  { pose proof (sum_list_with_insert statements_left _ _ _ (op, p') Hi). lia. }
  revert E.
  generalize (row_free (op_conversation op) s). intros free. unfold statement. destruct (op_parts op) as [[now ms] md].
  unfold statements_left. simpl. destruct p as [| |persisted|todo seq| |]; [| | | |done|done].
  - destruct op as [c|? c [|m ms'] md'|? c ms' md'|? c ms' md'], free; intros [= <- <-]; lia.
  - destruct op; [..|destruct (_fetch_messages _ _)|destruct (_fetch_messages _ _)]; intros [= <- <-]; lia.
  - destruct (decide _); [intros [= <- <-]; lia|]. destruct (append_from _) as [k|]; [|intros [= <- <-]; lia].
    destruct (_ <=? _)%nat; intros [= <- <-]; lia.
  - destruct (insert_from _ _ _ _ _ _) as [[]|]; intros [= <- <-]; lia.
Qed.

(** C9: Writers of the store serialise.  Let any number of writers run statement by
    statement in any order, some cut off before they end.  Then the committed tables
    and the results are those of the writers that ended, each run alone as one
    atomic transaction, in some order; a writer that was cut off or has not ended left
    no trace; the row of a conversation is never held twice; and while a writer is
    left some writer can move, which it does at most four times. *)
Theorem writers_serialize ops db ts :
  db_ok db → Forall op_wf ops →
  let s := run_turns ts (started ops db) in
  (wr_sessions s).*1 = ops ∧
  (∃ order, NoDup order ∧
    (∀ i, i ∈ order ↔ ∃ op r, wr_sessions s !! i = Some (op, Finished r)) ∧
    serial (wr_sessions s) order db (wr_db s)) ∧
  exclusive (wr_sessions s) ∧
  (∀ i op p, wr_sessions s !! i = Some (op, p) → unfinished p = true → ∃ j, is_Some (advance j s)) ∧
  (∀ i s', advance i s = Some s' → (work_left s' < work_left s)%nat) ∧
  (work_left s ≤ 4 * length ops)%nat.
Proof.
  intros Hok Hwf s. destruct (turns_sound ops db ts Hok Hwf) as [Hops _ _ Hex Hser]. fold s in Hops, Hex, Hser.
  split; [exact Hops|]. split; [exact Hser|]. split; [exact Hex|]. split; [intros i op p; apply some_advance|].
  split; [intros i s'; apply advance_works|]. rewrite -Hops length_fmap. unfold work_left. clear. induction (wr_sessions s) as [|[op p] ws IH]; simpl; [lia|].
  assert (statements_left (op, p) ≤ 4)%nat by (destruct p; unfold statements_left; simpl; lia). lia.
Qed.
End system.

(** ** Two retries *)

#[local] Instance sample_postgres : Postgres := {|
  jsonb v := Ok v;
  uuid_at n := Z.of_nat n;
|}.

(** Two retries of the same request and a writer of another conversation. *)
Definition sample_writers : list store_op :=
  [OpReconcile 1 "conv" [chat_message "user" "hi"] None; OpReconcile 2 "conv" [chat_message "user" "hi"] None;
   OpAppend 3 "other" [chat_message "user" "hello"] None].

(** The second waits while the first holds the row, and then reads what it committed. *)
Definition sample_turns : list turn :=
  [Advance 0; Advance 1; Advance 2; Advance 0; Advance 2; Advance 1; Advance 0; Advance 2; Advance 0;
   Advance 1; Advance 1; Advance 1].

Example retries_store_once :
  let s := run_turns (host:=sample_host) sample_turns (started sample_writers empty_db) in
  ((wr_sessions s).*2, (λ r, (m_conversation r, m_seq r)) <$> db_messages (wr_db s))
  = ([Finished (Ok [1]); Finished (Ok []); Finished (Ok [0])], [("other", 0); ("conv", 0)]).
Proof. vm_compute. reflexivity. Qed.

Lemma all_finished (ops : list store_op) (rs : list (res (list Z))) order :
  length ops = length rs → NoDup order →
  (∀ i, i ∈ order ↔ ∃ op r, zip ops (Finished <$> rs) !! i = Some (op, Finished r)) →
  length order = length rs.
Proof.
  intros Hlen Hnd Hin. assert (order ≡ₚ seq 0 (length rs)) as ->; [|by rewrite length_seq].
  apply NoDup_Permutation; [done|apply NoDup_seq|]. intros i. rewrite Hin elem_of_seq. split.
  - intros (op & r & Hi). apply lookup_zip_with_Some in Hi as (? & ? & _ & _ & Hr).
    rewrite list_lookup_fmap in Hr. destruct (rs !! i) eqn:E; [|done]. apply lookup_lt_Some in E. lia.
  - intros [_ Hi]. destruct (lookup_lt_is_Some_2 rs i Hi) as [r Hr].
    destruct (lookup_lt_is_Some_2 ops i) as [op Hop]; [lia|]. exists op, r.
    apply lookup_zip_with_Some. exists op, (Finished r). by rewrite list_lookup_fmap Hr.
Qed.

Lemma sample_sessions i :
  (∃ op r, wr_sessions (run_turns (host:=sample_host) (pg:=sample_postgres) sample_turns (started sample_writers empty_db))
             !! i = Some (op, Finished r)) ↔
  ∃ op r, zip sample_writers (Finished <$> [Ok [1]; Ok []; Ok [0]]) !! i = Some (op, Finished r).
Proof.
  assert (wr_sessions (run_turns (host:=sample_host) (pg:=sample_postgres) sample_turns (started sample_writers empty_db))
    = zip sample_writers (Finished <$> [Ok [1]; Ok []; Ok [0]])) as E by (vm_compute; reflexivity).
  by rewrite E.
Qed.

Lemma writers_serialize_witness :
  let s := run_turns (host:=sample_host) (pg:=sample_postgres) sample_turns (started sample_writers empty_db) in
  ∃ order, NoDup order ∧ length order = 3%nat ∧
    serial (host:=sample_host) (pg:=sample_postgres) (wr_sessions s) order empty_db (wr_db s).
Proof.
  intros s. destruct (writers_serialize (host:=sample_host) (pg:=sample_postgres) (laws:=sample_laws)
    sample_writers empty_db sample_turns) as (_ & (order & Hnd & Hin & Hser) & _).
  - apply empty_db_ok.
  - repeat constructor; set_solver.
  - exists order. split; [exact Hnd|]. split; [|exact Hser].
    apply (all_finished sample_writers [Ok [1]; Ok []; Ok [0]]); [reflexivity|exact Hnd|].
    intros i. rewrite Hin. apply sample_sessions.
Defined.
