(* ===== verification/Validation.v ===== *)
(** * Payload validation ([api/validation.py])

    The structural checks a chat-completions payload passes before anything
    else looks at it, in the order in which they raise. *)

From stdpp Require Import pretty.
From S2P Require Import Prelude PyDict PyString Json Tokens Planner.
Local Open Scope Z_scope.

Definition _reject (message : string) : exn := PayloadValidationError message.

(** [raise] unless the condition holds. *)
Definition require (ok : bool) (message : string) : res () :=
  if ok then Ok () else Err (_reject message).

(** [for i, x in enumerate(l)] over a body that only raises *)
Fixpoint check_enum {A} (check : nat → A → res ()) (index : nat) (l : list A) : res () :=
  match l with
  | [] => Ok ()
  | x :: l' => _ ← check index x; check_enum check (S index) l'
  end.

Definition at_index (where_ : string) (index : nat) : string :=
  where_ +:+ "[" +:+ pretty (Z.of_nat index) +:+ "]".

Definition nonempty_str (v : json) : bool :=
  match v with JStr s => snonempty s | _ => false end.

Definition dict_of (v : json) : obj := match v with JObj d => d | _ => [] end.

Definition function_parameters_or_none (tool_type : json) (container : obj) : json :=
  if eq_str tool_type "function" then oget container "parameters" else JNull.

Definition _validate_tool (tool : json) (where_ : string) : res () :=
  _ ← require (is_dict tool) (where_ +:+ " must be an object");
  let tool := dict_of tool in
  let tool_type := oget tool "type" in
  _ ← require (nonempty_str tool_type) (where_ +:+ ".type must be a non-empty string");
  if negb (eq_str tool_type "function") && negb (eq_str tool_type "custom") then Ok ()
  else
    let container_key := if eq_str tool_type "function" then "function" else "custom" in
    let container := oget tool container_key in
    _ ← require (is_dict container)
          (where_ +:+ "." +:+ container_key +:+ " must be an object for "
           +:+ container_key +:+ " tools");
    let container := dict_of container in
    _ ← require (nonempty_str (oget container "name"))
          (where_ +:+ "." +:+ container_key +:+ ".name must be a non-empty string");
    let description := oget container "description" in
    _ ← require (is_none description || is_str description)
          (where_ +:+ "." +:+ container_key +:+ ".description must be a string when present");
    let parameters := function_parameters_or_none tool_type container in
    require (is_none parameters || is_dict parameters)
      (where_ +:+ "." +:+ container_key +:+ ".parameters must be an object when present").

(** The container that a call must carry, with its key. *)
Definition call_container (call : obj) (call_where : string) : res (json * string) :=
  let call_type := oget call "type" in
  if eq_str call_type "custom" then Ok (oget call "custom", "custom")
  else if eq_str call_type "function" then Ok (oget call "function", "function")
  else if dmem call "function" then Ok (oget call "function", "function")
  else if dmem call "custom" then Ok (oget call "custom", "custom")
  else Err (_reject (call_where +:+ " must carry a 'function' or 'custom' payload")).

(** A call type that is a string but none of the known ones. *)
Definition opaque_call (call : obj) : bool :=
  let call_type := oget call "type" in
  is_str call_type && negb (eq_str call_type "function") && negb (eq_str call_type "custom").

Definition validate_tool_call (where_ : string) (index : nat) (call : json) : res () :=
  let call_where := at_index where_ index in
  _ ← require (is_dict call) (call_where +:+ " must be an object");
  let call := dict_of call in
  let call_id := oget call "id" in
  _ ← require (is_none call_id || is_str call_id)
        (call_where +:+ ".id must be a string when present");
  if opaque_call call then Ok ()
  else
    found ← call_container call call_where;
    let '(container, key) := found in
    _ ← require (is_dict container) (call_where +:+ "." +:+ key +:+ " must be an object");
    let container := dict_of container in
    _ ← require (nonempty_str (oget container "name"))
          (call_where +:+ "." +:+ key +:+ ".name must be a non-empty string");
    let payload_key := if bool_decide (key = "function") then "arguments" else "input" in
    let payload := oget container payload_key in
    require (is_none payload || is_str payload)
      (call_where +:+ "." +:+ key +:+ "." +:+ payload_key +:+ " must be a string when present").

Definition _validate_tool_calls (tool_calls : list json) (where_ : string) : res () :=
  check_enum (validate_tool_call where_) 0 tool_calls.

Definition _validate_message (index : nat) (message : json) : res () :=
  let where_ := at_index "messages" index in
  _ ← require (is_dict message) (where_ +:+ " must be an object");
  let message := dict_of message in
  _ ← require (nonempty_str (oget message "role"))
        (where_ +:+ ".role must be a non-empty string");
  let content := oget message "content" in
  _ ← require (is_none content || is_str content || is_list content)
        (where_ +:+ ".content must be a string, array, or null");
  _ ← match content with
      | JList parts =>
          check_enum (λ part_index part,
            require (is_dict part)
              (at_index (where_ +:+ ".content") part_index +:+ " must be an object")) 0 parts
      | _ => Ok ()
      end;
  match oget message "tool_calls" with
  | JNull => Ok ()
  | JList tool_calls => _validate_tool_calls tool_calls where_
  | _ => Err (_reject (where_ +:+ ".tool_calls must be an array when present"))
  end.

Definition validate_chat_payload (payload : json) : res () :=
  _ ← require (is_dict payload) "request body must be a JSON object";
  let payload := dict_of payload in
  messages ← match oget payload "messages" with
             | JList l => Ok l
             | _ => Err (_reject "'messages' must be an array of message objects")
             end;
  _ ← require (match messages with [] => false | _ => true end) "'messages' must not be empty";
  _ ← check_enum _validate_message 0 messages;
  _ ← match oget payload "tools" with
      | JNull => Ok ()
      | JList tools => check_enum (λ index tool, _validate_tool tool (at_index "tools" index)) 0 tools
      | _ => Err (_reject "'tools' must be an array when present")
      end;
  let stream := oget payload "stream" in
  _ ← require (is_none stream || is_bool stream) "'stream' must be a boolean when present";
  match oget payload "n" with
  | JNull => Ok ()
  | JInt n => require (n <=? 1) "only n=1 is supported by this proxy"
  | _ => Err (_reject "'n' must be an integer when present")
  end.

(** ** What an accepted payload looks like *)

Lemma require_inv b msg : require b msg = Ok () → b = true.
Proof. unfold require. by destruct b. Qed.

(** Inverts a successful sequence of checks. *)
Ltac inv_checks :=
  inv_res;
  repeat match goal with
  | u : () |- _ => destruct u
  | H : require _ _ = Ok () |- _ => apply require_inv in H
  end; simpl in *.

Lemma check_enum_inv {A} (check : nat → A → res ()) i l :
  check_enum check i l = Ok () → ∀ x, x ∈ l → ∃ j, check j x = Ok ().
Proof.
  revert i. induction l as [|y l IH]; simpl; intros i H x; [set_solver|].
  inv_checks. intros [->|Hx]%elem_of_cons; eauto.
Qed.

(** The shape of an accepted message. *)
Record valid_message (m : obj) : Prop := {
  vm_role : ∃ role, oget m "role" = JStr role ∧ role ≠ EmptyString;
  vm_content : is_none (oget m "content") || is_str (oget m "content")
               || is_list (oget m "content") = true;
  vm_parts : ∀ parts, oget m "content" = JList parts → Forall (λ p, is_dict p = true) parts;
  vm_calls : oget m "tool_calls" = JNull ∨
    ∃ calls, oget m "tool_calls" = JList calls ∧ Forall (λ c, is_dict c = true) calls;
  vm_known_calls : ∀ calls c, oget m "tool_calls" = JList calls → JObj c ∈ calls →
    opaque_call c = false →
    (∃ f, oget c "function" = JObj f ∧ nonempty_str (oget f "name") = true) ∨
    (∃ f, oget c "custom" = JObj f ∧ nonempty_str (oget f "name") = true);
}.

Lemma nonempty_str_inv v : nonempty_str v = true → ∃ s, v = JStr s ∧ s ≠ EmptyString.
Proof. destruct v as [| | | |s| |]; try done. destruct s; [done|]. simpl. eauto. Qed.

Lemma validate_tool_call_inv w i call :
  validate_tool_call w i call = Ok () →
  ∃ c, call = JObj c ∧
    (opaque_call c = false →
     (∃ f, oget c "function" = JObj f ∧ nonempty_str (oget f "name") = true) ∨
     (∃ f, oget c "custom" = JObj f ∧ nonempty_str (oget f "name") = true)).
Proof.
  unfold validate_tool_call. intros H. inv_checks. destruct call as [| | | | | |c]; try done.
  exists c. split; [done|]. intros Hop. simpl in *. rewrite Hop in Hk0.
  inv_checks. destruct a as [container key]. inv_checks.
  destruct container as [| | | | | |f]; try done. simpl in *.
  unfold call_container in Hok1. repeat case_match; inv_res; eauto.
Qed.

Lemma _validate_message_inv i message :
  _validate_message i message = Ok () → ∃ m, message = JObj m ∧ valid_message m.
Proof.
  unfold _validate_message. intros H. inv_checks.
  destruct message as [| | | | | |m]; try done. exists m. split; [done|]. simpl in *.
  apply nonempty_str_inv in Hok0. split; try done.
  - intros parts Hp. rewrite Hp in Hok2. apply Forall_forall. intros part Hin.
    destruct (check_enum_inv _ _ _ Hok2 _ Hin) as [j ?%require_inv]. done.
  - destruct (oget m "tool_calls") as [| | | | |calls|]; try done; [by left|].
    right. exists calls. split; [done|]. apply Forall_forall. intros c Hc.
    destruct (check_enum_inv _ _ _ Hk0 _ Hc) as [j (d & -> & _)%validate_tool_call_inv]. done.
  - intros calls c Hcalls Hc Hop. rewrite Hcalls in Hk0.
    destruct (check_enum_inv _ _ _ Hk0 _ Hc) as [j (d & [= <-] & Hd)%validate_tool_call_inv].
    auto.
Qed.

Lemma valid_roles ms : Forall valid_message ms → roles_hashable ms.
Proof.
  intros H. eapply Forall_impl; [exact H|]. intros m [(role & Hr & _) _ _ _ _].
  unfold is_instruction. by rewrite Hr.
Qed.

(** ** Counting accepted messages *)

(** The fields that validation leaves unchecked have a length, and a stray
    [function] of a call is a dict with a countable name. *)
Definition countable_field (v : json) : bool := negb (truthy v) || is_ok (py_len v).

Definition countable_call (c : obj) : bool :=
  match py_or (oget c "function") (JObj []) with
  | JObj f => countable_field (oget f "name")
  | _ => false
  end.

Record countable_extras (m : obj) : Prop := {
  ce_id : countable_field (oget m "tool_call_id") = true;
  ce_name : countable_field (oget m "name") = true;
  ce_calls : ∀ calls c, oget m "tool_calls" = JList calls → JObj c ∈ calls →
    countable_call c = true;
}.

Section counting.
Context {host : Host}.

Lemma text_ok v : countable_field v = true → ∃ t, TokenCounter_text v = Ok t.
Proof.
  unfold countable_field, TokenCounter_text. destruct (truthy v); simpl; [|eauto].
  destruct (py_len v); simpl; [eauto|done].
Qed.

Lemma field_ok m k : countable_field (oget m k) = true → ∃ t, field_tokens m k = Ok t.
Proof. intros H. unfold field_tokens. destruct (truthy _); [by apply text_ok|eauto]. Qed.

Lemma call_ok c : countable_call c = true → ∃ t, tool_call_tokens (JObj c) = Ok t.
Proof.
  unfold countable_call, tool_call_tokens. simpl.
  destruct (py_or _ _) as [| | | | | |f]; try done. intros [t Ht]%text_ok. simpl.
  rewrite Ht /=. destruct (serialized_ok (oget f "arguments")) as (t' & -> & _). simpl. eauto.
Qed.

Lemma calls_ok calls :
  Forall (λ c, is_dict c = true) calls → (∀ c, JObj c ∈ calls → countable_call c = true) →
  ∃ ts, mapM tool_call_tokens calls = Ok ts.
Proof.
  induction 1 as [|c calls Hc _ IH]; intros Hall; simpl; [eauto|].
  destruct c as [| | | | | |d]; try done.
  destruct (call_ok d) as [t ->]; [apply Hall; left|].
  destruct IH as [ts ->]; [|simpl; eauto]. intros c Hin. apply Hall. by right.
Qed.

Lemma valid_countable m :
  valid_message m → countable_extras m → is_ok (TokenCounter_message m) = true.
Proof.
  intros [_ _ _ Hcalls _] [Hid Hname Hextra]. unfold TokenCounter_message.
  destruct (serialized_ok (oget m "content")) as (t & -> & _). simpl.
  assert (∃ calls, py_iter (py_or (oget m "tool_calls") (JList [])) = Ok calls ∧
    Forall (λ c, is_dict c = true) calls ∧ ∀ c, JObj c ∈ calls → countable_call c = true)
    as (calls & -> & Hd & Hc).
  { destruct Hcalls as [Hn|(calls & Hn & Hd)]; rewrite Hn.
    - exists []. split_and!; [done|constructor|set_solver].
    - exists calls. rewrite Hn in Hextra. split; [by destruct calls|]. split; [done|].
      intros c. by apply Hextra. }
  simpl. destruct (calls_ok calls Hd Hc) as [ts ->]. simpl.
  destruct (field_ok _ _ Hid) as [t1 ->], (field_ok _ _ Hname) as [t2 ->]. done.
Qed.

(** *** The payload as a whole *)

Lemma validate_inv payload :
  validate_chat_payload payload = Ok () →
  ∃ d ms, payload = JObj d ∧ oget d "messages" = JList (JObj <$> ms) ∧ ms ≠ [] ∧
    Forall valid_message ms ∧ roles_hashable ms ∧
    (oget d "tools" = JNull ∨
     ∃ tools, oget d "tools" = JList tools ∧ Forall (λ t, is_dict t = true) tools) ∧
    (oget d "stream" = JNull ∨ ∃ b, oget d "stream" = JBool b) ∧
    (oget d "n" = JNull ∨ ∃ n, oget d "n" = JInt n ∧ n ≤ 1).
Proof.
  unfold validate_chat_payload. intros H. inv_checks.
  destruct payload as [| | | | | |d]; try done. simpl in *.
  destruct (oget d "messages") as [| | | | |l|] eqn:Em; try done. inv_checks. rename a0 into l.
  assert (∃ ms, l = JObj <$> ms ∧ Forall valid_message ms) as (ms & -> & Hms).
  { assert (Forall (λ m, ∃ x, m = JObj x ∧ valid_message x) l) as Hl.
    { apply Forall_forall. intros m Hm.
      destruct (check_enum_inv _ _ _ Hok2 _ Hm) as [j Hj]. by apply _validate_message_inv in Hj. }
    clear -Hl. induction Hl as [|m l (x & -> & Hx) _ (ms & -> & IH)]; [by exists []|].
    exists (x :: ms). split; [done|by constructor]. }
  exists d, ms. split_and!; try done.
  - by destruct ms.
  - by apply valid_roles.
  - destruct (oget d "tools") as [| | | | |tools|] eqn:Et; try done; [by left|]. right.
    exists tools. split; [done|]. apply Forall_forall. intros t Ht.
    destruct (check_enum_inv _ _ _ Hok3 _ Ht) as [j Hj]. unfold _validate_tool in Hj.
    inv_checks. done.
  - destruct (oget d "stream"); try done; eauto.
  - destruct (oget d "n"); try done; [by left|]. inv_checks. right. eexists. split; [done|].
    by apply Z.leb_le.
Qed.

(** C22: an accepted payload has the shape the rest of the program relies
    on: a non-empty list of dict messages with string roles, string, null or
    list-of-dict contents and dict tool calls, a list of dict tools and at
    most one choice. *)
Theorem validate_chat_payload_sound payload :
  validate_chat_payload payload = Ok () →
  ∃ d ms, payload = JObj d ∧ oget d "messages" = JList (JObj <$> ms) ∧ ms ≠ [] ∧
    Forall valid_message ms ∧ roles_hashable ms ∧
    (oget d "tools" = JNull ∨
     ∃ tools, oget d "tools" = JList tools ∧ Forall (λ t, is_dict t = true) tools) ∧
    (oget d "stream" = JNull ∨ ∃ b, oget d "stream" = JBool b) ∧
    (oget d "n" = JNull ∨ ∃ n, oget d "n" = JInt n ∧ n ≤ 1).
Proof. apply validate_inv. Qed.

(** Messages that passed validation can always be segmented and counted,
    provided the fields validation does not look at ([tool_call_id], [name]
    and the unused container of a call) have a length. *)
Theorem validated_messages_countable payload d ms :
  validate_chat_payload payload = Ok () → payload = JObj d →
  oget d "messages" = JList (JObj <$> ms) → Forall countable_extras ms →
  countable_messages ms ∧ ∃ units, segment_messages ms = Ok units.
Proof.
  intros Hv -> Hm Hex.
  destruct (validate_inv _ Hv) as (d' & ms' & [= <-] & Hm' & _ & Hvalid & Hroles & _).
  assert (ms' = ms) as ->.
  { rewrite Hm in Hm'. injection Hm' as E. symmetry. clear -E. revert ms' E.
    induction ms as [|m ms IH]; intros [|m' ms'] E; simplify_eq/=; [done|]. f_equal. auto. }
  assert (countable_messages ms) as Hc.
  { unfold countable_messages. clear -Hvalid Hex.
    induction Hvalid as [|m ms Hm _ IH]; inversion_clear Hex; constructor; auto.
    by apply valid_countable. }
  split; [done|]. by apply segment_messages_ok.
Qed.
End counting.

(** the proviso is needed: a payload that validation accepts, on which
    counting tokens raises, so the request ends in an internal error. *)
Example validated_payload_can_raise :
  ∃ m, validate_chat_payload (JObj [("messages", JList [JObj m])]) = Ok () ∧
    TokenCounter_message (host:=sample_host) m = Err TypeError.
Proof.
  exists [("role", JStr "tool"); ("content", JStr "42"); ("tool_call_id", JInt 5)].
  split; vm_compute; reflexivity.
Qed.

(** ** Witnesses *)

Definition sample_valid_message : obj :=
  [("role", JStr "assistant"); ("content", JList [JObj [("type", JStr "text"); ("text", JStr "hi")]]);
   ("tool_calls", JList [JObj [("id", JStr "c1"); ("type", JStr "function");
      ("function", JObj [("name", JStr "f"); ("arguments", JStr "{}")])]])].

Definition sample_payload : obj :=
  [("model", JStr "m"); ("messages", JList [JObj sample_valid_message]); ("n", JInt 1)].

Lemma validate_chat_payload_sound_witness :
  ∃ d ms, JObj sample_payload = JObj d ∧ oget d "messages" = JList (JObj <$> ms) ∧ ms ≠ [] ∧
    Forall valid_message ms.
Proof.
  destruct (validate_chat_payload_sound (JObj sample_payload))
    as (d & ms & H1 & H2 & H3 & H4 & _); [vm_compute; reflexivity|].
  exists d, ms. auto.
Defined.

Lemma validated_messages_countable_witness :
  countable_messages (host:=sample_host) [sample_valid_message] ∧
  ∃ units, segment_messages (host:=sample_host) [sample_valid_message] = Ok units.
Proof.
  apply (validated_messages_countable (host:=sample_host) (JObj sample_payload) sample_payload).
  - vm_compute. reflexivity.
  - reflexivity.
  - reflexivity.
  - repeat constructor. intros calls c [= <-] [[= ->]|[]%not_elem_of_nil]%elem_of_cons.
    reflexivity.
Defined.
