(* ===== verification/Resilience.v ===== *)
(** * Upstream resilience ([providers/resilience.py], [providers/errors.py] and
    the send path of [providers/llm.py])

    The circuit breaker is a record updated under its lock; each method is a
    function of the clock reading and the breaker.  A send is two atomic
    sections around the network call, so concurrent requests are interleavings
    of such sections: a step relation over the breaker and the attempts in
    flight.  Clock readings and durations are exact rationals. *)

From stdpp Require Import relations.
From Stdlib Require Import QArith Lqa.
From S2P Require Import Prelude PyDict PyString Json.
Local Open Scope Z_scope.

(** ** The circuit breaker *)

Inductive CircuitState : Type := CLOSED | OPEN | HALF_OPEN.

#[global] Instance CircuitState_eq_dec : EqDecision CircuitState.
Proof. solve_decision. Defined.

Record CircuitBreaker : Type := MkBreaker {
  b_threshold : Z;
  b_reset_seconds : Q;
  b_state : CircuitState;
  b_consecutive_failures : Z;
  b_opened_at : Q;
  b_probe_reserved : bool;
}.

Definition CircuitBreaker_init (failure_threshold : Z) (reset_seconds : Q) : res CircuitBreaker :=
  if failure_threshold <? 1 then Err (ValueError "failure_threshold must be >= 1")
  else Ok (MkBreaker failure_threshold reset_seconds CLOSED 0 0 false).

(** Entering OPEN records the time; OPEN and CLOSED release the probe. *)
Definition _transition (now : Q) (state : CircuitState) (b : CircuitBreaker) : CircuitBreaker :=
  match state with
  | OPEN => MkBreaker (b_threshold b) (b_reset_seconds b) OPEN
              (b_consecutive_failures b) now false
  | CLOSED => MkBreaker (b_threshold b) (b_reset_seconds b) CLOSED
                (b_consecutive_failures b) (b_opened_at b) false
  | HALF_OPEN => MkBreaker (b_threshold b) (b_reset_seconds b) HALF_OPEN
                   (b_consecutive_failures b) (b_opened_at b) (b_probe_reserved b)
  end.

(** The breaker after the lazy OPEN to HALF_OPEN transition; its [b_state]
    is what the method returns. *)
Definition _current_state (now : Q) (b : CircuitBreaker) : CircuitBreaker :=
  if bool_decide (b_state b = OPEN) && Qle_bool (b_reset_seconds b) (now - b_opened_at b)
  then _transition now HALF_OPEN b else b.

Definition set_probe (reserved : bool) (b : CircuitBreaker) : CircuitBreaker :=
  MkBreaker (b_threshold b) (b_reset_seconds b) (b_state b) (b_consecutive_failures b)
    (b_opened_at b) reserved.

Definition set_failures (n : Z) (b : CircuitBreaker) : CircuitBreaker :=
  MkBreaker (b_threshold b) (b_reset_seconds b) (b_state b) n (b_opened_at b)
    (b_probe_reserved b).

Definition allow_attempt (now : Q) (b : CircuitBreaker) : bool * CircuitBreaker :=
  let b := _current_state now b in
  match b_state b with
  | OPEN => (false, b)
  | HALF_OPEN => if b_probe_reserved b then (false, b) else (true, set_probe true b)
  | CLOSED => (true, b)
  end.

Definition record_success (now : Q) (b : CircuitBreaker) : CircuitBreaker :=
  let b := if bool_decide (b_state b = CLOSED) then b else _transition now CLOSED b in
  set_probe false (set_failures 0 b).

Definition record_failure (now : Q) (b : CircuitBreaker) : CircuitBreaker :=
  let b := set_failures (b_consecutive_failures b + 1) (set_probe false b) in
  match b_state b with
  | HALF_OPEN => _transition now OPEN b
  | CLOSED => if b_threshold b <=? b_consecutive_failures b then _transition now OPEN b else b
  | OPEN => b
  end.

Definition release_probe (b : CircuitBreaker) : CircuitBreaker := set_probe false b.

(** ** Bounded retries *)

(** What one call of the operation does. *)
Inductive outcome (T : Type) : Type :=
| Answer (response : T)
| ConnectFailure (exc : string)      (* httpx.ConnectError, httpx.ConnectTimeout *)
| TimeoutFailure (exc : string)      (* any other httpx.TimeoutException *)
| TransportFailure (exc : string)    (* any other httpx.HTTPError *)
| Interrupted.              (* cancellation or an unclassified error *)
Arguments Answer {T} response.
Arguments ConnectFailure {T} exc.
Arguments TimeoutFailure {T} exc.
Arguments TransportFailure {T} exc.
Arguments Interrupted {T}.

(** [RETRYABLE_TRANSPORT_ERRORS] *)
Definition retryable {T} (o : outcome T) : bool :=
  match o with ConnectFailure _ => true | _ => false end.

Section retries.
Context {T : Type} (operation : nat → outcome T).
(** [random.uniform(0, cap)] is [cap] times the [n]-th random number. *)
Context (random : nat → Q) (backoff_base_seconds backoff_max_seconds : Q).

Definition backoff_cap (attempt : nat) : Q :=
  let exponential := (backoff_base_seconds * inject_Z (2 ^ Z.of_nat attempt))%Q in
  if Qle_bool backoff_max_seconds exponential then backoff_max_seconds else exponential.

(** The [for] loop: the final outcome, the delays slept and the number of
    calls made.  [left] counts the attempts that remain after this one. *)
Fixpoint retry_loop (attempt left : nat) : outcome T * list Q * nat :=
  let result := operation attempt in
  match left with
  | O => (result, [], 1%nat)
  | S left' =>
      if retryable result then
        let '(final, delays, calls) := retry_loop (S attempt) left' in
        (final, (random attempt * backoff_cap attempt)%Q :: delays, S calls)
      else (result, [], 1%nat)
  end.

(** A negative [max_retries] never calls the operation and fails the
    assertion at the end. *)
Definition with_retries (max_retries : Z) : res (outcome T * list Q * nat) :=
  if max_retries <? 0 then Err AssertionError
  else Ok (retry_loop 0 (Z.to_nat max_retries)).
End retries.

(** ** Sending *)

(** The breaker sections of [_resilient_send]: admission, and what the
    handlers, the [else] branch and [finally] do with the outcome. *)
Definition finish_send {T} (now : Q) (o : outcome T) (b : CircuitBreaker) : CircuitBreaker :=
  release_probe
    match o with
    | Answer _ => record_success now b
    | ConnectFailure _ => record_failure now b
    | TimeoutFailure _ | TransportFailure _ | Interrupted => b
    end.

(** What a caller sees of a failed send. *)
Inductive provider_error : Type :=
| UpstreamUnavailable (message : string)
| Reraised.

Definition state_name (s : CircuitState) : string :=
  match s with CLOSED => "closed" | OPEN => "open" | HALF_OPEN => "half_open" end.

Definition map_upstream_error {T} (o : outcome T) : provider_error :=
  match o with
  | ConnectFailure exc => UpstreamUnavailable ("cannot connect to upstream endpoint: " +:+ exc)
  | TimeoutFailure exc => UpstreamUnavailable ("upstream request timed out: " +:+ exc)
  | TransportFailure exc => UpstreamUnavailable ("upstream transport error: " +:+ exc)
  | Answer _ | Interrupted => Reraised       (* never called on these *)
  end.

Definition send_result {T} (o : outcome T) : T + provider_error :=
  match o with
  | Answer response => inl response
  | Interrupted => inr Reraised
  | o => inr (map_upstream_error o)
  end.

(** The whole of [_resilient_send] without interference: the clock at
    admission and at the second section (the end, or the state read for the
    refusal's text), the result, the calls made, the breaker. *)
Definition _resilient_send {T} (operation : nat → outcome T) (random : nat → Q)
    (base max_delay : Q) (max_retries : Z) (started ended : Q) (b : CircuitBreaker)
    : res ((T + provider_error) * nat * CircuitBreaker) :=
  let '(allowed, b) := allow_attempt started b in
  if negb allowed then
    let b := _current_state ended b in
    Ok (inr (UpstreamUnavailable
               ("inference endpoint circuit breaker is " +:+ state_name (b_state b))), 0%nat, b)
  else
    loop ← with_retries operation random base max_delay max_retries;
    let '(o, _, calls) := loop in
    Ok (send_result o, calls, finish_send ended o b).

(** ** Concurrent requests *)

(** An attempt in flight: was it admitted as the half-open probe? *)
Record attempt : Type := MkAttempt {
  at_id : nat;
  at_probe : bool;
}.

Record system : Type := MkSystem {
  sys_breaker : CircuitBreaker;
  sys_inflight : list attempt;
}.

(** The atomic sections that requests interleave.  [step_observe] is a read
    of the [state] property. *)
Inductive sys_step : system → system → Prop :=
| step_admit now b b' l id :
    allow_attempt now b = (true, b') → id ∉ (at_id <$> l) →
    sys_step (MkSystem b l) (MkSystem b' (MkAttempt id (b_probe_reserved b') :: l))
| step_refuse now b b' l :
    allow_attempt now b = (false, b') → sys_step (MkSystem b l) (MkSystem b' l)
| step_observe now b l :
    sys_step (MkSystem b l) (MkSystem (_current_state now b) l)
| step_finish {T} now (o : outcome T) b a l1 l2 :
    sys_step (MkSystem b (l1 ++ a :: l2)) (MkSystem (finish_send now o b) (l1 ++ l2)).

(** The same, with attempts of the closed circuit finishing only while the
    circuit is closed. *)
Inductive quiet_step : system → system → Prop :=
| quiet_other s s' :
    sys_step s s' → (length (sys_inflight s) ≤ length (sys_inflight s'))%nat →
    quiet_step s s'
| quiet_finish {T} now (o : outcome T) b a l1 l2 :
    (at_probe a = false → b_state b = CLOSED) →
    quiet_step (MkSystem b (l1 ++ a :: l2)) (MkSystem (finish_send now o b) (l1 ++ l2)).

(** ** The breaker *)

(** A reserved probe means half-open, and a closed circuit has fewer
    consecutive failures than the threshold. *)
Record breaker_ok (b : CircuitBreaker) : Prop := {
  bk_threshold : 1 ≤ b_threshold b;
  bk_probe : b_probe_reserved b = true → b_state b = HALF_OPEN;
  bk_failures : 0 ≤ b_consecutive_failures b;
  bk_closed : b_state b = CLOSED → b_consecutive_failures b < b_threshold b;
}.

Lemma current_state_cases now b :
  (_current_state now b = b ∧ (b_state b = OPEN → (now - b_opened_at b < b_reset_seconds b)%Q)) ∨
  (b_state b = OPEN ∧ (b_reset_seconds b <= now - b_opened_at b)%Q ∧
   _current_state now b = _transition now HALF_OPEN b).
Proof.
  unfold _current_state. case_bool_decide; [|by left]. simpl.
  destruct (Qle_bool _ _) eqn:E.
  - right. by apply Qle_bool_iff in E.
  - left. split; [done|]. intros _. apply Qnot_le_lt. intros Hle%Qle_bool_iff. congruence.
Qed.

Lemma current_state_ok now b : breaker_ok b → breaker_ok (_current_state now b).
Proof.
  intros [Ht Hp Hf Hc]. destruct (current_state_cases now b) as [[-> _]|(Ho & _ & ->)]; [done|].
  by split.
Qed.

Lemma release_probe_ok b : breaker_ok b → breaker_ok (release_probe b).
Proof. by intros [Ht Hp Hf Hc]; split. Qed.

Lemma record_success_ok now b : breaker_ok b → breaker_ok (record_success now b).
Proof.
  intros [Ht Hp Hf Hc]. unfold record_success. case_bool_decide; split; simpl; done || lia.
Qed.

Lemma record_failure_ok now b : breaker_ok b → breaker_ok (record_failure now b).
Proof.
  intros [Ht Hp Hf Hc]. unfold record_failure. simpl. destruct (b_state b) eqn:E.
  - destruct (Z.leb_spec (b_threshold b) (b_consecutive_failures b + 1)); split; simpl;
      rewrite ?E; done || lia.
  - split; simpl; rewrite ?E; done || lia.
  - split; simpl; done || lia.
Qed.

Lemma allow_attempt_ok now b : breaker_ok b → breaker_ok (allow_attempt now b).2.
Proof.
  intros H%(current_state_ok now). unfold allow_attempt. destruct (b_state _) eqn:E; [done..|].
  destruct (b_probe_reserved _); [done|]. destruct H as [Ht Hp Hf Hc]. by split.
Qed.

Lemma finish_send_ok {T} now (o : outcome T) b : breaker_ok b → breaker_ok (finish_send now o b).
Proof.
  intros H. unfold finish_send. apply release_probe_ok.
  destruct o; auto using record_success_ok, record_failure_ok.
Qed.

(** [n] failures in a row, at the times of [clock]. *)
Fixpoint failures (clock : nat → Q) (n : nat) (b : CircuitBreaker) : CircuitBreaker :=
  match n with
  | O => b
  | S n' => record_failure (clock n') (failures clock n' b)
  end.

Lemma failures_closed clock n b :
  b_state b = CLOSED → b_probe_reserved b = false →
  b_consecutive_failures b + Z.of_nat n < b_threshold b →
  failures clock n b = set_failures (b_consecutive_failures b + Z.of_nat n) b.
Proof.
  intros Hs Hp. induction n as [|n IH]; intros Hn; cbn [failures].
  { rewrite Z.add_0_r. by destruct b. }
  rewrite IH; [lia|]. destruct b as [th rs st cf op pr]. simpl in *. subst st pr.
  unfold record_failure. simpl.
  destruct (Z.leb_spec th (cf + Z.of_nat n + 1)); [lia|].
  unfold set_failures, set_probe. simpl. f_equal. lia.
Qed.

(** *** Refusals *)

Lemma allow_open now b :
  b_state b = OPEN → (now - b_opened_at b < b_reset_seconds b)%Q → allow_attempt now b = (false, b).
Proof.
  intros Ho Hlt. unfold allow_attempt.
  destruct (current_state_cases now b) as [[-> _]|(_ & Hge & _)]; [by rewrite Ho|].
  exfalso. apply (Qlt_not_le _ _ Hlt Hge).
Qed.

Lemma allow_reserved now b :
  b_state b = HALF_OPEN → b_probe_reserved b = true → allow_attempt now b = (false, b).
Proof.
  intros Hs Hp. unfold allow_attempt.
  destruct (current_state_cases now b) as [[-> _]|(Ho & _)]; [by rewrite Hs Hp|congruence].
Qed.

Lemma allow_after_reset now b :
  breaker_ok b → b_state b = OPEN → (b_reset_seconds b <= now - b_opened_at b)%Q →
  allow_attempt now b = (true, set_probe true (_transition now HALF_OPEN b)).
Proof.
  intros [_ Hp _ _] Ho Hge. unfold allow_attempt.
  destruct (current_state_cases now b) as [[_ Hlt]|(_ & _ & ->)].
  - exfalso. apply (Qlt_not_le _ _ (Hlt Ho) Hge).
  - simpl. destruct (b_probe_reserved b); [|done]. specialize (Hp eq_refl). congruence.
Qed.

(** The life cycle of the breaker.  From a closed circuit it stays closed
    and admits every attempt through one failure less than the threshold; the
    threshold-th consecutive failure opens it, and it then refuses every
    attempt before the reset time has passed. *)
Theorem breaker_opens_at_threshold clock b :
  breaker_ok b → b_state b = CLOSED → b_consecutive_failures b = 0 →
  (∀ n now, Z.of_nat n < b_threshold b →
     b_state (failures clock n b) = CLOSED ∧ (allow_attempt now (failures clock n b)).1 = true) ∧
  (let opened := failures clock (Z.to_nat (b_threshold b)) b in
   let at_ := clock (pred (Z.to_nat (b_threshold b))) in
   b_state opened = OPEN ∧ b_opened_at opened = at_ ∧
   ∀ now, (now - at_ < b_reset_seconds b)%Q → allow_attempt now opened = (false, opened)).
Proof.
  intros Hok Hs Hf. pose proof Hok as [Ht Hp _ _].
  assert (b_probe_reserved b = false) as Hpf.
  { destruct (b_probe_reserved b); [|done]. specialize (Hp eq_refl). congruence. }
  split.
  - intros n now Hn. rewrite failures_closed //; [lia|]. simpl. split; [done|].
    unfold allow_attempt.
    destruct (current_state_cases now (set_failures (b_consecutive_failures b + Z.of_nat n) b))
      as [[-> _]|(Ho & _)]; simpl in *; [by rewrite Hs|congruence].
  - destruct (Z.to_nat (b_threshold b)) as [|n] eqn:En; [lia|]. simpl.
    rewrite failures_closed //; [lia|].
    unfold record_failure. simpl. rewrite Hs.
    destruct (Z.leb_spec (b_threshold b) (b_consecutive_failures b + Z.of_nat n + 1)); [|lia].
    split_and!; [done|done|]. intros now Hlt. by apply allow_open.
Qed.

(** Once the reset time has passed exactly one attempt is admitted: the
    first reserves the probe, and every later one is refused until the probe
    is resolved; a successful probe closes the circuit with no failures
    counted, a failed one opens it anew at the time it failed, and an
    interrupted one makes room for another probe. *)
Theorem half_open_single_probe {T} b now (response : T) :
  breaker_ok b → b_state b = OPEN → (b_reset_seconds b <= now - b_opened_at b)%Q →
  ∃ probing, allow_attempt now b = (true, probing) ∧
    (∀ later, allow_attempt later probing = (false, probing)) ∧
    (∀ later, b_state (finish_send later (Answer response) probing) = CLOSED ∧
              b_consecutive_failures (finish_send later (Answer response) probing) = 0) ∧
    (∀ later exc, b_state (finish_send (T:=T) later (ConnectFailure exc) probing) = OPEN ∧
                  b_opened_at (finish_send (T:=T) later (ConnectFailure exc) probing) = later) ∧
    (∀ later now', (allow_attempt now' (finish_send (T:=T) later Interrupted probing)).1 = true).
Proof.
  intros Hok Ho Hge. rewrite (allow_after_reset now b Hok Ho Hge).
  eexists. split; [done|]. split_and!.
  - intros later. by apply allow_reserved.
  - intros later. split; done.
  - intros later exc. split; done.
  - intros later now'. unfold allow_attempt, finish_send, _current_state. simpl. done.
Qed.

(** ** Retries *)

Section retry_lemmas.
Context {T : Type} (operation : nat → outcome T) (random : nat → Q) (base cap : Q).

Lemma retry_loop_spec attempt left o delays calls :
  retry_loop operation random base cap attempt left = (o, delays, calls) →
  (1 ≤ calls ≤ S left)%nat ∧ length delays = pred calls ∧
  o = operation (attempt + pred calls)%nat ∧
  (∀ i, (i < pred calls)%nat → retryable (operation (attempt + i)%nat) = true ∧
     delays !! i = Some (random (attempt + i)%nat * backoff_cap base cap (attempt + i))%Q) ∧
  ((calls < S left)%nat → retryable o = false).
Proof.
  revert attempt o delays calls. induction left as [|left IH]; intros attempt o delays calls; simpl.
  { intros [= <- <- <-]. rewrite Nat.add_0_r. split_and!; [lia|lia|done|done|lia|lia]. }
  destruct (retryable (operation attempt)) eqn:E.
  - destruct (retry_loop _ _ _ _ (S attempt) left) as [[o' d'] c'] eqn:Er.
    intros [= <- <- <-]. destruct (IH _ _ _ _ Er) as (Hc & Hl & Ho & Hd & Hlast).
    split_and!; [lia|lia|simpl; lia|..].
    + rewrite Ho. f_equal. lia.
    + intros [|i] Hi; [by rewrite Nat.add_0_r|].
      replace (attempt + S i)%nat with (S attempt + i)%nat by lia. apply Hd. lia.
    + intros. apply Hlast. lia.
  - intros [= <- <- <-]. rewrite Nat.add_0_r. split_and!; [lia|lia|done|done|lia|done].
Qed.
End retry_lemmas.

(** C23: retries are bounded and only follow connect failures: at most
    [max_retries + 1] calls are made, every call but the last one failed to
    connect (so no request that may have been delivered is sent again), the
    result is that of the last call, it is not a connect failure unless all
    attempts were used, and each delay lies between 0 and its backoff cap. *)
Theorem with_retries_bounded {T} (operation : nat → outcome T) random base cap max_retries :
  0 ≤ max_retries → (0 <= base)%Q → (0 <= cap)%Q → (∀ n, 0 <= random n <= 1)%Q →
  ∃ o delays calls,
    with_retries operation random base cap max_retries = Ok (o, delays, calls) ∧
    1 ≤ Z.of_nat calls ≤ max_retries + 1 ∧ o = operation (pred calls) ∧
    (∀ i, (i < pred calls)%nat → ∃ exc, operation i = ConnectFailure exc) ∧
    (Z.of_nat calls ≤ max_retries → ∀ exc, o ≠ ConnectFailure exc) ∧
    length delays = pred calls ∧
    (∀ i d, delays !! i = Some d → 0 <= d <= backoff_cap base cap i)%Q.
Proof.
  intros Hm Hb Hc Hr. unfold with_retries. destruct (Z.ltb_spec max_retries 0); [lia|].
  destruct (retry_loop operation random base cap 0 (Z.to_nat max_retries)) as [[o d] c] eqn:E.
  destruct (retry_loop_spec _ _ _ _ _ _ _ _ _ E) as (Hcalls & Hl & Ho & Hi & Hlast).
  exists o, d, c. simpl in Ho, Hi. split_and!; [done|lia|lia|done|..].
  - intros i [Hri _]%Hi. destruct (operation i); try done. eauto.
  - intros Hle exc ->. assert (c < S (Z.to_nat max_retries))%nat as Hlt by lia. by apply Hlast in Hlt.
  - done.
  - intros i x Hx. assert (i < pred c)%nat as Hlt by (rewrite -Hl; by eapply lookup_lt_Some).
    destruct (Hi i Hlt) as [_ Hd]. rewrite Hx in Hd. injection Hd as ->.
    assert (0 <= backoff_cap base cap i)%Q as Hcap.
    { unfold backoff_cap. destruct (Qle_bool _ _); [done|]. apply Qmult_le_0_compat; [done|].
      change 0%Q with (inject_Z 0). rewrite -Zle_Qle. lia. }
    destruct (Hr i) as [H0 H1]. split; [by apply Qmult_le_0_compat|].
    apply Qle_trans with (1 * backoff_cap base cap i)%Q; [by apply Qmult_le_compat_r|].
    rewrite Qmult_1_l. apply Qle_refl.
Qed.

(** ** Concurrent requests *)

(** The attempts in flight that were admitted as probes. *)
Definition probes (s : system) : list attempt :=
  filter (λ a, at_probe a = true) (sys_inflight s).

Definition initial_system (b : CircuitBreaker) : system := MkSystem b [].

(** A reserved probe is some attempt in flight. *)
Record system_ok (s : system) : Prop := {
  sy_breaker : breaker_ok (sys_breaker s);
  sy_reserved : b_probe_reserved (sys_breaker s) = true → probes s ≠ [];
}.

Lemma current_state_probe now b : b_probe_reserved (_current_state now b) = b_probe_reserved b.
Proof. by destruct (current_state_cases now b) as [[-> _]|(_ & _ & ->)]. Qed.

Lemma finish_send_probe {T} now (o : outcome T) b : b_probe_reserved (finish_send now o b) = false.
Proof. done. Qed.

Lemma refused_same now b b' :
  allow_attempt now b = (false, b') → b' = _current_state now b.
Proof. unfold allow_attempt. repeat case_match; by intros [= <-]. Qed.

Lemma sys_step_ok s s' : system_ok s → sys_step s s' → system_ok s'.
Proof.
  intros [Hb Hr] Hs. destruct Hs as [now b b' l id Ha _|now b b' l Ha|now b l|T now o b a l1 l2];
    simpl in *.
  - pose proof (allow_attempt_ok now b Hb) as Hb'. rewrite Ha in Hb'. split; [done|].
    intros Hp. unfold probes. simpl in *. by rewrite Hp filter_cons_True.
  - rewrite (refused_same _ _ _ Ha). split; simpl; [by apply current_state_ok|].
    by rewrite current_state_probe.
  - split; simpl; [by apply current_state_ok|]. by rewrite current_state_probe.
  - split; simpl; [by apply finish_send_ok|done].
Qed.

Lemma initial_ok b :
  breaker_ok b → b_probe_reserved b = false → system_ok (initial_system b).
Proof. intros Hb Hp. split; simpl; [done|]. by rewrite Hp. Qed.

Lemma system_reachable_ok s s' : system_ok s → rtc sys_step s s' → system_ok s'.
Proof. intros Hs. induction 1; eauto using sys_step_ok. Qed.


(** With quiet finishes, the one probe in flight is the reserved one. *)
Record quiet_ok (s : system) : Prop := {
  qs_system : system_ok s;
  qs_single : (length (probes s) ≤ 1)%nat;
  qs_reserved : probes s ≠ [] → b_probe_reserved (sys_breaker s) = true;
}.

Lemma probes_app b l1 a l2 :
  length (probes (MkSystem b (l1 ++ a :: l2)))
  = ((if at_probe a then 1 else 0) + length (probes (MkSystem b (l1 ++ l2))))%nat.
Proof.
  unfold probes. simpl. rewrite !filter_app filter_cons !length_app.
  destruct (at_probe a); case_decide; simpl; done || lia.
Qed.

Lemma probes_cons b b' id p l :
  probes (MkSystem b' (MkAttempt id p :: l))
  = (if p then [MkAttempt id p] else []) ++ probes (MkSystem b l).
Proof. by destruct p. Qed.

Lemma quiet_step_ok s s' : quiet_ok s → quiet_step s s' → quiet_ok s'.
Proof.
  intros [Hsys Hone Hres] Hs.
  destruct Hs as [s s' Hs Hlen|T now o b a l1 l2 Hquiet]; simpl in *.
  - split; [by eapply sys_step_ok|..];
      destruct Hs as [now b b' l id Ha _|now b b' l Ha|now b l|T now o b a l1 l2]; simpl in *;
      try (rewrite !length_app /= in Hlen; lia).
    + rewrite (probes_cons b). destruct (b_probe_reserved b') eqn:Ep; [|done].
      assert (probes (MkSystem b l) = []) as Hnone.
      { destruct (probes (MkSystem b l)) eqn:El; [done|]. specialize (Hres ltac:(done)).
          rewrite /allow_attempt in Ha. pose proof (current_state_probe now b) as Hcp.
          rewrite Hres in Hcp. destruct Hsys as [Hb _].
          destruct (current_state_ok now b Hb) as [_ Hh _ _]. specialize (Hh Hcp).
          by rewrite Hh Hcp in Ha. }
      by rewrite Hnone.
    + done.
    + done.
    + intros Hne. destruct (b_probe_reserved b') eqn:Ep; [done|].
      rewrite (probes_cons b) in Hne. specialize (Hres Hne). destruct Hsys as [Hb _]. simpl in Hb.
      pose proof (current_state_probe now b) as Hcp. rewrite Hres in Hcp.
      destruct (current_state_ok now b Hb) as [_ Hh _ _]. specialize (Hh Hcp).
      rewrite /allow_attempt Hh Hcp in Ha. done.
    + intros Hne. rewrite (refused_same _ _ _ Ha) current_state_probe. by apply Hres.
    + intros Hne. rewrite current_state_probe. by apply Hres.
  - pose proof (probes_app b l1 a l2) as Hcount.
    assert (probes (MkSystem (finish_send now o b) (l1 ++ l2)) = []) as Hnone.
    { change (probes (MkSystem b (l1 ++ l2)) = []). apply nil_length_inv.
      destruct (at_probe a) eqn:Ea; [lia|]. specialize (Hquiet eq_refl).
      destruct (decide (probes (MkSystem b (l1 ++ a :: l2)) = [])) as [E|E].
      - rewrite E in Hcount. simpl in Hcount. lia.
      - specialize (Hres E). destruct Hsys as [[_ Hh _ _] _]. simpl in *.
        specialize (Hh Hres). congruence. }
    split; [|by rewrite Hnone; simpl; lia|by rewrite Hnone].
    eapply sys_step_ok; [exact Hsys|]. by constructor.
Qed.

(** Mutual exclusion of probes: as long as no attempt admitted by the
    closed circuit finishes while the circuit is not closed, at most one
    half-open probe is in flight at any time. *)
Theorem quiet_single_probe b0 s :
  breaker_ok b0 → b_probe_reserved b0 = false →
  rtc quiet_step (initial_system b0) s → (length (probes s) ≤ 1)%nat.
Proof.
  intros Hb Hp Hr. assert (quiet_ok (initial_system b0)) as H0.
  { split; [by apply initial_ok|simpl; lia|done]. }
  enough (quiet_ok s) as [_ ? _] by done. revert H0. clear Hb Hp.
  induction Hr as [|s1 s2 s3 Hstep _ IH]; [done|]. intros H. apply IH. by eapply quiet_step_ok.
Qed.

Definition sample_breaker : CircuitBreaker := MkBreaker 1 30 CLOSED 0 0 false.

(** without that proviso the exclusion fails: an attempt admitted before
    the circuit opened, which is cancelled while the probe is in flight,
    releases the reservation of the probe, and a second probe is admitted. *)
Example stale_attempt_releases_probe :
  ∃ s, rtc sys_step (initial_system sample_breaker) s ∧ length (probes s) = 2%nat.
Proof.
  set (failed := finish_send (T:=()) 0 (ConnectFailure "refused") sample_breaker).
  set (probing := (allow_attempt 30 failed).2).
  set (released := finish_send (T:=()) 31 Interrupted probing).
  exists (MkSystem (allow_attempt 31 released).2 [MkAttempt 4 true; MkAttempt 3 true]).
  split; [|reflexivity].
  (* two attempts start; the second fails and opens the circuit *)
  eapply rtc_l; [apply (step_admit 0 sample_breaker sample_breaker [] 1%nat); [reflexivity|set_solver]|].
  eapply rtc_l; [apply (step_admit 0 sample_breaker sample_breaker [MkAttempt 1 false] 2%nat);
                 [reflexivity|set_solver]|].
  eapply rtc_l; [apply (step_finish (T:=()) 0 (ConnectFailure "refused") sample_breaker (MkAttempt 2 false)
                          [] [MkAttempt 1 false])|].
  (* a probe starts after the reset time; the first attempt is cancelled *)
  eapply rtc_l; [apply (step_admit 30 failed probing [MkAttempt 1 false] 3%nat);
                 [reflexivity|set_solver]|].
  eapply rtc_l; [apply (step_finish (T:=()) 31 Interrupted probing (MkAttempt 1 false)
                          [MkAttempt 3 true] [])|].
  eapply rtc_l; [apply (step_admit 31 released
                          (allow_attempt 31 released).2 [MkAttempt 3 true] 4%nat);
                 [reflexivity|set_solver]|].
  apply rtc_refl.
Qed.

(** ** Witnesses *)

Lemma sample_breaker_ok : breaker_ok sample_breaker.
Proof. by split. Qed.

Lemma breaker_opens_at_threshold_witness :
  b_state (failures (λ n, inject_Z (Z.of_nat n)) 1 sample_breaker) = OPEN ∧
  ∀ now, (now - 0 < 30)%Q →
    (allow_attempt now (failures (λ n, inject_Z (Z.of_nat n)) 1 sample_breaker)).1 = false.
Proof.
  destruct (breaker_opens_at_threshold (λ n, inject_Z (Z.of_nat n)) sample_breaker
    sample_breaker_ok eq_refl eq_refl) as [_ (H1 & _ & H2)].
  split; [exact H1|]. intros now Hn. specialize (H2 now Hn).
  exact (f_equal fst H2).
Defined.

Definition sample_open : CircuitBreaker := MkBreaker 1 30 OPEN 1 5 false.

Lemma half_open_single_probe_witness :
  ∃ probing, allow_attempt 40 sample_open = (true, probing) ∧
    ∀ later, allow_attempt later probing = (false, probing).
Proof.
  destruct (half_open_single_probe (T:=()) sample_open 40 ()) as (probing & H1 & H2 & _).
  - by split.
  - reflexivity.
  - vm_compute. discriminate.
  - exists probing. split; [exact H1|exact H2].
Defined.

Lemma with_retries_bounded_witness :
  ∃ o delays calls,
    with_retries (λ n, if (n =? 1)%nat then Answer 200 else ConnectFailure "refused") (λ _, 1 # 2)%Q
      (2 # 10) 2 2 = Ok (o, delays, calls) ∧ 1 ≤ Z.of_nat calls ≤ 3 ∧ length delays = pred calls.
Proof.
  destruct (with_retries_bounded (λ n, if (n =? 1)%nat then Answer 200 else ConnectFailure "refused")
    (λ _, 1 # 2)%Q (2 # 10) 2 2) as (o & d & c & H1 & H2 & _ & _ & _ & H3 & _);
    try (intros; vm_compute; split; discriminate); try (vm_compute; discriminate).
  exists o, d, c. auto.
Defined.


Lemma quiet_single_probe_witness :
  (length (probes (MkSystem (set_probe true (_transition 40 HALF_OPEN sample_open))
                     [MkAttempt 7 true])) ≤ 1)%nat.
Proof.
  apply (quiet_single_probe sample_open).
  - by split.
  - reflexivity.
  - eapply rtc_l; [|apply rtc_refl].
    apply quiet_other; [|simpl; lia].
    apply (step_admit 40 sample_open (set_probe true (_transition 40 HALF_OPEN sample_open)) [] 7%nat); [reflexivity|set_solver].
Defined.
