(* ===== verification/RateLimit.v ===== *)
(** * The rate limiter ([observability/ratelimit.py], its settings in [config.py])

    Token buckets for clients and conversations in one capped table.  The
    two dicts of the class are dicts in insertion order, because eviction
    takes the first of the coldest buckets.  The lock makes every public
    method atomic; time and tokens are exact rationals. *)

From Stdlib Require Import QArith Lqa Qround.
From S2P Require Import Prelude PyDict PyString.
Local Open Scope Z_scope.

(** ["c"] and ["v"] followed by a NUL character. *)
Definition _CLIENT_PREFIX : string := String (chr 99) (str1 (chr 0)).
Definition _CONVERSATION_PREFIX : string := String (chr 118) (str1 (chr 0)).

Inductive limit_scope : Type := SCOPE_CLIENT | SCOPE_CONVERSATION.

Record AdmissionDecision : Type := MkDecision {
  allowed : bool;
  scope : option limit_scope;
  retry_after : Z;
}.

Record RateLimiter : Type := MkLimiter {
  rl_rate : Q;
  rl_burst : Q;
  rl_max_identities : Z;
  rl_ttl : Q;
  rl_max_key_chars : Z;
  rl_tokens : list (string * Q);
  rl_updated : list (string * Q);
  rl_last_sweep : Q;
  rl_sweep_interval : Q;
}.

Definition RateLimiter_init (requests_per_minute burst : Z) (now : Q)
    (max_identities : Z) (identity_ttl_seconds : Q) (max_identity_chars : Z)
    : res RateLimiter :=
  if (requests_per_minute <=? 0) || (burst <=? 0)
  then Err (ValueError "requests_per_minute and burst must be positive")
  else if max_identities <? 1 then Err (ValueError "max_identities must be >= 1")
  else if Qle_bool identity_ttl_seconds 0
  then Err (ValueError "identity_ttl_seconds must be positive")
  else if max_identity_chars <? 1 then Err (ValueError "max_identity_chars must be >= 1")
  else Ok (MkLimiter (inject_Z requests_per_minute / 60) (inject_Z burst) max_identities
             identity_ttl_seconds max_identity_chars [] [] now (identity_ttl_seconds / 2)).

Definition set_table (rl : RateLimiter) (tokens updated : list (string * Q)) : RateLimiter :=
  MkLimiter (rl_rate rl) (rl_burst rl) (rl_max_identities rl) (rl_ttl rl)
    (rl_max_key_chars rl) tokens updated (rl_last_sweep rl) (rl_sweep_interval rl).

Definition set_sweep (rl : RateLimiter) (now : Q) : RateLimiter :=
  MkLimiter (rl_rate rl) (rl_burst rl) (rl_max_identities rl) (rl_ttl rl)
    (rl_max_key_chars rl) (rl_tokens rl) (rl_updated rl) now (rl_sweep_interval rl).

(** [key[: self._max_key_chars]] *)
Definition _normalize (rl : RateLimiter) (key : string) : string :=
  stake (Z.to_nat (rl_max_key_chars rl)) key.

(** [del self._tokens[k]; del self._updated[k]]; deleting an absent key raises. *)
Definition drop_bucket (rl : RateLimiter) (k : string) : res RateLimiter :=
  if dmem (rl_tokens rl) k && dmem (rl_updated rl) k
  then Ok (set_table rl (ddel (rl_tokens rl) k) (ddel (rl_updated rl) k))
  else Err KeyError.

Definition _expire_stale (rl : RateLimiter) (now : Q) : res RateLimiter :=
  let stale := (filter (λ kv, Qle_bool (now - kv.2) (rl_ttl rl) = false) (rl_updated rl)).*1 in
  foldM drop_bucket rl stale.

(** [min(d, key=d.get)]: the first key with the least value. *)
Fixpoint coldest_from (best : string * Q) (d : list (string * Q)) : string :=
  match d with
  | [] => best.1
  | kv :: d' => coldest_from (if Qle_bool best.2 kv.2 then best else kv) d'
  end.

Definition coldest (d : list (string * Q)) : res string :=
  match d with
  | [] => Err (ValueError "min() iterable argument is empty")
  | kv :: d' => Ok (coldest_from kv d')
  end.

(** The [while] loop; every iteration removes a bucket, so the size of the
    table is enough fuel. *)
Fixpoint make_room_loop (fuel : nat) (rl : RateLimiter) : res RateLimiter :=
  if Z.of_nat (length (rl_tokens rl)) <? rl_max_identities rl then Ok rl
  else
    match fuel with
    | O => Ok rl
    | S fuel =>
        k ← coldest (rl_updated rl);
        rl ← drop_bucket rl k;
        make_room_loop fuel rl
    end.

Definition _make_room (rl : RateLimiter) : res RateLimiter :=
  make_room_loop (length (rl_tokens rl)) rl.

Definition qmin (a b : Q) : Q := if Qle_bool a b then a else b.

Definition _consume (rl : RateLimiter) (namespaced_key : string) (now : Q)
    : res (bool * RateLimiter) :=
  rl ← (if Qle_bool (rl_sweep_interval rl) (now - rl_last_sweep rl)
        then rl ← _expire_stale rl now; Ok (set_sweep rl now)
        else Ok rl);
  rl ← (if dmem (rl_updated rl) namespaced_key then Ok rl else _make_room rl);
  let last := dget (rl_updated rl) namespaced_key in
  (* the defaultdict creates a missing bucket full *)
  let table := dsetdefault (rl_tokens rl) namespaced_key (rl_burst rl) in
  let tokens := default (rl_burst rl) (dget table namespaced_key) in
  let tokens := match last with
                | Some last => qmin (rl_burst rl) (tokens + (now - last) * rl_rate rl)
                | None => tokens
                end in
  let updated := dset (rl_updated rl) namespaced_key now in
  if Qle_bool 1 tokens
  then Ok (true, set_table rl (dset table namespaced_key (tokens - 1)%Q) updated)
  else Ok (false, set_table rl (dset table namespaced_key tokens) updated).

Definition _seconds_until_token (rl : RateLimiter) (namespaced_key : string) : Z :=
  let tokens := default (rl_burst rl) (dget (rl_tokens rl) namespaced_key) in
  let deficit := (1 - tokens)%Q in
  if Qle_bool deficit 0 then 1
  else Z.max 1 (Qfloor (deficit / rl_rate rl) + 1).

Definition client_ns (rl : RateLimiter) (client_key : string) : string :=
  _CLIENT_PREFIX +:+ _normalize rl client_key.

Definition conversation_ns (rl : RateLimiter) (conversation_key : option string) : option string :=
  match conversation_key with
  | Some ((String _ _) as k) => Some (_CONVERSATION_PREFIX +:+ _normalize rl k)
  | _ => None
  end.

Definition RateLimiter_admit (rl : RateLimiter) (client_key : string) (conversation_key : option string)
    (now : Q) : res (AdmissionDecision * RateLimiter) :=
  let client := client_ns rl client_key in
  consumed ← _consume rl client now;
  let '(ok, rl1) := consumed in
  if negb ok then
    Ok (MkDecision false (Some SCOPE_CLIENT) (_seconds_until_token rl1 client), rl1)
  else
    match conversation_ns rl conversation_key with
    | None => Ok (MkDecision true None 1, rl1)
    | Some conversation =>
        consumed ← _consume rl1 conversation now;
        let '(ok, rl2) := consumed in
        if negb ok then
          Ok (MkDecision false (Some SCOPE_CONVERSATION)
                (_seconds_until_token rl2 conversation), rl2)
        else Ok (MkDecision true None 1, rl2)
    end.

Definition allow (rl : RateLimiter) (key : string) (now : Q) : res (bool * RateLimiter) :=
  decided ← RateLimiter_admit rl key None now;
  Ok (allowed decided.1, decided.2).

Definition RateLimiter_retry_after (rl : RateLimiter) (key : string) : Z :=
  _seconds_until_token rl (client_ns rl key).

Definition identity_count (rl : RateLimiter) : Z := Z.of_nat (length (rl_tokens rl)).

Definition reset (rl : RateLimiter) : RateLimiter := set_table rl [] [].

(** ** The table invariant *)

(** The two dicts have the same keys, at most [max_identities] of them, none
    longer than a prefix and the configured length; tokens lie between 0 and
    the burst. *)
Record limiter_ok (rl : RateLimiter) : Prop := {
  lk_rate : (0 < rl_rate rl)%Q;
  lk_burst : (1 <= rl_burst rl)%Q;
  lk_ttl : (0 < rl_ttl rl)%Q;
  lk_max : 1 ≤ rl_max_identities rl;
  lk_chars : 1 ≤ rl_max_key_chars rl;
  lk_tokens_wf : dwf (rl_tokens rl);
  lk_updated_wf : dwf (rl_updated rl);
  lk_same : ∀ k, k ∈ (rl_tokens rl).*1 ↔ k ∈ (rl_updated rl).*1;
  lk_size : identity_count rl ≤ rl_max_identities rl;
  lk_keys : Forall (λ k, slen k ≤ rl_max_key_chars rl + 2) (rl_tokens rl).*1;
  lk_range : ∀ k t, dget (rl_tokens rl) k = Some t → (0 <= t <= rl_burst rl)%Q;
}.

(** [rl'] is [rl] with some buckets removed. *)
Record shrunk (rl rl' : RateLimiter) : Prop := {
  sk_config : rl_rate rl' = rl_rate rl ∧ rl_burst rl' = rl_burst rl ∧
    rl_max_identities rl' = rl_max_identities rl ∧ rl_ttl rl' = rl_ttl rl ∧
    rl_max_key_chars rl' = rl_max_key_chars rl ∧ rl_sweep_interval rl' = rl_sweep_interval rl;
  sk_tokens : ∀ k, k ∈ (rl_updated rl').*1 → dget (rl_tokens rl') k = dget (rl_tokens rl) k;
  sk_updated : ∀ k, k ∈ (rl_updated rl').*1 → dget (rl_updated rl') k = dget (rl_updated rl) k;
  sk_keys : (rl_updated rl').*1 ⊆ (rl_updated rl).*1;
}.

Lemma shrunk_refl rl : shrunk rl rl.
Proof. by split. Qed.

Lemma shrunk_trans a b c : shrunk a b → shrunk b c → shrunk a c.
Proof.
  intros [(?&?&?&?&?&?) Ht1 Hu1 Hk1] [(?&?&?&?&?&?) Ht2 Hu2 Hk2]. split.
  - split_and!; congruence.
  - intros k Hk. rewrite Ht2 // Ht1 //. by apply Hk2.
  - intros k Hk. rewrite Hu2 // Hu1 //. by apply Hk2.
  - by etrans.
Qed.

Lemma drop_bucket_ok rl k :
  limiter_ok rl → k ∈ (rl_updated rl).*1 →
  ∃ rl', drop_bucket rl k = Ok rl' ∧ limiter_ok rl' ∧ shrunk rl rl' ∧
    S (length (rl_tokens rl')) = length (rl_tokens rl) ∧
    (∀ j, j ∈ (rl_updated rl').*1 ↔ j ∈ (rl_updated rl).*1 ∧ j ≠ k).
Proof.
  intros [Hr Hb Httl Hm Hc Ht Hu Hsame Hsize Hkeys Hrange] Hk. unfold drop_bucket.
  pose proof (proj2 (Hsame k) Hk) as Hk'.
  rewrite (proj2 (dmem_true _ _) Hk) (proj2 (dmem_true _ _) Hk'). simpl.
  eexists. split; [done|].
  assert (∀ d : list (string * Q), dwf d → ∀ j, j ∈ (ddel d k).*1 ↔ j ∈ d.*1 ∧ j ≠ k) as Hdel.
  { intros d Hd j. rewrite (elem_of_keys_ddel d k j Hd). tauto. }
  split_and!.
  - split; simpl; try done.
    + by apply dwf_ddel.
    + by apply dwf_ddel.
    + intros j. rewrite !Hdel //. by rewrite Hsame.
    + unfold identity_count in *. simpl. pose proof (length_ddel (rl_tokens rl) k Hk'). lia.
    + rewrite !Forall_forall in Hkeys |- *. intros j [Hj _]%Hdel; [|done]. by apply Hkeys.
    + intros j t. destruct (decide (k = j)) as [->|Hne].
      * by rewrite dget_ddel_eq.
      * rewrite dget_ddel_ne //. apply Hrange.
  - split; simpl; [done|..].
    + intros j [_ Hj]%Hdel; [|done]. by rewrite dget_ddel_ne.
    + intros j [_ Hj]%Hdel; [|done]. by rewrite dget_ddel_ne.
    + intros j [Hj _]%Hdel; done.
  - simpl. by apply length_ddel.
  - intros j. simpl. by apply Hdel.
Qed.

Lemma coldest_from_elem best d : coldest_from best d ∈ (best :: d).*1.
Proof.
  revert best. induction d as [|kv d IH]; intros best; csimpl; [set_solver|].
  specialize (IH (if Qle_bool best.2 kv.2 then best else kv)).
  destruct (Qle_bool _ _); csimpl in *; set_solver.
Qed.

Lemma Qle_bool_false a b : Qle_bool a b = false → (b < a)%Q.
Proof.
  intros E. destruct (Qlt_le_dec b a) as [|H]; [done|]. apply Qle_bool_iff in H. congruence.
Qed.

(** [key] was used at [u] and every other bucket before that. *)
Definition hottest (rl : RateLimiter) (key : string) (u : Q) : Prop :=
  dget (rl_updated rl) key = Some u ∧
  ∀ j v, j ≠ key → dget (rl_updated rl) j = Some v → (v < u)%Q.

Lemma shrunk_hottest rl rl' key u :
  shrunk rl rl' → hottest rl key u → key ∈ (rl_updated rl').*1 → hottest rl' key u.
Proof.
  intros [_ _ Hu _] [Hk Hj] Hin. split; [by rewrite Hu|].
  intros j v Hne Hv. apply (Hj j); [done|]. rewrite -Hu //. by eapply dget_Some_key.
Qed.

Lemma coldest_from_least best d :
  ∃ u, (coldest_from best d, u) ∈ best :: d ∧ ∀ j v, (j, v) ∈ best :: d → (u <= v)%Q.
Proof.
  revert best. induction d as [|kv d IH]; intros best; simpl.
  - exists best.2. destruct best as [k u]. split; [set_solver|].
    intros j v [= -> ->]%list_elem_of_singleton. apply Qle_refl.
  - destruct (IH (if Qle_bool best.2 kv.2 then best else kv)) as (u & Hin & Hle).
    exists u. destruct (Qle_bool best.2 kv.2) eqn:E.
    + split; [set_solver|]. apply Qle_bool_iff in E. destruct best as [k b], kv as [k' b'].
      simpl in *. intros j v [[= -> ->]|[[= -> ->]|Hv]%elem_of_cons]%elem_of_cons.
      * apply (Hle k). set_solver.
      * eapply Qle_trans; [apply (Hle k b); set_solver|done].
      * apply (Hle j). set_solver.
    + split; [set_solver|]. apply Qle_bool_false in E. destruct best as [k b], kv as [k' b'].
      simpl in *. intros j v [[= -> ->]|[[= -> ->]|Hv]%elem_of_cons]%elem_of_cons.
      * eapply Qle_trans; [apply (Hle k' b'); set_solver|by apply Qlt_le_weak].
      * apply (Hle k'). set_solver.
      * apply (Hle j). set_solver.
Qed.

(** With two buckets or more the hottest one is not the coldest. *)
Lemma hottest_not_coldest rl key u kv d :
  limiter_ok rl → hottest rl key u → (2 ≤ length (rl_tokens rl))%nat →
  rl_updated rl = kv :: d → coldest_from kv d ≠ key.
Proof.
  intros Hok [Hk Hj] Hlen Eu Heq.
  assert (∃ j, j ∈ (rl_tokens rl).*1 ∧ j ≠ key) as (j & Hin & Hne).
  { pose proof (lk_tokens_wf _ Hok) as Hwf. revert Hwf Hlen. unfold dwf.
    destruct (rl_tokens rl) as [|[a ?] [|[b ?] ts]]; simpl; [lia..|].
    intros [Ha _]%NoDup_cons _. destruct (decide (a = key)) as [->|].
    - exists b. set_solver.
    - exists a. set_solver. }
  apply (lk_same _ Hok), dget_is_Some in Hin as [v Hv]. pose proof (Hj j v Hne Hv) as Hlt.
  destruct (coldest_from_least kv d) as (w & Hw & Hle). rewrite -Eu Heq in Hw Hle.
  rewrite (dget_In _ _ _ (lk_updated_wf _ Hok) Hw) in Hk. injection Hk as ->.
  apply dget_Some_In in Hv. pose proof (Hle j v Hv). lra.
Qed.

Lemma make_room_ok fuel rl :
  limiter_ok rl → (length (rl_tokens rl) ≤ fuel)%nat →
  ∃ rl', make_room_loop fuel rl = Ok rl' ∧ limiter_ok rl' ∧ shrunk rl rl' ∧
    identity_count rl' < rl_max_identities rl' ∧
    (∀ key u, hottest rl key u → 2 ≤ rl_max_identities rl → key ∈ (rl_updated rl').*1).
Proof.
  revert rl. induction fuel as [|fuel IH]; intros rl Hok Hf; cbn [make_room_loop];
    destruct (Z.ltb_spec (Z.of_nat (length (rl_tokens rl))) (rl_max_identities rl)) as [Hlt|Hge].
  - exists rl. split_and!; try done. intros key u [Hk _] _. by eapply dget_Some_key.
  - pose proof (lk_max _ Hok). lia.
  - exists rl. split_and!; try done. intros key u [Hk _] _. by eapply dget_Some_key.
  - destruct (rl_updated rl) as [|kv d] eqn:Eu.
    { exfalso. pose proof (lk_same _ Hok) as Hs. pose proof (lk_max _ Hok). rewrite Eu in Hs.
      destruct (rl_tokens rl) as [|[k t] ts]; simpl in *; [lia|].
      specialize (Hs k). set_solver. }
    cbn [coldest mbind res_bind]. set (k := coldest_from kv d).
    assert (k ∈ (rl_updated rl).*1) as Hk by (rewrite Eu; apply coldest_from_elem).
    destruct (drop_bucket_ok rl k Hok Hk) as (rl1 & -> & Hok1 & Hs1 & Hlen & Hk1). cbn [mbind res_bind].
    destruct (IH rl1 Hok1) as (rl' & -> & Hok' & Hs' & Hlt & Hh); [lia|].
    exists rl'. split_and!; try done; [by eapply shrunk_trans|].
    intros key u Hhot Hmax. apply (Hh key u).
    + apply (shrunk_hottest rl); [done..|]. apply Hk1.
      split; [destruct Hhot as [Hu _]; by eapply dget_Some_key|].
      intros ->. by apply (hottest_not_coldest rl k u kv d); [..|lia| |].
    + destruct (sk_config _ _ Hs1) as (_ & _ & -> & _). done.
Qed.

(** Expiry removes exactly the buckets idle for longer than the TTL. *)
Lemma expire_ok rl now :
  limiter_ok rl →
  ∃ rl', _expire_stale rl now = Ok rl' ∧ limiter_ok rl' ∧ shrunk rl rl' ∧
    rl_last_sweep rl' = rl_last_sweep rl ∧
    (∀ k u, dget (rl_updated rl) k = Some u → (now - u <= rl_ttl rl)%Q →
       k ∈ (rl_updated rl').*1).
Proof.
  intros Hok. unfold _expire_stale. set (stale := (filter _ (rl_updated rl)).*1).
  assert (NoDup stale) as Hnd.
  { eapply sublist_NoDup; [apply (lk_updated_wf _ Hok)|]. apply fmap_sublist, sublist_filter. }
  assert (stale ⊆ (rl_updated rl).*1) as Hsub.
  { apply sublist_subseteq, fmap_sublist, sublist_filter. }
  destruct (foldM_total drop_bucket (λ pre s, limiter_ok s ∧ shrunk rl s ∧
    rl_last_sweep s = rl_last_sweep rl ∧
    ∀ k, k ∈ (rl_updated s).*1 ↔ k ∈ (rl_updated rl).*1 ∧ k ∉ pre) rl stale)
    as (rl' & -> & Hok' & Hs & Hl & Hk).
  - split_and!; [done|apply shrunk_refl|done|]. set_solver.
  - intros pre k s [post Hpost] (Hoks & Hss & Hls & Hks).
    assert (k ∉ pre ∧ k ∈ stale) as [Hkp Hkst].
    { rewrite Hpost in Hnd |- *. apply NoDup_app in Hnd as [Hnd _].
      apply NoDup_app in Hnd as (_ & Hx & _). set_solver. }
    assert (k ∈ (rl_updated s).*1) as Hkin by (apply Hks; auto).
    destruct (drop_bucket_ok s k Hoks Hkin) as (s' & Hd & Hoks' & Hss' & _ & Hks').
    exists s'. split; [done|]. split_and!; [done|by eapply shrunk_trans| |].
    + revert Hd. unfold drop_bucket. case_match; [|done]. intros [= <-]. done.
    + intros j. rewrite Hks' Hks. set_solver.
  - exists rl'. split_and!; [done..|]. intros k u Hu Hle. apply Hk.
    split; [by eapply dget_Some_key|]. intros ([k' u'] & -> & [Hst Hin]%list_elem_of_filter)%list_elem_of_fmap.
    simpl in *. rewrite (dget_In _ _ _ (lk_updated_wf _ Hok) Hin) in Hu. injection Hu as ->.
    apply Qle_bool_iff in Hle. congruence.
Qed.

(** The clock does not run backwards. *)
Definition clock_ok (rl : RateLimiter) (now : Q) : Prop :=
  ∀ k u, dget (rl_updated rl) k = Some u → (u <= now)%Q.

Lemma shrunk_clock rl rl' now : shrunk rl rl' → clock_ok rl now → clock_ok rl' now.
Proof.
  intros [_ _ Hu _] Hc k u Hk. apply (Hc k). rewrite -Hu //. by eapply dget_Some_key.
Qed.

(** The sweep and the eviction before a bucket is used. *)
Lemma prepare_ok rl key now :
  limiter_ok rl →
  ∃ mid, (rl ← (if Qle_bool (rl_sweep_interval rl) (now - rl_last_sweep rl)
                then rl ← _expire_stale rl now; Ok (set_sweep rl now) else Ok rl);
          if dmem (rl_updated rl) key then Ok rl else _make_room rl) = Ok mid ∧
    limiter_ok mid ∧ shrunk rl mid ∧
    (key ∉ (rl_updated mid).*1 → identity_count mid < rl_max_identities mid) ∧
    (∀ u, dget (rl_updated rl) key = Some u → (now - u <= rl_ttl rl)%Q →
       key ∈ (rl_updated mid).*1) ∧
    (∀ k u, hottest rl k u → (now - u <= rl_ttl rl)%Q → 2 ≤ rl_max_identities rl →
       k ∈ (rl_updated mid).*1).
Proof.
  intros Hok.
  assert (∃ swept, (if Qle_bool (rl_sweep_interval rl) (now - rl_last_sweep rl)
      then rl ← _expire_stale rl now; Ok (set_sweep rl now) else Ok rl) = Ok swept ∧
    limiter_ok swept ∧ shrunk rl swept ∧
    (∀ k u, dget (rl_updated rl) k = Some u → (now - u <= rl_ttl rl)%Q →
       k ∈ (rl_updated swept).*1)) as (swept & -> & Hok1 & Hs1 & Hk1).
  { destruct (Qle_bool _ _).
    - destruct (expire_ok rl now Hok) as (rl' & -> & [] & [] & _ & Hk). eexists.
      split; [done|]. split_and!; [by split..|]. done.
    - exists rl. split_and!; [done|done|apply shrunk_refl|]. intros k u Hu _.
      by eapply dget_Some_key. }
  cbn [mbind res_bind]. destruct (dmem (rl_updated swept) key) eqn:Em.
  - exists swept. split_and!; try done; [apply dmem_true in Em; set_solver|apply Hk1|].
    intros k u [Hk _] Hle _. by eapply Hk1.
  - destruct (make_room_ok (length (rl_tokens swept)) swept Hok1)
      as (mid & Hm & Hok' & Hs & Hlt & Hh); [done|].
    exists mid. split_and!; [done|done|by eapply shrunk_trans|done| |].
    + intros u Hu Hle. exfalso. specialize (Hk1 key u Hu Hle). apply dmem_true in Hk1. congruence.
    + intros k u Hhot Hle Hmax. apply (Hh k u).
      * apply (shrunk_hottest rl); [done..|]. destruct Hhot as [Hk _]. by eapply Hk1.
      * destruct (sk_config _ _ Hs1) as (_ & _ & -> & _). done.
Qed.

(** What one use of a bucket does to it and to the others. *)
Record consumed (rl : RateLimiter) (key : string) (now : Q) (ok : bool) (rl' : RateLimiter) : Prop := {
  co_limiter : limiter_ok rl';
  co_clock : clock_ok rl' now;
  co_rate : rl_rate rl' = rl_rate rl ∧ rl_burst rl' = rl_burst rl ∧ rl_ttl rl' = rl_ttl rl ∧
            rl_max_key_chars rl' = rl_max_key_chars rl ∧
            rl_max_identities rl' = rl_max_identities rl;
  co_updated : dget (rl_updated rl') key = Some now;
  co_bucket : ∃ available,
    ok = Qle_bool 1 available ∧
    dget (rl_tokens rl') key = Some (if ok then available - 1 else available)%Q ∧
    (∀ last t, dget (rl_updated rl) key = Some last → dget (rl_tokens rl) key = Some t →
       (now - last <= rl_ttl rl)%Q →
       available = qmin (rl_burst rl) (t + (now - last) * rl_rate rl)%Q) ∧
    (available = rl_burst rl ∨
     ∃ last t, dget (rl_updated rl) key = Some last ∧ dget (rl_tokens rl) key = Some t ∧
       available = qmin (rl_burst rl) (t + (now - last) * rl_rate rl)%Q) ∧
    (available <= rl_burst rl)%Q;
  co_others : ∀ k, k ≠ key → k ∈ (rl_updated rl').*1 →
    k ∈ (rl_updated rl).*1 ∧ dget (rl_tokens rl') k = dget (rl_tokens rl) k ∧
    dget (rl_updated rl') k = dget (rl_updated rl) k;
  co_hottest : ∀ k u, hottest rl k u → (now - u <= rl_ttl rl)%Q → 2 ≤ rl_max_identities rl →
    k ∈ (rl_updated rl').*1;
}.

(** The refill and the charge, once the bucket's place is secured. *)
Lemma charge_ok mid key now :
  limiter_ok mid → clock_ok mid now → slen key ≤ rl_max_key_chars mid + 2 →
  (key ∉ (rl_updated mid).*1 → identity_count mid < rl_max_identities mid) →
  ∀ bucket, (0 <= bucket <= rl_burst mid)%Q →
  limiter_ok (set_table mid (dset (dsetdefault (rl_tokens mid) key (rl_burst mid)) key bucket)
                (dset (rl_updated mid) key now)) ∧
  clock_ok (set_table mid (dset (dsetdefault (rl_tokens mid) key (rl_burst mid)) key bucket)
                (dset (rl_updated mid) key now)) now.
Proof.
  intros [Hr Hb Httl Hm Hc Ht Hu Hsame Hsize Hkeys Hrange] Hclock Hlen Hroom bucket Hbucket.
  rewrite dset_dsetdefault.
  split; [split; simpl; try done|].
  - by apply dwf_dset.
  - by apply dwf_dset.
  - intros k. rewrite !elem_of_keys_dset. by rewrite Hsame.
  - unfold identity_count in *. simpl. destruct (decide (key ∈ (rl_updated mid).*1)) as [Hin|Hin].
    + rewrite length_dset_present; [by apply Hsame|done].
    + rewrite length_dset_absent; [by rewrite Hsame|]. specialize (Hroom Hin). lia.
  - rewrite !Forall_forall in Hkeys |- *. intros k [->|Hk]%elem_of_keys_dset; [done|by apply Hkeys].
  - intros k t. destruct (decide (key = k)) as [->|Hne].
    + rewrite dget_dset_eq. by intros [= <-].
    + rewrite dget_dset_ne //. apply Hrange.
  - intros k u. simpl. destruct (decide (key = k)) as [->|Hne].
    + rewrite dget_dset_eq. intros [= <-]. apply Qle_refl.
    + rewrite dget_dset_ne //. apply Hclock.
Qed.

Lemma qmin_le a b : (qmin a b <= a)%Q ∧ (qmin a b <= b)%Q.
Proof.
  unfold qmin. destruct (Qle_bool a b) eqn:E.
  - apply Qle_bool_iff in E. split; lra.
  - destruct (Qlt_le_dec b a) as [|H]; [split; lra|]. apply Qle_bool_iff in H. congruence.
Qed.

Lemma qmin_glb a b c : (c <= a)%Q → (c <= b)%Q → (c <= qmin a b)%Q.
Proof. unfold qmin. by destruct (Qle_bool a b). Qed.

(** What the bucket of a key holds once it is refilled. *)
Definition refilled (mid : RateLimiter) (key : string) (now : Q) : Q :=
  let t := default (rl_burst mid) (dget (dsetdefault (rl_tokens mid) key (rl_burst mid)) key) in
  match dget (rl_updated mid) key with
  | Some last => qmin (rl_burst mid) (t + (now - last) * rl_rate mid)
  | None => t
  end.

Lemma refilled_range mid key now :
  limiter_ok mid → clock_ok mid now → (0 <= refilled mid key now <= rl_burst mid)%Q.
Proof.
  intros Hok Hclock. unfold refilled. set (t := default _ _).
  assert (0 <= t <= rl_burst mid)%Q as Ht.
  { subst t. unfold dsetdefault. destruct (dget (rl_tokens mid) key) as [t|] eqn:E.
    - rewrite E. simpl. by apply (lk_range _ Hok key).
    - rewrite dget_dset_eq. simpl. pose proof (lk_burst _ Hok). lra. }
  destruct (dget (rl_updated mid) key) as [l|] eqn:El; [|done].
  pose proof (Hclock key l El). pose proof (lk_rate _ Hok). pose proof (lk_burst _ Hok).
  split; [|apply qmin_le]. apply qmin_glb; [lra|].
  assert (0 <= (now - l) * rl_rate mid)%Q by (apply Qmult_le_0_compat; lra). lra.
Qed.

(** A bucket that stayed is refilled from what it held; any other is full. *)
Lemma refilled_kept rl mid key now last t :
  shrunk rl mid → key ∈ (rl_updated mid).*1 →
  dget (rl_updated rl) key = Some last → dget (rl_tokens rl) key = Some t →
  refilled mid key now = qmin (rl_burst rl) (t + (now - last) * rl_rate rl).
Proof.
  intros Hs Hin Hl Ht. destruct (sk_config _ _ Hs) as (Er & Eb & _). unfold refilled, dsetdefault.
  rewrite (sk_updated _ _ Hs key Hin) Hl (sk_tokens _ _ Hs key Hin) Ht.
  rewrite (sk_tokens _ _ Hs key Hin) Ht. simpl. by rewrite Er Eb.
Qed.

Lemma refilled_cases rl mid key now :
  limiter_ok mid → shrunk rl mid →
  refilled mid key now = rl_burst rl ∨
  ∃ last t, dget (rl_updated rl) key = Some last ∧ dget (rl_tokens rl) key = Some t ∧
    refilled mid key now = qmin (rl_burst rl) (t + (now - last) * rl_rate rl).
Proof.
  intros Hok Hs. destruct (dget (rl_updated mid) key) as [l|] eqn:El; [right|left].
  - pose proof (dget_Some_key _ _ _ El) as Hin.
    pose proof (proj2 (lk_same _ Hok key) Hin) as [t Et]%dget_is_Some.
    rewrite (sk_updated _ _ Hs key Hin) in El. rewrite (sk_tokens _ _ Hs key Hin) in Et.
    exists l, t. split_and!; [done..|]. by eapply refilled_kept.
  - destruct (sk_config _ _ Hs) as (_ & Eb & _). unfold refilled, dsetdefault. rewrite El.
    apply dget_None in El. rewrite -(lk_same _ Hok) in El. apply dget_None in El.
    by rewrite El dget_dset_eq.
Qed.

Lemma consume_ok rl key now :
  limiter_ok rl → clock_ok rl now → slen key ≤ rl_max_key_chars rl + 2 →
  ∃ ok rl', _consume rl key now = Ok (ok, rl') ∧ consumed rl key now ok rl'.
Proof.
  intros Hok Hclock Hlen.
  destruct (prepare_ok rl key now Hok) as (mid & Hmid & Hokm & Hs & Hroom & Hkeep & Hhot).
  pose proof (shrunk_clock _ _ _ Hs Hclock) as Hcm.
  destruct (sk_config _ _ Hs) as (Er & Eb & Em & Ett & Ec & Es). rewrite -Ec in Hlen.
  pose proof (refilled_range mid key now Hokm Hcm) as Ha. set (available := refilled mid key now) in *.
  set (ok := Qle_bool 1 available). set (bucket := (if ok then available - 1 else available)%Q).
  assert (0 <= bucket <= rl_burst mid)%Q as Hbk.
  { subst bucket ok. destruct (Qle_bool 1 available) eqn:E; [|done]. apply Qle_bool_iff in E. lra. }
  destruct (charge_ok mid key now Hokm Hcm Hlen Hroom bucket Hbk) as [Hok' Hclock'].
  exists ok, (set_table mid (dset (dsetdefault (rl_tokens mid) key (rl_burst mid)) key bucket)
                (dset (rl_updated mid) key now)). split.
  - unfold _consume. revert Hmid. destruct (if Qle_bool _ _ then _ else _) as [swept|]; [|done].
    cbn [mbind res_bind]. intros ->. cbn [mbind res_bind]. fold (refilled mid key now).
    subst bucket. unfold ok, available. by destruct (Qle_bool 1 _).
  - split; simpl; try done.
    + apply dget_dset_eq.
    + exists available. rewrite dget_dset_eq. split_and!; [done..| |by apply refilled_cases|rewrite -Eb; lra].
      intros l t Hl Ht Hle. eapply refilled_kept; [done|by eapply Hkeep|done|done].
    + intros k Hne [->|Hk]%elem_of_keys_dset; [done|]. rewrite dset_dsetdefault !dget_dset_ne //.
      split_and!; [by apply (sk_keys _ _ Hs)|by apply (sk_tokens _ _ Hs)|by apply (sk_updated _ _ Hs)].
    + intros k u Hk Hle Hmax. apply elem_of_keys_dset. right. by eapply Hhot.
Qed.

(** ** Traffic *)

(** One call of [admit]: the client, the conversation and the clock. *)
Record call : Type := MkCall {
  c_client : string;
  c_conversation : option string;
  c_now : Q;
}.

Fixpoint run (rl : RateLimiter) (calls : list call) : res (list AdmissionDecision * RateLimiter) :=
  match calls with
  | [] => Ok ([], rl)
  | c :: calls =>
      decided ← RateLimiter_admit rl (c_client c) (c_conversation c) (c_now c);
      rest ← run decided.2 calls;
      Ok (decided.1 :: rest.1, rest.2)
  end.

(** The clock never goes back, or strictly advances, from one call to the next. *)
Fixpoint clocked (step : Q → Q → Prop) (start : Q) (calls : list call) : Prop :=
  match calls with
  | [] => True
  | c :: calls => step start (c_now c) ∧ clocked step (c_now c) calls
  end.

Definition last_call (start : Q) (calls : list call) : Q :=
  default start (c_now <$> last calls).

Definition granted (ds : list AdmissionDecision) : Z :=
  Z.of_nat (length (filter (λ d, allowed d = true) ds)).

Definition same_config (rl rl' : RateLimiter) : Prop :=
  rl_rate rl' = rl_rate rl ∧ rl_burst rl' = rl_burst rl ∧ rl_ttl rl' = rl_ttl rl ∧
  rl_max_key_chars rl' = rl_max_key_chars rl ∧ rl_max_identities rl' = rl_max_identities rl.

Lemma normalize_slen rl key : limiter_ok rl → slen (_normalize rl key) ≤ rl_max_key_chars rl.
Proof.
  intros Hok. pose proof (lk_chars _ Hok). unfold _normalize, slen. rewrite length_stake. lia.
Qed.

Lemma client_ns_slen rl key : limiter_ok rl → slen (client_ns rl key) ≤ rl_max_key_chars rl + 2.
Proof.
  intros Hok. unfold client_ns. rewrite slen_app. pose proof (normalize_slen rl key Hok).
  change (slen _CLIENT_PREFIX) with 2. lia.
Qed.

Lemma conversation_ns_Some rl v ns :
  limiter_ok rl → conversation_ns rl v = Some ns →
  slen ns ≤ rl_max_key_chars rl + 2 ∧ ∀ key, client_ns rl key ≠ ns.
Proof.
  intros Hok. destruct v as [[|c k]|]; [done| |done]. unfold conversation_ns. intros [= <-].
  split; [|done]. rewrite slen_app. pose proof (normalize_slen rl (String c k) Hok).
  change (slen _CONVERSATION_PREFIX) with 2. lia.
Qed.

(** Waiting the announced number of seconds refills the bucket to a token. *)
Lemma seconds_suffice rl key t :
  limiter_ok rl → dget (rl_tokens rl) key = Some t →
  1 ≤ _seconds_until_token rl key ∧
  (1 <= t + inject_Z (_seconds_until_token rl key) * rl_rate rl)%Q.
Proof.
  intros Hok Ht. pose proof (lk_rate _ Hok) as Hr. unfold _seconds_until_token. rewrite Ht. cbn [default from_option id].
  destruct (Qle_bool (1 - t) 0) eqn:E.
  - apply Qle_bool_iff in E. split; [lia|]. change (inject_Z 1) with 1%Q. lra.
  - split; [lia|]. set (f := Qfloor ((1 - t) / rl_rate rl)).
    assert ((1 - t) / rl_rate rl < inject_Z (f + 1))%Q as Hf by apply Qlt_floor.
    assert (inject_Z (f + 1) <= inject_Z (Z.max 1 (f + 1)))%Q as Hm by (rewrite -Zle_Qle; lia).
    assert ((1 - t) / rl_rate rl * rl_rate rl <= inject_Z (Z.max 1 (f + 1)) * rl_rate rl)%Q as Hle.
    { apply Qmult_le_compat_r; lra. }
    assert ((1 - t) / rl_rate rl * rl_rate rl == 1 - t)%Q as Heq by (field; lra).
    rewrite Heq in Hle. lra.
Qed.

Lemma seconds_positive rl key : 1 ≤ _seconds_until_token rl key.
Proof. unfold _seconds_until_token. destruct (Qle_bool _ _); lia. Qed.

Lemma consumed_config rl key now ok rl' :
  consumed rl key now ok rl' → same_config rl rl'.
Proof. intros [_ _ (?&?&?&?&?) _ _ _ _]. by split_and!. Qed.

Lemma same_config_trans a b c : same_config a b → same_config b c → same_config a c.
Proof. unfold same_config. intros (?&?&?&?&?) (?&?&?&?&?). split_and!; congruence. Qed.

Lemma client_ns_config rl rl' key : same_config rl rl' → client_ns rl' key = client_ns rl key.
Proof. intros (_&_&_&H&_). unfold client_ns, _normalize. by rewrite H. Qed.

Lemma conversation_ns_config rl rl' v :
  same_config rl rl' → conversation_ns rl' v = conversation_ns rl v.
Proof. intros (_&_&_&H&_). destruct v as [[|]|]; [done| |done]. unfold conversation_ns, _normalize. by rewrite H. Qed.

(** What a call of [admit] does, in terms of the uses of the one or two buckets. *)
Lemma admit_cases rl client v now :
  limiter_ok rl → clock_ok rl now →
  ∃ ok rl1, consumed rl (client_ns rl client) now ok rl1 ∧
  ((ok = false ∧ RateLimiter_admit rl client v now =
      Ok (MkDecision false (Some SCOPE_CLIENT) (_seconds_until_token rl1 (client_ns rl client)), rl1)) ∨
   (ok = true ∧ conversation_ns rl v = None ∧ RateLimiter_admit rl client v now = Ok (MkDecision true None 1, rl1)) ∨
   (ok = true ∧ ∃ ns ok' rl2, conversation_ns rl v = Some ns ∧ consumed rl1 ns now ok' rl2 ∧
      RateLimiter_admit rl client v now =
      Ok (if ok' then MkDecision true None 1
          else MkDecision false (Some SCOPE_CONVERSATION) (_seconds_until_token rl2 ns), rl2))).
Proof.
  intros Hok Hclock.
  destruct (consume_ok rl _ now Hok Hclock (client_ns_slen rl client Hok)) as (ok & rl1 & E1 & C1).
  exists ok, rl1. split; [done|]. unfold RateLimiter_admit. rewrite E1. cbn [mbind res_bind].
  destruct ok; [right|by left]. cbn [negb].
  destruct (conversation_ns rl v) as [ns|] eqn:Ev; [right|by left].
  destruct (conversation_ns_Some rl v ns Hok Ev) as [Hlen _]. pose proof (co_rate _ _ _ _ _ C1) as (_&_&_&Hc&_).
  destruct (consume_ok rl1 ns now) as (ok' & rl2 & E2 & C2);
    [by apply C1|by apply C1|by rewrite Hc|].
  split; [done|]. exists ns, ok', rl2. split_and!; [done|done|]. rewrite E2. cbn [mbind res_bind].
  by destruct ok'.
Qed.

Definition sane (d : AdmissionDecision) : Prop :=
  1 ≤ retry_after d ∧ (allowed d = true ↔ scope d = None).

Lemma admit_ok rl client v now :
  limiter_ok rl → clock_ok rl now →
  ∃ d rl', RateLimiter_admit rl client v now = Ok (d, rl') ∧ limiter_ok rl' ∧ clock_ok rl' now ∧
    same_config rl rl' ∧ sane d.
Proof.
  intros Hok Hclock.
  destruct (admit_cases rl client v now Hok Hclock)
    as (ok & rl1 & C1 & [[_ ->]|[(_ & _ & ->)|(_ & ns & ok' & rl2 & _ & C2 & ->)]]).
  1,2: eexists _, rl1; split; [done|]; split_and!;
    [apply C1|apply C1|by eapply consumed_config|]; split; simpl; [|done || lia].
  - apply seconds_positive.
  - lia.
  - eexists _, rl2. split; [done|].
    split_and!; [apply C2|apply C2|by eapply same_config_trans; eapply consumed_config|].
    destruct ok'; split; simpl; try done. apply seconds_positive.
Qed.

Lemma init_ok rpm burst now max ttl chars rl :
  RateLimiter_init rpm burst now max ttl chars = Ok rl → limiter_ok rl ∧ ∀ t, clock_ok rl t.
Proof.
  unfold RateLimiter_init. destruct (_ || _) eqn:E1; [done|]. apply orb_false_iff in E1 as [E1 E1'].
  destruct (max <? 1) eqn:E2; [done|]. destruct (Qle_bool ttl 0) eqn:E3; [done|].
  destruct (chars <? 1) eqn:E4; [done|]. intros [= <-].
  apply Z.leb_gt in E1, E1'. apply Z.ltb_ge in E2, E4. apply Qle_bool_false in E3.
  split; [|done]. split; simpl; try done; try lia; try apply NoDup_nil_2.
  - apply Qlt_shift_div_l; [done|]. change (0 * 60)%Q with (inject_Z 0). by rewrite -Zlt_Qlt.
  - change 1%Q with (inject_Z 1). rewrite -Zle_Qle. lia.
  - unfold identity_count. simpl. lia.
Qed.


(** *** The quota of a client *)

(** [admit] and the client's own bucket, when every earlier use of the table
    lies strictly in the past. *)
Lemma admit_charges rl client v now :
  limiter_ok rl → 2 ≤ rl_max_identities rl →
  (∀ j u, dget (rl_updated rl) j = Some u → u < now)%Q →
  ∃ d rl' available, RateLimiter_admit rl client v now = Ok (d, rl') ∧
    limiter_ok rl' ∧ clock_ok rl' now ∧ same_config rl rl' ∧
    dget (rl_updated rl') (client_ns rl client) = Some now ∧
    dget (rl_tokens rl') (client_ns rl client) =
      Some (if Qle_bool 1 available then available - 1 else available)%Q ∧
    (allowed d = true → Qle_bool 1 available = true) ∧
    (available <= rl_burst rl)%Q ∧
    (∀ last t, dget (rl_updated rl) (client_ns rl client) = Some last →
       dget (rl_tokens rl) (client_ns rl client) = Some t → (now - last <= rl_ttl rl)%Q →
       available = qmin (rl_burst rl) (t + (now - last) * rl_rate rl)%Q).
Proof.
  intros Hok Hmax Hpast. set (key := client_ns rl client).
  assert (clock_ok rl now) as Hclock by (intros k u Hu; by eapply Qlt_le_weak, Hpast).
  destruct (admit_cases rl client v now Hok Hclock) as (ok & rl1 & C1 & Hcases). fold key in C1, Hcases.
  destruct (co_bucket _ _ _ _ _ C1) as (available & Eok & Htok & Hform & _ & Hburst).
  rewrite Eok in Htok.
  destruct Hcases as [[Ef ->]|[(Et & _ & ->)|(Et & ns & ok' & rl2 & Ens & C2 & ->)]];
    eexists _, _, available; (split; [done|]).
  - split_and!; try done; apply C1.
  - split_and!; try done; apply C1 || congruence.
  - destruct (conversation_ns_Some rl v ns Hok Ens) as [_ Hne]. specialize (Hne client). fold key in Hne.
    assert (hottest rl1 key now) as Hhot.
    { split; [apply C1|]. intros j u Hj Hu.
      destruct (co_others _ _ _ _ _ C1 j Hj) as (_ & _ & Hsame); [by eapply dget_Some_key|].
      apply (Hpast j). by rewrite -Hsame. }
    pose proof (co_rate _ _ _ _ _ C1) as (_ & _ & Httl & _ & Hm).
    assert (key ∈ (rl_updated rl2).*1) as Hin.
    { apply (co_hottest _ _ _ _ _ C2 key now Hhot); [|lia]. rewrite Httl.
      pose proof (lk_ttl _ Hok). lra. }
    destruct (co_others _ _ _ _ _ C2 key Hne Hin) as (_ & -> & ->).
    split_and!; try done; [apply C2|apply C2|..|apply C1|congruence].
    by eapply same_config_trans; eapply consumed_config.
Qed.

Lemma last_call_cons start c calls : last_call start (c :: calls) = last_call (c_now c) calls.
Proof.
  unfold last_call. destruct calls as [|c' calls]; [done|]. rewrite last_cons_cons.
  by destruct (last (c' :: calls)) eqn:E; [|apply last_None in E].
Qed.

Lemma granted_cons d ds : granted (d :: ds) = (if allowed d then 1 else 0) + granted ds.
Proof.
  unfold granted. destruct (allowed d) eqn:E.
  - rewrite filter_cons_True //. cbn [length]. lia.
  - rewrite filter_cons_False; [congruence|]. lia.
Qed.

Lemma clocked_past rl now next : clock_ok rl now → (now < next)%Q →
  (∀ j u, dget (rl_updated rl) j = Some u → u < next)%Q.
Proof. intros H Hlt j u Hu. eapply Qle_lt_trans; [by eapply H|done]. Qed.

(** Tokens in the bucket plus the refill bound what is granted from now on. *)
Lemma run_potential rl client calls start t ds rl' :
  limiter_ok rl → 2 ≤ rl_max_identities rl →
  (rl_burst rl <= rl_rate rl * rl_ttl rl)%Q →
  clock_ok rl start →
  dget (rl_updated rl) (client_ns rl client) = Some start →
  dget (rl_tokens rl) (client_ns rl client) = Some t →
  clocked Qlt start calls → Forall (λ c, c_client c = client) calls →
  run rl calls = Ok (ds, rl') →
  (inject_Z (granted ds) <= t + rl_rate rl * (last_call start calls - start))%Q.
Proof.
  revert rl start t ds. induction calls as [|c calls IH];
    intros rl start t ds Hok Hmax Hfull Hclock Hu Ht Hcl Hcs; cbn [run].
  - intros [= <- <-]. unfold last_call. cbn. pose proof (lk_range _ Hok _ _ Ht) as [? _].
    change (inject_Z (granted [])) with 0%Q. lra.
  - destruct Hcl as [Hlt Hcl]. apply Forall_cons in Hcs as [Hc Hcs].
    destruct (admit_charges rl client (c_conversation c) (c_now c) Hok Hmax)
      as (d & rl1 & available & E & Hok1 & Hc1 & Hsame & Hu1 & Ht1 & Hall & Hb & Hform).
    { by eapply clocked_past. }
    rewrite Hc E. cbn [mbind res_bind fst snd]. rewrite -(client_ns_config rl rl1 client Hsame) in Hu1, Ht1.
    destruct (run rl1 calls) as [[ds1 rl2]|] eqn:Er; [|done]. intros [= <- <-]. cbn [fst snd] in *.
    destruct Hsame as (Sr & Sb & St & _ & Sm).
    assert (inject_Z (granted ds1) <=
      (if Qle_bool 1 available then available - 1 else available) +
      rl_rate rl1 * (last_call (c_now c) calls - c_now c))%Q as Hrec.
    { eapply IH; eauto; [lia|]. by rewrite Sr Sb St. }
    assert (available <= t + rl_rate rl * (c_now c - start))%Q as Hav.
    { destruct (Qlt_le_dec (rl_ttl rl) (c_now c - start)) as [Hgap|Hgap].
      - assert (rl_rate rl * rl_ttl rl <= rl_rate rl * (c_now c - start))%Q.
        { rewrite !(Qmult_comm (rl_rate rl)). pose proof (lk_rate _ Hok).
          apply Qmult_le_compat_r; lra. }
        pose proof (lk_range _ Hok _ _ Ht) as [? _]. lra.
      - rewrite (Hform start t Hu Ht Hgap).
        pose proof (qmin_le (rl_burst rl) (t + (c_now c - start) * rl_rate rl)) as [_ ?].
        rewrite (Qmult_comm (rl_rate rl)). lra. }
    rewrite last_call_cons granted_cons inject_Z_plus. rewrite Sr in Hrec.
    assert (rl_rate rl * (last_call (c_now c) calls - start) ==
      rl_rate rl * (last_call (c_now c) calls - c_now c) + rl_rate rl * (c_now c - start))%Q
      as -> by ring.
    destruct (allowed d).
    + rewrite (Hall eq_refl) in Hrec. change (inject_Z 1) with 1%Q. lra.
    + change (inject_Z 0) with 0%Q. destruct (Qle_bool 1 available); lra.
Qed.

(** A client that keeps changing its conversation identifier gets no fresh
    quota.  From any state of the table that satisfies the invariant, over any
    stretch in which the client alone is admitted, under whatever conversation
    keys, what is granted is at most the burst plus the refill of the elapsed
    time: its own bucket is never the one evicted.  The table must have room
    for two buckets, the clock must tick between calls, and the TTL must be
    long enough to refill a bucket. *)
Theorem rotating_conversations_share_quota (rl : RateLimiter) (client : string)
    (calls : list call) (start : Q) (ds : list AdmissionDecision) (rl' : RateLimiter) :
  limiter_ok rl → 2 ≤ rl_max_identities rl →
  (rl_burst rl <= rl_rate rl * rl_ttl rl)%Q →
  clock_ok rl start → clocked Qlt start calls →
  Forall (λ c, c_client c = client) calls →
  run rl calls = Ok (ds, rl') →
  (inject_Z (granted ds) <= rl_burst rl + rl_rate rl * (last_call start calls - start))%Q.
Proof.
  intros Hok Hmax Hfull Hclock Hcl Hcs. pose proof (lk_burst _ Hok) as Hb1.
  destruct calls as [|c calls]; cbn [run].
  { intros [= <- <-]. unfold last_call. cbn. change (inject_Z (granted [])) with 0%Q. lra. }
  destruct Hcl as [Hlt Hcl]. apply Forall_cons in Hcs as [Hc Hcs].
  destruct (admit_charges rl client (c_conversation c) (c_now c) Hok Hmax)
    as (d & rl1 & available & E & Hok1 & Hc1 & Hsame & Hu1 & Ht1 & Hall & Hb & _).
  { by eapply clocked_past. }
  rewrite Hc E. cbn [mbind res_bind fst snd]. rewrite -(client_ns_config rl rl1 client Hsame) in Hu1, Ht1.
  destruct (run rl1 calls) as [[ds1 rl2]|] eqn:Er; [|done]. intros [= <- <-]. cbn [fst snd] in *.
  destruct Hsame as (Sr & Sb & St & _ & Sm).
  pose proof (run_potential rl1 client calls (c_now c) _ ds1 rl2 Hok1 ltac:(lia)
    ltac:(by rewrite Sr Sb St) Hc1 Hu1 Ht1 Hcl Hcs Er) as Hrec.
  rewrite last_call_cons granted_cons inject_Z_plus. rewrite Sr in Hrec.
  assert (0 <= rl_rate rl * (c_now c - start))%Q.
  { apply Qmult_le_0_compat; [apply Qlt_le_weak, (lk_rate _ Hok)|lra]. }
  assert (rl_rate rl * (last_call (c_now c) calls - start) ==
    rl_rate rl * (last_call (c_now c) calls - c_now c) + rl_rate rl * (c_now c - start))%Q
    as -> by ring.
  destruct (allowed d).
  - rewrite (Hall eq_refl) in Hrec. change (inject_Z 1) with 1%Q. lra.
  - change (inject_Z 0) with 0%Q. destruct (Qle_bool 1 available); lra.
Qed.

(** *** [retry_after] *)

Lemma wait_suffices rl key later ok rl' :
  limiter_ok rl → consumed rl key later ok rl' →
  (∀ last t, dget (rl_updated rl) key = Some last → dget (rl_tokens rl) key = Some t →
     (1 <= t + (later - last) * rl_rate rl)%Q) →
  ok = true.
Proof.
  intros Hok C Hwait. pose proof (lk_burst _ Hok).
  destruct (co_bucket _ _ _ _ _ C) as (available & -> & _ & _ & Hav & _).
  apply Qle_bool_iff. destruct Hav as [->|(last & t & Hu & Ht & ->)]; [done|].
  apply qmin_glb; [done|]. by apply Hwait.
Qed.

(** The bucket that refused, once the announced time has passed. *)
Lemma refused_refills rl key now rl1 later :
  consumed rl key now false rl1 →
  (now + inject_Z (_seconds_until_token rl1 key) <= later)%Q →
  ∀ last t, dget (rl_updated rl1) key = Some last → dget (rl_tokens rl1) key = Some t →
    (1 <= t + (later - last) * rl_rate rl1)%Q.
Proof.
  intros C Hlater last t Hu Ht. rewrite (co_updated _ _ _ _ _ C) in Hu. injection Hu as <-.
  pose proof (co_limiter _ _ _ _ _ C) as Hok1.
  destruct (seconds_suffice rl1 key t Hok1 Ht) as [_ Hs].
  assert (inject_Z (_seconds_until_token rl1 key) * rl_rate rl1 <= (later - now) * rl_rate rl1)%Q.
  { pose proof (lk_rate _ Hok1). apply Qmult_le_compat_r; lra. }
  lra.
Qed.

(** The announced wait is long enough.  If a request is refused, then the
    same client asking again under the same conversation, no sooner than
    [retry_after] seconds later and with nothing in between, is not refused by
    the bucket that refused it. *)
Theorem retry_after_suffices (rl : RateLimiter) (client : string) (v : option string) (now : Q)
    (d : AdmissionDecision) (rl1 : RateLimiter) (s : limit_scope) (later : Q)
    (d' : AdmissionDecision) (rl2 : RateLimiter) :
  limiter_ok rl → clock_ok rl now →
  RateLimiter_admit rl client v now = Ok (d, rl1) → scope d = Some s →
  (now + inject_Z (retry_after d) <= later)%Q →
  RateLimiter_admit rl1 client v later = Ok (d', rl2) →
  scope d' ≠ Some s.
Proof.
  intros Hok Hclock E1 Hs Hlater.
  assert (limiter_ok rl1 ∧ clock_ok rl1 later ∧ same_config rl rl1) as (Hok1 & Hc1 & Hcfg).
  { destruct (admit_ok rl client v now Hok Hclock) as (? & ? & E & ? & Hc & ? & Hd & _).
    rewrite E1 in E. injection E as <- <-. split_and!; try done. intros k u Hu.
    eapply Qle_trans; [by eapply Hc|]. rewrite Zle_Qle in Hd. change (inject_Z 1) with 1%Q in Hd. lra. }
  destruct (admit_cases rl1 client v later Hok1 Hc1) as (ok & rl1' & C1 & Hcases).
  rewrite (client_ns_config rl rl1 client Hcfg) in C1, Hcases.
  destruct (admit_cases rl client v now Hok Hclock)
    as (ok0 & rl0 & C0 & [[-> E]|[(_ & _ & E)|(_ & ns & ok' & rl0' & Ens & C0' & E)]]);
    rewrite E1 in E; injection E as -> ->; simpl in *.
  - injection Hs as <-. assert (ok = true) as ->.
    { eapply wait_suffices; [done|done|]. by eapply refused_refills. }
    destruct Hcases as [[? _]|[(_ & _ & ->)|(_ & ns & ok' & rl3 & _ & _ & ->)]]; [done|..];
      intros [= <- <-]; [done|]. by destruct ok'.
  - done.
  - destruct ok'; [done|]. injection Hs as <-. simpl in Hlater.
    rewrite (conversation_ns_config rl rl0' v Hcfg) Ens in Hcases.
    destruct Hcases as [[_ ->]|[(_ & [=] & _)|(_ & ? & ok' & rl3 & [= <-] & C3 & ->)]];
      intros [= <- <-]; [done|].
    assert (ok' = true) as ->; [|done].
    eapply wait_suffices; [apply C1|done|]. intros last t Hu Ht.
    destruct (conversation_ns_Some rl v ns Hok Ens) as [_ Hne].
    destruct (co_others _ _ _ _ _ C1 ns) as (_ & Ht' & Hu');
      [by intros Heq; apply (Hne client)|by eapply dget_Some_key|].
    pose proof (co_rate _ _ _ _ _ C1) as (-> & _).
    eapply refused_refills; [done|done|congruence|congruence].
Qed.

(** *** Witnesses *)

Definition small_limiter (max_identities : Z) : RateLimiter :=
  match RateLimiter_init 60 1 0 max_identities 3600 256 with
  | Ok rl => rl
  | Err _ => MkLimiter 0 0 0 0 0 [] [] 0 0
  end.

Definition rotating (n : nat) : list call :=
  map (λ i, MkCall "10.0.0.1" (Some (String (chr (48 + Z.of_nat i)) EmptyString)) ((Z.of_nat i + 1) # 10)%Q)
      (seq 0 n).

Lemma small_limiter_ok max : 1 ≤ max → limiter_ok (small_limiter max) ∧ ∀ t, clock_ok (small_limiter max) t.
Proof.
  intros H. apply (init_ok 60 1 0 max 3600 256). unfold small_limiter, RateLimiter_init.
  destruct (Z.ltb_spec max 1); [lia|]. reflexivity.
Qed.


Theorem rotating_conversations_share_quota_witness :
  ∃ ds rl', run (small_limiter 2) (rotating 5) = Ok (ds, rl') ∧ granted ds = 1 ∧
  (inject_Z (granted ds) <= rl_burst (small_limiter 2) +
     rl_rate (small_limiter 2) * (last_call 0 (rotating 5) - 0))%Q.
Proof.
  destruct (run (small_limiter 2) (rotating 5)) as [[ds rl']|] eqn:E; [|by vm_compute in E].
  exists ds, rl'. split; [done|]. split.
  { revert E. vm_compute. by intros [= <- _]. }
  apply (rotating_conversations_share_quota (small_limiter 2) "10.0.0.1" (rotating 5) 0 ds rl').
  - by apply small_limiter_ok.
  - done.
  - vm_compute. congruence.
  - by apply small_limiter_ok.
  - vm_compute. repeat split; congruence.
  - repeat constructor.
  - exact E.
Defined.

Definition admitted (rl : RateLimiter) (client : string) (v : option string) (now : Q)
    : AdmissionDecision * RateLimiter :=
  match RateLimiter_admit rl client v now with Ok r => r | Err _ => (MkDecision false None 0, rl) end.

Theorem retry_after_suffices_witness :
  let rl := (admitted (small_limiter 2) "10.0.0.1" (Some "a") 1).2 in
  let r1 := admitted rl "10.0.0.1" (Some "a") 1 in
  let r2 := admitted r1.2 "10.0.0.1" (Some "a") 3 in
  scope r1.1 = Some SCOPE_CLIENT ∧ retry_after r1.1 = 2 ∧ scope r2.1 ≠ Some SCOPE_CLIENT.
Proof.
  intros rl r1 r2.
  destruct (small_limiter_ok 2 ltac:(lia)) as [Hok Hclock].
  assert (limiter_ok rl ∧ clock_ok rl 1) as [Hok1 Hc1].
  { destruct (admit_ok (small_limiter 2) "10.0.0.1" (Some "a") 1 Hok (Hclock 1%Q))
      as (d & rl' & E & Hok' & Hc' & _ & _). subst rl. unfold admitted. by rewrite E. }
  assert (scope r1.1 = Some SCOPE_CLIENT) as Hs by (vm_compute; reflexivity).
  assert (retry_after r1.1 = 2) as Hr by (vm_compute; reflexivity).
  split_and!; [done..|].
  apply (retry_after_suffices rl "10.0.0.1" (Some "a") 1 r1.1 r1.2 SCOPE_CLIENT 3 r2.1 r2.2
    Hok1 Hc1).
  - vm_compute. reflexivity.
  - exact Hs.
  - rewrite Hr. vm_compute. congruence.
  - vm_compute. reflexivity.
Defined.

(** With a table of a single bucket, which the settings accept, the bucket
    of the conversation evicts the one of its own client and conversely, so
    a client that keeps changing its conversation is always admitted: against a
    burst of one and one token per second, twenty requests in two seconds. *)
Example single_bucket_table_mints_quota :
  ∃ ds rl', run (small_limiter 1) (rotating 20) = Ok (ds, rl') ∧ granted ds = 20 ∧
  (last_call 0 (rotating 20) == 2)%Q.
Proof. eexists _, _. split; [vm_compute; reflexivity|]. split; reflexivity. Qed.
