(* ===== verification/Memory.v ===== *)
(** * The memory service's tables ([memory/service.py], [memory/models.py])

    Chunking of completed turns into [conversation_chunks], and the memory
    records with supersession.  PostgreSQL is the source of truth; the vector
    index is in [Retrieval].  A method is a transaction over the tables of
    [Store] extended with chunks, memories and the chunking watermark. *)

From stdpp Require Import gmap.
From Stdlib Require Import QArith.
From S2P Require Import Prelude PyDict PyString Json Tokens Planner Store.
Local Open Scope Z_scope.

(** [str(uuid)] and [uuid.UUID(text)], which is [None] where it raises. *)
Class Uuids : Type := {
  uuid_str : Z → string;
  uuid_parse : string → option Z;
}.

Class UuidLaws `{Uuids} : Prop := {
  uuid_parse_str : ∀ id, uuid_parse (uuid_str id) = Some id;
}.

(** ** Data *)

Inductive MemoryKind : Type :=
| DECISION | CONSTRAINT | FACT | TASK | BUG | IMPLEMENTATION | TOOL_RESULT
| EPISODE_SUMMARY | CONVERSATION_SUMMARY.

Definition MemoryKind_value (k : MemoryKind) : string :=
  match k with
  | DECISION => "decision" | CONSTRAINT => "constraint" | FACT => "fact" | TASK => "task"
  | BUG => "bug" | IMPLEMENTATION => "implementation" | TOOL_RESULT => "tool_result"
  | EPISODE_SUMMARY => "episode_summary" | CONVERSATION_SUMMARY => "conversation_summary"
  end.

Inductive MemoryStatus : Type := ACTIVE | SUPERSEDED | RESOLVED | OBSOLETE.

#[global] Instance MemoryStatus_eq_dec : EqDecision MemoryStatus.
Proof. solve_decision. Defined.

Record MemoryCreate : Type := MkMemoryCreate {
  mc_kind : MemoryKind;
  mc_content : string;
  mc_conversation_id : string;
  mc_source_message_ids : list Z;
  mc_importance : Q;
  mc_supersedes : option string;
  mc_metadata : obj;
}.

(** A row of [conversation_chunks]; [ck_vector_indexed] says whether
    [vector_indexed_at] is set. *)
Record ChunkRow : Type := MkChunkRow {
  ck_id : Z;
  ck_conversation : string;
  ck_start_seq : Z;
  ck_end_seq : Z;
  ck_message_ids : list Z;
  ck_raw_content : string;
  ck_token_count : Z;
  ck_created_at : Q;
  ck_vector_indexed : bool;
}.

(** A row of [memory_records]. *)
Record MemoryRow : Type := MkMemoryRow {
  mr_id : Z;
  mr_conversation : string;
  mr_kind : MemoryKind;
  mr_status : MemoryStatus;
  mr_content : string;
  mr_source_message_ids : list Z;
  mr_importance : Q;
  mr_supersedes : option Z;
  mr_superseded_by : option Z;
  mr_metadata : json;
  mr_created_at : Q;
}.

(** The tables.  [me_watermarks] is the column [last_chunked_seq] of the
    conversations where it is not NULL. *)
Record MemDB : Type := MkMemDB {
  me_db : DB;
  me_watermarks : gmap string Z;
  me_chunks : list ChunkRow;
  me_memories : list MemoryRow;
}.

Definition empty_memdb : MemDB := MkMemDB empty_db ∅ [] [].

(** One more identifier drawn. *)
Definition bump (db : DB) : DB :=
  MkDB (db_conversations db) (db_messages db) (db_tool_calls db) (db_tool_results db)
    (db_media db) (S (db_draws db)).

Definition mem_transaction {A} (f : MemDB → res (A * MemDB)) (st : MemDB) : res A * MemDB :=
  match f st with
  | Ok (a, st') => (Ok a, st')
  | Err e => (Err e, st)
  end.

Section memory.
Context {host : Host} {pg : Postgres} {uu : Uuids}.

(** ** Chunking *)

(** [SELECT COALESCE(MAX(seq), 0) ... role = 'user' AND seq <= COALESCE($2, -1)] *)
Definition chunk_boundary (rows : list MessageRow) (watermark : option Z) : Z :=
  match (m_seq <$> filter (λ r, m_role r = "user" ∧ m_seq r ≤ default (-1) watermark) rows) with
  | [] => 0
  | s :: ss => foldl Z.max s ss
  end.

(** [SELECT ... role <> 'system' AND seq >= $2 ORDER BY seq] *)
Definition chunk_window (db : DB) (conversation_id : string) (boundary : Z) : list MessageRow :=
  filter (λ r, m_role r ≠ "system" ∧ boundary ≤ m_seq r) (conversation_rows db conversation_id).

(** The loop that groups the rows: finished units and the current one. *)
Definition unit_step (acc : list (list MessageRow) * list MessageRow) (row : MessageRow)
    : list (list MessageRow) * list MessageRow :=
  let '(units, current) := acc in
  if bool_decide (m_role row = "user") && negb (bool_decide (current = []))
  then (units ++ [current], [row])
  else (units, current ++ [row]).

Definition turn_units (rows : list MessageRow) : list (list MessageRow) :=
  let '(units, current) := foldl unit_step ([], []) rows in
  if bool_decide (current = []) then units else units ++ [current].

(** [current[0]["seq"]] and [unit_rows[-1]["seq"]] *)
Definition start_of (rows : list MessageRow) : res Z :=
  match rows with r :: _ => Ok (m_seq r) | [] => Err IndexError end.

Definition end_of (rows : list MessageRow) : res Z :=
  match last rows with Some r => Ok (m_seq r) | None => Err IndexError end.

(** [INSERT ... ON CONFLICT (conversation_id, start_seq) DO NOTHING RETURNING id] *)
Definition _insert_chunk (now : Q) (st : MemDB) (conversation_id : string) (start_seq : Z)
    (unit_rows : list MessageRow) : res (option Z * MemDB) :=
  messages ← mapM (λ r, as_dict (m_content r)) unit_rows;
  let raw_content := join nl ((λ m, json_dumps style_default (JObj m)) <$> messages) in
  token_count ← TokenCounter_messages messages;
  end_seq ← end_of unit_rows;
  let id := uuid_at (db_draws (me_db st)) in
  let db := bump (me_db st) in
  if end_seq <? start_seq then Err PostgresError
  else if bool_decide ((conversation_id, start_seq)
            ∈ ((λ k, (ck_conversation k, ck_start_seq k)) <$> me_chunks st))
  then Ok (None, MkMemDB db (me_watermarks st) (me_chunks st) (me_memories st))
  else Ok (Some id, MkMemDB db (me_watermarks st)
             (me_chunks st ++ [MkChunkRow id conversation_id start_seq end_seq
                                 (m_id <$> unit_rows) raw_content token_count now false])
             (me_memories st)).

(** The loop over the settled units. *)
Record chunk_state : Type := ChunkState {
  cs_db : MemDB;
  cs_created : Z;
  cs_settled_end : option Z;
}.

Definition chunk_step (now : Q) (conversation_id : string) (cs : chunk_state)
    (unit_rows : list MessageRow) : res chunk_state :=
  start_seq ← start_of unit_rows;
  inserted ← _insert_chunk now (cs_db cs) conversation_id start_seq unit_rows;
  let '(chunk_id, db) := inserted in
  let created := match chunk_id with Some _ => cs_created cs + 1 | None => cs_created cs end in
  settled_end ← end_of unit_rows;
  Ok (ChunkState db created (Some settled_end)).

Definition set_watermark (st : MemDB) (conversation_id : string) (seq : Z) : MemDB :=
  MkMemDB (me_db st) (<[conversation_id := seq]> (me_watermarks st)) (me_chunks st)
    (me_memories st).

Definition _chunk_new_turns (now : Q) (conversation_id : string)
    : MemDB → res (Z * option Z) * MemDB :=
  mem_transaction (λ st,
    let watermark := me_watermarks st !! conversation_id in
    let boundary :=
      chunk_boundary (conversation_rows (me_db st) conversation_id) watermark in
    match chunk_window (me_db st) conversation_id boundary with
    | [] => Ok ((0, watermark), st)
    | rows =>
        let settled_units := removelast (turn_units rows) in
        cs ← foldM (chunk_step now conversation_id) (ChunkState st 0 None) settled_units;
        let st := match cs_settled_end cs with
                  | Some settled_end =>
                      if match watermark with None => true | Some w => w <? settled_end end
                      then set_watermark (cs_db cs) conversation_id settled_end
                      else cs_db cs
                  | None => cs_db cs
                  end in
        Ok ((cs_created cs, cs_settled_end cs), st)
    end).

(** ** Memory records *)

Definition set_memories (st : MemDB) (ms : list MemoryRow) : MemDB :=
  MkMemDB (me_db st) (me_watermarks st) (me_chunks st) ms.

Definition set_status (m : MemoryRow) (status : MemoryStatus) (by_ : option Z) : MemoryRow :=
  MkMemoryRow (mr_id m) (mr_conversation m) (mr_kind m) status (mr_content m)
    (mr_source_message_ids m) (mr_importance m) (mr_supersedes m) by_ (mr_metadata m)
    (mr_created_at m).

(** [UPDATE ... SET status = 'superseded', superseded_by = $1 WHERE id = $2 AND
    status <> 'superseded'] *)
Definition mark_superseded (memory_id target : Z) (m : MemoryRow) : MemoryRow :=
  if bool_decide (mr_id m = target) && negb (bool_decide (mr_status m = SUPERSEDED))
  then set_status m SUPERSEDED (Some memory_id) else m.

(** [if spec.supersedes:] with the parse of the identifier *)
Definition supersedes_id (spec : MemoryCreate) : res (option Z) :=
  match mc_supersedes spec with
  | None | Some EmptyString => Ok None
  | Some text => match uuid_parse text with
                 | Some id => Ok (Some id)
                 | None => Err (ValueError "badly formed hexadecimal UUID string")
                 end
  end.

(** The check of the target, before any write. *)
Definition check_target (st : MemDB) (spec : MemoryCreate) (target : Z) : res unit :=
  match list_find (λ m, mr_id m = target) (me_memories st) with
  | None => Err (ValueError ("supersedes target " +:+ default EmptyString (mc_supersedes spec)
                             +:+ " not found"))
  | Some (_, m) =>
      if decide (mr_conversation m = mc_conversation_id spec) then Ok tt
      else Err (ValueError "supersedes target belongs to a different conversation")
  end.

(** The transaction of [create_memory]; the embedding that follows is in
    [Retrieval]. *)
Definition create_memory (now : Q) (spec : MemoryCreate) (st : MemDB) : res Z * MemDB :=
  let memory_id := uuid_at (db_draws (me_db st)) in
  mem_transaction (λ st,
    (* [uuid4()] draws, the conversation row is bootstrapped *)
    let st := MkMemDB (_ensure_conversation (bump (me_db st)) (mc_conversation_id spec))
                (me_watermarks st) (me_chunks st) (me_memories st) in
    target ← supersedes_id spec;
    _ ← match target with Some t => check_target st spec t | None => Ok tt end;
    metadata ← jsonb (JObj (mc_metadata spec));
    let row := MkMemoryRow memory_id (mc_conversation_id spec) (mc_kind spec) ACTIVE
                 (mc_content spec) (mc_source_message_ids spec) (mc_importance spec)
                 target None metadata now in
    let ms := me_memories st ++ [row] in
    Ok (memory_id,
        set_memories st match target with
                        | Some t => mark_superseded memory_id t <$> ms
                        | None => ms
                        end)) st.

(** [UPDATE memory_records SET status = $2 WHERE id = $1 AND status = 'active'] *)
Definition supersede_memory (memory_id : Z) (status : MemoryStatus) (st : MemDB)
    : bool * MemDB :=
  let hit m := bool_decide (mr_id m = memory_id) && bool_decide (mr_status m = ACTIVE) in
  (existsb hit (me_memories st),
   set_memories st ((λ m, if hit m then set_status m status (mr_superseded_by m) else m)
                      <$> me_memories st)).
End memory.

(** ** Units of a transcript *)

(** Everything that can be chunked, and what may be chunked now: the last unit
    is the live interaction. *)
Definition dialogue_rows (db : DB) (c : string) : list MessageRow :=
  filter (λ r, m_role r ≠ "system") (rows_of db c).

Definition settled_units (db : DB) (c : string) : list (list MessageRow) :=
  removelast (turn_units (dialogue_rows db c)).

(** A unit has no user message but perhaps its first; every unit but the
    first one starts with a user message. *)
Definition unit_rows_ok (u : list MessageRow) : Prop :=
  ∃ r rest, u = r :: rest ∧ Forall (λ x, m_role x ≠ "user") rest.

Definition user_unit (u : list MessageRow) : Prop :=
  unit_rows_ok u ∧ ∃ r, head u = Some r ∧ m_role r = "user".

Definition well_split (us : list (list MessageRow)) : Prop :=
  Forall unit_rows_ok us ∧ Forall user_unit (tail us).

Lemma unit_steps_rest units current rest :
  current ≠ [] → Forall (λ x, m_role x ≠ "user") rest →
  foldl unit_step (units, current) rest = (units, current ++ rest).
Proof.
  intros Hne Hr. revert current Hne. induction Hr as [|x rest Hx _ IH]; intros current Hne; simpl.
  - by rewrite app_nil_r.
  - rewrite bool_decide_eq_false_2 //=. rewrite IH; [by destruct current|]. by rewrite -assoc.
Qed.

Lemma unit_steps_users units current us :
  current ≠ [] → Forall user_unit us →
  foldl unit_step (units, current) (concat us) =
    (units ++ removelast (current :: us), List.last (current :: us) []).
Proof.
  intros Hne Hus. revert units current Hne.
  induction Hus as [|u us [(r & rest & -> & Hrest) (r' & [= <-] & Hr)] _ IH];
    intros units current Hne.
  - simpl. by rewrite app_nil_r.
  - cbn [concat]. rewrite foldl_app. cbn [foldl unit_step]. rewrite bool_decide_eq_true_2 //=.
    rewrite bool_decide_eq_false_2 //=. rewrite unit_steps_rest // IH //. by rewrite -app_assoc.
Qed.

Lemma unit_steps_concat us :
  well_split us → us ≠ [] →
  foldl unit_step ([], []) (concat us) = (removelast us, List.last us []).
Proof.
  intros [Hu Hus] Hne. destruct us as [|u us]; [done|]. simpl in Hus.
  apply Forall_cons in Hu as [(r & rest & -> & Hrest) _]. cbn [concat]. rewrite foldl_app.
  assert (foldl unit_step ([], []) (r :: rest) = ([], r :: rest)) as ->.
  { cbn [foldl unit_step]. rewrite (bool_decide_eq_true_2 ([] = [])) // andb_false_r.
    by rewrite unit_steps_rest. }
  rewrite unit_steps_users //.
Qed.

(** The loop's state after any list of rows. *)
Lemma unit_steps_inv rows :
  let '(units, current) := foldl unit_step ([], []) rows in
  concat units ++ current = rows ∧
  (rows = [] → units = []) ∧ (rows ≠ [] → current ≠ [] ∧ well_split (units ++ [current])).
Proof.
  induction rows as [|r rows IH] using rev_ind; [by split_and!|].
  rewrite foldl_app. destruct (foldl unit_step ([], []) rows) as [units current].
  destruct IH as (Hc & Hnil & Hok). cbn [foldl unit_step].
  destruct (decide (rows = [])) as [->|Hne].
  - rewrite (Hnil eq_refl) in Hc |- *. simpl in Hc. subst current.
    rewrite (bool_decide_eq_true_2 ([] = [])) // andb_false_r. simpl.
    split_and!; [done|done|]. intros _. split; [done|]. split; [|constructor].
    constructor; [by exists r, []|constructor].
  - destruct (Hok Hne) as [Hcur [Hu Hus]]. rewrite (bool_decide_eq_false_2 (current = [])) //.
    case_bool_decide as Hr; simpl; split_and!;
      try (intros Hx; by apply app_nil in Hx as [_ ?]).
    + by rewrite concat_app /= app_nil_r Hc.
    + intros _. split; [done|]. assert (user_unit [r]) as Hr'.
      { split; [by exists r, []|by exists r]. }
      split; [apply Forall_app; split; [done|repeat constructor; apply Hr']|].
      destruct units as [|u units]; simpl in *.
      * by constructor.
      * apply Forall_app. split; [done|]. by constructor.
    + by rewrite app_assoc Hc.
    + intros _. split; [by destruct current|].
      apply Forall_app in Hu as [Hu Hcu]. apply Forall_cons in Hcu as [(r0 & rest & -> & Hrest) _].
      assert (unit_rows_ok ((r0 :: rest) ++ [r])) as Hu'.
      { exists r0, (rest ++ [r]). split; [done|]. apply Forall_app. split; [done|by constructor]. }
      split; [apply Forall_app; split; [done|by constructor]|].
      destruct units as [|u units]; simpl in *; [constructor|].
      apply Forall_app in Hus as [Hus Hl]. apply Forall_app. split; [done|].
      apply Forall_cons in Hl as [[_ (x & [= <-] & Hx)] _]. constructor; [|constructor].
      split; [done|]. by exists r0.
Qed.

Lemma turn_units_spec rows :
  concat (turn_units rows) = rows ∧ well_split (turn_units rows) ∧
  removelast (turn_units rows) = (foldl unit_step ([], []) rows).1.
Proof.
  unfold turn_units. pose proof (unit_steps_inv rows) as H.
  destruct (foldl unit_step ([], []) rows) as [units current]. destruct H as (Hc & Hnil & Hok).
  destruct (decide (rows = [])) as [->|Hne].
  - rewrite (Hnil eq_refl) in Hc |- *. simpl in Hc. subst current.
    by rewrite bool_decide_eq_true_2.
  - destruct (Hok Hne) as [Hcur Hws]. rewrite bool_decide_eq_false_2 //.
    split_and!; [by rewrite concat_app /= app_nil_r|done|]. by rewrite removelast_last.
Qed.

Lemma turn_units_concat us : well_split us → turn_units (concat us) = us.
Proof.
  intros Hus. destruct (decide (us = [])) as [->|Hne]; [done|].
  unfold turn_units. rewrite unit_steps_concat //.
  rewrite bool_decide_eq_false_2.
  - destruct Hus as [Hu _]. intros E. assert (List.last us [] ∈ us) as Hin.
    { destruct (exists_last Hne) as (l & x & ->). rewrite last_last. set_solver. }
    rewrite Forall_forall in Hu. destruct (Hu _ Hin) as (r & rest & Hr & _). congruence.
  - symmetry. by apply app_removelast_last.
Qed.

Lemma well_split_drop k us : well_split us → well_split (drop k us).
Proof.
  intros [Hu Hus]. split; [by apply Forall_drop|].
  revert us Hu Hus. induction k as [|k IH]; intros us Hu Hus; [by destruct us|].
  destruct us as [|u us]; [done|]. simpl in *. apply Forall_cons in Hu as [_ Hu].
  apply IH; [done|]. destruct us; [done|]. by apply Forall_cons in Hus as [_ ?].
Qed.

(** Appending messages only adds settled units. *)
Lemma settled_prefix rows rest :
  removelast (turn_units rows) `prefix_of` removelast (turn_units (rows ++ rest)).
Proof.
  destruct (turn_units_spec rows) as (_ & _ & ->), (turn_units_spec (rows ++ rest)) as (_ & _ & ->).
  rewrite foldl_app. generalize (foldl unit_step ([], []) rows).
  induction rest as [|r rest IH]; intros [units current]; [done|]. cbn [foldl].
  etrans; [|apply IH]. cbn [unit_step fst]. destruct (_ && _); simpl; [by apply prefix_app_r|done].
Qed.

(** ** The scan window *)

(** The last sequence number of a unit. *)
Definition end_z (u : list MessageRow) : Z := default 0 (m_seq <$> last u).

(** The sequence numbers of the rows increase strictly. *)
Definition ascending (rows : list MessageRow) : Prop :=
  StronglySorted (λ a b, m_seq a < m_seq b) rows.

Lemma ascending_rows `{Postgres} db c : db_ok db → ascending (rows_of db c).
Proof.
  intros Hok. pose proof (ok_seq _ Hok c) as Hs. unfold ascending. revert Hs.
  generalize (rows_of db c) as rows. intros rows. generalize 0%nat as k.
  induction rows as [|r rows IH]; intros k Hs; [constructor|].
  csimpl in Hs. injection Hs as Hr Hs. constructor; [by eapply IH|].
  apply Forall_forall. intros r' Hin. apply (list_elem_of_fmap_2 m_seq) in Hin.
  rewrite Hs in Hin. apply list_elem_of_fmap in Hin as (j & Hj & Hin%elem_of_seq). lia.
Qed.

Lemma seq_nonneg `{Postgres} db c r : db_ok db → r ∈ rows_of db c → 0 ≤ m_seq r.
Proof.
  intros Hok Hr. apply (list_elem_of_fmap_2 m_seq) in Hr. rewrite (ok_seq _ Hok c) in Hr.
  apply list_elem_of_fmap in Hr as (j & -> & _). lia.
Qed.

Lemma ascending_sublist k l : sublist k l → ascending l → ascending k.
Proof.
  unfold ascending. intros Hs. induction Hs as [|x k l Hs IH|x k l Hs IH]; intros Ha.
  - constructor.
  - inversion_clear Ha as [|?? Hl Hx]. constructor; [auto|].
    rewrite Forall_forall in Hx. apply Forall_forall. intros y Hy. apply Hx.
    by eapply sublist_subseteq.
  - inversion_clear Ha. auto.
Qed.

Lemma ascending_app k l :
  ascending (k ++ l) → ascending k ∧ ascending l ∧ ∀ a b, a ∈ k → b ∈ l → m_seq a < m_seq b.
Proof.
  unfold ascending. induction k as [|x k IH]; simpl; intros Ha.
  - split_and!; [constructor|done|set_solver].
  - inversion_clear Ha as [|?? Hkl Hx]. destruct (IH Hkl) as (Hk & Hl & Hlt).
    rewrite Forall_forall in Hx. split_and!.
    + constructor; [done|]. apply Forall_forall. intros y Hy. apply Hx. set_solver.
    + done.
    + intros a b [->|Ha]%elem_of_cons Hb; [apply Hx; set_solver|auto].
Qed.

(** The rows from a given one on. *)
Lemma filter_from l1 r l2 :
  ascending (l1 ++ r :: l2) → filter (λ x, m_seq r ≤ m_seq x) (l1 ++ r :: l2) = r :: l2.
Proof.
  intros (_ & Ha & Hlt)%ascending_app. rewrite filter_app filter_none.
  - apply Forall_forall. intros x Hx. specialize (Hlt x r Hx ltac:(set_solver)). lia.
  - simpl. apply filter_all. inversion_clear Ha as [|?? _ Hr].
    constructor; [lia|]. eapply Forall_impl; [exact Hr|]. simpl. lia.
Qed.

Lemma foldl_max_spec (s : Z) ss m :
  m ∈ s :: ss → (∀ x, x ∈ s :: ss → x ≤ m) → foldl Z.max s ss = m.
Proof.
  revert s. induction ss as [|x ss IH]; intros s Hin Hle; simpl.
  - set_solver.
  - apply IH.
    + pose proof (Hle s ltac:(set_solver)). pose proof (Hle x ltac:(set_solver)).
      apply elem_of_cons in Hin as [->|[->|Hin]%elem_of_cons]; [| |set_solver].
      * rewrite Z.max_l //. set_solver.
      * rewrite Z.max_r //. set_solver.
    + intros y [->|Hy]%elem_of_cons; [|apply Hle; set_solver].
      pose proof (Hle s ltac:(set_solver)). pose proof (Hle x ltac:(set_solver)). lia.
Qed.

Lemma last_end u : unit_rows_ok u → ∃ r, last u = Some r ∧ r ∈ u ∧ end_of u = Ok (m_seq r) ∧ end_z u = m_seq r.
Proof.
  intros (r & rest & -> & _). unfold end_of, end_z.
  destruct (last (r :: rest)) as [x|] eqn:E; [|by apply last_None in E].
  exists x. split_and!; [done| |done|done]. by apply last_Some_elem_of.
Qed.

(** The user messages of the dialogue up to a row. *)
Lemma boundary_hits `{Postgres} db c bound s :
  s ∈ m_seq <$> filter (λ r, m_role r = "user" ∧ m_seq r ≤ bound) (rows_of db c) ↔
  ∃ x, x ∈ dialogue_rows db c ∧ m_seq x = s ∧ m_role x = "user" ∧ m_seq x ≤ bound.
Proof.
  rewrite list_elem_of_fmap. split.
  - intros (x & -> & ([Hr Hs] & Hx)%list_elem_of_filter). exists x. split_and!; try done.
    unfold dialogue_rows. apply list_elem_of_filter. split; [by rewrite Hr|done].
  - intros (x & (_ & Hx)%list_elem_of_filter & <- & Hr & Hs). exists x. split; [done|].
    by apply list_elem_of_filter.
Qed.

(** Where a user message up to the end [z] of a unit can be: before the unit, or at
    its beginning, which comes first in it. *)
Lemma unit_users rows0 r rest rows2 z :
  ascending (rows0 ++ (r :: rest) ++ rows2) → Forall (λ r, m_role r ≠ "user") rest → z ∈ r :: rest →
  (∀ x, x ∈ rows0 ++ (r :: rest) ++ rows2 → m_role x = "user" → m_seq x ≤ m_seq z → x ∈ rows0 ∨ x = r) ∧
  (∀ x, x ∈ rows0 → m_seq x < m_seq r) ∧ m_seq r ≤ m_seq z.
Proof.
  intros Ha Hrest Hz. destruct (ascending_app _ _ Ha) as (_ & Ha2 & Hlt).
  destruct (ascending_app _ _ Ha2) as (Har & _ & Hlt2). split_and!.
  - intros x [Hx|Hx]%elem_of_app Hr Hs; [by left|right].
    apply elem_of_cons in Hx as [->|[Hx|Hx]%elem_of_app]; [done|..].
    + rewrite Forall_forall in Hrest. by apply Hrest in Hx.
    + pose proof (Hlt2 z x Hz Hx). lia.
  - intros x Hx. apply Hlt; [done|]. set_solver.
  - apply elem_of_cons in Hz as [->|Hz']; [lia|]. inversion_clear Har as [|?? _ Hall].
    rewrite Forall_forall in Hall. apply Hall in Hz'. lia.
Qed.

(** The boundary is the first row of the last chunked unit, or 0 if that one
    is the opening of the conversation. *)
Lemma boundary_unit `{Postgres} db c us1 u us2 :
  db_ok db → turn_units (dialogue_rows db c) = us1 ++ u :: us2 →
  chunk_boundary (conversation_rows db c) (Some (end_z u)) =
    match u with r :: _ => if decide (m_role r = "user") then m_seq r else 0 | [] => 0 end ∧
  (us1 ≠ [] → user_unit u).
Proof.
  intros Hok Hus. pose proof (turn_units_spec (dialogue_rows db c)) as (Hc & [Hu Htl] & _).
  rewrite Hus in Hc Hu Htl.
  assert (us1 ≠ [] → user_unit u) as Huser.
  { intros Hne. destruct us1 as [|u0 us1]; [done|]. simpl in Htl.
    apply Forall_app in Htl as [_ Htl]. by apply Forall_cons in Htl as [? _]. }
  split; [|done]. apply Forall_app in Hu as [_ Hu]. apply Forall_cons in Hu as [Hu _].
  destruct (last_end u Hu) as (z & Hz & Hzu & _ & ->). destruct Hu as (r & rest & -> & Hrest).
  rewrite concat_app in Hc. change (concat ((r :: rest) :: us2)) with ((r :: rest) ++ concat us2) in Hc.
  assert (ascending (concat us1 ++ (r :: rest) ++ concat us2)) as Ha.
  { rewrite Hc. eapply ascending_sublist; [apply sublist_filter|by apply ascending_rows]. }
  destruct (unit_users _ _ _ _ _ Ha Hrest Hzu) as (Hcase & Hlt & Hrz). rewrite Hc in Hcase.
  rewrite (conversation_rows_ok _ _ Hok). unfold chunk_boundary. cbn [default from_option id].
  pose proof (boundary_hits db c (m_seq z)) as Hhits. set (hits := m_seq <$> filter _ _) in *.
  case_decide as Hr.
  - assert (m_seq r ∈ hits) as Hin.
    { apply Hhits. exists r. split_and!; [rewrite -Hc; set_solver|done..]. }
    destruct hits as [|s ss]; [set_solver|]. apply foldl_max_spec; [done|].
    intros s' (x & Hx & <- & Hxr & Hxs)%Hhits.
    destruct (Hcase x Hx Hxr Hxs) as [Hx1| ->]; [|done]. pose proof (Hlt x Hx1). lia.
  - destruct hits as [|s ss]; [done|]. exfalso.
    destruct (proj1 (Hhits s) ltac:(set_solver)) as (x & Hx & <- & Hxr & Hxs).
    destruct (Hcase x Hx Hxr Hxs) as [Hx1| ->]; [|done].
    destruct (Huser ltac:(by destruct us1; set_solver)) as (_ & r' & [= <-] & ?). done.
Qed.

(** The watermark once [n] units are chunked. *)
Definition watermark_of (us : list (list MessageRow)) (n : nat) : option Z :=
  match n with O => None | S k => end_z <$> us !! k end.

Lemma window_filter `{Postgres} db c b :
  db_ok db → chunk_window db c b = filter (λ r, b ≤ m_seq r) (dialogue_rows db c).
Proof.
  intros Hok. unfold chunk_window, dialogue_rows. rewrite (conversation_rows_ok _ _ Hok).
  rewrite (list_filter_filter (λ r, b ≤ m_seq r) (λ r, m_role r ≠ "system")).
  apply list_filter_iff. tauto.
Qed.

Lemma window_all `{Postgres} db c :
  db_ok db → chunk_window db c 0 = dialogue_rows db c.
Proof.
  intros Hok. rewrite window_filter //. apply filter_all, Forall_forall.
  intros r [_ Hr]%list_elem_of_filter. by eapply seq_nonneg.
Qed.

(** The window holds exactly the units from the last chunked one on. *)
Lemma window_units `{Postgres} db c n :
  db_ok db → (n < length (turn_units (dialogue_rows db c)) ∨ n = 0)%nat →
  chunk_window db c
    (chunk_boundary (conversation_rows db c) (watermark_of (turn_units (dialogue_rows db c)) n))
  = concat (drop (pred n) (turn_units (dialogue_rows db c))).
Proof.
  intros Hok Hn. pose proof (turn_units_spec (dialogue_rows db c)) as (Hc & Hws & _).
  destruct n as [|k]; simpl.
  - assert (chunk_boundary (conversation_rows db c) None = 0) as ->.
    { unfold chunk_boundary. rewrite (conversation_rows_ok _ _ Hok) filter_none; [|done].
      apply Forall_forall. intros r Hr [_ Hs]. pose proof (seq_nonneg _ _ _ Hok Hr). simpl in Hs. lia. }
    by rewrite window_all // drop_0 Hc.
  - destruct Hn as [Hn|]; [|done].
    destruct (lookup_lt_is_Some_2 (turn_units (dialogue_rows db c)) k ltac:(lia)) as [u Hu].
    pose proof (take_drop_middle _ _ _ Hu) as Hsplit. rewrite Hu.
    change (end_z <$> Some u) with (Some (end_z u)).
    symmetry in Hsplit. destruct (boundary_unit db c _ u _ Hok Hsplit) as [-> Huser].
    pose proof Hws as [Hall _]. rewrite Forall_forall in Hall.
    destruct (Hall u) as (r & rest & -> & Hrest); [by eapply list_elem_of_lookup_2|].
    set (us := turn_units (dialogue_rows db c)) in *. clearbody us.
    rewrite (drop_S _ (r :: rest) k) //. cbn [concat].
    rewrite Hsplit concat_app /= in Hc. case_decide as Hr.
    + rewrite window_filter // -Hc. apply (filter_from _ r (rest ++ _)).
      change (concat ?a ++ r :: rest ++ ?b) with (concat a ++ (r :: rest ++ b)).
      rewrite Hc. eapply ascending_sublist; [apply sublist_filter|by apply ascending_rows].
    + rewrite window_all //. destruct (decide (take k us = [])) as [E|E].
      * rewrite E in Hc. by rewrite -Hc.
      * destruct (Huser E) as (_ & r' & [= <-] & ?). done.
Qed.

(** ** A chunking pass *)

Notation chunks_of st c := (filter (λ k, ck_conversation k = c) (me_chunks st)).

(** Each unit lies before the next one. *)
Lemma units_apart us i j u v a b :
  ascending (concat us) → us !! i = Some u → us !! j = Some v → (i < j)%nat →
  a ∈ u → b ∈ v → m_seq a < m_seq b.
Proof.
  intros Ha Hu Hv Hij Hau Hbv. rewrite -(take_drop_middle _ _ _ Hv) concat_app /= in Ha.
  destruct (ascending_app _ _ Ha) as (_ & _ & Hlt). apply Hlt; [|set_solver].
  apply list_elem_of_In, in_concat. exists u. rewrite -!list_elem_of_In. split; [|done].
  apply (list_elem_of_lookup_2 _ i). by rewrite lookup_take_lt.
Qed.

Lemma unit_rows_lookup us i u : well_split us → us !! i = Some u → unit_rows_ok u.
Proof. intros [Hu _] Hi. rewrite Forall_forall in Hu. apply Hu. by eapply list_elem_of_lookup_2. Qed.

Section chunking.
Context {host : Host} {pg : Postgres}.

(** [k] is the chunk of the unit [u] of conversation [c]. *)
Record chunk_of (c : string) (u : list MessageRow) (k : ChunkRow) : Prop := {
  co_conversation : ck_conversation k = c;
  co_start : start_of u = Ok (ck_start_seq k);
  co_end : end_of u = Ok (ck_end_seq k);
  co_ids : ck_message_ids k = m_id <$> u;
  co_content : ∃ ds, mapM (λ r, as_dict (m_content r)) u = Ok ds ∧
    ck_raw_content k = join nl ((λ m, json_dumps style_default (JObj m)) <$> ds) ∧
    TokenCounter_messages ds = Ok (ck_token_count k);
}.

(** The first [n] settled units of [c] are chunked, in order, and nothing else. *)
Record chunked (st : MemDB) (c : string) (n : nat) : Prop := {
  cd_bound : (n ≤ length (settled_units (me_db st) c))%nat;
  cd_chunks : Forall2 (chunk_of c) (take n (settled_units (me_db st) c)) (chunks_of st c);
  cd_watermark : me_watermarks st !! c = watermark_of (settled_units (me_db st) c) n;
}.

(** The loop after the units [pre] of the window. *)
Record pass_inv (st : MemDB) (c : string) (n : nat) (pre : list (list MessageRow))
    (cs : chunk_state) : Prop := {
  pi_messages : db_messages (me_db (cs_db cs)) = db_messages (me_db st);
  pi_db : db_ok (me_db (cs_db cs));
  pi_draws : (db_draws (me_db st) ≤ db_draws (me_db (cs_db cs)))%nat;
  pi_watermarks : me_watermarks (cs_db cs) = me_watermarks st;
  pi_memories : me_memories (cs_db cs) = me_memories st;
  pi_prefix : me_chunks st `prefix_of` me_chunks (cs_db cs);
  pi_others : ∀ c', c' ≠ c → chunks_of (cs_db cs) c' = chunks_of st c';
  pi_chunks : Forall2 (chunk_of c)
    (take (n `max` (pred n + length pre)) (settled_units (me_db st) c)) (chunks_of (cs_db cs) c);
  pi_created : cs_created cs = Z.of_nat (n `max` (pred n + length pre) - n);
  pi_end : cs_settled_end cs = end_z <$> last pre;
}.

Lemma bump_ok db : db_ok db → db_ok (bump db).
Proof.
  intros [Hs Hk Hc Hr Hd Hi Hf]. split; try done.
  - eapply Forall_impl; [exact Hd|]. intros r (i & ? & ?). exists i. simpl. split; [lia|done].
  - eapply refs_ok_messages; [exact Hf|done..].
Qed.

Lemma start_of_ok u : unit_rows_ok u → ∃ r rest, u = r :: rest ∧ start_of u = Ok (m_seq r).
Proof. intros (r & rest & -> & _). by exists r, rest. Qed.

Lemma settled_lookup db c i u :
  settled_units db c !! i = Some u → turn_units (dialogue_rows db c) !! i = Some u.
Proof.
  unfold settled_units. intros H. eapply prefix_lookup_Some; [exact H|].
  destruct (decide (turn_units (dialogue_rows db c) = [])) as [->|Hne]; [done|].
  rewrite {2}(app_removelast_last [] Hne). by apply prefix_app_r.
Qed.

Lemma ascending_dialogue db c : db_ok db → ascending (concat (turn_units (dialogue_rows db c))).
Proof.
  intros Hok. destruct (turn_units_spec (dialogue_rows db c)) as (-> & _).
  eapply ascending_sublist; [apply sublist_filter|by apply ascending_rows].
Qed.

(** The uniqueness check on [(conversation_id, start_seq)]. *)
Lemma start_taken st c m i u s :
  db_ok (me_db st) →
  Forall2 (chunk_of c) (take m (settled_units (me_db st) c)) (chunks_of st c) →
  (m ≤ length (settled_units (me_db st) c))%nat →
  settled_units (me_db st) c !! i = Some u → start_of u = Ok s →
  ((c, s) ∈ ((λ k, (ck_conversation k, ck_start_seq k)) <$> me_chunks st) ↔ (i < m)%nat).
Proof.
  intros Hok Hall Hm Hu Hs. pose proof (turn_units_spec (dialogue_rows (me_db st) c)) as (_ & Hws & _).
  rewrite list_elem_of_fmap. split.
  - intros (k & [= -> ->] & Hk).
    assert (k ∈ chunks_of st (ck_conversation k)) as Hin by (by apply list_elem_of_filter).
    apply list_elem_of_lookup in Hin as [j Hj].
    destruct (Forall2_lookup_r _ _ _ _ _ Hall Hj) as (v & Hv & [_ Hsv _ _ _]).
    assert (j < m)%nat as Hjm.
    { apply lookup_lt_Some in Hv. rewrite length_take in Hv. lia. }
    rewrite lookup_take_lt // in Hv. destruct (decide (i < m)%nat); [done|]. exfalso.
    apply settled_lookup in Hu, Hv.
    destruct (start_of_ok u) as (a & ? & -> & Ha); [by eapply unit_rows_lookup|].
    destruct (start_of_ok v) as (b & ? & -> & Hb); [by eapply unit_rows_lookup|].
    assert (m_seq b < m_seq a) by
      (eapply (units_apart _ j i); [by apply ascending_dialogue|done|done|lia|left|left]).
    rewrite Ha in Hs. rewrite Hb in Hsv. simplify_eq. lia.
  - intros Hi. assert (take m (settled_units (me_db st) c) !! i = Some u) as Hui
      by (by rewrite lookup_take_lt).
    destruct (Forall2_lookup_l _ _ _ _ _ Hall Hui) as (k & Hk & [Hc Hsk _ _ _]).
    exists k. rewrite Hs in Hsk. injection Hsk as ->. split; [by rewrite Hc|].
    apply list_elem_of_lookup_2 in Hk. by apply list_elem_of_filter in Hk as [_ ?].
Qed.

Lemma take_max_in {A} (l : list A) n i : (S i ≤ n)%nat → take (n `max` S i) l = take (n `max` i) l.
Proof. intros H. f_equal. lia. Qed.

(** What the insertion of one chunk does. *)
Lemma insert_chunk_inv now st c u s r st' :
  start_of u = Ok s → _insert_chunk now st c s u = Ok (r, st') →
  ∃ k, chunk_of c u k ∧
    me_db st' = bump (me_db st) ∧ me_watermarks st' = me_watermarks st ∧
    me_memories st' = me_memories st ∧
    (if decide ((c, s) ∈ ((λ k, (ck_conversation k, ck_start_seq k)) <$> me_chunks st))
     then r = None ∧ me_chunks st' = me_chunks st
     else r ≠ None ∧ me_chunks st' = me_chunks st ++ [k]).
Proof.
  intros Hs. unfold _insert_chunk. intros H. inv_res.
  destruct (_ <? s); [done|].
  match goal with |- context [chunk_of c u] =>
    exists (MkChunkRow (uuid_at (db_draws (me_db st))) c s a1 (m_id <$> u)
      (join nl ((λ m, json_dumps style_default (JObj m)) <$> a)) a0 now false) end.
  case_bool_decide as Hin; inv_res; (split; [by split; eauto|]).
  - by rewrite decide_True.
  - by rewrite decide_False.
Qed.

Lemma chunk_step_inv now st c n pre u cs cs' :
  (n ≤ length (settled_units (me_db st) c))%nat →
  pre ++ [u] `prefix_of` drop (pred n) (settled_units (me_db st) c) →
  pass_inv st c n pre cs → chunk_step now c cs u = Ok cs' → pass_inv st c n (pre ++ [u]) cs'.
Proof.
  intros Hn Hpre [Hm Hok Hdr Hw Hmem Hpref Hoth Hch Hcr Hend] Hstep.
  set (i := (pred n + length pre)%nat) in *.
  assert (settled_units (me_db st) c !! i = Some u) as Hi.
  { rewrite /i -lookup_drop. eapply prefix_lookup_Some; [|exact Hpre].
    by rewrite lookup_app_r // Nat.sub_diag. }
  pose proof (lookup_lt_Some _ _ _ Hi) as Hlt.
  assert (settled_units (me_db (cs_db cs)) c = settled_units (me_db st) c) as Hsame
    by (unfold settled_units, dialogue_rows; by rewrite Hm).
  unfold chunk_step in Hstep. inv_res. destruct a0 as [r st']. inv_res.
  destruct (insert_chunk_inv _ _ _ _ _ _ _ Hok0 Hok1) as (k & Hk & Hdb & Hw' & Hmem' & Hins).
  pose proof (start_taken (cs_db cs) c (n `max` i) i u a Hok) as Htaken.
  rewrite Hsame in Htaken. specialize (Htaken Hch ltac:(lia) Hi Hok0).
  pose proof (unit_rows_lookup _ i u (proj1 (proj2 (turn_units_spec (dialogue_rows (me_db st) c))))
    (settled_lookup _ _ _ _ Hi)) as Hu.
  destruct (last_end u Hu) as (z & _ & _ & Hz & Hz'). rewrite Hz in Hok2. injection Hok2 as <-.
  assert (pred n + length (pre ++ [u]) = S i)%nat as Ei by (rewrite /i length_app /=; lia).
  clearbody i. split; simpl; rewrite ?Ei ?Hdb ?Hw' ?Hmem' //.
  - by apply bump_ok.
  - simpl. lia.
  - case_decide; destruct Hins as [_ ->]; [done|]. by apply prefix_app_r.
  - intros c' Hne. case_decide; destruct Hins as [_ ->]; [by apply Hoth|].
    rewrite filter_app Hoth // (filter_none _ [k]) ?app_nil_r //.
    constructor; [|done]. destruct Hk as [-> _ _ _ _]. congruence.
  - case_decide as Hd; destruct Hins as [_ ->].
    + apply Htaken in Hd. by rewrite take_max_in; [lia|].
    + rewrite Htaken in Hd. replace (n `max` S i)%nat with (S i) by lia.
      rewrite (take_S_r _ _ u) // filter_app (filter_all _ [k]).
      * constructor; [|done]. by destruct Hk.
      * apply Forall2_app; [|by constructor]. by replace i with (n `max` i)%nat by lia.
  - case_decide as Hd; destruct Hins as [Hr _]; rewrite Htaken in Hd.
    + rewrite Hr Hcr. f_equal. lia.
    + destruct r; [|done]. rewrite Hcr. lia.
  - rewrite last_snoc /= Hz'. done.
Qed.

(** Every message of the conversation can be counted. *)
Definition countable_rows (db : DB) (c : string) : Prop :=
  Forall (λ r, ∀ d, m_content r = JObj d → is_ok (TokenCounter_message d) = true) (rows_of db c).

Lemma chunk_step_total now st c u cs :
  db_ok (me_db st) → countable_rows (me_db st) c →
  u ∈ settled_units (me_db st) c → ∃ cs', chunk_step now c cs u = Ok cs'.
Proof.
  intros Hok Hcount Hu. apply list_elem_of_lookup in Hu as [i Hi]. apply settled_lookup in Hi.
  destruct (turn_units_spec (dialogue_rows (me_db st) c)) as (Hc & Hws & _).
  assert (u ⊆ rows_of (me_db st) c) as Hsub.
  { intros r Hr. assert (r ∈ dialogue_rows (me_db st) c) as Hin.
    { rewrite -Hc. apply list_elem_of_In, in_concat. exists u. rewrite -!list_elem_of_In.
      split; [by eapply list_elem_of_lookup_2|done]. }
    by apply list_elem_of_filter in Hin as [_ ?]. }
  assert (ascending u) as Hasc.
  { pose proof (ascending_dialogue _ c Hok) as Ha.
    rewrite -(take_drop_middle _ _ _ Hi) concat_app /= in Ha.
    apply ascending_app in Ha as (_ & Ha & _). by apply ascending_app in Ha as (? & _ & _). }
  destruct (start_of_ok u) as (r & rest & Eu & Hs); [by eapply unit_rows_lookup|].
  destruct (last_end u) as (z & _ & Hz & He & _); [by eapply unit_rows_lookup|].
  assert (∃ ds, mapM (λ r, as_dict (m_content r)) u = Ok ds ∧ countable_messages ds)
    as (ds & Hds & Hcd).
  { clear -Hsub Hok Hcount. pose proof (ok_content _ Hok) as Hcont.
    unfold countable_rows in Hcount. rewrite Forall_forall in Hcount.
    rewrite Forall_forall in Hcont. revert Hsub. induction u as [|x u IH]; intros Hsub.
    - exists []. split; [done|constructor].
    - destruct IH as (ds & E & Hd); [set_solver|].
      assert (x ∈ rows_of (me_db st) c) as Hx by set_solver.
      destruct (Hcont x) as (d & Hd' & _); [by apply list_elem_of_filter in Hx as [_ ?]|].
      exists (d :: ds). cbn [mapM]. rewrite Hd' /= E /=. split; [done|].
      constructor; [by apply (Hcount x)|done]. }
  destruct (messages_countable ds Hcd) as [t Ht].
  unfold chunk_step. rewrite Hs /=. unfold _insert_chunk. rewrite Hds /= Ht /= He /=.
  destruct (Z.ltb_spec (m_seq z) (m_seq r)) as [Hlt|_].
  - exfalso. subst u. inversion_clear Hasc as [|?? _ Hr]. rewrite Forall_forall in Hr.
    apply elem_of_cons in Hz as [->|Hz]; [lia|]. apply Hr in Hz. lia.
  - case_bool_decide; simpl; eauto.
Qed.

(** The state after a pass, in terms of the state before. *)
Record passed (st : MemDB) (c : string) (n : nat) (created : Z) (st' : MemDB) : Prop := {
  ps_chunked : chunked st' c (length (settled_units (me_db st) c));
  ps_created : created = Z.of_nat (length (settled_units (me_db st) c) - n);
  ps_messages : db_messages (me_db st') = db_messages (me_db st);
  ps_db : db_ok (me_db st');
  ps_draws : (db_draws (me_db st) ≤ db_draws (me_db st'))%nat;
  ps_memories : me_memories st' = me_memories st;
  ps_prefix : me_chunks st `prefix_of` me_chunks st';
  ps_others : ∀ c', c' ≠ c → chunks_of st' c' = chunks_of st c' ∧
    me_watermarks st' !! c' = me_watermarks st !! c';
}.

Lemma watermark_fresh us n u :
  ascending (concat us) → well_split us → last us = Some u → (n ≤ length us)%nat →
  match watermark_of us n with
  | None => n = 0%nat
  | Some w => if w <? end_z u then (n < length us)%nat else n = length us ∧ w = end_z u
  end.
Proof.
  intros Ha Hws Hlast Hn. destruct n as [|k]; simpl; [done|].
  destruct (lookup_lt_is_Some_2 us k ltac:(lia)) as [v Hv]. rewrite Hv /=.
  rewrite last_lookup in Hlast.
  destruct (decide (k = pred (length us))) as [->|Hne].
  - rewrite Hlast in Hv. injection Hv as <-. rewrite Z.ltb_irrefl. split; [lia|done].
  - destruct (last_end v (unit_rows_lookup _ _ _ Hws Hv)) as (a & _ & Hav & _ & ->).
    destruct (last_end u (unit_rows_lookup _ _ _ Hws Hlast)) as (b & _ & Hbu & _ & ->).
    pose proof (lookup_lt_Some _ _ _ Hlast).
    assert (m_seq a < m_seq b) by (eapply (units_apart us k); [done..|lia|done|done]).
    destruct (Z.ltb_spec (m_seq a) (m_seq b)); lia.
Qed.

Lemma settled_split db c :
  db_ok db → ascending (concat (settled_units db c)) ∧ well_split (settled_units db c).
Proof.
  intros Hok. pose proof (ascending_dialogue db c Hok) as Ha.
  pose proof (turn_units_spec (dialogue_rows db c)) as (_ & Hws & _). unfold settled_units.
  destruct (decide (turn_units (dialogue_rows db c) = [])) as [->|Hne]; [by split; [constructor|split; constructor]|].
  pose proof (app_removelast_last [] Hne) as E. set (us := removelast _) in *. rewrite E in Ha Hws.
  rewrite concat_app in Ha. apply ascending_app in Ha as (Ha & _ & _). split; [done|].
  destruct Hws as [Hu Htl]. apply Forall_app in Hu as [Hu _]. split; [done|].
  destruct us as [|u us']; [done|]. simpl in *. by apply Forall_app in Htl as [? _].
Qed.

Lemma removelast_drop {A} n (l : list A) : (n < length l)%nat → removelast (drop n l) = drop n (removelast l).
Proof.
  revert l. induction n as [|n IH]; intros l Hn; [by rewrite !drop_0|].
  destruct l as [|x [|y l]]; simpl in *; [lia..|]. apply (IH (y :: l)). simpl. lia.
Qed.

Lemma length_removelast {A} (l : list A) : length (removelast l) = pred (length l).
Proof.
  induction l as [|x l IH]; [done|]. destruct l as [|y l]; [done|].
  change (removelast (x :: y :: l)) with (x :: removelast (y :: l)). cbn [length pred] in *.
  by rewrite IH.
Qed.

Lemma last_drop_lt {A} n (l : list A) : (n < length l)%nat → last (drop n l) = last l.
Proof.
  intros Hn. rewrite -{2}(take_drop n l) last_app.
  destruct (last (drop n l)) eqn:E; [done|].
  apply last_None in E. by destruct (drop_nonempty n l Hn).
Qed.

(** The update of the watermark at the end of a pass. *)
Lemma watermark_update st c n cs :
  db_ok (me_db st) → (n ≤ length (settled_units (me_db st) c))%nat →
  me_watermarks (cs_db cs) = me_watermarks st →
  me_watermarks st !! c = watermark_of (settled_units (me_db st) c) n →
  cs_settled_end cs = end_z <$> last (drop (pred n) (settled_units (me_db st) c)) →
  let st' := match cs_settled_end cs with
             | Some settled_end =>
                 if match watermark_of (settled_units (me_db st) c) n with
                    | None => true | Some w => w <? settled_end end
                 then set_watermark (cs_db cs) c settled_end
                 else cs_db cs
             | None => cs_db cs
             end in
  me_db st' = me_db (cs_db cs) ∧ me_chunks st' = me_chunks (cs_db cs) ∧
  me_memories st' = me_memories (cs_db cs) ∧
  me_watermarks st' !! c =
    watermark_of (settled_units (me_db st) c) (length (settled_units (me_db st) c)) ∧
  ∀ c', c' ≠ c → me_watermarks st' !! c' = me_watermarks st !! c'.
Proof.
  intros Hok Hn Hw Hwc Hend. destruct (settled_split (me_db st) c Hok) as [Ha Hws].
  set (us := settled_units (me_db st) c) in *. clearbody us. rewrite Hend.
  destruct (decide (us = [])) as [->|Hne].
  - rewrite drop_nil /=. destruct n; [|simpl in Hn; lia]. rewrite Hw Hwc. by split_and!.
  - assert (pred n < length us)%nat as Hlt by (destruct us; [done|simpl in *; lia]).
    rewrite last_drop_lt //. destruct (last us) as [u|] eqn:El; [|by apply last_None in El].
    pose proof (watermark_fresh us n u Ha Hws El Hn) as Hf. simpl.
    assert (watermark_of us (length us) = Some (end_z u)) as Efin.
    { destruct us as [|x us']; [done|]. cbn [length watermark_of]. rewrite last_lookup in El.
      cbn [length pred] in El. by rewrite El. }
    rewrite Efin.
    assert (let st' := set_watermark (cs_db cs) c (end_z u) in
      me_db st' = me_db (cs_db cs) ∧ me_chunks st' = me_chunks (cs_db cs) ∧
      me_memories st' = me_memories (cs_db cs) ∧ me_watermarks st' !! c = Some (end_z u) ∧
      ∀ c', c' ≠ c → me_watermarks st' !! c' = me_watermarks st !! c') as Hset.
    { simpl. split_and!; [done..|by rewrite lookup_insert_eq|].
      intros c' Hc'. rewrite lookup_insert_ne // Hw //. }
    destruct (watermark_of us n) as [w|] eqn:Ewn; [|exact Hset].
    destruct (w <? end_z u); [exact Hset|]. destruct Hf as [-> ->].
    split_and!; [done..|by rewrite Hw Hwc|]. by rewrite Hw.
Qed.

(** The loop over the settled units that are not chunked, and the watermark after it. *)
Lemma chunk_loop_passed now st c n cs :
  db_ok (me_db st) → chunked st c n → let us := settled_units (me_db st) c in
  foldM (chunk_step now c) (ChunkState st 0 None) (drop (pred n) us) = Ok cs →
  passed st c n (cs_created cs)
    (match cs_settled_end cs with
     | Some settled_end =>
         if match watermark_of us n with None => true | Some w => w <? settled_end end
         then set_watermark (cs_db cs) c settled_end else cs_db cs
     | None => cs_db cs
     end).
Proof.
  intros Hok [Hn Hch Hw] S Ef. subst S. set (S := settled_units (me_db st) c) in *.
  assert (drop (pred n) S `prefix_of` drop (pred n) S → pass_inv st c n (drop (pred n) S) cs) as Hinv.
  { revert Ef. apply (foldM_inv _ (λ pre cs, pre `prefix_of` drop (pred n) S → pass_inv st c n pre cs)).
    - intros _. split; simpl; try done; [|lia].
      by replace (n `max` (pred n + 0))%nat with n by lia.
    - intros pre u t t' Hi Hstep Hpre. eapply chunk_step_inv; [done|done| |exact Hstep].
      apply Hi. etrans; [|exact Hpre]. by apply prefix_app_r. }
  destruct (Hinv ltac:(done)) as [Hm Hok' Hdr Hw' Hmem Hpref Hoth Hch' Hcr Hend].
  assert (n `max` (pred n + length (drop (pred n) S)) = length S)%nat as Elen
    by (rewrite length_drop; lia).
  rewrite Elen in Hch', Hcr.
  destruct (watermark_update st c n cs Hok Hn Hw' Hw Hend) as (E1 & E2 & E3 & E4 & E5).
  assert (∀ c', settled_units (me_db (cs_db cs)) c' = settled_units (me_db st) c') as Esame.
  { intros c'. unfold settled_units, dialogue_rows. by rewrite Hm. }
  split; [|by rewrite Hcr|by rewrite E1|by rewrite E1|by rewrite E1|by rewrite E3|by rewrite E2|].
  - split; rewrite ?E1 ?E2 Esame; [done| |done]. by rewrite firstn_all in Hch' |- *.
  - intros c' Hne. split; [rewrite E2; by apply Hoth|by apply E5].
Qed.

(** A pass either leaves everything as it was or chunks all that is settled;
    it does the latter when the messages can be counted. *)
Lemma chunk_pass_spec now st c n :
  db_ok (me_db st) → chunked st c n →
  (∃ created last_end st', _chunk_new_turns now c st = (Ok (created, last_end), st') ∧
     passed st c n created st') ∨
  (∃ e, _chunk_new_turns now c st = (Err e, st) ∧ ¬ countable_rows (me_db st) c).
Proof.
  intros Hok [Hn Hch Hw]. unfold _chunk_new_turns, mem_transaction.
  pose proof (turn_units_spec (dialogue_rows (me_db st) c)) as (Hc & Hws & _).
  set (us := turn_units (dialogue_rows (me_db st) c)) in *.
  assert (settled_units (me_db st) c = removelast us) as Es by done.
  assert (watermark_of (settled_units (me_db st) c) n = watermark_of us n) as Ew.
  { destruct n as [|k]; simpl; [done|].
    destruct (lookup_lt_is_Some_2 (settled_units (me_db st) c) k ltac:(lia)) as [u Hu].
    by rewrite Hu (settled_lookup _ _ _ _ Hu). }
  rewrite Hw Ew. assert (n < length us ∨ n = 0)%nat as Hnu.
  { rewrite Es length_removelast in Hn. destruct n; lia. }
  rewrite (window_units _ _ _ Hok Hnu). fold us.
  destruct (concat (drop (pred n) us)) as [|r0 rows0] eqn:Ec.
  { left. assert (us = []) as Eus.
    { destruct us as [|u us'] eqn:E; [done|]. exfalso.
      destruct (drop_nonempty (pred n) (u :: us')); [simpl in *; lia|].
      pose proof (well_split_drop (pred n) _ Hws) as [Hd _].
      destruct (drop (pred n) (u :: us')); [done|].
      apply Forall_cons in Hd as [(r & rest & -> & _) _]. done. }
    rewrite Eus /= in Es. rewrite Es /= in Hn. assert (n = 0%nat) as -> by lia.
    eexists _, _, st. split; [done|]. split; rewrite ?Es; try done. by split; rewrite ?Es. }
  rewrite -Ec turn_units_concat; [by apply well_split_drop|].
  rewrite removelast_drop; [destruct us; [by rewrite drop_nil in Ec|simpl in *; lia]|].
  rewrite -Es. clear Ec r0 rows0.
  set (S := settled_units (me_db st) c) in *.
  destruct (foldM _ _ _) as [cs|e] eqn:Ef; simpl.
  - left. eexists _, _, _. split; [done|]. rewrite -Ew. by apply (chunk_loop_passed now).
  - right. exists e. split; [done|]. intros Hcount.
    destruct (foldM_total (chunk_step now c) (λ _ _, True) (ChunkState st 0 None) (drop (pred n) S))
      as (cs & Hcs & _); [done| |congruence].
    intros pre u t Hpre _. destruct (chunk_step_total now st c u t Hok Hcount) as [t' Ht].
    + apply (subseteq_drop (pred n)). eapply prefix_subset; [exact Hpre|]. set_solver.
    + eauto.
Qed.
End chunking.

(** ** Supersession *)

(** What may happen to a memory record: its status and [superseded_by] only,
    and nothing any more once it is superseded. *)
Record evolves (m m' : MemoryRow) : Prop := {
  ev_same : set_status m' (mr_status m) (mr_superseded_by m) = m;
  ev_final : mr_status m = SUPERSEDED → m' = m;
  ev_inactive : mr_status m ≠ ACTIVE → mr_status m' = mr_status m ∨ mr_status m' = SUPERSEDED;
}.

#[global] Instance evolves_preorder : PreOrder evolves.
Proof.
  split.
  - intros m. split; [by destruct m|done|by left].
  - intros a b c [Hs1 Hf1 Hi1] [Hs2 Hf2 Hi2]. split.
    + destruct a, b, c. unfold set_status in *. simpl in *. congruence.
    + intros Ha. rewrite (Hf2); [by rewrite (Hf1 Ha)|]. by apply Hf1.
    + intros Ha. destruct (Hi1 Ha) as [E|E].
      * destruct (Hi2 ltac:(congruence)) as [E'|E']; [left; congruence|by right].
      * right. by rewrite (Hf2 E).
Qed.

Lemma evolves_fields m m' :
  evolves m m' → mr_id m' = mr_id m ∧ mr_conversation m' = mr_conversation m ∧
    mr_content m' = mr_content m ∧ mr_supersedes m' = mr_supersedes m.
Proof. intros [<- _ _]. done. Qed.

Lemma evolves_kind m m' : evolves m m' → mr_kind m' = mr_kind m.
Proof. intros [<- _ _]. done. Qed.

(** Both links of a supersession stay inside a conversation, point to stored
    records, and agree with the status. *)
Record memories_ok `{Postgres} (st : MemDB) : Prop := {
  mo_ids : NoDup (mr_id <$> me_memories st);
  mo_drawn : Forall (λ m, ∃ i, (i < db_draws (me_db st))%nat ∧ mr_id m = uuid_at i) (me_memories st);
  mo_supersedes : ∀ m t, m ∈ me_memories st → mr_supersedes m = Some t →
    ∃ old, old ∈ me_memories st ∧ mr_id old = t ∧ mr_conversation old = mr_conversation m ∧
      mr_status old = SUPERSEDED;
  mo_superseded_by : ∀ m b, m ∈ me_memories st → mr_superseded_by m = Some b →
    mr_status m = SUPERSEDED ∧
    ∃ new, new ∈ me_memories st ∧ mr_id new = b ∧ mr_conversation new = mr_conversation m ∧
      mr_supersedes new = Some (mr_id m);
}.

Lemma mark_superseded_evolves id t m : evolves m (mark_superseded id t m).
Proof.
  unfold mark_superseded. case_bool_decide; [|reflexivity]. case_bool_decide; [reflexivity|]. simpl.
  split; [by destruct m|done|by right].
Qed.

Lemma mark_superseded_cases id t m :
  (mark_superseded id t m = m ∧ (mr_id m = t → mr_status m = SUPERSEDED)) ∨
  (mr_id m = t ∧ mark_superseded id t m = set_status m SUPERSEDED (Some id)).
Proof.
  unfold mark_superseded. case_bool_decide; [|by left]. case_bool_decide; [by left|by right].
Qed.

Section supersession.
Context {host : Host} {pg : Postgres} {laws : PostgresLaws} {uu : Uuids}.

Lemma check_target_inv st spec t u :
  check_target st spec t = Ok u →
  ∃ m, m ∈ me_memories st ∧ mr_id m = t ∧ mr_conversation m = mc_conversation_id spec.
Proof.
  unfold check_target. destruct (list_find _ _) as [[i m]|] eqn:E; [|done].
  apply list_find_Some in E as (Hm & Hid & _). case_decide as Hc; [|done]. intros _.
  exists m. split_and!; [by eapply list_elem_of_lookup_2|done..].
Qed.

(** The row that [create_memory] inserts. *)
Definition created_row (now : Q) (spec : MemoryCreate) (id : Z) (target : option Z)
    (metadata : json) : MemoryRow :=
  MkMemoryRow id (mc_conversation_id spec) (mc_kind spec) ACTIVE (mc_content spec)
    (mc_source_message_ids spec) (mc_importance spec) target None metadata now.

Lemma create_memory_inv now spec st r st' :
  create_memory now spec st = (r, st') →
  (∃ e, r = Err e ∧ st' = st) ∨
  (∃ id target metadata, r = Ok id ∧ id = uuid_at (db_draws (me_db st)) ∧
     supersedes_id spec = Ok target ∧
     (∀ t, target = Some t → ∃ m, m ∈ me_memories st ∧ mr_id m = t ∧
        mr_conversation m = mc_conversation_id spec) ∧
     me_db st' = _ensure_conversation (bump (me_db st)) (mc_conversation_id spec) ∧
     me_chunks st' = me_chunks st ∧ me_watermarks st' = me_watermarks st ∧
     me_memories st' =
       match target with Some t => mark_superseded id t <$> me_memories st | None => me_memories st end
       ++ [match target with
           | Some t => mark_superseded id t (created_row now spec id target metadata)
           | None => created_row now spec id target metadata end]).
Proof.
  unfold create_memory, mem_transaction.
  destruct (supersedes_id spec) as [target|e] eqn:Et; simpl; [|intros [= <- <-]; left; eauto].
  destruct (match target with Some t => check_target _ spec t | None => Ok tt end) as [[]|e] eqn:Ec;
    simpl; [|intros [= <- <-]; left; eauto].
  destruct (jsonb _) as [metadata|e]; simpl; [|intros [= <- <-]; left; eauto].
  intros [= <- <-]. right. eexists _, target, metadata. split_and!; try done.
  - intros t ->. by apply check_target_inv in Ec.
  - simpl. destruct target as [t|]; [|done]. by rewrite fmap_app.
Qed.

(** The same, with the fresh identifier told apart from the target. *)
Lemma create_memory_rows now spec st st' id :
  memories_ok st → create_memory now spec st = (Ok id, st') →
  ∃ f row target, me_memories st' = (f <$> me_memories st) ++ [row] ∧
    (∀ m, evolves m (f m)) ∧ mr_id row = id ∧ mr_conversation row = mc_conversation_id spec ∧
    mr_status row = ACTIVE ∧ mr_superseded_by row = None ∧ mr_supersedes row = target ∧
    mr_content row = mc_content spec ∧ mr_kind row = mc_kind spec ∧
    supersedes_id spec = Ok target ∧
    id = uuid_at (db_draws (me_db st)) ∧ id ∉ mr_id <$> me_memories st ∧
    (∀ m, m ∈ me_memories st →
       f m = m ∧ (target = Some (mr_id m) → mr_status m = SUPERSEDED) ∨
       (target = Some (mr_id m) ∧ f m = set_status m SUPERSEDED (Some id))) ∧
    (∀ t, target = Some t → ∃ m, m ∈ me_memories st ∧ mr_id m = t ∧
       mr_conversation m = mc_conversation_id spec).
Proof.
  intros Hok [(? & [=] & _)|(id' & target & metadata & [= <-] & Eid & Et & Htarget & _ & _ & _ & Emem)]
    %create_memory_inv.
  assert (id ∉ mr_id <$> me_memories st) as Hfresh.
  { intros (m & Hm & Hin)%list_elem_of_fmap. pose proof (mo_drawn _ Hok) as Hdr.
    rewrite Forall_forall in Hdr. destruct (Hdr m Hin) as (i & Hi & E).
    rewrite -Hm Eid in E. apply uuid_inj in E. lia. }
  exists (match target with Some t => mark_superseded id t | None => λ m, m end),
    (created_row now spec id target metadata), target.
  destruct target as [t|].
  - destruct (Htarget t eq_refl) as (mt & Hmt & Emt & _).
    split_and!; try done.
    + rewrite Emem. do 2 f_equal.
      destruct (mark_superseded_cases id t (created_row now spec id (Some t) metadata)) as [[-> _]|[E _]];
        [done|]. exfalso. apply Hfresh. simpl in E. rewrite E -Emt. by apply list_elem_of_fmap_2.
    + intros m. apply mark_superseded_evolves.
    + intros m _. destruct (mark_superseded_cases id t m) as [[-> H]|[<- ->]]; [left|by right].
      split; [done|]. intros [= ->]. auto.
  - split_and!; try done; [by rewrite Emem list_fmap_id|]. intros m _. by left.
Qed.

Lemma create_rollback now spec st e st' : create_memory now spec st = (Err e, st') → st' = st.
Proof. by intros [(? & _ & ->)|(? & ? & ? & [=] & _)]%create_memory_inv. Qed.

Lemma create_db now spec st r st' :
  create_memory now spec st = (r, st') →
  me_chunks st' = me_chunks st ∧ me_watermarks st' = me_watermarks st ∧
  (me_db st' = me_db st ∨ me_db st' = _ensure_conversation (bump (me_db st)) (mc_conversation_id spec)).
Proof.
  intros [(? & _ & ->)|(? & ? & ? & _ & _ & _ & _ & ? & ? & ? & _)]%create_memory_inv;
    split_and!; auto.
Qed.

Lemma create_draws now spec st id st' :
  create_memory now spec st = (Ok id, st') → db_draws (me_db st') = S (db_draws (me_db st)).
Proof.
  intros [(? & [=] & _)|(? & ? & ? & _ & _ & _ & _ & -> & _)]%create_memory_inv.
  unfold _ensure_conversation. by case_bool_decide.
Qed.

Lemma memories_create now spec st st' r :
  memories_ok st → create_memory now spec st = (r, st') → memories_ok st'.
Proof.
  intros Hok Hc. destruct r as [id|e]; [|by rewrite (create_rollback _ _ _ _ _ Hc)].
  pose proof (create_draws _ _ _ _ _ Hc) as Hdraws.
  destruct (create_memory_rows _ _ _ _ _ Hok Hc)
    as (f & row & target & Emem & Hev & Eid & Ec & Ea & Eb & Es & _ & _ & _ & Hid & Hfresh & Hf & Ht).
  destruct Hok as [Hids Hdr Hsup Hby].
  assert (∀ m, mr_id (f m) = mr_id m ∧ mr_conversation (f m) = mr_conversation m ∧
    mr_content (f m) = mr_content m ∧ mr_supersedes (f m) = mr_supersedes m) as Hff.
  { intros m. apply evolves_fields, Hev. }
  assert (∀ m, m ∈ me_memories st' ↔ (∃ x, x ∈ me_memories st ∧ m = f x) ∨ m = row) as Hin.
  { intros m. rewrite Emem elem_of_app list_elem_of_fmap list_elem_of_singleton. naive_solver. }
  split.
  - rewrite Emem fmap_app -list_fmap_compose /= Eid. apply NoDup_app.
    rewrite (list_fmap_ext (mr_id ∘ f) mr_id (me_memories st)); [by intros; simpl; apply Hff|].
    split_and!; [done| |apply NoDup_singleton]. intros x Hx ->%list_elem_of_singleton. done.
  - rewrite Emem. apply Forall_app. rewrite Hdraws. split.
    + apply Forall_fmap. eapply Forall_impl; [exact Hdr|]. intros m (i & ? & ?). exists i. simpl.
      split; [lia|]. by destruct (Hff m) as [-> _].
    + constructor; [|done]. eexists. split; [|by rewrite Eid Hid]. lia.
  - intros m t [(x & Hx & ->)| ->]%Hin Hsm.
    + destruct (Hff x) as (_ & Hcx & _ & Hsx). rewrite Hsx in Hsm.
      destruct (Hsup x t Hx Hsm) as (old & Ho & <- & Hco & Hst). exists (f old).
      destruct (Hff old) as (-> & -> & _). rewrite Hcx. split_and!; try done; [apply Hin; eauto|].
      by rewrite (ev_final _ _ (Hev old) Hst).
    + rewrite Es in Hsm. destruct (Ht t Hsm) as (mt & Hmt & <- & Hct). exists (f mt).
      destruct (Hff mt) as (-> & -> & _). split_and!; [apply Hin; eauto|done|congruence|].
      destruct (Hf mt Hmt) as [[-> Hst]|[_ ->]]; [by apply Hst|done].
  - intros m b [(x & Hx & ->)| ->]%Hin Hbm; [|congruence].
    destruct (Hf x Hx) as [[Efx _]|[Etx Efx]]; rewrite Efx in Hbm |- *.
    + destruct (Hby x b Hx Hbm) as (Hst & new & Hnew & <- & Hcn & Hsn). split; [done|].
      exists (f new). destruct (Hff new) as (-> & -> & _ & ->). split_and!; try done.
      apply Hin; eauto.
    + simpl in Hbm. injection Hbm as <-. split; [done|]. exists row.
      destruct (Ht _ Etx) as (mt & Hmt & Emt & Hct).
      assert (mt = x) as ->.
      { apply list_elem_of_lookup in Hmt as [i Hi], Hx as [j Hj].
        assert (i = j) as ->; [|congruence]. eapply (NoDup_lookup (mr_id <$> me_memories st));
          [done|by rewrite list_lookup_fmap Hi /= Emt|by rewrite list_lookup_fmap Hj]. }
      split_and!; [apply Hin; by right|done|simpl; congruence|simpl; congruence].
Qed.

Lemma memories_supersede id status st :
  memories_ok st → memories_ok (supersede_memory id status st).2 ∧
  Forall2 evolves (me_memories st) (me_memories (supersede_memory id status st).2).
Proof.
  intros [Hids Hdr Hsup Hby]. unfold supersede_memory. simpl.
  set (f := λ m, if bool_decide (mr_id m = id) && bool_decide (mr_status m = ACTIVE)
                 then set_status m status (mr_superseded_by m) else m).
  assert (∀ m, evolves m (f m)) as Hev.
  { intros m. unfold f. case_bool_decide; [|reflexivity]. case_bool_decide as Ha; [|reflexivity]. simpl.
    split; [by destruct m|congruence|done]. }
  assert (∀ m, mr_id (f m) = mr_id m ∧ mr_conversation (f m) = mr_conversation m ∧
    mr_content (f m) = mr_content m ∧ mr_supersedes (f m) = mr_supersedes m) as Hff.
  { intros m. apply evolves_fields, Hev. }
  split; [split; simpl|].
  - rewrite -list_fmap_compose (list_fmap_ext (mr_id ∘ f) mr_id (me_memories st)) //.
    intros; simpl; apply Hff.
  - apply Forall_fmap. eapply Forall_impl; [exact Hdr|]. intros m (i & ? & ?). exists i. simpl.
    split; [done|]. by destruct (Hff m) as [-> _].
  - intros m t (x & -> & Hx)%list_elem_of_fmap Hsm. destruct (Hff x) as (_ & -> & _ & Hsx).
    rewrite Hsx in Hsm. destruct (Hsup x t Hx Hsm) as (old & Ho & <- & Hco & Hst).
    exists (f old). rewrite (ev_final _ _ (Hev old) Hst). split_and!; try done.
    rewrite -{1}(ev_final _ _ (Hev old) Hst). by apply list_elem_of_fmap_2.
  - intros m b (x & -> & Hx)%list_elem_of_fmap Hbm.
    assert (mr_superseded_by (f x) = mr_superseded_by x) as E by (unfold f; by case_match).
    rewrite E in Hbm. destruct (Hby x b Hx Hbm) as (Hst & new & Hnew & <- & Hcn & Hsn).
    rewrite (ev_final _ _ (Hev x) Hst). split; [done|]. exists (f new).
    destruct (Hff new) as (-> & -> & _ & ->). split_and!; try done. by apply list_elem_of_fmap_2.
  - change (Forall2 evolves (me_memories st) (f <$> me_memories st)).
    apply Forall2_fmap_r, Forall_Forall2_diag, Forall_true. apply Hev.
Qed.

(** ** Identifiers of chunks *)

Record chunk_ids_ok (st : MemDB) : Prop := {
  ci_ids : NoDup (ck_id <$> me_chunks st);
  ci_drawn : Forall (λ k, ∃ i, (i < db_draws (me_db st))%nat ∧ ck_id k = uuid_at i) (me_chunks st);
}.

(** Only identifiers were drawn: the rows are the same. *)
Definition set_draws (n : nat) (db : DB) : DB :=
  MkDB (db_conversations db) (db_messages db) (db_tool_calls db) (db_tool_results db) (db_media db) n.

Definition only_draws (db db' : DB) : Prop := ∃ n, db' = set_draws n db ∧ (db_draws db ≤ n)%nat.

#[global] Instance only_draws_preorder : PreOrder only_draws.
Proof.
  split.
  - intros db. exists (db_draws db). split; [by destruct db|done].
  - intros a b c (n & -> & Hn) (m & -> & Hm). exists m. split; [done|]. simpl in *. lia.
Qed.

Lemma bump_draws db : only_draws db (bump db).
Proof. exists (S (db_draws db)). split; [done|lia]. Qed.

(** New chunks are appended, not indexed yet, with identifiers of their own. *)
Record chunks_added (st st' : MemDB) : Prop := {
  ca_chunks : ∃ new, me_chunks st' = me_chunks st ++ new ∧
    Forall (λ k, ck_vector_indexed k = false) new;
  ca_memories : me_memories st' = me_memories st;
  ca_ids : chunk_ids_ok st → chunk_ids_ok st';
  ca_db : only_draws (me_db st) (me_db st');
}.

#[local] Instance chunks_added_preorder : PreOrder chunks_added.
Proof.
  split.
  - intros st. split; [|done|done|done]. exists []. by rewrite app_nil_r.
  - intros a b c [(n1 & E1 & F1) M1 I1 D1] [(n2 & E2 & F2) M2 I2 D2].
    split; [|congruence|auto|by etrans].
    exists (n1 ++ n2). rewrite E2 E1 app_assoc. split; [done|]. by apply Forall_app.
Qed.

Lemma ids_same st st' :
  me_chunks st' = me_chunks st → (db_draws (me_db st) ≤ db_draws (me_db st'))%nat →
  chunk_ids_ok st → chunk_ids_ok st'.
Proof.
  intros E Hd [Hn Hi]. split; rewrite E; [done|].
  eapply Forall_impl; [exact Hi|]. intros k (i & ? & ?). exists i. split; [lia|done].
Qed.

Lemma insert_chunk_added now st c u s r st' :
  _insert_chunk now st c s u = Ok (r, st') → chunks_added st st'.
Proof.
  unfold _insert_chunk. intros H. inv_res. destruct (_ <? s); [done|].
  case_bool_decide; inv_res.
  - split; [exists []; by rewrite app_nil_r|done| |apply bump_draws]. apply ids_same; [done|]. simpl. lia.
  - split; [eexists; split; [done|by repeat constructor]|done| |apply bump_draws].
    intros [Hn Hi]. split; simpl.
    + rewrite fmap_app. apply NoDup_app. split_and!; [done| |apply NoDup_singleton].
      intros x (k & -> & Hk)%list_elem_of_fmap E%list_elem_of_singleton. simpl in E.
      rewrite Forall_forall in Hi. destruct (Hi k Hk) as (i & Hlt & Ei).
      rewrite Ei in E. apply uuid_inj in E. lia.
    + apply Forall_app. split.
      * eapply Forall_impl; [exact Hi|]. intros k (i & ? & ?). exists i. split; [lia|done].
      * constructor; [|done]. eexists. split; [|done]. lia.
Qed.

Lemma chunk_pass_added now c st : chunks_added st (_chunk_new_turns now c st).2.
Proof.
  unfold _chunk_new_turns, mem_transaction. destruct (chunk_window _ _ _) as [|r rows]; [reflexivity|].
  destruct (foldM _ _ _) as [cs|e] eqn:E; simpl; [|reflexivity].
  assert (chunks_added st (cs_db cs)) as H.
  { revert E. apply (foldM_inv _ (λ _ cs, chunks_added st (cs_db cs))); [reflexivity|].
    intros pre u cs0 cs1 H0 Hstep. unfold chunk_step in Hstep. inv_res. destruct a0. inv_res.
    etrans; [exact H0|]. by eapply insert_chunk_added. }
  destruct H as [Hc Hm Hi Hd].
  destruct (cs_settled_end cs) as [e|]; [destruct (match _ with None => _ | _ => _ end)|];
    (split; [exact Hc|exact Hm| |exact Hd]); try exact Hi.
  intros Hok. by apply Hi in Hok as [? ?].
Qed.

(** ** Histories *)

(** The transactions of the store and of the memory service. *)
Inductive mem_op : Type :=
| MStore (op : store_op)
| MChunk (now : Q) (c : string)
| MCreate (now : Q) (spec : MemoryCreate)
| MSupersede (id : Z) (status : MemoryStatus).

Definition mem_op_wf (op : mem_op) : Prop :=
  match op with MStore op => op_wf op | _ => True end.

Definition run_mem_op (st : MemDB) (op : mem_op) : MemDB :=
  match op with
  | MStore op => MkMemDB (run_op op (me_db st)).2 (me_watermarks st) (me_chunks st) (me_memories st)
  | MChunk now c => (_chunk_new_turns now c st).2
  | MCreate now spec => (create_memory now spec st).2
  | MSupersede id status => (supersede_memory id status st).2
  end.

Definition run_mem (ops : list mem_op) : MemDB := foldl run_mem_op empty_memdb ops.

Record mem_ok (st : MemDB) : Prop := {
  mk_db : db_ok (me_db st);
  mk_chunked : ∀ c, ∃ n, chunked st c n;
  mk_memories : memories_ok st;
  mk_ids : chunk_ids_ok st;
}.

Lemma chunked_extends st st' c n :
  (∃ rest, db_messages (me_db st') = db_messages (me_db st) ++ rest) →
  me_watermarks st' = me_watermarks st → me_chunks st' = me_chunks st →
  chunked st c n → chunked st' c n.
Proof.
  intros [rest Em] Ew Ech [Hn Hch Hw].
  assert (settled_units (me_db st) c `prefix_of` settled_units (me_db st') c) as Hp.
  { unfold settled_units, dialogue_rows. rewrite Em !filter_app. apply settled_prefix. }
  destruct Hp as [more Hp]. split; rewrite ?Ech ?Ew Hp.
  - rewrite length_app. lia.
  - by rewrite take_app_le.
  - rewrite Hw. destruct n as [|k]; simpl; [done|]. rewrite lookup_app_l //.
Qed.

Lemma chunked_same st st' c n :
  db_messages (me_db st') = db_messages (me_db st) →
  me_watermarks st' = me_watermarks st → me_chunks st' = me_chunks st →
  chunked st c n → chunked st' c n.
Proof. intros Em. apply chunked_extends. exists []. by rewrite app_nil_r. Qed.

Lemma memories_same st st' :
  me_memories st' = me_memories st → (db_draws (me_db st) ≤ db_draws (me_db st'))%nat →
  memories_ok st → memories_ok st'.
Proof.
  intros E Hd [H1 H2 H3 H4]. split; rewrite ?E //.
  eapply Forall_impl; [exact H2|]. intros m (i & ? & ?). exists i. split; [lia|done].
Qed.

Lemma create_chunked now spec st c n :
  chunked st c n → chunked (create_memory now spec st).2 c n.
Proof.
  destruct (create_memory now spec st) as [r st'] eqn:E. apply create_db in E as (Ec & Ew & Ed).
  apply chunked_same; try done. simpl. destruct Ed as [->| ->]; [done|].
  unfold _ensure_conversation. by case_bool_decide.
Qed.

Lemma create_db_ok now spec st :
  db_ok (me_db st) → db_ok (me_db (create_memory now spec st).2).
Proof.
  intros Hok. destruct (create_memory now spec st) as [r st'] eqn:E.
  apply create_db in E as (_ & _ & Ed). simpl. destruct Ed as [->| ->]; [done|].
  by apply ensure_spec, bump_ok.
Qed.

Lemma chunk_pass_ok now c st : mem_ok st → mem_ok (_chunk_new_turns now c st).2.
Proof.
  intros [Hdb Hch Hmem Hids]. destruct (Hch c) as [n Hn].
  pose proof (ca_ids _ _ (chunk_pass_added now c st) Hids) as Hids'.
  destruct (chunk_pass_spec now st c n Hdb Hn) as [(cr & e & st' & Epass & Hp)|(e & Epass & _)];
    rewrite Epass in Hids' |- *; [|done].
  destruct Hp as [Hc _ Hm Hdb' Hdr Hme _ Ho]. simpl. split; [done| | |done].
  - intros c'. destruct (decide (c' = c)) as [->|Hne]; [eauto|].
    destruct (Hch c') as [n' [H1 H2 H3]]. destruct (Ho c' Hne) as [Eo Ew]. exists n'.
    assert (settled_units (me_db st') c' = settled_units (me_db st) c') as Es
      by (unfold settled_units, dialogue_rows; by rewrite Hm).
    split; by rewrite Es ?Eo ?Ew.
  - by eapply memories_same.
Qed.

Lemma run_mem_op_ok st op : mem_ok st → mem_op_wf op → mem_ok (run_mem_op st op).
Proof.
  intros Hok Hwf. destruct op as [op|now c|now spec|id status]; simpl.
  - destruct Hok as [Hdb Hch Hmem Hids].
    destruct (run_op_ok op (me_db st) Hdb Hwf) as [Hdb' [_ [rest Hm] _ _ _ Hd] _ _].
    split; [done| | |by apply (ids_same st)].
    + intros c. destruct (Hch c) as [n Hn]. exists n. eapply chunked_extends; [by exists rest|done..].
    + by apply (memories_same st).
  - by apply chunk_pass_ok.
  - destruct Hok as [Hdb Hch Hmem Hids]. split; [by apply create_db_ok| | |].
    + intros c. destruct (Hch c) as [n Hn]. exists n. by apply create_chunked.
    + destruct (create_memory now spec st) as [r st'] eqn:E. by eapply memories_create.
    + destruct (create_memory now spec st) as [r st'] eqn:E. simpl.
      destruct (create_db _ _ _ _ _ E) as (Ec & _ & Ed). apply (ids_same st); [done| |done].
      destruct Ed as [->| ->]; [done|]. unfold _ensure_conversation.
      case_bool_decide; simpl; lia.
  - destruct Hok as [Hdb Hch Hmem Hids]. split; [done| | |by apply (ids_same st)].
    + intros c. destruct (Hch c) as [n Hn]. exists n. by apply (chunked_same st).
    + by apply memories_supersede.
Qed.

Lemma empty_mem_ok : mem_ok empty_memdb.
Proof.
  split; [apply empty_db_ok| |by split; simpl; try constructor; set_solver|by split; constructor].
  intros c. exists 0%nat. split; [simpl; lia|constructor|]. simpl. by rewrite lookup_empty.
Qed.

Lemma run_mem_ok ops : Forall mem_op_wf ops → mem_ok (run_mem ops).
Proof.
  unfold run_mem. generalize empty_mem_ok. generalize empty_memdb.
  induction ops as [|op ops IH]; intros st Hok Hwf; simpl; [done|].
  inversion_clear Hwf. apply IH; [by apply run_mem_op_ok|done].
Qed.

(** Every operation keeps the memory records, up to their evolution. *)
Lemma keeps_rows (l l' more : list MemoryRow) :
  Forall2 evolves l l' →
  ∃ more', Forall2 evolves l (take (length l) (l' ++ more)) ∧
           l' ++ more = take (length l) (l' ++ more) ++ more'.
Proof.
  intros H. rewrite (Forall2_length _ _ _ H) take_app_length. by exists more.
Qed.

Lemma keeps_same (l : list MemoryRow) :
  ∃ more', Forall2 evolves l (take (length l) l) ∧ l = take (length l) l ++ more'.
Proof.
  assert (Forall2 evolves l l) as H by (induction l; constructor; [reflexivity|done]).
  pose proof (keeps_rows l l [] H) as Hk. by rewrite app_nil_r in Hk.
Qed.

Lemma run_mem_op_evolves st op :
  mem_ok st →
  ∃ more, Forall2 evolves (me_memories st)
            (take (length (me_memories st)) (me_memories (run_mem_op st op))) ∧
          me_memories (run_mem_op st op) =
            take (length (me_memories st)) (me_memories (run_mem_op st op)) ++ more.
Proof.
  intros [Hdb Hch Hmem _]. destruct op as [op|now c|now spec|id status]; simpl.
  - apply keeps_same.
  - destruct (Hch c) as [n Hn].
    destruct (chunk_pass_spec now st c n Hdb Hn) as [(cr & e & st' & -> & Hp)|(e & -> & _)]; simpl;
      [rewrite (ps_memories _ _ _ _ _ Hp)|]; apply keeps_same.
  - destruct (create_memory now spec st) as [[id|e] st'] eqn:E; simpl.
    + destruct (create_memory_rows _ _ _ _ _ Hmem E) as (f & row & _ & -> & Hev & _).
      apply keeps_rows. apply Forall2_fmap_r, Forall_Forall2_diag, Forall_true. apply Hev.
    + rewrite (create_rollback _ _ _ _ _ E). apply keeps_same.
  - destruct (memories_supersede id status st Hmem) as [_ H].
    pose proof (keeps_rows _ _ [] H) as Hk. by rewrite app_nil_r in Hk.
Qed.

(** ** Claims *)

(** C26: Incremental chunking is complete and exact.  However appends and
    chunking passes were interleaved before, a pass over a conversation whose
    messages can be counted succeeds, and then the chunks of the conversation
    are exactly its settled turns in order, one chunk each, with their range,
    ids, rendered content and token count, whatever earlier passes saw of them;
    the result says how many are new; chunks written before are never changed
    nor those of other conversations. *)
Theorem chunking_complete (ops : list mem_op) (now : Q) (c : string) (ds : list obj) :
  Forall mem_op_wf ops →
  let st := run_mem ops in
  get_messages c (me_db st) = Ok ds → countable_messages ds →
  ∃ created settled st',
    _chunk_new_turns now c st = (Ok (created, settled), st') ∧
    Forall2 (chunk_of c) (settled_units (me_db st) c) (chunks_of st' c) ∧
    created = Z.of_nat (length (chunks_of st' c)) - Z.of_nat (length (chunks_of st c)) ∧
    me_chunks st `prefix_of` me_chunks st' ∧
    (∀ c', c' ≠ c → chunks_of st' c' = chunks_of st c').
Proof.
  intros Hwf st Hds Hcount. destruct (run_mem_ok ops Hwf) as [Hdb Hch _ _]. fold st in Hdb, Hch.
  destruct (Hch c) as [n Hn].
  destruct (chunk_pass_spec now st c n Hdb Hn) as [(cr & e & st' & Hpass & Hp)|(e & _ & Hbad)].
  - destruct Hp as [[_ Hc _] Hcr Hm _ _ _ Hpre Ho]. exists cr, e, st'.
    assert (settled_units (me_db st') c = settled_units (me_db st) c) as Es
      by (unfold settled_units, dialogue_rows; by rewrite Hm).
    rewrite Es firstn_all in Hc. split_and!; try done.
    + rewrite -(Forall2_length _ _ _ Hc) -(Forall2_length _ _ _ (cd_chunks _ _ _ Hn)) Hcr.
      rewrite length_take. pose proof (cd_bound _ _ _ Hn). lia.
    + intros c' Hne. by apply Ho.
  - exfalso. apply Hbad. unfold countable_rows.
    pose proof (fetch_Forall2 _ _ _ Hdb Hds) as Hall. clear -Hall Hcount. revert Hcount.
    unfold countable_messages. induction Hall as [|r d rs ds' [Hd _] _ IH]; intros Hc; constructor.
    + intros d' Hd'. inversion_clear Hc. rewrite Hd in Hd'. by injection Hd' as <-.
    + inversion_clear Hc. auto.
Qed.

(** C27: Supersession is consistent and final.  After any history, the record
    that another one supersedes is stored, belongs to the same conversation
    and is superseded, a record's [superseded_by] points back to it, and
    identifiers are unique; and creating or retiring a record never deletes,
    edits or reactivates one: a superseded record stays as it was. *)
Theorem memory_supersession (ops : list mem_op) (op : mem_op) :
  Forall mem_op_wf ops → mem_op_wf op →
  memories_ok (run_mem (ops ++ [op])) ∧
  ∃ more, Forall2 evolves (me_memories (run_mem ops))
            (take (length (me_memories (run_mem ops))) (me_memories (run_mem (ops ++ [op])))) ∧
          me_memories (run_mem (ops ++ [op])) =
            take (length (me_memories (run_mem ops))) (me_memories (run_mem (ops ++ [op]))) ++ more.
Proof.
  intros Hwf Hop. pose proof (run_mem_ok ops Hwf) as Hok.
  unfold run_mem in *. rewrite foldl_app /=.
  split; [by apply run_mem_op_ok|]. by apply run_mem_op_evolves.
Qed.
End supersession.

(** ** Witnesses *)

(** Identifiers in unary, with a sign. *)
Definition unary_str (z : Z) : string :=
  let fix dots (n : nat) : string :=
    match n with O => EmptyString | S n => String (chr 46) (dots n) end in
  if z <? 0 then String (chr 45) (dots (Z.to_nat (- z))) else dots (S (Z.to_nat z)).

Definition unary_parse (s : string) : option Z :=
  match s with
  | String c s' => if bool_decide (c = chr 45) then Some (- slen s') else Some (slen s - 1)
  | EmptyString => None
  end.

Lemma unary_parse_str z : unary_parse (unary_str z) = Some z.
Proof.
  unfold unary_str. set (dots := fix dots n := match n with O => _ | S n => _ end).
  assert (∀ n, slen (dots n) = Z.of_nat n) as Hlen.
  { intros n. unfold slen. f_equal. induction n as [|n IH]; [done|]. cbn. by rewrite IH. }
  destruct (Z.ltb_spec z 0); cbn [unary_parse].
  - rewrite bool_decide_eq_true_2 // Hlen. f_equal. lia.
  - change (dots (S (Z.to_nat z))) with (String (chr 46) (dots (Z.to_nat z))). cbn [unary_parse].
    rewrite bool_decide_eq_false_2; [done|].
    change (String (chr 46) (dots (Z.to_nat z))) with (dots (S (Z.to_nat z))).
    rewrite Hlen. f_equal. lia.
Qed.

#[local] Instance sample_uuids : Uuids := {| uuid_str := unary_str; uuid_parse := unary_parse |}.
#[local] Existing Instances sample_host sample_postgres.

Definition sample_history : list mem_op :=
  [MStore (OpAppend 1 "conv" [chat_message "system" "s"; chat_message "user" "one";
                              chat_message "assistant" "two"] None);
   MChunk 0 "conv";
   MStore (OpAppend 2 "conv" [chat_message "user" "three"; chat_message "assistant" "four"] None);
   MChunk 0 "conv";
   MStore (OpAppend 3 "conv" [chat_message "user" "five"] None)].

Lemma sample_history_wf : Forall mem_op_wf sample_history.
Proof. repeat constructor; set_solver. Qed.

Lemma chunking_complete_witness :
  ∃ created settled st',
    _chunk_new_turns 0 "conv" (run_mem sample_history) = (Ok (created, settled), st') ∧
    created = 1 ∧ length (chunks_of st' "conv") = 2%nat ∧
    Forall2 (chunk_of "conv") (settled_units (me_db (run_mem sample_history)) "conv")
      (chunks_of st' "conv").
Proof.
  destruct (chunking_complete (laws:=sample_laws) sample_history 0 "conv"
    [chat_message "system" "s"; chat_message "user" "one"; chat_message "assistant" "two";
     chat_message "user" "three"; chat_message "assistant" "four"; chat_message "user" "five"])
    as (created & settled & st' & H1 & H2 & H3 & _ & _).
  - exact sample_history_wf.
  - vm_compute. reflexivity.
  - repeat constructor.
  - exists created, settled, st'. split; [exact H1|].
    assert (length (chunks_of st' "conv") = 2%nat) as Hlen.
    { rewrite -(Forall2_length _ _ _ H2). vm_compute. reflexivity. }
    split; [|split; [exact Hlen|exact H2]]. rewrite Hlen in H3. rewrite H3. vm_compute. reflexivity.
Defined.

Definition sample_spec (supersedes : option string) : MemoryCreate :=
  MkMemoryCreate DECISION "use X" "conv" [] 0 supersedes [].

Lemma memory_supersession_witness :
  memories_ok (run_mem ([MCreate 0 (sample_spec None)]
                        ++ [MCreate 1 (sample_spec (Some (unary_str 0)))])) ∧
  mr_status <$> me_memories (run_mem [MCreate 0 (sample_spec None);
                                      MCreate 1 (sample_spec (Some (unary_str 0)))])
  = [SUPERSEDED; ACTIVE].
Proof.
  split; [|vm_compute; reflexivity].
  apply (memory_supersession (laws:=sample_laws) [MCreate 0 (sample_spec None)]
           (MCreate 1 (sample_spec (Some (unary_str 0))))).
  - repeat constructor.
  - exact I.
Defined.

Lemma sample_uuid_laws : UuidLaws (H:=sample_uuids).
Proof. split. exact unary_parse_str. Qed.

(** Only the role [system] is left out of the chunks: an instruction of the
    role [developer] is chunked with the turn before it. *)
Example developer_message_chunked :
  let st := run_mem [MStore (OpAppend 1 "conv" [chat_message "user" "one";
                               chat_message "developer" "obey"; chat_message "user" "two"] None);
                     MChunk 0 "conv"] in
  (λ k, (ck_start_seq k, ck_end_seq k, length (ck_message_ids k))) <$> me_chunks st = [(0, 1, 2%nat)].
Proof. vm_compute. reflexivity. Qed.
