(* ===== verification/Services.v ===== *)
(** * External services ([memory/embeddings.py], [memory/qdrant.py])

    The embedding endpoint and the vector store are reached over HTTP.  The
    servers are an oracle that answers the n-th request; the clients are
    computations over a world that holds the tables, the readiness flag of the
    vector store and the log of all exchanges so far.  A computation that
    raises keeps the effects it had: only transactions roll back. *)

From Stdlib Require Import QArith.
From S2P Require Import Prelude PyDict PyString Json Store Memory.
Local Open Scope Z_scope.

(** ** Exchanges *)

(** [{"id": ..., "vector": ..., "payload": ...}] *)
Record point : Type := MkPoint {
  p_id : string;
  p_vector : list json;
  p_payload : obj;
}.

Inductive request : Type :=
| PostEmbeddings (input : list string)
| PutCollection (vector_size : Z)
| GetCollection
| PutPoints (points : list point)
| SearchPoints (vector : list json) (limit : Z) (conversation_id : option string).

(** A reply as the HTTP client presents it: the status, whether
    [raise_for_status()] passes, and the decoded body, [None] where [.json()]
    raises [ValueError]; or a transport failure. *)
Inductive reply : Type :=
| Reply (status_code : Z) (ok : bool) (body : option json)
| NoReply.

Record World : Type := MkWorld {
  w_mem : MemDB;
  w_collection_ready : bool;
  w_log : list (request * reply);
}.

(** ** Computations over the world *)

Definition io (A : Type) : Type := World → res A * World.

#[global] Instance io_ret : MRet io := λ A a w, (Ok a, w).
#[global] Instance io_bind : MBind io := λ A B f m w,
  match m w with
  | (Ok a, w') => f a w'
  | (Err e, w') => (Err e, w')
  end.

Definition io_raise {A} (e : exn) : io A := λ w, (Err e, w).
Definition io_lift {A} (r : res A) : io A := λ w, (r, w).

(** [try: m except ...]: [handler e] is [None] for an exception that is not
    caught. *)
Definition io_try {A} (m : io A) (handler : exn → option (io A)) : io A := λ w,
  match m w with
  | (Err e, w') => match handler e with Some h => h w' | None => (Err e, w') end
  | r => r
  end.

(** One statement or transaction on the tables. *)
Definition on_tables {A} (f : MemDB → res A * MemDB) : io A := λ w,
  let '(r, st) := f (w_mem w) in
  (r, MkWorld st (w_collection_ready w) (w_log w)).

Definition set_ready (ready : bool) : io unit := λ w,
  (Ok tt, MkWorld (w_mem w) ready (w_log w)).

(** A loop over a list of effects that accumulates a value. *)
Fixpoint io_fold {A S} (body : S → A → io S) (s : S) (l : list A) : io S :=
  match l with
  | [] => mret s
  | x :: l' => s' ← body s x; io_fold body s' l'
  end.

Section services.
(** What the servers answer to the n-th request. *)
Context (server : nat → request → reply).

Definition exchange (r : request) : io reply := λ w,
  let a := server (length (w_log w)) r in
  (Ok a, MkWorld (w_mem w) (w_collection_ready w) (w_log w ++ [(r, a)])).

(** [response.raise_for_status()], on a reply that came. *)
Definition raise_for_status (a : reply) : io unit :=
  match a with
  | Reply _ true _ => mret tt
  | _ => io_raise HTTPError
  end.

(** ** Embeddings *)

(** The items of ["data"]. *)
Definition embedding_of (item : json) : res (list json) :=
  match item with
  | JObj d => match oget d "embedding" with
              | JList v => Ok v
              | _ => Err EmbeddingProviderError
              end
  | _ => Err EmbeddingProviderError
  end.

Definition embeddings_of (body : option json) : res (list (list json)) :=
  match body with
  | Some (JObj d) => match oget d "data" with
                     | JList items => mapM embedding_of items
                     | _ => Err EmbeddingProviderError
                     end
  | _ => Err EmbeddingProviderError
  end.

Definition embed (texts : list string) : io (list (list json)) :=
  a ← exchange (PostEmbeddings texts);
  match a with
  | Reply _ true body => io_lift (embeddings_of body)
  | _ => io_raise EmbeddingProviderError
  end.

(** ** The vector store *)

(** [result.get("config", {}).get("params", {}).get("vectors", {})], where each
    [get] needs a dict. *)
Definition get_default (v : json) (k : string) (dflt : json) : res json :=
  match v with
  | JObj d => Ok (default dflt (dget d k))
  | _ => Err AttributeError
  end.

Definition vector_params (body : json) : res json :=
  match body with
  | JObj d => match oget d "result" with
              | JObj _ as result =>
                  config ← get_default result "config" (JObj []);
                  params ← get_default config "params" (JObj []);
                  get_default params "vectors" (JObj [])
              | _ => Ok (JObj [])
              end
  | _ => Ok (JObj [])
  end.

(** [isinstance(v, int)]; a [bool] is an [int]. *)
Definition is_int (v : json) : bool :=
  match v with JInt _ | JBool _ => true | _ => false end.

Definition collection_params (body : json) : res (json * json) :=
  params ← vector_params body;
  let size := match params with JObj d => oget d "size" | _ => JNull end in
  let distance := match params with JObj d => oget d "distance" | _ => JNull end in
  if is_int size && is_str distance then Ok (size, distance) else Err VectorStoreError.

Definition _fetch_collection_params : io (json * json) :=
  a ← exchange GetCollection;
  match a with
  | Reply _ true (Some body) => io_lift (collection_params body)
  | _ => io_raise VectorStoreError
  end.

Definition ensure_collection (vector_size : Z) : io unit := λ w,
  if w_collection_ready w then (Ok tt, w)
  else
    (a ← exchange (PutCollection vector_size);
     match a with
     | NoReply => io_raise HTTPError
     | Reply status _ _ =>
         if status =? 409 then
           actual ← _fetch_collection_params;
           if py_eq actual.1 (JInt vector_size) && py_eq actual.2 (JStr "Cosine")
           then set_ready true
           else io_raise VectorStoreError
         else if bool_decide (status ∈ [200; 201]) then set_ready true
         else (_ ← raise_for_status a; set_ready true)
     end) w.

Definition upsert (points : list point) (vector_size : Z) : io unit :=
  match points with
  | [] => mret tt
  | _ :: _ =>
      _ ← ensure_collection vector_size;
      a ← exchange (PutPoints points);
      match a with
      | Reply 404 _ _ =>
          _ ← set_ready false;
          _ ← ensure_collection vector_size;
          a ← exchange (PutPoints points);
          raise_for_status a
      | _ => raise_for_status a
      end
  end.

(** [result.get("result", [])] of a dict, when it is a list *)
Definition search_hits (body : option json) : res (list json) :=
  match body with
  | Some (JObj d) => match default (JList []) (dget d "result") with
                     | JList hits => Ok hits
                     | _ => Err VectorStoreError
                     end
  | _ => Err VectorStoreError
  end.

Definition search (vector : list json) (limit : Z) (conversation_id : option string)
    : io (list json) :=
  a ← exchange (SearchPoints vector limit conversation_id);
  match a with
  | Reply _ true body => io_lift (search_hits body)
  | _ => io_raise VectorStoreError
  end.
End services.

(** ** Reasoning about computations *)

(** The relation holds between the worlds before and after, whether or not the
    computation raises. *)
Definition preserves {A} (R : World → World → Prop) (m : io A) : Prop := ∀ w, R w (m w).2.

Section preserves.
Context (R : World → World → Prop) `{!PreOrder R}.

Lemma preserves_ret {A} (a : A) : preserves R (mret a).
Proof. intros w. reflexivity. Qed.

Lemma preserves_raise {A} e : preserves R (io_raise (A:=A) e).
Proof. intros w. reflexivity. Qed.

Lemma preserves_lift {A} (r : res A) : preserves R (io_lift r).
Proof. intros w. reflexivity. Qed.

Lemma preserves_bind {A B} (m : io A) (f : A → io B) :
  preserves R m → (∀ a, preserves R (f a)) → preserves R (m ≫= f).
Proof.
  intros Hm Hf w. unfold mbind, io_bind. specialize (Hm w). destruct (m w) as [[a|e] w']; [|done].
  etrans; [exact Hm|apply Hf].
Qed.

Lemma preserves_try {A} (m : io A) handler :
  preserves R m → (∀ e h, handler e = Some h → preserves R h) → preserves R (io_try m handler).
Proof.
  intros Hm Hh w. unfold io_try. specialize (Hm w). destruct (m w) as [[a|e] w']; [done|].
  destruct (handler e) as [h|] eqn:E; [|done]. etrans; [exact Hm|by eapply Hh].
Qed.

Lemma preserves_fold {A S} (body : S → A → io S) s l :
  (∀ s x, x ∈ l → preserves R (body s x)) → preserves R (io_fold body s l).
Proof.
  revert s. induction l as [|x l IH]; intros s Hb; simpl; [apply preserves_ret|].
  apply preserves_bind; [apply Hb; left|]. intros s'. apply IH. intros s0 y Hy. apply Hb. by right.
Qed.
End preserves.

Create HintDb io.
#[export] Hint Resolve preserves_ret preserves_raise preserves_lift : io.

Lemma io_bind_Ok {A B} (m : io A) (f : A → io B) w b w' :
  (m ≫= f) w = (Ok b, w') → ∃ a w1, m w = (Ok a, w1) ∧ f a w1 = (Ok b, w').
Proof. unfold mbind, io_bind. destruct (m w) as [[a|e] w1]; [|done]. eauto. Qed.

Lemma io_bind_run {A B} (m : io A) (f : A → io B) w a w1 :
  m w = (Ok a, w1) → (m ≫= f) w = f a w1.
Proof. unfold mbind, io_bind. by intros ->. Qed.

(** A loop whose body never raises under its invariant runs to the end. *)
Lemma io_fold_total {A S} (I : list A → S → World → Prop) (body : S → A → io S) s l w :
  I [] s w →
  (∀ pre x s w, pre ++ [x] `prefix_of` l → I pre s w →
     ∃ s' w', body s x w = (Ok s', w') ∧ I (pre ++ [x]) s' w') →
  ∃ s' w', io_fold body s l w = (Ok s', w') ∧ I l s' w'.
Proof.
  intros H0 Hstep. enough (∀ pre post s w, pre ++ post = l → I pre s w →
    ∃ s' w', io_fold body s post w = (Ok s', w') ∧ I l s' w') as H by (by apply (H [] l)).
  clear H0 s w. intros pre post. revert pre. induction post as [|x post IH]; intros pre s w Hl Hi.
  - rewrite app_nil_r in Hl. subst pre. by exists s, w.
  - destruct (Hstep pre x s w) as (s1 & w1 & Hb & Hi1); [|done|].
    { exists post. by rewrite -app_assoc. }
    destruct (IH (pre ++ [x]) s1 w1) as (s' & w' & Hf & Hi'); [by rewrite -app_assoc|done|].
    exists s', w'. split; [|done]. simpl. by rewrite (io_bind_run _ _ _ _ _ Hb).
Qed.

(** Exchanges only: the tables stay, and the points sent satisfy [S]. *)
Record net (S : point → Prop) (w w' : World) : Prop := {
  nt_tables : w_mem w' = w_mem w;
  nt_log : ∃ new, w_log w' = w_log w ++ new ∧
    ∀ points a, (PutPoints points, a) ∈ new → Forall S points;
}.

#[global] Instance net_preorder S : PreOrder (net S).
Proof.
  split.
  - intros w. split; [done|]. exists []. rewrite app_nil_r. set_solver.
  - intros a b c [M1 (n1 & E1 & S1)] [M2 (n2 & E2 & S2)]. split; [congruence|].
    exists (n1 ++ n2). rewrite E2 E1 app_assoc. set_solver.
Qed.

Section clients.
Context (server : nat → request → reply).

Lemma exchange_net S r :
  (∀ points, r = PutPoints points → Forall S points) → preserves (net S) (exchange server r).
Proof.
  intros Hr w. split; [done|]. eexists. split; [done|].
  intros points a [= <- ]%list_elem_of_singleton. by apply Hr.
Qed.

Lemma raise_for_status_net S a : preserves (net S) (raise_for_status a).
Proof. unfold raise_for_status. destruct a as [? [] ?|]; auto with io typeclass_instances. Qed.

Lemma set_ready_net S b : preserves (net S) (set_ready b).
Proof. intros w. split; [done|]. exists []. rewrite app_nil_r. set_solver. Qed.

Lemma embed_net S texts : preserves (net S) (embed server texts).
Proof.
  unfold embed. apply preserves_bind; [apply _|by apply exchange_net|].
  intros [? [] ?|]; apply _ || auto with io typeclass_instances.
Qed.

Lemma search_net S v limit c : preserves (net S) (search server v limit c).
Proof.
  unfold search. apply preserves_bind; [apply _|by apply exchange_net|].
  intros [? [] ?|]; auto with io typeclass_instances.
Qed.

Lemma fetch_params_net S : preserves (net S) (_fetch_collection_params server).
Proof.
  unfold _fetch_collection_params. apply preserves_bind; [apply _|by apply exchange_net|].
  intros [? [] [?|]|]; auto with io typeclass_instances.
Qed.

Lemma ensure_collection_net S n : preserves (net S) (ensure_collection server n).
Proof.
  intros w. unfold ensure_collection. destruct (w_collection_ready w); [reflexivity|].
  revert w. apply preserves_bind; [apply _|by apply exchange_net|].
  intros [status ok body|]; [|auto with io typeclass_instances].
  destruct (status =? 409).
  - apply preserves_bind; [apply _|apply fetch_params_net|]. intros actual.
    destruct (_ && _); [apply set_ready_net|auto with io typeclass_instances].
  - case_bool_decide; [apply set_ready_net|].
    apply preserves_bind; [apply _|apply raise_for_status_net|]. intros _. apply set_ready_net.
Qed.

Lemma upsert_net (S : point → Prop) points n :
  Forall S points → preserves (net S) (upsert server points n).
Proof.
  intros HS. unfold upsert. destruct points as [|p ps]; [auto with io typeclass_instances|].
  apply preserves_bind; [apply _|apply ensure_collection_net|]. intros _.
  apply preserves_bind; [apply _|apply exchange_net; by intros ? [= <-]|]. intros a.
  assert (preserves (net S) (raise_for_status a)) as Ha by apply raise_for_status_net.
  assert (preserves (net S) (_ ← set_ready false; _ ← ensure_collection server n;
    a ← exchange server (PutPoints (p :: ps)); raise_for_status a)) as Hr.
  { apply preserves_bind; [apply _|apply set_ready_net|]. intros _.
    apply preserves_bind; [apply _|apply ensure_collection_net|]. intros _.
    apply preserves_bind; [apply _|apply exchange_net; by intros ? [= <-]|]. intros a'.
    apply raise_for_status_net. }
  repeat case_match; auto.
Qed.

(** The vector store accepted these points. *)
Definition accepted (w : World) (points : list point) : Prop :=
  ∃ status body, (PutPoints points, Reply status true body) ∈ w_log w.

Lemma raise_for_status_Ok a w w' :
  raise_for_status a w = (Ok tt, w') → w' = w ∧ ∃ status body, a = Reply status true body.
Proof. destruct a as [status [] body|]; simpl; try done. intros [= <-]. eauto. Qed.

Lemma put_accepted points w w' :
  (a ← exchange server (PutPoints points); raise_for_status a) w = (Ok tt, w') →
  accepted w' points.
Proof.
  intros (a & w1 & [= <- <-] & (-> & status & body & E)%raise_for_status_Ok)%io_bind_Ok.
  exists status, body. simpl. rewrite E. set_solver.
Qed.

(** An upsert that returns was accepted. *)
Lemma upsert_Ok p points n w w' :
  upsert server (p :: points) n w = (Ok tt, w') → accepted w' (p :: points).
Proof.
  intros ([] & w1 & _ & Hb)%io_bind_Ok.
  assert (∀ a w2, exchange server (PutPoints (p :: points)) w1 = (Ok a, w2) →
    raise_for_status a w2 = (Ok tt, w') → accepted w' (p :: points)) as Hdirect.
  { intros a w2 E1 E2. eapply (put_accepted _ w1). by rewrite (io_bind_run _ _ _ _ _ E1). }
  apply io_bind_Ok in Hb as (a & w2 & E1 & E2).
  assert ((_ ← set_ready false; _ ← ensure_collection server n;
    a ← exchange server (PutPoints (p :: points)); raise_for_status a) w2 = (Ok tt, w') →
    accepted w' (p :: points)) as Hagain.
  { intros (? & w3 & _ & (? & w4 & _ & H)%io_bind_Ok)%io_bind_Ok. by eapply put_accepted. }
  destruct a as [status ok body|]; [|by eapply Hdirect].
  repeat case_match; eauto.
Qed.

(** The servers answer every request as they should. *)
Record healthy : Prop := {
  hl_embed : ∀ n texts, ∃ status body vectors, server n (PostEmbeddings texts) = Reply status true body ∧
    embeddings_of body = Ok vectors ∧ length vectors = length texts;
  hl_collection : ∀ n size, ∃ body, server n (PutCollection size) = Reply 200 true body;
  hl_points : ∀ n points, ∃ body, server n (PutPoints points) = Reply 200 true body;
}.

Lemma healthy_upsert points n w :
  healthy → ∃ w', upsert server points n w = (Ok tt, w') ∧ w_mem w' = w_mem w.
Proof.
  intros [_ Hc Hp]. destruct points as [|p ps]; [by exists w|].
  assert (∃ w1, ensure_collection server n w = (Ok tt, w1) ∧ w_mem w1 = w_mem w) as (w1 & E1 & M1).
  { unfold ensure_collection. destruct (w_collection_ready w); [by exists w|].
    unfold mbind, io_bind, exchange. destruct (Hc (length (w_log w)) n) as [body ->].
    simpl. eexists. by split. }
  unfold upsert. rewrite (io_bind_run _ _ _ _ _ E1). unfold mbind, io_bind, exchange.
  destruct (Hp (length (w_log w1)) (p :: ps)) as [body ->]. simpl. eexists. by split.
Qed.

Lemma healthy_embed texts w :
  healthy → ∃ vectors w', embed server texts w = (Ok vectors, w') ∧ w_mem w' = w_mem w ∧
    length vectors = length texts.
Proof.
  intros [He _ _]. unfold embed, mbind, io_bind, exchange.
  destruct (He (length (w_log w)) texts) as (status & body & vectors & -> & E & Hlen).
  simpl. unfold io_lift. rewrite E. eexists _, _. by split_and!.
Qed.
End clients.
