(* ===== verification/Collections.v ===== *)
(** * Concurrent use of the vector store ([memory/qdrant.py])

    [Services.upsert] is one computation.  Here any number of calls of it are at work
    at the same time, one exchange with the server after the other: the bootstrap of
    the collection runs under [_ensure_lock], sending the points does not, and a call
    may be cancelled at any point. *)

From stdpp Require Import list.
From S2P Require Import Prelude PyDict PyString Json Store Memory Services.
Local Open Scope Z_scope.

(** ** Calls *)

(** Where a call is; [again] after its points were answered with 404. *)
Inductive stage : Type :=
| Entering (again : bool)
| Inside (again : bool)
| Comparing (again : bool)
| Sending (again : bool)
| Ended (r : res unit)
| Dropped.

Record upsert_call : Type := MkUpsertCall {
  uc_points : list point;
  uc_size : Z;
  uc_stage : stage;
}.

Definition set_stage (p : stage) (c : upsert_call) : upsert_call := MkUpsertCall (uc_points c) (uc_size c) p.

(** The client: the readiness flag and the exchanges so far are in the world. *)
Record Client : Type := MkClient {
  cl_world : World;
  cl_locked : bool;
  cl_calls : list upsert_call;
}.

(** Within [async with self._ensure_lock]. *)
Definition within_lock (p : stage) : bool :=
  match p with Inside _ | Comparing _ => true | _ => false end.

Definition ended (p : stage) : bool :=
  match p with Ended _ | Dropped => true | _ => false end.

Section calls.
Context (server : nat → request → reply).

(** The flag, and the request that creates the collection. *)
Definition inside (size : Z) (again : bool) : io stage := λ w,
  if w_collection_ready w then (Ok (Sending again), w)
  else
    (a ← exchange server (PutCollection size);
     match a with
     | NoReply => io_raise HTTPError
     | Reply status _ _ =>
         if status =? 409 then mret (Comparing again)
         else if bool_decide (status ∈ [200; 201]) then (_ ← set_ready true; mret (Sending again))
         else (_ ← raise_for_status a; _ ← set_ready true; mret (Sending again))
     end) w.

Definition comparing (size : Z) (again : bool) : io stage :=
  actual ← _fetch_collection_params server;
  if py_eq actual.1 (JInt size) && py_eq actual.2 (JStr "Cosine")
  then (_ ← set_ready true; mret (Sending again))
  else io_raise VectorStoreError.

Definition sending (points : list point) (again : bool) : io stage :=
  a ← exchange server (PutPoints points);
  let not_found := match a with Reply status _ _ => status =? 404 | NoReply => false end in
  if not_found && negb again then (_ ← set_ready false; mret (Entering true))
  else (_ ← raise_for_status a; mret (Ended (Ok tt))).

(** The next step of a call; it waits for the lock. *)
Definition next_stage (c : upsert_call) (locked : bool) : option (io stage) :=
  match uc_stage c with
  | Entering again => if locked then None else Some (mret (Inside again))
  | Inside again => Some (inside (uc_size c) again)
  | Comparing again => Some (comparing (uc_size c) again)
  | Sending again => Some (sending (uc_points c) again)
  | Ended _ | Dropped => None
  end.

(** Leaving the block releases the lock, whichever way. *)
Definition lock_after (before after : stage) (locked : bool) : bool :=
  within_lock after || (locked && negb (within_lock before)).

Definition move_call (i : nat) (s : Client) : option Client :=
  c ← cl_calls s !! i;
  m ← next_stage c (cl_locked s);
  let '(r, w) := m (cl_world s) in
  let p := match r with Ok p => p | Err e => Ended (Err e) end in
  Some (MkClient w (lock_after (uc_stage c) p (cl_locked s)) (<[i := set_stage p c]> (cl_calls s))).

Definition drop_call (i : nat) (s : Client) : option Client :=
  c ← cl_calls s !! i;
  if ended (uc_stage c) then None
  else Some (MkClient (cl_world s) (lock_after (uc_stage c) Dropped (cl_locked s))
               (<[i := set_stage Dropped c]> (cl_calls s))).

Inductive action : Type := Moves (i : nat) | Drops (i : nat).

Definition act (t : action) (s : Client) : Client :=
  default s match t with Moves i => move_call i s | Drops i => drop_call i s end.

Definition act_all (ts : list action) (s : Client) : Client := foldl (λ s t, act t s) s ts.

(** Without points there is nothing to do. *)
Definition calling (points : list point) (size : Z) : upsert_call :=
  MkUpsertCall points size match points with [] => Ended (Ok tt) | _ => Entering false end.

Definition all_calling (calls : list (list point * Z)) (w : World) : Client :=
  MkClient w false ((λ pc, calling pc.1 pc.2) <$> calls).
End calls.

(** ** What the exchanges amount to *)

Definition made (x : request * reply) : bool :=
  match x with
  | (PutCollection _, Reply status ok _) =>
      negb (status =? 409) && (bool_decide (status ∈ [200; 201]) || ok)
  | _ => false
  end.

Definition missing (x : request * reply) : bool :=
  match x with (PutPoints _, Reply status _ _) => status =? 404 | _ => false end.

Definition stored (points : list point) (x : request * reply) : Prop :=
  ∃ status body, x = (PutPoints points, Reply status true body).

Definition count (P : request * reply → bool) (l : list (request * reply)) : nat :=
  length (filter (λ x, P x = true) l).

Lemma count_app P l k : count P (l ++ k) = (count P l + count P k)%nat.
Proof. unfold count. by rewrite filter_app length_app. Qed.

(** How much a stage can still do. *)
Definition remaining (p : stage) : nat :=
  match p with
  | Entering again => if again then 4%nat else 8%nat
  | Inside again => if again then 3%nat else 7%nat
  | Comparing again => if again then 2%nat else 6%nat
  | Sending again => if again then 1%nat else 5%nat
  | Ended _ | Dropped => 0%nat
  end.

Definition outcome_stage (r : res stage) : stage := match r with Ok p => p | Err e => Ended (Err e) end.

(** One step of a call: what it adds to the log, what that does to the flag, and where
    the call is afterwards. *)
Record stepped (c : upsert_call) (w : World) (p : stage) (w' : World) (new : list (request * reply)) : Prop := {
  sp_log : w_log w' = w_log w ++ new;
  sp_made : (count made new + Nat.b2n (w_collection_ready w) ≤ count missing new + Nat.b2n (w_collection_ready w'))%nat;
  sp_stored : p = Ended (Ok tt) → ∃ x, x ∈ new ∧ stored (uc_points c) x;
  sp_less : (remaining p < remaining (uc_stage c))%nat;
  sp_lock : within_lock p = true → within_lock (uc_stage c) = true ∨ ∃ again, uc_stage c = Entering again;
}.

Section steps.
Context (server : nat → request → reply).

(** A step that sends one request, or none. *)
Lemma stepped_quiet c w p :
  (p = Ended (Ok tt) → False) → (remaining p < remaining (uc_stage c))%nat →
  (within_lock p = true → within_lock (uc_stage c) = true ∨ ∃ again, uc_stage c = Entering again) →
  stepped c w p w [].
Proof. intros Hp Hr Hl. split; [by rewrite app_nil_r|done| |done|done]. by intros ?%Hp. Qed.

Lemma stepped_sent c w p x ready :
  (Nat.b2n (made x) + Nat.b2n (w_collection_ready w) ≤ Nat.b2n (missing x) + Nat.b2n ready)%nat →
  (p = Ended (Ok tt) → stored (uc_points c) x) → (remaining p < remaining (uc_stage c))%nat →
  (within_lock p = true → within_lock (uc_stage c) = true ∨ ∃ again, uc_stage c = Entering again) →
  stepped c w p (MkWorld (w_mem w) ready (w_log w ++ [x])) [x].
Proof.
  intros Hm Hp Hr Hl. split; [done| | |done|done].
  - assert (∀ P, count P [x] = Nat.b2n (P x)) as Hc.
    { intros P. unfold count. rewrite filter_cons filter_nil. destruct (P x); by case_decide. }
    by rewrite !Hc.
  - intros H. exists x. split; [by left|by apply Hp].
Qed.

Lemma inside_stepped points size again w :
  let '(r, w') := inside server size again w in
  ∃ new, stepped (MkUpsertCall points size (Inside again)) w (outcome_stage r) w' new.
Proof.
  unfold inside. destruct (w_collection_ready w) eqn:Er.
  { exists []. apply stepped_quiet; [done|destruct again; simpl; lia|done]. }
  unfold mbind, io_bind, exchange, mret, io_ret, set_ready, raise_for_status, io_raise.
  destruct (server _ _) as [status ok body|]; [destruct (status =? 409) eqn:E409; [|destruct (bool_decide (status ∈ [200; 201])) eqn:Hst; [|destruct ok]]|];
    eexists; (simpl; apply stepped_sent; [|done|destruct again; simpl; lia|by auto]); rewrite /= ?E409 ?Hst ?Er //=; lia.
Qed.

Lemma comparing_stepped points size again w :
  let '(r, w') := comparing server size again w in
  ∃ new, stepped (MkUpsertCall points size (Comparing again)) w (outcome_stage r) w' new.
Proof.
  unfold comparing, _fetch_collection_params, mbind, io_bind, exchange, mret, io_ret, set_ready, io_lift, io_raise.
  destruct (server _ _) as [status [] [body|]|]; [destruct (collection_params body) as [actual|e]; [destruct (_ && _)|]|..];
    eexists; (simpl; apply stepped_sent; [|done|destruct again; simpl; lia|by auto]); simpl; destruct (w_collection_ready w); simpl; lia.
Qed.

Lemma sending_stepped points size again w :
  let '(r, w') := sending server points again w in
  ∃ new, stepped (MkUpsertCall points size (Sending again)) w (outcome_stage r) w' new.
Proof.
  unfold sending, mbind, io_bind, exchange, mret, io_ret, set_ready, raise_for_status, io_raise.
  destruct (server _ _) as [status ok body|]; [destruct (status =? 404) eqn:E404; destruct again; [destruct ok| |destruct ok..]|];
    eexists; (simpl; apply stepped_sent; [|first [done|by eexists _, _]|try destruct again; simpl; lia|done]);
    rewrite /= ?E404; destruct (w_collection_ready w); simpl; lia.
Qed.

Lemma next_stepped c w locked m :
  next_stage server c locked = Some m → let '(r, w') := m w in ∃ new, stepped c w (outcome_stage r) w' new.
Proof.
  destruct c as [points size []]; unfold next_stage; simpl; intros E; simplify_eq.
  - destruct locked; simplify_eq. exists []. apply stepped_quiet; [done|destruct again; simpl; lia|]. right. by exists again.
  - apply inside_stepped.
  - apply comparing_stepped.
  - apply sending_stepped.
Qed.
End steps.

(** ** All calls together *)

Section client.
Context (server : nat → request → reply).

Definition holders (s : Client) : nat := sum_list_with (λ c, Nat.b2n (within_lock (uc_stage c))) (cl_calls s).
Definition total (s : Client) : nat := sum_list_with (λ c, remaining (uc_stage c)) (cl_calls s).

(** What holds of the client at all times, with the exchanges [new] since the calls
    began. *)
Record client_ok (w : World) (new : list (request * reply)) (s : Client) : Prop := {
  co_log : w_log (cl_world s) = w_log w ++ new;
  co_made : (count made new + Nat.b2n (w_collection_ready w)
    ≤ count missing new + Nat.b2n (w_collection_ready (cl_world s)))%nat;
  co_lock : holders s = Nat.b2n (cl_locked s);
  co_stored : ∀ c, c ∈ cl_calls s → uc_stage c = Ended (Ok tt) →
    uc_points c = [] ∨ ∃ x, x ∈ new ∧ stored (uc_points c) x;
}.

Lemma all_calling_ok calls w : client_ok w [] (all_calling calls w).
Proof.
  split; simpl; [by rewrite app_nil_r|done| |].
  - unfold holders. simpl. induction calls as [|[[|p points] size] calls IH]; [done|exact IH..].
  - intros c ([points size] & -> & _)%list_elem_of_fmap. simpl. destruct points; [by left|done].
Qed.

(** The lock is taken by a call that found it free, and given back by the one that
    holds it. *)
Lemma lock_step s i c p :
  cl_calls s !! i = Some c → holders s = Nat.b2n (cl_locked s) →
  (within_lock p = true → within_lock (uc_stage c) = true ∨ cl_locked s = false) →
  sum_list_with (λ c, Nat.b2n (within_lock (uc_stage c))) (<[i := set_stage p c]> (cl_calls s))
  = Nat.b2n (lock_after (uc_stage c) p (cl_locked s)).
Proof.
  intros Hi Hl Hp. pose proof (sum_list_with_insert (λ c, Nat.b2n (within_lock (uc_stage c))) _ _ _ (set_stage p c) Hi) as H.
  pose proof (sum_list_with_insert (λ c, Nat.b2n (within_lock (uc_stage c))) _ _ _ (set_stage Dropped c) Hi) as H0.
  unfold holders in Hl. rewrite Hl in H, H0. unfold lock_after. cbn [set_stage uc_stage within_lock Nat.b2n] in H0. revert H.
  generalize (sum_list_with (λ c, Nat.b2n (within_lock (uc_stage c))) (<[i := set_stage p c]> (cl_calls s))).
  intros n H. cbn [set_stage uc_stage] in H.
  destruct (within_lock p), (within_lock (uc_stage c)), (cl_locked s); simpl in *; lia || (by destruct (Hp eq_refl)).
Qed.

Lemma move_ok w new s i s' :
  client_ok w new s → move_call server i s = Some s' →
  (total s' < total s)%nat ∧ ∃ more, client_ok w (new ++ more) s'.
Proof.
  intros [Hlog Hmade Hlock Hst] E. unfold move_call in E.
  destruct (cl_calls s !! i) as [c|] eqn:Hi; [|done]. cbn [mbind option_bind] in E.
  destruct (next_stage server c (cl_locked s)) as [m|] eqn:Em; [|done]. cbn [mbind option_bind] in E.
  pose proof (next_stepped server c (cl_world s) (cl_locked s) m Em) as H.
  destruct (m (cl_world s)) as [r w']. fold (outcome_stage r) in E. injection E as <-.
  destruct H as (more & [Slog Smade Sst Sless Slock]). split.
  { pose proof (sum_list_with_insert (λ c, remaining (uc_stage c)) _ _ _ (set_stage (outcome_stage r) c) Hi) as H.
    unfold total. simpl in *. lia. }
  exists more. split; simpl.
  - by rewrite Slog Hlog app_assoc.
  - rewrite !count_app. lia.
  - apply lock_step; [done..|]. intros Hw. destruct (Slock Hw) as [|[again Ea]]; [by left|right].
    unfold next_stage in Em. rewrite Ea in Em. by destruct (cl_locked s).
  - intros c' [k [(-> & <- & _)|[_ Hk]]%list_lookup_insert_Some]%list_elem_of_lookup He; simpl in *.
    + right. destruct (Sst He) as (x & ? & ?). exists x. set_solver.
    + apply list_elem_of_lookup_2 in Hk. destruct (Hst c' Hk He) as [|(x & ? & ?)]; [by left|right]. exists x. set_solver.
Qed.

Lemma drop_ok w new s i s' :
  client_ok w new s → drop_call i s = Some s' → client_ok w new s'.
Proof.
  intros [Hlog Hmade Hlock Hst] E. unfold drop_call in E.
  destruct (cl_calls s !! i) as [c|] eqn:Hi; [|done]. cbn [mbind option_bind] in E.
  destruct (ended (uc_stage c)); [done|]. injection E as <-. split; simpl; [done|done|by apply lock_step|].
  intros c' [k [(-> & <- & _)|[_ Hk]]%list_lookup_insert_Some]%list_elem_of_lookup He; simpl in *; [done|].
  apply list_elem_of_lookup_2 in Hk. by apply Hst.
Qed.

Lemma act_all_ok w s ts :
  (∃ new, client_ok w new s) → ∃ new, client_ok w new (act_all server ts s).
Proof.
  revert s. induction ts as [|t ts IH]; intros s Hok; [done|]. apply IH. clear IH. destruct Hok as [new Hok].
  unfold act. destruct t as [i|i]; [destruct (move_call server i s) as [s'|] eqn:E|destruct (drop_call i s) as [s'|] eqn:E];
    try by exists new.
  - destruct (move_ok _ _ _ _ _ Hok E) as (_ & more & H). by exists (new ++ more).
  - exists new. by eapply drop_ok.
Qed.

(** Some call can go on as long as one has not ended. *)
Lemma progress s :
  holders s = Nat.b2n (cl_locked s) → (∃ c, c ∈ cl_calls s ∧ ended (uc_stage c) = false) →
  ∃ i, is_Some (move_call server i s).
Proof.
  intros Hl Hc.
  assert (∃ i c m, cl_calls s !! i = Some c ∧ next_stage server c (cl_locked s) = Some m) as (i & c & m & Hi & Hm).
  { destruct (cl_locked s) eqn:E.
    - assert (∃ c, c ∈ cl_calls s ∧ within_lock (uc_stage c) = true) as (c & [i Hi]%list_elem_of_lookup & Hw).
      { unfold holders in Hl. clear -Hl. induction (cl_calls s) as [|c l IH]; [done|]. simpl in Hl.
        destruct (within_lock (uc_stage c)) eqn:Ew; [by exists c; split; [left|]|].
        destruct IH as (c' & ? & ?); [done|]. exists c'. split; [by right|done]. }
      exists i, c. unfold next_stage. destruct (uc_stage c); try done; by eexists.
    - destruct Hc as (c & [i Hi]%list_elem_of_lookup & He). exists i, c. unfold next_stage.
      destruct (uc_stage c); try done; by eexists. }
  exists i. unfold move_call. rewrite Hi. cbn [mbind option_bind]. rewrite Hm. cbn [mbind option_bind].
  by destruct (m (cl_world s)) as [r w'].
Qed.

(** C37: The collection is bootstrapped once, whoever comes first.  However many calls
    use the vector store at the same time, and whichever are cancelled or fail: at
    most one is in the bootstrap at a time and the lock is held exactly then; the
    collection is made at most once for every time it was found missing; a call that
    ends well has had its points stored; and as long as one has not ended, some call
    can go on, by one of its at most eight steps. *)
Theorem bootstrap_serialized (calls : list (list point * Z)) (w : World) (ts : list action) :
  let s := act_all server ts (all_calling calls w) in
  ∃ new, w_log (cl_world s) = w_log w ++ new ∧
    holders s = Nat.b2n (cl_locked s) ∧
    (count made new + Nat.b2n (w_collection_ready w)
     ≤ count missing new + Nat.b2n (w_collection_ready (cl_world s)))%nat ∧
    (∀ c, c ∈ cl_calls s → uc_stage c = Ended (Ok tt) →
       uc_points c = [] ∨ ∃ x, x ∈ new ∧ stored (uc_points c) x) ∧
    ((∃ c, c ∈ cl_calls s ∧ ended (uc_stage c) = false) → ∃ i, is_Some (move_call server i s)) ∧
    ∀ i s', move_call server i s = Some s' → (total s' < total s)%nat.
Proof.
  intros s. destruct (act_all_ok w (all_calling calls w) ts) as [new Hok]; [exists []; apply all_calling_ok|].
  fold s in Hok. exists new. split_and!; [apply Hok..| |].
  - apply progress, Hok.
  - intros i s' Hm. by destruct (move_ok w new s i s' Hok Hm).
Qed.
End client.

(** ** Alone, a call is [Services.upsert] *)

Section alone.
Context (server : nat → request → reply).

Definition lone (w : World) (c : upsert_call) : Client := MkClient w false [c].

Definition steps (n : nat) : list action := replicate n (Moves 0).

Lemma act_all_app ts us s : act_all server (ts ++ us) s = act_all server us (act_all server ts s).
Proof. apply foldl_app. Qed.

(** Taking the lock, and the step after it. *)
Lemma enter points size again w :
  let '(r, w') := inside server size again w in let p := outcome_stage r in
  act_all server (steps 2) (lone w (MkUpsertCall points size (Entering again)))
  = MkClient w' (within_lock p) [MkUpsertCall points size p].
Proof.
  unfold act_all, act, steps, move_call. simpl. unfold move_call. simpl.
  destruct (inside _ _ _ _) as [r w']. simpl. unfold lock_after. simpl. by rewrite orb_false_r.
Qed.

Lemma compare points size again w :
  act_all server (steps 1) (MkClient w true [MkUpsertCall points size (Comparing again)])
  = let '(r, w') := comparing server size again w in lone w' (MkUpsertCall points size (outcome_stage r)).
Proof.
  unfold act_all, act, steps, move_call. simpl. unfold comparing, mbind, io_bind.
  destruct (_fetch_collection_params server w) as [[actual|e] w']; [|done]. by destruct (_ && _).
Qed.

Lemma send points size again w :
  act_all server (steps 1) (lone w (MkUpsertCall points size (Sending again)))
  = let '(r, w') := sending server points again w in lone w' (MkUpsertCall points size (outcome_stage r)).
Proof.
  unfold act_all, act, steps, move_call. simpl.
  unfold sending, mbind, io_bind, exchange, mret, io_ret, set_ready, raise_for_status, io_raise.
  destruct (server _ _) as [status [] body|]; [destruct (_ && _)..|]; done.
Qed.

Lemma ensure_alone points size again w :
  let '(r, w') := ensure_collection server size w in
  ∃ n, act_all server (steps n) (lone w (MkUpsertCall points size (Entering again)))
    = lone w' (MkUpsertCall points size match r with Ok _ => Sending again | Err e => Ended (Err e) end).
Proof.
  pose proof (enter points size again w) as H. unfold ensure_collection, inside in *.
  destruct (w_collection_ready w); [by exists 2%nat|].
  unfold mbind, io_bind, exchange, mret, io_ret, set_ready, raise_for_status, io_raise in *.
  destruct (server _ _) as [status ok body|]; [|by exists 2%nat].
  destruct (status =? 409); [|destruct (bool_decide _); [by exists 2%nat|destruct ok; by exists 2%nat]].
  assert (∀ s, act_all server (steps 3) s = act_all server (steps 1) (act_all server (steps 2) s)) as E3.
  { intros s. by rewrite -act_all_app. }
  cbn zeta in H. cbn [outcome_stage within_lock] in H.
  pose proof (compare points size again) as Hc.
  unfold comparing, mbind, io_bind, mret, io_ret, set_ready, io_raise in Hc.
  destruct (_fetch_collection_params server _) as [[actual|e] w'] eqn:Ef;
    [destruct (_ && _) eqn:Ec|]; exists 3%nat; by rewrite E3 H Hc Ef ?Ec.
Qed.

Lemma sending_result points again w p w' :
  sending server points again w = (Ok p, w') → p = Ended (Ok tt) ∨ (p = Entering true ∧ again = false).
Proof.
  unfold sending, mbind, io_bind, exchange, mret, io_ret, set_ready, raise_for_status, io_raise.
  destruct (server _ _) as [status [] body|], again; rewrite ?andb_false_r ?andb_true_r; try done;
    try destruct (status =? 404); intros [= <- _]; auto.
Qed.

(** One run after the other. *)
Lemma steps_add n m s s' : act_all server (steps n) s = s' → act_all server (steps (n + m)) s = act_all server (steps m) s'.
Proof. intros <-. unfold steps. by rewrite replicate_add act_all_app. Qed.

(** The first answer to the points decides whether the bootstrap runs again. *)
Lemma upsert_eq points size w :
  points ≠ [] →
  upsert server points size w =
  (_ ← ensure_collection server size;
   p ← sending server points false;
   match p with
   | Entering _ =>
       _ ← ensure_collection server size;
       p ← sending server points true;
       mret tt
   | _ => mret tt
   end) w.
Proof.
  destruct points as [|p ps]; [done|]. intros _. unfold upsert. set (points := p :: ps).
  unfold mbind, io_bind. destruct (ensure_collection server size w) as [[[]|e] w1]; [|done].
  unfold sending, mbind, io_bind, exchange, mret, io_ret, set_ready.
  destruct (server _ _) as [status ok body|]; [|done].
  destruct (Z.eqb_spec status 404) as [->|Hne]; simpl.
  - destruct (ensure_collection _ _ _) as [[[]|e] w2]; [|done].
    rewrite andb_false_r. unfold raise_for_status. by destruct (server _ _) as [? [] ?|].
  - assert (∀ A (x y : A), match Reply status ok body with Reply 404 _ _ => x | _ => y end = y) as E.
    { intros A x y. destruct status as [|q|q]; try done. do 9 (destruct q as [q|q|]; try done). }
    rewrite E. unfold raise_for_status. by destruct ok.
Qed.

(** With the result and in the world that [Services.upsert] has. *)
Lemma upsert_alone points size w :
  let '(r, w') := upsert server points size w in
  ∃ n, act_all server (steps n) (all_calling [(points, size)] w) = lone w' (MkUpsertCall points size (Ended r)).
Proof.
  destruct (decide (points = [])) as [->|Hne]; [by exists 0%nat|]. rewrite upsert_eq //.
  change (all_calling [(points, size)] w) with (lone w (calling points size)).
  assert (calling points size = MkUpsertCall points size (Entering false)) as -> by by destruct points.
  pose proof (ensure_alone points size false w) as H1.
  unfold mbind, io_bind. destruct (ensure_collection server size w) as [[[]|e] w1]; [|done].
  destruct H1 as [n1 H1]. pose proof (send points size false w1) as H2.
  destruct (sending server points false w1) as [[p|e] w2] eqn:Es.
  2: { exists (n1 + 1)%nat. by rewrite (steps_add _ _ _ _ H1). }
  destruct (sending_result _ _ _ _ _ Es) as [-> |[-> _]].
  { exists (n1 + 1)%nat. by rewrite (steps_add _ _ _ _ H1). }
  rewrite -(steps_add _ _ _ _ H1) in H2. pose proof (ensure_alone points size true w2) as H3.
  destruct (ensure_collection server size w2) as [[[]|e] w3]; destruct H3 as [n2 H3].
  2: { exists (n1 + 1 + n2)%nat. by rewrite (steps_add _ _ _ _ H2). }
  rewrite -(steps_add _ _ _ _ H2) in H3. pose proof (send points size true w3) as H4.
  destruct (sending server points true w3) as [[p|e] w4] eqn:Es'; exists (n1 + 1 + n2 + 1)%nat;
    rewrite (steps_add _ _ _ _ H3) H4; [|done].
  by destruct (sending_result _ _ _ _ _ Es') as [-> |[_ [=]]].
Qed.
End alone.

(** ** Samples *)

(** Two calls at the same time: the second waits for the first to make the collection
    and does not make it again; when the third exchange finds it gone, it is made once
    more.  A call that is cancelled in the bootstrap gives the lock back. *)
Example two_calls :
  let server n r := match r with
                    | PutPoints _ => if bool_decide (n = 2%nat) then Reply 404 false None else Reply 200 true None
                    | PutCollection _ => if bool_decide (n = 0%nat) then Reply 201 true None else Reply 409 false None
                    | _ => Reply 200 true (Some (JObj [("result", JObj [("config", JObj [("params", JObj [("vectors",
                             JObj [("size", JInt 2); ("distance", JStr "Cosine")])])])])]))
                    end in
  let w := MkWorld (MkMemDB empty_db ∅ [] []) false [] in
  let one := [MkPoint "p" [JInt 1; JInt 0] []] in
  let begun := all_calling [(one, 2); (one, 2)] w in
  let moves := [Moves 0; Moves 1; Moves 0; Moves 1; Moves 0; Moves 1; Moves 1; Moves 1; Moves 1; Moves 1; Moves 1] in
  let s := act_all server moves begun in
  let dropped := act_all server [Moves 0; Drops 0; Moves 1] begun in
  (uc_stage <$> cl_calls s) = [Ended (Ok tt); Ended (Ok tt)] ∧
  fst <$> w_log (cl_world s) = [PutCollection 2; PutPoints one; PutPoints one; PutCollection 2; GetCollection; PutPoints one] ∧
  (cl_locked dropped, uc_stage <$> cl_calls dropped) = (true, [Dropped; Inside false]).
Proof. vm_compute. auto. Qed.
