(* ===== verification/Retrieval.v ===== *)
(** * Vector indexing and retrieval ([memory/service.py])

    The part of [MemoryService] that talks to the embedding endpoint and the
    vector store: indexing of pending chunks, rebuilding of the index,
    creation of memories, and hybrid retrieval. *)

From Stdlib Require Import QArith Lqa.
From S2P Require Import Prelude PyDict PyString Json Tokens Candidates Mmr Store Memory Services.
Local Open Scope Z_scope.

(** PostgreSQL's full-text search: the rank of a text for a query, [None] where
    it does not match; and [float(text)], [None] where it raises. *)
Class Search : Type := {
  ts_rank : string → string → option Q;
  float_of_str : string → option Q;
}.

(** [range(0, len(l), size)] slices; sizes are positive. *)
Fixpoint batches_from {A} (size : nat) (batch l : list A) : list (list A) :=
  match l with
  | [] => match batch with [] => [] | _ => [batch] end
  | x :: l' =>
      if (length batch <? size)%nat then batches_from size (batch ++ [x]) l'
      else batch :: batches_from size [x] l'
  end.

Definition batches {A} (size : Z) (l : list A) : list (list A) :=
  batches_from (Z.to_nat size) [] l.

(** [l[:n]], where a negative [n] counts from the end *)
Definition slice_to {A} (n : Z) (l : list A) : list A :=
  if n <? 0 then take (length l - Z.to_nat (- n)) l else take (Z.to_nat n) l.

Record MemoryService : Type := MkMemoryService {
  sv_retrieval : RetrievalSettings;
  sv_max_embed_chars : Z;
  sv_embed_batch_size : Z;
}.

Definition MemoryService_init (retrieval_settings : option RetrievalSettings)
    (max_embed_chars embed_batch_size : Z) : MemoryService :=
  MkMemoryService (default default_RetrievalSettings retrieval_settings) max_embed_chars
    (Z.max 1 embed_batch_size).

Section retrieval.
Context {host : Host} {pg : Postgres} {uu : Uuids} {se : Search}.
Context (server : nat → request → reply) (sv : MemoryService).

(** [t[: self._max_embed_chars]] *)
Definition truncate (t : string) : string :=
  if sv_max_embed_chars sv <? 0
  then stake (String.length t - Z.to_nat (- sv_max_embed_chars sv)) t
  else stake (Z.to_nat (sv_max_embed_chars sv)) t.

(** ** Embedding *)

Definition expect_embedding {A} (m : io (option A)) : io (option A) :=
  io_try m (λ e, match e with EmbeddingProviderError => Some (mret None) | _ => None end).

Definition _safe_embed_batch (texts : list string) : io (option (list (list json))) :=
  match texts with
  | [] => mret (Some [])
  | _ :: _ =>
      expect_embedding
        (vectors ← embed server (truncate <$> texts);
         if (length vectors =? length texts)%nat then mret (Some vectors) else mret None)
  end.

(** The loop of [embed_texts_in_batches]: [None] as soon as a slice fails. *)
Fixpoint embed_slices (acc : list (list json)) (slices : list (list string))
    : io (option (list (list json))) :=
  match slices with
  | [] => mret (Some acc)
  | slice :: rest =>
      vectors ← _safe_embed_batch slice;
      match vectors with
      | None => mret None
      | Some vectors => embed_slices (acc ++ vectors) rest
      end
  end.

Definition embed_texts_in_batches (texts : list string) : io (option (list (list json))) :=
  match texts with
  | [] => mret (Some [])
  | _ :: _ => embed_slices [] (batches (sv_embed_batch_size sv) texts)
  end.

Definition _embed_batch (texts : list string) : io (option (list (list json))) :=
  _safe_embed_batch texts.

(** [vectors[0]] of an empty list raises. *)
Definition _safe_embed (text : string) : io (option (list json)) :=
  expect_embedding
    (vectors ← embed server [truncate text];
     match vectors with v :: _ => mret (Some v) | [] => io_raise IndexError end).

(** ** Indexing chunks *)

(** [UPDATE conversation_chunks SET vector_indexed_at = now() WHERE id = $1 AND
    vector_indexed_at IS NULL] *)
Definition set_indexed (indexed : bool) (k : ChunkRow) : ChunkRow :=
  MkChunkRow (ck_id k) (ck_conversation k) (ck_start_seq k) (ck_end_seq k) (ck_message_ids k)
    (ck_raw_content k) (ck_token_count k) (ck_created_at k) indexed.

Definition map_chunks (f : ChunkRow → ChunkRow) (st : MemDB) : MemDB :=
  MkMemDB (me_db st) (me_watermarks st) (f <$> me_chunks st) (me_memories st).

Definition mark_indexed (chunk_id : Z) : io unit :=
  on_tables (λ st, (Ok tt, map_chunks
    (λ k, if bool_decide (ck_id k = chunk_id) then set_indexed true k else k) st)).

Definition chunk_payload (k : ChunkRow) : obj :=
  [("conversation_id", JStr (ck_conversation k)); ("kind", JStr "chunk");
   ("chunk_id", JStr (uuid_str (ck_id k))); ("start_seq", JInt (ck_start_seq k))].

Definition chunk_point (k : ChunkRow) (vector : list json) : point :=
  MkPoint (uuid_str (ck_id k)) vector (chunk_payload k).

Definition expect_vector_store (m : io bool) : io bool :=
  io_try m (λ e, match e with VectorStoreError => Some (mret false) | _ => None end).

(** [_index_chunk] and [_rebuild_chunk], which do the same: the row is
    marked after the upsert. *)
Definition _index_chunk (k : ChunkRow) (vector : option (list json)) : io bool :=
  vector ← match vector with None => _safe_embed (ck_raw_content k) | Some v => mret (Some v) end;
  match vector with
  | None => mret false
  | Some v =>
      upserted ← expect_vector_store
        (_ ← upsert server [chunk_point k v] (Z.of_nat (length v)); mret true);
      if (upserted : bool) then (_ ← mark_indexed (ck_id k); mret true) else mret false
  end.

Definition _rebuild_chunk (k : ChunkRow) (vector : option (list json)) : io bool :=
  _index_chunk k vector.

(** [ORDER BY start_seq LIMIT 100] *)
Definition start_leb (a b : ChunkRow) : bool := ck_start_seq a <=? ck_start_seq b.

Definition pending_chunks (st : MemDB) (conversation_id : string) : list ChunkRow :=
  take 100 (py_sorted start_leb
    (filter (λ k, ck_conversation k = conversation_id ∧ ck_vector_indexed k = false) (me_chunks st))).

(** [zip(batch, vectors, strict=True)]: lengths agree when [_embed_batch]
    returned the vectors. *)
Definition index_batch (indexed : Z) (batch : list ChunkRow) : io Z :=
  vectors ← _embed_batch (ck_raw_content <$> batch);
  match vectors with
  | None => mret indexed
  | Some vectors =>
      io_fold (λ (indexed : Z) (kv : ChunkRow * list json),
        done ← _index_chunk kv.1 (Some kv.2);
        mret (if (done : bool) then indexed + 1 else indexed)) indexed (zip batch vectors)
  end.

Definition read_tables {A} (f : MemDB → A) : io A := λ w, (Ok (f (w_mem w)), w).

Definition _index_pending_chunks (conversation_id : string) : io Z :=
  rows ← read_tables (λ st, pending_chunks st conversation_id);
  io_fold index_batch 0 (batches (sv_embed_batch_size sv) rows).

Definition index_completed_turns (now : Q) (conversation_id : string) : io Z :=
  chunked ← on_tables (_chunk_new_turns now conversation_id);
  _ ← _index_pending_chunks conversation_id;
  mret chunked.1.

(** ** Rebuilding *)

Record rebuild_summary : Type := MkSummary {
  su_chunks : Z;
  su_chunks_failed : Z;
  su_memories : Z;
  su_memories_failed : Z;
}.

Definition in_scope (scope : option string) (c : string) : bool :=
  match scope with None => true | Some id => bool_decide (c = id) end.

(** [ORDER BY conversation_id, start_seq] *)
Definition conversation_start_leb (a b : ChunkRow) : bool :=
  if bool_decide (ck_conversation a = ck_conversation b) then start_leb a b
  else str_leb (ck_conversation a) (ck_conversation b).

Definition rebuild_rows (scope : option string) (st : MemDB) : list ChunkRow :=
  py_sorted conversation_start_leb
    (filter (λ k, in_scope scope (ck_conversation k) = true) (me_chunks st)).

Definition rebuild_memories (scope : option string) (st : MemDB) : list MemoryRow :=
  filter (λ m, mr_status m = ACTIVE ∧ in_scope scope (mr_conversation m) = true) (me_memories st).

Definition count_chunk (s : rebuild_summary) (ok : bool) : rebuild_summary :=
  if ok then MkSummary (su_chunks s + 1) (su_chunks_failed s) (su_memories s) (su_memories_failed s)
  else MkSummary (su_chunks s) (su_chunks_failed s + 1) (su_memories s) (su_memories_failed s).

Definition rebuild_batch (s : rebuild_summary) (batch : list ChunkRow) : io rebuild_summary :=
  vectors ← _embed_batch (ck_raw_content <$> batch);
  match vectors with
  | None => mret (MkSummary (su_chunks s) (su_chunks_failed s + Z.of_nat (length batch))
                    (su_memories s) (su_memories_failed s))
  | Some vectors =>
      io_fold (λ s (kv : ChunkRow * list json),
        ok ← _rebuild_chunk kv.1 (Some kv.2); mret (count_chunk s ok)) s (zip batch vectors)
  end.

Definition memory_payload (conversation_id kind : string) (id : Z) : obj :=
  [("conversation_id", JStr conversation_id); ("kind", JStr kind);
   ("memory_id", JStr (uuid_str id))].

Definition memory_point (m : MemoryRow) (vector : list json) : point :=
  MkPoint (uuid_str (mr_id m)) vector
    (memory_payload (mr_conversation m) (MemoryKind_value (mr_kind m)) (mr_id m)).

Definition rebuild_memory (s : rebuild_summary) (mv : MemoryRow * list json) : io rebuild_summary :=
  ok ← expect_vector_store
    (_ ← upsert server [memory_point mv.1 mv.2] (Z.of_nat (length mv.2)); mret true);
  mret (MkSummary (su_chunks s) (su_chunks_failed s) (su_memories s + 1)
          (if (ok : bool) then su_memories_failed s else su_memories_failed s + 1)).

(** An empty conversation id is no scope. *)
Definition rebuild_vector_index (conversation_id : option string) (force : bool)
    : io rebuild_summary :=
  let scope := match conversation_id with Some EmptyString => None | c => c end in
  _ ← (if force
       then on_tables (λ st, (Ok tt, map_chunks
              (λ k, if in_scope scope (ck_conversation k) then set_indexed false k else k) st))
       else mret tt);
  chunk_rows ← read_tables (rebuild_rows scope);
  memory_rows ← read_tables (rebuild_memories scope);
  s ← io_fold rebuild_batch (MkSummary 0 0 0 0) (batches (sv_embed_batch_size sv) chunk_rows);
  vectors ← _embed_batch ((λ m, truncate (mr_content m)) <$> memory_rows);
  match vectors with
  | None => mret (MkSummary (su_chunks s) (su_chunks_failed s)
                    (Z.of_nat (length memory_rows)) (Z.of_nat (length memory_rows)))
  | Some vectors => io_fold rebuild_memory s (zip memory_rows vectors)
  end.

(** ** Creating memories *)

Definition _embed_and_upsert (point_id text : string) (payload : obj) : io unit :=
  vector ← _safe_embed text;
  match vector with
  | None => mret tt
  | Some v =>
      io_try (upsert server [MkPoint point_id v payload] (Z.of_nat (length v)))
        (λ e, match e with VectorStoreError => Some (mret tt) | _ => None end)
  end.

(** [MemoryService.create_memory]: the transaction, then the vector leg. *)
Definition create_and_embed (now : Q) (spec : MemoryCreate) : io Z :=
  memory_id ← on_tables (create_memory now spec);
  _ ← _embed_and_upsert (uuid_str memory_id) (mc_content spec)
        (memory_payload (mc_conversation_id spec) (MemoryKind_value (mc_kind spec)) memory_id);
  mret memory_id.

(** ** Hybrid retrieval *)

(** The dict of a candidate row. *)
Record Hit : Type := MkHit {
  h_item_type : string;
  h_kind : string;
  h_content : string;
  h_importance : Q;
  h_created_at : Q;
  h_source_message_ids : list Z;
  h_rank : Q;
  h_start_seq : option Z;
  h_end_seq : option Z;
}.

Definition memory_hit (m : MemoryRow) (rank : Q) : Hit :=
  MkHit "memory" (MemoryKind_value (mr_kind m)) (mr_content m) (mr_importance m)
    (mr_created_at m) (mr_source_message_ids m) rank None None.

Definition chunk_hit (k : ChunkRow) (rank : Q) : Hit :=
  MkHit "chunk" "chunk" (ck_raw_content k) 0 (ck_created_at k) (ck_message_ids k) rank
    (Some (ck_start_seq k)) (Some (ck_end_seq k)).

(** Rows that match the query, with their rank, in table order. *)
Definition memory_matches (query conversation_id : string) (st : MemDB) : list (string * Hit) :=
  omap (λ m, if bool_decide (mr_conversation m = conversation_id ∧ mr_status m = ACTIVE)
             then (λ rank, (uuid_str (mr_id m), memory_hit m rank)) <$> ts_rank (mr_content m) query
             else None) (me_memories st).

Definition chunk_matches (query conversation_id : string) (st : MemDB) : list (string * Hit) :=
  omap (λ k, if bool_decide (ck_conversation k = conversation_id)
             then (λ rank, (uuid_str (ck_id k), chunk_hit k rank)) <$> ts_rank (ck_raw_content k) query
             else None) (me_chunks st).

(** [out.sort(key=lambda h: -h["rank"])], a stable sort *)
Definition rank_geb (a b : string * Hit) : bool := Qle_bool (h_rank b.2) (h_rank a.2).

Definition _lexical_search (query conversation_id : string) (limit : Z) (st : MemDB)
    : list (string * Hit) :=
  slice_to limit (py_sorted rank_geb
    (memory_matches query conversation_id st ++ chunk_matches query conversation_id st)).

(** Semantic-only hits, resolved against the tables: one malformed id resolves
    nothing. *)
Definition _fetch_by_ids (conversation_id : string) (ids : list string) (st : MemDB)
    : list (string * Hit) :=
  match mapM uuid_parse ids with
  | None => []
  | Some uuids =>
      let mem_rows := filter (λ m, (mr_conversation m = conversation_id ∧ mr_status m = ACTIVE)
                                   ∧ mr_id m ∈ uuids) (me_memories st) in
      let chunk_rows := filter (λ k, ck_conversation k = conversation_id ∧ ck_id k ∈ uuids)
                          (me_chunks st) in
      let out := foldl (λ out m, dset out (uuid_str (mr_id m)) (memory_hit m 0)) [] mem_rows in
      foldl (λ out k, dset out (uuid_str (ck_id k)) (chunk_hit k 0)) out chunk_rows
  end.

(** [float(v)] *)
Definition py_float (v : json) : res Q :=
  match py_num v with
  | Some q => Ok q
  | None => match v with
            | JStr s => match float_of_str s with
                        | Some q => Ok q
                        | None => Err (ValueError "could not convert string to float")
                        end
            | _ => Err TypeError
            end
  end.

(** [min(1.0, max(0.0, q))] *)
Definition clamp01 (q : Q) : Q :=
  let q := if qltb 0 q then q else 0%Q in if qltb q 1 then q else 1%Q.

Definition semantic_step (scores : list (string * Q)) (hit : json) : res (list (string * Q)) :=
  payload ← py_get hit "payload";
  let payload := py_or payload (JObj []) in
  chunk_id ← py_get payload "chunk_id";
  memory_id ← py_get payload "memory_id";
  let key := py_str (py_or (py_or chunk_id memory_id) (JStr EmptyString)) in
  if snonempty key then
    score ← match hit with JObj d => match dget d "score" with
                                     | Some v => Ok v
                                     | None => Err KeyError
                                     end
            | _ => Err TypeError end;
    q ← py_float score;
    Ok (dset scores key (clamp01 q))
  else Ok scores.

(** The hits of the vector store.  Effects of the hits that were read before one
    raises do not matter: the scores are local. *)
Definition vector_scores (conversation_id : string) (v : list json) : io (list (string * Q)) :=
  io_try
    (hits ← search server v (candidate_pool (sv_retrieval sv)) (Some conversation_id);
     io_lift (foldM semantic_step [] hits))
    (λ e, match e with VectorStoreError => Some (mret []) | _ => None end).

Definition _semantic_scores (query conversation_id : string) : io (list (string * Q)) :=
  query_vec ← _safe_embed query;
  match query_vec with
  | None => mret []
  | Some v => vector_scores conversation_id v
  end.

Definition TYPE_PRIORITY : list (string * Q) :=
  [("decision", 9 # 10); ("constraint", 85 # 100); ("task", 7 # 10); ("bug", 7 # 10);
   ("episode_summary", 6 # 10); ("conversation_summary", 6 # 10); ("fact", 5 # 10);
   ("implementation", 5 # 10); ("chunk", 4 # 10); ("tool_result", 3 # 10)].

(** [max((h["rank"] for h in lexical), default=0.0)] *)
Definition max_rank (lexical : list (string * Hit)) : Q := qmax ((λ h, h_rank h.2) <$> lexical).

Definition lexical_score (top : Q) (h : Hit) : Q :=
  if qltb 0 top then (h_rank h / top)%Q else 0%Q.

(** Days since the row was created, never negative; times are in seconds. *)
Definition age_days (now : Q) (h : Hit) : Q :=
  let age := ((now - h_created_at h) / 86400)%Q in if qltb 0 age then age else 0%Q.

Definition item_components_of (now sem lex : Q) (h : Hit) : list (string * Q) :=
  [("semantic", round6 sem); ("lexical", round6 lex);
   ("recency", round6 (1 / (1 + age_days now h)));
   ("importance", round6 (h_importance h));
   ("type_priority", default (4 # 10) (dget TYPE_PRIORITY (h_kind h)))].

Definition weighted_score (components : list (string * Q)) : Q :=
  let cfg := sv_retrieval sv in
  let get name := default 0%Q (dget components name) in
  (semantic_weight cfg * get "semantic" + lexical_weight cfg * get "lexical"
   + recency_weight cfg * get "recency" + importance_weight cfg * get "importance"
   + type_weight cfg * get "type_priority")%Q.

(** The body of the loop over the candidates: [None] for a skipped one. *)
Definition retrieved_item (conversation_id : string) (now : Q) (semantic : list (string * Q))
    (top : Q) (kh : string * Hit) : option RetrievedItem :=
  let '(key, h) := kh in
  let sem := default 0%Q (dget semantic key) in
  let lex := lexical_score top h in
  if Qle_bool sem 0 && Qle_bool lex 0 then None
  else
    let components := item_components_of now sem lex h in
    Some (MkRetrievedItem (h_item_type h) key conversation_id (h_kind h) (h_content h)
            (round6 (weighted_score components)) components
            (uuid_str <$> h_source_message_ids h) (h_start_seq h) (h_end_seq h)).

(** [items.sort(key=lambda i: (-i.score, i.id))] *)
Definition item_leb (a b : RetrievedItem) : bool :=
  pair_leb (item_score a, item_id a) (item_score b, item_id b).

(** [d.update(e)] and dict comprehensions over [(key, value)] pairs *)
Definition dupdate {V} (d e : list (string * V)) : list (string * V) :=
  foldl (λ d kv, dset d kv.1 kv.2) d e.

(** The PostgreSQL legs: the candidates and the highest rank.  [db_up] says
    whether the database answers. *)
Definition retrieval_candidates (db_up : bool) (query conversation_id : string)
    (semantic : list (string * Q)) (st : MemDB) : res (list (string * Hit) * Q) :=
  if negb db_up then Err RetrievalError
  else
    let lexical := _lexical_search query conversation_id (candidate_pool (sv_retrieval sv)) st in
    let candidates := dupdate [] lexical in
    let missing := filter (λ k, dmem candidates k = false) semantic.*1 in
    let candidates := match missing with
                      | [] => candidates
                      | _ => dupdate candidates (_fetch_by_ids conversation_id missing st)
                      end in
    Ok (candidates, max_rank lexical).

Definition retrieve (db_up : bool) (now : Q) (query conversation_id : string) (limit : option Z)
    : io (list RetrievedItem) :=
  let limit := match limit with
               | None | Some 0 => limit_default (sv_retrieval sv)
               | Some n => n
               end in
  semantic ← _semantic_scores query conversation_id;
  st ← read_tables id;
  found ← io_lift (retrieval_candidates db_up query conversation_id semantic st);
  let '(candidates, top) := found in
  mret (slice_to limit
    (py_sorted item_leb (omap (retrieved_item conversation_id now semantic top) candidates))).
End retrieval.

(** ** Slices and dicts *)

Lemma slice_to_sublist {A} n (l : list A) : sublist (slice_to n l) l.
Proof. unfold slice_to. destruct (n <? 0); apply sublist_take. Qed.

Lemma slice_to_length {A} n (l : list A) : 0 ≤ n → Z.of_nat (length (slice_to n l)) ≤ n.
Proof.
  intros Hn. unfold slice_to. destruct (Z.ltb_spec n 0); [lia|]. rewrite length_take. lia.
Qed.

Section dicts.
Context {V : Type}.
Implicit Types d e : list (string * V).

Lemma elem_of_dset_pair d k v x : x ∈ dset d k v → x = (k, v) ∨ x ∈ d.
Proof.
  induction d as [|[k' v'] d IH]; simpl; [set_solver|].
  case_decide; [set_solver|]. intros [->|Hx]%elem_of_cons; [set_solver|].
  destruct (IH Hx); set_solver.
Qed.

Lemma elem_of_dupdate d e x : x ∈ dupdate d e → x ∈ d ∨ x ∈ e.
Proof.
  unfold dupdate. revert d. induction e as [|[k v] e IH]; simpl; intros d Hx; [by left|].
  destruct (IH _ Hx) as [[->|H]%elem_of_dset_pair|H]; set_solver.
Qed.

Lemma dwf_dupdate d e : dwf d → dwf (dupdate d e).
Proof. unfold dupdate. revert d. induction e; simpl; auto using dwf_dset. Qed.
End dicts.

Lemma filter_fmap_same {A} (P : A → Prop) `{∀ x, Decision (P x)} (f : A → A) (l : list A) :
  (∀ x, P (f x) ↔ P x) → filter P (f <$> l) = f <$> filter P l.
Proof.
  intros Hf. induction l as [|x l IH]; [done|]. csimpl. destruct (decide (P x)) as [Hx|Hx].
  - rewrite !filter_cons_True ?Hf // IH //.
  - rewrite !filter_cons_False ?Hf // IH //.
Qed.

(** ** What retrieval returns *)

Section soundness.
Context {host : Host} {pg : Postgres} {uu : Uuids} {se : Search}.

(** A candidate row is an active memory or a chunk of the conversation. *)
Definition backed (st : MemDB) (c : string) (kh : string * Hit) : Prop :=
  (∃ m r, m ∈ me_memories st ∧ mr_conversation m = c ∧ mr_status m = ACTIVE ∧
          kh = (uuid_str (mr_id m), memory_hit m r)) ∨
  (∃ k r, k ∈ me_chunks st ∧ ck_conversation k = c ∧ kh = (uuid_str (ck_id k), chunk_hit k r)).

Lemma lexical_backed query c limit st kh :
  kh ∈ _lexical_search query c limit st → backed st c kh.
Proof.
  intros Hin. eapply sublist_subseteq in Hin; [|apply slice_to_sublist].
  rewrite elem_of_py_sorted elem_of_app !list_elem_of_omap in Hin.
  destruct Hin as [(m & Hm & E)|(k & Hk & E)]; case_bool_decide as Hc; simplify_option_eq.
  - left. destruct Hc. by exists m, H.
  - right. by exists k, H.
Qed.

Lemma fold_dset_elem {A} (f : A → string) (g : A → Hit) l d x :
  x ∈ foldl (λ out a, dset out (f a) (g a)) d l → x ∈ d ∨ ∃ a, a ∈ l ∧ x = (f a, g a).
Proof.
  revert d. induction l as [|a l IH]; simpl; intros d Hx; [by left|].
  destruct (IH _ Hx) as [[->|H]%elem_of_dset_pair|(b & Hb & ->)]; [right|by left|right].
  - exists a. split; [left|done].
  - exists b. split; [by right|done].
Qed.

Lemma fetched_backed c ids st kh : kh ∈ _fetch_by_ids c ids st → backed st c kh.
Proof.
  unfold _fetch_by_ids. destruct (mapM _ _) as [uuids|]; [|set_solver].
  intros [[Hx|(m & [[[Hc Hs] _] Hm]%list_elem_of_filter & ->)]%fold_dset_elem
         |(k & [[Hc _] Hk]%list_elem_of_filter & ->)]%fold_dset_elem; [set_solver|left|right].
  - by exists m, 0%Q.
  - by exists k, 0%Q.
Qed.

Lemma candidates_backed sv db_up query c semantic st candidates top :
  retrieval_candidates sv db_up query c semantic st = Ok (candidates, top) →
  dwf candidates ∧ Forall (backed st c) candidates.
Proof.
  unfold retrieval_candidates. destruct db_up; [|done]. simpl.
  set (lexical := _lexical_search _ _ _ _). set (missing := filter _ _).
  intros [= <- _]. assert (dwf (dupdate [] lexical)) as Hwf by (apply dwf_dupdate, NoDup_nil_2).
  assert (Forall (backed st c) (dupdate [] lexical)) as Hlex.
  { apply Forall_forall. intros x [H|H]%elem_of_dupdate; [set_solver|]. by eapply lexical_backed. }
  destruct missing as [|k ks]; [done|]. split; [by apply dwf_dupdate|].
  apply Forall_forall. intros x [H|H]%elem_of_dupdate; [|by eapply fetched_backed].
  rewrite Forall_forall in Hlex. auto.
Qed.

(** What makes a returned item right. *)
Record item_ok (sv : MemoryService) (st : MemDB) (c : string) (i : RetrievedItem) : Prop := {
  io_conversation : item_conversation_id i = c;
  io_source :
    (∃ m, m ∈ me_memories st ∧ mr_conversation m = c ∧ mr_status m = ACTIVE ∧
       item_type i = "memory" ∧ item_id i = uuid_str (mr_id m) ∧ item_content i = mr_content m ∧
       item_kind i = MemoryKind_value (mr_kind m) ∧ item_start_seq i = None) ∨
    (∃ k, k ∈ me_chunks st ∧ ck_conversation k = c ∧
       item_type i = "chunk" ∧ item_id i = uuid_str (ck_id k) ∧ item_content i = ck_raw_content k ∧
       item_start_seq i = Some (ck_start_seq k) ∧ item_end_seq i = Some (ck_end_seq k));
  io_score : item_score i = round6 (weighted_score sv (item_components i));
}.

Lemma retrieved_item_ok sv st c now semantic top kh i :
  backed st c kh → retrieved_item sv c now semantic top kh = Some i →
  item_id i = kh.1 ∧ item_ok sv st c i.
Proof.
  intros Hb. destruct kh as [key h]. unfold retrieved_item. destruct (_ && _); [done|].
  intros [= <-]. split; [done|]. split; [done| |done].
  destruct Hb as [(m & r & Hm & Hc & Hs & [= -> ->])|(k & r & Hk & Hc & [= -> ->])]; [left|right].
  - exists m. by split_and!.
  - exists k. by split_and!.
Qed.

Lemma item_ids_nodup sv st c now semantic top candidates :
  dwf candidates → Forall (backed st c) candidates →
  NoDup (item_id <$> omap (retrieved_item sv c now semantic top) candidates).
Proof.
  unfold dwf. induction candidates as [|kh l IH]; simpl; [constructor|].
  intros [Hk Hl]%NoDup_cons [Hb Hall]%Forall_cons.
  destruct (retrieved_item sv c now semantic top kh) as [i|] eqn:E; [|by apply IH].
  csimpl. apply NoDup_cons. split; [|by apply IH].
  destruct (retrieved_item_ok _ _ _ _ _ _ _ _ Hb E) as [-> _].
  intros (j & Hj & (kh' & Hin & Ej)%list_elem_of_omap)%list_elem_of_fmap.
  rewrite Forall_forall in Hall. destruct (retrieved_item_ok _ _ _ _ _ _ _ _ (Hall _ Hin) Ej) as [E' _].
  apply Hk. rewrite Hj E'. by apply list_elem_of_fmap_2.
Qed.
End soundness.

(** *** Degradation *)

Section degradation.
Context {host : Host} {pg : Postgres} {uu : Uuids} {se : Search}.
Context (server : nat → request → reply) (sv : MemoryService).

Lemma embedding_of_Err item e : embedding_of item = Err e → e = EmbeddingProviderError.
Proof. unfold embedding_of. repeat case_match; by intros [= <-]. Qed.

Lemma embeddings_of_Err body e : embeddings_of body = Err e → e = EmbeddingProviderError.
Proof.
  unfold embeddings_of. repeat case_match; try by intros [= <-].
  generalize dependent l. intros l _. induction l as [|item l IH]; simpl; [done|].
  destruct (embedding_of item) eqn:E; simpl; [|intros [= <-]; by eapply embedding_of_Err].
  destruct (mapM embedding_of l); simpl; [done|]. intros [= <-]. by apply IH.
Qed.

(** The vector leg is down: the embedding endpoint, or the vector store after
    it, does not answer, answers with an error status, or answers with
    something else than what it should. *)
Definition vector_leg_down (w : World) (query c : string) : Prop :=
  let n := length (w_log w) in
  match server n (PostEmbeddings [truncate sv query]) with
  | Reply _ true body =>
      match embeddings_of body with
      | Ok (v :: _) =>
          match server (S n) (SearchPoints v (candidate_pool (sv_retrieval sv)) (Some c)) with
          | Reply _ true body => is_ok (search_hits body) = false
          | _ => True
          end
      | Ok [] => False
      | Err _ => True
      end
  | _ => True
  end.

Lemma search_hits_Err body e : search_hits body = Err e → e = VectorStoreError.
Proof. unfold search_hits. repeat case_match; by intros [= <-]. Qed.

Lemma semantic_down w query c :
  vector_leg_down w query c → ∃ w', _semantic_scores server sv query c w = (Ok [], w') ∧
    w_mem w' = w_mem w.
Proof.
  intros Hdown. unfold vector_leg_down in Hdown.
  unfold _semantic_scores, vector_scores, _safe_embed, embed, expect_embedding, io_try, search.
  unfold mbind, io_bind, exchange, io_lift, io_raise. simpl.
  destruct (server _ _) as [status ok body|]; simpl; [|by eexists].
  destruct ok; simpl; [|by eexists].
  destruct (embeddings_of body) as [[|v vs]|e] eqn:E; simpl; [done| |].
  - rewrite length_app Nat.add_1_r. destruct (server _ _) as [status2 ok2 body2|]; simpl; [|by eexists].
    destruct ok2; simpl; [|by eexists]. destruct (search_hits body2) as [hits|e] eqn:Es; [done|].
    rewrite (search_hits_Err _ _ Es). by eexists.
  - rewrite (embeddings_of_Err _ _ E). simpl. by eexists.
Qed.

(** What the lexical leg alone returns. *)
Definition lexical_retrieval (now : Q) (query c : string) (limit : Z) (st : MemDB)
    : list RetrievedItem :=
  let lexical := _lexical_search query c (candidate_pool (sv_retrieval sv)) st in
  slice_to limit (py_sorted item_leb
    (omap (retrieved_item sv c now [] (max_rank lexical)) (dupdate [] lexical))).

Definition effective_limit (limit : option Z) : Z :=
  match limit with None | Some 0 => limit_default (sv_retrieval sv) | Some n => n end.

Lemma vector_scores_net c v : preserves (net (λ _, False)) (vector_scores server sv c v).
Proof.
  unfold vector_scores. apply preserves_try; [apply _| |].
  - apply preserves_bind; [apply _|apply search_net|]. intros. auto with io typeclass_instances.
  - intros e h. case_match; intros [= <-]; auto with io typeclass_instances.
Qed.

Lemma semantic_tables query c : preserves (net (λ _, False)) (_semantic_scores server sv query c).
Proof.
  unfold _semantic_scores, _safe_embed, expect_embedding.
  apply preserves_bind; [apply _| |].
  - apply preserves_try; [apply _| |].
    + apply preserves_bind; [apply _|apply embed_net|]. intros [|v vs]; auto with io typeclass_instances.
    + intros e h. case_match; intros [= <-]; auto with io typeclass_instances.
  - intros [v|]; [apply vector_scores_net|auto with io typeclass_instances].
Qed.

(** C28: Retrieval is isolated and ranked.  Whatever the vector store and the
    embedding endpoint answer, every item returned comes from the tables: it is
    a memory of the conversation asked for that is still active, or a chunk of
    that conversation, with the stored content; its score is the weighted sum
    of its components; items are ordered by falling score and then identifier,
    no row is returned twice, the limit holds, and the tables are left alone. *)
Theorem retrieve_sound (db_up : bool) (now : Q) (query c : string) (limit : option Z)
    (w : World) (items : list RetrievedItem) (w' : World) :
  retrieve server sv db_up now query c limit w = (Ok items, w') →
  w_mem w' = w_mem w ∧
  Forall (item_ok sv (w_mem w) c) items ∧
  NoDup (item_id <$> items) ∧
  StronglySorted (λ a b, item_leb a b = true) items ∧
  (0 ≤ effective_limit limit → Z.of_nat (length items) ≤ effective_limit limit).
Proof.
  unfold retrieve. intros (semantic & w1 & Es & H)%io_bind_Ok.
  pose proof (semantic_tables query c w) as [Et _]. rewrite Es in Et. simpl in Et.
  apply io_bind_Ok in H as (st & w2 & [= <- <-] & H).
  apply io_bind_Ok in H as ([candidates top] & w3 & [= Ec <-] & [= <- <-]). simpl in *.
  rewrite Et in Ec. destruct (candidates_backed _ _ _ _ _ _ _ _ Ec) as [Hwf Hb].
  set (found := omap _ candidates).
  assert (sublist (slice_to (effective_limit limit) (py_sorted item_leb found)) (py_sorted item_leb found))
    as Hsub by apply slice_to_sublist.
  split; [done|]. fold (effective_limit limit). split_and!.
  - apply Forall_forall. intros i Hi. eapply sublist_subseteq in Hi; [|exact Hsub].
    apply elem_of_py_sorted, list_elem_of_omap in Hi as (kh & Hkh & Ei).
    rewrite Forall_forall in Hb. by destruct (retrieved_item_ok _ _ _ _ _ _ _ _ (Hb _ Hkh) Ei).
  - eapply sublist_NoDup; [|apply (fmap_sublist item_id); exact Hsub].
    rewrite py_sorted_perm. by eapply item_ids_nodup.
  - eapply sorted_sublist; [exact Hsub|]. apply py_sorted_sorted; unfold item_leb.
    + intros. apply pair_leb_total.
    + intros. by eapply pair_leb_trans.
  - apply slice_to_length.
Qed.

End degradation.

(** ** The vector index *)

Section index.
Context {host : Host} {pg : Postgres} {laws : PostgresLaws} {uu : Uuids} {se : Search}.
Context (server : nat → request → reply) (sv : MemoryService).

(** A point that stands for a row, with the conversation of that row. *)
Definition described (st : MemDB) (p : point) : Prop :=
  (∃ k v, k ∈ me_chunks st ∧ p = chunk_point k v) ∨
  (∃ m v, m ∈ me_memories st ∧ p = memory_point m v).

(** Every point ever sent stands for a row, and a chunk is marked only if the
    vector store accepted a point for it. *)
Record index_ok (w : World) : Prop := {
  ix_tables : mem_ok (w_mem w);
  ix_sent : ∀ points a, (PutPoints points, a) ∈ w_log w → Forall (described (w_mem w)) points;
  ix_marked : ∀ k, k ∈ me_chunks (w_mem w) → ck_vector_indexed k = true →
    ∃ v points, chunk_point k v ∈ points ∧ accepted w points;
}.

Lemma accepted_mono w w' points :
  w_log w `prefix_of` w_log w' → accepted w points → accepted w' points.
Proof. intros [new E] (s & b & H). exists s, b. rewrite E. set_solver. Qed.

(** *** Changes of the tables *)

(** What never changes of a memory. *)
Definition memory_facts (m : MemoryRow) : Z * string * MemoryKind * string :=
  (mr_id m, mr_conversation m, mr_kind m, mr_content m).

Lemma memory_point_same m m' v : memory_facts m' = memory_facts m → memory_point m' v = memory_point m v.
Proof. unfold memory_point. by intros [= -> -> -> _]. Qed.

(** Rows stay, new chunks are not indexed. *)
Record tables_grow (st st' : MemDB) : Prop := {
  tg_chunks : ∃ new, me_chunks st' = me_chunks st ++ new ∧
    Forall (λ k, ck_vector_indexed k = false) new;
  tg_memories : ∀ m, m ∈ me_memories st →
    ∃ m', m' ∈ me_memories st' ∧ memory_facts m' = memory_facts m;
}.

Lemma tables_grow_index w st :
  index_ok w → mem_ok st → tables_grow (w_mem w) st →
  index_ok (MkWorld st (w_collection_ready w) (w_log w)).
Proof.
  intros [Ht Hs Hm] Hok [(new & Ec & Hnew) Hmem]. split; simpl; [done|..].
  - intros points a Hin. eapply Forall_impl; [by eapply Hs|].
    intros p [(k & v & Hk & ->)|(m & v & Hk & ->)]; [left|right].
    + exists k, v. rewrite Ec. set_solver.
    + destruct (Hmem m Hk) as (m' & Hm' & Hp). exists m', v. by rewrite (memory_point_same m m').
  - intros k Hk Hi. rewrite Ec in Hk. apply elem_of_app in Hk as [Hk|Hk]; [by apply Hm|].
    rewrite Forall_forall in Hnew. apply Hnew in Hk. congruence.
Qed.

Lemma grow_memories st st' :
  me_chunks st' = me_chunks st →
  (∃ more, Forall2 evolves (me_memories st) (take (length (me_memories st)) (me_memories st')) ∧
           me_memories st' = take (length (me_memories st)) (me_memories st') ++ more) →
  tables_grow st st'.
Proof.
  intros Ec (more & Hall & Em). split; [exists []; by rewrite app_nil_r|].
  intros m Hin. apply list_elem_of_lookup in Hin as [i Hi].
  destruct (Forall2_lookup_l _ _ _ _ _ Hall Hi) as (m' & Hm' & Hev). exists m'. split.
  - rewrite Em. apply elem_of_app. left. by eapply list_elem_of_lookup_2.
  - destruct (evolves_fields _ _ Hev) as (Ei & Econv & Ec' & _).
    unfold memory_facts. by rewrite Ei Econv Ec' (evolves_kind _ _ Hev).
Qed.

Lemma run_mem_op_grows st op : mem_ok st → mem_op_wf op → tables_grow st (run_mem_op st op).
Proof.
  intros Hok Hwf. pose proof (run_mem_op_evolves st op Hok) as Hev.
  destruct op as [op|now c|now spec|id status]; try (by apply grow_memories).
  - destruct (chunk_pass_added now c st) as [Hc Hm _]. split; [done|]. simpl. rewrite Hm. eauto.
  - apply grow_memories; [|done]. simpl. destruct (create_memory now spec st) as [r st'] eqn:E.
    by destruct (create_db _ _ _ _ _ E) as (Ec & _).
Qed.

Lemma run_tables_index w op :
  index_ok w → mem_op_wf op →
  index_ok (MkWorld (run_mem_op (w_mem w) op) (w_collection_ready w) (w_log w)).
Proof.
  intros Hi Hwf. pose proof (ix_tables _ Hi) as Hok.
  apply tables_grow_index; [done|by apply run_mem_op_ok|by apply run_mem_op_grows].
Qed.

(** *** Exchanges and marks *)

(** The rows that a computation has read are in the tables. *)
Record known (K : list ChunkRow) (M : list MemoryRow) (st : MemDB) : Prop := {
  kn_chunks : ∀ k, k ∈ K → ∃ k', k' ∈ me_chunks st ∧ set_indexed false k' = set_indexed false k;
  kn_memories : ∀ m, m ∈ M → ∃ m', m' ∈ me_memories st ∧ memory_facts m' = memory_facts m;
}.

(** The invariant is kept, given the rows read, they remain known, and the
    conversations are left alone. *)
Definition keeps (K : list ChunkRow) (M : list MemoryRow) (w w' : World) : Prop :=
  known K M (w_mem w) → index_ok w →
  known K M (w_mem w') ∧ index_ok w' ∧ me_db (w_mem w') = me_db (w_mem w).

#[local] Instance keeps_preorder K M : PreOrder (keeps K M).
Proof.
  split; [by intros w|]. intros a b c H1 H2 Hk Hi. destruct (H1 Hk Hi) as (Hk' & Hi' & <-). auto.
Qed.

Definition of_rows (K : list ChunkRow) (M : list MemoryRow) (p : point) : Prop :=
  (∃ k v, k ∈ K ∧ p = chunk_point k v) ∨ (∃ m v, m ∈ M ∧ p = memory_point m v).

Lemma chunk_point_same k k' v :
  set_indexed false k' = set_indexed false k → chunk_point k' v = chunk_point k v.
Proof. destruct k, k'. unfold set_indexed. simpl. by intros [= -> -> -> -> -> -> -> ->]. Qed.

Lemma net_keeps K M w w' : net (of_rows K M) w w' → keeps K M w w'.
Proof.
  intros [Em (new & El & Hnew)] [Hkc Hkm] [Ht Hs Hm]. rewrite Em. split; [done|]. split; [split|done].
  - by rewrite Em.
  - intros points a Hin. rewrite El in Hin. rewrite Em. apply elem_of_app in Hin as [Hin|Hin].
    + by eapply Hs.
    + eapply Forall_impl; [by eapply Hnew|].
      intros p [(k & v & Hk & ->)|(m & v & Hk & ->)]; [left|right].
      * destruct (Hkc k Hk) as (k' & Hk' & E). exists k', v. by rewrite (chunk_point_same k k').
      * destruct (Hkm m Hk) as (m' & Hm' & E). exists m', v. by rewrite (memory_point_same m m').
  - rewrite Em. intros k Hk Hi. destruct (Hm k Hk Hi) as (v & points & Hp & Ha).
    exists v, points. split; [done|]. eapply accepted_mono; [|exact Ha]. rewrite El. by apply prefix_app_r.
Qed.

Lemma preserves_weaken {A} (R R' : World → World → Prop) (m : io A) :
  (∀ w w', R w w' → R' w w') → preserves R m → preserves R' m.
Proof. intros H Hm w. apply H, Hm. Qed.

(** Chunks keep everything but the mark. *)
Lemma map_chunks_settled f st c :
  settled_units (me_db (map_chunks f st)) c = settled_units (me_db st) c.
Proof. done. Qed.

Lemma map_chunks_ok f st :
  (∀ k, set_indexed false (f k) = set_indexed false k) → mem_ok st → mem_ok (map_chunks f st).
Proof.
  intros Hf [Hdb Hch Hm [Hn Hd]].
  assert (∀ k, ck_id (f k) = ck_id k ∧ ck_conversation (f k) = ck_conversation k ∧
    ck_start_seq (f k) = ck_start_seq k ∧ ck_end_seq (f k) = ck_end_seq k ∧
    ck_message_ids (f k) = ck_message_ids k ∧ ck_raw_content (f k) = ck_raw_content k ∧
    ck_token_count (f k) = ck_token_count k) as Hff.
  { intros k. specialize (Hf k). destruct (f k), k. unfold set_indexed in Hf. simpl in *.
    by injection Hf as -> -> -> -> -> -> -> ->. }
  split; [done| |by apply (memories_same st)|].
  - intros c. destruct (Hch c) as [n [H1 H2 H3]]. exists n. split; [done| |done].
    simpl. rewrite filter_fmap_same; [intros k; by destruct (Hff k) as (_ & -> & _)|].
    apply Forall2_fmap_r. eapply Forall2_impl; [exact H2|]. intros u k [C1 C2 C3 C4 C5].
    destruct (Hff k) as (E1 & E2 & E3 & E4 & E5 & E6 & E7).
    split; by rewrite ?E2 ?E3 ?E4 ?E5 ?E6 ?E7.
  - split; simpl.
    + rewrite -list_fmap_compose (list_fmap_ext (ck_id ∘ f) ck_id (me_chunks st)) //.
      intros; simpl; apply Hff.
    + apply Forall_fmap. eapply Forall_impl; [exact Hd|]. intros k (i & ? & ?). exists i.
      simpl. split; [done|]. by destruct (Hff k) as [-> _].
Qed.

Lemma known_map K M f st :
  (∀ k, set_indexed false (f k) = set_indexed false k) → known K M st → known K M (map_chunks f st).
Proof.
  intros Hf [Hk Hm]. split; [|done]. intros k Hin. destruct (Hk k Hin) as (k' & Hk' & E).
  exists (f k'). split; [by apply list_elem_of_fmap_2|by rewrite Hf].
Qed.

(** Marks may be taken back. *)
Lemma unmark_index w f :
  (∀ k, set_indexed false (f k) = set_indexed false k) →
  (∀ k, ck_vector_indexed (f k) = true → ck_vector_indexed k = true) →
  index_ok w → index_ok (MkWorld (map_chunks f (w_mem w)) (w_collection_ready w) (w_log w)).
Proof.
  intros Hf Hi [Ht Hs Hm]. split; simpl; [by apply map_chunks_ok|..].
  - intros points a Hin. eapply Forall_impl; [by eapply Hs|].
    intros p [(k & v & Hk & ->)|(m & v & Hk & ->)]; [left|right; by exists m, v].
    exists (f k), v. split; [by apply list_elem_of_fmap_2|]. by apply chunk_point_same.
  - intros k (x & -> & Hx)%list_elem_of_fmap Hk. destruct (Hm x Hx (Hi x Hk)) as (v & points & Hp & Ha).
    exists v, points. split; [|done]. by rewrite (chunk_point_same x (f x)).
Qed.

Lemma mark_keeps K M k v w :
  k ∈ K → accepted w [chunk_point k v] → keeps K M w (mark_indexed (ck_id k) w).2.
Proof.
  intros HkK Hacc Hknown [Ht Hs Hm]. unfold mark_indexed, on_tables. simpl.
  set (f := λ x, if bool_decide (ck_id x = ck_id k) then set_indexed true x else x).
  assert (∀ x, set_indexed false (f x) = set_indexed false x) as Hf.
  { intros x. unfold f. by case_bool_decide. }
  split; [by apply known_map|]. split; [split; simpl|done]; [by apply map_chunks_ok|..].
  - intros points a Hin. eapply Forall_impl; [by eapply Hs|].
    intros p [(x & u & Hx & ->)|(m & u & Hx & ->)]; [left|right; by exists m, u].
    exists (f x), u. split; [by apply list_elem_of_fmap_2|]. by apply chunk_point_same.
  - intros x (y & -> & Hy)%list_elem_of_fmap Hi. unfold f in Hi |- *.
    case_bool_decide as Hid; [|by apply Hm].
    exists v, [chunk_point k v]. split; [|done]. apply list_elem_of_singleton.
    destruct (kn_chunks _ _ _ Hknown k HkK) as (k' & Hk' & E).
    assert (k' = y) as ->.
    { assert (ck_id k' = ck_id y) as Eid.
      { rewrite Hid. destruct k, k'. unfold set_indexed in E. simpl in *. by injection E as ->. }
      apply list_elem_of_lookup in Hk' as [i Hi'], Hy as [j Hj].
      assert (i = j) as ->; [|congruence].
      eapply (NoDup_lookup (ck_id <$> me_chunks (w_mem w))); [apply (mk_ids _ Ht)|..];
        rewrite list_lookup_fmap ?Hi' ?Hj /= ?Eid //. }
    apply chunk_point_same. rewrite -E. done.
Qed.

Lemma expect_upsert_net S points n :
  Forall S points →
  preserves (net S) (expect_vector_store (_ ← upsert server points n; mret true)).
Proof.
  intros HS. apply preserves_try; [apply _| |].
  - apply preserves_bind; [apply _|by apply upsert_net|]. auto with io typeclass_instances.
  - intros e h. case_match; intros [= <-]; auto with io typeclass_instances.
Qed.

Lemma expect_upsert_true p n w w' :
  expect_vector_store (_ ← upsert server [p] n; mret true) w = (Ok true, w') → accepted w' [p].
Proof.
  unfold expect_vector_store, io_try.
  destruct ((_ ← upsert server [p] n; mret true) w) as [[b|e] w1] eqn:E.
  - intros [= -> ->]. apply io_bind_Ok in E as ([] & w2 & E & [= <-]). by eapply upsert_Ok.
  - by destruct e.
Qed.

Lemma safe_embed_net S text : preserves (net S) (_safe_embed server sv text).
Proof.
  unfold _safe_embed, expect_embedding. apply preserves_try; [apply _| |].
  - apply preserves_bind; [apply _|apply embed_net|]. intros [|]; auto with io typeclass_instances.
  - intros e h. case_match; intros [= <-]; auto with io typeclass_instances.
Qed.

Lemma embed_batch_net S texts : preserves (net S) (_embed_batch server sv texts).
Proof.
  unfold _embed_batch, _safe_embed_batch, expect_embedding.
  destruct texts as [|t ts]; [auto with io typeclass_instances|].
  apply preserves_try; [apply _| |].
  - apply preserves_bind; [apply _|apply embed_net|]. intros vectors.
    destruct (_ =? _)%nat; auto with io typeclass_instances.
  - intros e h. case_match; intros [= <-]; auto with io typeclass_instances.
Qed.

Lemma net_preserves_keeps {A} K M (m : io A) :
  preserves (net (of_rows K M)) m → preserves (keeps K M) m.
Proof. apply preserves_weaken. intros. by apply net_keeps. Qed.

Lemma index_chunk_keeps K M k vector :
  k ∈ K → preserves (keeps K M) (_index_chunk server sv k vector).
Proof.
  intros Hk. unfold _index_chunk. apply preserves_bind; [apply _| |].
  { destruct vector; [auto with io typeclass_instances|]. apply net_preserves_keeps, safe_embed_net. }
  intros [v|]; [|auto with io typeclass_instances]. intros w.
  assert (preserves (keeps K M) (expect_vector_store
    (_ ← upsert server [chunk_point k v] (Z.of_nat (length v)); mret true))) as Hup.
  { apply net_preserves_keeps, expect_upsert_net. constructor; [|done]. left. by exists k, v. }
  unfold mbind at 1, io_bind at 1. specialize (Hup w).
  destruct (expect_vector_store _ w) as [[done_|e] w1] eqn:E; [|done].
  destruct done_; [|done]. etrans; [exact Hup|].
  apply expect_upsert_true in E. by apply (mark_keeps K M k v).
Qed.

(** *** The operations *)

Lemma zip_elem {A B} (l : list A) (k : list B) x : x ∈ zip l k → x.1 ∈ l.
Proof.
  revert k. induction l as [|a l IH]; intros [|b k]; simpl; try set_solver.
Qed.

Lemma batches_from_elem {A} n (batch l : list A) b x :
  b ∈ batches_from n batch l → x ∈ b → x ∈ batch ++ l.
Proof.
  revert batch. induction l as [|y l IH]; intros batch; simpl.
  - rewrite app_nil_r. destruct batch; [set_solver|]. by intros ->%list_elem_of_singleton.
  - destruct (_ <? _)%nat.
    + intros Hb Hx. specialize (IH _ Hb Hx). set_solver.
    + intros [->|Hb]%elem_of_cons Hx; [set_solver|]. specialize (IH _ Hb Hx). set_solver.
Qed.

Lemma index_batch_keeps K M n batch :
  batch ⊆ K → preserves (keeps K M) (index_batch server sv n batch).
Proof.
  intros Hb. unfold index_batch. apply preserves_bind; [apply _|apply net_preserves_keeps, embed_batch_net|].
  intros [vectors|]; [|auto with io typeclass_instances].
  apply preserves_fold; [apply _|]. intros i kv Hkv%zip_elem.
  apply preserves_bind; [apply _|by apply index_chunk_keeps, Hb|]. auto with io typeclass_instances.
Qed.

Lemma rebuild_batch_keeps K M s batch :
  batch ⊆ K → preserves (keeps K M) (rebuild_batch server sv s batch).
Proof.
  intros Hb. unfold rebuild_batch. apply preserves_bind; [apply _|apply net_preserves_keeps, embed_batch_net|].
  intros [vectors|]; [|auto with io typeclass_instances].
  apply preserves_fold; [apply _|]. intros i kv Hkv%zip_elem.
  apply preserves_bind; [apply _|by apply index_chunk_keeps, Hb|]. auto with io typeclass_instances.
Qed.

Lemma rebuild_memory_keeps K M s mv :
  mv.1 ∈ M → preserves (keeps K M) (rebuild_memory server s mv).
Proof.
  intros Hm. unfold rebuild_memory. apply preserves_bind; [apply _| |auto with io typeclass_instances].
  apply net_preserves_keeps, expect_upsert_net. constructor; [|done]. right. by exists mv.1, mv.2.
Qed.

(** A computation on rows just read keeps the invariant. *)
Lemma keeps_both {A} K M (m : io A) w :
  preserves (keeps K M) m → known K M (w_mem w) → index_ok w →
  index_ok (m w).2 ∧ me_db (w_mem (m w).2) = me_db (w_mem w).
Proof. intros Hm Hk Hi. by destruct (Hm w Hk Hi) as (_ & ? & ?). Qed.

Lemma keeps_index {A} K M (m : io A) w :
  preserves (keeps K M) m → known K M (w_mem w) → index_ok w → index_ok (m w).2.
Proof. intros Hm Hk Hi. by eapply keeps_both. Qed.

Lemma known_rows K M st : K ⊆ me_chunks st → M ⊆ me_memories st → known K M st.
Proof. intros HK HM. split; [intros k Hk; exists k|intros m Hm; exists m]; auto. Qed.

Lemma index_pending_keeps c w :
  index_ok w →
  index_ok (_index_pending_chunks server sv c w).2 ∧
  me_db (w_mem (_index_pending_chunks server sv c w).2) = me_db (w_mem w).
Proof.
  intros Hi. unfold _index_pending_chunks. set (K := pending_chunks (w_mem w) c).
  assert (K ⊆ me_chunks (w_mem w)) as HK.
  { intros k Hk. eapply sublist_subseteq in Hk; [|apply sublist_take].
    apply elem_of_py_sorted in Hk. by apply list_elem_of_filter in Hk as [_ ?]. }
  rewrite (io_bind_run _ _ w K w); [done|].
  apply (keeps_both K []); [|by apply known_rows, list_subseteq_nil|done].
  apply preserves_fold; [apply _|]. intros n b Hb. apply index_batch_keeps.
  intros k Hk. by apply (batches_from_elem _ _ _ _ _ Hb Hk).
Qed.

Lemma index_turns_keeps now c w :
  index_ok w →
  index_ok (index_completed_turns server sv now c w).2 ∧
  only_draws (me_db (w_mem w)) (me_db (w_mem (index_completed_turns server sv now c w).2)).
Proof.
  intros Hi. unfold index_completed_turns. unfold mbind at 1 3, io_bind at 1 3, on_tables.
  pose proof (run_tables_index w (MChunk now c) Hi I) as Hi'. simpl in Hi'.
  pose proof (ca_db _ _ (chunk_pass_added now c (w_mem w))) as Hd.
  destruct (_chunk_new_turns now c (w_mem w)) as [[a|e] st]; simpl in *; [|done].
  unfold mbind, io_bind. destruct (index_pending_keeps c _ Hi') as [H1 H2].
  destruct (_index_pending_chunks server sv c _) as [[n|e] w']; simpl in *; by rewrite H2.
Qed.

Lemma rebuild_keeps scope force w : index_ok w → index_ok (rebuild_vector_index server sv scope force w).2.
Proof.
  intros Hi. unfold rebuild_vector_index. set (sc := match scope with Some EmptyString => None | c => c end).
  set (f := λ k, if in_scope sc (ck_conversation k) then set_indexed false k else k).
  assert (∃ w1, (if force then on_tables (λ st, (Ok tt, map_chunks f st)) else mret tt) w = (Ok tt, w1) ∧
    index_ok w1) as (w1 & E1 & Hi1).
  { destruct force; [|by exists w]. eexists. split; [done|]. apply unmark_index; [..|done].
    - intros k. unfold f. by destruct (in_scope _ _).
    - intros k. unfold f. by destruct (in_scope _ _). }
  rewrite (io_bind_run _ _ _ _ _ E1).
  set (K := rebuild_rows sc (w_mem w1)). set (M := rebuild_memories sc (w_mem w1)).
  rewrite (io_bind_run _ _ w1 K w1); [done|]. rewrite (io_bind_run _ _ w1 M w1); [done|].
  apply (keeps_index K M); [|apply known_rows|done].
  - apply preserves_bind; [apply _| |].
    + apply preserves_fold; [apply _|]. intros s b Hb. apply rebuild_batch_keeps.
      intros k Hk. by apply (batches_from_elem _ _ _ _ _ Hb Hk).
    + intros s. apply preserves_bind; [apply _|apply net_preserves_keeps, embed_batch_net|].
      intros [vectors|]; [|auto with io typeclass_instances].
      apply preserves_fold; [apply _|]. intros s' mv Hmv%zip_elem. by apply rebuild_memory_keeps.
  - intros k Hk. apply elem_of_py_sorted in Hk. by apply list_elem_of_filter in Hk as [_ ?].
  - intros m Hm. by apply list_elem_of_filter in Hm as [_ ?].
Qed.

Lemma create_keeps now spec w : index_ok w → index_ok (create_and_embed server sv now spec w).2.
Proof.
  intros Hi. unfold create_and_embed. unfold mbind at 1, io_bind at 1, on_tables.
  pose proof (run_tables_index w (MCreate now spec) Hi I) as Hi'. simpl in Hi'.
  destruct (create_memory now spec (w_mem w)) as [[id|e] st] eqn:E; simpl in *; [|done].
  destruct (create_memory_rows _ _ _ _ _ (mk_memories _ (ix_tables _ Hi)) E)
    as (f & row & target & Em & _ & Eid & Econv & _ & _ & _ & _ & Ekind & _).
  match goal with |- index_ok ((_ ≫= _) ?w1).2 => set (w1' := w1) in * end.
  apply (keeps_index [] [row]); [|apply known_rows; [apply list_subseteq_nil|]|done].
  - apply preserves_bind; [apply _| |auto with io typeclass_instances].
    unfold _embed_and_upsert. apply preserves_bind; [apply _|apply net_preserves_keeps, safe_embed_net|].
    intros [v|]; [|auto with io typeclass_instances]. apply net_preserves_keeps.
    apply preserves_try; [apply _| |].
    + apply upsert_net. constructor; [|done]. right. exists row, v. split; [left|].
      unfold memory_point. by rewrite Eid Econv Ekind.
    + intros e h. case_match; intros [= <-]; auto with io typeclass_instances.
  - intros m ->%list_elem_of_singleton. simpl. rewrite Em. set_solver.
Qed.

Lemma net_index w w' : net (λ _, False) w w' → index_ok w → index_ok w'.
Proof.
  intros Hn Hi. destruct (net_keeps [] [] w w') as (_ & ? & _); [|by apply known_rows; apply list_subseteq_nil|done|done].
  destruct Hn as [Em (new & El & Hnew)]. split; [done|]. exists new. split; [done|].
  intros points a Hin. eapply Forall_impl; [by eapply Hnew|]. done.
Qed.

Lemma retrieve_net db_up now query c limit :
  preserves (net (λ _, False)) (retrieve server sv db_up now query c limit).
Proof.
  unfold retrieve. apply preserves_bind; [apply _|apply semantic_tables|]. intros semantic.
  apply preserves_bind; [apply _|by intros w|]. intros st.
  apply preserves_bind; [apply _|auto with io typeclass_instances|].
  intros [candidates top]. auto with io typeclass_instances.
Qed.

(** ** Histories of the service *)

Inductive svc_op : Type :=
| VTables (op : mem_op)
| VIndex (now : Q) (c : string)
| VRebuild (scope : option string) (force : bool)
| VCreate (now : Q) (spec : MemoryCreate)
| VRetrieve (db_up : bool) (now : Q) (query c : string) (limit : option Z).

Definition svc_op_wf (op : svc_op) : Prop :=
  match op with VTables op => mem_op_wf op | _ => True end.

Definition run_svc_op (w : World) (op : svc_op) : World :=
  match op with
  | VTables op => MkWorld (run_mem_op (w_mem w) op) (w_collection_ready w) (w_log w)
  | VIndex now c => (index_completed_turns server sv now c w).2
  | VRebuild scope force => (rebuild_vector_index server sv scope force w).2
  | VCreate now spec => (create_and_embed server sv now spec w).2
  | VRetrieve db_up now query c limit => (retrieve server sv db_up now query c limit w).2
  end.

Definition empty_world : World := MkWorld empty_memdb false [].

Definition run_svc (ops : list svc_op) : World := foldl run_svc_op empty_world ops.

Lemma run_svc_op_ok w op : index_ok w → svc_op_wf op → index_ok (run_svc_op w op).
Proof.
  intros Hi Hwf. destruct op as [op|now c|scope force|now spec|db_up now query c limit]; simpl.
  - by apply run_tables_index.
  - by apply index_turns_keeps.
  - by apply rebuild_keeps.
  - by apply create_keeps.
  - eapply net_index; [apply retrieve_net|done].
Qed.

Lemma run_svc_ok ops : Forall svc_op_wf ops → index_ok (run_svc ops).
Proof.
  unfold run_svc. assert (index_ok empty_world) as H.
  { split; simpl; [apply empty_mem_ok|set_solver|set_solver]. }
  revert H. generalize empty_world. induction ops as [|op ops IH]; intros w Hi Hwf; simpl; [done|].
  inversion_clear Hwf. apply IH; [by apply run_svc_op_ok|done].
Qed.

(** The vector index never gets ahead of the vector store nor crosses
    conversations.  Whatever the servers answer, and wherever an error stops an
    operation, over any history of appends, chunking, indexing, rebuilding,
    memory creation and retrieval: every point ever sent carries the identifier
    and the conversation of a stored row, and a chunk is marked as indexed only
    if the vector store accepted a point for that very chunk. *)
Theorem vector_index_invariant (ops : list svc_op) :
  Forall svc_op_wf ops →
  let w := run_svc ops in
  (∀ points a p, (PutPoints points, a) ∈ w_log w → p ∈ points →
     (∃ k v, k ∈ me_chunks (w_mem w) ∧ p = chunk_point k v) ∨
     (∃ m v, m ∈ me_memories (w_mem w) ∧ p = memory_point m v)) ∧
  (∀ k, k ∈ me_chunks (w_mem w) → ck_vector_indexed k = true →
     ∃ v points status body, chunk_point k v ∈ points ∧
       (PutPoints points, Reply status true body) ∈ w_log w).
Proof.
  intros [_ Hs Hm]%run_svc_ok. split.
  - intros points a p Hin Hp. specialize (Hs _ _ Hin). rewrite Forall_forall in Hs. by apply Hs.
  - intros k Hk Hi. destruct (Hm k Hk Hi) as (v & points & Hp & status & body & Ha). eauto 10.
Qed.

(** *** Progress *)

(** The table after the rows with these identifiers are marked. *)
Definition marked (ids : list Z) (st : MemDB) : MemDB :=
  map_chunks (λ k, if bool_decide (ck_id k ∈ ids) then set_indexed true k else k) st.

Lemma marked_nil st : marked [] st = st.
Proof.
  unfold marked, map_chunks. destruct st. simpl. f_equal. etrans; [|apply list_fmap_id].
  by apply list_fmap_ext.
Qed.

Lemma marked_snoc ids id st :
  map_chunks (λ k, if bool_decide (ck_id k = id) then set_indexed true k else k) (marked ids st)
  = marked (ids ++ [id]) st.
Proof.
  unfold marked, map_chunks. simpl. f_equal. rewrite -list_fmap_compose. apply list_fmap_ext.
  intros i k _. simpl. destruct (decide (ck_id k ∈ ids)) as [Hin|Hin].
  - assert (bool_decide (ck_id k ∈ ids ++ [id]) = true) as -> by (apply bool_decide_eq_true_2; set_solver).
    assert (bool_decide (ck_id k ∈ ids) = true) as -> by by apply bool_decide_eq_true_2.
    by case_bool_decide.
  - assert (bool_decide (ck_id k ∈ ids) = false) as -> by by apply bool_decide_eq_false_2.
    assert (bool_decide (ck_id k ∈ ids ++ [id]) = bool_decide (ck_id k = id)) as ->; [|done].
    apply bool_decide_ext. set_solver.
Qed.

Lemma concat_batches_from {A} n (batch l : list A) : concat (batches_from n batch l) = batch ++ l.
Proof.
  revert batch. induction l as [|x l IH]; intros batch; simpl.
  - destruct batch; [done|]. simpl. by rewrite !app_nil_r.
  - destruct (_ <? _)%nat; [by rewrite IH -app_assoc|]. simpl. by rewrite IH.
Qed.

(** A chunk whose vector the store accepts is marked. *)
Lemma healthy_index_chunk k v w :
  healthy server → ∃ w', _index_chunk server sv k (Some v) w = (Ok true, w') ∧
    w_mem w' = map_chunks (λ k', if bool_decide (ck_id k' = ck_id k) then set_indexed true k' else k')
      (w_mem w).
Proof.
  intros Hh. destruct (healthy_upsert server [chunk_point k v] (Z.of_nat (length v)) w Hh)
    as (w1 & E1 & M1).
  eexists. unfold _index_chunk. rewrite (io_bind_run _ _ w (Some v) w) //.
  rewrite (io_bind_run _ _ w true w1).
  - unfold expect_vector_store, io_try. by rewrite (io_bind_run _ _ _ _ _ E1).
  - split; [done|]. simpl. by rewrite M1.
Qed.

Lemma healthy_embed_batch texts w :
  healthy server → ∃ vectors w', _embed_batch server sv texts w = (Ok (Some vectors), w') ∧
    w_mem w' = w_mem w ∧ length vectors = length texts.
Proof.
  intros Hh. unfold _embed_batch, _safe_embed_batch. destruct texts as [|t ts].
  { exists [], w. by split_and!. }
  destruct (healthy_embed server (truncate sv <$> t :: ts) w Hh) as (vectors & w' & E & M & Hl).
  exists vectors, w'. split_and!; [|done|by rewrite Hl length_fmap].
  unfold expect_embedding, io_try. rewrite (io_bind_run _ _ _ _ _ E).
  rewrite Hl length_fmap Nat.eqb_refl. done.
Qed.

Lemma healthy_index_batch n batch w :
  healthy server → ∃ w', index_batch server sv n batch w = (Ok (n + Z.of_nat (length batch)), w') ∧
    w_mem w' = marked (ck_id <$> batch) (w_mem w).
Proof.
  intros Hh. unfold index_batch.
  destruct (healthy_embed_batch (ck_raw_content <$> batch) w Hh) as (vectors & w1 & E & M & Hl).
  rewrite (io_bind_run _ _ _ _ _ E). rewrite length_fmap in Hl.
  match goal with |- context [io_fold ?b n (zip _ _) _] => set (body := b) end.
  destruct (io_fold_total (λ pre i w', i = n + Z.of_nat (length pre) ∧
    w_mem w' = marked (ck_id <$> pre.*1) (w_mem w)) body n (zip batch vectors) w1)
    as (s' & w' & Ef & -> & Mf).
  - split; [simpl; lia|]. by rewrite M marked_nil.
  - intros pre [k v] s w2 _ [-> M2]. destruct (healthy_index_chunk k v w2 Hh) as (w3 & E3 & M3).
    exists (n + Z.of_nat (length (pre ++ [(k, v)]))), w3. split.
    + unfold body. rewrite (io_bind_run _ _ _ _ _ E3). rewrite length_app. cbn [length].
      rewrite Nat2Z.inj_add Z.add_assoc. done.
    + split; [done|]. by rewrite M3 M2 marked_snoc !fmap_app.
  - exists w'. rewrite Ef. rewrite (fst_zip batch vectors (Nat.eq_le_incl _ _ (eq_sym Hl))) in Mf.
    split; [|done].
    by rewrite length_zip_with Hl Nat.min_id.
Qed.

Lemma marked_app a b st : marked b (marked a st) = marked (a ++ b) st.
Proof.
  revert a st. induction b as [|id b IH] using rev_ind; intros a st.
  - by rewrite app_nil_r marked_nil.
  - by rewrite -marked_snoc IH marked_snoc app_assoc.
Qed.

Lemma healthy_index_pending c w :
  healthy server → ∃ w', _index_pending_chunks server sv c w
      = (Ok (Z.of_nat (length (pending_chunks (w_mem w) c))), w') ∧
    w_mem w' = marked (ck_id <$> pending_chunks (w_mem w) c) (w_mem w).
Proof.
  intros Hh. unfold _index_pending_chunks. set (K := pending_chunks (w_mem w) c).
  rewrite (io_bind_run _ _ w K w) //. unfold batches.
  destruct (io_fold_total (λ pre i w', i = Z.of_nat (length (concat pre)) ∧
    w_mem w' = marked (ck_id <$> concat pre) (w_mem w)) (index_batch server sv) 0
    (batches_from (Z.to_nat (sv_embed_batch_size sv)) [] K) w) as (s' & w' & Ef & -> & Mf).
  - split; [done|]. by rewrite marked_nil.
  - intros pre b s w2 _ [-> M2].
    destruct (healthy_index_batch (Z.of_nat (length (concat pre))) b w2 Hh) as (w3 & E3 & M3).
    eexists _, w3. split; [done|]. rewrite concat_app. simpl. rewrite app_nil_r.
    split; [rewrite length_app; lia|]. by rewrite M3 M2 marked_app fmap_app.
  - exists w'. rewrite Ef Mf concat_batches_from. done.
Qed.

(** Chunks of the conversation that wait for their vector. *)
Definition unindexed (c : string) (st : MemDB) : list ChunkRow :=
  filter (λ k, ck_conversation k = c ∧ ck_vector_indexed k = false) (me_chunks st).

Lemma unindexed_marked c ids st :
  unindexed c (marked ids st) = filter (λ k, ck_id k ∉ ids) (unindexed c st).
Proof.
  unfold unindexed, marked, map_chunks. simpl. induction (me_chunks st) as [|k l IH]; [done|].
  csimpl. case_bool_decide as Hin.
  - rewrite filter_cons_False; [by intros [_ ?]|]. rewrite IH. rewrite (filter_cons _ k l).
    case_decide; [|done]. by rewrite filter_cons_False; [set_solver|].
  - rewrite !(filter_cons _ k). case_decide; [|done].
    by rewrite (filter_cons_True (λ k, ck_id k ∉ ids)) // IH.
Qed.

Lemma filter_apart {A} (f : A → Z) (a b : list A) :
  NoDup (f <$> a ++ b) → filter (λ k, f k ∉ f <$> a) (a ++ b) = b.
Proof.
  rewrite fmap_app NoDup_app. intros (_ & Hab & _). rewrite filter_app.
  rewrite filter_none; [|rewrite filter_all; [|done]].
  - apply Forall_forall. intros x Hx H. by apply H, list_elem_of_fmap_2.
  - apply Forall_forall. intros x Hx H. by apply (Hab _ H), list_elem_of_fmap_2.
Qed.

Lemma unindexed_after_pass c st :
  NoDup (ck_id <$> me_chunks st) →
  length (unindexed c (marked (ck_id <$> pending_chunks st c) st))
  = (length (unindexed c st) - 100)%nat.
Proof.
  intros Hnd. rewrite unindexed_marked. unfold pending_chunks. fold (unindexed c st).
  pose proof (py_sorted_perm start_leb (unindexed c st)) as Hp.
  set (s := py_sorted start_leb (unindexed c st)) in *.
  rewrite -{1}Hp.
  assert (NoDup (ck_id <$> s)) as Hs.
  { rewrite Hp. eapply sublist_NoDup; [exact Hnd|]. apply fmap_sublist, sublist_filter. }
  rewrite -(take_drop 100 s) in Hs. apply filter_apart in Hs. rewrite take_drop in Hs.
  by rewrite Hs length_drop -Hp.
Qed.

(** Passes over the pending chunks, one after the other. *)
Fixpoint index_passes (n : nat) (c : string) (w : World) : World :=
  match n with
  | O => w
  | S n => index_passes n c (_index_pending_chunks server sv c w).2
  end.

(** C36: Indexing makes progress and converges.  While the embedding endpoint
    and the vector store answer, a pass over a conversation reports how many
    chunks it indexed, the hundred oldest pending ones or all of them, marks
    exactly those and changes nothing else; so as many passes as hundreds
    leave no chunk of the conversation unindexed. *)
Theorem indexing_converges (ops : list svc_op) (c : string) (n : nat) :
  Forall svc_op_wf ops → healthy server →
  let w := run_svc ops in
  (∃ w', _index_pending_chunks server sv c w
       = (Ok (Z.of_nat (Nat.min 100 (length (unindexed c (w_mem w))))), w') ∧
     w_mem w' = marked (ck_id <$> pending_chunks (w_mem w) c) (w_mem w)) ∧
  ((length (unindexed c (w_mem w)) ≤ n * 100)%nat →
     ∀ k, k ∈ me_chunks (w_mem (index_passes n c w)) → ck_conversation k = c →
       ck_vector_indexed k = true).
Proof.
  intros Hok%run_svc_ok Hh. generalize (run_svc ops) Hok. clear Hok. intros w Hok w0. subst w0. split.
  - destruct (healthy_index_pending c w Hh) as (w' & E & M). exists w'. split; [|done].
    rewrite E /pending_chunks length_take. fold (unindexed c (w_mem w)).
    by rewrite (Permutation_length (py_sorted_perm _ _)).
  - assert (NoDup (ck_id <$> me_chunks (w_mem w))) as Hnd by apply (mk_ids _ (ix_tables _ Hok)).
    clear Hok. revert w Hnd. induction n as [|n IH]; intros w Hnd Hlen; simpl.
    + intros k Hk Hc. destruct (ck_vector_indexed k) eqn:Ei; [done|].
      assert (k ∈ unindexed c (w_mem w)) as Hin by by apply list_elem_of_filter.
      destruct (unindexed c (w_mem w)); [set_solver|simpl in Hlen; lia].
    + destruct (healthy_index_pending c w Hh) as (w' & E & M). rewrite E. simpl. apply IH.
      * rewrite M. unfold marked, map_chunks. simpl. rewrite -list_fmap_compose.
        erewrite list_fmap_ext; [exact Hnd|]. intros i k _. simpl. by case_bool_decide.
      * rewrite M unindexed_after_pass //. lia.
Qed.
End index.

(** ** A concrete deployment *)

#[local] Existing Instances sample_host sample_postgres sample_uuids.

(** A text matches the queries it contains. *)
#[local] Instance sample_search : Search := {|
  ts_rank := λ text query, (λ _, 1%Q) <$> String.index 0 query text;
  float_of_str := λ _, None;
|}.

Definition sample_vectors (texts : list string) : json :=
  JObj [("data", JList ((λ _, JObj [("embedding", JList [JInt 1])]) <$> texts))].

(** All servers up; the vector store always finds the chunk that gets the
    identifier 5 in the history below. *)
Definition good_server (n : nat) (r : request) : reply :=
  match r with
  | PostEmbeddings texts => Reply 200 true (Some (sample_vectors texts))
  | SearchPoints _ _ _ => Reply 200 true (Some (JObj [("result", JList
      [JObj [("score", JInt 1); ("payload", JObj [("chunk_id", JStr (unary_str 5))])]])]))
  | _ => Reply 200 true None
  end.

(** The vector store is unreachable; embeddings still work. *)
Definition no_vector_store (n : nat) (r : request) : reply :=
  match r with PostEmbeddings _ => good_server n r | _ => NoReply end.

(** The embedding endpoint is down. *)
Definition no_embeddings (n : nat) (r : request) : reply :=
  match r with PostEmbeddings _ => Reply 503 false None | _ => good_server n r end.

Definition sample_service : MemoryService := MemoryService_init None 8000 1.

Definition indexing_history : list svc_op :=
  [VTables (MStore (OpAppend 1 "conv" [chat_message "user" "one"; chat_message "assistant" "two";
                                       chat_message "user" "three"; chat_message "assistant" "four";
                                       chat_message "user" "five"] None));
   VTables (MChunk 0 "conv");
   VCreate 0 (sample_spec None)].

Lemma indexing_history_wf : Forall svc_op_wf indexing_history.
Proof. repeat constructor; set_solver. Qed.

Lemma good_server_healthy : healthy good_server.
Proof.
  split; [|by eexists|by eexists]. intros n texts. exists 200, (Some (sample_vectors texts)), ((λ _, [JInt 1]) <$> texts).
  split_and!; [done| |by rewrite length_fmap]. simpl.
  induction texts as [|t ts IH]; [done|]. simpl in *. by rewrite IH.
Qed.

Lemma vector_index_invariant_witness :
  let w := run_svc good_server sample_service (indexing_history ++ [VIndex 1 "conv"; VRebuild None true]) in
  ((∀ points a p, (PutPoints points, a) ∈ w_log w → p ∈ points →
     (∃ k v, k ∈ me_chunks (w_mem w) ∧ p = chunk_point k v) ∨
     (∃ m v, m ∈ me_memories (w_mem w) ∧ p = memory_point m v)) ∧
   (∀ k, k ∈ me_chunks (w_mem w) → ck_vector_indexed k = true →
     ∃ v points status body, chunk_point k v ∈ points ∧
       (PutPoints points, Reply status true body) ∈ w_log w)) ∧
  ck_vector_indexed <$> me_chunks (w_mem w) = [true; true].
Proof.
  split; [|vm_compute; reflexivity].
  apply (vector_index_invariant (laws:=sample_laws) good_server sample_service).
  apply Forall_app_2; [exact indexing_history_wf|repeat constructor].
Defined.

Lemma indexing_converges_witness :
  let w := run_svc good_server sample_service indexing_history in
  (ck_vector_indexed <$> me_chunks (w_mem w) = [false; false]) ∧
  (∀ k, k ∈ me_chunks (w_mem (index_passes good_server sample_service 1 "conv" w)) →
     ck_conversation k = "conv" → ck_vector_indexed k = true).
Proof.
  split; [vm_compute; reflexivity|].
  destruct (indexing_converges (laws:=sample_laws) good_server sample_service indexing_history "conv" 1)
    as [_ H]; [exact indexing_history_wf|exact good_server_healthy|].
  apply H. vm_compute. lia.
Defined.

Lemma retrieve_sound_witness :
  let w := run_svc good_server sample_service indexing_history in
  match (retrieve good_server sample_service true 0 "four" "conv" None w).1 with
  | Ok items => item_id <$> items = [unary_str 5; unary_str 6] ∧
                NoDup (item_id <$> items) ∧ Forall (item_ok sample_service (w_mem w) "conv") items
  | Err _ => False
  end.
Proof.
  assert (match (retrieve good_server sample_service true 0 "four" "conv" None
                   (run_svc good_server sample_service indexing_history)).1 with
          | Ok items => item_id <$> items = [unary_str 5; unary_str 6] | Err _ => False end) as H
    by (vm_compute; reflexivity).
  revert H. generalize (run_svc good_server sample_service indexing_history). intros w H w0. subst w0.
  destruct (retrieve good_server sample_service true 0 "four" "conv" None w) as [[items|e] w'] eqn:E;
    [|done].
  destruct (retrieve_sound _ _ _ _ _ _ _ _ _ _ E) as (_ & H1 & H2 & _). by split_and!.
Defined.


(** The client of the vector store lets transport errors of writes through, so
    an outage of the vector store escapes the handlers of the service: the
    memory is committed, and its creation still raises. *)
Example vector_store_outage_escapes :
  let '(r, w) := create_and_embed no_vector_store sample_service 0 (sample_spec None) empty_world in
  r = Err HTTPError ∧ length (me_memories (w_mem w)) = 1%nat ∧
  (index_completed_turns no_vector_store sample_service 0 "conv"
    (run_svc no_vector_store sample_service indexing_history)).1 = Err HTTPError.
Proof. vm_compute. split_and!; reflexivity. Qed.

(** An embedding reply without vectors raises out of retrieval instead of
    degrading it. *)
Example empty_embeddings_escape :
  (retrieve (λ _ _, Reply 200 true (Some (JObj [("data", JList [])]))) sample_service true 0
     "four" "conv" None empty_world).1 = Err IndexError.
Proof. vm_compute. reflexivity. Qed.
