(* ===== verification/Capture.v ===== *)
(** * Capture of streamed responses ([capture.py])

    A streamed response goes to the client as it comes; a bounded copy of its
    bytes is parsed when the stream ends, and the assistant message rebuilt
    from the deltas is handed to a callback that persists it. *)

From Stdlib Require Import QArith.
From S2P Require Import Prelude PyDict PyString Json.
Local Open Scope Z_scope.

(** [bytes.decode("utf-8", errors="replace")], and [json.loads] of bytes, [None]
    where it raises [ValueError].  Bytes are strings with one character per byte;
    decoded text may leave the range of [PyString], so the decoder is a
    parameter, like the JSON parser. *)
Class Utf8 : Type := {
  utf8_decode : string → string;
  json_loads_bytes : string → option json;
}.

(** ** State *)

(** Keys of the dict of tool calls: any hashable JSON value, where numbers that
    are equal are the same key. *)
Inductive index_key : Type :=
| KNone
| KNum (num : Z) (den : positive)
| KStr (s : string).

#[global] Instance index_key_eq_dec : EqDecision index_key.
Proof. solve_decision. Defined.

Record SemanticState : Type := MkSemanticState {
  st_role : json;
  st_content_parts : list json;
  st_refusal_parts : list json;
  st_reasoning_parts : list (string * list string);
  st_tool_calls : list (index_key * obj);
  st_finish_reason : json;
  st_usage : json;
  st_model : json;
  st_saw_any_choice : bool;
}.

Record AssistantCapture : Type := MkAssistantCapture {
  ac_buffer : string;
  ac_max_bytes : option Z;
  ac_overflowed : bool;
  ac_state : SemanticState;
}.

Definition initial_state : SemanticState := MkSemanticState JNull [] [] [] [] JNull JNull JNull false.

Definition AssistantCapture_init (max_bytes : option Z) : AssistantCapture :=
  MkAssistantCapture EmptyString max_bytes false initial_state.

Definition feed (c : AssistantCapture) (chunk : string) : AssistantCapture :=
  if ac_overflowed c then c
  else if match ac_max_bytes c with
          | Some m => m <? slen (ac_buffer c) + slen chunk
          | None => false
          end
  then MkAssistantCapture (ac_buffer c) (ac_max_bytes c) true (ac_state c)
  else MkAssistantCapture (ac_buffer c +:+ chunk) (ac_max_bytes c) false (ac_state c).

(** ** Absorbing a delta *)

Definition _REASONING_KEYS : list string := ["reasoning"; "reasoning_content"; "reasoning_text"].

(** [hash(index)] and equality of keys; lists and dicts are not hashable. *)
Definition num_key (q : Q) : index_key := let q := Qred q in KNum (Qnum q) (Qden q).

Definition index_key_of (v : json) : res index_key :=
  match v with
  | JNull => Ok KNone
  | JStr s => Ok (KStr s)
  | _ => match py_num v with Some q => Ok (num_key q) | None => Err TypeError end
  end.

(** [if v: d[k] = v] *)
Definition set_if (d : obj) (k : string) (v : json) : obj :=
  if truthy v then dset d k v else d.

(** [if v: d[k] += v], where [d[k]] is a string *)
Definition add_if (d : obj) (k : string) (v : json) : res obj :=
  if truthy v then
    match oget d k, v with
    | JStr s, JStr t => Ok (dset d k (JStr (s +:+ t)))
    | _, _ => Err TypeError
    end
  else Ok d.

(** The part of a call under [name]: its name and its [text] field. *)
Definition absorb_part (slot : obj) (name text : string) (part : json) : res obj :=
  match part with
  | JObj p =>
      let slot := dsetdefault slot name
                    (JObj [("name", JStr EmptyString); (text, JStr EmptyString)]) in
      match oget slot name with
      | JObj d =>
          d ← add_if d "name" (oget p "name");
          d ← add_if d text (oget p text);
          Ok (dset slot name (JObj d))
      | _ => Err TypeError
      end
  | _ => Ok slot
  end.

Definition known_call_keys : list string := ["index"; "id"; "type"; "function"; "custom"].

Definition absorb_unknown (slot : obj) (kv : string * json) : obj :=
  if bool_decide (kv.1 ∈ known_call_keys) then slot else dsetdefault slot kv.1 kv.2.

Definition absorb_tool_call (calls : list (index_key * obj)) (tool_call : json)
    : res (list (index_key * obj)) :=
  match tool_call with
  | JObj tc =>
      index ← index_key_of (default (JInt 0) (dget tc "index"));
      let slot := default [] (dget calls index) in
      let slot := set_if slot "id" (oget tc "id") in
      let slot := set_if slot "type" (oget tc "type") in
      let slot := foldl absorb_unknown slot tc in
      slot ← absorb_part slot "function" "arguments" (oget tc "function");
      slot ← absorb_part slot "custom" "input" (oget tc "custom");
      Ok (dset calls index slot)
  | _ => Err AttributeError
  end.

(** [choices[0]] of a truthy value: only lists and strings have position 0. *)
Definition first_of (v : json) : res json :=
  match v with
  | JList (x :: _) => Ok x
  | JList [] => Err IndexError
  | JStr s => match chars s with c :: _ => Ok c | [] => Err IndexError end
  | JObj _ => Err KeyError
  | _ => Err TypeError
  end.

Definition absorb_reasoning (delta : obj) (parts : list (string * list string)) (key : string)
    : list (string * list string) :=
  match oget delta key with
  | JStr s => if snonempty s then dset parts key (default [] (dget parts key) ++ [s]) else parts
  | _ => parts
  end.

Definition append_if (parts : list json) (v : json) : list json :=
  if truthy v then parts ++ [v] else parts.

Definition absorb_choice (st : SemanticState) (choice : json) : res SemanticState :=
  delta ← py_get choice "delta";
  message ← py_get choice "message";
  match py_or (py_or delta message) (JObj []) with
  | JObj delta =>
      tool_calls ← py_iter (py_or (oget delta "tool_calls") (JList []));
      calls ← foldM absorb_tool_call (st_tool_calls st) tool_calls;
      finish_reason ← py_get choice "finish_reason";
      Ok (MkSemanticState
            (py_or (oget delta "role") (st_role st))
            (append_if (st_content_parts st) (oget delta "content"))
            (append_if (st_refusal_parts st) (oget delta "refusal"))
            (foldl (absorb_reasoning delta) (st_reasoning_parts st) _REASONING_KEYS)
            calls
            (py_or finish_reason (st_finish_reason st))
            (st_usage st) (st_model st) true)
  | _ => Err AttributeError
  end.

Definition _absorb (st : SemanticState) (payload : json) : res SemanticState :=
  usage ← py_get payload "usage";
  model ← py_get payload "model";
  choices ← py_get payload "choices";
  let st := MkSemanticState (st_role st) (st_content_parts st) (st_refusal_parts st)
              (st_reasoning_parts st) (st_tool_calls st) (st_finish_reason st)
              (py_or usage (st_usage st)) (py_or model (st_model st)) (st_saw_any_choice st) in
  if truthy choices then (choice ← first_of choices; absorb_choice st choice) else Ok st.

(** ** Building the message *)

(** ["".join(parts)]: every part must be a string. *)
Definition join_parts (parts : list json) : res string :=
  join EmptyString <$> mapM (λ v, match v with JStr s => Ok s | _ => Err TypeError end) parts.

(** [text or None] *)
Definition or_none (s : string) : json := if snonempty s then JStr s else JNull.

(** [sorted(self._tool_calls)]: keys of different types do not compare, and
    two keys are compared when there are two. *)
Definition index_key_leb (a b : index_key) : res bool :=
  match a, b with
  | KNum n d, KNum n' d' => Ok (Qle_bool (n # d) (n' # d'))
  | KStr s, KStr t => Ok (str_leb s t)
  | _, _ => Err TypeError
  end.

Definition same_type (a b : index_key) : bool := is_ok (index_key_leb a b).

Definition sorted_keys (keys : list index_key) : res (list index_key) :=
  match keys with
  | [] | [_] => Ok keys
  | k :: ks =>
      if forallb (same_type k) ks
      then Ok (py_sorted (λ a b, match index_key_leb a b with Ok b => b | Err _ => false end) keys)
      else Err TypeError
  end.

Definition rebuilt_keys : list string := ["id"; "type"; "function"; "custom"].

(** [d.get(k, "")] of [call.get(name) or {}] *)
Definition part_field (call : obj) (name field : string) : res json :=
  match py_or (oget call name) (JObj []) with
  | JObj d => Ok (default (JStr EmptyString) (dget d field))
  | _ => Err AttributeError
  end.

Definition rebuild_call (call : obj) : res (option obj) :=
  if truthy (oget call "id") then
    rebuilt ←
      (if eq_str (oget call "type") "custom" || dmem call "custom" then
         name ← part_field call "custom" "name";
         input ← part_field call "custom" "input";
         Ok [("id", oget call "id"); ("type", JStr "custom");
             ("custom", JObj [("name", name); ("input", input)])]
       else
         name ← part_field call "function" "name";
         arguments ← part_field call "function" "arguments";
         Ok [("id", oget call "id"); ("type", default (JStr "function") (dget call "type"));
             ("function", JObj [("name", name); ("arguments", arguments)])]);
    Ok (Some (foldl (λ (r : obj) (kv : string * json), if bool_decide (kv.1 ∈ rebuilt_keys) then r else dset r kv.1 kv.2)
                rebuilt call))
  else Ok None.

Definition _build_message (st : SemanticState) : res obj :=
  content ← join_parts (st_content_parts st);
  refusal ← join_parts (st_refusal_parts st);
  keys ← sorted_keys (st_tool_calls st).*1;
  calls ← mapM (λ k, rebuild_call (default [] (dget (st_tool_calls st) k))) keys;
  let tool_calls := omap id calls in
  let message := [("role", py_or (st_role st) (JStr "assistant")); ("content", or_none content)] in
  let message := foldl (λ (m : obj) key,
    let joined := join EmptyString (default [] (dget (st_reasoning_parts st) key)) in
    if snonempty joined then dset m key (JStr joined) else m)
    message (py_sorted str_leb (st_reasoning_parts st).*1) in
  let message := match tool_calls with
                 | [] => message
                 | _ => dset message "tool_calls" (JList (JObj <$> tool_calls))
                 end in
  Ok (if snonempty refusal then dset message "refusal" (JStr refusal) else message).

Definition response_metadata (st : SemanticState) : obj :=
  let add (d : obj) k v := if is_none v then d else dset d k v in
  add (add (add [] "finish_reason" (st_finish_reason st)) "usage" (st_usage st))
    "model" (st_model st).

(** ** Parsing the captured bytes *)

(** [s.split("\n\n")] *)
Fixpoint split_blank_from (acc : string) (s : string) : list string :=
  match s with
  | EmptyString => [srev acc]
  | String a s1 =>
      if ord a =? 10 then
        match s1 with
        | String b s2 => if ord b =? 10 then srev acc :: split_blank_from EmptyString s2
                         else split_blank_from (String a acc) s1
        | EmptyString => split_blank_from (String a acc) s1
        end
      else split_blank_from (String a acc) s1
  end.

Definition split_blank : string → list string := split_blank_from EmptyString.

Definition data_of_line (line : string) : option string :=
  if startswith "data:" line then
    let data := strip (sdrop 5 line) in
    if negb (snonempty data) || bool_decide (data = "[DONE]") then None else Some data
  else None.

Definition sse_data (text : string) : list string :=
  concat ((λ event, omap data_of_line (splitlines event)) <$> split_blank text).

Section capture.
Context {host : Host} {utf8 : Utf8}.

Definition absorb_data (st : SemanticState) (data : string) : res SemanticState :=
  match json_loads data with
  | Some payload => _absorb st payload
  | None => Ok st
  end.

(** The message and the state after the pass, from which the metadata is
    read. *)
Definition finalize (c : AssistantCapture) : res (option obj * SemanticState) :=
  if ac_overflowed c then Ok (None, ac_state c)
  else
    st ← foldM absorb_data (ac_state c) (sse_data (utf8_decode (ac_buffer c)));
    if st_saw_any_choice st then (message ← _build_message st; Ok (Some message, st))
    else Ok (None, st).

(** ** The stream *)

(** How the inner stream ends: it is exhausted, it raises, or the consumer
    closes it. *)
Inductive ending : Type := Exhausted | Raised (e : exn) | Closed.

(** What [iter_bytes] did: the chunks yielded, the calls of the callback and
    the exception that leaves it. *)
Record stream_run : Type := MkStreamRun {
  sr_yielded : list string;
  sr_calls : list (option obj * obj);
  sr_raised : option exn;
}.

Definition ending_raised (e : ending) : option exn :=
  match e with Raised e => Some e | _ => None end.

(** [on_finished] persists and may raise; every exception of it is logged. *)
Definition call_finished (on_finished : option obj → obj → res unit) (message : option obj)
    (metadata : obj) : list (option obj * obj) * option exn :=
  match on_finished message metadata with
  | Ok _ => ([(message, metadata)], None)
  | Err _ => ([(message, metadata)], None)
  end.

(** The chunks that arrive, each fed to the capture and yielded. *)
Fixpoint relay (c : AssistantCapture) (yielded chunks : list string) : AssistantCapture * list string :=
  match chunks with
  | [] => (c, yielded)
  | chunk :: rest => relay (feed c chunk) (yielded ++ [chunk]) rest
  end.

Definition iter_bytes (max_bytes : option Z) (on_finished : option obj → obj → res unit)
    (chunks : list string) (how : ending) : stream_run :=
  let '(c, yielded) := relay (AssistantCapture_init max_bytes) [] chunks in
  let completed := match how with Exhausted => true | _ => false end in
  let overflowed := if completed then ac_overflowed c else false in
  let result := if negb completed || overflowed then Ok (None, ac_state c) else finalize c in
  match result with
  | Err e => MkStreamRun yielded [] (Some e)
  | Ok (message, st) =>
      let metadata := if completed && negb overflowed then response_metadata st else [] in
      let '(calls, raised) := call_finished on_finished message metadata in
      MkStreamRun yielded calls (match raised with Some e => Some e | None => ending_raised how end)
  end.
End capture.

(** ** Text *)

Lemma join_cons s l : join EmptyString (s :: l) = s +:+ join EmptyString l.
Proof. destruct l; simpl; [by rewrite string_app_nil_r|done]. Qed.

Lemma join_app k l : join EmptyString (k ++ l) = join EmptyString k +:+ join EmptyString l.
Proof.
  induction k as [|s k IH]; [done|]. cbn [app]. by rewrite !join_cons IH string_app_assoc.
Qed.

Lemma join_filter l : join EmptyString (filter (λ s, snonempty s = true) l) = join EmptyString l.
Proof.
  induction l as [|s l IH]; [done|]. destruct s as [|c s].
  - rewrite filter_cons_False //. by rewrite IH join_cons.
  - rewrite filter_cons_True //. by rewrite !join_cons IH.
Qed.

(** Every character satisfies the test. *)
Fixpoint sall (P : Ascii.ascii → bool) (s : string) : bool :=
  match s with EmptyString => true | String c s' => P c && sall P s' end.

Lemma srev_app_spec s t : srev_app s t = srev s +:+ t.
Proof.
  unfold srev. revert t. induction s as [|c s IH]; intros t; [done|]. simpl.
  rewrite IH (IH (str1 c)). by rewrite string_app_assoc.
Qed.

Lemma srev_cons c s : srev (String c s) = srev s +:+ str1 c.
Proof. unfold srev at 1. simpl. apply srev_app_spec. Qed.

Lemma splitlines_plain acc s :
  sall (λ c, negb (is_linebreak c)) s = true →
  splitlines_from acc false s = match srev acc +:+ s with EmptyString => [] | l => [l] end.
Proof.
  revert acc. induction s as [|c s IH]; intros acc; simpl.
  - intros _. rewrite string_app_nil_r. destruct acc as [|c acc]; [done|].
    rewrite srev_cons. by destruct (srev acc).
  - intros [Hc Hs]%andb_true_iff. apply negb_true_iff in Hc. rewrite Hc IH // srev_cons.
    by rewrite string_app_assoc.
Qed.

Lemma split_blank_plain acc s rest :
  sall (λ c, negb (is_linebreak c)) s = true →
  split_blank_from acc (s +:+ nl +:+ nl +:+ rest) = (srev acc +:+ s) :: split_blank rest.
Proof.
  revert acc. induction s as [|c s IH]; intros acc.
  - intros _. rewrite string_app_nil_r. done.
  - simpl. intros [Hc Hs]%andb_true_iff.
    assert (ord c =? 10 = false) as ->.
    { revert Hc. unfold is_linebreak. destruct (ord c =? 10) eqn:E; [|done].
      apply Z.eqb_eq in E. rewrite E. done. }
    change (String c s +:+ ?x) with (String c (s +:+ x)). rewrite IH // srev_cons.
    by rewrite string_app_assoc.
Qed.

(** A data line, as providers send it, and a text that it can carry. *)
Definition frame (data : string) : string := "data: " +:+ data +:+ nl +:+ nl.

Record clean (data : string) : Prop := {
  cl_nonempty : snonempty data = true;
  cl_one_line : sall (λ c, negb (is_linebreak c)) data = true;
  cl_stripped : strip data = data;
  cl_not_done : data ≠ "[DONE]";
}.

Lemma sse_data_frame data rest :
  sall (λ c, negb (is_linebreak c)) data = true →
  sse_data (frame data +:+ rest)
  = omap data_of_line ["data: " +:+ data] ++ sse_data rest.
Proof.
  intros Hl. unfold sse_data, split_blank, frame. rewrite !string_app_assoc.
  rewrite -(string_app_assoc "data: ") split_blank_plain; [exact Hl|]. rewrite fmap_cons. cbn [concat].
  f_equal. f_equal. unfold splitlines. rewrite splitlines_plain; [exact Hl|done].
Qed.

Lemma data_of_line_clean data : clean data → data_of_line ("data: " +:+ data) = Some data.
Proof.
  intros [Hn _ Hs Hd]. unfold data_of_line. change (startswith "data:" ("data: " +:+ data)) with true.
  change (sdrop 5 ("data: " +:+ data)) with (String blank data).
  change (strip (String blank data)) with (strip data). rewrite Hs Hn. simpl.
  by rewrite bool_decide_eq_false_2.
Qed.

(** The texts sent as data lines are read back, and the end marker ends them. *)
Lemma sse_data_frames ds :
  Forall clean ds → sse_data (join EmptyString (frame <$> ds) +:+ frame "[DONE]") = ds.
Proof.
  induction 1 as [|d ds Hd _ IH]; [by vm_compute|].
  rewrite fmap_cons join_cons string_app_assoc sse_data_frame; [apply Hd|].
  rewrite IH. csimpl. by rewrite data_of_line_clean.
Qed.

(** ** The passthrough *)

Lemma join_slen l : slen (join EmptyString l) = sumZ (slen <$> l).
Proof. induction l as [|s l IH]; [done|]. by rewrite join_cons slen_app IH. Qed.

(** The capture holds all the bytes, or says that it overflowed. *)
Definition within (max_bytes : option Z) (chunks : list string) : bool :=
  match max_bytes with Some m => sumZ (slen <$> chunks) <=? m | None => true end.

Lemma feed_overflowed c chunk : ac_overflowed c = true → feed c chunk = c.
Proof. unfold feed. by intros ->. Qed.

Lemma relay_overflowed c yielded chunks :
  ac_overflowed c = true → relay c yielded chunks = (c, yielded ++ chunks).
Proof.
  revert yielded. induction chunks as [|chunk chunks IH]; intros yielded H; simpl.
  - by rewrite app_nil_r.
  - rewrite feed_overflowed // IH // -app_assoc. done.
Qed.

Lemma relay_spec m st before yielded chunks :
  within m before = true →
  ∃ c, relay (MkAssistantCapture (join EmptyString before) m false st) yielded chunks
       = (c, yielded ++ chunks) ∧
    if within m (before ++ chunks)
    then c = MkAssistantCapture (join EmptyString (before ++ chunks)) m false st
    else ac_overflowed c = true.
Proof.
  revert before yielded. induction chunks as [|chunk chunks IH]; intros before yielded Hin.
  - eexists. simpl. rewrite !app_nil_r. split; [done|]. by rewrite Hin.
  - cbn [relay]. unfold feed. cbn [ac_overflowed ac_max_bytes ac_buffer ac_state].
    destruct (within m (before ++ [chunk])) eqn:Ew.
    + assert (match m with Some m => m <? slen (join EmptyString before) + slen chunk | None => false end
              = false) as ->.
      { destruct m as [m|]; [|done]. simpl in Ew. rewrite fmap_app sumZ_app -join_slen in Ew.
        simpl in Ew. lia. }
      destruct (IH (before ++ [chunk]) (yielded ++ [chunk]) Ew) as (c & E & H).
      rewrite join_app in E. simpl in E. exists c. rewrite E -!app_assoc. split; [done|].
      by rewrite -app_assoc in H.
    + assert (match m with Some m => m <? slen (join EmptyString before) + slen chunk | None => false end
              = true) as ->.
      { destruct m as [m|]; [|done]. simpl in Ew. rewrite fmap_app sumZ_app -join_slen in Ew.
        simpl in Ew. lia. }
      eexists. rewrite relay_overflowed // -app_assoc. split; [done|].
      assert (within m (before ++ chunk :: chunks) = false) as ->; [|done].
      destruct m as [m|]; [|done]. simpl in Ew |- *. rewrite fmap_app sumZ_app in Ew.
      rewrite fmap_app sumZ_app fmap_cons. simpl in *.
      assert (0 ≤ sumZ (slen <$> chunks)); [|lia]. apply sumZ_nonneg, Forall_fmap, Forall_true.
      intros s. simpl. apply slen_nonneg.
Qed.

(** ** Rebuilding a fragmented message

    What a provider sends: deltas that carry pieces of the text and fragments
    of tool calls, in any interleaving.  An empty string stands for a field that
    is absent. *)

Record fragment : Type := MkFragment {
  fr_index : Z;
  fr_id : string;
  fr_type : string;
  fr_function : option (string * string);
  fr_custom : option (string * string);
}.

Record delta : Type := MkDelta {
  dl_role : string;
  dl_content : string;
  dl_refusal : string;
  dl_reasoning : string;
  dl_reasoning_content : string;
  dl_reasoning_text : string;
  dl_calls : list fragment;
  dl_finish_reason : string;
}.

Definition field (k s : string) : obj := if snonempty s then [(k, JStr s)] else [].

Definition part_json (k text : string) (p : option (string * string)) : obj :=
  match p with
  | Some (n, t) => [(k, JObj [("name", JStr n); (text, JStr t)])]
  | None => []
  end.

Definition fragment_json (f : fragment) : obj :=
  [("index", JInt (fr_index f))] ++ field "id" (fr_id f) ++ field "type" (fr_type f)
  ++ part_json "function" "arguments" (fr_function f) ++ part_json "custom" "input" (fr_custom f).

Definition delta_json (d : delta) : obj :=
  field "role" (dl_role d) ++ field "content" (dl_content d) ++ field "refusal" (dl_refusal d)
  ++ field "reasoning" (dl_reasoning d) ++ field "reasoning_content" (dl_reasoning_content d)
  ++ field "reasoning_text" (dl_reasoning_text d)
  ++ [("tool_calls", JList ((λ f, JObj (fragment_json f)) <$> dl_calls d))].

(** An event carries at most one delta, and perhaps the usage and the model. *)
Record event : Type := MkEvent {
  ev_delta : option delta;
  ev_usage : json;
  ev_model : string;
}.

Definition choice_json (d : delta) : json :=
  JObj [("delta", JObj (delta_json d)); ("finish_reason", or_none (dl_finish_reason d))].

Definition event_json (e : event) : json :=
  JObj [("model", or_none (ev_model e)); ("choices", JList (choice_json <$> option_list (ev_delta e)));
        ("usage", ev_usage e)].

(** *** What it means *)

Definition last_nonempty (l : list string) : option string := last (filter (λ s, snonempty s = true) l).

Definition text_of {A} (f : A → string) (l : list A) : string := join EmptyString (f <$> l).

(** The named part of a call: its pieces put together, if there are any. *)
Definition parts_json (text : string) (ps : list (string * string)) : option json :=
  match ps with
  | [] => None
  | _ => Some (JObj [("name", JStr (text_of fst ps)); (text, JStr (text_of snd ps))])
  end.

Definition part_of (part : fragment → option (string * string)) (text : string)
    (fs : list fragment) : option json := parts_json text (omap part fs).

Definition call_of (fs : list fragment) : option obj :=
  let type := last_nonempty (fr_type <$> fs) in
  match last_nonempty (fr_id <$> fs) with
  | None => None
  | Some id =>
      let custom := part_of fr_custom "input" fs in
      Some (if bool_decide (type = Some "custom") || bool_decide (custom ≠ None)
            then [("id", JStr id); ("type", JStr "custom");
                  ("custom", default (JObj [("name", JStr EmptyString); ("input", JStr EmptyString)]) custom)]
            else [("id", JStr id); ("type", JStr (default "function" type));
                  ("function", default (JObj [("name", JStr EmptyString); ("arguments", JStr EmptyString)])
                                 (part_of fr_function "arguments" fs))])
  end.

Definition first_seen (is_ : list Z) : list Z :=
  foldl (λ seen i, if bool_decide (i ∈ seen) then seen else seen ++ [i]) [] is_.

(** The calls, by index. *)
Definition calls_of (fs : list fragment) : list obj :=
  omap (λ i, call_of (filter (λ f, fr_index f = i) fs)) (py_sorted Z.leb (first_seen (fr_index <$> fs))).

Definition all_calls (ds : list delta) : list fragment := concat (dl_calls <$> ds).

(** The message the deltas are pieces of. *)
Definition message_of (ds : list delta) : obj :=
  [("role", JStr (default "assistant" (last_nonempty (dl_role <$> ds))));
   ("content", or_none (text_of dl_content ds))]
  ++ field "reasoning" (text_of dl_reasoning ds)
  ++ field "reasoning_content" (text_of dl_reasoning_content ds)
  ++ field "reasoning_text" (text_of dl_reasoning_text ds)
  ++ match calls_of (all_calls ds) with
     | [] => []
     | calls => [("tool_calls", JList (JObj <$> calls))]
     end
  ++ field "refusal" (text_of dl_refusal ds).

Definition deltas (es : list event) : list delta := omap ev_delta es.

Definition metadata_of (es : list event) : obj :=
  match last_nonempty (dl_finish_reason <$> deltas es) with
  | Some r => [("finish_reason", JStr r)] | None => [] end
  ++ match last (filter (λ u, truthy u = true) (ev_usage <$> es)) with
     | Some u => [("usage", u)] | None => [] end
  ++ match last_nonempty (ev_model <$> es) with
     | Some m => [("model", JStr m)] | None => [] end.

(** *** One fragment *)

Lemma last_nonempty_snoc l s :
  last_nonempty (l ++ [s]) = if snonempty s then Some s else last_nonempty l.
Proof.
  unfold last_nonempty. rewrite filter_app. destruct s as [|c s].
  - rewrite (filter_cons_False _ EmptyString) // filter_nil app_nil_r. done.
  - rewrite (filter_cons_True _ (String c s)) // filter_nil last_snoc. done.
Qed.

Lemma text_of_snoc {A} (f : A → string) l x : text_of f (l ++ [x]) = text_of f l +:+ f x.
Proof. unfold text_of. by rewrite fmap_app join_app. Qed.

Record slot_ok (fs : list fragment) (slot : obj) : Prop := {
  sk_id : dget slot "id" = JStr <$> last_nonempty (fr_id <$> fs);
  sk_type : dget slot "type" = JStr <$> last_nonempty (fr_type <$> fs);
  sk_function : dget slot "function" = part_of fr_function "arguments" fs;
  sk_custom : dget slot "custom" = part_of fr_custom "input" fs;
  sk_known : Forall (λ kv, kv.1 ∈ rebuilt_keys) slot;
}.

Lemma dget_field k s k' d :
  dget (field k s ++ d) k' = if decide (k' = k) then (if snonempty s then Some (JStr s) else dget d k')
                             else dget d k'.
Proof. unfold field. destruct (snonempty s); simpl; by case_decide. Qed.

Lemma dget_part k text p k' d :
  dget (part_json k text p ++ d) k'
  = if decide (k' = k)
    then match p with Some (n, t) => Some (JObj [("name", JStr n); (text, JStr t)]) | None => dget d k' end
    else dget d k'.
Proof. unfold part_json. destruct p as [[n t]|]; simpl; by case_decide. Qed.

Lemma known_dset d k v : k ∈ rebuilt_keys →
  Forall (λ kv : string * json, kv.1 ∈ rebuilt_keys) d → Forall (λ kv, kv.1 ∈ rebuilt_keys) (dset d k v).
Proof.
  intros Hk. induction 1 as [|[k' v'] d Hx Hd IH]; simpl; [constructor; [done|constructor]|].
  case_decide; subst; by constructor.
Qed.

Lemma absorb_unknown_known d slot :
  Forall (λ kv : string * json, kv.1 ∈ known_call_keys) d → foldl absorb_unknown slot d = slot.
Proof.
  induction 1 as [|kv d Hk _ IH]; [done|]. simpl. unfold absorb_unknown at 2.
  by rewrite bool_decide_eq_true_2.
Qed.

Lemma fragment_known f : Forall (λ kv : string * json, kv.1 ∈ known_call_keys) (fragment_json f).
Proof.
  unfold fragment_json, field, part_json, known_call_keys.
  repeat apply Forall_app_2; repeat case_match; repeat constructor; simpl; set_solver.
Qed.

Lemma add_if_name a b n text :
  add_if [("name", JStr a); (text, JStr b)] "name" (JStr n)
  = Ok [("name", JStr (a +:+ n)); (text, JStr b)].
Proof. unfold add_if. destruct n as [|c n]; [by rewrite string_app_nil_r|done]. Qed.

Lemma add_if_text a b t text :
  text ≠ "name" →
  add_if [("name", JStr a); (text, JStr b)] text (JStr t)
  = Ok [("name", JStr a); (text, JStr (b +:+ t))].
Proof.
  intros Hne. unfold add_if. destruct t as [|c t]; [by rewrite string_app_nil_r|]. unfold oget. cbn [truthy snonempty dget].
  rewrite decide_False // decide_True //. cbn [default from_option id dset].
  rewrite decide_False // decide_True //.
Qed.

Lemma absorb_part_spec slot name text p ps :
  text ≠ "name" → name ∈ rebuilt_keys → Forall (λ kv, kv.1 ∈ rebuilt_keys) slot →
  dget slot name = parts_json text ps →
  ∃ slot', absorb_part slot name text
      match p with Some (n, t) => JObj [("name", JStr n); (text, JStr t)] | None => JNull end = Ok slot' ∧
    dget slot' name = parts_json text (ps ++ option_list p) ∧
    (∀ k, k ≠ name → dget slot' k = dget slot k) ∧
    Forall (λ kv, kv.1 ∈ rebuilt_keys) slot'.
Proof.
  intros Hne Hname Hk Hd. destruct p as [[n t]|]; [|exists slot; by rewrite app_nil_r].
  unfold absorb_part.
  set (slot1 := dsetdefault slot name _).
  assert (dget slot1 name = Some (JObj [("name", JStr (text_of fst ps)); (text, JStr (text_of snd ps))])
    ∧ (∀ k, k ≠ name → dget slot1 k = dget slot k) ∧ Forall (λ kv, kv.1 ∈ rebuilt_keys) slot1)
    as (H1 & H2 & H3).
  { subst slot1. unfold dsetdefault. rewrite Hd. destruct ps as [|p ps]; simpl.
    - split_and!; [apply dget_dset_eq|intros; by apply dget_dset_ne|by apply known_dset].
    - by rewrite Hd. }
  unfold oget at 1. rewrite H1. cbn [default from_option id]. unfold oget. cbn [dget].
  do 3 (case_decide; try congruence). cbn [default from_option id]. rewrite add_if_name. cbn [mbind res_bind]. rewrite add_if_text //.
  cbn [mbind res_bind]. eexists. split; [done|]. split_and!.
  - rewrite dget_dset_eq. destruct ps as [|p ps]; [done|]. unfold parts_json. cbn [app option_list].
    by rewrite !app_comm_cons !text_of_snoc.
  - intros k Hkn. rewrite dget_dset_ne //. by apply H2.
  - by apply known_dset.
Qed.

Lemma fragment_fields f :
  dget (fragment_json f) "index" = Some (JInt (fr_index f)) ∧
  oget (fragment_json f) "id" = or_none (fr_id f) ∧
  oget (fragment_json f) "type" = or_none (fr_type f) ∧
  oget (fragment_json f) "function" = match fr_function f with
    | Some (n, t) => JObj [("name", JStr n); ("arguments", JStr t)] | None => JNull end ∧
  oget (fragment_json f) "custom" = match fr_custom f with
    | Some (n, t) => JObj [("name", JStr n); ("input", JStr t)] | None => JNull end.
Proof.
  unfold fragment_json, oget, field, part_json, or_none.
  destruct (snonempty (fr_id f)), (snonempty (fr_type f)), (fr_function f) as [[]|], (fr_custom f) as [[]|];
    by split_and!.
Qed.

Lemma set_if_field slot k s fs :
  dget slot k = JStr <$> last_nonempty fs →
  dget (set_if slot k (or_none s)) k = JStr <$> last_nonempty (fs ++ [s]).
Proof.
  intros Hd. rewrite last_nonempty_snoc. unfold set_if, or_none.
  destruct s as [|c s]; simpl; [done|]. by rewrite dget_dset_eq.
Qed.

Lemma set_if_ne slot k s k' :
  k ≠ k' → dget (set_if slot k (or_none s)) k' = dget slot k'.
Proof. intros Hne. unfold set_if. destruct (truthy _); [by apply dget_dset_ne|done]. Qed.

Lemma set_if_known slot k s :
  k ∈ rebuilt_keys → Forall (λ kv, kv.1 ∈ rebuilt_keys) slot →
  Forall (λ kv, kv.1 ∈ rebuilt_keys) (set_if slot k (or_none s)).
Proof. intros Hk Hs. unfold set_if. destruct (truthy _); [by apply known_dset|done]. Qed.

Lemma part_of_snoc part text fs f :
  part_of part text (fs ++ [f]) = parts_json text (omap part fs ++ option_list (part f)).
Proof. unfold part_of. rewrite omap_app. simpl. by destruct (part f). Qed.

(** The key of an integer index. *)
Definition zkey (i : Z) : index_key := num_key (inject_Z i).

Lemma zkey_inj i j : zkey i = zkey j → i = j.
Proof.
  unfold zkey, num_key. intros [= Hn Hd].
  assert (inject_Z i == inject_Z j)%Q as H.
  { rewrite -(Qred_correct (inject_Z i)) -(Qred_correct (inject_Z j)).
    destruct (Qred (inject_Z i)), (Qred (inject_Z j)). simpl in *. by subst. }
  unfold Qeq in H. simpl in H. lia.
Qed.

Lemma absorb_fragment calls f fs :
  slot_ok fs (default [] (dget calls (zkey (fr_index f)))) →
  ∃ slot, absorb_tool_call calls (JObj (fragment_json f)) = Ok (dset calls (zkey (fr_index f)) slot) ∧
    slot_ok (fs ++ [f]) slot.
Proof.
  destruct (fragment_fields f) as (E1 & E2 & E3 & E4 & E5). intros [Hid Hty Hfn Hcu Hkn].
  unfold absorb_tool_call. rewrite E1 E2 E3 E4 E5. cbn [default from_option id index_key_of py_num].
  cbn [mbind res_bind]. change (num_key (inject_Z (fr_index f))) with (zkey (fr_index f)).
  rewrite absorb_unknown_known; [apply fragment_known|].
  set (slot := default [] _) in *. set (slot1 := set_if slot "id" _). set (slot2 := set_if slot1 "type" _).
  assert (slot_ok fs slot → dget slot2 "id" = JStr <$> last_nonempty ((fr_id <$> fs) ++ [fr_id f]) ∧
    dget slot2 "type" = JStr <$> last_nonempty ((fr_type <$> fs) ++ [fr_type f]) ∧
    dget slot2 "function" = dget slot "function" ∧ dget slot2 "custom" = dget slot "custom" ∧
    Forall (λ kv, kv.1 ∈ rebuilt_keys) slot2) as H.
  { intros _. subst slot2 slot1. split_and!.
    - rewrite set_if_ne //. by apply set_if_field.
    - apply set_if_field. by rewrite set_if_ne.
    - by rewrite !set_if_ne.
    - by rewrite !set_if_ne.
    - do 2 (apply set_if_known; [set_solver|]). done. }
  destruct H as (H1 & H2 & H3 & H4 & H5); [done|].
  destruct (absorb_part_spec slot2 "function" "arguments" (fr_function f) (omap fr_function fs))
    as (slot3 & -> & F1 & F2 & F3); [done|set_solver|done|by rewrite H3|].
  destruct (absorb_part_spec slot3 "custom" "input" (fr_custom f) (omap fr_custom fs))
    as (slot4 & Es & C1 & C2 & C3); [done|set_solver|done|by rewrite F2 // H4|].
  cbn [mbind res_bind]. rewrite Es. cbn [mbind res_bind]. exists slot4. split; [done|].
  split; rewrite ?fmap_app ?part_of_snoc.
  - by rewrite C2 // F2.
  - by rewrite C2 // F2.
  - by rewrite C2.
  - done.
  - done.
Qed.

(** *** All fragments *)

Record calls_ok (fs : list fragment) (calls : list (index_key * obj)) : Prop := {
  co_keys : calls.*1 = zkey <$> first_seen (fr_index <$> fs);
  co_slots : ∀ i, slot_ok (filter (λ f, fr_index f = i) fs) (default [] (dget calls (zkey i)));
}.

Lemma calls_ok_nil : calls_ok [] [].
Proof. split; [done|]. intros i. by split. Qed.

Lemma first_seen_snoc l i :
  first_seen (l ++ [i]) = if bool_decide (i ∈ first_seen l) then first_seen l else first_seen l ++ [i].
Proof. unfold first_seen. by rewrite foldl_app. Qed.

Lemma absorb_fragment_ok fs f calls :
  calls_ok fs calls →
  ∃ calls', absorb_tool_call calls (JObj (fragment_json f)) = Ok calls' ∧ calls_ok (fs ++ [f]) calls'.
Proof.
  intros [Hk Hs]. destruct (absorb_fragment calls f _ (Hs (fr_index f))) as (slot & E & Hok).
  eexists. split; [exact E|]. split.
  - rewrite fmap_app first_seen_snoc. csimpl. case_bool_decide as Hin.
    + rewrite keys_dset_present //. rewrite Hk. by apply list_elem_of_fmap_2.
    + rewrite keys_dset_absent; [|by rewrite Hk fmap_app].
      rewrite Hk. intros (j & Hj & Hin')%list_elem_of_fmap. apply zkey_inj in Hj. by rewrite Hj in Hin.
  - intros i. rewrite filter_app. destruct (decide (fr_index f = i)) as [<-|Hne].
    + rewrite dget_dset_eq filter_cons_True // filter_nil.
    + rewrite dget_dset_ne; [by intros ?%zkey_inj|].
      rewrite filter_cons_False // filter_nil app_nil_r. done.
Qed.

Lemma absorb_fragments fs gs calls :
  calls_ok fs calls →
  ∃ calls', foldM absorb_tool_call calls ((λ f, JObj (fragment_json f)) <$> gs) = Ok calls' ∧
    calls_ok (fs ++ gs) calls'.
Proof.
  revert fs calls. induction gs as [|g gs IH]; intros fs calls Hok.
  - exists calls. by rewrite app_nil_r.
  - destruct (absorb_fragment_ok fs g calls Hok) as (calls1 & E & Hok1).
    destruct (IH _ _ Hok1) as (calls' & E' & Hok'). exists calls'. rewrite fmap_cons. cbn [foldM]. rewrite E.
    rewrite -app_assoc in Hok'. done.
Qed.

Lemma last_nonempty_Some l s : last_nonempty l = Some s → snonempty s = true.
Proof.
  unfold last_nonempty. intros Hl%last_Some_elem_of. by apply list_elem_of_filter in Hl as [? _].
Qed.

Lemma part_field_of slot name text field part fs :
  dget slot name = part_of part text fs →
  part_field slot name field = Ok match part_of part text fs with
    | Some (JObj d) => default (JStr EmptyString) (dget d field) | _ => JStr EmptyString end.
Proof. unfold part_field, oget. intros ->. unfold part_of, parts_json. by destruct (omap part fs). Qed.

Lemma rebuild_slot fs slot : slot_ok fs slot → rebuild_call slot = Ok (call_of fs).
Proof.
  intros [Hid Hty Hfn Hcu Hkn]. unfold rebuild_call, call_of, dmem, oget. rewrite Hid Hty Hcu.
  destruct (last_nonempty (fr_id <$> fs)) as [i|] eqn:Ei; [|done].
  apply last_nonempty_Some in Ei. simpl. rewrite Ei.
  assert (∀ r : obj, foldl (λ (r : obj) (kv : string * json),
    if bool_decide (kv.1 ∈ rebuilt_keys) then r else dset r kv.1 kv.2) r slot = r) as Hrest.
  { clear -Hkn. induction Hkn as [|kv d Hk _ IH]; intros r; [done|]. simpl.
    by rewrite bool_decide_eq_true_2. }
  rewrite (part_field_of _ _ "input" "name" fr_custom fs) // (part_field_of _ _ "input" "input" fr_custom fs) //.
  rewrite (part_field_of _ _ "arguments" "name" fr_function fs) //
    (part_field_of _ _ "arguments" "arguments" fr_function fs) //.
  unfold part_of, parts_json.
  destruct (last_nonempty (fr_type <$> fs)) as [t|], (omap fr_custom fs) as [|c cs], (omap fr_function fs);
    simpl; try (rewrite (bool_decide_ext (Some t = Some "custom") (t = "custom")); [naive_solver|];
      destruct (bool_decide (t = "custom")); simpl); by rewrite ?Hrest.
Qed.

(** *** All deltas *)

Lemma zkey_leb i j : index_key_leb (zkey i) (zkey j) = Ok (i <=? j).
Proof.
  unfold zkey, num_key. cbn [index_key_leb]. f_equal.
  destruct (Qred (inject_Z i)) as [n d] eqn:Ei, (Qred (inject_Z j)) as [n' d'] eqn:Ej. cbn [Qnum Qden].
  rewrite -Ei -Ej. apply eq_true_iff_eq. rewrite Qle_bool_iff !Qred_correct -Zle_Qle. lia.
Qed.

Lemma sorted_zkeys l : sorted_keys (zkey <$> l) = Ok (zkey <$> py_sorted Z.leb l).
Proof.
  assert (∀ i l, forallb (same_type (zkey i)) (zkey <$> l) = true) as H.
  { clear. intros i l. induction l as [|j l IH]; [done|].
    rewrite fmap_cons. cbn [forallb]. rewrite IH. unfold same_type. by rewrite zkey_leb. }
  destruct l as [|i [|j l]]; [done|done|]. rewrite -(py_sorted_fmap zkey Z.leb
    (λ a b, match index_key_leb a b with Ok b => b | Err _ => false end)).
  - intros x y. by rewrite zkey_leb.
  - rewrite !fmap_cons. unfold sorted_keys. by rewrite -fmap_cons H.
Qed.

Lemma rebuilt_calls fs calls :
  calls_ok fs calls →
  (keys ← sorted_keys calls.*1;
   calls' ← mapM (λ k, rebuild_call (default [] (dget calls k))) keys;
   Ok (omap id calls')) = Ok (calls_of fs).
Proof.
  intros [Hk Hs]. rewrite Hk sorted_zkeys. cbn [mbind res_bind].
  unfold calls_of. set (l := py_sorted _ _). clearbody l. clear Hk.
  assert (mapM (λ k, rebuild_call (default [] (dget calls k))) (zkey <$> l)
    = Ok ((λ i, call_of (filter (λ f, fr_index f = i) fs)) <$> l)) as ->.
  { apply mapM_res_Ok. rewrite Forall2_fmap_l Forall2_fmap_r. apply Forall_Forall2_diag, Forall_true.
    intros i. by apply rebuild_slot. }
  simpl. f_equal. induction l as [|i l IH]; [done|]. csimpl. destruct (call_of _); simpl; by rewrite IH.
Qed.

Definition reasoning_of (k : string) (d : delta) : string :=
  if bool_decide (k = "reasoning") then dl_reasoning d
  else if bool_decide (k = "reasoning_content") then dl_reasoning_content d
  else dl_reasoning_text d.

Record reasoning_ok (ds : list delta) (parts : list (string * list string)) : Prop := {
  rk_wf : dwf parts;
  rk_known : parts.*1 ⊆ _REASONING_KEYS;
  rk_texts : ∀ k, k ∈ _REASONING_KEYS →
    default [] (dget parts k) = filter (λ s, snonempty s = true) (reasoning_of k <$> ds);
}.

Record rebuilds (es : list event) (st : SemanticState) : Prop := {
  rb_role : st_role st = default JNull (JStr <$> last_nonempty (dl_role <$> deltas es));
  rb_content : st_content_parts st = JStr <$> filter (λ s, snonempty s = true) (dl_content <$> deltas es);
  rb_refusal : st_refusal_parts st = JStr <$> filter (λ s, snonempty s = true) (dl_refusal <$> deltas es);
  rb_reasoning : reasoning_ok (deltas es) (st_reasoning_parts st);
  rb_calls : calls_ok (all_calls (deltas es)) (st_tool_calls st);
  rb_finish : st_finish_reason st
    = default JNull (JStr <$> last_nonempty (dl_finish_reason <$> deltas es));
  rb_usage : st_usage st = default JNull (last (filter (λ u, truthy u = true) (ev_usage <$> es)));
  rb_model : st_model st = default JNull (JStr <$> last_nonempty (ev_model <$> es));
  rb_saw : st_saw_any_choice st = negb (bool_decide (deltas es = []));
}.

Lemma delta_fields d :
  oget (delta_json d) "role" = or_none (dl_role d) ∧
  oget (delta_json d) "content" = or_none (dl_content d) ∧
  oget (delta_json d) "refusal" = or_none (dl_refusal d) ∧
  (∀ k, k ∈ _REASONING_KEYS → oget (delta_json d) k = or_none (reasoning_of k d)) ∧
  oget (delta_json d) "tool_calls" = JList ((λ f, JObj (fragment_json f)) <$> dl_calls d).
Proof.
  unfold delta_json, oget, or_none, _REASONING_KEYS. split_and!.
  - rewrite !dget_field. by destruct (snonempty (dl_role d)).
  - rewrite !dget_field. by destruct (snonempty (dl_content d)).
  - rewrite !dget_field. by destruct (snonempty (dl_refusal d)).
  - intros k Hk. rewrite !dget_field. repeat (apply elem_of_cons in Hk as [->|Hk]).
    + change (reasoning_of _ d) with (dl_reasoning d). by destruct (snonempty (dl_reasoning d)).
    + change (reasoning_of _ d) with (dl_reasoning_content d). by destruct (snonempty (dl_reasoning_content d)).
    + change (reasoning_of _ d) with (dl_reasoning_text d). by destruct (snonempty (dl_reasoning_text d)).
    + by apply not_elem_of_nil in Hk.
  - by rewrite !dget_field.
Qed.

Lemma reasoning_keys_nodup : NoDup _REASONING_KEYS.
Proof. by apply (bool_decide_unpack _). Qed.

Lemma absorb_reasoning_step d parts k :
  k ∈ _REASONING_KEYS → dwf parts → parts.*1 ⊆ _REASONING_KEYS →
  let parts' := absorb_reasoning (delta_json d) parts k in
  dwf parts' ∧ parts'.*1 ⊆ _REASONING_KEYS ∧
  default [] (dget parts' k) = default [] (dget parts k) ++ filter (λ s, snonempty s = true) [reasoning_of k d] ∧
  (∀ k', k' ≠ k → dget parts' k' = dget parts k').
Proof.
  intros Hk Hwf Hkn. destruct (delta_fields d) as (_ & _ & _ & Hr & _). simpl.
  unfold absorb_reasoning. rewrite (Hr _ Hk). unfold or_none.
  destruct (snonempty (reasoning_of k d)) eqn:E.
  - rewrite E filter_cons_True // filter_nil. split_and!.
    + by apply dwf_dset.
    + intros k' [->|Hk']%elem_of_keys_dset; [done|by apply Hkn].
    + by rewrite dget_dset_eq.
    + intros k' Hne. by apply dget_dset_ne.
  - rewrite filter_cons_False; [by rewrite E|]. rewrite filter_nil app_nil_r. by split_and!.
Qed.

Lemma absorb_reasoning_all ds d parts :
  reasoning_ok ds parts →
  reasoning_ok (ds ++ [d]) (foldl (absorb_reasoning (delta_json d)) parts _REASONING_KEYS).
Proof.
  intros [Hwf Hkn Ht].
  assert (∀ ks parts, NoDup ks → ks ⊆ _REASONING_KEYS → dwf parts → parts.*1 ⊆ _REASONING_KEYS →
    let parts' := foldl (absorb_reasoning (delta_json d)) parts ks in
    dwf parts' ∧ parts'.*1 ⊆ _REASONING_KEYS ∧
    (∀ k, default [] (dget parts' k) = default [] (dget parts k) ++
       (if bool_decide (k ∈ ks) then filter (λ s, snonempty s = true) [reasoning_of k d] else []))) as H.
  { clear. induction ks as [|k ks IH]; intros parts Hnd Hks Hwf Hkn; simpl.
    - split_and!; [done|done|]. intros k. by rewrite app_nil_r.
    - apply NoDup_cons in Hnd as [Hk Hnd].
      destruct (absorb_reasoning_step d parts k) as (W & K & E1 & E2); [set_solver|done|done|].
      destruct (IH (absorb_reasoning (delta_json d) parts k)) as (W' & K' & E'); [done|set_solver|done|done|].
      split_and!; [done|done|]. intros k'. rewrite E'. destruct (decide (k' = k)) as [->|Hne].
      + rewrite E1 (bool_decide_eq_false_2 (k ∈ ks)) // app_nil_r.
        assert (bool_decide (k ∈ k :: ks) = true) as -> by (apply bool_decide_eq_true_2; set_solver). done.
      + rewrite E2 //. f_equal. rewrite (bool_decide_ext (k' ∈ k :: ks) (k' ∈ ks)) //. set_solver. }
  destruct (H _REASONING_KEYS parts) as (W & K & E); [apply reasoning_keys_nodup|done|done|done|].
  split; [done|done|]. intros k Hk. rewrite E (Ht _ Hk) bool_decide_eq_true_2 // fmap_app filter_app. done.
Qed.

Lemma py_or_text s v : py_or (or_none s) v = if snonempty s then JStr s else v.
Proof. unfold or_none. by destruct s. Qed.

Lemma last_or l s :
  py_or (or_none s) (default JNull (JStr <$> last_nonempty l))
  = default JNull (JStr <$> last_nonempty (l ++ [s])).
Proof. rewrite py_or_text last_nonempty_snoc. by destruct (snonempty s). Qed.

Lemma append_text l s :
  append_if (JStr <$> filter (λ s, snonempty s = true) l) (or_none s)
  = JStr <$> filter (λ s, snonempty s = true) (l ++ [s]).
Proof.
  unfold append_if, or_none. rewrite filter_app fmap_app. destruct (snonempty s) eqn:E.
  - simpl. rewrite E. rewrite filter_cons_True // filter_nil.
  - simpl. rewrite filter_cons_False; [by rewrite E|]. by rewrite filter_nil app_nil_r.
Qed.

Lemma last_truthy l v :
  py_or v (default JNull (last (filter (λ u, truthy u = true) l)))
  = default JNull (last (filter (λ u, truthy u = true) (l ++ [v]))).
Proof.
  unfold py_or. rewrite filter_app. destruct (truthy v) eqn:E.
  - rewrite (filter_cons_True _ v) // filter_nil last_snoc. done.
  - rewrite (filter_cons_False _ v); [by rewrite E|]. by rewrite filter_nil app_nil_r.
Qed.

(** A delta is absorbed field by field. *)
Lemma absorb_delta es d usage model st :
  rebuilds es st → let e := MkEvent (Some d) usage model in
  ∃ st', _absorb st (event_json e) = Ok st' ∧ rebuilds (es ++ [e]) st'.
Proof.
  intros [Hro Hco Hre Hrs Hca Hfi Hus Hmo Hsa] e. subst e. unfold _absorb.
  destruct (delta_fields d) as (E1 & E2 & E3 & _ & E5).
  destruct (absorb_fragments _ (dl_calls d) _ Hca) as (calls & Ec & Hca').
  change (py_get (event_json _) "usage") with (Ok usage).
  change (py_get (event_json _) "model") with (Ok (or_none model)).
  change (py_get (event_json _) "choices") with (Ok (JList [choice_json d])).
  cbn [mbind res_bind truthy first_of]. unfold absorb_choice.
  change (py_get (choice_json d) "delta") with (Ok (JObj (delta_json d))).
  change (py_get (choice_json d) "message") with (Ok JNull).
  change (py_get (choice_json d) "finish_reason") with (Ok (or_none (dl_finish_reason d))).
  cbn [mbind res_bind].
  assert (py_or (py_or (JObj (delta_json d)) JNull) (JObj []) = JObj (delta_json d)) as ->.
  { assert (truthy (JObj (delta_json d)) = true) as Ht.
    { simpl. destruct (delta_json d) eqn:E; [|done]. discriminate E5. }
    unfold py_or. by rewrite Ht Ht. }
  rewrite E5.
  assert (py_iter (py_or (JList ((λ f, JObj (fragment_json f)) <$> dl_calls d)) (JList []))
    = Ok ((λ f, JObj (fragment_json f)) <$> dl_calls d)) as -> by by destruct (dl_calls d).
  cbn [mbind res_bind st_tool_calls]. rewrite Ec. cbn [mbind res_bind].
  eexists. split; [reflexivity|].
  assert (deltas (es ++ [MkEvent (Some d) usage model]) = deltas es ++ [d]) as Ed.
  { unfold deltas. by rewrite omap_app. }
  split; cbn [st_role st_content_parts st_refusal_parts st_reasoning_parts st_tool_calls
    st_finish_reason st_usage st_model st_saw_any_choice]; rewrite ?Ed ?fmap_app.
  - by rewrite E1 Hro last_or.
  - by rewrite E2 Hco append_text.
  - by rewrite E3 Hre append_text.
  - by apply absorb_reasoning_all.
  - unfold all_calls. rewrite fmap_app concat_app. simpl. by rewrite app_nil_r.
  - by rewrite Hfi last_or.
  - by rewrite Hus last_truthy.
  - by rewrite Hmo last_or.
  - rewrite bool_decide_eq_false_2 //. by destruct (deltas es).
Qed.

Lemma absorb_bare es usage model st :
  rebuilds es st → let e := MkEvent None usage model in
  ∃ st', _absorb st (event_json e) = Ok st' ∧ rebuilds (es ++ [e]) st'.
Proof.
  intros [Hro Hco Hre Hrs Hca Hfi Hus Hmo Hsa] e. subst e. unfold _absorb.
  change (py_get (event_json _) "usage") with (Ok usage).
  change (py_get (event_json _) "model") with (Ok (or_none model)).
  change (py_get (event_json _) "choices") with (Ok (JList [])).
  cbn [mbind res_bind truthy]. eexists. split; [reflexivity|].
  assert (deltas (es ++ [MkEvent None usage model]) = deltas es) as Ed.
  { unfold deltas. by rewrite omap_app app_nil_r. }
  split; cbn [st_role st_content_parts st_refusal_parts st_reasoning_parts st_tool_calls
    st_finish_reason st_usage st_model st_saw_any_choice]; rewrite ?Ed ?fmap_app; try done.
  - by rewrite Hus last_truthy.
  - by rewrite Hmo last_or.
Qed.

Lemma absorb_event es e st :
  rebuilds es st → ∃ st', _absorb st (event_json e) = Ok st' ∧ rebuilds (es ++ [e]) st'.
Proof. destruct e as [[d|] usage model]; [apply absorb_delta|apply absorb_bare]. Qed.

Lemma join_texts l : join_parts (JStr <$> filter (λ s, snonempty s = true) l) = Ok (join EmptyString l).
Proof.
  unfold join_parts. rewrite -(join_filter l). generalize (filter (λ s, snonempty s = true) l). clear l. intros l.
  assert (mapM (λ v, match v with JStr s => Ok s | _ => Err TypeError end) (JStr <$> l) = Ok l) as ->; [|done].
  apply mapM_res_Ok. rewrite Forall2_fmap_l. by apply Forall_Forall2_diag, Forall_true.
Qed.

Lemma reasoning_sorted ds parts :
  reasoning_ok ds parts →
  py_sorted str_leb parts.*1 = filter (λ k, k ∈ parts.*1) _REASONING_KEYS.
Proof.
  intros [Hwf Hkn _]. apply (StronglySorted_unique_strong (λ a b, str_leb a b = true)).
  - intros a b _ _. apply str_leb_antisym.
  - apply py_sorted_sorted; [apply str_leb_total|intros; by eapply str_leb_trans].
  - eapply sorted_sublist; [apply sublist_filter|]. repeat constructor.
  - rewrite py_sorted_perm. apply NoDup_Permutation; [done| |].
    + apply NoDup_filter, reasoning_keys_nodup.
    + intros k. rewrite list_elem_of_filter. set_solver.
Qed.

Definition add_reasoning (text : string → string) (m : obj) (key : string) : obj :=
  if snonempty (text key) then dset m key (JStr (text key)) else m.

Lemma add_reasoning_filter (P : string → Prop) `{∀ k, Decision (P k)} text m ks :
  (∀ k, k ∈ ks → ¬ P k → text k = EmptyString) →
  foldl (add_reasoning text) m (filter P ks) = foldl (add_reasoning text) m ks.
Proof.
  revert m. induction ks as [|k ks IH]; intros m Ht; [done|].
  destruct (decide (P k)) as [Hk|Hk].
  - rewrite filter_cons_True //. simpl. apply IH. set_solver.
  - rewrite filter_cons_False //. simpl. unfold add_reasoning at 3. rewrite (Ht k); [set_solver|done|].
    apply IH. set_solver.
Qed.

Lemma build_rebuilds es st :
  rebuilds es st → _build_message st = Ok (message_of (deltas es)).
Proof.
  intros [Hro Hco Hre Hrs Hca _ _ _ _]. unfold _build_message. rewrite Hco Hre !join_texts.
  cbn [mbind res_bind]. pose proof (rebuilt_calls _ _ Hca) as Hc. inv_res.
  rewrite Hok. cbn [mbind res_bind]. rewrite Hok0. cbn [mbind res_bind]. rewrite Hk0. f_equal.
  change (foldl _ ?m (py_sorted str_leb ?l)) with
    (foldl (add_reasoning (λ k, join EmptyString (default [] (dget (st_reasoning_parts st) k)))) m
       (py_sorted str_leb l)).
  rewrite (reasoning_sorted (deltas es)) // add_reasoning_filter.
  { intros k _ Hk%dget_None. by rewrite Hk. }
  destruct Hrs as [_ _ Ht]. unfold message_of. unfold _REASONING_KEYS in *.
  assert (∀ k, k ∈ _REASONING_KEYS → join EmptyString (default [] (dget (st_reasoning_parts st) k))
    = text_of (reasoning_of k) (deltas es)) as Htext.
  { intros k Hk. rewrite Ht // join_filter. done. }
  cbn [foldl]. unfold add_reasoning. rewrite !Htext; [set_solver..|].
  assert (py_or (st_role st) (JStr "assistant")
    = JStr (default "assistant" (last_nonempty (dl_role <$> deltas es)))) as ->.
  { rewrite Hro. destruct (last_nonempty _) as [r|] eqn:E; [|done].
    apply last_nonempty_Some in E. by destruct r. }
  change (text_of (reasoning_of "reasoning")) with (text_of dl_reasoning).
  change (text_of (reasoning_of "reasoning_content")) with (text_of dl_reasoning_content).
  change (text_of (reasoning_of "reasoning_text")) with (text_of dl_reasoning_text).
  unfold field. fold (text_of dl_refusal (deltas es)).
  generalize (calls_of (all_calls (deltas es))). intros calls.
  repeat match goal with |- context [snonempty ?s] => destruct (snonempty s) end;
    destruct calls; reflexivity.
Qed.

Lemma metadata_rebuilds es st : rebuilds es st → response_metadata st = metadata_of es.
Proof.
  intros [_ _ _ _ _ Hf Hu Hm _]. unfold response_metadata, metadata_of. rewrite Hf Hu Hm.
  assert (∀ u, last (filter (λ u, truthy u = true) (ev_usage <$> es)) = Some u → is_none u = false) as H.
  { intros u [Ht _]%last_Some_elem_of%list_elem_of_filter. by destruct u. }
  destruct (last_nonempty (dl_finish_reason <$> _)), (last (filter _ _)) as [u|],
    (last_nonempty (ev_model <$> es)); simpl; rewrite ?(H u) //.
Qed.

Section reconstruction.
Context {host : Host} {utf8 : Utf8}.

(** The provider writes each event on a data line of its own. *)
Definition renders (render : json → string) (e : event) : Prop :=
  json_loads (render (event_json e)) = Some (event_json e) ∧ clean (render (event_json e)).

Definition wire (render : json → string) (es : list event) : string :=
  join EmptyString ((λ e, frame (render (event_json e))) <$> es) +:+ frame "[DONE]".

Lemma absorb_events render es :
  Forall (renders render) es →
  ∃ st, foldM absorb_data initial_state ((λ e, render (event_json e)) <$> es) = Ok st ∧ rebuilds es st.
Proof.
  intros Hr. induction es as [|e es IH] using rev_ind.
  - exists initial_state. split; [done|]. split; try done.
    split; [apply NoDup_nil_2|set_solver|done].
  - apply Forall_app in Hr as [Hr [[Hp _] _]%Forall_cons]. destruct (IH Hr) as (st & E & Hst).
    destruct (absorb_event es e st Hst) as (st' & E' & Hst'). exists st'. split; [|done].
    rewrite fmap_app foldM_app E. simpl. unfold absorb_data. by rewrite Hp E'.
Qed.


(** The passthrough is untouched and nothing partial is kept.  Whatever the
    inner stream sends, however it ends and whatever the callback raises, the
    client gets exactly the chunks that came; the callback is told of a message
    only when the stream was exhausted within the capture limit, and then of the
    message parsed from all its bytes; and nothing the callback raises breaks
    the stream. *)
Theorem stream_passthrough (max_bytes : option Z) (on_finished : option obj → obj → res unit)
    (chunks : list string) (how : ending) :
  0 ≤ default 0 max_bytes →
  let r := iter_bytes max_bytes on_finished chunks how in
  sr_yielded r = chunks ∧
  (how ≠ Exhausted ∨ within max_bytes chunks = false →
     sr_calls r = [(None, [])] ∧ sr_raised r = ending_raised how) ∧
  (how = Exhausted → within max_bytes chunks = true →
     match finalize (MkAssistantCapture (join EmptyString chunks) max_bytes false initial_state) with
     | Ok (message, st) => sr_calls r = [(message, response_metadata st)] ∧ sr_raised r = None
     | Err e => sr_calls r = [] ∧ sr_raised r = Some e
     end).
Proof.
  intros Hm. unfold iter_bytes, AssistantCapture_init.
  destruct (relay_spec max_bytes initial_state [] [] chunks) as (c & E & Hc).
  { destruct max_bytes as [m|]; [|done]. simpl in *. lia. }
  change (join EmptyString []) with EmptyString in E. rewrite E. simpl in Hc. clear E.
  unfold call_finished. destruct how; simpl.
  - destruct (within max_bytes chunks).
    + subst c. cbn [ac_overflowed negb orb andb].
      destruct (finalize _) as [[message st]|e]; simpl; [|by split_and!; try intros [|]].
      destruct (on_finished _ _); simpl; split_and!; try done; by intros [|].
    + rewrite Hc. simpl. destruct (on_finished _ _); by split_and!.
  - destruct (on_finished _ _); by split_and!.
  - destruct (on_finished _ _); by split_and!.
Qed.
End reconstruction.

(** ** Well-formedness

    Whatever well-formed JSON the events hold, the message is well formed. *)

Record state_wf (st : SemanticState) : Prop := {
  sw_role : json_wf (st_role st);
  sw_calls : Forall (λ kv, obj_wf kv.2) (st_tool_calls st);
}.

Lemma add_if_wf (d : obj) k v d' : obj_wf d → add_if d k v = Ok d' → obj_wf d'.
Proof.
  unfold add_if. intros Hd. destruct (truthy v); [|by intros [= <-]].
  destruct (oget d k); try done. destruct v; try done. intros [= <-]. by apply obj_wf_dset.
Qed.

Lemma absorb_part_wf slot name text part slot' :
  text ≠ "name" → obj_wf slot → absorb_part slot name text part = Ok slot' → obj_wf slot'.
Proof.
  intros Hne Hs. unfold absorb_part. destruct part as [| | | | | |p]; try (by intros [= <-]).
  set (slot1 := dsetdefault slot name _).
  assert (obj_wf slot1) as Hs1.
  { subst slot1. apply obj_wf_dsetdefault; [|done]. apply json_wf_obj. split; [|by repeat constructor].
    unfold dwf. simpl. repeat constructor; [set_solver..|apply not_elem_of_nil]. }
  pose proof (oget_wf slot1 name Hs1) as Hd. destruct (oget slot1 name) as [| | | | | |d]; try done.
  intros H. inv_res. apply obj_wf_dset; [|done]. by eapply add_if_wf, Hok0; eapply add_if_wf, Hok.
Qed.

Lemma absorb_unknown_wf l slot :
  Forall json_wf l.*2 → obj_wf slot → obj_wf (foldl absorb_unknown slot l).
Proof.
  revert slot. induction l as [|[k v] l IH]; intros slot; [done|]. intros [Hv Hl]%Forall_cons Hs. simpl.
  apply IH; [done|]. unfold absorb_unknown. destruct (bool_decide _); [done|by apply obj_wf_dsetdefault].
Qed.

Lemma dget_slot calls k :
  Forall (λ kv : index_key * obj, obj_wf kv.2) calls → obj_wf (default [] (dget calls k)).
Proof.
  intros Hc. destruct (dget calls k) as [slot|] eqn:E; [|by apply json_wf_obj; split; [apply NoDup_nil_2|]].
  apply dget_Some_In in E. rewrite Forall_forall in Hc. by apply (Hc _ E).
Qed.

Lemma dset_slot calls k slot :
  obj_wf slot → Forall (λ kv : index_key * obj, obj_wf kv.2) calls →
  Forall (λ kv, obj_wf kv.2) (dset calls k slot).
Proof.
  intros Hs. induction 1 as [|[k' v'] calls Hv Hc IH]; simpl; [by constructor|].
  case_decide; by constructor.
Qed.

Lemma set_if_wf d k v : json_wf v → obj_wf d → obj_wf (set_if d k v).
Proof. intros Hv Hd. unfold set_if. destruct (truthy v); [by apply obj_wf_dset|done]. Qed.

Lemma absorb_tool_call_wf calls tc calls' :
  json_wf tc → Forall (λ kv : index_key * obj, obj_wf kv.2) calls →
  absorb_tool_call calls tc = Ok calls' → Forall (λ kv, obj_wf kv.2) calls'.
Proof.
  intros Ht Hc. unfold absorb_tool_call. destruct tc as [| | | | | |tc]; try done. intros H. inv_res.
  apply dset_slot; [|done]. eapply absorb_part_wf; [..|exact Hok1]; [done|].
  eapply absorb_part_wf; [..|exact Hok0]; [done|]. apply absorb_unknown_wf.
  - by apply json_wf_obj in Ht as [_ ?].
  - do 2 (apply set_if_wf; [by apply oget_wf|]). by apply dget_slot.
Qed.

Lemma foldM_tool_calls_wf l calls calls' :
  Forall json_wf l → Forall (λ kv : index_key * obj, obj_wf kv.2) calls →
  foldM absorb_tool_call calls l = Ok calls' → Forall (λ kv, obj_wf kv.2) calls'.
Proof.
  intros Hl. revert calls. induction Hl as [|tc l Ht _ IH]; intros calls Hc; simpl; [by intros [= <-]|].
  intros H. inv_res. eapply IH; [|done]. by eapply absorb_tool_call_wf.
Qed.

Lemma first_of_wf v x : json_wf v → first_of v = Ok x → json_wf x.
Proof.
  intros Hv. destruct v as [| | | |s|[|y l]|d]; try done; simpl.
  - pose proof (chars_wf s) as Hc. destruct (chars s); [done|]. intros [= <-]. by inversion Hc.
  - intros [= <-]. by apply json_wf_list, Forall_cons in Hv as [? _].
Qed.

Lemma absorb_wf st payload st' :
  json_wf payload → state_wf st → _absorb st payload = Ok st' → state_wf st'.
Proof.
  intros Hp [Hr Hc]. unfold _absorb. intros H. inv_res. pose proof (py_get_wf _ _ _ Hp Hok1) as Hch.
  destruct (truthy a1); inv_res; [|done]. pose proof (first_of_wf _ _ Hch Hok2) as Hx.
  unfold absorb_choice in Hk0. inv_res.
  assert (json_wf (py_or (py_or a3 a4) (JObj []))) as Hd.
  { apply py_or_wf; [apply py_or_wf; eapply py_get_wf; done|]. apply json_wf_obj.
    split; [apply NoDup_nil_2|done]. }
  destruct (py_or (py_or a3 a4) (JObj [])) as [| | | | | |delta]; try done. inv_res.
  split; cbn [st_role st_tool_calls]; [by apply py_or_wf; [apply oget_wf|]|].
  eapply foldM_tool_calls_wf; [|exact Hc|done].
  eapply py_iter_wf; [|done]. by apply py_or_wf; [apply oget_wf|].
Qed.

Lemma rebuild_wf call call' : obj_wf call → rebuild_call call = Ok (Some call') → obj_wf call'.
Proof.
  intros Hc. unfold rebuild_call. destruct (truthy _); [|done]. intros H. inv_res.
  assert (∀ name field x, part_field call name field = Ok x → json_wf x) as Hpart.
  { intros name field x. unfold part_field.
    assert (json_wf (py_or (oget call name) (JObj []))) as Hw.
    { apply py_or_wf; [by apply oget_wf|]. apply json_wf_obj. split; [apply NoDup_nil_2|done]. }
    destruct (py_or _ _) as [| | | | | |d]; try done. intros [= <-].
    destruct (dget d field) eqn:E; [by eapply dget_wf|done]. }
  assert (∀ text n t, text ≠ "name" → json_wf n → json_wf t → obj_wf [("name", n); (text, t)]) as Hpair.
  { intros text n t Hne Hn Ht. apply json_wf_obj. split; [|by repeat constructor].
    unfold dwf. simpl. apply NoDup_cons. split; [set_solver|apply NoDup_singleton]. }
  assert (obj_wf a) as Ha.
  { assert (∀ k, k ≠ "id" → k ≠ "type" → ∀ x y z, json_wf x → json_wf y → json_wf z →
      obj_wf [("id", x); ("type", y); (k, z)]) as H3.
    { intros k H1 H2 x y z Hx Hy Hz. apply json_wf_obj. split; [|by repeat constructor].
      unfold dwf. simpl. apply NoDup_cons. split; [set_solver|].
      apply NoDup_cons. split; [set_solver|apply NoDup_singleton]. }
    destruct (_ || _); inv_res; apply H3; try done; try (by apply oget_wf).
    - apply Hpair; [done|by eapply Hpart|by eapply Hpart].
    - destruct (dget call "type") eqn:E; [by eapply dget_wf|done].
    - apply Hpair; [done|by eapply Hpart|by eapply Hpart]. }
  apply json_wf_obj in Hc as [_ Hv]. clear -Ha Hv. revert a Ha.
  induction call as [|[k v] call IH]; intros r Hr; [done|]. apply Forall_cons in Hv as [Hv Hrest]. simpl.
  apply IH; [done|]. destruct (bool_decide _); [done|by apply obj_wf_dset].
Qed.

Lemma build_message_wf st m : state_wf st → _build_message st = Ok m → obj_wf m.
Proof.
  intros [Hr Hc]. unfold _build_message. intros H. inv_res.
  assert (Forall obj_wf (omap id a2)) as Hcalls.
  { apply mapM_res_Ok in Hok2. clear -Hok2 Hc. induction Hok2 as [|k r ks rs Hk _ IH]; [done|].
    csimpl. destruct r as [call|]; simpl; [|done]. constructor; [|done].
    eapply rebuild_wf; [|exact Hk]. by apply dget_slot. }
  assert (∀ text ks m, obj_wf m → obj_wf (foldl (add_reasoning text) m ks)) as Hreas.
  { intros text ks. induction ks as [|k ks IH]; intros m Hm; [done|]. simpl. apply IH.
    unfold add_reasoning. destruct (snonempty _); [by apply obj_wf_dset|done]. }
  match goal with |- context [foldl _ ?m0 (py_sorted str_leb ?l)] =>
    change (foldl _ m0 (py_sorted str_leb l)) with
      (foldl (add_reasoning (λ k, join EmptyString (default [] (dget (st_reasoning_parts st) k)))) m0
         (py_sorted str_leb l)) end.
  set (m1 := foldl _ _ _).
  assert (obj_wf m1) as Hm1.
  { apply Hreas. apply json_wf_obj. split.
    - unfold dwf. simpl. apply NoDup_cons. split; [set_solver|apply NoDup_singleton].
    - repeat constructor; [by apply py_or_wf|]. unfold or_none. by destruct (snonempty _). }
  clearbody m1.
  assert (obj_wf match omap id a2 with [] => m1
    | _ => dset m1 "tool_calls" (JList (JObj <$> omap id a2)) end) as Hm2.
  { destruct (omap id a2) as [|c cs]; [done|]. apply obj_wf_dset; [|done].
    apply json_wf_list, Forall_fmap. done. }
  destruct (snonempty a0); [by apply obj_wf_dset|done].
Qed.

Lemma finalize_wf `{Host, Utf8} c m st :
  (∀ s v, json_loads s = Some v → json_wf v) → state_wf (ac_state c) →
  finalize c = Ok (Some m, st) → obj_wf m.
Proof.
  intros Hj Hs. unfold finalize. destruct (ac_overflowed c); [done|]. intros H1. inv_res.
  assert (state_wf a) as Ha.
  { clear Hk. revert Hs Hok. generalize (ac_state c). generalize (sse_data (utf8_decode (ac_buffer c))).
    intros l. induction l as [|x l IH]; intros s0 Hs0; simpl; [by intros [= <-]|].
    intros H1. inv_res. eapply IH; [|done]. unfold absorb_data in Hok.
    destruct (json_loads x) eqn:E; [|by inv_res]. eapply absorb_wf; [by eapply Hj|done|done]. }
  destruct (st_saw_any_choice a); inv_res. by eapply build_message_wf.
Qed.

(** Every chunk that arrives is passed on. *)
Lemma iter_bytes_yields `{Host, Utf8} max_bytes f chunks how :
  sr_yielded (iter_bytes max_bytes f chunks how) = chunks.
Proof.
  assert (∀ c y, (relay c y chunks).2 = y ++ chunks) as Hr.
  { induction chunks as [|x l IH]; intros c y; simpl; [by rewrite app_nil_r|]. by rewrite IH -app_assoc. }
  unfold iter_bytes. specialize (Hr (AssistantCapture_init max_bytes) []).
  destruct (relay _ _ _) as [c y]. simpl in Hr. subst y.
  destruct (if _ || _ then _ else _) as [[message st]|e]; [|done]. by destruct (call_finished _ _ _).
Qed.

(** The messages handed to the callback are well-formed objects. *)
Lemma iter_bytes_wf `{Host, Utf8} max_bytes f chunks how m md :
  (∀ s v, json_loads s = Some v → json_wf v) → 0 ≤ default 0 max_bytes →
  (Some m, md) ∈ sr_calls (iter_bytes max_bytes f chunks how) → obj_wf m.
Proof.
  intros Hj Hm. unfold iter_bytes, AssistantCapture_init.
  destruct (relay_spec max_bytes initial_state [] [] chunks) as (c & E & Hc).
  { destruct max_bytes as [b|]; [|done]. simpl in *. lia. }
  change (join EmptyString []) with EmptyString in E. rewrite E. simpl in Hc. clear E.
  destruct (negb _ || _) eqn:Eo.
  - unfold call_finished. destruct (f _ _); simpl; by intros [= ]%list_elem_of_singleton.
  - destruct (finalize c) as [[message st]|e] eqn:Ef; [|set_solver].
    assert (ac_state c = initial_state) as Es.
    { destruct (within max_bytes chunks); [by subst|]. rewrite Hc in Eo. by destruct how. }
    unfold call_finished. destruct (f _ _); simpl; intros [= <- _]%list_elem_of_singleton;
      (eapply finalize_wf; [exact Hj| |exact Ef]; rewrite Es; by split).
Qed.

(** ** A concrete stream *)

(** Two calls whose fragments alternate, and a text in two pieces. *)
Definition sample_events : list event :=
  [MkEvent (Some (MkDelta "assistant" "Hel" "" "" "" "" [] "")) JNull "m";
   MkEvent (Some (MkDelta "" "lo" "" "thinking" "" ""
     [MkFragment 1 "b" "function" (Some ("g", "")) None; MkFragment 0 "a" "" (Some ("f", "{")) None] "")) JNull "m";
   MkEvent (Some (MkDelta "" "" "" "" "" ""
     [MkFragment 0 "" "" (Some ("", "}")) None; MkFragment 1 "" "" (Some ("", "[]")) None] "tool_calls")) JNull "m";
   MkEvent None (JInt 7) "m"].

(** A parser that knows the texts of these events. *)
#[local] Instance sample_parser : Host := {|
  float_repr := float_repr (Host:=sample_host);
  sha256_hexdigest := sha256_hexdigest (Host:=sample_host);
  json_loads := λ s, snd <$> list_find (λ v, json_dumps (host:=sample_host) style_default v = s)
                              (JInt 5 :: (event_json <$> sample_events));
|}.

(** On ASCII text. *)
#[local] Instance ascii_decode : Utf8 := {| utf8_decode := λ b, b; json_loads_bytes := json_loads |}.

Definition sample_render (v : json) : string := json_dumps (host:=sample_host) style_default v.


Lemma stream_passthrough_witness :
  let r := iter_bytes (Some 4) (λ _ _, Err PostgresError) ["data"; ": x"] Exhausted in
  sr_yielded r = ["data"; ": x"] ∧ sr_calls r = [(None, [])] ∧ sr_raised r = None.
Proof.
  destruct (stream_passthrough (Some 4) (λ _ _, Err PostgresError) ["data"; ": x"] Exhausted)
    as (H1 & H2 & _); [simpl; lia|].
  split; [exact H1|]. apply H2. right. reflexivity.
Defined.

(** The pass over the captured bytes runs outside of the handlers: an event that
    is not an object raises out of a stream that was delivered, and the
    callback is never told that it ended. *)
Example odd_event_breaks_stream :
  iter_bytes None (λ _ _, Ok tt) ["data: 5" +:+ nl +:+ nl] Exhausted
  = MkStreamRun ["data: 5" +:+ nl +:+ nl] [] (Some AttributeError).
Proof. vm_compute. reflexivity. Qed.

(** JSON allows U+0085 (and U+2028) in a string, [splitlines] breaks the line
    there: the event is lost, and the message is persisted without it. *)
Example line_separator_loses_text :
  sse_data ("data: [" +:+ dquote +:+ "a" +:+ str1 (chr 133) +:+ "b" +:+ dquote +:+ "]" +:+ nl +:+ nl)
  = ["[" +:+ dquote +:+ "a"].
Proof. vm_compute. reflexivity. Qed.
