(* ===== verification/Streams.v ===== *)
(** * The life of a stream ([capture.py], [providers/llm.py])

    Two async generators stand between the provider and the client:
    [UpstreamLLMStream.iter_bytes], which closes the upstream response when it ends,
    and [PersistingLLMStream.iter_bytes] around it, which captures and persists.
    [Capture.iter_bytes] tells what comes out of a whole stream; here the generators
    are driven step by step, and the consumer may leave at any time. *)

From S2P Require Import Prelude PyDict PyString Json Capture.
Local Open Scope Z_scope.

(** ** Async generators *)

(** A generator before its first step, at a [yield], and finished. *)
Inductive generator : Type := Fresh | Suspended | Done.

(** What comes of one step: a chunk, the end, an exception, or a cancellation. *)
Inductive step_result : Type := Yields (chunk : string) | Stops | Throws (e : exn) | Cancels.

(** What the upstream connection delivers while it is awaited; the task can be
    cancelled meanwhile. *)
Inductive delivery : Type := Chunk (s : string) | NoMore | Fails (e : exn) | CancelledHere.

(** ** [UpstreamLLMStream] *)

(** [us_closes] counts the calls of [aclose] on the response. *)
Record UpstreamLLMStream : Type := MkUpstream {
  us_closed : bool;
  us_closes : nat;
}.

Definition UpstreamLLMStream_init : UpstreamLLMStream := MkUpstream false 0.

Section streams.
Context {host : Host} {utf8 : Utf8}.
(** The exception of closing the response, if it raises, and the callback. *)
Context (closing : option exn) (on_finished : option obj → obj → res unit).

Definition UpstreamLLMStream_aclose (s : UpstreamLLMStream) : option exn * UpstreamLLMStream :=
  if us_closed s then (None, s) else (closing, MkUpstream true (S (us_closes s))).

(** One step of [iter_bytes]: its [finally] closes the response, and what closing
    raises replaces what was raised. *)
Definition upstream_next (a : delivery) (g : generator) (s : UpstreamLLMStream)
    : step_result * generator * UpstreamLLMStream :=
  let finish o := let '(raised, s) := UpstreamLLMStream_aclose s in
                  (match raised with Some e => Throws e | None => o end, Done, s) in
  match g with
  | Done => (Stops, Done, s)
  | _ => match a with
         | Chunk c => (Yields c, Suspended, s)
         | NoMore => finish Stops
         | Fails e => finish (Throws e)
         | CancelledHere => finish Cancels
         end
  end.

(** The generator is closed, by the consumer or by the collector: a body that never
    ran is not entered, so its [finally] does not run either. *)
Definition upstream_leave (g : generator) (s : UpstreamLLMStream) : generator * UpstreamLLMStream :=
  match g with Suspended => (Done, (UpstreamLLMStream_aclose s).2) | _ => (Done, s) end.

(** ** [PersistingLLMStream] *)

Record Relay : Type := MkRelay {
  rl_outer : generator;
  rl_inner : generator;
  rl_response : UpstreamLLMStream;
  rl_capture : AssistantCapture;
  rl_yielded : list string;
  rl_calls : list (option obj * obj);
  rl_raised : option exn;
}.

Definition PersistingLLMStream_init (max_bytes : option Z) : Relay :=
  MkRelay Fresh Fresh UpstreamLLMStream_init (AssistantCapture_init max_bytes) [] [] None.

(** The [finally] of [iter_bytes]. *)
Definition finally_block (c : AssistantCapture) (how : ending) : list (option obj * obj) * option exn :=
  let completed := match how with Exhausted => true | _ => false end in
  let overflowed := if completed then ac_overflowed c else false in
  let result := if negb completed || overflowed then Ok (None, ac_state c) else finalize c in
  match result with
  | Err e => ([], Some e)
  | Ok (message, st) =>
      let metadata := if completed && negb overflowed then response_metadata st else [] in
      let '(calls, raised) := call_finished on_finished message metadata in
      (calls, match raised with Some e => Some e | None => ending_raised how end)
  end.

Definition end_relay (how : ending) (inner : generator) (s : UpstreamLLMStream) (r : Relay) : Relay :=
  let '(calls, raised) := finally_block (rl_capture r) how in
  MkRelay Done inner s (rl_capture r) (rl_yielded r) (rl_calls r ++ calls) raised.

Definition next (a : delivery) (r : Relay) : Relay :=
  match rl_outer r with
  | Done => r
  | _ =>
      let '(o, inner, s) := upstream_next a (rl_inner r) (rl_response r) in
      match o with
      | Yields chunk =>
          MkRelay Suspended inner s (feed (rl_capture r) chunk) (rl_yielded r ++ [chunk]) (rl_calls r) (rl_raised r)
      | Stops => end_relay Exhausted inner s r
      | Throws e => end_relay (Raised e) inner s r
      | Cancels => end_relay Closed inner s r
      end
  end.

(** The consumer drops the stream: the outer generator is closed at its [yield],
    and then the inner one, to which nothing refers any more. *)
Definition leave (r : Relay) : Relay :=
  match rl_outer r with
  | Done => r
  | Fresh => MkRelay Done (rl_inner r) (rl_response r) (rl_capture r) (rl_yielded r) (rl_calls r) (rl_raised r)
  | Suspended =>
      let r := end_relay Closed (rl_inner r) (rl_response r) r in
      let '(inner, s) := upstream_leave (rl_inner r) (rl_response r) in
      MkRelay (rl_outer r) inner s (rl_capture r) (rl_yielded r) (rl_calls r) (rl_raised r)
  end.

Inductive occurrence : Type := Next (a : delivery) | Leave.

Definition occur (r : Relay) (o : occurrence) : Relay := match o with Next a => next a r | Leave => leave r end.

Definition drive (os : list occurrence) (r : Relay) : Relay := foldl occur r os.

(** ** What it amounts to *)

(** What closing raises replaces the ending. *)
Definition after_closing (how : ending) : ending := match closing with Some e => Raised e | None => how end.

(** The chunks up to the end, and how it ended, if it has. *)
Fixpoint script (os : list occurrence) : list string * option ending :=
  match os with
  | [] => ([], None)
  | Next (Chunk c) :: os => let '(cs, how) := script os in (c :: cs, how)
  | Next NoMore :: _ => ([], Some (after_closing Exhausted))
  | Next (Fails e) :: _ => ([], Some (after_closing (Raised e)))
  | Next CancelledHere :: _ => ([], Some (after_closing Closed))
  | Leave :: _ => ([], Some Closed)
  end.

Lemma relay_folds chunks c yielded : relay c yielded chunks = (foldl feed c chunks, yielded ++ chunks).
Proof.
  revert c yielded. induction chunks as [|x chunks IH]; intros c yielded; simpl; [by rewrite app_nil_r|].
  by rewrite IH -app_assoc.
Qed.

Lemma iter_bytes_finally max_bytes chunks how :
  iter_bytes max_bytes on_finished chunks how
  = let '(calls, raised) := finally_block (foldl feed (AssistantCapture_init max_bytes) chunks) how in
    MkStreamRun chunks calls raised.
Proof.
  unfold iter_bytes, finally_block. rewrite relay_folds /=. destruct (if _ || _ then _ else _) as [[message st]|e]; [|done].
  by destruct (call_finished _ _ _).
Qed.

Lemma drive_done os r : rl_outer r = Done → drive os r = r.
Proof.
  intros H. unfold drive. induction os as [|o os IH]; simpl; [done|].
  assert (occur r o = r) as -> by (destruct o; unfold occur, next, leave; by rewrite H). exact IH.
Qed.

(** The event that ends the stream, and nothing happens after it. *)
Local Ltac ends os :=
  cbn [drive foldl occur next leave rl_outer rl_inner rl_response upstream_next upstream_leave
       UpstreamLLMStream_aclose us_closed us_closes];
  unfold after_closing; destruct closing as [e'|]; unfold end_relay; cbn [rl_capture rl_yielded rl_calls];
  destruct (finally_block _ _) as [calls raised] eqn:Ef; cbn;
  match goal with |- context [foldl occur ?r os] => change (foldl occur r os) with (drive os r) end;
  rewrite drive_done //= app_nil_r; by split_and!.

(** How a stream in which nothing has ended goes on. *)
Lemma drive_running os c yielded n :
  let '(chunks, ended) := script os in
  let r := drive os (MkRelay Suspended Suspended (MkUpstream false n) c yielded [] None) in
  rl_yielded r = yielded ++ chunks ∧
  match ended with
  | None => rl_outer r = Suspended ∧ rl_response r = MkUpstream false n ∧ rl_calls r = []
  | Some how => rl_outer r = Done ∧ rl_response r = MkUpstream true (S n) ∧
      (rl_calls r, rl_raised r) = finally_block (foldl feed c chunks) how
  end.
Proof.
  revert c yielded. induction os as [|[[s| |e|]|] os IH]; intros c yielded; cbn [script].
  - by rewrite app_nil_r.
  - specialize (IH (feed c s) (yielded ++ [s])). destruct (script os) as [cs ended]. cbn [drive foldl] in *.
    cbn. by rewrite -app_assoc in IH.
  - ends os.
  - ends os.
  - ends os.
  - ends os.
Qed.

(** Open, it has passed on what arrived; ended, it has done what [Capture.iter_bytes]
    does for the way it ended. *)
Lemma drive_iter_bytes (max_bytes : option Z) (os : list occurrence) :
  let r := drive os (PersistingLLMStream_init max_bytes) in
  match os with
  | Next _ :: _ =>
      match (script os).2 with
      | None => rl_outer r = Suspended ∧ us_closes (rl_response r) = 0%nat ∧
          rl_yielded r = (script os).1 ∧ rl_calls r = []
      | Some how => rl_outer r = Done ∧ us_closes (rl_response r) = 1%nat ∧
          MkStreamRun (rl_yielded r) (rl_calls r) (rl_raised r)
          = iter_bytes max_bytes on_finished (script os).1 how
      end
  | _ => us_closes (rl_response r) = 0%nat ∧ rl_yielded r = [] ∧ rl_calls r = []
  end.
Proof.
  destruct os as [|[a|] os]; cbn zeta; [done| |].
  2: { by rewrite /drive /= -/(drive os _) drive_done. }
  assert (drive (Next a :: os) (PersistingLLMStream_init max_bytes)
    = drive (Next a :: os) (MkRelay Suspended Suspended (MkUpstream false 0) (AssistantCapture_init max_bytes) [] [] None))
    as -> by done.
  pose proof (drive_running (Next a :: os) (AssistantCapture_init max_bytes) [] 0) as H.
  destruct (script (Next a :: os)) as [chunks ended]. cbn [fst snd]. destruct H as [Hy H].
  destruct ended as [how|]; [|by destruct H as (-> & -> & ->)]. destruct H as (-> & -> & Hf).
  split; [done|]. split; [done|]. rewrite iter_bytes_finally -Hf Hy. done.
Qed.

End streams.

(** ** Samples *)

#[local] Instance plain_utf8 : Utf8 := {| utf8_decode := λ s, s; json_loads_bytes := λ _, None |}.

(** The client leaves at the second chunk: the response is closed and nothing is
    kept.  An error of closing after the last chunk loses the answer as well. *)
Example stream_samples :
  let quiet := λ (_ : option obj) (_ : obj), Ok tt in
  let left := drive (host:=sample_host) None quiet [Next (Chunk "a"); Next (Chunk "b"); Leave] (PersistingLLMStream_init None) in
  let broken := drive (host:=sample_host) (Some HTTPError) quiet [Next (Chunk "a"); Next NoMore] (PersistingLLMStream_init None) in
  let unread := drive (host:=sample_host) None quiet [Leave; Next (Chunk "a")] (PersistingLLMStream_init None) in
  (us_closes (rl_response left), rl_yielded left, rl_calls left, rl_raised left) = (1%nat, ["a"; "b"], [(None, [])], None) ∧
  (us_closes (rl_response broken), rl_calls broken, rl_raised broken) = (1%nat, [(None, [])], Some HTTPError) ∧
  (us_closes (rl_response unread), rl_calls unread) = (0%nat, []).
Proof. vm_compute. auto. Qed.

