(* ===== verification/Http.v ===== *)
(** * Headers and responses ([providers/headers.py], [api/responses.py])

    The policy for forwarded response headers, and the responses the routes
    build.  A mapping of headers is a list of pairs with distinct names. *)

From S2P Require Import Prelude PyDict PyString Json Resilience Capture.
Local Open Scope Z_scope.

Definition headers : Type := list (string * string).

(** ** Header policy *)

Definition HOP_BY_HOP_HEADERS : list string :=
  ["connection"; "keep-alive"; "proxy-authenticate"; "proxy-authorization"; "te"; "trailer";
   "trailers"; "transfer-encoding"; "upgrade"].

Definition STRIPPED_RESPONSE_HEADERS : list string :=
  HOP_BY_HOP_HEADERS ++ ["content-length"; "set-cookie"].

Definition DEFAULT_CONTENT_TYPE : string := "application/json".

(** The value of the first header of that name, whatever the case. *)
Definition get_header (hs : headers) (name : string) : option string :=
  snd <$> head (filter (λ nv, lower nv.1 = lower name) hs).

(** The names that the header [Connection] lists. *)
Definition connection_named_headers (hs : headers) : list string :=
  match get_header hs "connection" with
  | None | Some EmptyString => []
  | Some value =>
      (λ token, lower (strip token)) <$>
        filter (λ token, snonempty (strip token) = true) (split_char (chr 44) value)
  end.

Definition stripped_names (hs : headers) (keep_content_encoding : bool) : list string :=
  STRIPPED_RESPONSE_HEADERS ++ connection_named_headers hs
  ++ (if keep_content_encoding then [] else ["content-encoding"]).

Definition filter_response_headers (hs : headers) (keep_content_encoding : bool) : headers :=
  filter (λ nv, lower nv.1 ∉ stripped_names hs keep_content_encoding) hs.

Definition has_content_type (hs : headers) : bool :=
  existsb (λ nv, bool_decide (lower nv.1 = "content-type")) hs.

Definition ensure_content_type (hs : headers) (dflt : string) : headers :=
  if has_content_type hs then hs else dset hs "Content-Type" dflt.

(** ** Responses *)

(** A body is forwarded bytes, a JSON document of the proxy, or a stream of
    which [raised] says how it broke off. *)
Inductive body : Type :=
| Bytes (content : string)
| Document (content : json)
| Streamed (chunks : list string) (raised : option exn).

Record Response : Type := MkResponse {
  rs_status : Z;
  rs_headers : headers;
  rs_body : body;
}.

Definition openai_error (message err_type : string) (code param : json) (status_code : Z)
    (hs : headers) : Response :=
  MkResponse status_code hs
    (Document (JObj [("error", JObj [("message", JStr message); ("type", JStr err_type);
                                     ("param", param); ("code", code)])])).

Definition upstream_response (status_code : Z) (hs : headers) (content : string) : Response :=
  MkResponse status_code (ensure_content_type hs DEFAULT_CONTENT_TYPE) (Bytes content).

(** [response.headers[name] = value] replaces every header of that name. *)
Definition set_header (name value : string) (r : Response) : Response :=
  MkResponse (rs_status r) (filter (λ nv, lower nv.1 ≠ lower name) (rs_headers r) ++ [(name, value)])
    (rs_body r).

(** The errors of the inference endpoint. *)
Inductive ContextProxyError : Type :=
| UpstreamHTTPError (status_code : Z) (content content_type : string) (hs : headers)
| UpstreamDown (message : string).

Section responses.
Context {utf8 : Utf8}.

Definition error_body_response (e : ContextProxyError) : Response :=
  match e with
  | UpstreamHTTPError status_code content content_type hs =>
      if startswith "application/json" content_type && bool_decide (json_loads_bytes content ≠ None)
      then MkResponse status_code (ensure_content_type hs content_type) (Bytes content)
      else openai_error "upstream inference endpoint returned an error" "upstream_error" JNull JNull
             status_code (filter (λ nv, lower nv.1 ≠ "content-type") hs)
  | UpstreamDown _ =>
      openai_error "upstream inference endpoint is unavailable" "api_error"
        (JStr "upstream_unavailable") JNull 502 []
  end.
End responses.

(** ** What is forwarded *)

Lemma get_header_in hs name value :
  get_header hs name = Some value → ∃ n, (n, value) ∈ hs ∧ lower n = lower name.
Proof.
  unfold get_header. destruct (filter _ hs) as [|[n v] l] eqn:E; [done|]. intros [= <-].
  assert ((n, v) ∈ filter (λ nv, lower nv.1 = lower name) hs) as Hin by (rewrite E; left).
  apply list_elem_of_filter in Hin as [Hn Hin]. by exists n.
Qed.

(** The header lists the name, in any case and spacing. *)
Definition connection_lists (value name : string) : Prop :=
  ∃ token, token ∈ split_char (chr 44) value ∧ snonempty (strip token) = true ∧
           lower (strip token) = lower name.

Lemma connection_named_spec hs name :
  lower name ∈ connection_named_headers hs ↔
  ∃ value, get_header hs "connection" = Some value ∧ connection_lists value name.
Proof.
  unfold connection_named_headers, connection_lists. destruct (get_header hs "connection") as [v|].
  - assert (lower name ∈ ((λ token, lower (strip token)) <$>
        filter (λ token, snonempty (strip token) = true) (split_char (chr 44) v)) ↔
      ∃ value, Some v = Some value ∧ ∃ token, token ∈ split_char (chr 44) value ∧
        snonempty (strip token) = true ∧ lower (strip token) = lower name) as H.
    { rewrite list_elem_of_fmap. setoid_rewrite list_elem_of_filter. naive_solver. }
    destruct v as [|c v]; [|exact H]. rewrite -H. vm_compute. done.
  - set_solver.
Qed.

(** What was filtered stays, unless the second pass is stricter. *)
Lemma filter_twice hs keep keep' :
  (keep' = false → keep = false) →
  filter_response_headers (filter_response_headers hs keep) keep' = filter_response_headers hs keep.
Proof.
  intros Hk. unfold filter_response_headers. set (kept := filter _ hs). rewrite filter_all //.
  apply Forall_forall. intros [n v] Hin.
  assert (∀ x, x ∈ kept → lower x.1 ∉ stripped_names hs keep) as Hkept.
  { intros x Hx. subst kept. by apply list_elem_of_filter in Hx as [? _]. }
  specialize (Hkept _ Hin) as Hn. unfold stripped_names in Hn |- *. cbn [fst] in *.
  apply not_elem_of_app in Hn as [H1 [_ H3]%not_elem_of_app].
  apply not_elem_of_app. split; [done|]. apply not_elem_of_app. split.
  - intros (listed & Hl%get_header_in & _)%connection_named_spec. destruct Hl as (c & Hc & Hlow).
    apply (Hkept _ Hc). cbn [fst]. rewrite Hlow.
    apply elem_of_app. left. change (lower "connection") with "connection". apply elem_of_app. left. left.
  - destruct keep'; [set_solver|]. by rewrite (Hk eq_refl) in H3.
Qed.

(** The forwarding policy.  The headers forwarded are, in their order, those
    of the upstream response except the hop-by-hop headers, those that its
    [Connection] header names, its cookies, its length and, for a body that was
    decompressed, its encoding, however the names are spelled; nothing is added
    or rewritten, and filtering twice is filtering once. *)
Theorem filter_response_headers_spec (hs : headers) (keep : bool) :
  let kept := filter_response_headers hs keep in
  sublist kept hs ∧
  (∀ name value, (name, value) ∈ kept ↔
     (name, value) ∈ hs ∧ lower name ∉ STRIPPED_RESPONSE_HEADERS ∧
     (∀ listed, get_header hs "connection" = Some listed → ¬ connection_lists listed name) ∧
     (keep = false → lower name ≠ "content-encoding")) ∧
  filter_response_headers kept keep = kept.
Proof.
  intros kept. subst kept. unfold filter_response_headers, stripped_names. split; [apply sublist_filter|].
  split.
  - generalize STRIPPED_RESPONSE_HEADERS. intros names name value. rewrite list_elem_of_filter. cbn [fst]. rewrite !not_elem_of_app connection_named_spec.
    split.
    + intros ((H1 & H2 & H3) & Hin). split_and!; [done|done| |intros ->; set_solver].
      intros listed Hl Hc. apply H2. by exists listed.
    + intros (Hin & H1 & H2 & H3). split_and!; [done| | |done].
      * intros (listed & Hl & Hc). by apply (H2 listed).
      * destruct keep; [set_solver|]. intros Hc%list_elem_of_singleton. by apply H3.
  - by apply filter_twice.
Qed.

Example filtered_headers :
  filter_response_headers [("Connection", "close, X-Trace"); ("x-trace", "1"); ("Retry-After", "7");
      ("Set-Cookie", "c"); ("Content-Encoding", "gzip")] false = [("Retry-After", "7")].
Proof. vm_compute. reflexivity. Qed.
