(* ===== verification/Identity.v ===== *)
(** * Conversation identity ([conversation/identity.py])

    Which conversation a request belongs to: an explicit id in the body or in
    [X-Conversation-ID], else a session header, else a fresh one. *)

From S2P Require Import Prelude PyDict PyString Json Memory Http.
Local Open Scope Z_scope.

(** [uuid.uuid5(_SESSION_NAMESPACE, token)] *)
Class SessionIds : Type := { uuid5_session : string → Z }.

Definition CONVERSATION_HEADER : string := "x-conversation-id".
Definition RESPONSE_CONVERSATION_HEADER : string := "X-Conversation-ID".

Record ConversationSettings : Type := MkConversationSettings {
  client_id_header : string;
  max_session_identity_chars : Z;
}.

Definition default_ConversationSettings : ConversationSettings :=
  MkConversationSettings "X-Session-ID" 128.

Section identity.
Context {host : Host} {uu : Uuids} {si : SessionIds}.

Definition _validated_explicit_id (raw : json) (max_chars : Z) : res string :=
  let too_long := InvalidConversationId
    ("conversation_id must be a short non-empty string (max " +:+ py_str (JInt max_chars)
     +:+ " characters)") in
  match raw with
  | JStr s =>
      if negb (snonempty s) || (max_chars <? slen s) then Err too_long
      else match uuid_parse s with
           | Some id => Ok (uuid_str id)
           | None => Err (InvalidConversationId ("invalid conversation_id: " +:+ repr_str s))
           end
  | _ => Err too_long
  end.

Definition _session_conversation_id (token : string) (max_chars : Z) : res string :=
  let token := strip token in
  if negb (snonempty token) || (max_chars <? slen token)
  then Err (InvalidConversationId
         ("session identity header must be a short non-empty string (max "
          +:+ py_str (JInt max_chars) +:+ " characters)"))
  else Ok (uuid_str (uuid5_session token)).

(** [request.headers.get(name)] *)
Definition header_json (hs : headers) (name : string) : json :=
  match get_header hs name with Some v => JStr v | None => JNull end.

(** [fresh] is what [uuid4()] would draw; the flag says whether it was drawn. *)
Definition resolve_conversation_id (hs : headers) (payload : obj) (settings : ConversationSettings)
    (fresh : Z) : res (string * obj * bool) :=
  let max_chars := max_session_identity_chars settings in
  let sanitized := ddel payload "conversation_id" in
  let raw := py_or (oget payload "conversation_id") (header_json hs CONVERSATION_HEADER) in
  if negb (is_none raw) then
    id ← _validated_explicit_id raw max_chars; Ok (id, sanitized, false)
  else
    match (if snonempty (client_id_header settings)
           then get_header hs (lower (client_id_header settings)) else None) with
    | Some (String _ _ as token) =>
        id ← _session_conversation_id token max_chars; Ok (id, sanitized, false)
    | _ => Ok (uuid_str fresh, sanitized, true)
    end.

(** Identity is stable and canonical.  The field [conversation_id] never
    reaches the rest of the program and nothing else of the payload changes.
    An explicit id, of the body before that of the header, is accepted exactly
    when it is a short text that parses as a UUID, and every spelling of that
    UUID names the same conversation; without one, the session header decides,
    whatever space surrounds it; only a request without identity gets a fresh
    conversation. *)
Theorem resolve_conversation_id_spec (laws : UuidLaws) (hs : headers) (payload : obj)
    (settings : ConversationSettings) (fresh : Z) :
  dwf payload →
  let explicit := py_or (oget payload "conversation_id") (header_json hs CONVERSATION_HEADER) in
  let token := if snonempty (client_id_header settings)
               then default EmptyString (get_header hs (lower (client_id_header settings)))
               else EmptyString in
  match resolve_conversation_id hs payload settings fresh with
  | Ok (id, payload', drawn) =>
      dget payload' "conversation_id" = None ∧
      (∀ k, k ≠ "conversation_id" → dget payload' k = dget payload k) ∧
      ((∃ s u, explicit = JStr s ∧ uuid_parse s = Some u ∧ uuid_parse id = Some u ∧
          0 < slen s ≤ max_session_identity_chars settings ∧ drawn = false) ∨
       (explicit = JNull ∧ 0 < slen (strip token) ≤ max_session_identity_chars settings ∧
          id = uuid_str (uuid5_session (strip token)) ∧ drawn = false) ∨
       (explicit = JNull ∧ token = EmptyString ∧ id = uuid_str fresh ∧ drawn = true))
  | Err e =>
      (∃ m, e = InvalidConversationId m) ∧
      ((explicit ≠ JNull ∧
          ∀ s u, explicit = JStr s → uuid_parse s = Some u →
            max_session_identity_chars settings < slen s ∨ s = EmptyString) ∨
       (explicit = JNull ∧ token ≠ EmptyString ∧
          (strip token = EmptyString ∨ max_session_identity_chars settings < slen (strip token))))
  end.
Proof.
  intros Hwf explicit token. unfold resolve_conversation_id. fold explicit.
  assert (∀ s, snonempty s = true → 0 < slen s) as Hlen.
  { intros [|c s]; [done|]. unfold slen. simpl. lia. }
  assert (dget (ddel payload "conversation_id") "conversation_id" = None ∧
    (∀ k, k ≠ "conversation_id" → dget (ddel payload "conversation_id") k = dget payload k)) as [Hd1 Hd2].
  { split; [by apply dget_ddel_eq|]. intros k Hk. by rewrite dget_ddel_ne. }
  destruct (is_none explicit) eqn:En; simpl.
  - assert (explicit = JNull) as He by by destruct explicit. clearbody explicit.
    subst token. destruct (if snonempty _ then get_header _ _ else None) as [[|c t]|] eqn:Et.
    + split_and!; [done..|]. right. right. destruct (snonempty _); rewrite ?Et; done.
    + assert (snonempty (client_id_header settings) = true) as Hs by by destruct (snonempty _).
      rewrite Hs in Et |- *. rewrite Et. cbn [default from_option id]. unfold _session_conversation_id.
      destruct (snonempty (strip (String c t))) eqn:Est; simpl.
      * destruct (Z.ltb_spec (max_session_identity_chars settings) (slen (strip (String c t)))); simpl.
        -- split; [by eexists|]. right. split_and!; [done|done|by right].
        -- split_and!; [done..|]. right. left. split_and!; try done. by apply Hlen.
      * split; [by eexists|]. right. split_and!; [done|done|]. left. by destruct (strip (String c t)).
    + split_and!; [done..|]. right. right. destruct (snonempty _); rewrite ?Et; done.
  - assert (explicit ≠ JNull) as He by by intros E; rewrite E in En. clearbody explicit.
    unfold _validated_explicit_id.
    destruct explicit as [|b|z|q|s|l|d]; try done; simpl;
      try (split; [by eexists|left; split; [done|]; by intros ? ? [=]]).
    destruct (snonempty s) eqn:Es; simpl.
    + destruct (Z.ltb_spec (max_session_identity_chars settings) (slen s)); simpl.
      * split; [by eexists|]. left. split; [done|]. intros s' u [= <-] _. by left.
      * destruct (uuid_parse s) as [u|] eqn:Eu; simpl.
        -- split_and!; [done..|]. left. exists s, u. rewrite uuid_parse_str. split_and!; try done. by apply Hlen.
        -- split; [by eexists|]. left. split; [done|]. intros s' u [= <-]. congruence.
    + split; [by eexists|]. left. split; [done|]. intros s' u [= <-] _. right. by destruct s.
Qed.
End identity.

#[local] Existing Instances sample_host sample_uuids.
#[local] Instance sample_sessions : SessionIds := {| uuid5_session := slen |}.

Lemma resolve_conversation_id_spec_witness :
  let payload := [("conversation_id", JStr (unary_str 2)); ("model", JStr "m")] in
  dwf payload ∧
  resolve_conversation_id [("X-Conversation-ID", unary_str 1)] payload default_ConversationSettings 9
  = Ok (unary_str 2, [("model", JStr "m")], false) ∧
  dget [("model", JStr "m")] "conversation_id" = None.
Proof.
  assert (dwf [("conversation_id", JStr (unary_str 2)); ("model", JStr "m")]) as Hwf
    by (unfold dwf; by apply (bool_decide_unpack _)).
  split; [exact Hwf|]. split; [vm_compute; reflexivity|].
  pose proof (resolve_conversation_id_spec sample_uuid_laws [("X-Conversation-ID", unary_str 1)] _
    default_ConversationSettings 9 Hwf) as H.
  assert (resolve_conversation_id [("X-Conversation-ID", unary_str 1)]
    [("conversation_id", JStr (unary_str 2)); ("model", JStr "m")] default_ConversationSettings 9
    = Ok (unary_str 2, [("model", JStr "m")], false)) as E by (vm_compute; reflexivity).
  cbv zeta in H. rewrite E in H. exact (proj1 H).
Defined.
