(* ===== verification/Provider.v ===== *)
(** * The inference provider ([providers/llm.py], [providers/base.py])

    What the routes rely on is the class [LLMProvider]; the provider of the
    program is the instance built from the send path of [Resilience] and the
    header policy of [Http]. *)

From Stdlib Require Import QArith.
From S2P Require Import Prelude PyDict PyString Json Resilience Capture Http.
Local Open Scope Z_scope.

(** ** The interface *)

(** The handle of an open stream: what the upstream sent and how it ends. *)
Record LLMStream : Type := MkLLMStream {
  ls_status : Z;
  ls_headers : headers;
  ls_chunks : list string;
  ls_ending : ending;
}.

Definition media_type (s : LLMStream) : string :=
  match get_header (ls_headers s) "content-type" with
  | None | Some EmptyString => "text/event-stream"
  | Some v => v
  end.

Definition passthrough_headers (s : LLMStream) : headers := filter_response_headers (ls_headers s) true.

(** A buffered answer: status, headers, body. *)
Definition answer : Type := Z * headers * string.

(** Every operation returns, raises an error of the proxy ([inr]), or raises
    something else ([Err]). *)
Class LLMProvider (S : Type) : Type := {
  llm_list_models : S → res (answer + ContextProxyError) * S;
  llm_complete : obj → S → res (answer + ContextProxyError) * S;
  llm_open_stream : obj → S → res (LLMStream + ContextProxyError) * S;
}.

(** What an implementation promises: an answer is not an error status, and its
    headers are safe to forward. *)
Class LLMProviderLaws (S : Type) `{LLMProvider S} : Prop := {
  llm_complete_ok : ∀ payload s status hs content s',
    llm_complete payload s = (Ok (inl (status, hs, content)), s') →
    status < 400 ∧ filter_response_headers hs true = hs;
  llm_stream_ok : ∀ payload s stream s',
    llm_open_stream payload s = (Ok (inl stream), s') → ls_status stream < 400;
}.

(** ** The implementation *)

Record ResilienceSettings : Type := MkResilienceSettings {
  max_retries : Z;
  backoff_base_seconds : Q;
  backoff_max_seconds : Q;
  breaker_failure_threshold : Z;
  breaker_reset_seconds : Q;
}.

Definition default_ResilienceSettings : ResilienceSettings :=
  MkResilienceSettings 2 (2 # 10) 2 5 30.

(** The request that goes over the wire. *)
Inductive wire_request : Type := GetModels | PostCompletions (payload : obj) (stream : bool).

Definition is_streaming (r : wire_request) : bool :=
  match r with PostCompletions _ b => b | GetModels => false end.

(** The upstream endpoint, the random numbers and the clock are given from
    outside, per request; the state is the breaker, the number of requests and
    every send so far. *)
Record Upstream : Type := MkUpstream {
  us_network : nat → nat → wire_request → outcome LLMStream;
  us_random : nat → nat → Q;
  us_started : nat → Q;
  us_ended : nat → Q;
}.

Record ProviderState : Type := MkProviderState {
  ps_breaker : CircuitBreaker;
  ps_requests : nat;
  ps_sends : list wire_request;
}.

Section provider.
Context (settings : ResilienceSettings) (up : Upstream).

(** [_resilient_send]; an error that is neither classified nor handled, which
    the model has no name for, is [RuntimeError]. *)
Definition resilient_send (r : wire_request) (s : ProviderState)
    : res (LLMStream + ContextProxyError) * ProviderState :=
  let n := ps_requests s in
  match _resilient_send (λ attempt, us_network up n attempt r) (us_random up n)
          (backoff_base_seconds settings) (backoff_max_seconds settings) (max_retries settings)
          (us_started up n) (us_ended up n) (ps_breaker s) with
  | Err e => (Err e, MkProviderState (ps_breaker s) (S n) (ps_sends s))
  | Ok (result, calls, b) =>
      (match result with
       | inl reply => Ok (inl reply)
       | inr (UpstreamUnavailable m) => Ok (inr (UpstreamDown m))
       | inr Reraised => Err RuntimeError
       end, MkProviderState b (S n) (ps_sends s ++ replicate calls r))
  end.

Definition http_error (reply : LLMStream) : ContextProxyError :=
  UpstreamHTTPError (ls_status reply) (join EmptyString (ls_chunks reply))
    (default DEFAULT_CONTENT_TYPE (get_header (ls_headers reply) "content-type"))
    (filter_response_headers (ls_headers reply) false).

Definition _send (r : wire_request) (s : ProviderState)
    : res (LLMStream + ContextProxyError) * ProviderState :=
  let '(result, s) := resilient_send r s in
  (result ← result;
   match result with
   | inl reply => if 400 <=? ls_status reply then Ok (inr (http_error reply)) else Ok (inl reply)
   | inr e => Ok (inr e)
   end, s).

Definition _pack (reply : LLMStream) : answer :=
  (ls_status reply, filter_response_headers (ls_headers reply) false,
   join EmptyString (ls_chunks reply)).

Definition packed_send (r : wire_request) (s : ProviderState)
    : res (answer + ContextProxyError) * ProviderState :=
  let '(result, s) := _send r s in
  (result ← result;
   match result with inl reply => Ok (inl (_pack reply)) | inr e => Ok (inr e) end, s).

Definition list_models (s : ProviderState) : res (answer + ContextProxyError) * ProviderState :=
  packed_send GetModels s.

Definition complete (payload : obj) (s : ProviderState)
    : res (answer + ContextProxyError) * ProviderState :=
  packed_send (PostCompletions payload false) s.

(** The body of an error status is read from the stream, which may break off. *)
Definition open_stream (payload : obj) (s : ProviderState)
    : res (LLMStream + ContextProxyError) * ProviderState :=
  let '(result, s) := resilient_send (PostCompletions payload true) s in
  (result ← result;
   match result with
   | inl reply =>
       if 400 <=? ls_status reply
       then match ls_ending reply with Raised e => Err e | _ => Ok (inr (http_error reply)) end
       else Ok (inl reply)
   | inr e => Ok (inr e)
   end, s).

#[export] Instance openai_compatible : LLMProvider ProviderState := {|
  llm_list_models := list_models;
  llm_complete := complete;
  llm_open_stream := open_stream;
|}.

(** *** The promises *)

#[export] Instance openai_compatible_laws : LLMProviderLaws ProviderState.
Proof.
  split.
  - intros payload s status hs content s'. simpl. unfold complete, packed_send, _send.
    destruct (resilient_send _ s) as [result s1]. intros [= Hr <-]. inv_res.
    destruct a0 as [reply|]; [|by simplify_eq].
    destruct (Z.leb_spec 400 (ls_status reply)); simplify_eq.
    split; [done|by apply filter_twice].
  - intros payload s stream s'. simpl. unfold open_stream.
    destruct (resilient_send _ s) as [result s1]. intros [= Hr <-]. inv_res.
    destruct a as [reply|]; [|by simplify_eq].
    destruct (Z.leb_spec 400 (ls_status reply)); [by case_match|]. by simplify_eq.
Qed.

(** A completion sends what it should and reports what came.  A refused
    request sends nothing; otherwise at most [max_retries] + 1 identical posts of
    the payload go out, the earlier ones ending in connection failures.  Any
    answer, an error status too, is taken at once and leaves the circuit closed;
    below 400 its status and body are returned as they are, from 400 on they are
    raised, in both cases with the headers that may be forwarded. *)
Theorem complete_spec (payload : obj) (s : ProviderState) :
  0 ≤ max_retries settings →
  let n := ps_requests s in
  let post := PostCompletions payload false in
  let '(r, s') := complete payload s in
  ∃ calls, ps_sends s' = ps_sends s ++ replicate calls post ∧
    Z.of_nat calls ≤ max_retries settings + 1 ∧
    ((allow_attempt (us_started up n) (ps_breaker s)).1 = false →
       calls = 0%nat ∧ ∃ m, r = Ok (inr (UpstreamDown m))) ∧
    ((allow_attempt (us_started up n) (ps_breaker s)).1 = true →
       ∃ last, calls = S last ∧
         (∀ i, (i < last)%nat → retryable (us_network up n i post) = true) ∧
         match us_network up n last post with
         | Answer reply =>
             b_state (ps_breaker s') = CLOSED ∧ b_consecutive_failures (ps_breaker s') = 0 ∧
             r = Ok (if 400 <=? ls_status reply then inr (http_error reply) else inl (_pack reply))
         | Interrupted => r = Err RuntimeError
         | ConnectFailure _ => Z.of_nat last = max_retries settings ∧ ∃ m, r = Ok (inr (UpstreamDown m))
         | _ => ∃ m, r = Ok (inr (UpstreamDown m))
         end).
Proof.
  intros Hm n post. unfold complete, packed_send, _send, resilient_send, _resilient_send. fold n post.
  destruct (allow_attempt (us_started up n) (ps_breaker s)) as [[] b]; simpl.
  - unfold with_retries. destruct (Z.ltb_spec (max_retries settings) 0); [lia|]. simpl.
    destruct (retry_loop _ _ _ _ 0 _) as [[o d] calls] eqn:E. simpl.
    destruct (retry_loop_spec _ _ _ _ _ _ _ _ _ E) as (Hc & _ & Ho & Hi & Hlast). simpl in Ho, Hi.
    exists calls. split; [done|]. split; [lia|]. split; [done|]. intros _.
    exists (pred calls). split; [lia|]. split; [intros i Hlt; by apply Hi|].
    rewrite -Ho. destruct o as [reply|m|m|m|]; simpl; eauto.
    + split_and!.
      * unfold record_success. by case_bool_decide.
      * done.
      * by destruct (400 <=? ls_status reply).
    + split; [|eauto]. destruct (decide (calls < S (Z.to_nat (max_retries settings)))%nat) as [Hlt|]; [|lia].
      by apply Hlast in Hlt.
  - exists 0%nat. rewrite app_nil_r. split; [done|]. split; [lia|]. split; [eauto|done].
Qed.
End provider.

Definition sample_reply (status : Z) : LLMStream :=
  MkLLMStream status [("Content-Type", "text/plain"); ("TE", "x")] ["no"; "pe"] Exhausted.

(** The first attempt does not connect, the second is answered with 503. *)
Definition sample_upstream : Upstream :=
  MkUpstream (λ _ attempt _, match attempt with O => ConnectFailure "refused" | _ => Answer (sample_reply 503) end)
    (λ _ _, 0%Q) (λ _, 0%Q) (λ _, 1%Q).

Definition sample_provider : ProviderState :=
  MkProviderState (MkBreaker 5 30 CLOSED 4 0 false) 0 [].

Lemma complete_spec_witness :
  let '(r, s') := complete default_ResilienceSettings sample_upstream [] sample_provider in
  r = Ok (inr (UpstreamHTTPError 503 "nope" "text/plain" [("Content-Type", "text/plain")])) ∧
  ∃ calls, ps_sends s' = replicate calls (PostCompletions [] false) ∧ Z.of_nat calls ≤ 2 + 1.
Proof.
  pose proof (complete_spec default_ResilienceSettings sample_upstream [] sample_provider
    ltac:(vm_compute; discriminate)) as H. cbv zeta in H.
  destruct (complete _ _ _ _) as [r s'] eqn:E. split.
  - vm_compute in E. injection E as <- _. reflexivity.
  - destruct H as (calls & H1 & H2 & _). exists calls. split; [exact H1|exact H2].
Defined.
