(* ===== verification/Routes.v ===== *)
(** * The public routes ([api/routes.py])

    [chat_completions] composes the components: validation, identity, inbound
    reconciliation, retrieval and assembly of the context, the inference call,
    and the persistence and indexing of the answer.  It is a computation over
    the tables, the services and the provider's state; the model runs one
    request at a time, and a stream to its end. *)

From stdpp Require Import gmap.
From Stdlib Require Import QArith.
From S2P Require Import Prelude PyDict PyString Json Tokens Planner Reconciliation Candidates Engine.
From S2P Require Import Store Validation Resilience Memory Services Retrieval Capture Http Identity Provider.
Local Open Scope Z_scope.

(** ** Application and request *)

(** [app.state] with the settings the route reads; without a database there is
    neither a store nor a memory service. *)
Record App : Type := MkApp {
  ap_store : bool;
  ap_memory : option MemoryService;
  ap_engine : option ContextAssemblyEngine;
  ap_usable_budget : Z;
  ap_pinned_budget : Z;
  ap_auto_index : bool;
  ap_max_capture_bytes : option Z;
  ap_conversation : ConversationSettings;
}.

(** A request, the clock, and whether PostgreSQL answers at each of the three
    points where the route needs it.  [rq_body] is [None] where the body is not
    JSON, for the reason given. *)
Record Request : Type := MkRequest {
  rq_body : json + string;
  rq_headers : headers;
  rq_now : Q;
  rq_stamp : Z;
  rq_inbound_up : bool;
  rq_retrieval_up : bool;
  rq_persist_up : bool;
}.

(** The tables and services, the provider, the payloads handed to it, and the
    usage objects counted by [record_tokens]. *)
Record Proxy (S : Type) : Type := MkProxy {
  px_world : World;
  px_llm : S;
  px_sent : list obj;
  px_usage : list json;
}.
Arguments MkProxy {S}.
Arguments px_world {S}.
Arguments px_llm {S}.
Arguments px_sent {S}.
Arguments px_usage {S}.

Section monad.
Context {S : Type}.

Definition proxy_io (A : Type) : Type := Proxy S → res A * Proxy S.

#[global] Instance pio_ret : MRet proxy_io := λ A a w, (Ok a, w).
#[global] Instance pio_bind : MBind proxy_io := λ A B f m w,
  match m w with
  | (Ok a, w') => f a w'
  | (Err e, w') => (Err e, w')
  end.

Definition pio_res {A} (r : res A) : proxy_io A := λ w, (r, w).

(** [try: m], with the outcome as a value. *)
Definition attempt {A} (m : proxy_io A) : proxy_io (res A) := λ w, let '(r, w') := m w in (Ok r, w').

Definition on_world {A} (m : io A) : proxy_io A := λ w,
  let '(r, world) := m (px_world w) in
  (r, MkProxy world (px_llm w) (px_sent w) (px_usage w)).

Definition record_tokens (usage : json) : proxy_io unit := λ w,
  (Ok tt, MkProxy (px_world w) (px_llm w) (px_sent w) (px_usage w ++ [usage])).
End monad.
Arguments proxy_io : clear implicits.

(** A transaction of the store; nothing happens when PostgreSQL is down. *)
Definition on_store {A} (up : bool) (f : DB → res A * DB) : io A :=
  if up then on_tables (λ st,
    let '(r, db) := f (me_db st) in
    (r, MkMemDB db (me_watermarks st) (me_chunks st) (me_memories st)))
  else io_raise PostgresError.

(** [_PERSISTENCE_INFRA_ERRORS] *)
Definition infrastructure_error (e : exn) : bool :=
  match e with PostgresError | DataError => true | _ => false end.

(** The text of the [ValueError]s that make a request a client error. *)
Definition value_error (e : exn) : option string :=
  match e with
  | ValueError m | PayloadValidationError m | InvalidConversationId m => Some m
  | _ => None
  end.

Section routes.
Context {host : Host} {pg : Postgres} {uu : Uuids} {si : SessionIds} {se : Search} {utf8 : Utf8}.
Context {S : Type} {llm : LLMProvider S}.
Context (server : nat → request → reply) (app : App) (rq : Request).

Local Notation pio := (proxy_io S).

(** ** Text of the errors shown to the client *)

Definition divergence_text (conversation_id : string) (index : nat)
    (diagnostics : option (string * string * list string)) : string :=
  "conversation " +:+ conversation_id +:+ ": incoming message " +:+ py_str (JInt (Z.of_nat index))
  +:+ " diverges from persisted history"
  +:+ match diagnostics with
      | Some (persisted, incoming, fields) =>
          " [persisted_sha256=" +:+ persisted +:+ " incoming_sha256=" +:+ incoming
          +:+ " different_fields=" +:+ py_str (JList (JStr <$> fields)) +:+ "]"
      | None => EmptyString
      end.

Definition overflow_text (subject : string) (required usable : Z) : string :=
  subject +:+ " requires " +:+ py_str (JInt required) +:+ " tokens, usable budget is "
  +:+ py_str (JInt usable).

Definition client_error (message code : string) (param : json) (status : Z) (hs : headers) : Response :=
  openai_error message "invalid_request_error" (JStr code) param status hs.

(** ** The steps *)

Definition parse_json_body : res obj :=
  match rq_body rq with
  | inl (JObj payload) => Ok payload
  | inl _ => Err (ValueError "request body must be a JSON object")
  | inr reason => Err (ValueError ("invalid JSON body: " +:+ reason))
  end.

Definition read_payload : res obj :=
  payload ← parse_json_body;
  _ ← validate_chat_payload (JObj payload);
  Ok payload.

(** Identity; a fresh id is drawn from the same source as the others. *)
Definition identify (payload : obj) : pio (string * obj) :=
  world ← on_world (read_tables id);
  let fresh := uuid_at (db_draws (me_db world)) in
  found ← pio_res (resolve_conversation_id (rq_headers rq) payload (ap_conversation app) fresh);
  let '(id, payload, drawn) := found in
  _ ← (if (drawn : bool)
       then on_world (on_tables (λ st, (Ok tt, MkMemDB (bump (me_db st)) (me_watermarks st)
                                             (me_chunks st) (me_memories st))))
       else mret tt);
  mret (id, payload).

Definition _conversation_headers (conversation_id : string) : headers :=
  [(RESPONSE_CONVERSATION_HEADER, conversation_id)].

(** [payload.get("messages") or []]; validation has made it a list of dicts. *)
Definition messages_of (payload : obj) : list obj :=
  match oget payload "messages" with JList l => dict_of <$> l | _ => [] end.

(** Step 1: whether the store is still in use, or the response that ends the
    request. *)
Definition inbound_persistence (c : string) (messages : list obj) : pio (bool + Response) :=
  if ap_store app then
    r ← attempt
      (_ ← on_world (on_store (rq_inbound_up rq) (ensure_conversation c));
       on_world (on_store (rq_inbound_up rq) (reconcile_history (rq_stamp rq) c messages None)));
    match r with
    | Ok _ => mret (inl true)
    | Err (HistoryDivergenceError c' index diagnostics) =>
        mret (inr (client_error (divergence_text c' index diagnostics) "history_conflict" JNull 409
                     (_conversation_headers c)))
    | Err e => if infrastructure_error e then mret (inl false) else pio_res (Err e)
    end
  else mret (inl false).

Definition retrieve_items (c : string) (messages : list obj) : pio (list RetrievedItem) :=
  let query := extract_retrieval_query messages in
  match ap_memory app with
  | Some memory =>
      if snonempty query then
        r ← attempt (on_world (retrieve server memory (rq_retrieval_up rq) (rq_now rq) query c None));
        match r with
        | Ok items => mret items
        | Err RetrievalError => mret []
        | Err e => pio_res (Err e)
        end
      else mret []
  | None => mret []
  end.

(** Step 2: the messages of the plan, from the engine or the window planner. *)
Definition plan_messages_for (c : string) (messages : list obj) (tools : json) : pio (list obj) :=
  match ap_engine app with
  | Some engine =>
      retrieved ← retrieve_items c messages;
      split ← pio_res (separate_current_request messages);
      plan ← pio_res (build engine split.1 split.2 tools [] retrieved ∅ (Some c));
      mret (ep_messages plan)
  | None =>
      split ← pio_res (separate_current_request messages);
      plan ← pio_res (plan_context split.1 split.2 tools (ap_usable_budget app) (ap_pinned_budget app));
      mret (plan_messages plan)
  end.

Definition assemble (c : string) (messages : list obj) (tools : json) : pio (list obj + Response) :=
  r ← attempt (plan_messages_for c messages tools);
  let refuse text := mret (inr (client_error text "context_length_exceeded" (JStr "messages") 400
                                  (_conversation_headers c))) in
  match r with
  | Ok out => mret (inl out)
  | Err (PlannerOverflowError required usable) => refuse (overflow_text "request" required usable)
  | Err (EngineOverflowError required usable) => refuse (overflow_text "context" required usable)
  | Err e => pio_res (Err e)
  end.

(** *** After the answer *)

(** Every exception of the indexing is logged; its timeout is not modelled. *)
Definition index_memory (c : string) : pio unit :=
  match ap_memory app with
  | Some memory =>
      if ap_auto_index app
      then _ ← attempt (on_world (index_completed_turns server memory (rq_now rq) c)); mret tt
      else mret tt
  | None => mret tt
  end.

(** A message that is not an object is not reconciled: [dict(message)] in
    [canonical_message], or the insertion, raises and the transaction is rolled
    back.  (An array that [dict] accepts is treated like the others.) *)
Definition store_answer (store : bool) (c : string) (messages : list obj)
    (message : json) (metadata : option obj) : pio unit :=
  match message with
  | JNull => mret tt
  | _ =>
      if (store : bool) then
        r ← attempt
          (match message with
           | JObj m => on_world (on_store (rq_persist_up rq)
                         (reconcile_history (rq_stamp rq) c (messages ++ [m]) metadata))
           | _ => on_world (on_store (rq_persist_up rq) (λ db, (Err AttributeError, db)))
           end);
        match r with
        | Ok _ => index_memory c
        | Err (HistoryDivergenceError _ _ _) => mret tt
        | Err e => if infrastructure_error e then mret tt else pio_res (Err e)
        end
      else mret tt
  end.

Definition persist_assistant (store : bool) (c : string) (messages : list obj)
    (message : json) (metadata : option obj) : pio unit :=
  _ ← record_tokens match metadata with Some md => oget md "usage" | None => JNull end;
  store_answer store c messages message metadata.

(** The message and metadata of a buffered answer, [None] where reading them
    raises. *)
Definition buffered_message (content : string) : option (json * obj) :=
  match json_loads_bytes content with
  | Some (JObj parsed) =>
      match dget parsed "choices" with
      | Some (JList (JObj choice :: _)) =>
          message ← dget choice "message";
          let add (d : obj) k v := if is_none v then d else d ++ [(k, v)] in
          Some (message,
            add (add (add [] "finish_reason" (oget choice "finish_reason"))
                   "usage" (oget parsed "usage")) "model" (oget parsed "model"))
      | _ => None
      end
  | _ => None
  end.

(** [metadata or None] *)
Definition or_no_metadata (metadata : obj) : option obj :=
  match metadata with [] => None | _ => Some metadata end.

(** *** The upstream call *)

Definition call_llm {A} (f : obj → S → res A * S) (payload : obj) : pio A := λ w,
  let '(r, s) := f payload (px_llm w) in
  (r, MkProxy (px_world w) s (px_sent w ++ [payload]) (px_usage w)).

(** The callback of the stream: whatever it raises is logged. *)
Definition run_callbacks (store : bool) (c : string) (messages : list obj)
    (calls : list (option obj * obj)) : pio unit :=
  foldr (λ call rest,
    _ ← attempt (persist_assistant store c messages (from_option JObj JNull call.1) (Some call.2));
    rest) (mret tt) calls.

Definition streaming_response (stream : LLMStream) (run : stream_run) : Response :=
  let hs := passthrough_headers stream in
  MkResponse (ls_status stream)
    (if has_content_type hs then hs else dset hs "Content-Type" "text/event-stream")
    (Streamed (sr_yielded run) (sr_raised run)).

Definition forward_stream (store : bool) (c : string) (messages : list obj) (out : obj)
    : pio Response :=
  opened ← call_llm llm_open_stream out;
  match opened with
  | inr e => mret (error_body_response e)
  | inl stream =>
      let run := iter_bytes (ap_max_capture_bytes app) (λ _ _, Ok tt) (ls_chunks stream)
                   (ls_ending stream) in
      _ ← run_callbacks store c messages (sr_calls run);
      mret (set_header RESPONSE_CONVERSATION_HEADER c (streaming_response stream run))
  end.

Definition forward_buffered (store : bool) (c : string) (messages : list obj) (out : obj)
    : pio Response :=
  completed ← call_llm llm_complete out;
  match completed with
  | inr e => mret (error_body_response e)
  | inl (status, hs, content) =>
      _ ← (if (200 <=? status) && (status <? 300) then
             match buffered_message content with
             | Some (message, metadata) =>
                 persist_assistant store c messages message (or_no_metadata metadata)
             | None => mret tt
             end
           else mret tt);
      mret (set_header RESPONSE_CONVERSATION_HEADER c (upstream_response status hs content))
  end.

Definition is_true (v : json) : bool := match v with JBool true => true | _ => false end.

Definition outgoing (payload : obj) (messages : list obj) : obj :=
  dset payload "messages" (JList (JObj <$> messages)).

Definition forward (store : bool) (c : string) (payload : obj) (out : list obj) : pio Response :=
  let messages := messages_of payload in
  if is_true (oget payload "stream")
  then forward_stream store c messages (outgoing payload out)
  else forward_buffered store c messages (outgoing payload out).

(** ** The routes *)

(** Everything after the identity of the conversation. *)
Definition serve (c : string) (payload : obj) : pio Response :=
  let messages := messages_of payload in
  stored ← inbound_persistence c messages;
  match stored with
  | inr response => mret response
  | inl store =>
      assembled ← assemble c messages (oget payload "tools");
      match assembled with
      | inr response => mret response
      | inl out => forward store c payload out
      end
  end.

Definition list_models : pio Response := λ w,
  let '(listed, s) := llm_list_models (px_llm w) in
  (match listed with
   | Ok (inl (status, hs, content)) => Ok (upstream_response status hs content)
   | Ok (inr e) => Ok (error_body_response e)
   | Err e => Err e
   end, MkProxy (px_world w) s (px_sent w) (px_usage w)).

Definition chat_completions : pio Response :=
  match read_payload with
  | Err e => match value_error e with
             | Some text => mret (client_error text "invalid_request_body" JNull 400 [])
             | None => pio_res (Err e)
             end
  | Ok payload =>
      identified ← attempt (identify payload);
      match identified with
      | Err (InvalidConversationId text) =>
          mret (client_error text "invalid_conversation_id" JNull 400 [])
      | Err e => pio_res (Err e)
      | Ok (c, payload) => serve c payload
      end
  end.
End routes.

(** ** What a request may change *)

Section pres.
Context {S : Type} (R : Proxy S → Proxy S → Prop) `{!PreOrder R}.

(** The relation holds between the states before and after, whether or not the
    computation raises. *)
Definition pres {A} (m : proxy_io S A) : Prop := ∀ w, R w (m w).2.

Lemma pres_ret {A} (a : A) : pres (mret a).
Proof. intros w. reflexivity. Qed.

Lemma pres_res {A} (r : res A) : pres (pio_res r).
Proof. intros w. reflexivity. Qed.

Lemma pres_bind {A B} (m : proxy_io S A) (f : A → proxy_io S B) :
  pres m → (∀ a, pres (f a)) → pres (m ≫= f).
Proof.
  intros Hm Hf w. unfold mbind, pio_bind. specialize (Hm w). destruct (m w) as [[a|e] w']; [|done].
  etrans; [exact Hm|apply Hf].
Qed.

Lemma pres_attempt {A} (m : proxy_io S A) : pres m → pres (attempt m).
Proof. intros Hm w. unfold attempt. specialize (Hm w). by destruct (m w). Qed.
End pres.

Create HintDb pio.
#[export] Hint Resolve pres_ret pres_res pres_attempt : pio.

(** Parsed JSON has distinct keys. *)
Class JsonLaws `{Host, Utf8} : Prop := {
  json_loads_wf : ∀ s v, json_loads s = Some v → json_wf v;
  json_loads_bytes_wf : ∀ s v, json_loads_bytes s = Some v → json_wf v;
}.

Section growth.
Context {host : Host} {pg : Postgres} {laws : PostgresLaws} {uu : Uuids}.

(** One conversation may grow; nothing stored changes, and all invariants of the
    tables and of the vector index hold. *)
Record grows (c : string) (w w' : World) : Prop := {
  gr_index : index_ok w';
  gr_extends : extends (me_db (w_mem w)) (me_db (w_mem w'));
  gr_others : ∀ c', c' ≠ c → rows_of (me_db (w_mem w')) c' = rows_of (me_db (w_mem w)) c';
}.

Lemma grows_refl c w : index_ok w → grows c w w.
Proof. by split. Qed.

Lemma grows_trans c w1 w2 w3 : grows c w1 w2 → grows c w2 w3 → grows c w1 w3.
Proof.
  intros [_ E1 O1] [I2 E2 O2]. split; [done|by etrans|]. intros c' Hne. by rewrite O2 // O1.
Qed.

Lemma grows_store c w op :
  index_ok w → op_wf op → op_conversation op = c →
  grows c w (MkWorld (run_mem_op (w_mem w) (MStore op)) (w_collection_ready w) (w_log w)).
Proof.
  intros Hi Hwf <-. pose proof (mk_db _ (ix_tables _ Hi)) as Hdb.
  destruct (run_op_ok op _ Hdb Hwf) as [_ He Ho _].
  split; [by apply run_tables_index|done|done].
Qed.

Lemma grows_draws c w w' :
  index_ok w' → only_draws (me_db (w_mem w)) (me_db (w_mem w')) → grows c w w'.
Proof. intros Hi (n & E & Hn). split; [done|rewrite E; by split|by rewrite E]. Qed.

Definition bump_tables (st : MemDB) : MemDB :=
  MkMemDB (bump (me_db st)) (me_watermarks st) (me_chunks st) (me_memories st).

Lemma bump_index w :
  index_ok w → index_ok (MkWorld (bump_tables (w_mem w)) (w_collection_ready w) (w_log w)).
Proof.
  intros Hi. pose proof (ix_tables _ Hi) as [Hdb Hch Hmem Hids]. apply tables_grow_index; [done|split|split; simpl].
  - by apply bump_ok.
  - intros c. destruct (Hch c) as [n Hn]. exists n. by apply (chunked_same (w_mem w)).
  - apply (memories_same (w_mem w)); [done|simpl; lia|done].
  - apply (ids_same (w_mem w)); [done|simpl; lia|done].
  - exists []. rewrite app_nil_r. by split.
  - intros m Hm. by exists m.
Qed.

(** *** The store from the route *)

Lemma on_store_grows {A} up (f : DB → res A * DB) op w :
  index_ok w → op_wf op → (∀ db, (f db).2 = (run_op op db).2) →
  grows (op_conversation op) w (on_store up f w).2.
Proof.
  intros Hi Hwf Hf. unfold on_store. destruct up; [|by apply grows_refl].
  pose proof (grows_store _ w op Hi Hwf eq_refl) as H. unfold on_tables. cbn [run_mem_op] in H.
  rewrite -Hf in H. destruct (f (me_db (w_mem w))). done.
Qed.

Lemma on_store_idle {A} up e w : (on_store up (λ db, (Err (A:=A) e, db)) w).2 = w.
Proof. destruct w as [[] ? ?]. by destruct up. Qed.

Definition safe {S} (c : string) (w w' : Proxy S) : Prop :=
  index_ok (px_world w) → grows c (px_world w) (px_world w').

#[global] Instance safe_preorder S c : PreOrder (safe (S:=S) c).
Proof.
  split; [intros w Hi; by apply grows_refl|].
  intros w1 w2 w3 H1 H2 Hi. specialize (H1 Hi). eapply grows_trans; [exact H1|]. apply H2, H1.
Qed.

Lemma safe_world {S A} c (m : io A) :
  (∀ w, index_ok w → grows c w (m w).2) → pres (safe (S:=S) c) (on_world m).
Proof. intros Hm w Hi. unfold on_world. specialize (Hm _ Hi). by destruct (m (px_world w)). Qed.

Lemma safe_same {S A} c (m : proxy_io S A) :
  (∀ w, px_world (m w).2 = px_world w) → pres (safe c) m.
Proof. intros Hm w Hi. rewrite Hm. by apply grows_refl. Qed.
End growth.

Section route_lemmas.
Context {host : Host} {pg : Postgres} {laws : PostgresLaws} {uu : Uuids} {si : SessionIds} {se : Search}.
Context {utf8 : Utf8} {jlaws : JsonLaws}.
Context {S : Type} {llm : LLMProvider S}.
Context (server : nat → request → reply) (app : App) (rq : Request).

(** The settings are positive and the body was parsed from JSON. *)
Record request_ok : Prop := {
  rk_body : ∀ v, rq_body rq = inl v → json_wf v;
  rk_capture : 0 ≤ default 0 (ap_max_capture_bytes app);
  rk_pinned : 0 ≤ ap_pinned_budget app;
}.

Context (Hrq : request_ok).

Lemma reconcile_safe up c ms md :
  Forall obj_wf ms →
  pres (safe (S:=S) c) (on_world (on_store up (reconcile_history (rq_stamp rq) c ms md))).
Proof.
  intros Hms. apply safe_world. intros w Hi. by apply (on_store_grows _ _ (OpReconcile (rq_stamp rq) c ms md)).
Qed.

Lemma inbound_safe c ms :
  Forall obj_wf ms → pres (safe (S:=S) c) (inbound_persistence app rq c ms).
Proof.
  intros Hms. unfold inbound_persistence. destruct (ap_store app); [|auto with pio typeclass_instances].
  apply pres_bind; [apply _| |].
  - apply pres_attempt, pres_bind; [apply _| |intros _; by apply reconcile_safe].
    apply safe_world. intros w Hi. by apply (on_store_grows _ _ (OpEnsure c)).
  - intros [ids|e]; [auto with pio typeclass_instances|].
    destruct e; try destruct (infrastructure_error _); auto with pio typeclass_instances.
Qed.

Lemma index_memory_safe c : pres (safe (S:=S) c) (index_memory server app rq c).
Proof.
  unfold index_memory. destruct (ap_memory app) as [memory|]; [|auto with pio typeclass_instances].
  destruct (ap_auto_index app); [|auto with pio typeclass_instances].
  apply pres_bind; [apply _| |auto with pio typeclass_instances]. apply pres_attempt, safe_world.
  intros w Hi. destruct (index_turns_keeps server memory (rq_now rq) c w Hi). by apply grows_draws.
Qed.

Lemma store_answer_safe store c ms message md :
  Forall obj_wf ms → (∀ m, message = JObj m → obj_wf m) →
  pres (safe (S:=S) c) (store_answer server app rq store c ms message md).
Proof.
  intros Hms Hm. unfold store_answer.
  assert (∀ r, pres (safe (S:=S) c) (match r : res (list Z) with
    | Ok _ => index_memory server app rq c
    | Err (HistoryDivergenceError _ _ _) => mret tt
    | Err e => if infrastructure_error e then mret tt else pio_res (Err e)
    end)) as Hr.
  { intros [ids|e]; [apply index_memory_safe|].
    destruct e; try destruct (infrastructure_error _); auto with pio typeclass_instances. }
  assert (∀ A e, pres (safe (S:=S) c) (on_world (on_store (rq_persist_up rq) (λ db, (Err (A:=A) e, db)))))
    as Hidle.
  { intros A e. apply safe_world. intros w Hi. rewrite on_store_idle. by apply grows_refl. }
  destruct message as [| | | | | |m]; try destruct store; auto with pio typeclass_instances;
    (apply pres_bind; [apply _|apply pres_attempt|exact Hr]); auto.
  apply reconcile_safe, Forall_app_2; [done|]. constructor; [by apply Hm|done].
Qed.

Lemma persist_safe store c ms message md :
  Forall obj_wf ms → (∀ m, message = JObj m → obj_wf m) →
  pres (safe (S:=S) c) (persist_assistant server app rq store c ms message md).
Proof.
  intros Hms Hm. unfold persist_assistant. apply pres_bind; [apply _|by apply safe_same|].
  intros _. by apply store_answer_safe.
Qed.

Lemma run_callbacks_safe store c ms calls :
  Forall obj_wf ms → (∀ m md, (Some m, md) ∈ calls → obj_wf m) →
  pres (safe (S:=S) c) (run_callbacks server app rq store c ms calls).
Proof.
  intros Hms. induction calls as [|[message md] calls IH]; simpl; intros Hc; [apply pres_ret; apply _|].
  apply pres_bind; [apply _| |].
  - apply pres_attempt, persist_safe; [done|]. destruct message as [m|]; [|done].
    intros ? [= <-]. eapply Hc, elem_of_cons. by left.
  - intros _. apply IH. intros m md' Hin. eapply Hc, elem_of_cons. by right.
Qed.

Lemma buffered_message_wf content m md : buffered_message content = Some (JObj m, md) → obj_wf m.
Proof.
  unfold buffered_message. destruct (json_loads_bytes content) as [[| | | | | |parsed]|] eqn:E; try done.
  apply json_loads_bytes_wf in E. destruct (dget parsed "choices") as [v|] eqn:Ec; [|done].
  apply dget_wf in Ec; [|done]. destruct v as [| | | | |[|[| | | | | |choice] rest]|]; try done.
  rewrite json_wf_list Forall_cons in Ec. destruct Ec as [Hc _].
  destruct (dget choice "message") as [v|] eqn:Em; [|done]. simpl. intros [= -> _]. by apply dget_wf in Em.
Qed.

Lemma forward_safe store c payload out :
  Forall obj_wf (messages_of payload) →
  pres (safe (S:=S) c) (forward server app rq store c payload out).
Proof.
  intros Hms. unfold forward. destruct (is_true _).
  - unfold forward_stream. apply pres_bind; [apply _| |].
    + apply safe_same. intros w. unfold call_llm. by destruct (llm_open_stream _ _).
    + intros [stream|e]; [|auto with pio typeclass_instances].
      apply pres_bind; [apply _| |auto with pio typeclass_instances].
      apply run_callbacks_safe; [done|]. intros m md. apply iter_bytes_wf; [apply json_loads_wf|].
      apply (rk_capture Hrq).
  - unfold forward_buffered. apply pres_bind; [apply _| |].
    + apply safe_same. intros w. unfold call_llm. by destruct (llm_complete _ _).
    + intros [[[status hs] content]|e]; [|auto with pio typeclass_instances].
      apply pres_bind; [apply _| |auto with pio typeclass_instances].
      destruct (_ && _); [|auto with pio typeclass_instances].
      destruct (buffered_message content) as [[message md]|] eqn:E; [|auto with pio typeclass_instances].
      apply persist_safe; [done|]. intros m ->. by apply buffered_message_wf in E.
Qed.

(** The assembly asks the services and reads the tables. *)
Definition reads_only (w w' : Proxy S) : Prop := net (λ _, False) (px_world w) (px_world w').

#[local] Instance reads_only_preorder : PreOrder reads_only.
Proof. split; [intros w; unfold reads_only; reflexivity|]. intros w1 w2 w3. unfold reads_only. apply transitivity. Qed.

Lemma assemble_reads c ms tools : pres reads_only (assemble server app rq c ms tools).
Proof.
  unfold assemble. apply pres_bind; [apply _| |].
  2: { intros [out|e]; [auto with pio typeclass_instances|]. destruct e; auto with pio typeclass_instances. }
  apply pres_attempt. unfold plan_messages_for. destruct (ap_engine app) as [engine|].
  - apply pres_bind; [apply _| |].
    + unfold retrieve_items. destruct (ap_memory app) as [memory|]; [|auto with pio typeclass_instances].
      destruct (snonempty _); [|auto with pio typeclass_instances].
      apply pres_bind; [apply _| |].
      * apply pres_attempt. intros w. unfold reads_only, on_world.
        pose proof (retrieve_net server memory (rq_retrieval_up rq) (rq_now rq)
          (extract_retrieval_query ms) c None (px_world w)) as Hn. by destruct (retrieve _ _ _ _ _ _ _ _).
      * intros [items|e]; [auto with pio typeclass_instances|]. destruct e; auto with pio typeclass_instances.
    + intros items. apply pres_bind; [apply _|auto with pio typeclass_instances|]. intros split.
      apply pres_bind; [apply _|auto with pio typeclass_instances|]. auto with pio typeclass_instances.
  - apply pres_bind; [apply _|auto with pio typeclass_instances|]. intros split.
    apply pres_bind; [apply _|auto with pio typeclass_instances|]. auto with pio typeclass_instances.
Qed.

Lemma assemble_safe c ms tools : pres (safe (S:=S) c) (assemble server app rq c ms tools).
Proof.
  intros w Hi. pose proof (assemble_reads c ms tools w) as Hn.
  split; [by eapply net_index|..]; destruct Hn as [-> _]; done.
Qed.

Lemma serve_safe c payload :
  Forall obj_wf (messages_of payload) →
  pres (safe (S:=S) c) (serve server app rq c payload).
Proof.
  intros Hms. unfold serve. apply pres_bind; [apply _|by apply inbound_safe|].
  intros [store|response]; [|auto with pio typeclass_instances].
  apply pres_bind; [apply _|apply assemble_safe|].
  intros [out|response]; [|auto with pio typeclass_instances]. by apply forward_safe.
Qed.

Lemma messages_of_wf payload : obj_wf payload → Forall obj_wf (messages_of payload).
Proof.
  intros Hp. unfold messages_of. pose proof (oget_wf payload "messages" Hp) as H.
  destruct (oget payload "messages"); try done. rewrite json_wf_list in H.
  apply Forall_fmap. eapply Forall_impl; [exact H|]. intros v Hv.
  destruct v; try done; apply json_wf_obj; split; constructor.
Qed.

(** The conversation a request belongs to. *)
Definition conversation_of (w : Proxy S) : option (string * obj) :=
  match read_payload rq with
  | Ok payload =>
      match resolve_conversation_id (rq_headers rq) payload (ap_conversation app)
              (uuid_at (db_draws (me_db (w_mem (px_world w))))) with
      | Ok (c, payload, _) => Some (c, payload)
      | Err _ => None
      end
  | Err _ => None
  end.

Definition bumped (w : Proxy S) : Proxy S :=
  MkProxy (MkWorld (bump_tables (w_mem (px_world w))) (w_collection_ready (px_world w))
             (w_log (px_world w))) (px_llm w) (px_sent w) (px_usage w).

Lemma identify_eq payload w :
  identify app rq payload w
  = match resolve_conversation_id (rq_headers rq) payload (ap_conversation app)
            (uuid_at (db_draws (me_db (w_mem (px_world w))))) with
    | Ok (c, payload, drawn) => (Ok (c, payload), if (drawn : bool) then bumped w else w)
    | Err e => (Err e, w)
    end.
Proof.
  unfold identify, read_tables, on_world, on_tables, pio_res, mbind, pio_bind, mret, pio_ret, bumped.
  destruct w as [world s sent usage]. simpl.
  destruct (resolve_conversation_id _ _ _ _) as [[[c p] []]|e]; reflexivity.
Qed.

Lemma resolve_payload hs payload settings fresh c payload' drawn :
  resolve_conversation_id hs payload settings fresh = Ok (c, payload', drawn) →
  payload' = ddel payload "conversation_id".
Proof.
  unfold resolve_conversation_id. destruct (negb _); [|destruct (if snonempty _ then _ else _) as [[|? ?]|]];
    intros E; by inv_res.
Qed.

(** The state in which the conversation is served: a fresh id may have been
    drawn. *)
Definition ready (w : Proxy S) : Proxy S :=
  match read_payload rq with
  | Ok payload => (identify app rq payload w).2
  | Err _ => w
  end.

Lemma ready_cases w : ready w = w ∨ ready w = bumped w.
Proof.
  unfold ready. destruct (read_payload rq); [|by left]. rewrite identify_eq.
  destruct (resolve_conversation_id _ _ _ _) as [[[? ?] []]|]; auto.
Qed.

(** A request without a conversation is a client error and changes nothing. *)
Lemma chat_cases w :
  match conversation_of w with
  | Some (c, payload) =>
      chat_completions server app rq w = serve server app rq c payload (ready w) ∧
      ∃ raw, read_payload rq = Ok raw ∧ payload = ddel raw "conversation_id"
  | None =>
      ∃ r, chat_completions server app rq w = (r, w) ∧
        match r with Ok response => rs_status response = 400 | Err _ => True end
  end.
Proof.
  unfold conversation_of, ready, chat_completions. destruct (read_payload rq) as [raw|e].
  - pose proof (identify_eq raw w) as Hid.
    destruct (resolve_conversation_id _ _ _ _) as [[[c payload] drawn]|e] eqn:E;
      unfold attempt, mbind at 1, pio_bind at 1; rewrite Hid.
    + apply resolve_payload in E. eauto.
    + destruct e; eexists; (split; [reflexivity|done]).
  - destruct (value_error e); eexists; (split; [reflexivity|done]).
Qed.

(** *** What stays untouched before the upstream call *)

(** Nothing was sent and no usage counted. *)
Definition quiet (w w' : Proxy S) : Prop :=
  px_llm w' = px_llm w ∧ px_sent w' = px_sent w ∧ px_usage w' = px_usage w.

#[local] Instance quiet_preorder : PreOrder quiet.
Proof. split; [done|]. intros w1 w2 w3 (? & ? & ?) (? & ? & ?). unfold quiet. split_and!; by etrans. Qed.

Lemma quiet_world {A} (m : io A) : pres quiet (on_world m).
Proof. intros w. unfold on_world. by destruct (m (px_world w)). Qed.
#[local] Hint Resolve quiet_world : pio.

Lemma inbound_quiet c ms : pres quiet (inbound_persistence app rq c ms).
Proof.
  unfold inbound_persistence. destruct (ap_store app); [|auto with pio typeclass_instances].
  apply pres_bind; [apply _| |].
  - apply pres_attempt, pres_bind; [apply _|auto with pio|auto with pio].
  - intros [ids|e]; [auto with pio typeclass_instances|].
    destruct e; try destruct (infrastructure_error _); auto with pio typeclass_instances.
Qed.

Lemma index_memory_quiet c : pres quiet (index_memory server app rq c).
Proof.
  unfold index_memory. destruct (ap_memory app); [|auto with pio typeclass_instances].
  destruct (ap_auto_index app); [|auto with pio typeclass_instances].
  apply pres_bind; [apply _|auto with pio|auto with pio typeclass_instances].
Qed.

Lemma retrieve_items_quiet c ms : pres quiet (retrieve_items server app rq c ms).
Proof.
  unfold retrieve_items. destruct (ap_memory app); [|auto with pio typeclass_instances].
  destruct (snonempty _); [|auto with pio typeclass_instances].
  apply pres_bind; [apply _|auto with pio|].
  intros [items|e]; [auto with pio typeclass_instances|]. destruct e; auto with pio typeclass_instances.
Qed.

Lemma pio_bind_Ok {A B} (m : proxy_io S A) (f : A → proxy_io S B) w b w' :
  (m ≫= f) w = (Ok b, w') → ∃ a w1, m w = (Ok a, w1) ∧ f a w1 = (Ok b, w').
Proof. unfold mbind, pio_bind. destruct (m w) as [[a|e] w1]; [eauto|done]. Qed.

Definition usable_budget : Z :=
  match ap_engine app with Some engine => eng_usable engine | None => ap_usable_budget app end.

(** The assembled messages are those of one of the two assemblers. *)
Lemma plan_messages_fit c ms tools (w : Proxy S) out w' :
  plan_messages_for server app rq c ms tools w = (Ok out, w') →
  ∃ history current, separate_current_request ms = Ok (history, current) ∧
    fits_request current tools usable_budget out.
Proof.
  unfold plan_messages_for, usable_budget. destruct (ap_engine app) as [engine|].
  - intros (items & w1 & _ & H)%pio_bind_Ok.
    apply pio_bind_Ok in H as ([history current] & w2 & [= Hs <-] & H).
    apply pio_bind_Ok in H as (plan & w3 & [= Hp <-] & [= <- <-]).
    exists history, current. split; [done|]. by eapply build_fits.
  - intros ([history current] & w2 & [= Hs <-] & H)%pio_bind_Ok.
    apply pio_bind_Ok in H as (plan & w3 & [= Hp <-] & [= <- <-]).
    exists history, current. split; [done|]. eapply plan_context_fits; [|done]. apply Hrq.
Qed.

(** A refusal is a client error or a conflict. *)
Definition refusal (r : Response) : Prop := rs_status r = 400 ∨ rs_status r = 409.

Lemma assemble_spec c ms tools (w : Proxy S) :
  let '(r, w') := assemble server app rq c ms tools w in
  quiet w w' ∧
  match r with
  | Ok (inl out) => ∃ history current, separate_current_request ms = Ok (history, current) ∧
      fits_request current tools usable_budget out
  | Ok (inr response) => refusal response
  | Err _ => True
  end.
Proof.
  assert (pres quiet (plan_messages_for (S:=S) server app rq c ms tools)) as Hq.
  { unfold plan_messages_for. destruct (ap_engine app).
    - apply pres_bind; [apply _|apply retrieve_items_quiet|]. intros items.
      apply pres_bind; [apply _|auto with pio typeclass_instances|]. intros split.
      apply pres_bind; [apply _|auto with pio typeclass_instances|]. auto with pio typeclass_instances.
    - apply pres_bind; [apply _|auto with pio typeclass_instances|]. intros split.
      apply pres_bind; [apply _|auto with pio typeclass_instances|]. auto with pio typeclass_instances. }
  specialize (Hq w). pose proof (plan_messages_fit c ms tools w) as Hfit.
  unfold assemble, attempt, mbind at 1, pio_bind at 1.
  destruct (plan_messages_for _ _ _ _ _ _ _) as [[out|e] w1]; simpl in *; [split; eauto|].
  destruct e; (split; [done|]); simpl; unfold refusal; auto.
Qed.

Definition store_in_use : bool := ap_store app && rq_inbound_up rq.

(** The store does not reject the history. *)
Definition accepted_by_store (c : string) (ms : list obj) (w : Proxy S) : Prop :=
  ap_store app = true → rq_inbound_up rq = true →
  ∀ c' i d, (reconcile_history (rq_stamp rq) c ms None
               (_ensure_conversation (me_db (w_mem (px_world w))) c)).1
            ≠ Err (HistoryDivergenceError c' i d).

Lemma inbound_spec c ms (w : Proxy S) :
  let '(r, w') := inbound_persistence app rq c ms w in
  quiet w w' ∧
  match r with
  | Ok (inl store) => (store = true → store_in_use = true) ∧ accepted_by_store c ms w
  | Ok (inr response) => refusal response
  | Err _ => True
  end.
Proof.
  pose proof (inbound_quiet c ms w) as Hq. revert Hq. unfold inbound_persistence, accepted_by_store, store_in_use.
  destruct (ap_store app); [|done]. destruct (rq_inbound_up rq).
  - unfold attempt, mbind, pio_bind, on_world, on_store, on_tables, ensure_conversation. cbn [px_world w_mem me_db].
    destruct (reconcile_history _ _ _ _ _) as [[ids|e] db] eqn:E; simpl.
    + intros Hq. by split.
    + destruct e; simpl; intros Hq; (split; [exact Hq|]); unfold refusal; auto;
        by split; [|intros _ _ c' i' d'].
  - cbn. by destruct w.
Qed.

(** The request is refused before anything is sent, or forwarded. *)
Lemma serve_inv c payload (w : Proxy S) :
  Forall obj_wf (messages_of payload) →
  let '(r, w') := serve server app rq c payload w in
  (quiet w w' ∧ match r with Ok response => refusal response | Err _ => True end) ∨
  ∃ store out w1 history current,
    forward server app rq store c payload out w1 = (r, w') ∧ quiet w w1 ∧
    (index_ok (px_world w) → index_ok (px_world w1)) ∧
    (store = true → store_in_use = true) ∧ accepted_by_store c (messages_of payload) w ∧
    separate_current_request (messages_of payload) = Ok (history, current) ∧
    fits_request current (oget payload "tools") usable_budget out.
Proof.
  intros Hms. pose proof (inbound_spec c (messages_of payload) w) as Hin.
  pose proof (inbound_safe c _ Hms w) as Hs1.
  unfold serve, mbind, pio_bind. destruct (inbound_persistence _ _ _ _ _) as [[[store|response]|e] w1].
  2-3: by left.
  pose proof (assemble_spec c (messages_of payload) (oget payload "tools") w1) as Has.
  pose proof (assemble_safe c (messages_of payload) (oget payload "tools") w1) as Hs2.
  destruct Hin as [Hq1 [Hst Hacc]]. destruct (assemble _ _ _ _ _ _ _) as [[[out|response]|e] w2].
  2-3: left; split; [etrans; [exact Hq1|apply Has]|apply Has].
  destruct Has as [Hq2 (history & current & Hsep & Hfit)].
  destruct (forward _ _ _ _ _ _ _ _) as [r w'] eqn:E. right.
  exists store, out, w2, history, current. split_and!; try done; [by etrans|].
  intros Hi. apply Hs2, Hs1, Hi.
Qed.

(** *** After the upstream call *)

Lemma store_answer_quiet store c ms message md :
  pres quiet (store_answer server app rq store c ms message md).
Proof.
  unfold store_answer.
  destruct message; try destruct store; auto with pio typeclass_instances;
    (apply pres_bind; [apply _|auto with pio|]);
    (intros [ids|e]; [apply index_memory_quiet|]);
    destruct e; try destruct (infrastructure_error _); auto with pio typeclass_instances.
Qed.

(** The answers whose persistence never raises. *)
Definition storable_answer (store : bool) (ms : list obj) (message : json) : Prop :=
  store = false ∨ message = JNull ∨
  ∃ m, message = JObj m ∧ Forall (λ m, storable m = true) (ms ++ [m]).

Lemma store_answer_returns store c ms message md (w : Proxy S) :
  index_ok (px_world w) → storable_answer store ms message →
  (store_answer server app rq store c ms message md w).1 = Ok tt.
Proof.
  intros Hi [->|[->|(m & -> & Hs)]]; [by destruct message|done|]. unfold store_answer. destruct store; [|done].
  pose proof (reconcile_history_raises (rq_stamp rq) c (ms ++ [m]) md _
    (mk_db _ (ix_tables _ Hi)) Hs) as Hr.
  unfold attempt, mbind, pio_bind, on_world, on_store, on_tables. destruct (rq_persist_up rq); [|done].
  destruct (reconcile_history _ _ _ _ _) as [[ids|e] db]; simpl in *.
  - unfold index_memory. destruct (ap_memory app); [|done]. destruct (ap_auto_index app); [|done].
    unfold mbind, pio_bind, attempt. by destruct (on_world _ _).
  - by destruct Hr as [[->| ->]|(i & d & ->)].
Qed.

(** What the callback of a stream does: the usage is counted once per call. *)
Lemma run_callbacks_spec store c ms calls (w : Proxy S) :
  let '(r, w') := run_callbacks server app rq store c ms calls w in
  r = Ok tt ∧ px_llm w' = px_llm w ∧ px_sent w' = px_sent w ∧
  px_usage w' = px_usage w ++ ((λ call, oget call.2 "usage") <$> calls).
Proof.
  revert w. induction calls as [|[message md] calls IH]; intros w; simpl; [by rewrite app_nil_r|].
  unfold mbind at 1, pio_bind at 1, attempt at 1, persist_assistant, mbind at 1, pio_bind at 1, record_tokens.
  set (w0 := MkProxy _ _ _ _).
  destruct (store_answer_quiet store c ms (from_option JObj JNull message) (Some md) w0) as (E1 & E2 & E3).
  cbn [fst snd]. destruct (store_answer _ _ _ _ _ _ _ _ _) as [r w1]. specialize (IH w1). simpl in *.
  destruct (run_callbacks _ _ _ _ _ _ _ _) as [r' w2]. destruct IH as (-> & -> & -> & ->).
  rewrite E1 E2 E3. split_and!; try done. by rewrite -app_assoc.
Qed.

Lemma forward_sent store c payload out (w : Proxy S) :
  px_sent (forward server app rq store c payload out w).2 = px_sent w ++ [outgoing payload out].
Proof.
  unfold forward. destruct (is_true _).
  - unfold forward_stream, mbind at 1, pio_bind at 1, call_llm. destruct (llm_open_stream _ _) as [[[stream|e]|e] s]; try done.
    unfold mbind at 1, pio_bind at 1. set (w0 := MkProxy _ _ _ _). set (run := iter_bytes _ _ _ _).
    pose proof (run_callbacks_spec store c (messages_of payload) (sr_calls run) w0) as H.
    destruct (run_callbacks _ _ _ _ _ _ _ _) as [r w1]. destruct H as (-> & _ & E & _). exact E.
  - unfold forward_buffered, mbind at 1, pio_bind at 1, call_llm.
    destruct (llm_complete _ _) as [[[[[status hs] content]|e]|e] s]; try done.
    unfold mbind at 1, pio_bind at 1. destruct (_ && _); [|done]. destruct (buffered_message _) as [[message md]|]; [|done].
    unfold persist_assistant, mbind at 1, pio_bind at 1, record_tokens. set (w0 := MkProxy _ _ _ _).
    destruct (store_answer_quiet store c (messages_of payload) message (or_no_metadata md) w0) as (_ & E2 & _).
    destruct (store_answer _ _ _ _ _ _ _ _ _) as [[] w1]; exact E2.
Qed.

Lemma messages_of_ddel payload :
  messages_of (ddel payload "conversation_id") = messages_of payload.
Proof. unfold messages_of, oget. by rewrite dget_ddel_ne. Qed.

Lemma read_payload_inv raw :
  read_payload rq = Ok raw → rq_body rq = inl (JObj raw) ∧ validate_chat_payload (JObj raw) = Ok ().
Proof.
  unfold read_payload, parse_json_body. destruct (rq_body rq) as [[| | | | | |d]|]; intros H; inv_res; try done.
  by destruct a0.
Qed.

(** A refused request leaves everything but the tables alone; a forwarded one
    comes from an accepted history. *)
Lemma chat_inv (w : Proxy S) :
  let '(r, w') := chat_completions server app rq w in
  (quiet w w' ∧ match r with Ok response => refusal response | Err _ => True end) ∨
  ∃ raw c store out w1 history current,
    read_payload rq = Ok raw ∧ conversation_of w = Some (c, ddel raw "conversation_id") ∧
    forward server app rq store c (ddel raw "conversation_id") out w1 = (r, w') ∧
    quiet w w1 ∧ (index_ok (px_world w) → index_ok (px_world w1)) ∧
    (store = true → store_in_use = true) ∧
    accepted_by_store c (messages_of raw) (ready w) ∧
    separate_current_request (messages_of raw) = Ok (history, current) ∧
    fits_request current (oget raw "tools") usable_budget out.
Proof.
  pose proof (chat_cases w) as H. destruct (conversation_of w) as [[c payload]|] eqn:Ec.
  - destruct H as (-> & raw & Hr & ->).
    destruct (read_payload_inv _ Hr) as [Hb _].
    pose proof (serve_inv c (ddel raw "conversation_id") (ready w)) as Hs. rewrite messages_of_ddel in Hs.
    specialize (Hs (messages_of_wf _ (rk_body Hrq _ Hb))).
    assert (quiet w (ready w)) as Hq by by destruct (ready_cases w) as [-> | ->].
    destruct (serve _ _ _ _ _ _) as [r w'].
    destruct Hs as [[Hq' Hr']|(store & out & w1 & history & current & Hf & Hq' & Hi & Hst & Hacc & Hsep & Hfit)].
    + left. split; [by etrans|done].
    + right. exists raw, c, store, out, w1, history, current. split_and!; try done; [by etrans|..].
      * intros H. apply Hi. destruct (ready_cases w) as [-> | ->]; [done|]. by apply bump_index.
      * unfold oget in Hfit. by rewrite dget_ddel_ne in Hfit.
  - destruct H as (r & -> & Hr). left. split; [done|]. destruct r; [by left|done].
Qed.

(** A request grows the conversation it resolves to. *)
Lemma chat_grows (w : Proxy S) :
  index_ok (px_world w) →
  let w' := (chat_completions server app rq w).2 in
  match conversation_of w with
  | Some (c, _) => grows c (px_world w) (px_world w')
  | None => px_world w' = px_world w
  end.
Proof.
  intros Hi w'. subst w'. pose proof (chat_cases w) as H.
  destruct (conversation_of w) as [[c payload]|] eqn:Ec.
  - destruct H as (-> & raw & Hr & ->). destruct (read_payload_inv _ Hr) as [Hb _].
    assert (grows c (px_world w) (px_world (ready w))) as Hg.
    { destruct (ready_cases w) as [-> | ->]; [by apply grows_refl|].
      split; [by apply bump_index|split; simpl; (done || lia)|done]. }
    assert (Forall obj_wf (messages_of (ddel raw "conversation_id"))) as Hms
      by (rewrite messages_of_ddel; apply messages_of_wf, (rk_body Hrq _ Hb)).
    eapply grows_trans; [exact Hg|]. apply (serve_safe c _ Hms (ready w)), Hg.
  - by destruct H as (r & -> & _).
Qed.

(** A request works on one conversation.  It keeps every invariant of the
    tables, of the memory and of the vector index, deletes or rewrites nothing,
    and the history of every conversation but the one it resolves to stays as
    it is; a request that resolves to none changes no history at all. *)
Theorem chat_isolated (w : Proxy S) :
  index_ok (px_world w) →
  let w' := (chat_completions server app rq w).2 in
  index_ok (px_world w') ∧
  extends (me_db (w_mem (px_world w))) (me_db (w_mem (px_world w'))) ∧
  ∀ c, fst <$> conversation_of w ≠ Some c →
    rows_of (me_db (w_mem (px_world w'))) c = rows_of (me_db (w_mem (px_world w))) c.
Proof.
  intros Hi w'. pose proof (chat_grows w Hi) as H. subst w'. simpl in *.
  destruct (conversation_of w) as [[c payload]|]; simpl.
  - destruct H as [Hi' He Ho]. split_and!; [done..|]. intros c' Hc'. apply Ho. intros ->. by apply Hc'.
  - rewrite H. split_and!; [done|reflexivity|done].
Qed.

(** C3: Nothing reaches the provider but an accepted request that fits.  At
    most one payload is handed over; it is the client's, validated, without
    [conversation_id], its messages replaced by assembled ones that end with
    the whole current request and, with the tools, are within the usable
    budget; and the store has not found its history in conflict.  Any other
    request ends with status 400 or 409, or raises, without a call and without
    usage counted. *)
Theorem chat_gate (w : Proxy S) :
  let '(r, w') := chat_completions server app rq w in
  (quiet w w' ∧ match r with Ok response => refusal response | Err _ => True end) ∨
  ∃ raw c out history current,
    px_sent w' = px_sent w ++ [outgoing (ddel raw "conversation_id") out] ∧
    rq_body rq = inl (JObj raw) ∧ validate_chat_payload (JObj raw) = Ok () ∧
    conversation_of w = Some (c, ddel raw "conversation_id") ∧
    separate_current_request (messages_of raw) = Ok (history, current) ∧
    fits_request current (oget raw "tools") usable_budget out ∧
    accepted_by_store c (messages_of raw) (ready w).
Proof.
  pose proof (chat_inv w) as H. destruct (chat_completions _ _ _ _) as [r w'].
  destruct H as [H|(raw & c & store & out & w1 & history & current & Hr & Hc & Hf & Hq & _ & _ & Hacc & Hsep & Hfit)];
    [by left|right].
  destruct (read_payload_inv _ Hr) as [Hb Hv]. exists raw, c, out, history, current. split_and!; try done.
  pose proof (forward_sent store c (ddel raw "conversation_id") out w1) as Hs. rewrite Hf in Hs.
  destruct Hq as (_ & Hq & _). by rewrite -Hq.
Qed.

(** The response to an answered request: the answer, with the conversation. *)
Definition delivered (c : string) (response : Response) : res Response :=
  Ok (set_header RESPONSE_CONVERSATION_HEADER c response).

(** How the outcome [r] in state [w'] follows from handing [sent] to the provider
    in state [w]. *)
Definition relayed (store : bool) (c : string) (payload sent : obj) (w : Proxy S)
    (r : res Response) (w' : Proxy S) : Prop :=
  if is_true (oget payload "stream") then
    let '(opened, s) := llm_open_stream sent (px_llm w) in
    px_llm w' = s ∧
    match opened with
    | Ok (inl stream) =>
        let run := iter_bytes (ap_max_capture_bytes app) (λ _ _, Ok tt) (ls_chunks stream) (ls_ending stream) in
        r = delivered c (streaming_response stream run) ∧ sr_yielded run = ls_chunks stream ∧
        px_usage w' = px_usage w ++ ((λ call, oget call.2 "usage") <$> sr_calls run)
    | Ok (inr e) => r = Ok (error_body_response e) ∧ px_usage w' = px_usage w
    | Err e => r = Err e ∧ px_usage w' = px_usage w
    end
  else
    let '(completed, s) := llm_complete sent (px_llm w) in
    px_llm w' = s ∧
    match completed with
    | Ok (inl (status, hs, content)) =>
        match (if (200 <=? status) && (status <? 300) then buffered_message content else None) with
        | Some (message, metadata) =>
            px_usage w' = px_usage w ++ [oget metadata "usage"] ∧
            (storable_answer store (messages_of payload) message →
             r = delivered c (upstream_response status hs content))
        | None => r = delivered c (upstream_response status hs content) ∧ px_usage w' = px_usage w
        end
    | Ok (inr e) => r = Ok (error_body_response e) ∧ px_usage w' = px_usage w
    | Err e => r = Err e ∧ px_usage w' = px_usage w
    end.

Lemma or_no_metadata_usage md :
  match or_no_metadata md with Some md => oget md "usage" | None => JNull end = oget md "usage".
Proof. by destruct md. Qed.

Lemma forward_relayed store c payload out (w : Proxy S) :
  index_ok (px_world w) →
  let '(r, w') := forward server app rq store c payload out w in
  relayed store c payload (outgoing payload out) w r w'.
Proof.
  intros Hi. unfold relayed, forward. destruct (is_true _).
  - unfold forward_stream, mbind at 1, pio_bind at 1, call_llm.
    destruct (llm_open_stream _ _) as [[[stream|e]|e] s]; try done.
    unfold mbind at 1, pio_bind at 1. set (w0 := MkProxy _ _ _ _). set (run := iter_bytes _ _ _ _).
    pose proof (run_callbacks_spec store c (messages_of payload) (sr_calls run) w0) as H.
    destruct (run_callbacks _ _ _ _ _ _ _ _) as [r w1]. destruct H as (-> & E1 & _ & E3).
    split_and!; [exact E1|reflexivity|by apply iter_bytes_yields|exact E3].
  - unfold forward_buffered, mbind at 1, pio_bind at 1, call_llm.
    destruct (llm_complete _ _) as [[[[[status hs] content]|e]|e] s]; try done.
    unfold mbind at 1, pio_bind at 1. destruct (_ && _); [|done]. destruct (buffered_message _) as [[message md]|]; [|done].
    unfold persist_assistant, mbind at 1, pio_bind at 1, record_tokens. rewrite or_no_metadata_usage.
    set (w0 := MkProxy _ _ _ _).
    destruct (store_answer_quiet store c (messages_of payload) message (or_no_metadata md) w0) as (E1 & _ & E3).
    pose proof (store_answer_returns store c (messages_of payload) message (or_no_metadata md) w0 Hi) as Hr.
    destruct (store_answer _ _ _ _ _ _ _ _ _) as [[u|e] w1]; (split; [exact E1|]); (split; [exact E3|]); [done|].
    by intros ?%Hr.
Qed.

(** C4: The client gets what the provider said, whatever becomes of its
    persistence.  A stream is relayed chunk by chunk and a buffered answer is
    returned with its status, headers and body, unless the store is in use and
    the answer holds a message it raises on; provider errors become error
    responses; the provider is called once; and the usage of every answer that
    reports one is counted exactly once, with or without a store. *)
Theorem chat_transparent (w : Proxy S) (sent : obj) :
  index_ok (px_world w) →
  let '(r, w') := chat_completions server app rq w in
  px_sent w' = px_sent w ++ [sent] →
  ∃ c payload store,
    conversation_of w = Some (c, payload) ∧ (store = true → store_in_use = true) ∧
    relayed store c payload sent w r w'.
Proof.
  intros Hi. pose proof (chat_inv w) as H. destruct (chat_completions _ _ _ _) as [r w']. intros Hsent.
  destruct H as [[(_ & E & _) _]|(raw & c & store & out & w1 & history & current & Hr & Hc & Hf & Hq & Hi1 & Hst & _)].
  { rewrite E in Hsent. apply (f_equal length) in Hsent. rewrite length_app /= in Hsent. lia. }
  exists c, (ddel raw "conversation_id"), store. split_and!; [done..|].
  pose proof (forward_sent store c (ddel raw "conversation_id") out w1) as Hs.
  pose proof (forward_relayed store c (ddel raw "conversation_id") out w1 (Hi1 Hi)) as Hrel.
  rewrite Hf in Hs Hrel. destruct Hq as (E1 & E2 & E3).
  simpl in Hs. rewrite Hsent E2 in Hs. simplify_eq. unfold relayed in *. by rewrite E1 E3 in Hrel.
Qed.
End route_lemmas.

(** ** A concrete proxy *)

#[local] Existing Instances sample_host sample_postgres sample_laws sample_uuids sample_search.
#[local] Instance sample_sessions : SessionIds := {| uuid5_session := slen |}.

(** The body of the provider's answer, and what it parses to. *)
Definition sample_answer : json :=
  JObj [("choices", JList [JObj [("message", JObj (chat_message "assistant" "hello"));
                                 ("finish_reason", JStr "stop")]]);
        ("usage", JObj [("total_tokens", JInt 3)])].

#[local] Instance sample_utf8 : Utf8 := {|
  utf8_decode := id;
  json_loads_bytes s := if bool_decide (s = "answer") then Some sample_answer
                        else if bool_decide (s = "odd")
                        then Some (JObj [("choices", JList [JObj [("message", JInt 5)]])])
                        else None;
|}.

#[local] Instance sample_json_laws : JsonLaws.
Proof.
  split; [done|]. intros s v. simpl. repeat case_bool_decide; intros [= <-]; cbn;
    unfold dwf; split_and!; done || by apply (bool_decide_unpack _).
Qed.

Definition answering (body : string) : Upstream :=
  MkUpstream (λ _ _ _, Answer (MkLLMStream 200 [("Content-Type", "application/json")] [body] Exhausted))
    (λ _ _, 0%Q) (λ _, 0%Q) (λ _, 1%Q).

Definition sample_app : App :=
  MkApp true (Some sample_service) (Some (sample_engine 60)) 60 10 true (Some 100)
    default_ConversationSettings.

Definition sample_rq : Request :=
  MkRequest (inl (JObj [("model", JStr "m"); ("messages", JList [JObj (chat_message "user" "hi")]);
                        ("conversation_id", JStr (unary_str 4))]))
    [] 0 0 true true true.

Definition sample_proxy : Proxy ProviderState := MkProxy empty_world sample_provider [] [].

Definition sample_chat (body : string) : res Response * Proxy ProviderState :=
  chat_completions (llm := openai_compatible default_ResilienceSettings (answering body))
    good_server sample_app sample_rq sample_proxy.

Example sample_chat_answered :
  (sample_chat "answer").1
  = Ok (MkResponse 200 [("Content-Type", "application/json"); ("X-Conversation-ID", unary_str 4)]
          (Bytes "answer")) ∧
  px_usage (sample_chat "answer").2 = [JObj [("total_tokens", JInt 3)]] ∧
  m_content <$> rows_of (me_db (w_mem (px_world (sample_chat "answer").2))) (unary_str 4)
  = [JObj (chat_message "user" "hi"); JObj (chat_message "assistant" "hello")].
Proof. vm_compute. auto. Qed.

Lemma sample_request_ok : request_ok sample_app sample_rq.
Proof.
  split; [|done..]. intros v [= <-]. cbn. unfold dwf.
  split_and!; done || by apply (bool_decide_unpack _).
Qed.

Lemma empty_index_ok : index_ok empty_world.
Proof. apply (run_svc_ok good_server sample_service []). constructor. Qed.

Lemma chat_isolated_witness :
  rows_of (me_db (w_mem (px_world (sample_chat "answer").2))) "other" = [] ∧
  index_ok (px_world (sample_chat "answer").2).
Proof.
  destruct (chat_isolated (llm := openai_compatible default_ResilienceSettings (answering "answer"))
    good_server sample_app sample_rq sample_request_ok sample_proxy empty_index_ok) as (Hi & _ & Hr).
  split; [|exact Hi]. etrans; [apply (Hr "other"); vm_compute; discriminate|reflexivity].
Defined.

Lemma chat_gate_witness :
  ∃ raw out history current,
    px_sent (sample_chat "answer").2 = [outgoing (ddel raw "conversation_id") out] ∧
    rq_body sample_rq = inl (JObj raw) ∧
    separate_current_request (messages_of raw) = Ok (history, current) ∧
    fits_request current (oget raw "tools") 60 out.
Proof.
  pose proof (chat_gate (llm := openai_compatible default_ResilienceSettings (answering "answer"))
    good_server sample_app sample_rq sample_request_ok sample_proxy) as H.
  assert (length (px_sent (sample_chat "answer").2) = 1%nat) as Hl by (vm_compute; reflexivity).
  unfold sample_chat in *. destruct (chat_completions _ _ _ _) as [r w'].
  destruct H as [[(_ & E & _) _]|(raw & c & out & history & current & E & Hb & _ & _ & Hs & Hf & _)].
  - simpl in Hl. rewrite E in Hl. discriminate.
  - exists raw, out, history, current. split_and!; assumption.
Defined.

(** A stored answer is delivered; so is one whose store is down. *)
Lemma chat_transparent_witness :
  ∃ c payload store,
    (store = true → store_in_use sample_app sample_rq = true) ∧
    relayed (llm := openai_compatible default_ResilienceSettings (answering "answer"))
      sample_app store c payload (default [] (head (px_sent (sample_chat "answer").2)))
      sample_proxy (sample_chat "answer").1 (sample_chat "answer").2.
Proof.
  pose proof (chat_transparent (llm := openai_compatible default_ResilienceSettings (answering "answer"))
    good_server sample_app sample_rq sample_request_ok sample_proxy
    (default [] (head (px_sent (sample_chat "answer").2))) empty_index_ok) as H.
  assert (px_sent (sample_chat "answer").2 = [default [] (head (px_sent (sample_chat "answer").2))]) as Hs
    by (vm_compute; reflexivity).
  unfold sample_chat in *. destruct (chat_completions _ _ _ _) as [r w'].
  destruct (H Hs) as (c & payload & store & _ & Hst & Hr). exists c, payload, store. split; assumption.
Defined.

(** An answer whose message is not an object has been inferred and counted, and
    is then lost to the client. *)
Example odd_message_breaks_response :
  (sample_chat "odd").1 = Err AttributeError ∧ length (px_sent (sample_chat "odd").2) = 1%nat.
Proof. vm_compute. auto. Qed.

(** Without the store it is delivered. *)
Example odd_message_without_store :
  (chat_completions (llm := openai_compatible default_ResilienceSettings (answering "odd")) good_server
     (MkApp false None None 60 10 true None default_ConversationSettings) sample_rq sample_proxy).1
  = Ok (MkResponse 200 [("Content-Type", "application/json"); ("X-Conversation-ID", unary_str 4)] (Bytes "odd")).
Proof. vm_compute. reflexivity. Qed.
