(* ===== verification/Internal.v ===== *)
(** * The internal routes ([api/routes_internal.py])

    The administrative surface over the memory service and the engine: the
    authentication gate that every route depends on, the handlers, and the
    preview of the context assembly.  A handler returns its typed response or an
    [HTTPException]; request schemas have been validated.  Identifiers in a
    [MemoryCreate] are in canonical form, as PostgreSQL stores them.  The
    diagnostics route is in [Diagnostics]. *)

From stdpp Require Import gmap.
From Stdlib Require Import QArith.
From S2P Require Import Prelude PyDict PyString Json Tokens Planner Reconciliation Candidates Engine.
From S2P Require Import Store Validation Memory Services Retrieval Capture Http Identity Provider Routes.
Local Open Scope Z_scope.

(** ** Settings and errors *)

Inductive Mode : Type := Development | Production.

Record SecuritySettings : Type := MkSecurity {
  security_mode : Mode;
  internal_auth_token : string;
}.

(** [_production_requires_internal_auth], the validator of the settings. *)
Definition validate_security (s : SecuritySettings) : res SecuritySettings :=
  match security_mode s with
  | Production =>
      if snonempty (internal_auth_token s) then Ok s
      else Err (ValueError "SECURITY__INTERNAL_AUTH_TOKEN must be configured")
  | Development => Ok s
  end.

(** [HTTPException] *)
Record HTTPException : Type := MkHTTPException {
  he_status : Z;
  he_detail : string;
}.

#[global] Instance HTTPException_eq_dec : EqDecision HTTPException.
Proof. solve_decision. Defined.

Definition INTERNAL_AUTH_HEADER : string := "x-internal-auth".

Fixpoint is_ascii (s : string) : bool :=
  match s with
  | EmptyString => true
  | String c s' => (ord c <? 128) && is_ascii s'
  end.

(** [hmac.compare_digest] refuses text that is not ASCII. *)
Definition compare_digest (a b : string) : res bool :=
  if is_ascii a && is_ascii b then Ok (bool_decide (a = b)) else Err TypeError.

(** [require_internal_auth]: [None] lets the request through. *)
Definition require_internal_auth (s : SecuritySettings) (hs : headers) : res (option HTTPException) :=
  if negb (snonempty (internal_auth_token s)) then
    match security_mode s with
    | Production => Ok (Some (MkHTTPException 503 "internal authentication is misconfigured"))
    | Development => Ok None
    end
  else
    let refuse := Some (MkHTTPException 401 "internal endpoint requires authentication") in
    match get_header hs INTERNAL_AUTH_HEADER with
    | None => Ok refuse
    | Some presented =>
        same ← compare_digest presented (internal_auth_token s);
        Ok (if (same : bool) then None else refuse)
    end.

(** ** Handlers *)

(** The requests of the router. *)
Inductive internal_request : Type :=
| CreateMemory (spec : MemoryCreate)
| SupersedeMemory (memory_id : string) (status : MemoryStatus)
| Retrieve (q conversation_id : string) (limit : option Z)
| IndexConversation (conversation_id : string)
| RebuildIndex (conversation_id : option string) (force : bool)
| ContextPreview (conversation_id : string) (messages : list obj) (tools : json).

(** [debug_view]: keys, scores, reasons and totals, but no message content. *)
Definition debug_view (p : EnginePlan)
    : list SelectedItem * list DroppedCandidate * Z * Z * Z * string * plan_diagnostics :=
  (ep_selected_items p, ep_dropped_items p, ep_token_estimate p, ep_tools_tokens p, ep_usable p,
   ep_rationale p, ep_diagnostics p).

(** The responses; a preview shows the plan through [debug_view]. *)
Inductive internal_response : Type :=
| MemoryCreated (id : string)
| MemorySuperseded (id : string) (status : MemoryStatus)
| Retrieved (query : string) (items : list RetrievedItem)
| ChunksCreated (n : Z)
| Rebuilt (summary : rebuild_summary)
| Previewed (view : list SelectedItem * list DroppedCandidate * Z * Z * Z * string * plan_diagnostics).

Section internal.
Context {host : Host} {pg : Postgres} {uu : Uuids} {se : Search}.
Context (server : nat → request → reply).
Context (security : SecuritySettings) (memory : option MemoryService) (engine : option ContextAssemblyEngine).
Context (db_up : bool) (now : Q).

(** A handler over the tables and services. *)
Notation handler A := (io (A + HTTPException)).

Definition abort {A} (status : Z) (detail : string) : handler A := mret (inr (MkHTTPException status detail)).

Definition invalid {A} (what value : string) : handler A :=
  abort 400 ("invalid " +:+ what +:+ ": " +:+ py_repr (JStr value)).

(** [_parse_uuid] and [_memory], with what follows them. *)
Definition with_uuid {A} (value what : string) (k : Z → handler A) : handler A :=
  match uuid_parse value with Some id => k id | None => invalid what value end.

Definition with_memory {A} (k : MemoryService → handler A) : handler A :=
  match memory with Some m => k m | None => abort 503 "memory service unavailable" end.

(** An exception of the service as a value, [except]-style. *)
Definition caught {A} (m : io A) : io (res A) := λ w, let '(r, w') := m w in (Ok r, w').

Definition create_memory_route (spec : MemoryCreate) : handler internal_response :=
  with_uuid (mc_conversation_id spec) "conversation_id" (λ _,
    let create := with_memory (λ m,
      r ← caught (create_and_embed server m now spec);
      match r with
      | Ok id => mret (inl (MemoryCreated (uuid_str id)))
      | Err e => match value_error e with Some text => abort 404 text | None => io_raise e end
      end) in
    match mc_supersedes spec with
    | Some target => with_uuid target "supersedes" (λ _, create)
    | None => create
    end).

Definition supersede_route (memory_id : string) (status : MemoryStatus) : handler internal_response :=
  with_uuid memory_id "memory_id" (λ id, with_memory (λ _,
    updated ← on_tables (λ st, let '(b, st) := supersede_memory id status st in (Ok b, st));
    if (updated : bool) then mret (inl (MemorySuperseded memory_id status))
    else abort 404 "active memory not found")).

Definition retrieve_route (q conversation_id : string) (limit : option Z) : handler internal_response :=
  with_uuid conversation_id "conversation_id" (λ id, with_memory (λ m,
    items ← retrieve server m db_up now q (uuid_str id) limit;
    mret (inl (Retrieved q items)))).

Definition index_route (conversation_id : string) : handler internal_response :=
  with_uuid conversation_id "conversation_id" (λ id, with_memory (λ m,
    created ← index_completed_turns server m now (uuid_str id);
    mret (inl (ChunksCreated created)))).

Definition rebuild_route (conversation_id : option string) (force : bool) : handler internal_response :=
  with_memory (λ m,
    let rebuild scope := (summary ← rebuild_vector_index server m scope force; mret (inl (Rebuilt summary))) in
    match conversation_id with
    | Some (String _ _ as c) => with_uuid c "conversation_id" (λ id, rebuild (Some (uuid_str id)))
    | _ => rebuild None
    end).

(** The retrieval of the preview: its expected failure degrades. *)
Definition preview_items (c : string) (messages : list obj) : io (list RetrievedItem) :=
  let query := extract_retrieval_query messages in
  match memory with
  | Some m =>
      if snonempty query then
        r ← caught (retrieve server m db_up now query c None);
        match r with
        | Ok items => mret items
        | Err RetrievalError => mret []
        | Err e => io_raise e
        end
      else mret []
  | None => mret []
  end.

Definition preview_route (conversation_id : string) (messages : list obj) (tools : json)
    : handler internal_response :=
  with_uuid conversation_id "conversation_id" (λ id,
    match engine with
    | None => abort 503 "context engine unavailable"
    | Some eng =>
        match validate_chat_payload (JObj [("messages", JList (JObj <$> messages)); ("tools", tools)]) with
        | Err e => match e with
                   | PayloadValidationError text => abort 400 text
                   | _ => io_raise e
                   end
        | Ok _ =>
            split ← io_lift (separate_current_request messages);
            retrieved ← preview_items (uuid_str id) messages;
            match build eng split.1 split.2 tools [] retrieved ∅ (Some (uuid_str id)) with
            | Ok plan => mret (inl (Previewed (debug_view plan)))
            | Err (EngineOverflowError required usable) => abort 400 (overflow_text "context" required usable)
            | Err e => io_raise e
            end
        end
    end).

Definition dispatch (r : internal_request) : handler internal_response :=
  match r with
  | CreateMemory spec => create_memory_route spec
  | SupersedeMemory id status => supersede_route id status
  | Retrieve q c limit => retrieve_route q c limit
  | IndexConversation c => index_route c
  | RebuildIndex c force => rebuild_route c force
  | ContextPreview c messages tools => preview_route c messages tools
  end.

(** The dependency of the router comes before every handler. *)
Definition internal_route (hs : headers) (r : internal_request) : handler internal_response := λ w,
  match require_internal_auth security hs with
  | Err e => (Err e, w)
  | Ok (Some exc) => (Ok (inr exc), w)
  | Ok None => dispatch r w
  end.

(** ** The gate *)

Definition authorized (hs : headers) : Prop :=
  match internal_auth_token security with
  | EmptyString => security_mode security = Development
  | token => is_ascii token = true ∧ get_header hs INTERNAL_AUTH_HEADER = Some token
  end.

Lemma auth_cases hs :
  (require_internal_auth security hs = Ok None ∧ authorized hs) ∨
  (¬ authorized hs ∧
   (require_internal_auth security hs = Err TypeError ∧ internal_auth_token security ≠ EmptyString ∨
    ∃ exc, require_internal_auth security hs = Ok (Some exc) ∧
      he_status exc = if snonempty (internal_auth_token security) then 401 else 503)).
Proof.
  unfold require_internal_auth, authorized, compare_digest.
  destruct (internal_auth_token security) as [|x token]; cbn [snonempty negb].
  - destruct (security_mode security); [by left|]. right. split; [done|]. right. by eexists.
  - destruct (get_header hs INTERNAL_AUTH_HEADER) as [presented|].
    2: { right. split; [by intros [_ ?]|]. right. by eexists. }
    destruct (is_ascii presented && is_ascii (String x token)) eqn:Ea; cbn -[is_ascii].
    + apply andb_true_iff in Ea as [_ Ht]. case_bool_decide as Hp.
      * subst. left. split; [done|]. by split.
      * right. split; [intros [_ [= E]]; by apply Hp|]. right. by eexists.
    + right. split; [|by left]. intros [Ht [= ->]]. by rewrite Ht in Ea.
Qed.

(** C10: Nothing behind the gate runs without authorization.  With a token
    configured, only a request that presents exactly it reaches its handler;
    without one, every request does in development and none in production,
    whatever the validation of the settings has let through.  Everything else is
    answered 401 or 503, or raises, and leaves the state alone; with validated
    settings it is never 503. *)
Theorem internal_gate (hs : headers) (r : internal_request) (w : World) :
  let run := internal_route hs r in
  (authorized hs → run w = dispatch r w) ∧
  (¬ authorized hs → (run w).2 = w ∧
     ((run w).1 = Err TypeError ∨
      ∃ exc, (run w).1 = Ok (inr exc) ∧
        he_status exc = if snonempty (internal_auth_token security) then 401 else 503)) ∧
  (validate_security security = Ok security → ¬ authorized hs → internal_auth_token security ≠ EmptyString).
Proof.
  intros run. subst run. unfold internal_route. split_and!.
  - intros Ha. by destruct (auth_cases hs) as [[-> _]|[Hn _]].
  - destruct (auth_cases hs) as [[_ Ha]|[_ [[-> _]|(exc & -> & Hs)]]]; [done|..]; intros _; (split; [done|]).
    + by left.
    + right. by exists exc.
  - unfold validate_security, authorized. intros Hv Hn Ht. rewrite Ht in Hv, Hn.
    by destruct (security_mode security).
Qed.

(** ** What the handlers change *)

Context {laws : PostgresLaws}.

(** The invariants of tables and index, kept from one state to the next. *)
Definition keeps_index (w w' : World) : Prop := index_ok w → index_ok w'.

#[local] Instance keeps_index_preorder : PreOrder keeps_index.
Proof. split; [intros w Hi; exact Hi|]. intros w1 w2 w3 H1 H2 Hi. by apply H2, H1. Qed.

Lemma caught_state {A} (m : io A) w : (caught m w).2 = (m w).2.
Proof. unfold caught. by destruct (m w). Qed.

Lemma with_uuid_keeps (R : World → World → Prop) `{!PreOrder R} {A} value what (k : Z → handler A) :
  (∀ id, preserves R (k id)) → preserves R (with_uuid value what k).
Proof. intros Hk w. unfold with_uuid. destruct (uuid_parse value); [apply Hk|simpl; reflexivity]. Qed.

Lemma with_memory_keeps (R : World → World → Prop) `{!PreOrder R} {A} (k : MemoryService → handler A) :
  (∀ m, preserves R (k m)) → preserves R (with_memory k).
Proof. intros Hk w. unfold with_memory. destruct memory; [apply Hk|simpl; reflexivity]. Qed.

(** Only the first part of a handler touches the state. *)
Lemma after_keeps (R : World → World → Prop) {A B} (m : io A) (k : A → io B) :
  preserves R m → (∀ a w, (k a w).2 = w) → preserves R (m ≫= k).
Proof. intros Hm Hk w. unfold mbind, io_bind. specialize (Hm w). destruct (m w) as [[a|e] w']; [by rewrite Hk|done]. Qed.

(** Nothing in the tables changes. *)
Notation reads := (net (λ _, False)).

Lemma preview_reads conversation_id messages tools :
  preserves reads (preview_route conversation_id messages tools).
Proof.
  apply with_uuid_keeps; [apply _|]. intros id. destruct engine as [eng|]; [|intros w; simpl; reflexivity].
  destruct (validate_chat_payload _) as [u|e]; [|destruct e; intros w; simpl; reflexivity].
  intros w. unfold mbind at 1, io_bind at 1, io_lift at 1.
  destruct (separate_current_request messages) as [split|e]; [|simpl; reflexivity].
  revert w. apply after_keeps.
  - unfold preview_items. destruct memory as [m|]; [|intros w; simpl; reflexivity].
    destruct (snonempty _); [|intros w; simpl; reflexivity]. apply after_keeps.
    + intros w. rewrite caught_state. apply retrieve_net.
    + by intros [items|[]].
  - intros items w. by destruct (build _ _ _ _ _ _ _ _) as [p|[]].
Qed.

Lemma dispatch_keeps r : preserves keeps_index (dispatch r).
Proof.
  destruct r as [spec|id status|q c limit|c|c force|c messages tools]; simpl.
  - apply with_uuid_keeps; [apply _|]. intros _.
    assert (preserves keeps_index (with_memory (λ m,
      r ← caught (create_and_embed server m now spec);
      match r with
      | Ok id => mret (inl (MemoryCreated (uuid_str id)))
      | Err e => match value_error e with Some text => abort (A:=internal_response) 404 text | None => io_raise e end
      end))) as H.
    { apply with_memory_keeps; [apply _|]. intros m. apply after_keeps.
      - intros w Hi. rewrite caught_state. by apply create_keeps.
      - intros [id|e] w; [done|]. by destruct (value_error e). }
    destruct (mc_supersedes spec); [|exact H]. apply with_uuid_keeps; [apply _|done].
  - apply with_uuid_keeps; [apply _|]. intros z. apply with_memory_keeps; [apply _|]. intros _.
    apply after_keeps; [|by intros []]. intros w Hi.
    apply (run_tables_index w (MSupersede z status)) in Hi; [|done]. unfold on_tables. simpl in *.
    by destruct (supersede_memory z status (w_mem w)).
  - apply with_uuid_keeps; [apply _|]. intros z. apply with_memory_keeps; [apply _|]. intros m.
    apply after_keeps; [|done]. intros w Hi. eapply net_index; [apply retrieve_net|done].
  - apply with_uuid_keeps; [apply _|]. intros z. apply with_memory_keeps; [apply _|]. intros m.
    apply after_keeps; [|done]. intros w Hi. by destruct (index_turns_keeps server m now (uuid_str z) w Hi).
  - apply with_memory_keeps; [apply _|]. intros m.
    assert (∀ scope, preserves keeps_index (summary ← rebuild_vector_index server m scope force;
      mret (inl (B:=HTTPException) (Rebuilt summary)))) as H.
    { intros scope. apply after_keeps; [|done]. intros w Hi. by apply rebuild_keeps. }
    destruct c as [[|x c]|]; [apply H| |apply H]. apply with_uuid_keeps; [apply _|]. intros z. apply H.
  - intros w Hi. eapply net_index; [apply preview_reads|done].
Qed.

(** ** The preview and the chat route *)

Lemma retrieve_items_preview {S} (app : App) (rq : Request) c messages (w : Proxy S) :
  ap_memory app = memory → rq_retrieval_up rq = db_up → rq_now rq = now →
  retrieve_items server app rq c messages w
  = let '(r, world) := preview_items c messages (px_world w) in
    (r, MkProxy world (px_llm w) (px_sent w) (px_usage w)).
Proof.
  intros Em Eu En. unfold retrieve_items, preview_items. rewrite Em Eu En.
  destruct memory as [m|]; [|by destruct w]. destruct (snonempty _); [|by destruct w].
  unfold attempt, caught, on_world, mbind, pio_bind, io_bind.
  destruct (retrieve _ _ _ _ _ _ _ _) as [[items|e] world]; [done|]. by destruct e.
Qed.

(** C11: The preview shows what a request would send.  When it answers with a
    view, the chat route, in the same state and for the same conversation,
    messages and tools, assembles a plan with exactly this view, having asked
    the services the same things; and the preview has changed no table. *)
Theorem preview_agrees {S} (app : App) (rq : Request) (conversation_id : string) (id : Z)
    (messages : list obj) (tools : json) (w : Proxy S) (world : World) view :
  uuid_parse conversation_id = Some id →
  ap_engine app = engine → ap_memory app = memory → rq_retrieval_up rq = db_up → rq_now rq = now →
  dispatch (ContextPreview conversation_id messages tools) (px_world w) = (Ok (inl (Previewed view)), world) →
  w_mem world = w_mem (px_world w) ∧
  ∃ plan, debug_view plan = view ∧
    plan_messages_for server app rq (uuid_str id) messages tools w
    = (Ok (ep_messages plan), MkProxy world (px_llm w) (px_sent w) (px_usage w)).
Proof.
  intros Hid Ee Em Eu En H. split.
  { pose proof (preview_reads conversation_id messages tools (px_world w)) as [Hn _].
    simpl in H. by rewrite H in Hn. }
  simpl in H. unfold preview_route, with_uuid in H. rewrite Hid in H.
  unfold plan_messages_for. rewrite Ee. destruct engine as [eng|]; [|done].
  destruct (validate_chat_payload _) as [u|e]; [|by destruct e].
  unfold mbind at 1, io_bind at 1, io_lift in H. unfold mbind at 1, pio_bind at 1.
  rewrite (retrieve_items_preview app rq _ _ w Em Eu En).
  destruct (separate_current_request messages) as [split|e] eqn:Es; [|done].
  unfold mbind at 1, io_bind at 1 in H.
  destruct (preview_items _ _ _) as [[items|e] w1]; [|done].
  unfold mbind at 1, pio_bind at 1, pio_res at 1.
  unfold mbind at 1, pio_bind at 1, pio_res at 1.
  destruct (build _ _ _ _ _ _ _ _) as [plan|e]; [|by destruct e].
  injection H as <- <-. exists plan. by split.
Qed.
End internal.

(** ** The whole proxy *)

Section proxy.
Context {host : Host} {pg : Postgres} {laws : PostgresLaws} {uu : Uuids} {si : SessionIds} {se : Search}.
Context {utf8 : Utf8} {jlaws : JsonLaws}.
Context {S : Type} {llm : LLMProvider S}.
Context (server : nat → request → reply) (app : App) (security : SecuritySettings).

(** The requests the proxy serves, one at a time. *)
Inductive proxy_request : Type :=
| ChatRequest (rq : Request)
| ModelsRequest
| InternalRequest (hs : headers) (db_up : bool) (now : Q) (r : internal_request).

Definition serve_request (w : Proxy S) (x : proxy_request) : Proxy S :=
  match x with
  | ChatRequest rq => (chat_completions server app rq w).2
  | ModelsRequest => (list_models w).2
  | InternalRequest hs db_up now r =>
      (on_world (internal_route server security (ap_memory app) (ap_engine app) db_up now hs r) w).2
  end.

Definition proxy_request_ok (x : proxy_request) : Prop :=
  match x with ChatRequest rq => request_ok app rq | _ => True end.

Lemma internal_keeps hs db_up now r w :
  index_ok w →
  index_ok (internal_route server security (ap_memory app) (ap_engine app) db_up now hs r w).2.
Proof.
  intros Hi. unfold internal_route. destruct (require_internal_auth _ _) as [[exc|]|e]; [done| |done].
  by apply dispatch_keeps.
Qed.

(** Any single request keeps the invariants. *)
Lemma serve_request_keeps (w : Proxy S) (x : proxy_request) :
  index_ok (px_world w) → proxy_request_ok x → index_ok (px_world (serve_request w x)).
Proof.
  intros Hi Hx. destruct x as [rq| |hs db_up now r]; simpl.
  - pose proof (chat_grows server app rq Hx w Hi) as H. simpl in H.
    destruct (conversation_of app rq w) as [[c p]|]; [apply H|by rewrite H].
  - unfold list_models. by destruct (llm_list_models (px_llm w)).
  - pose proof (internal_keeps hs db_up now r (px_world w) Hi) as H. unfold on_world.
    by destruct (internal_route _ _ _ _ _ _ _ _ _).
Qed.

(** However the requests come, the tables and the vector index stay
    consistent: every stored row keeps the invariants of the store and of the
    memory, every point ever sent to the vector store stands for a row of the
    same conversation, and a chunk is marked as indexed only if the vector store
    accepted it. *)
Theorem proxy_invariant (w : Proxy S) (xs : list proxy_request) :
  index_ok (px_world w) → Forall proxy_request_ok xs →
  index_ok (px_world (foldl serve_request w xs)).
Proof.
  intros Hi Hxs. revert w Hi. induction Hxs as [|x xs Hx _ IH]; intros w Hi; [done|]. simpl.
  by apply IH, serve_request_keeps.
Qed.
End proxy.

(** ** Samples *)

#[local] Existing Instances sample_host sample_postgres sample_laws sample_uuids sample_search.
#[local] Existing Instances sample_sessions sample_utf8 sample_json_laws.

Definition sample_security : SecuritySettings := MkSecurity Production "secret".

Definition sample_internal (hs : headers) (r : internal_request) (w : World) :=
  internal_route good_server sample_security (Some sample_service) (Some (sample_engine 60)) true 0 hs r w.

Lemma internal_gate_witness :
  (sample_internal [("X-Internal-Auth", "guess")] (RebuildIndex None true) empty_world).2 = empty_world ∧
  internal_auth_token sample_security ≠ EmptyString.
Proof.
  destruct (internal_gate good_server sample_security (Some sample_service) (Some (sample_engine 60)) true 0
    [("X-Internal-Auth", "guess")] (RebuildIndex None true) empty_world) as (_ & H2 & H3).
  assert (¬ authorized sample_security [("X-Internal-Auth", "guess")]) as Hn by (intros [_ [=]]).
  split; [exact (proj1 (H2 Hn))|exact (H3 eq_refl Hn)].
Defined.

(** A stored turn, so that the preview has something to retrieve. *)
Definition sample_preview : internal_request :=
  ContextPreview (unary_str 4) [chat_message "user" "hi"] JNull.

Definition sample_preview_run := sample_internal [("X-Internal-Auth", "secret")] sample_preview empty_world.

Lemma preview_agrees_witness :
  ∃ view world plan, sample_preview_run = (Ok (inl (Previewed view)), world) ∧ debug_view plan = view ∧
    ep_messages plan = [chat_message "user" "hi"].
Proof.
  destruct sample_preview_run as [[[[| | | | |view]|]|] world] eqn:E; try (vm_compute in E; discriminate).
  exists view, world.
  assert (dispatch good_server (Some sample_service) (Some (sample_engine 60)) true 0 sample_preview
    (px_world sample_proxy) = (Ok (inl (Previewed view)), world)) as H by exact E.
  destruct (preview_agrees (uu:=sample_uuids) (se:=sample_search) (S:=ProviderState) good_server (Some sample_service) (Some (sample_engine 60)) true 0
    sample_app sample_rq (unary_str 4) 4 [chat_message "user" "hi"] JNull sample_proxy world view
    ltac:(vm_compute; reflexivity) eq_refl eq_refl eq_refl eq_refl H) as (_ & plan & Hp & Hm).
  exists plan. split; [reflexivity|]. split; [exact Hp|]. apply (f_equal fst) in Hm. vm_compute in Hm.
  injection Hm as Hm. symmetry. exact Hm.
Defined.

Definition sample_requests : list proxy_request :=
  [ChatRequest sample_rq; ModelsRequest;
   InternalRequest [("x-internal-auth", "secret")] true 1
     (CreateMemory (MkMemoryCreate FACT "prefers tea" (unary_str 4) [] 1 None []));
   InternalRequest [] true 1 (IndexConversation (unary_str 4))].

Definition sample_serve : Proxy ProviderState → proxy_request → Proxy ProviderState :=
  serve_request (llm := openai_compatible default_ResilienceSettings (answering "answer"))
    good_server sample_app sample_security.

Lemma proxy_invariant_witness :
  let w := foldl sample_serve sample_proxy sample_requests in
  index_ok (px_world w) ∧ length (me_memories (w_mem (px_world w))) = 1%nat.
Proof.
  split; [|vm_compute; reflexivity].
  apply (proxy_invariant (llm := openai_compatible default_ResilienceSettings (answering "answer"))
    good_server sample_app sample_security sample_proxy sample_requests); [exact empty_index_ok|].
  repeat constructor; exact sample_request_ok || apply sample_request_ok.
Defined.

(** A token that is not ASCII makes the comparison raise: an internal error where
    401 is meant. *)
Example non_ascii_token_raises :
  (sample_internal [("x-internal-auth", str1 (chr 233))] (RebuildIndex None false) empty_world).1
  = Err TypeError.
Proof. vm_compute. reflexivity. Qed.
