(* ===== verification/Metrics.v ===== *)
(** * The metrics registry ([observability/metrics.py])

    Counters, gauges and histograms over label sets, their text rendering, and
    the two helpers that feed them.  The locks make every method atomic; floats
    are rationals. *)

From stdpp Require Import list.
From Stdlib Require Import QArith Lqa.
From S2P Require Import Prelude PyDict PyString Json.
Local Open Scope Z_scope.

(** ** Labels *)

(** [value.replace(old, new)] for one character [old]. *)
Fixpoint replace_char (old : Ascii.ascii) (new : string) (s : string) : string :=
  match s with
  | EmptyString => EmptyString
  | String c s' =>
      if bool_decide (c = old) then new +:+ replace_char old new s' else String c (replace_char old new s')
  end.

Definition newline : Ascii.ascii := chr 10.
Definition quote : Ascii.ascii := chr 34.
Definition LABEL_CHARS : nat := 128.

Definition escape_label (value : string) : string :=
  replace_char newline (String backslash "n")
    (replace_char quote (String backslash dquote)
       (replace_char backslash (String backslash (str1 backslash)) value)).

(** [... [:128] or "unknown"] *)
Definition _sanitize_label (value : string) : string :=
  match stake LABEL_CHARS (escape_label value) with EmptyString => "unknown" | s => s end.

Definition name_char (c : Ascii.ascii) : bool :=
  let z := ord c in
  ((48 <=? z) && (z <=? 58)) || ((65 <=? z) && (z <=? 90)) || (z =? 95) || ((97 <=? z) && (z <=? 122)).

Definition _sanitize_name (value : string) : string :=
  smap (λ c, if name_char c then c else chr 95) value.

(** A label set: the sanitized values, in the order of the label names. *)
Definition series : Type := list string.

(** [.labels(...)]: missing labels are empty. *)
Definition series_key (labelnames : list string) (labels : list (string * string)) : series :=
  (λ ln, _sanitize_label (default EmptyString (dget labels ln))) <$> labelnames.

(** ** Counters and gauges *)

Record Counter : Type := MkCounter {
  ct_name : string;
  ct_documentation : string;
  ct_labelnames : list string;
  ct_values : list (series * Q);
}.

Definition Counter_init (name documentation : string) (labelnames : list string) : Counter :=
  MkCounter (_sanitize_name name) documentation labelnames [].

Definition set_values (vs : list (series * Q)) (c : Counter) : Counter :=
  MkCounter (ct_name c) (ct_documentation c) (ct_labelnames c) vs.

(** [labels] creates the series and gives its key. *)
Definition Counter_labels (labels : list (string * string)) (c : Counter) : series * Counter :=
  let key := series_key (ct_labelnames c) labels in
  (key, set_values (dsetdefault (ct_values c) key 0%Q) c).

Definition Counter_inc (key : option series) (amount : Q) (c : Counter) : res Counter :=
  key ← match key with
        | Some key => Ok key
        | None => match ct_labelnames c with
                  | [] => Ok []
                  | _ => Err (ValueError "labeled counter requires .labels()")
                  end
        end;
  Ok (set_values (dset (ct_values c) key (default 0%Q (dget (ct_values c) key) + amount)%Q) c).

(** [c.labels(...).inc(amount)] *)
Definition inc_labelled (labels : list (string * string)) (amount : Q) (c : Counter) : res Counter :=
  let '(key, c) := Counter_labels labels c in Counter_inc (Some key) amount c.

Definition Gauge : Type := Counter.
Definition Gauge_set (key : series) (value : Q) (g : Gauge) : Gauge :=
  set_values (dset (ct_values g) key value) g.
Definition set_labelled (labels : list (string * string)) (value : Q) (g : Gauge) : Gauge :=
  let '(key, g) := Counter_labels labels g in Gauge_set key value g.

(** ** Histograms *)

Definition DEFAULT_BUCKETS : list Q :=
  [5 # 1000; 1 # 100; 25 # 1000; 5 # 100; 1 # 10; 1 # 4; 1 # 2; 1; 5 # 2; 5; 10; 30]%Q.

Record Histogram : Type := MkHistogram {
  hg_name : string;
  hg_documentation : string;
  hg_labelnames : list string;
  hg_buckets : list Q;
  hg_bucket_counts : list (series * list Z);
  hg_sums : list (series * Q);
  hg_counts : list (series * Z);
}.

Definition Histogram_init (name documentation : string) (labelnames : list string) (buckets : list Q)
    : Histogram :=
  MkHistogram (_sanitize_name name) documentation labelnames (py_sorted Qle_bool buckets) [] [] [].

Definition set_series (bs : list (series * list Z)) (sums : list (series * Q)) (cs : list (series * Z))
    (h : Histogram) : Histogram :=
  MkHistogram (hg_name h) (hg_documentation h) (hg_labelnames h) (hg_buckets h) bs sums cs.

Definition Histogram_labels (labels : list (string * string)) (h : Histogram) : series * Histogram :=
  let key := series_key (hg_labelnames h) labels in
  (key,
   if dmem (hg_bucket_counts h) key then h
   else set_series (dset (hg_bucket_counts h) key (replicate (length (hg_buckets h)) 0))
          (dset (hg_sums h) key 0%Q) (dset (hg_counts h) key 0) h).

(** Every bound at least [value] counts one more. *)
Fixpoint count_buckets (value : Q) (bounds : list Q) (counts : list Z) : list Z :=
  match bounds, counts with
  | bound :: bounds, n :: counts =>
      (if Qle_bool value bound then n + 1 else n) :: count_buckets value bounds counts
  | _, _ => counts
  end.

Definition Histogram_observe (key : series) (value : Q) (h : Histogram) : res Histogram :=
  match dget (hg_bucket_counts h) key with
  | None => Err KeyError
  | Some counts =>
      Ok (set_series (dset (hg_bucket_counts h) key (count_buckets value (hg_buckets h) counts))
            (dset (hg_sums h) key (default 0%Q (dget (hg_sums h) key) + value)%Q)
            (dset (hg_counts h) key (default 0 (dget (hg_counts h) key) + 1)) h)
  end.

(** [set_gauge_value] creates the series; the value is not used. *)
Definition set_gauge_value (key : series) (value : Q) (h : Histogram) : Histogram :=
  if dmem (hg_bucket_counts h) key then h
  else set_series (dset (hg_bucket_counts h) key (replicate (length (hg_buckets h)) 0))
         (dset (hg_sums h) key 0%Q) (dset (hg_counts h) key 0) h.

(** [max(0.0, value)] *)
Definition nonneg (value : Q) : Q := if Qle_bool value 0 then 0%Q else value.

(** [h.labels(...).observe(value)] *)
Definition observe_labelled (labels : list (string * string)) (value : Q) (h : Histogram) : res Histogram :=
  let '(key, h) := Histogram_labels labels h in Histogram_observe key (nonneg value) h.

(** ** Rendering *)

Section render.
Context {host : Host}.

(** [int(value) if float(value).is_integer() else value] *)
Definition render_value (q : Q) : string :=
  let r := Qred q in
  if bool_decide (Qden r = 1%positive) then py_str (JInt (Qnum r)) else float_repr q.

Definition label_pair (p : string * string) : string := p.1 +:+ "=" +:+ dquote +:+ p.2 +:+ dquote.

Definition braced (pairs : list (string * string)) : string :=
  "{" +:+ join "," (label_pair <$> pairs) +:+ "}".

(** [sorted] compares the keys as tuples of strings. *)
Fixpoint series_leb (a b : series) : bool :=
  match a, b with
  | [], _ => true
  | _ :: _, [] => false
  | x :: a', y :: b' => if bool_decide (x = y) then series_leb a' b' else str_leb x y
  end.

Definition render_scalar (type : string) (c : Counter) : list string :=
  ["# HELP " +:+ ct_name c +:+ " " +:+ ct_documentation c; "# TYPE " +:+ ct_name c +:+ " " +:+ type]
  ++ ((λ kv, ct_name c
              +:+ match ct_labelnames c with [] => EmptyString | names => braced (zip names kv.1) end
              +:+ " " +:+ render_value kv.2)
      <$> py_sorted (λ a b, series_leb a.1 b.1) (ct_values c)).

Definition Counter_render : Counter → list string := render_scalar "counter".
Definition Gauge_render : Gauge → list string := render_scalar "gauge".

Definition render_series (h : Histogram) (key : series) : list string :=
  let counts := default [] (dget (hg_bucket_counts h) key) in
  let pairs := zip (hg_labelnames h) key in
  let total := py_str (JInt (default 0 (dget (hg_counts h) key))) in
  let sum_labels := match pairs with [] => EmptyString | _ => braced pairs end in
  ((λ bn, hg_name h +:+ "_bucket" +:+ braced (pairs ++ [("le", float_repr bn.1)]) +:+ " " +:+ py_str (JInt bn.2))
     <$> zip (hg_buckets h) counts)
  ++ [hg_name h +:+ "_bucket" +:+ braced (pairs ++ [("le", "+Inf")]) +:+ " " +:+ total;
      hg_name h +:+ "_sum" +:+ sum_labels +:+ " " +:+ float_repr (default 0%Q (dget (hg_sums h) key));
      hg_name h +:+ "_count" +:+ sum_labels +:+ " " +:+ total].

Definition Histogram_render (h : Histogram) : list string :=
  ["# HELP " +:+ hg_name h +:+ " " +:+ hg_documentation h; "# TYPE " +:+ hg_name h +:+ " histogram"]
  ++ concat (render_series h <$> py_sorted series_leb (hg_bucket_counts h).*1).

Inductive Collector : Type := CCounter (c : Counter) | CGauge (g : Gauge) | CHistogram (h : Histogram).

Definition Collector_render (c : Collector) : list string :=
  match c with
  | CCounter c => Counter_render c
  | CGauge g => Gauge_render g
  | CHistogram h => Histogram_render h
  end.

(** [Registry]: the collectors in the order of registration. *)
Definition Registry_render (collectors : list Collector) : string :=
  join nl (concat ((λ c, Collector_render c ++ [EmptyString]) <$> collectors)).
End render.

(** [Registry.reset] drops every series. *)
Definition Collector_reset (c : Collector) : Collector :=
  match c with
  | CCounter c => CCounter (set_values [] c)
  | CGauge g => CGauge (set_values [] g)
  | CHistogram h => CHistogram (set_series [] [] [] h)
  end.

Definition Registry_reset (collectors : list Collector) : list Collector := Collector_reset <$> collectors.

(** ** Helpers *)

(** The amount of an [int] or [float] field; [bool] is an [int]. *)
Definition number_of (v : json) : option Q :=
  match v with
  | JInt n => Some (inject_Z n)
  | JFloat q => Some q
  | JBool b => Some (if b then 1 else 0)%Q
  | _ => None
  end.

(** [record_tokens]: whatever raises is swallowed. *)
Definition record_tokens (usage : json) (tokens : Counter) : Counter :=
  let add (c : Counter) field direction :=
    match number_of field with
    | Some n => match inc_labelled [("direction", direction)] n c with Ok c' => c' | Err _ => c end
    | None => c
    end in
  match usage with
  | JObj usage =>
      add (add tokens (oget usage "prompt_tokens") "prompt") (oget usage "completion_tokens") "completion"
  | _ => tokens
  end.

Definition CIRCUIT_STATES : list string := ["closed"; "open"; "half_open"].

Definition set_circuit_state (state : string) (g : Gauge) : Gauge :=
  foldl (λ g known, set_labelled [("state", known)] (if bool_decide (known = state) then 1 else 0)%Q g)
    g CIRCUIT_STATES.

(** ** Escaping *)

Fixpoint unescape (s : string) : string :=
  match s with
  | EmptyString => EmptyString
  | String c s' =>
      if bool_decide (c = backslash) then
        match s' with
        | EmptyString => EmptyString
        | String d t => String (if bool_decide (d = chr 110) then newline else d) (unescape t)
        end
      else String c (unescape s')
  end.

Definition escape_char (c : Ascii.ascii) : string :=
  if bool_decide (c = backslash) then String backslash (str1 backslash)
  else if bool_decide (c = quote) then String backslash dquote
  else if bool_decide (c = newline) then String backslash "n"
  else str1 c.

Lemma replace_char_app old new s t :
  replace_char old new (s +:+ t) = replace_char old new s +:+ replace_char old new t.
Proof.
  induction s as [|c s IH]; [done|]. change (String c s +:+ t) with (String c (s +:+ t)). simpl.
  case_bool_decide; rewrite IH; [by rewrite string_app_assoc|done].
Qed.

Lemma escape_label_cons c s : escape_label (String c s) = escape_char c +:+ escape_label s.
Proof.
  unfold escape_label. change (String c s) with (str1 c +:+ s). rewrite !replace_char_app. f_equal. by_char c.
Qed.

Lemma unescape_escape s : unescape (escape_label s) = s.
Proof.
  induction s as [|c s IH]; [done|]. rewrite escape_label_cons. unfold escape_char.
  case_bool_decide as H1; [subst; change (String backslash (unescape (escape_label s)) = String backslash s); by f_equal|].
  case_bool_decide as H2; [subst; change (String quote (unescape (escape_label s)) = String quote s); by f_equal|].
  case_bool_decide as H3; [subst; change (String newline (unescape (escape_label s)) = String newline s); by f_equal|].
  change (str1 c +:+ escape_label s) with (String c (escape_label s)). simpl.
  rewrite bool_decide_eq_false_2; [done|]. by f_equal.
Qed.

Lemma escape_no_newline s : has_char newline (escape_label s) = false.
Proof.
  induction s as [|c s IH]; [done|]. rewrite escape_label_cons has_char_app IH orb_false_r. by_char c.
Qed.

Lemma has_char_stake x n s : has_char x s = false → has_char x (stake n s) = false.
Proof.
  revert s. induction n as [|n IH]; intros [|c s]; simpl; try done.
  rewrite !orb_false_iff. intros [? ?]. auto.
Qed.

Lemma stake_all n s : (String.length s ≤ n)%nat → stake n s = s.
Proof. revert s. induction n as [|n IH]; intros [|c s]; simpl; intros; try done; [lia|]. rewrite IH; [lia|done]. Qed.

(** A label value stays on its line and within 128 characters, and a reader
    of the text format gets the value back, unless it was empty or its escaped
    form had to be cut. *)
Theorem label_roundtrip (v : string) :
  let s := _sanitize_label v in
  1 ≤ slen s ≤ 128 ∧ has_char newline s = false ∧
  (v ≠ EmptyString → slen (escape_label v) ≤ 128 → unescape s = v).
Proof.
  unfold _sanitize_label. pose proof (escape_no_newline v) as Hn.
  pose proof (length_stake LABEL_CHARS (escape_label v)) as Hl.
  destruct (stake LABEL_CHARS (escape_label v)) as [|c s] eqn:E.
  - split_and!; [done..|]. intros Hv _. apply (f_equal String.length) in E. exfalso. apply Hv.
    rewrite length_stake in E. destruct (escape_label v) as [|c s] eqn:Ev; [|simpl in E; lia].
    by rewrite -(unescape_escape v) Ev.
  - unfold LABEL_CHARS in Hl. split_and!.
    + unfold slen. simpl. lia.
    + unfold slen. rewrite Hl. lia.
    + rewrite -E. by apply has_char_stake.
    + intros _ Hlen. rewrite -E stake_all; [unfold LABEL_CHARS; unfold slen in Hlen; lia|]. apply unescape_escape.
Qed.

(** ** Counting *)

Definition observations : Type := list (list (string * string) * Q).

Definition observe_all (obs : observations) (h : Histogram) : res Histogram :=
  foldM (λ h o, observe_labelled o.1 o.2 h) h obs.

(** The values observed for one series. *)
Definition values_of (labelnames : list string) (key : series) (obs : observations) : list Q :=
  (λ o, nonneg o.2) <$> filter (λ o, series_key labelnames o.1 = key) obs.

Definition at_most (bound : Q) (values : list Q) : Z :=
  Z.of_nat (length (filter (λ v, Qle_bool v bound = true) values)).

Record counts_ok (obs : observations) (h h' : Histogram) : Prop := {
  co_names : hg_labelnames h' = hg_labelnames h;
  co_buckets : hg_buckets h' = hg_buckets h;
  co_series : ∀ key, let values := values_of (hg_labelnames h) key obs in
    dget (hg_bucket_counts h') key
    = (if values then None else Some ((λ b, at_most b values) <$> hg_buckets h)) ∧
    dget (hg_sums h') key = (if values then None else Some (foldl Qplus 0%Q values)) ∧
    dget (hg_counts h') key = (if values then None else Some (Z.of_nat (length values)));
}.

Lemma count_buckets_spec v bounds values :
  count_buckets v bounds ((λ b, at_most b values) <$> bounds) = (λ b, at_most b (values ++ [v])) <$> bounds.
Proof.
  induction bounds as [|b bounds IH]; [done|]. cbn -[at_most]. rewrite -IH. f_equal.
  unfold at_most. rewrite filter_app length_app filter_cons filter_nil.
  destruct (Qle_bool v b); simpl; lia.
Qed.

Lemma values_of_snoc names key obs o :
  values_of names key (obs ++ [o])
  = values_of names key obs ++ (if decide (series_key names o.1 = key) then [nonneg o.2] else []).
Proof.
  unfold values_of. rewrite filter_app fmap_app filter_cons filter_nil. by case_decide.
Qed.

Lemma observe_step obs h h' o :
  counts_ok obs h h' → ∃ h1, observe_labelled o.1 o.2 h' = Ok h1 ∧ counts_ok (obs ++ [o]) h h1.
Proof.
  intros [Hn Hb Hs]. unfold observe_labelled, Histogram_labels. rewrite Hn.
  set (key := series_key (hg_labelnames h) o.1). destruct (Hs key) as (H1 & H2 & H3).
  set (values := values_of (hg_labelnames h) key obs) in *.
  destruct (dmem (hg_bucket_counts h') key) eqn:Em.
  - assert (values ≠ []) as Hne.
    { intros E. rewrite E in H1. apply dmem_true, dget_is_Some in Em as [x Hx]. congruence. }
    unfold Histogram_observe. rewrite H1 H2 H3. destruct values as [|v0 vs] eqn:Ev; [done|].
    eexists. split; [reflexivity|]. split; [done..|]. intros k. rewrite values_of_snoc. fold key. simpl.
    case_decide as Hk; [subst k|].
    + rewrite !dget_dset_eq. fold values. rewrite Ev Hb count_buckets_spec. split_and!; [done| |].
      * by rewrite foldl_app.
      * f_equal. rewrite length_app. simpl. lia.
    + by rewrite app_nil_r !dget_dset_ne.
  - assert (values = []) as Ev.
    { destruct values as [|v0 vs]; [done|]. apply not_true_iff_false in Em. exfalso. apply Em, dmem_true, dget_is_Some.
      rewrite H1. by eexists. }
    unfold Histogram_observe. simpl. rewrite !dget_dset_eq. eexists. split; [reflexivity|]. split; [done..|].
    intros k. rewrite values_of_snoc. fold key. simpl. case_decide as Hk; [subst k|].
    + rewrite !dget_dset_eq. fold values. rewrite Ev. simpl. split_and!; [|done|done]. f_equal.
      rewrite Hb -(count_buckets_spec _ _ []). f_equal. clear. induction (hg_buckets h); simpl; by f_equal.
    + by rewrite app_nil_r !dget_dset_ne.
Qed.

Lemma at_most_mono b b' values : (b <= b')%Q → at_most b values ≤ at_most b' values.
Proof.
  intros Hb. unfold at_most. induction values as [|v values IH]; [done|]. rewrite !filter_cons.
  assert (Qle_bool v b = true → Qle_bool v b' = true) as Hi by (rewrite !Qle_bool_iff; lra).
  destruct (decide (Qle_bool v b = true)), (decide (Qle_bool v b' = true)); simpl; try lia. tauto.
Qed.

Lemma at_most_total b values : at_most b values ≤ Z.of_nat (length values).
Proof. unfold at_most. pose proof (length_filter (λ v, Qle_bool v b = true) values). lia. Qed.

(** A histogram counts right.  Whatever is observed under whatever labels,
    no observation fails; every series has, for each bound, the number of its
    values up to that bound, so that the buckets are cumulative and none
    exceeds the count; and the sum and count are those of its values.  Negative
    values count as zero. *)
Theorem histogram_counts (name documentation : string) (labelnames : list string) (buckets : list Q)
    (obs : observations) :
  ∃ h, observe_all obs (Histogram_init name documentation labelnames buckets) = Ok h ∧
  ∀ key, let values := values_of labelnames key obs in
    values ≠ [] →
    dget (hg_bucket_counts h) key = Some ((λ b, at_most b values) <$> py_sorted Qle_bool buckets) ∧
    StronglySorted Z.le ((λ b, at_most b values) <$> py_sorted Qle_bool buckets) ∧
    Forall (λ n, n ≤ Z.of_nat (length values)) ((λ b, at_most b values) <$> py_sorted Qle_bool buckets) ∧
    dget (hg_sums h) key = Some (foldl Qplus 0%Q values) ∧
    dget (hg_counts h) key = Some (Z.of_nat (length values)).
Proof.
  set (h0 := Histogram_init name documentation labelnames buckets).
  assert (∃ h, observe_all obs h0 = Ok h ∧ counts_ok obs h0 h) as (h & Eh & [_ _ Hs]).
  { unfold observe_all. induction obs as [|o obs (h & E & IH)] using rev_ind.
    - exists h0. split; [done|]. split; [done..|]. by intros key.
    - rewrite foldM_app E. simpl. destruct (observe_step _ _ _ o IH) as (h1 & -> & H1). simpl. eauto. }
  exists h. split; [done|]. intros key values Hne. destruct (Hs key) as (H1 & H2 & H3).
  change (hg_labelnames h0) with labelnames in *. fold values in H1, H2, H3.
  change (hg_buckets h0) with (py_sorted Qle_bool buckets) in H1.
  destruct values as [|v vs]; [done|]. split_and!; [done| | |done|done].
  - assert (StronglySorted (λ a b, Qle_bool a b = true) (py_sorted Qle_bool buckets)) as Hsort.
    { apply py_sorted_sorted.
      - intros a b. rewrite !Qle_bool_iff. lra.
      - intros a b c. rewrite !Qle_bool_iff. lra. }
    clear H1 H2 H3. induction Hsort as [|b bs _ IH Hall]; [constructor|]. rewrite fmap_cons. constructor; [done|].
    apply Forall_fmap. eapply Forall_impl; [exact Hall|]. intros b' Hb%Qle_bool_iff. by apply at_most_mono.
  - apply Forall_fmap, Forall_true. intros b. apply at_most_total.
Qed.

(** ** Samples *)

#[local] Existing Instance sample_host.

Lemma label_roundtrip_witness : unescape (_sanitize_label ("a" +:+ dquote +:+ nl)) = "a" +:+ dquote +:+ nl.
Proof. apply (label_roundtrip ("a" +:+ dquote +:+ nl)); vm_compute; discriminate. Defined.

Definition sample_observations : observations :=
  [([("route", "/v1/models")], 2 # 1)%Q; ([("route", "/healthz")], 1 # 10)%Q; ([("route", "/v1/models")], (-1) # 2)%Q].

Lemma histogram_counts_witness :
  ∃ h, observe_all sample_observations (Histogram_init "latency" "Latency." ["route"] [3; 1]%Q) = Ok h ∧
    dget (hg_bucket_counts h) ["/v1/models"] = Some [1; 2].
Proof.
  destruct (histogram_counts "latency" "Latency." ["route"] [3; 1]%Q sample_observations) as (h & E & H).
  exists h. split; [exact E|]. etrans; [apply (H ["/v1/models"]); vm_compute; discriminate|].
  vm_compute. reflexivity.
Defined.

(** The cut after 128 characters can fall into an escape: the value then ends in
    a backslash that swallows the closing quote of the label. *)
Example cut_escape_swallows_quote :
  let s := _sanitize_label (join EmptyString (replicate 127 "a") +:+ str1 backslash) in
  sdrop 127 s = str1 backslash.
Proof. vm_compute. reflexivity. Qed.

(** The value does not reach the histogram, in any of its fields. *)
Example set_gauge_value_ignores_value :
  let h := Histogram_init "level" "Level." [] DEFAULT_BUCKETS in
  set_gauge_value [] 5 h = set_gauge_value [] 7 h ∧ hg_sums (set_gauge_value [] 5 h) = [([], 0%Q)].
Proof. split; reflexivity. Qed.

Example rendered_tokens :
  Counter_render (record_tokens (JObj [("prompt_tokens", JInt 7); ("completion_tokens", JBool true)])
    (Counter_init "tokens" "Tokens." ["direction"]))
  = ["# HELP tokens Tokens."; "# TYPE tokens counter";
     "tokens{direction=" +:+ dquote +:+ "completion" +:+ dquote +:+ "} 1";
     "tokens{direction=" +:+ dquote +:+ "prompt" +:+ dquote +:+ "} 7"].
Proof. vm_compute. reflexivity. Qed.

Example rendered_circuit :
  snd <$> ct_values (set_circuit_state "half_open" (Counter_init "circuit" "State." ["state"])) = [0; 0; 1]%Q.
Proof. vm_compute. reflexivity. Qed.
