(* ===== verification/Middleware.v ===== *)
(** * The ASGI middleware ([observability/middleware.py])

    It stands in front of the application: it names the request, bounds the
    body, asks the rate limiter, runs the application on a replayed body and
    accounts for the request once.  A run is a function of everything the client
    sends; a request whose body never ends leaves the run waiting. *)

From stdpp Require Import list.
From Stdlib Require Import QArith.
From S2P Require Import Prelude PyDict PyString Json RateLimit Http.
Local Open Scope Z_scope.

(** ** Messages *)

(** [http.request], [http.disconnect] and any other received message. *)
Inductive received : Type :=
| RequestPart (content : string) (more : bool)
| Disconnect
| OtherEvent.

(** [http.response.start] and [http.response.body]. *)
Inductive sent : Type :=
| Start (status : Z) (hs : headers)
| Chunk (content : string) (more : bool).

(** The connection scope; header names come in lower case from the server. *)
Record Scope : Type := MkScope {
  sp_http : bool;
  sp_method : string;
  sp_path : string;
  sp_headers : headers;
  sp_client : option string;
}.

(** The application: what it sends, and the exception it ends with, given the
    scope and all the messages that it may receive. *)
Definition Application : Type := Scope → list received → list sent * option exn.

(** ** Policies *)

Definition visible (c : Ascii.ascii) : bool := (33 <=? ord c) && (ord c <=? 126).

Fixpoint all_visible (s : string) : bool :=
  match s with
  | EmptyString => true
  | String c s' => visible c && all_visible s'
  end.

Definition REQUEST_ID_MAX_CHARS : Z := 128.

(** [$] also matches before a newline at the end of the text. *)
Fixpoint strip_last_newline (s : string) : string :=
  match s with
  | EmptyString => EmptyString
  | String c s' =>
      if bool_decide (s' = EmptyString) && (ord c =? 10) then EmptyString
      else String c (strip_last_newline s')
  end.

(** [^[\x21-\x7E]{1,128}$] *)
Definition safe_request_id (raw : string) : bool :=
  let matched s := all_visible s && (1 <=? slen s) && (slen s <=? REQUEST_ID_MAX_CHARS) in
  matched raw || matched (strip_last_newline raw).

Definition _sanitize_request_id (raw : option string) : option string :=
  match raw with
  | Some s => if snonempty s && safe_request_id s then Some s else None
  | None => None
  end.

Definition ROUTE_ALIASES : list string :=
  ["/v1/chat/completions"; "/v1/models"; "/metrics"; "/healthz"; "/readyz"].

Fixpoint match_alias (aliases : list string) (path : string) : option string :=
  match aliases with
  | [] => None
  | prefix :: rest =>
      if bool_decide (path = prefix) || startswith (prefix +:+ "/") path then Some prefix
      else match_alias rest path
  end.

Definition normalize_route (path : string) : string :=
  match match_alias ROUTE_ALIASES path with
  | Some template => template
  | None =>
      if startswith "/internal/v1/conversations/" path then "/internal/v1/conversations/{id}"
      else if startswith "/internal/v1/memories/" path then "/internal/v1/memories/{id}"
      else if startswith "/internal/v1" path then "/internal/v1/*"
      else "other"
  end.

Definition RATE_LIMIT_EXEMPT_ROUTES : list string := ["/healthz"; "/readyz"; "/metrics"].

(** The first header with exactly this name. *)
Definition _header (sp : Scope) (name : string) : option string :=
  snd <$> head (filter (λ nv, nv.1 = name) (sp_headers sp)).

Definition _client_host (sp : Scope) : string := default "unknown" (sp_client sp).

(** ** [Content-Length] *)

(** [str.isdigit]: the superscripts of Latin-1 are digits too. *)
Definition is_digit (c : Ascii.ascii) : bool :=
  let z := ord c in ((48 <=? z) && (z <=? 57)) || (z =? 178) || (z =? 179) || (z =? 185).

Fixpoint all_digits (s : string) : bool :=
  match s with
  | EmptyString => true
  | String c s' => is_digit c && all_digits s'
  end.

Definition isdigit (s : string) : bool := snonempty s && all_digits s.

(** [int] takes decimal digits only, and at most 4300 of them. *)
Fixpoint decimal_from (n : Z) (s : string) : option Z :=
  match s with
  | EmptyString => Some n
  | String c s' =>
      if (48 <=? ord c) && (ord c <=? 57) then decimal_from (10 * n + (ord c - 48)) s' else None
  end.

Definition MAX_STR_DIGITS : Z := 4300.

Definition int_of (s : string) : res Z :=
  if MAX_STR_DIGITS <? slen s then Err (ValueError "int")
  else match decimal_from 0 s with Some n => Ok n | None => Err (ValueError "int") end.

(** Whether the declared length is above the limit. *)
Definition declared_too_large (content_length : option string) (max_body_bytes : Z) : res bool :=
  match content_length with
  | Some s => if isdigit s then n ← int_of s; Ok (max_body_bytes <? n) else Ok false
  | None => Ok false
  end.

(** ** Reading the body *)

Inductive drained : Type :=
| Drained (buffered rest : list received)
| Oversized
| Disconnected
| Waiting.

Fixpoint _drain_body (max_body_bytes total : Z) (buffered input : list received) : drained :=
  match input with
  | [] => Waiting
  | Disconnect :: _ => Disconnected
  | OtherEvent :: rest => _drain_body max_body_bytes total buffered rest
  | RequestPart content more as message :: rest =>
      let total := total + slen content in
      if max_body_bytes <? total then Oversized
      else
        let buffered := buffered ++ [message] in
        if more then _drain_body max_body_bytes total buffered rest else Drained buffered rest
  end.

(** [_replaying_receive]: the buffered messages, then those of the source. *)
Definition _replaying_receive (messages rest : list received) : list received := messages ++ rest.

(** ** The middleware *)

(** The configuration, the limiter, and the counters: every accounted request
    with method, route and status, the disconnects, aborted streams and rate
    limit rejections. *)
Record ObservabilityMiddleware : Type := MkMiddleware {
  mw_max_body_bytes : Z;
  mw_rate_limit_enabled : bool;
  mw_limiter : option RateLimiter;
  mw_requests : list (string * string * Z);
  mw_disconnects : nat;
  mw_aborted : nat;
  mw_rejects : nat;
}.

Definition set_limiter (rl : RateLimiter) (mw : ObservabilityMiddleware) : ObservabilityMiddleware :=
  MkMiddleware (mw_max_body_bytes mw) (mw_rate_limit_enabled mw) (Some rl) (mw_requests mw)
    (mw_disconnects mw) (mw_aborted mw) (mw_rejects mw).

Definition finish (sp : Scope) (status : Z) (mw : ObservabilityMiddleware) : ObservabilityMiddleware :=
  MkMiddleware (mw_max_body_bytes mw) (mw_rate_limit_enabled mw) (mw_limiter mw)
    (mw_requests mw ++ [(sp_method sp, normalize_route (sp_path sp), status)])
    (mw_disconnects mw) (mw_aborted mw) (mw_rejects mw).

Definition count_disconnect (mw : ObservabilityMiddleware) : ObservabilityMiddleware :=
  MkMiddleware (mw_max_body_bytes mw) (mw_rate_limit_enabled mw) (mw_limiter mw) (mw_requests mw)
    (S (mw_disconnects mw)) (mw_aborted mw) (mw_rejects mw).

Definition count_aborted (mw : ObservabilityMiddleware) : ObservabilityMiddleware :=
  MkMiddleware (mw_max_body_bytes mw) (mw_rate_limit_enabled mw) (mw_limiter mw) (mw_requests mw)
    (mw_disconnects mw) (S (mw_aborted mw)) (mw_rejects mw).

Definition count_reject (mw : ObservabilityMiddleware) : ObservabilityMiddleware :=
  MkMiddleware (mw_max_body_bytes mw) (mw_rate_limit_enabled mw) (mw_limiter mw) (mw_requests mw)
    (mw_disconnects mw) (mw_aborted mw) (S (mw_rejects mw)).

(** How a run ends; [run_app_input] is what the application was given, if it
    was called at all. *)
Inductive run_end : Type := Returns | Raises (e : exn) | Waits.

Record run_result : Type := MkRun {
  run_sent : list sent;
  run_app_input : option (list received);
  run_ends : run_end;
}.

Section middleware.
(** Starlette turns a response into headers and body. *)
Context {host : Host} (render : Response → headers * list string).

Definition send_wrapper (request_id : string) (message : sent) : sent :=
  match message with
  | Start status hs =>
      Start status (if existsb (λ nv, bool_decide (lower nv.1 = "x-request-id")) hs then hs
                    else hs ++ [("x-request-id", request_id)])
  | Chunk _ _ => message
  end.

(** [state["response_status"]]: the last status that went out. *)
Definition response_status (messages : list sent) : option Z :=
  last (omap (λ m, match m with Start status _ => Some status | Chunk _ _ => None end) messages).

Definition _error_response (status : Z) (code message : string) (err_type : option string)
    (hs : headers) : Response :=
  openai_error message
    (default (if status <? 500 then "invalid_request_error" else "api_error") err_type)
    (JStr code) JNull status hs.

Definition response_messages (r : Response) : list sent :=
  let '(hs, chunks) := render r in
  Start (rs_status r) hs :: ((λ c, Chunk c false) <$> chunks).

Definition too_large (mw : ObservabilityMiddleware) : Response :=
  _error_response 413 "request_too_large"
    ("request body exceeds " +:+ py_str (JInt (mw_max_body_bytes mw)) +:+ " bytes") None [].

Definition rate_limited (d : AdmissionDecision) : Response :=
  _error_response 429 "rate_limit_exceeded" "rate limit exceeded" (Some "rate_limit_error")
    [("Retry-After", py_str (JInt (retry_after d)))].

(** [reject], and the accounting in [finally]. *)
Definition reject (sp : Scope) (request_id : string) (r : Response) (mw : ObservabilityMiddleware)
    : run_result * ObservabilityMiddleware :=
  (MkRun (send_wrapper request_id <$> response_messages r) None Returns, finish sp (rs_status r) mw).

(** The application, run on the messages it may receive. *)
Definition run_app (app : Application) (sp : Scope) (request_id : string) (input : list received)
    (mw : ObservabilityMiddleware) : run_result * ObservabilityMiddleware :=
  let '(messages, raised) := app sp input in
  let out := send_wrapper request_id <$> messages in
  let account status mw := match status with Some s => finish sp s mw | None => mw end in
  match raised with
  | None => (MkRun out (Some input) Returns, account (response_status messages) mw)
  | Some e =>
      (MkRun out (Some input) (Raises e),
       match response_status messages with
       | Some s => finish sp s (count_aborted mw)
       | None => finish sp 500 mw
       end)
  end.

(** The body, when its length is not declared. *)
Definition run_body (app : Application) (sp : Scope) (request_id : string) (input : list received)
    (mw : ObservabilityMiddleware) : run_result * ObservabilityMiddleware :=
  match _header sp "content-length" with
  | Some _ => run_app app sp request_id input mw
  | None =>
      match _drain_body (mw_max_body_bytes mw) 0 [] input with
      | Oversized => reject sp request_id (too_large mw) mw
      | Disconnected => (MkRun [] None Returns, count_disconnect mw)
      | Waiting => (MkRun [] None Waits, mw)
      | Drained buffered rest =>
          run_app app sp request_id (_replaying_receive buffered rest) mw
      end
  end.

(** [__call__]; [fresh] is the random id and [now] the clock. *)
Definition call (app : Application) (sp : Scope) (input : list received) (fresh : string) (now : Q)
    (mw : ObservabilityMiddleware) : run_result * ObservabilityMiddleware :=
  if negb (sp_http sp) then
    let '(messages, raised) := app sp input in
    (MkRun messages (Some input) (match raised with Some e => Raises e | None => Returns end), mw)
  else
    let request_id := default fresh (_sanitize_request_id (_header sp "x-request-id")) in
    match declared_too_large (_header sp "content-length") (mw_max_body_bytes mw) with
    | Err e => (MkRun [] None (Raises e), mw)
    | Ok true => reject sp request_id (too_large mw) mw
    | Ok false =>
        match mw_limiter mw with
        | Some rl =>
            if mw_rate_limit_enabled mw
               && bool_decide (normalize_route (sp_path sp) ∉ RATE_LIMIT_EXEMPT_ROUTES)
            then
              match RateLimiter_admit rl (_client_host sp) (_header sp "x-conversation-id") now with
              | Err e => (MkRun [] None (Raises e), mw)
              | Ok (d, rl) =>
                  let mw := set_limiter rl mw in
                  if allowed d then run_body app sp request_id input mw
                  else reject sp request_id (rate_limited d) (count_reject mw)
              end
            else run_body app sp request_id input mw
        | None => run_body app sp request_id input mw
        end
    end.

(** ** What reaches the application *)

(** The parts of the body among the messages. *)
Definition is_part (m : received) : bool := match m with RequestPart _ _ => true | _ => false end.
Definition requests (l : list received) : list received := filter (λ m, is_part m = true) l.

Lemma requests_part c more l : requests (RequestPart c more :: l) = RequestPart c more :: requests l.
Proof. done. Qed.

Lemma requests_other l : requests (OtherEvent :: l) = requests l.
Proof. done. Qed.

Fixpoint body_size (l : list received) : Z :=
  match l with
  | [] => 0
  | RequestPart content _ :: rest => slen content + body_size rest
  | _ :: rest => body_size rest
  end.

(** A whole body: only the last part is marked as the last. *)
Definition complete_body (parts : list received) : Prop :=
  ∃ before content, parts = before ++ [RequestPart content false] ∧
    Forall (λ m, ∃ c, m = RequestPart c true) before.

Lemma body_size_app l k : body_size (l ++ k) = body_size l + body_size k.
Proof. induction l as [|[]]; simpl; lia. Qed.

Lemma body_size_nonneg l : 0 ≤ body_size l.
Proof. induction l as [|[c m| |] l IH]; simpl; [lia| |lia..]. pose proof (slen_nonneg c). lia. Qed.

Definition unfinished (l : list received) : Prop := Forall (λ m, ∃ c, m = RequestPart c true) l.

Lemma drain_spec max total buffered input :
  match _drain_body max total buffered input with
  | Drained b rest => ∃ pre, input = pre ++ rest ∧ b = buffered ++ requests pre ∧
      Disconnect ∉ pre ∧ total + body_size (requests pre) ≤ max ∧ complete_body (requests pre)
  | Oversized => ∃ pre rest, input = pre ++ rest ∧ Disconnect ∉ pre ∧
      max < total + body_size (requests pre)
  | Disconnected => ∃ pre rest, input = pre ++ Disconnect :: rest ∧ unfinished (requests pre)
  | Waiting => unfinished (requests input)
  end.
Proof.
  revert total buffered. induction input as [|[content more| |] input IH]; intros total buffered; simpl.
  - constructor.
  - destruct (Z.ltb_spec max (total + slen content)) as [Hlt|Hle].
    + exists [RequestPart content more], input. split_and!; [done| |rewrite requests_part; simpl; lia].
      by intros [[=]|[]%not_elem_of_nil]%elem_of_cons.
    + destruct more.
      * specialize (IH (total + slen content) (buffered ++ [RequestPart content true])).
        destruct (_drain_body _ _ _ _) as [b rest| | |].
        -- destruct IH as (pre & -> & -> & Hd & Hs & (before & c & E & Hb)).
           exists (RequestPart content true :: pre). split_and!; [done| | | |].
           ++ by rewrite -app_assoc.
           ++ by intros [[=]|?]%elem_of_cons.
           ++ rewrite requests_part. simpl. lia.
           ++ exists (RequestPart content true :: before), c. split; [by rewrite requests_part E|].
              constructor; [by eexists|done].
        -- destruct IH as (pre & rest & -> & Hd & Hs). exists (RequestPart content true :: pre), rest.
           split_and!; [done| |rewrite requests_part; simpl; lia]. by intros [[=]|?]%elem_of_cons.
        -- destruct IH as (pre & rest & -> & Hu). exists (RequestPart content true :: pre), rest.
           split; [done|]. constructor; [by eexists|done].
        -- constructor; [by eexists|done].
      * exists [RequestPart content false]. split_and!; [done|done| |rewrite requests_part; simpl; lia|].
        -- by intros [[=]|[]%not_elem_of_nil]%elem_of_cons.
        -- exists [], content. split; [done|constructor].
  - exists [], input. split; [done|constructor].
  - specialize (IH total buffered). destruct (_drain_body _ _ _ _) as [b rest| | |]; [..|done].
    + destruct IH as (pre & -> & -> & Hd & Hs & Hc). exists (OtherEvent :: pre).
      split_and!; [done..| |done|done]. by intros [[=]|?]%elem_of_cons.
    + destruct IH as (pre & rest & -> & Hd & Hs). exists (OtherEvent :: pre), rest.
      split_and!; [done| |done]. by intros [[=]|?]%elem_of_cons.
    + destruct IH as (pre & rest & -> & Hu). exists (OtherEvent :: pre), rest. by split.
Qed.

Definition request_id_of (sp : Scope) (fresh : string) : string :=
  default fresh (_sanitize_request_id (_header sp "x-request-id")).

(** The body may be handed on: as it comes when its length is declared, whole
    and within the limit when it is not. *)
Definition body_admitted (max : Z) (sp : Scope) (input given : list received) : Prop :=
  match _header sp "content-length" with
  | Some s => given = input ∧ (isdigit s = true → ∃ n, int_of s = Ok n ∧ n ≤ max)
  | None => ∃ pre rest, input = pre ++ rest ∧ given = requests pre ++ rest ∧ Disconnect ∉ pre ∧
      complete_body (requests pre) ∧ body_size (requests pre) ≤ max
  end.

Definition body_too_large (max : Z) (sp : Scope) (input : list received) : Prop :=
  match _header sp "content-length" with
  | Some s => isdigit s = true ∧ ∃ n, int_of s = Ok n ∧ max < n
  | None => ∃ pre rest, input = pre ++ rest ∧ Disconnect ∉ pre ∧ max < body_size (requests pre)
  end.

(** The limiter refuses the request. *)
Definition refused (mw : ObservabilityMiddleware) (sp : Scope) (now : Q) : Prop :=
  mw_rate_limit_enabled mw = true ∧ normalize_route (sp_path sp) ∉ RATE_LIMIT_EXEMPT_ROUTES ∧
  ∃ rl d rl', mw_limiter mw = Some rl ∧
    RateLimiter_admit rl (_client_host sp) (_header sp "x-conversation-id") now = Ok (d, rl') ∧
    allowed d = false.

(** Runs that neither call the application nor answer. *)
Definition silent (sp : Scope) (input : list received) (r : run_result) : Prop :=
  run_sent r = [] ∧
  match _header sp "content-length" with
  | Some s => isdigit s = true ∧ ∃ e, int_of s = Err e ∧ run_ends r = Raises e
  | None =>
      (run_ends r = Waits ∧ unfinished (requests input)) ∨
      (run_ends r = Returns ∧ ∃ pre rest, input = pre ++ Disconnect :: rest ∧ unfinished (requests pre))
  end.

(** The counters of [mw'] are those of [mw] with these requests added. *)
Record counted (mw mw' : ObservabilityMiddleware) (done : list (string * string * Z))
    (disconnects aborted rejects : nat) : Prop := {
  ct_max : mw_max_body_bytes mw' = mw_max_body_bytes mw;
  ct_requests : mw_requests mw' = mw_requests mw ++ done;
  ct_disconnects : mw_disconnects mw' = (mw_disconnects mw + disconnects)%nat;
  ct_aborted : mw_aborted mw' = (mw_aborted mw + aborted)%nat;
  ct_rejects : mw_rejects mw' = (mw_rejects mw + rejects)%nat;
}.

Definition record_of (sp : Scope) (status : Z) : string * string * Z :=
  (sp_method sp, normalize_route (sp_path sp), status).

(** Every way a run over HTTP can go. *)
Inductive outcome_of (app : Application) (sp : Scope) (input : list received) (fresh : string) (now : Q)
    (mw : ObservabilityMiddleware) : run_result → ObservabilityMiddleware → Prop :=
| OutcomeSilent r mw' :
    run_app_input r = None → silent sp input r →
    counted mw mw' [] (match run_ends r with Returns => 1 | _ => 0 end) 0 0 →
    outcome_of app sp input fresh now mw r mw'
| OutcomeTooLarge mw' :
    body_too_large (mw_max_body_bytes mw) sp input →
    counted mw mw' [record_of sp 413] 0 0 0 →
    outcome_of app sp input fresh now mw
      (MkRun (send_wrapper (request_id_of sp fresh) <$> response_messages (too_large mw)) None Returns) mw'
| OutcomeRefused d mw' :
    refused mw sp now → counted mw mw' [record_of sp 429] 0 0 1 →
    outcome_of app sp input fresh now mw
      (MkRun (send_wrapper (request_id_of sp fresh) <$> response_messages (rate_limited d)) None Returns) mw'
| OutcomeServed given messages raised mw' :
    body_admitted (mw_max_body_bytes mw) sp input given → ¬ refused mw sp now →
    app sp given = (messages, raised) →
    counted mw mw'
      (match response_status messages, raised with
       | Some s, _ => [record_of sp s]
       | None, Some _ => [record_of sp 500]
       | None, None => []
       end) 0
      (match response_status messages, raised with Some _, Some _ => 1 | _, _ => 0 end) 0 →
    outcome_of app sp input fresh now mw
      (MkRun (send_wrapper (request_id_of sp fresh) <$> messages) (Some given)
         (match raised with Some e => Raises e | None => Returns end)) mw'.

Lemma run_app_outcome app sp fresh input now given mw mw0 :
  counted mw mw0 [] 0 0 0 → ¬ refused mw sp now →
  body_admitted (mw_max_body_bytes mw) sp input given →
  let '(r, mw') := run_app app sp (request_id_of sp fresh) given mw0 in
  outcome_of app sp input fresh now mw r mw'.
Proof.
  intros [Cm Cr Cd Ca Cj] Hnr Hb. unfold run_app. destruct (app sp given) as [messages [e|]] eqn:E.
  - eapply (OutcomeServed _ _ _ _ _ _ given messages (Some e)); [done..|].
    destruct (response_status messages); split; simpl; rewrite ?Cm ?Cr ?Cd ?Ca ?Cj ?app_nil_r; done || lia.
  - eapply (OutcomeServed _ _ _ _ _ _ given messages None); [done..|].
    destruct (response_status messages); split; simpl; rewrite ?Cm ?Cr ?Cd ?Ca ?Cj ?app_nil_r; done || lia.
Qed.

Lemma declared_spec s max :
  match declared_too_large (Some s) max with
  | Ok b => if b then isdigit s = true ∧ ∃ n, int_of s = Ok n ∧ max < n
            else isdigit s = true → ∃ n, int_of s = Ok n ∧ n ≤ max
  | Err e => isdigit s = true ∧ int_of s = Err e
  end.
Proof.
  simpl. destruct (isdigit s); [|done]. destruct (int_of s) as [n|e]; simpl; [|done].
  destruct (Z.ltb_spec max n); eauto.
Qed.

Lemma reject_outcome mw mw0 sp r rejects :
  counted mw mw0 [] 0 0 rejects → counted mw (finish sp (rs_status r) mw0) [record_of sp (rs_status r)] 0 0 rejects.
Proof. intros [Cm Cr Cd Ca Cj]. split; simpl; rewrite ?Cm ?Cr ?Cd ?Ca ?Cj ?app_nil_r; done || lia. Qed.

Lemma run_body_outcome app sp fresh input now mw mw0 :
  counted mw mw0 [] 0 0 0 → ¬ refused mw sp now →
  declared_too_large (_header sp "content-length") (mw_max_body_bytes mw) = Ok false →
  let '(r, mw') := run_body app sp (request_id_of sp fresh) input mw0 in
  outcome_of app sp input fresh now mw r mw'.
Proof.
  intros Hc Hnr Hd. unfold run_body.
  destruct (_header sp "content-length") as [s|] eqn:Eh.
  - apply run_app_outcome; [done..|]. unfold body_admitted. rewrite Eh. split; [done|].
    pose proof (declared_spec s (mw_max_body_bytes mw)) as Hs. by rewrite Hd in Hs.
  - pose proof (drain_spec (mw_max_body_bytes mw0) 0 [] input) as Hdr. rewrite (ct_max _ _ _ _ _ _ Hc) in Hdr |- *.
    destruct (_drain_body _ _ _ _) as [b rest| | |].
    + destruct Hdr as (pre & -> & -> & Hdis & Hsize & Hcomp). apply run_app_outcome; [done..|].
      unfold body_admitted. rewrite Eh. exists pre, rest. split_and!; done.
    + destruct Hdr as (pre & rest & -> & Hdis & Hsize). unfold reject.
      assert (too_large mw0 = too_large mw) as -> by (unfold too_large; by rewrite (ct_max _ _ _ _ _ _ Hc)).
      apply OutcomeTooLarge; [|by apply (reject_outcome mw mw0 sp (too_large mw))].
      unfold body_too_large. rewrite Eh. by exists pre, rest.
    + destruct Hc as [Cm Cr Cd Ca Cj]. apply OutcomeSilent; [done| |].
      * split; [done|]. rewrite Eh. right. split; [done|]. done.
      * split; simpl; rewrite ?Cm ?Cr ?Cd ?Ca ?Cj ?app_nil_r; done || lia.
    + apply OutcomeSilent; [done| |done]. split; [done|]. rewrite Eh. by left.
Qed.

Definition limiter_ready (mw : ObservabilityMiddleware) (now : Q) : Prop :=
  ∀ rl, mw_limiter mw = Some rl → limiter_ok rl ∧ clock_ok rl now.

Lemma call_outcome app sp input fresh now mw :
  sp_http sp = true → limiter_ready mw now →
  let '(r, mw') := call app sp input fresh now mw in
  outcome_of app sp input fresh now mw r mw'.
Proof.
  intros Hh Hl. unfold call. rewrite Hh. cbn [negb]. fold (request_id_of sp fresh).
  assert (counted mw mw [] 0 0 0) as Hc0 by (split; rewrite ?app_nil_r; done || lia).
  destruct (declared_too_large _ _) as [[]|e] eqn:Ed.
  - assert (body_too_large (mw_max_body_bytes mw) sp input) as Hb.
    { unfold body_too_large. destruct (_header sp "content-length") as [s|]; [|done].
      pose proof (declared_spec s (mw_max_body_bytes mw)) as Hs. by rewrite Ed in Hs. }
    apply OutcomeTooLarge; [done|]. by apply (reject_outcome mw mw sp (too_large mw)).
  - destruct (mw_limiter mw) as [rl|] eqn:El.
    2: { apply run_body_outcome; [done| |done]. intros (_ & _ & rl & d & rl' & E & _). congruence. }
    destruct (mw_rate_limit_enabled mw) eqn:Een; simpl.
    2: { apply run_body_outcome; [done| |done]. intros (E & _). congruence. }
    case_bool_decide as Hx; simpl.
    2: { apply run_body_outcome; [done| |done]. by intros (_ & E & _). }
    destruct (Hl rl El) as [Hok Hclock].
    destruct (admit_ok rl (_client_host sp) (_header sp "x-conversation-id") now Hok Hclock)
      as (d & rl' & E & _). rewrite E.
    assert (∀ n, counted mw (if (n =? 0)%nat then set_limiter rl' mw else count_reject (set_limiter rl' mw)) [] 0 0
      (if (n =? 0)%nat then 0 else 1)%nat) as Hc.
    { intros []; split; simpl; rewrite ?app_nil_r; done || lia. }
    destruct (allowed d) eqn:Ea.
    + apply run_body_outcome; [apply (Hc 0%nat)| |done].
      intros (_ & _ & rl0 & d0 & rl0' & E1 & E2 & E3). congruence.
    + apply OutcomeRefused; [|by apply (reject_outcome mw _ sp (rate_limited d)), (Hc 1%nat)].
      split_and!; [done..|]. by exists rl, d, rl'.
  - apply OutcomeSilent; [done| |done]. split; [done|].
    destruct (_header sp "content-length") as [s|]; [|done].
    pose proof (declared_spec s (mw_max_body_bytes mw)) as Hs. rewrite Ed in Hs.
    destruct Hs as [Hs1 Hs2]. split; [done|]. by exists e.
Qed.

(** *** What goes out *)

Lemma response_status_wrapped id l : response_status (send_wrapper id <$> l) = response_status l.
Proof.
  unfold response_status. f_equal. induction l as [|[status hs|c m] l IH]; [done| |exact IH].
  simpl. f_equal. exact IH.
Qed.

Lemma response_messages_status r : response_status (response_messages r) = Some (rs_status r).
Proof.
  unfold response_messages, response_status. destruct (render r) as [hs chunks]. simpl.
  assert (∀ k, last (k :: omap (λ m, match m with Start status _ => Some status | Chunk _ _ => None end)
    ((λ c, Chunk c false) <$> chunks)) = Some k) as H; [|apply H].
  intros k. induction chunks; done.
Qed.

(** The templates under which requests are counted. *)
Definition ROUTE_TEMPLATES : list string :=
  ROUTE_ALIASES ++ ["/internal/v1/conversations/{id}"; "/internal/v1/memories/{id}"; "/internal/v1/*"; "other"].

Lemma normalize_route_template path : normalize_route path ∈ ROUTE_TEMPLATES.
Proof.
  assert (∀ aliases t, match_alias aliases path = Some t → t ∈ aliases) as H.
  { induction aliases as [|a l IH]; intros t; simpl; [done|].
    destruct (_ || _); [intros [= <-]; left|]. intros ?%IH. by right. }
  unfold normalize_route, ROUTE_TEMPLATES. apply elem_of_app.
  destruct (match_alias _ _) as [t|] eqn:E; [left; by apply H|right].
  repeat case_match; set_solver.
Qed.

Lemma strip_last_newline_spec s : s = strip_last_newline s ∨ s = strip_last_newline s +:+ nl.
Proof.
  induction s as [|c s IH]; simpl; [by left|].
  destruct (bool_decide (s = EmptyString) && (ord c =? 10)) eqn:E.
  - apply andb_true_iff in E as [->%bool_decide_eq_true Hc%Z.eqb_eq]. right.
    assert (c = chr 10) as -> by (revert Hc; by_char c). done.
  - destruct IH as [<-|Hs]; [by left|right].
    change (String c (strip_last_newline s) +:+ nl) with (String c (strip_last_newline s +:+ nl)). by rewrite -Hs.
Qed.

(** A short printable name. *)
Definition printable_id (s : string) : Prop :=
  all_visible s = true ∧ 1 ≤ slen s ≤ REQUEST_ID_MAX_CHARS.

Lemma sanitize_spec raw id :
  _sanitize_request_id raw = Some id →
  raw = Some id ∧ ∃ s, printable_id s ∧ (id = s ∨ id = s +:+ nl).
Proof.
  unfold _sanitize_request_id. destruct raw as [s|]; [|done].
  destruct (snonempty s && safe_request_id s) eqn:E; [|done]. intros [= <-]. split; [done|].
  apply andb_true_iff in E as [_ E]. unfold safe_request_id in E.
  assert (∀ t, (all_visible t && (1 <=? slen t) && (slen t <=? REQUEST_ID_MAX_CHARS)) = true → printable_id t) as H.
  { intros t [[??]%andb_true_iff ?]%andb_true_iff. split; [done|]. lia. }
  apply orb_true_iff in E as [Hs%H|Hs%H]; [exists s; auto|].
  exists (strip_last_newline s). split; [done|]. apply strip_last_newline_spec.
Qed.

Definition names_request (hs : headers) : bool :=
  existsb (λ nv, bool_decide (lower nv.1 = "x-request-id")) hs.

(** The application sees no request that should not reach it.  Without a
    declared length it is called only with a whole body within the limit,
    replayed part by part and followed by whatever came after; with a declared
    length only when the number, if it is one, is within the limit; and never
    when the rate limiter refuses, which it does for no operational route.
    Otherwise the client gets 413 or 429 for that reason, or nothing: it has
    gone, it has not finished, or its length is a number that [int] rejects. *)
Theorem middleware_gate (app : Application) (sp : Scope) (input : list received) (fresh : string)
    (now : Q) (mw : ObservabilityMiddleware) :
  sp_http sp = true → limiter_ready mw now →
  let '(r, mw') := call app sp input fresh now mw in
  match run_app_input r with
  | Some given =>
      body_admitted (mw_max_body_bytes mw) sp input given ∧ ¬ refused mw sp now ∧
      run_sent r = send_wrapper (request_id_of sp fresh) <$> (app sp given).1
  | None =>
      silent sp input r ∨
      ∃ response, run_sent r = send_wrapper (request_id_of sp fresh) <$> response_messages response ∧
        ((rs_status response = 413 ∧ body_too_large (mw_max_body_bytes mw) sp input) ∨
         (rs_status response = 429 ∧ refused mw sp now))
  end.
Proof.
  intros Hh Hl. pose proof (call_outcome app sp input fresh now mw Hh Hl) as H.
  destruct (call _ _ _ _ _ _) as [r mw'].
  destruct H as [r mw' E Hs _|mw' Hb _|d mw' Hr _|given messages raised mw' Hb Hr E _]; cbn [run_app_input].
  - rewrite E. by left.
  - right. exists (too_large mw). split; [done|]. by left.
  - right. exists (rate_limited d). split; [done|]. by right.
  - split_and!; [done..|]. by rewrite E.
Qed.

(** Every request is accounted for once.  When a response went out, its
    status is recorded, whatever raised afterwards, and an exception behind it
    counts as an aborted stream; when the application raised before answering,
    500 is recorded; a client that left during its body counts as a disconnect
    and nothing else; routes are recorded under one of nine templates. *)
Theorem middleware_accounts_once (app : Application) (sp : Scope) (input : list received)
    (fresh : string) (now : Q) (mw : ObservabilityMiddleware) :
  sp_http sp = true → limiter_ready mw now →
  let '(r, mw') := call app sp input fresh now mw in
  ∃ recorded, mw_requests mw' = mw_requests mw ++ recorded ∧
    Forall (λ x, x.1.1 = sp_method sp ∧ x.1.2 ∈ ROUTE_TEMPLATES) recorded ∧
    match response_status (run_sent r), run_app_input r, run_ends r with
    | Some s, given, ended =>
        recorded = [record_of sp s] ∧ mw_disconnects mw' = mw_disconnects mw ∧
        mw_aborted mw' = (mw_aborted mw + match given, ended with Some _, Raises _ => 1 | _, _ => 0 end)%nat
    | None, Some _, Raises _ =>
        recorded = [record_of sp 500] ∧ mw_disconnects mw' = mw_disconnects mw ∧ mw_aborted mw' = mw_aborted mw
    | None, None, Returns =>
        recorded = [] ∧ mw_disconnects mw' = S (mw_disconnects mw) ∧ mw_aborted mw' = mw_aborted mw
    | None, _, _ =>
        recorded = [] ∧ mw_disconnects mw' = mw_disconnects mw ∧ mw_aborted mw' = mw_aborted mw
    end.
Proof.
  intros Hh Hl. pose proof (call_outcome app sp input fresh now mw Hh Hl) as H.
  assert (∀ s, Forall (λ x, x.1.1 = sp_method sp ∧ x.1.2 ∈ ROUTE_TEMPLATES) [record_of sp s]) as Hrec.
  { intros s. constructor; [|constructor]. split; [done|apply normalize_route_template]. }
  destruct (call _ _ _ _ _ _) as [r mw'].
  destruct H as [r mw' E [Es Hs] [_ Cr Cd Ca _]|mw' _ [_ Cr Cd Ca _]|d mw' _ [_ Cr Cd Ca _]
    |given messages raised mw' _ _ E [_ Cr Cd Ca _]]; rewrite Cr Cd Ca; cbn [run_sent run_app_input run_ends].
  - exists []. rewrite E Es. cbn. split_and!; [done..|]. destruct (run_ends r); split_and!; done || lia.
  - eexists. split; [reflexivity|]. split; [done|]. rewrite response_status_wrapped response_messages_status.
    split_and!; done || lia.
  - eexists. split; [reflexivity|]. split; [done|]. rewrite response_status_wrapped response_messages_status.
    split_and!; done || lia.
  - eexists. split; [reflexivity|]. rewrite response_status_wrapped.
    destruct (response_status messages), raised; split_and!; done || lia || apply Hrec || constructor.
Qed.

(** Every response carries a request id: the upstream's when it has one,
    otherwise the client's or a fresh one; and the client's is taken only if it
    is one to 128 visible ASCII characters, with at most one newline behind. *)
Theorem request_id_echoed (app : Application) (sp : Scope) (input : list received) (fresh : string)
    (now : Q) (mw : ObservabilityMiddleware) (status : Z) (hs : headers) :
  sp_http sp = true → limiter_ready mw now →
  Start status hs ∈ run_sent (call app sp input fresh now mw).1 →
  names_request hs = true ∧
  ∃ own, hs = own ∨
    names_request own = false ∧ ∃ id, hs = own ++ [("x-request-id", id)] ∧
      (id = fresh ∨ _header sp "x-request-id" = Some id ∧ ∃ s, printable_id s ∧ (id = s ∨ id = s +:+ nl)).
Proof.
  intros Hh Hl Hin. pose proof (call_outcome app sp input fresh now mw Hh Hl) as H.
  destruct (call _ _ _ _ _ _) as [r mw']. simpl in Hin.
  assert (∃ messages, run_sent r = send_wrapper (request_id_of sp fresh) <$> messages) as [messages E].
  { destruct H as [r mw' _ [Es _] _|mw' _ _|d mw' _ _|given messages raised mw' _ _ _ _]; [exists []|by eexists..].
    by rewrite Es. }
  rewrite E in Hin. apply list_elem_of_fmap in Hin as ([status0 own|c more] & Hw & _); [|done].
  simpl in Hw. fold (names_request own) in Hw. destruct (names_request own) eqn:En; injection Hw as -> ->.
  - split; [done|]. exists own. by left.
  - split; [unfold names_request; rewrite existsb_app; apply orb_true_iff; by right|].
    exists own. right. split; [done|]. exists (request_id_of sp fresh). split; [done|].
    unfold request_id_of. destruct (_sanitize_request_id _) as [id|] eqn:Eid; [right|by left].
    by apply sanitize_spec.
Qed.
End middleware.

(** ** A concrete deployment *)

#[local] Existing Instance sample_host.

Definition plain_render (r : Response) : headers * list string := (rs_headers r, ["error"]).

(** Answers 200, then raises if the path says so. *)
Definition sample_application : Application := λ sp input,
  ([Start 200 []; Chunk "ok" false], if bool_decide (sp_path sp = "/v1/models") then Some RuntimeError else None).

Definition sample_middleware : ObservabilityMiddleware :=
  MkMiddleware 4 true (Some (small_limiter 8)) [] 0 0 0.

Lemma sample_ready now : limiter_ready sample_middleware now.
Proof. intros rl [= <-]. destruct (small_limiter_ok 8) as [H1 H2]; [done|]. split; [exact H1|apply H2]. Qed.

Definition sample_scope (path : string) (hs : headers) : Scope := MkScope true "POST" path hs (Some "10.0.0.1").

Definition sample_body : list received := [RequestPart "ab" true; OtherEvent; RequestPart "c" false; Disconnect].

Definition sample_call (path : string) (hs : headers) (input : list received) :=
  call plain_render sample_application (sample_scope path hs) input "fresh" 0 sample_middleware.

Lemma middleware_gate_witness :
  let '(r, _) := sample_call "/v1/chat/completions" [] sample_body in
  run_app_input r = Some [RequestPart "ab" true; RequestPart "c" false; Disconnect] ∧
  ∃ given, run_app_input r = Some given ∧
    body_admitted 4 (sample_scope "/v1/chat/completions" []) sample_body given.
Proof.
  pose proof (middleware_gate plain_render sample_application (sample_scope "/v1/chat/completions" [])
    sample_body "fresh" 0 sample_middleware eq_refl (sample_ready 0)) as H.
  fold (sample_call "/v1/chat/completions" [] sample_body) in H.
  destruct (sample_call "/v1/chat/completions" [] sample_body) as [r mw'] eqn:E.
  assert (run_app_input r = Some [RequestPart "ab" true; RequestPart "c" false; Disconnect]) as Ei
    by (vm_compute in E; injection E as <- _; reflexivity).
  split; [exact Ei|]. rewrite Ei in H. eexists. split; [exact Ei|exact (proj1 H)].
Defined.

Lemma middleware_accounts_once_witness :
  ∃ recorded,
    mw_requests (sample_call "/v1/models" [] sample_body).2 = [] ++ recorded ∧
    Forall (λ x, x.1.1 = "POST" ∧ x.1.2 ∈ ROUTE_TEMPLATES) recorded ∧
    mw_aborted (sample_call "/v1/models" [] sample_body).2 = 1%nat.
Proof.
  pose proof (middleware_accounts_once plain_render sample_application (sample_scope "/v1/models" [])
    sample_body "fresh" 0 sample_middleware eq_refl (sample_ready 0)) as H.
  fold (sample_call "/v1/models" [] sample_body) in H.
  assert (mw_aborted (sample_call "/v1/models" [] sample_body).2 = 1%nat) as Ha by (vm_compute; reflexivity).
  destruct (sample_call "/v1/models" [] sample_body) as [r mw'].
  destruct H as (recorded & H1 & H2 & _). exists recorded. split; [exact H1|split; [exact H2|exact Ha]].
Defined.

Lemma request_id_echoed_witness :
  names_request [("x-request-id", "client-1")] = true ∧
  Start 200 [("x-request-id", "client-1")]
    ∈ run_sent (sample_call "/healthz" [("x-request-id", "client-1")] sample_body).1.
Proof.
  assert (Start 200 [("x-request-id", "client-1")]
    ∈ run_sent (sample_call "/healthz" [("x-request-id", "client-1")] sample_body).1) as Hin
    by (vm_compute; left).
  split; [|exact Hin].
  exact (proj1 (request_id_echoed plain_render sample_application
    (sample_scope "/healthz" [("x-request-id", "client-1")]) sample_body "fresh" 0 sample_middleware 200 _
    eq_refl (sample_ready 0) Hin)).
Defined.

(** A newline at the end of the id is accepted and echoed. *)
Example newline_in_request_id :
  _sanitize_request_id (Some ("id" +:+ nl)) = Some ("id" +:+ nl).
Proof. vm_compute. reflexivity. Qed.

(** A superscript is a digit for [isdigit] but not for [int]: the request
    raises before it is accounted for. *)
Example superscript_content_length :
  let '(r, mw) := sample_call "/v1/models" [("content-length", str1 (chr 178))] sample_body in
  run_ends r = Raises (ValueError "int") ∧ mw_requests mw = [].
Proof. vm_compute. auto. Qed.

(** A declared length that is not a number lifts the limit. *)
Example undeclared_length_unbounded :
  run_app_input (sample_call "/v1/models" [("content-length", "-1")] [RequestPart "abcdef" false]).1
  = Some [RequestPart "abcdef" false].
Proof. vm_compute. reflexivity. Qed.
