(* ===== verification/Migrations.v ===== *)
(** * Startup and migrations ([db/database.py])

    [apply_migrations] runs the pending scripts in the order of their names, each
    in a transaction with its marker and under an advisory lock, so several
    processes may start at once; [Database] owns the pool.  What a script does to
    the schema is a parameter. *)

From stdpp Require Import relations list.
From S2P Require Import Prelude PyString.

Lemma drop_cons_inv {A} i (l : list A) x k : drop i l = x :: k → l !! i = Some x ∧ k = drop (S i) l.
Proof.
  intros E. assert (l !! i = Some x) as Hi; [|by rewrite (drop_S _ _ _ Hi) in E; simplify_eq].
  by rewrite -(Nat.add_0_r i) -lookup_drop E.
Qed.

(** ** Applying *)

(** A file of the directory: its name and its text. *)
Record Migration : Type := MkMigration {
  mg_name : string;
  mg_text : string;
}.

Section migrations.
Context {Schema : Type} (exec : string → Schema → option Schema).

(** The names in [schema_migrations], in order of insertion, and the rest of the
    database. *)
Record Migrated : Type := MkMigrated {
  applied : list string;
  schema : Schema;
}.

Definition name_leb (a b : Migration) : bool := str_leb (mg_name a) (mg_name b).

(** [sorted(migrations_dir.glob("*.sql"))] *)
Definition pending (dir : list Migration) : list Migration := py_sorted name_leb dir.

(** One iteration of the loop, a transaction: whether the script was run.  A
    script that fails is rolled back with its marker. *)
Definition migrate_one (m : Migration) (d : Migrated) : res bool * Migrated :=
  if bool_decide (mg_name m ∈ applied d) then (Ok false, d)
  else match exec (mg_text m) (schema d) with
       | Some s => (Ok true, MkMigrated (applied d ++ [mg_name m]) s)
       | None => (Err PostgresError, d)
       end.

Fixpoint migrate_loop (completed : list string) (ms : list Migration) (d : Migrated)
    : res (list string) * Migrated :=
  match ms with
  | [] => (Ok completed, d)
  | m :: rest =>
      let '(r, d) := migrate_one m d in
      match r with
      | Ok true => migrate_loop (completed ++ [mg_name m]) rest d
      | Ok false => migrate_loop completed rest d
      | Err e => (Err e, d)
      end
  end.

Definition apply_migrations (dir : list Migration) (d : Migrated) : res (list string) * Migrated :=
  migrate_loop [] (pending dir) d.

(** *** [Database] *)

(** Whether there is a pool. *)
Record Database : Type := MkDatabase { db_available : bool }.

(** [start]: [reachable] says whether the pool could be created.  A pool whose
    migrations fail is closed and the error raised again. *)
Definition start (reachable : bool) (dir : list Migration) (db : Database) (d : Migrated)
    : res bool * Database * Migrated :=
  if reachable then
    let '(r, d) := apply_migrations dir d in
    match r with
    | Ok _ => (Ok true, MkDatabase true, d)
    | Err e => (Err e, MkDatabase false, d)
    end
  else (Ok false, MkDatabase false, d).

Definition close (db : Database) : Database := MkDatabase false.

(** [up]: whether the server answers. *)
Definition ping (up : bool) (db : Database) : res unit :=
  if db_available db then if up then Ok tt else Err PostgresError else Err RuntimeError.

(** ** What a run leaves behind *)

(** The schema after the scripts. *)
Fixpoint exec_all (ms : list Migration) (s : Schema) : option Schema :=
  match ms with [] => Some s | m :: rest => s ← exec (mg_text m) s; exec_all rest s end.

Lemma exec_all_snoc ms m s : exec_all (ms ++ [m]) s = s ← exec_all ms s; exec (mg_text m) s.
Proof.
  revert s. induction ms as [|x ms IH]; intros s; simpl; [by destruct (exec _ _)|].
  destruct (exec (mg_text x) s); simpl; [apply IH|done].
Qed.

(** The first [n] scripts have run, in order, once each. *)
Definition ran (ms : list Migration) (n : nat) (s0 : Schema) (d : Migrated) : Prop :=
  n ≤ length ms ∧ applied d = mg_name <$> take n ms ∧ exec_all (take n ms) s0 = Some (schema d).

Lemma name_index ms i n m :
  NoDup (mg_name <$> ms) → ms !! i = Some m → n ≤ length ms →
  (mg_name m ∈ mg_name <$> take n ms ↔ i < n).
Proof.
  intros Hnd Hm Hn. split.
  - intros (m' & E & Hin)%list_elem_of_fmap. apply list_elem_of_lookup in Hin as [j Hj].
    apply lookup_take_Some in Hj as [Hj Hlt].
    enough (i = j) by lia. eapply NoDup_lookup; [exact Hnd|..]; rewrite list_lookup_fmap.
    + by rewrite Hm.
    + rewrite Hj. simpl. by rewrite E.
  - intros Hlt. apply list_elem_of_fmap_2, list_elem_of_lookup. exists i. by rewrite lookup_take_lt.
Qed.

(** A script at position [i] is run exactly when its turn has come. *)
Lemma migrate_one_ran ms s0 d n i m :
  NoDup (mg_name <$> ms) → ran ms n s0 d → ms !! i = Some m → i ≤ n →
  let '(r, d') := migrate_one m d in
  match r with
  | Ok b => b = bool_decide (i = n) ∧ ran ms (if bool_decide (i = n) then S n else n) s0 d'
  | Err e => i = n ∧ d' = d ∧ exec (mg_text m) (schema d) = None
  end.
Proof.
  intros Hnd (Hn & Ha & Hs) Hm Hi. unfold migrate_one.
  pose proof (name_index ms i n m Hnd Hm Hn) as Hiff. rewrite -Ha in Hiff.
  case_bool_decide as Hin.
  - assert (i < n) as Hlt by by apply Hiff. rewrite bool_decide_eq_false_2; [lia|done].
  - assert (i = n) as -> by (apply dec_stable; intros Hne; apply Hin, Hiff; lia).
    destruct (exec (mg_text m) (schema d)) as [s|] eqn:E; [|done].
    rewrite bool_decide_eq_true_2 //. split; [done|]. apply lookup_lt_Some in Hm as Hlt.
    unfold ran. rewrite (take_S_r _ _ _ Hm) fmap_app Ha exec_all_snoc Hs /=. split_and!; [lia|done|done].
Qed.

Lemma migrate_loop_ran ms s0 d n i completed :
  NoDup (mg_name <$> ms) → ran ms n s0 d → i ≤ n →
  let '(r, d') := migrate_loop completed (drop i ms) d in
  ∃ n', n ≤ n' ∧ ran ms n' s0 d' ∧
    match r with
    | Ok names => n' = length ms ∧ names = completed ++ (mg_name <$> drop n ms)
    | Err e => ∃ m, ms !! n' = Some m ∧ exec (mg_text m) (schema d') = None
    end.
Proof.
  intros Hnd. remember (length ms - i) as k eqn:Ek. revert i Ek d n completed.
  induction k as [|k IH]; intros i Ek d n completed Hran Hi.
  - pose proof Hran as (Hn & _ & _). rewrite drop_ge; [lia|]. simpl. exists n.
    assert (n = length ms) as -> by lia. rewrite drop_all app_nil_r. done.
  - destruct (ms !! i) as [m|] eqn:Hm; [|apply lookup_ge_None in Hm; lia].
    rewrite (drop_S _ _ _ Hm). simpl. pose proof (migrate_one_ran ms s0 d n i m Hnd Hran Hm Hi) as H1.
    destruct (migrate_one m d) as [[b|e] d1].
    + destruct H1 as [-> H1]. case_bool_decide as Hin.
      * subst i. specialize (IH (S n) ltac:(lia) d1 (S n) (completed ++ [mg_name m]) H1 ltac:(lia)).
        destruct (migrate_loop _ _ _) as [r d']. destruct IH as (n' & Hle & Hr & Hres).
        exists n'. split; [lia|]. split; [done|]. destruct r as [names|e]; [|done].
        destruct Hres as [-> ->]. split; [done|]. by rewrite (drop_S _ _ _ Hm) -app_assoc.
      * specialize (IH (S i) ltac:(lia) d1 n completed H1 ltac:(lia)).
        by destruct (migrate_loop _ _ _) as [r d'].
    + destruct H1 as (-> & -> & HN). exists n. eauto.
Qed.

(** A failed script makes the whole sequence fail. *)
Lemma exec_all_fails ms n m s0 s :
  exec_all (take n ms) s0 = Some s → ms !! n = Some m → exec (mg_text m) s = None →
  exec_all ms s0 = None.
Proof.
  revert n s0. induction ms as [|x ms IH]; intros [|n] s0 Hs Hm Hf; simplify_eq/=.
  - by rewrite Hf.
  - destruct (exec (mg_text x) s0) as [s1|]; [|done]. simpl in *. eauto.
Qed.

Lemma ran_lt ms n s0 d m : ran ms n s0 d → ms !! n = Some m → n < length ms.
Proof. intros _ Hm. by apply lookup_lt_Some in Hm. Qed.

Lemma pending_names dir : NoDup (mg_name <$> dir) → NoDup (mg_name <$> pending dir).
Proof. intros H. unfold pending. by rewrite py_sorted_perm. Qed.

(** [apply_migrations] is the loop at position 0. *)
Lemma apply_migrations_ran dir s0 d n :
  NoDup (mg_name <$> dir) → ran (pending dir) n s0 d →
  let '(r, d') := apply_migrations dir d in
  ∃ n', n ≤ n' ∧ ran (pending dir) n' s0 d' ∧
    match r with
    | Ok names => n' = length (pending dir) ∧ names = mg_name <$> drop n (pending dir)
    | Err e => ∃ m, pending dir !! n' = Some m ∧ exec (mg_text m) (schema d') = None
    end.
Proof.
  intros Hnd Hran.
  apply (migrate_loop_ran _ s0 d n 0 [] (pending_names dir Hnd) Hran). lia.
Qed.

Lemma migrate_loop_error ms completed d e d' :
  migrate_loop completed ms d = (Err e, d') → e = PostgresError.
Proof.
  revert completed d. induction ms as [|m ms IH]; intros completed d; [done|]. simpl.
  unfold migrate_one. case_bool_decide; [apply IH|].
  destruct (exec _ _); [apply IH|by intros [= <- _]].
Qed.

(** A run that has nothing left to do. *)
Lemma migrate_loop_done completed ms d :
  (∀ m, m ∈ ms → mg_name m ∈ applied d) → migrate_loop completed ms d = (Ok completed, d).
Proof.
  induction ms as [|m ms IH]; intros H; [done|]. simpl. unfold migrate_one.
  rewrite bool_decide_eq_true_2; [apply H; set_solver|]. apply IH. set_solver.
Qed.

(** ** Several processes *)

(** Every process has the scripts it has not looked at yet, or has failed. *)
Definition fleet : Type := list (option (list Migration)).

(** The advisory lock makes an iteration atomic; a process may start late, fail or
    die between two scripts. *)
Inductive fleet_step (dir : list Migration) : Migrated * fleet → Migrated * fleet → Prop :=
| ProcessRuns d d' ps i m rest b :
    ps !! i = Some (Some (m :: rest)) → migrate_one m d = (Ok b, d') →
    fleet_step dir (d, ps) (d', <[i := Some rest]> ps)
| ProcessFails d d' ps i m rest e :
    ps !! i = Some (Some (m :: rest)) → migrate_one m d = (Err e, d') →
    fleet_step dir (d, ps) (d', <[i := None]> ps)
| ProcessDies d ps i :
    fleet_step dir (d, ps) (d, <[i := None]> ps)
| ProcessJoins d ps :
    fleet_step dir (d, ps) (d, ps ++ [Some (pending dir)]).

(** Every process is at a position that has been reached. *)
Definition fleet_ok (ms : list Migration) (s0 : Schema) (st : Migrated * fleet) : Prop :=
  ∃ n, ran ms n s0 st.1 ∧ ∀ k todo, st.2 !! k = Some (Some todo) → ∃ i, i ≤ n ∧ todo = drop i ms.

Lemma fleet_step_ok dir s0 st st' :
  NoDup (mg_name <$> dir) → fleet_step dir st st' → fleet_ok (pending dir) s0 st →
  fleet_ok (pending dir) s0 st'.
Proof.
  intros Hnd%pending_names Hstep (n & Hran & Hps).
  assert (Hpop : ∀ (ps : fleet) k m rest, ps !! k = Some (Some (m :: rest)) →
    (∀ k todo, ps !! k = Some (Some todo) → ∃ i, i ≤ n ∧ todo = drop i (pending dir)) →
    ∃ i, i ≤ n ∧ pending dir !! i = Some m ∧ rest = drop (S i) (pending dir)).
  { intros ps k m rest Hk Hall. destruct (Hall _ _ Hk) as (i & Hi & E). exists i.
    by apply eq_sym, drop_cons_inv in E as [? ->]. }
  destruct Hstep as [d d' ps k m rest b Hk H1|d d' ps k m rest e Hk H1|d ps k|d ps]; simpl in *.
  - destruct (Hpop _ _ _ _ Hk Hps) as (i & Hi & Hm & ->).
    pose proof (migrate_one_ran _ s0 d n i m Hnd Hran Hm Hi) as Hone. rewrite H1 in Hone.
    destruct Hone as [_ Hran']. eexists; split; [exact Hran'|]. simpl.
    intros k' todo [(-> & [= <-] & _)|[_ Hk']]%list_lookup_insert_Some.
    + exists (S i). split; [case_bool_decide; lia|done].
    + destruct (Hps _ _ Hk') as (j & ? & ->). exists j. split; [case_bool_decide; lia|done].
  - destruct (Hpop _ _ _ _ Hk Hps) as (i & Hi & Hm & ->).
    pose proof (migrate_one_ran _ s0 d n i m Hnd Hran Hm Hi) as Hone. rewrite H1 in Hone.
    destruct Hone as (_ & -> & _). exists n. split; [done|]. simpl.
    intros k' todo [(_ & [=] & _)|[_ Hk']]%list_lookup_insert_Some. eauto.
  - exists n. split; [done|]. simpl.
    intros k' todo [(_ & [=] & _)|[_ Hk']]%list_lookup_insert_Some. eauto.
  - exists n. split; [done|]. simpl. intros k' todo [Hk'|[_ Hk']]%lookup_app_Some; [eauto|].
    apply list_lookup_singleton_Some in Hk' as [_ [= <-]]. exists 0. split; [lia|done].
Qed.

Lemma fleet_steps_ok dir s0 st st' :
  NoDup (mg_name <$> dir) → rtc (fleet_step dir) st st' → fleet_ok (pending dir) s0 st →
  fleet_ok (pending dir) s0 st'.
Proof. intros Hnd. induction 1; eauto using fleet_step_ok. Qed.
End migrations.
Arguments Migrated : clear implicits.

(** ** The properties *)

(** Whatever an earlier start left behind, after [n] of the scripts, a start
    that reaches the server goes on exactly there: it succeeds, having run each
    remaining script once and in the order of the names, precisely when all the
    scripts can run one after the other; otherwise it stops at the first script that
    fails, with that script rolled back and unmarked and the ones before it committed,
    leaves no pool and raises.  A start after a success runs nothing. *)
Theorem migrations_resume {Schema} (exec : string → Schema → option Schema) dir s0 d n db :
  NoDup (mg_name <$> dir) → ran exec (pending dir) n s0 d →
  let '(r, db', d') := start exec true dir db d in
  ∃ n', n ≤ n' ∧ ran exec (pending dir) n' s0 d' ∧
    match exec_all exec (pending dir) s0 with
    | Some s =>
        r = Ok true ∧ db_available db' = true ∧ schema d' = s
        ∧ applied d' = mg_name <$> pending dir
        ∧ (apply_migrations exec dir d).1 = Ok (mg_name <$> drop n (pending dir))
        ∧ apply_migrations exec dir d' = (Ok [], d')
    | None =>
        r = Err PostgresError ∧ db_available db' = false
        ∧ ∃ m, pending dir !! n' = Some m ∧ mg_name m ∉ applied d'
             ∧ exec (mg_text m) (schema d') = None
    end.
Proof.
  intros Hnd Hran. pose proof (apply_migrations_ran exec dir s0 d n Hnd Hran) as H.
  unfold start. destruct (apply_migrations exec dir d) as [[names|e] d'] eqn:Eapp;
    destruct H as (n' & Hle & (Hn' & Ha & Hs) & H); exists n'; (split; [done|]); (split; [done|]).
  - destruct H as [-> ->]. rewrite firstn_all in Ha, Hs. rewrite Hs. split_and!; try done.
    apply migrate_loop_done. intros m Hm. rewrite Ha. by apply list_elem_of_fmap_2.
  - destruct H as (m & Hm & Hf). rewrite (exec_all_fails exec _ _ _ _ _ Hs Hm Hf).
    split_and!; [by rewrite (migrate_loop_error exec _ _ _ _ _ Eapp)|done|].
    exists m. split_and!; [done| |done]. rewrite Ha.
    rewrite (name_index _ n' n' m (pending_names dir Hnd) Hm Hn'). lia.
Qed.


(** Scripts that append their text to a log; the text [broken] fails. *)
Definition log_exec (text : string) (log : list string) : option (list string) :=
  if bool_decide (text = "broken") then None else Some (log ++ [text]).

Definition scripts : list Migration :=
  [MkMigration "0002_b.sql" "two"; MkMigration "0001_a.sql" "one"; MkMigration "0003_c.sql" "three"].

Definition half_done : Migrated (list string) := MkMigrated ["0001_a.sql"] ["one"].

Lemma migrations_resume_witness :
  ran log_exec (pending scripts) 1 [] half_done
  ∧ (apply_migrations log_exec scripts half_done).1 = Ok ["0002_b.sql"; "0003_c.sql"].
Proof.
  assert (Hran : ran log_exec (pending scripts) 1 [] half_done).
  { split_and!; [vm_compute; lia|reflexivity|reflexivity]. }
  split; [exact Hran|].
  assert (Hnd : NoDup (mg_name <$> scripts)) by (apply (bool_decide_unpack _); reflexivity).
  pose proof (migrations_resume log_exec scripts [] half_done 1 (MkDatabase false) Hnd Hran) as H.
  destruct (start _ _ _ _ _) as [[r db] d]. destruct H as (n & _ & _ & H).
  destruct H as (_ & _ & _ & _ & E & _). exact E.
Defined.


(** A script that fails stops the start; once it is corrected the next one resumes. *)
Example corrected_script :
  let bad := [MkMigration "0001_a.sql" "one"; MkMigration "0002_b.sql" "broken"] in
  let good := [MkMigration "0001_a.sql" "one"; MkMigration "0002_b.sql" "two"] in
  let '(r, db, d) := start log_exec true bad (MkDatabase false) (MkMigrated [] []) in
  (r, db, d) = (Err PostgresError, MkDatabase false, MkMigrated ["0001_a.sql"] ["one"])
  ∧ start log_exec true good db d
    = (Ok true, MkDatabase true, MkMigrated ["0001_a.sql"; "0002_b.sql"] ["one"; "two"]).
Proof. split; reflexivity. Qed.
