(* ===== verification/Logging.v ===== *)
(** * Log redaction and formatting ([observability/logging_setup.py])

    Credentials are scrubbed from free text ([redact_text]) and from structured
    payloads ([redact]); [RedactionFilter] and [JsonFormatter] turn a record into
    a line, [configure_logging] installs the one handler of the application. *)

From S2P Require Import Prelude PyDict PyString Json.
Local Open Scope Z_scope.

(** ** Free text *)

(** The class [[A-Za-z0-9._~+/=-]]. *)
Definition token_char (c : Ascii.ascii) : bool :=
  let z := ord c in
  ((65 <=? z) && (z <=? 90)) || ((97 <=? z) && (z <=? 122)) || ((48 <=? z) && (z <=? 57))
  || bool_decide (z ∈ [46; 95; 126; 43; 47; 61; 45]).

(** A literal of the pattern, ignoring case: what follows it. *)
Fixpoint match_word (word s : string) : option string :=
  match word, s with
  | EmptyString, _ => Some s
  | String a word', String b s' => if bool_decide (lower_char b = a) then match_word word' s' else None
  | String _ _, EmptyString => None
  end.

(** A class under [+] or [*], greedy: what it takes, and the rest. *)
Fixpoint span (f : Ascii.ascii → bool) (s : string) : string * string :=
  match s with
  | EmptyString => (EmptyString, EmptyString)
  | String c s' => if f c then let '(t, r) := span f s' in (String c t, r) else (EmptyString, s)
  end.

Definition _REDACTED : string := "[REDACTED]".

(** [_BEARER_RE] at the start of [s]: the first group, and what follows the match.
    The two classes are disjoint, so there is nothing to backtrack. *)
Definition match_bearer (s : string) : option (string * string) :=
  rest ← match_word "bearer" s;
  let '(ws, rest) := span is_space rest in
  let '(token, rest) := span token_char rest in
  if snonempty ws && snonempty token then Some (stake 6 s +:+ ws, rest) else None.

#[local] Arguments match_bearer : simpl never.

(** [_BEARER_RE.sub], from left to right without overlaps; the fuel is the length,
    of which every round consumes a character. *)
Fixpoint redact_from (fuel : nat) (s : string) : string :=
  match fuel with
  | O => s
  | S fuel =>
      match match_bearer s with
      | Some (group, rest) => group +:+ _REDACTED +:+ redact_from fuel rest
      | None =>
          match s with
          | EmptyString => EmptyString
          | String c s' => String c (redact_from fuel s')
          end
      end
  end.

Definition redact_text (value : string) : string := redact_from (String.length value) value.

(** ** Structured payloads *)

Definition _KEY_FIELDS : list string :=
  ["api_key"; "apikey"; "api-key"; "token"; "access_token"; "authorization"; "secret"; "password";
   "credential"; "client_secret"].

(** [re.sub] and [str.replace] of single characters *)
Fixpoint sremove (f : Ascii.ascii → bool) (s : string) : string :=
  match s with
  | EmptyString => EmptyString
  | String c s' => if f c then sremove f s' else String c (sremove f s')
  end.

Definition separator (c : Ascii.ascii) : bool := (ord c =? 45) || (ord c =? 95) || is_space c.

Definition _is_sensitive_key (key : string) : bool :=
  let normalized := lower (sremove separator key) in
  existsb (λ marker, contains (sremove (λ c, ord c =? 95) marker) normalized) _KEY_FIELDS.

Fixpoint redact (value : json) : json :=
  match value with
  | JStr s => JStr (redact_text s)
  | JObj d =>
      JObj ((fix go (d : obj) : obj := match d with
        | [] => []
        | (k, x) :: d' => (k, if _is_sensitive_key k then JStr _REDACTED else redact x) :: go d'
        end) d)
  | JList l => JList ((fix go l := match l with [] => [] | x :: l' => redact x :: go l' end) l)
  | _ => value
  end.

Definition _redact_mapping (items : obj) : obj := (λ kv, (kv.1, redact kv.2)) <$> items.

Definition redact_entry (kv : string * json) : string * json :=
  (kv.1, if _is_sensitive_key kv.1 then JStr _REDACTED else redact kv.2).

Lemma redact_obj d : redact (JObj d) = JObj (redact_entry <$> d).
Proof. simpl. f_equal. induction d as [|[k x] d IH]; [done|]. by rewrite IH. Qed.

Lemma redact_list l : redact (JList l) = JList (redact <$> l).
Proof. done. Qed.

(** ** Records and lines *)

Record ExcInfo : Type := MkExcInfo {
  ex_type : string;
  ex_message : string;  (* [str(exc_value)] *)
  ex_traceback : string;  (* [formatException(exc_info)] *)
}.

(** A [LogRecord]: what [getMessage] and [formatTime] give, and the attributes that
    came in as [extra]. *)
Record LogRecord : Type := MkLogRecord {
  lr_time : string;
  lr_levelname : string;
  lr_name : string;
  lr_message : string;
  lr_exc_info : option ExcInfo;
  lr_extra : obj;
}.

(** [RedactionFilter.filter], which keeps every record. *)
Definition filter_record (r : LogRecord) : LogRecord :=
  MkLogRecord (lr_time r) (lr_levelname r) (lr_name r) (redact_text (lr_message r))
    (lr_exc_info r) (lr_extra r).

Definition exception_payload (e : ExcInfo) : json :=
  JObj [("type", JStr (ex_type e)); ("message", JStr (redact_text (ex_message e)));
        ("traceback", JStr (redact_text (ex_traceback e)))].

(** The names a record never takes from [extra]: its own attributes. *)
Definition reserved : list string :=
  ["name"; "msg"; "args"; "levelname"; "levelno"; "pathname"; "filename"; "module"; "exc_info";
   "exc_text"; "stack_info"; "lineno"; "funcName"; "created"; "msecs"; "relativeCreated"; "thread";
   "threadName"; "processName"; "process"; "taskName"].

Definition skipped (key : string) : bool :=
  bool_decide (key ∈ reserved ++ ["asctime"; "message"; "exc_info"]) || startswith "_" key.

Definition json_payload (request_id : string) (r : LogRecord) : obj :=
  foldl (λ payload kv, if skipped kv.1 then payload else dset payload kv.1 (redact kv.2))
    ([("ts", JStr (lr_time r)); ("level", JStr (lr_levelname r)); ("logger", JStr (lr_name r));
      ("event", JStr (redact_text (lr_message r))); ("request_id", JStr request_id)]
     ++ match lr_exc_info r with Some e => [("exception", exception_payload e)] | None => [] end)
    (lr_extra r).

Section format.
Context {host : Host}.

Definition JsonFormatter_format (request_id : string) (r : LogRecord) : string :=
  json_dumps style_default (JObj (json_payload request_id r)).

(** [logging.Formatter("%(asctime)s %(levelname)s %(name)s %(message)s").format]: the
    standard library puts the traceback on the following lines. *)
Definition Formatter_format (r : LogRecord) : string :=
  lr_time r +:+ " " +:+ lr_levelname r +:+ " " +:+ lr_name r +:+ " " +:+ lr_message r
  +:+ match lr_exc_info r with Some e => nl +:+ ex_traceback e | None => EmptyString end.

(** A handler made by [configure_logging], or another one. *)
Record Handler : Type := MkHandler { hd_id : nat; hd_filtered : bool; hd_json : bool }.

(** [Handler.handle]: filter, then format. *)
Definition emit (h : Handler) (request_id : string) (r : LogRecord) : string :=
  let r := if hd_filtered h then filter_record r else r in
  if hd_json h then JsonFormatter_format request_id r else Formatter_format r.
End format.

(** ** Installation *)

(** The application's logger: its level and handlers; [_OWNED_HANDLER]; and the next
    fresh handler. *)
Record Logging : Type := MkLogging {
  lg_level : string;
  lg_handlers : list Handler;
  lg_owned : option Handler;
  lg_next : nat;
}.

#[export] Instance Handler_eq_dec : EqDecision Handler.
Proof. solve_decision. Defined.

Definition LEVELS : list string :=
  ["CRITICAL"; "FATAL"; "ERROR"; "WARN"; "WARNING"; "INFO"; "DEBUG"; "NOTSET"].

(** [str.upper] on ASCII; other characters occur in no name of a level. *)
Definition upper_char (c : Ascii.ascii) : Ascii.ascii :=
  let z := ord c in if (97 <=? z) && (z <=? 122) then chr (z - 32) else c.

(** [removeHandler] *)
Definition remove_handler (h : Handler) (l : list Handler) : list Handler :=
  filter (λ x, x ≠ h) l.

Definition configure_logging (log_level : string) (log_json : bool) (lg : Logging)
    : res unit * Logging :=
  let level := smap upper_char log_level in
  if bool_decide (level ∈ LEVELS) then
    let handlers := match lg_owned lg with
                    | Some h => remove_handler h (lg_handlers lg)
                    | None => lg_handlers lg
                    end in
    let h := MkHandler (lg_next lg) true log_json in
    (Ok tt, MkLogging level (handlers ++ [h]) (Some h) (S (lg_next lg)))
  else (Err (ValueError ("Unknown level: " +:+ level)), lg).

(** ** The scanner *)

(** The bracket that replacements start with is no part of the pattern. *)
Definition bracket : Ascii.ascii := chr 91.

Lemma match_word_app word a v rest x :
  has_char bracket word = false →
  match_word word (a +:+ String bracket v) = Some rest →
  ∃ a', rest = a' +:+ String bracket v ∧ match_word word (a +:+ x) = Some (a' +:+ x).
Proof.
  revert a. induction word as [|w word IH]; intros a Hw; [intros [= <-]; by exists a|].
  simpl in Hw. apply orb_false_iff in Hw as [Hw Hrest]. destruct a as [|c a]; rewrite ?app_cons /=.
  - rewrite bool_decide_eq_false_2; [|done]. intros E. apply bool_decide_eq_false_1 in Hw.
    apply Hw. rewrite -E. reflexivity.
  - destruct (decide (lower_char c = w)) as [E|E]; [|by rewrite bool_decide_eq_false_2].
    rewrite !bool_decide_eq_true_2 //. by apply IH.
Qed.

Lemma span_app f a v t r x :
  f bracket = false → span f (a +:+ String bracket v) = (t, r) →
  ∃ a', a = t +:+ a' ∧ r = a' +:+ String bracket v ∧
    (a' ≠ EmptyString → span f (a +:+ x) = (t, a' +:+ x)) ∧
    (t ≠ EmptyString → (span f (a +:+ x)).1 ≠ EmptyString).
Proof.
  intros Hf. revert t r. induction a as [|c a IH]; intros t r; rewrite ?app_cons /=.
  - rewrite Hf. intros [= <- <-]. by exists EmptyString.
  - destruct (f c) eqn:Hc.
    + destruct (span f (a +:+ String bracket v)) as [t' r'] eqn:E. intros [= <- <-].
      destruct (IH _ _ eq_refl) as (a' & -> & -> & Hx & _). exists a'. split_and!; [done|done| |].
      * intros Ha. rewrite Hx //.
      * intros _. destruct (span f ((t' +:+ a') +:+ x)). discriminate.
    + intros [= <- <-]. exists (String c a). split_and!; [done|done|done|done].
Qed.

Lemma snonempty_true s : snonempty s = true ↔ s ≠ EmptyString.
Proof. by destruct s. Qed.

(** A match does not extend over a bracket, so nothing behind it matters. *)
Lemma match_bearer_app a v m x :
  match_bearer (a +:+ String bracket v) = Some m → match_bearer (a +:+ x) ≠ None.
Proof.
  unfold match_bearer. destruct (match_word "bearer" (a +:+ String bracket v)) as [r|] eqn:Ew; [|done].
  apply match_word_app with (x:=x) in Ew as (a1 & -> & ->); [|done]. cbn [mbind option_bind].
  destruct (span is_space (a1 +:+ String bracket v)) as [ws r1] eqn:E1.
  apply span_app with (x:=x) in E1 as (a2 & -> & -> & H1 & _); [|done].
  destruct (span token_char (a2 +:+ String bracket v)) as [tok r2] eqn:E2.
  apply span_app with (x:=x) in E2 as (a3 & -> & -> & _ & H2); [|done].
  destruct (snonempty ws && snonempty tok) eqn:E; [|done]. intros _.
  apply andb_true_iff in E as [Hws Htok%snonempty_true].
  assert (tok +:+ a3 ≠ EmptyString) as Hne by by destruct tok.
  rewrite (H1 Hne). specialize (H2 Htok). destruct (span token_char _) as [tok' r']. simpl in *.
  by rewrite Hws (proj2 (snonempty_true _) H2).
Qed.

Lemma match_bearer_stop a v x :
  match_bearer (a +:+ x) = None → match_bearer (a +:+ String bracket v) = None.
Proof.
  intros Hx. destruct (match_bearer (a +:+ String bracket v)) as [m|] eqn:E; [|done].
  by apply match_bearer_app with (x:=x) in E.
Qed.

(** No credential at any position. *)
Fixpoint clean (s : string) : bool :=
  match match_bearer s with Some _ => false | None => true end
  && match s with EmptyString => true | String _ s' => clean s' end.

Lemma clean_spec s : clean s = true ↔ ∀ n, match_bearer (sdrop n s) = None.
Proof.
  induction s as [|c s IH].
  - split; [intros _ [|n]; reflexivity|done].
  - change (clean (String c s)) with
      (match match_bearer (String c s) with Some _ => false | None => true end && clean s).
    rewrite andb_true_iff IH. split.
    + intros [H1 H2] [|n]; [cbn [sdrop]; by destruct (match_bearer (String c s))|apply H2].
    + intros H. split; [by rewrite (H 0%nat)|intros n; apply (H (S n))].
Qed.

Lemma clean_cons c s : match_bearer (String c s) = None → clean s = true → clean (String c s) = true.
Proof. intros H Hs. by rewrite /= H Hs. Qed.

Lemma match_word_spec word s r : match_word word s = Some r → ∃ w, s = w +:+ r ∧ lower w = word.
Proof.
  revert s. induction word as [|a word IH]; intros s; [intros [= <-]; by exists EmptyString|].
  destruct s as [|b s]; [done|]. simpl. case_bool_decide as E; [|done].
  intros (w & -> & Hw)%IH. exists (String b w). split; [done|]. unfold lower in *. simpl. by rewrite E Hw.
Qed.

Fixpoint sforall (f : Ascii.ascii → bool) (s : string) : bool :=
  match s with EmptyString => true | String c s' => f c && sforall f s' end.

Lemma span_spec f s t r : span f s = (t, r) → s = t +:+ r ∧ sforall f t = true.
Proof.
  revert t r. induction s as [|c s IH]; intros t r; simpl; [by intros [= <- <-]|].
  destruct (f c) eqn:E; [|by intros [= <- <-]]. destruct (span f s) as [t' r'].
  intros [= <- <-]. destruct (IH _ _ eq_refl) as [-> H]. simpl. by rewrite E H.
Qed.

Lemma span_all f s : sforall f s = true → span f s = (s, EmptyString).
Proof. induction s as [|c s IH]; [done|]. simpl. by intros [-> ->%IH]%andb_true_iff. Qed.

Lemma stake_app w r : stake (String.length w) (w +:+ r) = w.
Proof. induction w as [|c w IH]; [by destruct r|]. rewrite app_cons /=. by rewrite IH. Qed.

Lemma match_word_refl w s : match_word (lower w) (w +:+ s) = Some s.
Proof.
  induction w as [|c w IH]; [done|]. rewrite app_cons /=. rewrite bool_decide_eq_true_2 //.
Qed.

Lemma length_lower w : String.length (lower w) = String.length w.
Proof. induction w as [|c w IH]; [done|]. unfold lower in *. simpl. by rewrite IH. Qed.

(** What is matched: the word, spaces and a token. *)
Lemma match_bearer_spec s g rest :
  match_bearer s = Some (g, rest) →
  ∃ w ws token, g = w +:+ ws ∧ s = g +:+ token +:+ rest ∧ lower w = "bearer" ∧
    sforall is_space ws = true ∧ sforall token_char token = true ∧ token ≠ EmptyString.
Proof.
  unfold match_bearer. destruct (match_word _ s) as [r|] eqn:Ew; [|done].
  cbn [mbind option_bind]. apply match_word_spec in Ew as (w & -> & Hw).
  destruct (span is_space r) as [ws r1] eqn:E1. apply span_spec in E1 as [-> Hws].
  destruct (span token_char r1) as [token r2] eqn:E2. apply span_spec in E2 as [-> Ht].
  destruct (snonempty ws && snonempty token) eqn:E; [|done].
  apply andb_true_iff in E as [_ Hne%snonempty_true].
  assert (6%nat = String.length w) as -> by by rewrite -length_lower Hw.
  rewrite stake_app. intros [= <- <-]. exists w, ws, token. by rewrite !string_app_assoc.
Qed.

(** A scan either changes nothing or puts a bracket where a credential was. *)
Lemma redact_from_shape n s :
  redact_from n s = s ∨ ∃ a v u, redact_from n s = a +:+ String bracket v ∧ s = a +:+ u.
Proof.
  revert s. induction n as [|n IH]; intros s; [by left|]. simpl.
  destruct (match_bearer s) as [[g rest]|] eqn:E.
  - right. apply match_bearer_spec in E as (w & ws & token & -> & -> & _). eexists _, _, _. by split.
  - destruct s as [|c s]; [by left|]. destruct (IH s) as [->|(a & v & u & -> & ->)]; [by left|].
    right. by exists (String c a), v, u.
Qed.

Lemma match_bearer_other c s : lower_char c ≠ (chr 98) → match_bearer (String c s) = None.
Proof. intros H. unfold match_bearer. simpl. by rewrite bool_decide_eq_false_2. Qed.

Lemma clean_app w s :
  has_char (chr 98) (lower w) = false → clean s = true → clean (w +:+ s) = true.
Proof.
  intros H Hs. induction w as [|c w IH]; [done|]. unfold lower in *. simpl in H.
  apply orb_false_iff in H as [Hc%bool_decide_eq_false_1 H]. rewrite app_cons.
  apply clean_cons; [by apply match_bearer_other|by apply IH].
Qed.

Lemma spaces_no_b s : sforall is_space s = true → has_char (chr 98) (lower s) = false.
Proof.
  induction s as [|c s IH]; [done|]. simpl. intros [Hc H]%andb_true_iff. unfold lower in *. simpl.
  rewrite IH // orb_false_r. apply bool_decide_eq_false. intros E.
  rewrite -lower_char_space E in Hc. done.
Qed.

(** The word and the spaces alone are no match. *)
Lemma match_bearer_group w ws :
  lower w = "bearer" → sforall is_space ws = true → match_bearer (w +:+ ws) = None.
Proof.
  intros Hw Hws. unfold match_bearer. rewrite -Hw match_word_refl /=. rewrite span_all //=.
  by rewrite andb_false_r.
Qed.

Lemma string_length_app s t : String.length (s +:+ t) = (String.length s + String.length t)%nat.
Proof. induction s as [|c s IH]; [done|]. rewrite app_cons /=. by rewrite IH. Qed.

(** What is left after a scan contains no credential. *)
Lemma redact_from_clean n s : (String.length s ≤ n)%nat → clean (redact_from n s) = true.
Proof.
  revert s. induction n as [|n IH]; intros s Hn; [by destruct s; [|simpl in Hn; lia]|]. simpl.
  destruct (match_bearer s) as [[g rest]|] eqn:E.
  - pose proof E as (w & ws & token & -> & -> & Hw & Hws & _ & Htok)%match_bearer_spec.
    assert (clean (_REDACTED +:+ redact_from n rest) = true) as Hc.
    { apply clean_app; [done|]. apply IH. rewrite !string_length_app in Hn.
      destruct token; [done|]. simpl in Hn. lia. }
    rewrite string_app_assoc. destruct w as [|b w]; [done|]. rewrite app_cons.
    apply clean_cons.
    + change (match_bearer (String b w +:+ (ws +:+ String bracket ("REDACTED]" +:+ redact_from n rest)))
        = None).
      rewrite -string_app_assoc. apply (match_bearer_stop _ _ EmptyString).
      rewrite string_app_nil_r. by apply match_bearer_group.
    + apply clean_app; [|by apply clean_app; [apply spaces_no_b|]].
      unfold lower in *. simpl in Hw. injection Hw as _ ->. reflexivity.
  - destruct s as [|c s]; [done|]. apply clean_cons; [|apply IH; simpl in Hn; lia].
    destruct (redact_from_shape n s) as [->|(a & v & u & -> & ->)]; [done|].
    rewrite -app_cons. by apply (match_bearer_stop _ _ u).
Qed.

Lemma redact_from_id n s : clean s = true → redact_from n s = s.
Proof.
  revert s. induction n as [|n IH]; intros s Hs; [done|].
  destruct s as [|c s]; simpl in *; [done|].
  destruct (match_bearer (String c s)); [done|]. by rewrite IH.
Qed.

Lemma redact_text_clean s : clean (redact_text s) = true.
Proof. by apply redact_from_clean. Qed.

Lemma redact_text_id s : clean s = true → redact_text s = s.
Proof. apply redact_from_id. Qed.

(** ** Structured payloads are scrubbed *)

(** No credential in any string, and nothing under a sensitive key. *)
Fixpoint scrubbed (v : json) : Prop :=
  match v with
  | JStr s => clean s = true
  | JList l => (fix go l := match l with [] => True | x :: l' => scrubbed x ∧ go l' end) l
  | JObj d =>
      (fix go (d : obj) := match d with
       | [] => True
       | (k, x) :: d' =>
           (if _is_sensitive_key k then x = JStr _REDACTED else scrubbed x) ∧ go d'
       end) d
  | _ => True
  end.

Lemma scrubbed_list l : scrubbed (JList l) ↔ Forall scrubbed l.
Proof. induction l as [|x l IH]; simpl in *; [done|]. by rewrite IH Forall_cons. Qed.

Definition scrubbed_entry (kv : string * json) : Prop :=
  if _is_sensitive_key kv.1 then kv.2 = JStr _REDACTED else scrubbed kv.2.

Lemma scrubbed_obj (d : obj) : scrubbed (JObj d) ↔ Forall scrubbed_entry d.
Proof. induction d as [|[k x] d IH]; [done|]. by rewrite Forall_cons -IH. Qed.

(** [v] with everything under a sensitive key replaced by [w]. *)
Fixpoint mask (w v : json) : json :=
  match v with
  | JList l => JList ((fix go l := match l with [] => [] | x :: l' => mask w x :: go l' end) l)
  | JObj d =>
      JObj ((fix go (d : obj) : obj := match d with
        | [] => []
        | (k, x) :: d' => (k, if _is_sensitive_key k then w else mask w x) :: go d'
        end) d)
  | _ => v
  end.

Lemma mask_list w l : mask w (JList l) = JList (mask w <$> l).
Proof. done. Qed.

Lemma mask_obj w d :
  mask w (JObj d) = JObj ((λ kv, (kv.1, if _is_sensitive_key kv.1 then w else mask w kv.2)) <$> d).
Proof. simpl. f_equal. induction d as [|[k x] d IH]; [done|]. by rewrite IH. Qed.

Lemma redact_scrubbed v : scrubbed (redact v).
Proof.
  induction v as [| | | |s|l IH|d IH] using json_nested_ind; try done.
  - apply redact_text_clean.
  - rewrite redact_list scrubbed_list. by apply Forall_fmap.
  - rewrite redact_obj scrubbed_obj. apply Forall_fmap. apply (Forall_fmap snd) in IH.
    eapply Forall_impl; [exact IH|]. intros [k x] Hx. unfold scrubbed_entry, redact_entry. simpl in *.
    by destruct (_is_sensitive_key k).
Qed.

Lemma redact_id v : scrubbed v → redact v = v.
Proof.
  induction v as [| | | |s|l IH|d IH] using json_nested_ind; try done.
  - intros H. simpl. by rewrite redact_text_id.
  - rewrite redact_list scrubbed_list. intros H. f_equal.
    rewrite -{2}(list_fmap_id l). apply list_fmap_ext. intros i x Hi.
    apply (Forall_lookup_1 _ _ _ _ IH Hi), (Forall_lookup_1 _ _ _ _ H Hi).
  - rewrite redact_obj scrubbed_obj. intros H. f_equal. apply (Forall_fmap snd) in IH.
    rewrite -{2}(list_fmap_id d). apply list_fmap_ext. intros i [k x] Hi.
    pose proof (Forall_lookup_1 _ _ _ _ IH Hi) as IHx. pose proof (Forall_lookup_1 _ _ _ _ H Hi) as Hx.
    unfold redact_entry, scrubbed_entry in *. simpl in *.
    destruct (_is_sensitive_key k); [by rewrite Hx|by rewrite IHx].
Qed.

Lemma redact_mask w v : redact (mask w v) = redact v.
Proof.
  induction v as [| | | |s|l IH|d IH] using json_nested_ind; try done.
  - rewrite mask_list !redact_list. f_equal. rewrite -list_fmap_compose. apply list_fmap_ext.
    intros i x Hi. by apply (Forall_lookup_1 _ _ _ _ IH Hi).
  - rewrite mask_obj !redact_obj. f_equal. rewrite -list_fmap_compose. apply list_fmap_ext.
    intros i [k x] Hi. unfold redact_entry. simpl. f_equal.
    destruct (_is_sensitive_key k); [done|]. apply (Forall_fmap snd) in IH.
    by apply (Forall_lookup_1 _ _ _ _ IH Hi).
Qed.

(** ** Lines *)

(** The parts of a line that the record does not choose, or that are not text. *)
Definition fixed_field (request_id : string) (r : LogRecord) (kv : string * json) : Prop :=
  kv ∈ [("ts", JStr (lr_time r)); ("level", JStr (lr_levelname r)); ("logger", JStr (lr_name r));
        ("request_id", JStr request_id)].

(** A field of a line is fixed, scrubbed, or the exception with its two texts clean. *)
Definition field_ok (request_id : string) (r : LogRecord) (kv : string * json) : Prop :=
  fixed_field request_id r kv ∨ scrubbed kv.2 ∨
  ∃ type message traceback, kv.1 = "exception" ∧
    kv.2 = JObj [("type", JStr type); ("message", JStr message); ("traceback", JStr traceback)] ∧
    clean message = true ∧ clean traceback = true.

Lemma Forall_dset {A} (P : string * A → Prop) (d : list (string * A)) k v :
  Forall P d → P (k, v) → Forall P (dset d k v).
Proof.
  intros Hd Hk. induction d as [|[k' v'] d IH]; simpl; [by constructor|].
  apply Forall_cons in Hd as [H1 H2]. case_decide; subst; constructor; auto.
Qed.

Lemma json_payload_ok request_id r :
  Forall (field_ok request_id r) (json_payload request_id r).
Proof.
  unfold json_payload. set (start := _ ++ _). assert (Forall (field_ok request_id r) start) as Hs.
  { subst start. apply Forall_app. split.
    - rewrite !Forall_cons Forall_nil. split_and!; try (left; unfold fixed_field; set_solver); [|done].
      right. left. apply redact_text_clean.
    - destruct (lr_exc_info r) as [e|]; [|constructor]. apply Forall_singleton. right. right.
      eexists _, _, _. split; [done|]. split; [done|]. split; apply redact_text_clean. }
  revert Hs. generalize start. clear start. induction (lr_extra r) as [|[k x] extra IH]; [done|].
  intros d Hd. simpl. apply IH. destruct (skipped k); [done|]. apply Forall_dset; [done|].
  right. left. apply redact_scrubbed.
Qed.

(** The filter in front of the formatter changes nothing: scrubbing is idempotent. *)
Lemma filter_then_format request_id r :
  json_payload request_id (filter_record r) = json_payload request_id r.
Proof. unfold json_payload. simpl. by rewrite (redact_text_id _ (redact_text_clean _)). Qed.

(** ** The installed handler *)

Definition configured (foreign : list Handler) (lg : Logging) : Prop :=
  Forall (λ h, hd_id h < lg_next lg)%nat foreign ∧
  match lg_owned lg with
  | None => lg_handlers lg = foreign
  | Some h => lg_handlers lg = foreign ++ [h] ∧ h ∉ foreign ∧ hd_filtered h = true ∧
      (hd_id h < lg_next lg)%nat
  end.

Lemma remove_handler_id h l : h ∉ l → remove_handler h l = l.
Proof.
  intros Hh. unfold remove_handler. induction l as [|x l IH]; [done|].
  apply not_elem_of_cons in Hh as [Hne Hh]. rewrite filter_cons_True; [done|]. by rewrite IH.
Qed.

Lemma configure_logging_ok foreign level as_json lg :
  configured foreign lg → configured foreign (configure_logging level as_json lg).2.
Proof.
  intros [Hf Ho]. unfold configure_logging. case_bool_decide; [|done]. simpl. split.
  { eapply Forall_impl; [exact Hf|]. simpl. lia. }
  assert (match lg_owned lg with Some h => remove_handler h (lg_handlers lg) | None => lg_handlers lg end
          = foreign) as ->.
  { destruct (lg_owned lg) as [h|]; [|done]. destruct Ho as (-> & Hh & _).
    unfold remove_handler. rewrite filter_app. fold (remove_handler h foreign).
    rewrite remove_handler_id //. rewrite filter_cons_False; [by intros []|]. by rewrite app_nil_r. }
  simpl. split_and!; [done| |done|lia]. intros Hin.
  rewrite Forall_forall in Hf. specialize (Hf _ Hin). simpl in Hf. lia.
Qed.

(** However often logging is configured, the handlers of others stay, and the
    application has at most one, which redacts; after a call that succeeds it has
    one, of the kind asked for. *)
Theorem logging_installed (foreign : list Handler) (level : string) (next : nat)
    (calls : list (string * bool)) :
  Forall (λ h, hd_id h < next)%nat foreign →
  let configure lg c := (configure_logging c.1 c.2 lg).2 in
  let lg := foldl configure (MkLogging level foreign None next) calls in
  (lg_handlers lg = foreign ∨
   ∃ h, lg_handlers lg = foreign ++ [h] ∧ h ∉ foreign ∧ hd_filtered h = true) ∧
  (∀ log_level as_json lg', configure_logging log_level as_json lg = (Ok tt, lg') →
     ∃ h, lg_handlers lg' = foreign ++ [h] ∧ hd_filtered h = true ∧ hd_json h = as_json).
Proof.
  intros Hf configure lg. assert (configured foreign lg) as Hc.
  { subst lg. assert (configured foreign (MkLogging level foreign None next)) as H by (split; done).
    revert H. generalize (MkLogging level foreign None next).
    induction calls as [|c calls IH]; [done|]. intros lg H. by apply IH, configure_logging_ok. }
  split.
  - destruct Hc as [_ Ho]. destruct (lg_owned lg) as [h|]; [|by left].
    destruct Ho as (? & ? & ? & _). right. eauto.
  - intros log_level as_json lg' E. apply (configure_logging_ok _ log_level as_json) in Hc.
    rewrite E in Hc. destruct Hc as [_ Ho]. revert E Ho. unfold configure_logging.
    case_bool_decide; [|done]. intros [= <-]. simpl. intros (? & _). eauto.
Qed.

(** ** The property *)


Definition sample_extra : json :=
  JObj [("user", JStr "ann"); ("Access-Token", JInt 5);
        ("nested", JList [JObj [("note", JStr "sent bearer  sk-1.x, a token")]])].

Definition sample_record (extra : obj) : LogRecord :=
  MkLogRecord "t" "INFO" "context_proxy" "Bearer sk-2 refused" None extra.


Example sample_line :
  JsonFormatter_format (host:=sample_host) "r" (sample_record [("count", JInt 2)])
  = "{" +:+ join ", " [json_quote "ts" +:+ ": " +:+ json_quote "t";
      json_quote "level" +:+ ": " +:+ json_quote "INFO";
      json_quote "logger" +:+ ": " +:+ json_quote "context_proxy";
      json_quote "event" +:+ ": " +:+ json_quote "Bearer [REDACTED] refused";
      json_quote "request_id" +:+ ": " +:+ json_quote "r"; json_quote "count" +:+ ": 2"] +:+ "}".
Proof. vm_compute. reflexivity. Qed.

(** The extra fields are redacted one by one, so the key of a field itself does not
    mask it. *)
Example sensitive_extra_is_logged :
  dget (json_payload "r" (sample_record [("api_key", JStr "sk-3")])) "api_key" = Some (JStr "sk-3").
Proof. reflexivity. Qed.

(** The word that follows the scheme is taken for the credential, even when it is the
    scheme again. *)
Example doubled_scheme_leaks :
  redact_text "Authorization: Bearer Bearer sk-4" = "Authorization: Bearer [REDACTED] sk-4".
Proof. reflexivity. Qed.

(** The readable format appends the traceback as it is. *)
Example readable_traceback_leaks :
  let e := MkExcInfo "ValueError" "bad Bearer sk-5" "ValueError: bad Bearer sk-5" in
  let r := MkLogRecord "t" "ERROR" "context_proxy" "request_failed" (Some e) [] in
  emit (host:=sample_host) (MkHandler 0 true false) "r" r
  = "t ERROR context_proxy request_failed" +:+ nl +:+ "ValueError: bad Bearer sk-5".
Proof. reflexivity. Qed.
