(* ===== verification/Main.v ===== *)
(** * The application ([main.py])

    [create_app] builds the components from the settings; its lifespan starts the
    database, wires the store and the memory service when there is one, and releases
    what the application owns; the operational endpoints and the last-resort error
    handler are those of the module. *)

From Stdlib Require Import QArith.
From S2P Require Import Prelude PyDict PyString Json Candidates Mmr Engine Memory Services Retrieval Resilience RateLimit.
From S2P Require Import Http Identity Provider Routes Internal Metrics Middleware Migrations Settings.
Local Open Scope Z_scope.

(** ** Construction *)

(** The arguments of [create_app]: which clients, database and store the caller
    brings, and the memory service and engine if it does. *)
Record Injected : Type := MkInjected {
  in_llm_client : bool;
  in_database : bool;
  in_store : bool;
  in_memory_service : option MemoryService;
  in_embedding_client : bool;
  in_qdrant_client : bool;
  in_context_engine : option ContextAssemblyEngine;
}.

Definition nothing_injected : Injected := MkInjected false false false None false false None.

(** What the application may have to close. *)
Inductive Resource : Type := LlmClient | EmbeddingClient | QdrantClient | Pool.

#[export] Instance Resource_eq_dec : EqDecision Resource.
Proof. solve_decision. Defined.

Inductive StoreKind : Type := InjectedStore | DatabaseStore.

(** [app.state] and the variables of [create_app] that its closures share. *)
Record AppState : Type := MkAppState {
  st_settings : Settings;
  st_injected : Injected;
  st_breaker : CircuitBreaker;
  st_engine : option ContextAssemblyEngine;
  st_middleware : ObservabilityMiddleware;
  st_docs : bool;
  st_authorization : option string;
  st_database : Database;
  st_store : option StoreKind;
  st_memory : option MemoryService;
  st_owned_clients : list Resource;
}.

Section create.
(** The similarity of the engine, and the clock when the limiter is made. *)
Context (similarity : string → string → Q) (now : Q).

Definition make_breaker (s : ResilienceSettings) : res CircuitBreaker :=
  CircuitBreaker_init (breaker_failure_threshold s) (breaker_reset_seconds s).

Definition make_limiter (s : RateLimitSettings) : res RateLimiter :=
  RateLimiter_init (requests_per_minute s) (burst s) now (max_identities s) (identity_ttl_seconds s)
    (max_identity_chars s).

Definition make_engine (s : Settings) (injected : option ContextAssemblyEngine)
    : res (option ContextAssemblyEngine) :=
  match injected with
  | Some engine => Ok (Some engine)
  | None =>
      if assembly_enabled (assembly s)
      then Some <$> ContextAssemblyEngine_init (usable_budget_tokens (context s)) (assembly s)
                      (retrieval s) similarity
      else Ok None
  end.

(** The key goes on a client that the application makes itself. *)
Definition authorization (s : EndpointSettings) (injected : bool) : option string :=
  if injected then None
  else if snonempty (api_key s) then Some ("Bearer " +:+ api_key s) else None.

Definition make_middleware (s : Settings) (limiter : RateLimiter) : ObservabilityMiddleware :=
  MkMiddleware (max_body_bytes (server s)) (rate_limit_enabled (rate_limit s)) (Some limiter) [] 0 0 0.

Definition create_app (s : Settings) (inj : Injected) (db : Database) : res AppState :=
  breaker ← make_breaker (resilience s);
  limiter ← make_limiter (rate_limit s);
  engine ← make_engine s (in_context_engine inj);
  Ok (MkAppState s inj breaker engine (make_middleware s limiter)
        (match security_mode (security s) with Development => true | Production => false end)
        (authorization (inference s) (in_llm_client inj)) db None None []).
End create.

(** What the routes read from [app.state]. *)
Definition route_app (a : AppState) : App :=
  MkApp (match st_store a with Some _ => true | None => false end) (st_memory a) (st_engine a)
    (usable_budget_tokens (context (st_settings a))) (pinned_budget_tokens (context (st_settings a)))
    (auto_index (Settings.memory (st_settings a)))
    (Some (max_capture_bytes (server (st_settings a))))
    (conversation (st_settings a)).

(** ** The lifespan *)

Definition set_database (db : Database) (a : AppState) : AppState :=
  MkAppState (st_settings a) (st_injected a) (st_breaker a) (st_engine a) (st_middleware a) (st_docs a)
    (st_authorization a) db (st_store a) (st_memory a) (st_owned_clients a).

Definition wired (store : option StoreKind) (memory : option MemoryService) (owned : list Resource)
    (a : AppState) : AppState :=
  MkAppState (st_settings a) (st_injected a) (st_breaker a) (st_engine a) (st_middleware a) (st_docs a)
    (st_authorization a) (st_database a) store memory (st_owned_clients a ++ owned).

Section lifespan.
Context {Schema : Type} (exec : string → Schema → option Schema).

Definition choose_store (a : AppState) : option StoreKind :=
  if in_store (st_injected a) then Some InjectedStore
  else if db_available (st_database a) then Some DatabaseStore
  else None.

(** The memory service, and the clients made for it. *)
Definition choose_memory (a : AppState) : option MemoryService * list Resource :=
  match in_memory_service (st_injected a) with
  | Some m => (Some m, [])
  | None =>
      if db_available (st_database a) then
        (Some (MemoryService_init (Some (retrieval (st_settings a)))
                 (Settings.max_embed_chars (Settings.memory (st_settings a))) 64),
         (if in_embedding_client (st_injected a) then [] else [EmbeddingClient])
         ++ (if in_qdrant_client (st_injected a) then [] else [QdrantClient]))
      else (None, [])
  end.

(** Up to the [yield]. *)
Definition startup (reachable : bool) (dir : list Migration) (a : AppState) (d : Migrated Schema)
    : res unit * AppState * Migrated Schema :=
  let '(r, db, d) := start exec reachable dir (st_database a) d in
  let a := set_database db a in
  match r with
  | Err e => (Err e, a, d)
  | Ok _ =>
      let '(memory, owned) := choose_memory a in
      (Ok tt, wired (choose_store a) memory owned a, d)
  end.

(** The [finally] block: the close calls in their order, and what is left.
    [closes] says which of them succeed; a failure is logged. *)
Definition shutdown (closes : Resource → bool) (a : AppState) : list Resource * AppState :=
  ((if in_llm_client (st_injected a) then [] else [LlmClient])
   ++ st_owned_clients a
   ++ (if db_available (st_database a) then [Pool] else []),
   if closes Pool then set_database (close (st_database a)) a else a).

(** A whole run: whether it started, what was closed, and the final state. *)
Definition lifespan (reachable : bool) (dir : list Migration) (closes : Resource → bool) (a : AppState)
    (d : Migrated Schema) : res unit * list Resource * AppState * Migrated Schema :=
  let '(r, a, d) := startup reachable dir a d in
  let '(closed, a) := shutdown closes a in
  (r, closed, a, d).
End lifespan.

(** ** Operational endpoints *)

(** [up]: whether PostgreSQL answers. *)
Definition db_state (up : bool) (db : Database) : string :=
  if db_available db then match ping up db with Ok _ => "ok" | Err _ => "degraded" end
  else "degraded".

Definition healthz (up : bool) (a : AppState) : json :=
  JObj [("status", JStr "ok"); ("database", JStr (db_state up (st_database a)))].

(** Reading the breaker's state may move it from open to half open. *)
Definition readyz (up : bool) (now : Q) (a : AppState) (breaker : CircuitBreaker) : json * CircuitBreaker :=
  let breaker := _current_state now breaker in
  (JObj [("ready", JBool true);
         ("checks", JObj [("database", JStr (db_state up (st_database a)));
                          ("circuit_breaker", JStr (state_name (b_state breaker)))])],
   breaker).

Definition prometheus_metrics {host : Host} (registry : list Collector) : Response :=
  MkResponse 200 [("content-type", "text/plain; version=0.0.4; charset=utf-8")]
    (Bytes (Registry_render registry)).

Definition unhandled_exception_handler : Response :=
  openai_error "Internal server error" "internal_error" (JStr "internal_error") JNull 500 [].

(** ** Accepted settings build a working application *)

Lemma make_breaker_ok s :
  1 ≤ breaker_failure_threshold s → (0 < breaker_reset_seconds s)%Q →
  ∃ b, make_breaker s = Ok b ∧ breaker_ok b ∧ b_state b = CLOSED ∧ b_consecutive_failures b = 0
       ∧ b_threshold b = breaker_failure_threshold s.
Proof.
  intros H Hr. unfold make_breaker, CircuitBreaker_init.
  destruct (Z.ltb_spec (breaker_failure_threshold s) 1); [lia|].
  eexists. split; [done|]. split_and!; try done. split; simpl; try done; try lia.
Qed.

Lemma make_limiter_ok now s :
  0 < requests_per_minute s → 0 < burst s → 1 ≤ max_identities s → (0 < identity_ttl_seconds s)%Q →
  1 ≤ max_identity_chars s →
  ∃ rl, make_limiter now s = Ok rl ∧ limiter_ok rl ∧ ∀ t, clock_ok rl t.
Proof.
  intros H1 H2 H3 H4 H5. assert (∃ rl, make_limiter now s = Ok rl) as [rl E].
  { unfold make_limiter, RateLimiter_init.
    destruct (Z.leb_spec (requests_per_minute s) 0); [lia|].
    destruct (Z.leb_spec (burst s) 0); [lia|]. destruct (Z.ltb_spec (max_identities s) 1); [lia|].
    destruct (Qle_bool (identity_ttl_seconds s) 0) eqn:E.
    { apply Qle_bool_iff in E. by apply Qlt_not_le in H4. }
    destruct (Z.ltb_spec (max_identity_chars s) 1); [lia|]. simpl. eauto. }
  exists rl. split; [done|]. by eapply init_ok.
Qed.

Lemma make_engine_ok similarity s :
  0 < usable_budget_tokens (context s) →
  make_engine similarity s None
  = Ok (if assembly_enabled (assembly s)
        then Some (MkEngine (usable_budget_tokens (context s)) (assembly s) (retrieval s) similarity)
        else None).
Proof.
  intros H. unfold make_engine, ContextAssemblyEngine_init.
  destruct (assembly_enabled _); [|done]. by destruct (Z.leb_spec (usable_budget_tokens (context s)) 0); [lia|].
Qed.

Lemma validated_gate s hs :
  validate_security s = Ok s → ∀ e, require_internal_auth s hs = Ok (Some e) → he_status e = 401.
Proof.
  unfold validate_security, require_internal_auth. intros Hv e.
  destruct (snonempty (internal_auth_token s)); simpl.
  - destruct (get_header _ _) as [p|]; [|by intros [= <-]].
    destruct (compare_digest _ _) as [[]|]; simpl; [done|by intros [= <-]|done].
  - by destruct (security_mode s).
Qed.


(** ** The lifespan releases what it owns *)

(** What a run owns: clients it was not given, and a pool once it is up. *)
Definition releasable (inj : Injected) (pool : bool) (x : Resource) : Prop :=
  match x with
  | LlmClient => in_llm_client inj = false
  | EmbeddingClient => pool = true ∧ in_memory_service inj = None ∧ in_embedding_client inj = false
  | QdrantClient => pool = true ∧ in_memory_service inj = None ∧ in_qdrant_client inj = false
  | Pool => pool = true
  end.

Section lifespan_proofs.
Context {Schema : Type} (exec : string → Schema → option Schema).

Lemma start_cases reachable dir db d :
  let '(r, db', _) := start exec reachable dir db d in
  match r with
  | Ok b => b = reachable ∧ db_available db' = reachable
  | Err e => e = PostgresError ∧ reachable = true ∧ db_available db' = false
  end.
Proof.
  unfold start. destruct reachable; [|done]. unfold apply_migrations.
  destruct (migrate_loop exec [] (pending dir) d) as [[names|e] d'] eqn:E; [done|].
  by apply migrate_loop_error in E as ->.
Qed.

(** The clients made at start-up are those owned. *)
Lemma choose_memory_owned a :
  let '(m, owned_now) := choose_memory a in
  NoDup owned_now ∧ LlmClient ∉ owned_now ∧ Pool ∉ owned_now ∧
  (∀ x, x ∈ owned_now ↔ x ∈ [EmbeddingClient; QdrantClient]
                        ∧ releasable (st_injected a) (db_available (st_database a)) x) ∧
  (is_Some m ↔ is_Some (in_memory_service (st_injected a)) ∨ db_available (st_database a) = true).
Proof.
  unfold choose_memory. destruct (st_injected a) as [llm inj_db store mem emb qd eng]. simpl.
  destruct mem as [m|]; [|destruct (db_available (st_database a)), emb, qd]; simpl;
    (split_and!; [apply (bool_decide_unpack _); reflexivity..| |by split; intros; destruct_or?; eauto]);
    intros []; unfold releasable; simpl; rewrite ?elem_of_cons ?elem_of_nil; naive_solver.
Qed.

Lemma shutdown_closes closes a pool closed final :
  shutdown closes a = (closed, final) → db_available (st_database a) = pool →
  NoDup (st_owned_clients a) →
  (∀ x, x ∈ st_owned_clients a ↔ x ∈ [EmbeddingClient; QdrantClient] ∧ releasable (st_injected a) pool x) →
  NoDup closed ∧ (∀ x, x ∈ closed ↔ releasable (st_injected a) pool x) ∧
  (closes Pool = true → db_available (st_database final) = false).
Proof.
  unfold shutdown. intros [= <- <-] Hpool Hnd Hx. rewrite Hpool. split_and!.
  - apply NoDup_app. split; [destruct (in_llm_client _); [apply NoDup_nil_2|apply NoDup_singleton]|].
    split.
    + intros x Hl [[Ho _]%Hx|Hp]%elem_of_app; destruct (in_llm_client _), pool; set_solver.
    + apply NoDup_app. split; [done|]. split; [|destruct pool; [apply NoDup_singleton|apply NoDup_nil_2]].
      intros x [Ho _]%Hx Hp. destruct pool; set_solver.
  - intros x. rewrite !elem_of_app Hx. unfold releasable.
    destruct x, pool, (in_llm_client (st_injected a)); rewrite ?elem_of_cons ?elem_of_nil; naive_solver.
  - by intros ->.
Qed.

#[local] Opaque shutdown.

End lifespan_proofs.

(** ** A concrete run *)

Definition sample_app (inj : Injected) : option AppState :=
  match create_app (λ _ _, 0%Q) 0 default_Settings inj (MkDatabase false) with
  | Ok a => Some a
  | Err _ => None
  end.


(** The embedding client comes from outside and stays open; closing the inference
    client fails, and the others are closed all the same. *)
Definition with_embedding_client : Injected := MkInjected false false false None true false None.


(** A database that the caller brings is closed too, unlike a client. *)
Example injected_database_is_closed :
  let inj := MkInjected true true true None true true None in
  ∃ a final d, sample_app inj = Some a ∧
    lifespan log_exec true scripts (λ _, true) a (MkMigrated [] []) = (Ok tt, [Pool], final, d).
Proof. eexists _, _, _. split; reflexivity. Qed.

(** Without PostgreSQL the process is healthy and ready, and says so. *)
Example degraded_is_ready :
  match sample_app nothing_injected with
  | Some a => healthz false a = JObj [("status", JStr "ok"); ("database", JStr "degraded")]
      ∧ (readyz false 0 a (st_breaker a)).1 = JObj [("ready", JBool true);
          ("checks", JObj [("database", JStr "degraded"); ("circuit_breaker", JStr "closed")])]
  | None => False
  end.
Proof. split; reflexivity. Qed.
