(* ===== verification/Server.v ===== *)
(** * The server: middleware, router and state together

    [handle] takes one HTTP request through [ObservabilityMiddleware] to the routes
    of [main.py], [api/routes.py] and [api/routes_internal.py] and back, over the
    middleware's own state, the tables, the services and the provider.  What the
    frameworks do in between, parsing the requests of the internal router and
    rendering responses, is given from outside. *)

From stdpp Require Import gmap.
From Stdlib Require Import QArith.
From S2P Require Import Prelude PyDict PyString Json Candidates Mmr Engine Store Memory Services Retrieval.
From S2P Require Import Resilience RateLimit Capture Http Identity Provider Routes Internal Metrics Middleware Migrations Settings Main Diagnostics.
Local Open Scope Z_scope.

(** A request as it arrives, the clock, the random request id, and whether
    PostgreSQL answers at the points where a handler needs it and the size its pool
    reports. *)
Record arrival : Type := MkArrival {
  ar_scope : Scope;
  ar_input : list received;
  ar_fresh : string;
  ar_now : Q;
  ar_stamp : Z;
  ar_inbound_up : bool;
  ar_retrieval_up : bool;
  ar_persist_up : bool;
  ar_pool_size : Z;
}.

(** [request.body()]: the parts up to the last one; [inr] when the client leaves
    before, [None] while more is to come. *)
Fixpoint request_body (acc : string) (messages : list received) : option (string + string) :=
  match messages with
  | [] => None
  | Disconnect :: _ => Some (inr EmptyString)
  | OtherEvent :: rest => request_body acc rest
  | RequestPart content more :: rest =>
      let acc := acc +:+ content in
      if more then request_body acc rest else Some (inl acc)
  end.

(** The routes that the application registers. *)
Inductive routed : Type :=
| ToChat
| ToModels
| ToInternal (r : internal_request)
| ToHealth
| ToReady
| ToDiagnostics
| ToMetrics
| ToNothing.

Section server.
Context {host : Host} {pg : Postgres} {uu : Uuids} {si : SessionIds} {se : Search} {utf8 : Utf8} {checks : UrlChecks}.
Context (server : nat → request → reply) (up : Upstream).
(** The frameworks: rendering a response, the text of a decoding error, the typed
    request of an internal route and the document of its response, the answer to any
    other path, and the registry at the time. *)
Context (render : Response → headers * list string) (reason : string → string).
Context (parse_internal : Scope → string → option internal_request).
Context (internal_json : internal_response → json) (not_found : Response).
Context (registry : list Collector).

Definition route (sp : Scope) (body : string) : routed :=
  let at_ m path := bool_decide (sp_method sp = m ∧ sp_path sp = path) in
  if at_ "POST" "/v1/chat/completions" then ToChat
  else if at_ "GET" "/v1/models" then ToModels
  else if at_ "GET" "/healthz" then ToHealth
  else if at_ "GET" "/readyz" then ToReady
  else if at_ "GET" "/metrics" then ToMetrics
  else if at_ "GET" "/internal/v1/diagnostics" then ToDiagnostics
  else match parse_internal sp body with Some r => ToInternal r | None => ToNothing end.

(** [await request.json()], and what the routes read from the request. *)
Definition request_of (ar : arrival) (body : string + string) : Request :=
  MkRequest
    (match body with
     | inl text => match json_loads_bytes text with Some v => inl v | None => inr (reason text) end
     | inr disconnected => inr disconnected
     end)
    (sp_headers (ar_scope ar)) (ar_now ar) (ar_stamp ar)
    (ar_inbound_up ar) (ar_retrieval_up ar) (ar_persist_up ar).

Definition document (status : Z) (v : json) : Response := MkResponse status [] (Document v).

(** An [HTTPException] becomes its detail. *)
Definition document_or (r : json + HTTPException) : Response :=
  match r with
  | inl v => document 200 v
  | inr e => document (he_status e) (JObj [("detail", JStr (he_detail e))])
  end.

Definition internal_answer (r : internal_response + HTTPException) : Response :=
  document_or (match r with inl r => inl (internal_json r) | inr e => inr e end).

(** A handler that reads the breaker of the provider. *)
Definition on_breaker {A} (f : CircuitBreaker → res A * CircuitBreaker) : proxy_io ProviderState A := λ w,
  let '(r, breaker) := f (ps_breaker (px_llm w)) in
  (r, MkProxy (px_world w) (MkProviderState breaker (ps_requests (px_llm w)) (ps_sends (px_llm w)))
        (px_sent w) (px_usage w)).

Definition ready (db_up : bool) (now : Q) (a : AppState) : proxy_io ProviderState json :=
  on_breaker (λ b, let '(v, b) := readyz db_up now a b in (Ok v, b)).

(** The response of the route, over the tables, services and provider; [live] is the
    number of identities in the limiter. *)
Definition route_answer (a : AppState) (live : Z) (ar : arrival) (body : string + string) : proxy_io ProviderState Response :=
  let text := match body with inl s => s | inr _ => EmptyString end in
  let llm := openai_compatible (resilience (st_settings a)) up in
  match route (ar_scope ar) text with
  | ToChat => chat_completions server (route_app a) (request_of ar body)
  | ToModels => list_models
  | ToInternal r =>
      answered ← on_world (internal_route server (security (st_settings a)) (st_memory a) (st_engine a)
                   (ar_retrieval_up ar) (ar_now ar) (sp_headers (ar_scope ar)) r);
      mret (internal_answer answered)
  | ToHealth => mret (document 200 (healthz (ar_retrieval_up ar) a))
  | ToReady => v ← ready (ar_retrieval_up ar) (ar_now ar) a; mret (document 200 v)
  | ToMetrics => mret (prometheus_metrics registry)
  | ToDiagnostics =>
      answered ← on_breaker (diagnostics_route (sp_headers (ar_scope ar)) (ar_retrieval_up ar)
                   (ar_pool_size ar) live (ar_now ar) a);
      mret (document_or answered)
  | ToNothing => mret not_found
  end.

(** A stream can raise after its first chunks. *)
Definition raised_by (b : body) : option exn := match b with Streamed _ raised => raised | _ => None end.

(** The application behind the middleware: nothing is sent while the body is not
    complete. *)
Definition application (a : AppState) (live : Z) (ar : arrival) (w : Proxy ProviderState) (given : list received)
    : (list sent * option exn) * Proxy ProviderState :=
  match request_body EmptyString given with
  | None => (([], None), w)
  | Some body =>
      let '(r, w) := route_answer a live ar body w in
      (match r with
       | Ok response => (response_messages render response, raised_by (rs_body response))
       | Err e => ([], Some e)
       end, w)
  end.

Record Server : Type := MkServer {
  sr_state : AppState;
  sr_middleware : ObservabilityMiddleware;
  sr_proxy : Proxy ProviderState;
}.

(** The identities in the limiter once the request has been admitted. *)
Definition live_identities (mw : ObservabilityMiddleware) (ar : arrival) : Z :=
  match mw_limiter mw with
  | None => 0
  | Some rl =>
      if mw_rate_limit_enabled mw
         && bool_decide (normalize_route (sp_path (ar_scope ar)) ∉ RATE_LIMIT_EXEMPT_ROUTES)
      then match RateLimiter_admit rl (_client_host (ar_scope ar))
                   (_header (ar_scope ar) "x-conversation-id") (ar_now ar) with
           | Ok (_, rl) => identity_count rl
           | Err _ => identity_count rl
           end
      else identity_count rl
  end.

(** One request; the application runs only if the middleware calls it. *)
Definition handle (s : Server) (ar : arrival) : run_result * Server :=
  let run given := application (sr_state s) (live_identities (sr_middleware s) ar) ar (sr_proxy s) given in
  let '(r, mw) := call render (λ _ given, (run given).1) (ar_scope ar) (ar_input ar) (ar_fresh ar)
                    (ar_now ar) (sr_middleware s) in
  (r, MkServer (sr_state s) mw
        (match run_app_input r with Some given => (run given).2 | None => sr_proxy s end)).

Definition handle_all (s : Server) (ars : list arrival) : Server :=
  foldl (λ s ar, (handle s ar).2) s ars.

(** Starlette's outermost layer runs the handler of the application when an exception
    comes out before anything was sent. *)
Definition client_sees (r : run_result) : list sent :=
  run_sent r ++
  match run_ends r, run_sent r with
  | Raises _, [] => response_messages render unhandled_exception_handler
  | _, _ => []
  end.
End server.

(** ** The middleware's own state *)

Section limiter.
Context {host : Host} (render : Response → headers * list string).

(** Only [admit] changes the limiter. *)
Lemma run_app_limiter app sp id input mw :
  mw_limiter (run_app app sp id input mw).2 = mw_limiter mw.
Proof.
  unfold run_app. destruct (app sp input) as [messages [e|]]; simpl; by destruct (response_status _).
Qed.

Lemma run_body_limiter app sp id input mw :
  mw_limiter (run_body render app sp id input mw).2 = mw_limiter mw.
Proof.
  unfold run_body. destruct (_header _ _); [apply run_app_limiter|].
  destruct (_drain_body _ _ _ _); [apply run_app_limiter|done..].
Qed.

Lemma call_ready app sp input fresh now mw :
  limiter_ready mw now → limiter_ready (call render app sp input fresh now mw).2 now.
Proof.
  intros Hl. unfold call. destruct (sp_http sp); simpl; [|by destruct (app sp input)].
  destruct (declared_too_large _ _) as [[]|e]; [done| |done].
  destruct (mw_limiter mw) as [rl|] eqn:El.
  2: { intros rl. rewrite run_body_limiter El. done. }
  destruct (Hl rl El) as [Hok Hclock].
  destruct (_ && _).
  2: { intros rl'. rewrite run_body_limiter El. by intros [= <-]. }
  destruct (admit_ok rl (_client_host sp) (_header sp "x-conversation-id") now Hok Hclock)
    as (d & rl' & -> & Hok' & Hclock' & _).
  destruct (allowed d).
  - intros rl0. rewrite run_body_limiter. by intros [= <-].
  - by intros rl0 [= <-].
Qed.

(** The count shown is that of the limiter as the request leaves it. *)
Lemma live_identities_call app ar mw :
  sp_http (ar_scope ar) = true →
  let '(r, mw') := call render app (ar_scope ar) (ar_input ar) (ar_fresh ar) (ar_now ar) mw in
  is_Some (run_app_input r) →
  live_identities mw ar = match mw_limiter mw' with Some rl => identity_count rl | None => 0 end.
Proof.
  intros Hh. unfold call, live_identities. rewrite Hh. cbn [negb].
  assert (∀ id mw0, let '(r, mw') := run_body render app (ar_scope ar) id (ar_input ar) mw0 in
    mw_limiter mw' = mw_limiter mw0) as Hbody.
  { intros id mw0. pose proof (run_body_limiter app (ar_scope ar) id (ar_input ar) mw0) as H.
    by destruct (run_body _ _ _ _ _ _). }
  destruct (declared_too_large _ _) as [[]|e]; [by intros [? [=]]| |by intros [? [=]]].
  set (id := default _ _). destruct (mw_limiter mw) as [rl|] eqn:El.
  2: { specialize (Hbody id mw). destruct (run_body _ _ _ _ _ _) as [r mw']. by rewrite Hbody El. }
  destruct (_ && _).
  2: { specialize (Hbody id mw). destruct (run_body _ _ _ _ _ _) as [r mw']. by rewrite Hbody El. }
  destruct (RateLimiter_admit _ _ _ _) as [[d rl']|e]; [|by intros [? [=]]].
  destruct (allowed d); [|by intros [? [=]]].
  specialize (Hbody id (set_limiter rl' mw)). destruct (run_body _ _ _ _ _ _) as [r mw']. by rewrite Hbody.
Qed.

Lemma limiter_ready_later mw now later :
  (now <= later)%Q → limiter_ready mw now → limiter_ready mw later.
Proof.
  intros Hle Hl rl E. destruct (Hl rl E) as [Hok Hc]. split; [done|].
  intros k u Hk. eapply Qle_trans; [by eapply Hc|done].
Qed.
End limiter.

(** ** Serving *)

Fixpoint nondecreasing (from : Q) (times : list Q) : Prop :=
  match times with
  | [] => True
  | t :: rest => (from <= t)%Q ∧ nondecreasing t rest
  end.

Lemma nondecreasing_app from l k :
  nondecreasing from (l ++ k) ↔ nondecreasing from l ∧ nondecreasing (default from (last l)) k.
Proof.
  revert from. induction l as [|t l IH]; intros from; simpl; [naive_solver|]. rewrite IH.
  destruct l as [|t' l]; [simpl; naive_solver|]. rewrite last_cons_cons.
  destruct (last_is_Some (t' :: l)) as [_ [u ->]]; [done|]. simpl. naive_solver.
Qed.

Section serving.
Context {host : Host} {pg : Postgres} {laws : PostgresLaws} {uu : Uuids} {si : SessionIds} {se : Search}.
Context {utf8 : Utf8} {jlaws : JsonLaws} {checks : UrlChecks}.
Context (server : nat → request → reply) (up : Upstream).
Context (render : Response → headers * list string) (reason : string → string).
Context (parse_internal : Scope → string → option internal_request).
Context (internal_json : internal_response → json) (not_found : Response).
Context (registry : list Collector).

Notation route_answer := (route_answer server up reason parse_internal internal_json not_found registry).
Notation application := (application server up render reason parse_internal internal_json not_found registry).
Notation handle := (handle server up render reason parse_internal internal_json not_found registry).
Notation handle_all := (handle_all server up render reason parse_internal internal_json not_found registry).

Lemma request_of_ok a ar body :
  valid (st_settings a) → request_ok (route_app a) (request_of reason ar body).
Proof.
  intros [[_ Hp] [_ Hc] _ _ _ _]. split; [|simpl; lia|done]. intros v. simpl.
  destruct body as [text|e]; [|done]. destruct (json_loads_bytes text) as [v'|] eqn:E; [|done].
  intros [= <-]. by eapply json_loads_bytes_wf.
Qed.

(** Every route keeps the tables and the vector index consistent. *)
Lemma answer_keeps a live ar body w :
  valid (st_settings a) → index_ok (px_world w) → index_ok (px_world (route_answer a live ar body w).2).
Proof.
  intros Hv Hi. unfold Server.route_answer.
  set (llm := openai_compatible (resilience (st_settings a)) up).
  assert (∀ x, proxy_request_ok (route_app a) x →
    index_ok (px_world (serve_request server (route_app a) (security (st_settings a)) w x))) as Hserve.
  { intros x. by apply serve_request_keeps. }
  destruct (route _ _ _) as [| |r| | | | |]; [..|done].
  - apply (Hserve (ChatRequest (request_of reason ar body))). by apply request_of_ok.
  - by apply (Hserve ModelsRequest).
  - specialize (Hserve (InternalRequest (sp_headers (ar_scope ar)) (ar_retrieval_up ar) (ar_now ar) r) I).
    revert Hserve. cbn [serve_request]. unfold mbind, pio_bind.
    destruct (on_world _ w) as [[x|e] w']; done.
  - done.
  - done.
  - unfold mbind, pio_bind, on_breaker. by destruct (diagnostics_route _ _ _ _ _ _ _) as [[v|e] b].
  - done.
Qed.

Lemma application_keeps a live ar w given :
  valid (st_settings a) → index_ok (px_world w) → index_ok (px_world (application a live ar w given).2).
Proof.
  intros Hv Hi. unfold Server.application. destruct (request_body _ _) as [body|]; [|done].
  pose proof (answer_keeps a live ar body w Hv Hi). by destruct (route_answer a live ar body w).
Qed.

(** What holds of the server at a time, from the start on. *)
Record server_ok (a : AppState) (s : Server) (now : Q) : Prop := {
  so_state : sr_state s = a;
  so_limiter : limiter_ready (sr_middleware s) now;
  so_max : mw_max_body_bytes (sr_middleware s) = max_body_bytes (Settings.server (st_settings a));
  so_index : index_ok (px_world (sr_proxy s));
}.

(** What becomes of one request. *)
Definition served (s : Server) (ar : arrival) (r : run_result) (s' : Server) : Prop :=
  let id := request_id_of (ar_scope ar) (ar_fresh ar) in
  let max := mw_max_body_bytes (sr_middleware s) in
  match run_app_input r with
  | Some given =>
      body_admitted max (ar_scope ar) (ar_input ar) given ∧
      ¬ refused (sr_middleware s) (ar_scope ar) (ar_now ar) ∧
      ∃ messages raised w,
        application (sr_state s) (live_identities (sr_middleware s) ar) ar (sr_proxy s) given = ((messages, raised), w) ∧
        run_sent r = send_wrapper id <$> messages ∧ sr_proxy s' = w
  | None =>
      sr_proxy s' = sr_proxy s ∧
      (silent (ar_scope ar) (ar_input ar) r ∨
       ∃ response, run_sent r = send_wrapper id <$> response_messages render response ∧
         (rs_status response = 413 ∧ body_too_large max (ar_scope ar) (ar_input ar) ∨
          rs_status response = 429 ∧ refused (sr_middleware s) (ar_scope ar) (ar_now ar)))
  end.

Lemma handle_ok a s ar now :
  valid (st_settings a) → server_ok a s now → sp_http (ar_scope ar) = true → (now <= ar_now ar)%Q →
  let '(r, s') := handle s ar in server_ok a s' (ar_now ar) ∧ served s ar r s'.
Proof.
  intros Hv [Hst Hlim Hmax Hi] Hh Hle. apply (limiter_ready_later _ _ _ Hle) in Hlim. unfold Server.handle.
  set (app := λ (_ : Scope) given, (application (sr_state s) (live_identities (sr_middleware s) ar) ar (sr_proxy s) given).1).
  pose proof (call_outcome render app (ar_scope ar) (ar_input ar) (ar_fresh ar) (ar_now ar) _ Hh Hlim) as H.
  pose proof (call_ready render app (ar_scope ar) (ar_input ar) (ar_fresh ar) (ar_now ar) _ Hlim) as Hready.
  destruct (call _ _ _ _ _ _ _) as [r mw]. simpl in Hready.
  assert (mw_max_body_bytes mw = mw_max_body_bytes (sr_middleware s)) as Hm.
  { destruct H as [? ? _ _ [C _ _ _ _]|? _ [C _ _ _ _]|? ? _ [C _ _ _ _]|? ? ? ? _ _ _ [C _ _ _ _]]; exact C. }
  split.
  - split; simpl; [done|done|by rewrite Hm|]. destruct (run_app_input r) as [given|]; [|done].
    rewrite Hst. by apply application_keeps.
  - unfold served. destruct H as [r mw' E Hs _|mw' Hb _|d mw' Hr _|given messages raised mw' Hb Hr E _];
      cbn [run_app_input sr_proxy run_sent].
    + rewrite E. split; [done|by left].
    + split; [done|]. right. exists (too_large (sr_middleware s)). split; [done|by left].
    + split; [done|]. right. exists (rate_limited d). split; [done|by right].
    + split; [done|]. split; [done|]. unfold app in E.
      destruct (application _ _ _ _ given) as [out w] eqn:Ea. simpl in E. subst out.
      by exists messages, raised, w.
Qed.

Lemma handle_all_ok a s now ars :
  valid (st_settings a) → server_ok a s now →
  Forall (λ ar, sp_http (ar_scope ar) = true) ars → nondecreasing now (ar_now <$> ars) →
  server_ok a (handle_all s ars) (default now (last (ar_now <$> ars))).
Proof.
  intros Hv. revert s now. induction ars as [|ar ars IH]; intros s now Hs Hh Ht; [done|].
  apply Forall_cons in Hh as [Hh Hhs]. destruct Ht as [Hle Ht].
  pose proof (handle_ok a s ar now Hv Hs Hh Hle) as H. unfold Server.handle_all. simpl.
  destruct (handle s ar) as [r s']. destruct H as [H _].
  specialize (IH s' (ar_now ar) H Hhs Ht). unfold Server.handle_all in IH. simpl in IH |- *.
  destruct ars as [|ar' ars]; [done|]. rewrite !fmap_cons !last_cons_cons in IH |- *.
  destruct (last_is_Some (ar_now ar' :: (ar_now <$> ars))) as [_ [t Ht']]; [done|]. by rewrite Ht' in IH |- *.
Qed.

Lemma startup_keeps {Schema} (exec : string → Schema → option Schema) reachable dir a0 d r a d' :
  startup exec reachable dir a0 d = (r, a, d') →
  st_settings a = st_settings a0 ∧ st_middleware a = st_middleware a0.
Proof.
  unfold startup. destruct (start _ _ _ _ _) as [[[b|e] db] d1]; [|by intros [= _ <- _]].
  destruct (choose_memory _) as [m owned]. by intros [= _ <- _].
Qed.

(** Construction and start-up give a server that is ready to serve. *)
Lemma booted_ok {Schema} (exec : string → Schema → option Schema) similarity t0 s s' inj db a0
    reachable dir d r a d' w :
  validate_Settings s = Ok s' → create_app similarity t0 s' inj db = Ok a0 →
  startup exec reachable dir a0 d = (r, a, d') → index_ok (px_world w) →
  valid (st_settings a) ∧ st_settings a = s' ∧ server_ok a (MkServer a (st_middleware a) w) t0.
Proof.
  intros [-> Hv]%validate_Settings_valid Hc [E1 E2]%startup_keeps Hi. revert Hc. unfold create_app.
  destruct (make_breaker (resilience s)) as [b|]; [|done]. simpl.
  pose proof (v_limiter _ Hv) as Hlim. destruct_and! Hlim.
  destruct (make_limiter_ok t0 (rate_limit s)) as (rl & -> & Hrl & Hclock); [done..|]. simpl.
  destruct (make_engine _ _ _) as [e|]; [|done]. intros [= <-]. simpl in *. rewrite E1 E2.
  split; [done|]. split; [done|]. split; simpl; [done| |by rewrite E1|done].
  intros rl' [= <-]. by split.
Qed.

End serving.

(** ** A concrete server *)

#[local] Existing Instances sample_host sample_postgres sample_laws sample_uuids sample_search.
#[local] Existing Instances sample_sessions.

Definition sample_payload : json :=
  JObj [("model", JStr "m"); ("messages", JList [JObj (chat_message "user" "hi")]);
        ("conversation_id", JStr (unary_str 4))].

#[local] Instance server_checks : UrlChecks :=
  {| bracketed_host_ok := λ _, true; normal_form_ok := λ _, true |}.

#[local] Instance server_utf8 : Utf8 := {|
  utf8_decode := id;
  json_loads_bytes s := if bool_decide (s = "answer") then Some sample_answer
                        else if bool_decide (s = "ask") then Some sample_payload else None;
|}.

#[local] Instance server_json_laws : JsonLaws.
Proof.
  split; [done|]. intros s v. simpl. repeat case_bool_decide; intros [= <-]; cbn;
    unfold dwf; split_and!; done || by apply (bool_decide_unpack _).
Qed.

Definition body_render (r : Response) : headers * list string :=
  (rs_headers r, match rs_body r with Bytes s => [s] | Document _ => ["document"] | Streamed l _ => l end).

Definition sample_handle : Server → arrival → run_result * Server :=
  handle good_server (answering "answer") body_render id (λ _ _, None) (λ _, JNull)
    (document 404 JNull) [].

Definition arriving (path : string) (hs : headers) (input : list received) (now : Q) : arrival :=
  MkArrival (MkScope true "POST" path hs (Some "10.0.0.1")) input "fresh" now 0 true true true 10.

(** A question in two parts, and one that declares too much. *)
Definition asking : arrival :=
  arriving "/v1/chat/completions" [] [RequestPart "a" true; RequestPart "sk" false] 1.
Definition oversized : arrival :=
  arriving "/v1/chat/completions" [("content-length", "99999999")] [RequestPart "ask" false] 2.

Definition booted : option AppState :=
  match sample_app nothing_injected with
  | Some a => match startup log_exec true scripts a (MkMigrated [] []) with
              | (Ok _, a, _) => Some a
              | _ => None
              end
  | None => None
  end.

Definition transcript (s : Server) : list json :=
  m_content <$> rows_of (me_db (w_mem (px_world (sr_proxy s)))) (unary_str 4).

