(* ===== verification/Registry.v ===== *)
(** * The registered metrics

    The collectors that [observability/metrics.py] registers, and what the rest of
    the program does to them: every use is one of the events below. *)

From stdpp Require Import list functions.
From Stdlib Require Import QArith Lqa.
From S2P Require Import Prelude PyDict PyString Json Resilience Metrics.
Local Open Scope Z_scope.

(** ** The collectors *)

Definition HTTP_REQUESTS_TOTAL : Counter :=
  Counter_init "context_proxy_http_requests_total" "Total HTTP requests handled." ["method"; "route"; "status"].

Definition HTTP_REQUEST_DURATION : Histogram :=
  Histogram_init "context_proxy_http_request_duration_seconds" "End-to-end request latency." ["route"] DEFAULT_BUCKETS.

Definition UPSTREAM_DURATION : Histogram :=
  Histogram_init "context_proxy_upstream_duration_seconds" "Upstream inference call latency (headers received)."
    ["route"] [1 # 2; 1; 2; 5; 10; 20; 30; 60; 120; 300]%Q.

Definition LLM_TOKENS_TOTAL : Counter :=
  Counter_init "context_proxy_llm_tokens_total" "Token accounting reported by the upstream provider." ["direction"].

Definition DEGRADATIONS_TOTAL : Counter :=
  Counter_init "context_proxy_degradations_total"
    "Degraded operations that continued without a derived service." ["component"].

Definition RATE_LIMIT_REJECTS_TOTAL : Counter :=
  Counter_init "context_proxy_rate_limit_rejects_total" "Requests rejected by the local rate limiter." [].

Definition RATE_LIMIT_EVICTED_TOTAL : Counter :=
  Counter_init "context_proxy_rate_limit_identities_evicted_total"
    "Rate-limiter identity buckets removed by TTL expiry or capacity eviction (bounded-memory contract)." [].

Definition ASSISTANT_CAPTURE_OVERFLOW_TOTAL : Counter :=
  Counter_init "context_proxy_assistant_capture_overflow_total"
    "Streaming responses whose assistant capture was disabled after exceeding the configured size bound (passthrough unaffected)." [].

Definition HTTP_STREAMS_ABORTED_TOTAL : Counter :=
  Counter_init "context_proxy_http_streams_aborted_total"
    "Responses that started streaming but aborted before completion." [].

Definition CLIENT_DISCONNECTS_TOTAL : Counter :=
  Counter_init "context_proxy_client_disconnects_total" "Requests abandoned by the client before completion." [].

Definition CIRCUIT_STATE : Gauge :=
  Counter_init "context_proxy_circuit_state" "Circuit-breaker state (1 = current state)." ["state"].

(** ** The module's globals *)

Inductive counter_name : Type :=
| HttpRequests | LlmTokens | Degradations | RateLimitRejects | RateLimitEvicted
| CaptureOverflow | StreamsAborted | ClientDisconnects.

Inductive histogram_name : Type := RequestDuration | UpstreamDuration.

#[export] Instance counter_name_eq_dec : EqDecision counter_name.
Proof. solve_decision. Defined.
#[export] Instance histogram_name_eq_dec : EqDecision histogram_name.
Proof. solve_decision. Defined.

Record Instruments : Type := MkInstruments {
  counters : counter_name → Counter;
  histograms : histogram_name → Histogram;
  circuit : Gauge;
}.

Definition registered : Instruments := {|
  counters n := match n with
    | HttpRequests => HTTP_REQUESTS_TOTAL
    | LlmTokens => LLM_TOKENS_TOTAL
    | Degradations => DEGRADATIONS_TOTAL
    | RateLimitRejects => RATE_LIMIT_REJECTS_TOTAL
    | RateLimitEvicted => RATE_LIMIT_EVICTED_TOTAL
    | CaptureOverflow => ASSISTANT_CAPTURE_OVERFLOW_TOTAL
    | StreamsAborted => HTTP_STREAMS_ABORTED_TOTAL
    | ClientDisconnects => CLIENT_DISCONNECTS_TOTAL
    end;
  histograms n := match n with RequestDuration => HTTP_REQUEST_DURATION | UpstreamDuration => UPSTREAM_DURATION end;
  circuit := CIRCUIT_STATE;
|}.

(** In the order of registration. *)
Definition REGISTRY (i : Instruments) : list Collector :=
  [CCounter (counters i HttpRequests); CHistogram (histograms i RequestDuration);
   CHistogram (histograms i UpstreamDuration); CCounter (counters i LlmTokens); CCounter (counters i Degradations);
   CCounter (counters i RateLimitRejects); CCounter (counters i RateLimitEvicted);
   CCounter (counters i CaptureOverflow); CCounter (counters i StreamsAborted);
   CCounter (counters i ClientDisconnects); CGauge (circuit i)].

(** ** Events *)

(** One call on a collector; a counter without labels is called directly. *)
Inductive effect : Type :=
| Inc (n : counter_name) (labels : list (string * string)) (amount : Q)
| IncTotal (n : counter_name) (amount : Q)
| Observe (n : histogram_name) (labels : list (string * string)) (value : Q)
| SetState (state : string).

Definition apply_effect (i : Instruments) (e : effect) : res Instruments :=
  match e with
  | Inc n labels amount =>
      c ← inc_labelled labels amount (counters i n);
      Ok (MkInstruments (<[n := c]> (counters i)) (histograms i) (circuit i))
  | IncTotal n amount =>
      c ← Counter_inc None amount (counters i n);
      Ok (MkInstruments (<[n := c]> (counters i)) (histograms i) (circuit i))
  | Observe n labels value =>
      h ← observe_labelled labels value (histograms i n);
      Ok (MkInstruments (counters i) (<[n := h]> (histograms i)) (circuit i))
  | SetState state => Ok (MkInstruments (counters i) (histograms i) (set_circuit_state state (circuit i)))
  end.

(** What happens in the program. *)
Inductive event : Type :=
| RequestFinished (method route : string) (status : Z) (duration : Q)
| RequestRejected
| IdentitiesEvicted (n : Z)
| CaptureOverflowed
| StreamAborted
| ClientLeft
| TokensReported (usage : json)
| BreakerRefused
| UpstreamAnswered (route : string) (seconds : Q)
| BreakerMoved (state : CircuitState).

Definition token_effects (usage : obj) (field direction : string) : list effect :=
  match number_of (oget usage field) with
  | Some n => [Inc LlmTokens [("direction", direction)] n]
  | None => []
  end.

Section events.
Context {host : Host}.

Definition effects_of (e : event) : list effect :=
  match e with
  | RequestFinished method route status duration =>
      [Inc HttpRequests [("method", method); ("route", route); ("status", py_str (JInt status))] 1;
       Observe RequestDuration [("route", route)] duration]
  | RequestRejected => [IncTotal RateLimitRejects 1]
  | IdentitiesEvicted n => [IncTotal RateLimitEvicted (inject_Z n)]
  | CaptureOverflowed => [IncTotal CaptureOverflow 1]
  | StreamAborted => [IncTotal StreamsAborted 1]
  | ClientLeft => [IncTotal ClientDisconnects 1]
  | TokensReported (JObj usage) =>
      token_effects usage "prompt_tokens" "prompt" ++ token_effects usage "completion_tokens" "completion"
  | TokensReported _ => []
  | BreakerRefused => [Inc Degradations [("component", "upstream_breaker_open")] 1]
  | UpstreamAnswered route seconds => [Observe UpstreamDuration [("route", route)] seconds]
  | BreakerMoved state => [SetState (state_name state)]
  end.

Definition all_effects (es : list event) : list effect := concat (effects_of <$> es).

Definition record_events (es : list event) (i : Instruments) : res Instruments :=
  foldM apply_effect i (all_effects es).
End events.

(** ** They count right *)

Section truth.
Context {host : Host}.

(** The amounts added to a series of a counter, and the observations of a
    histogram. *)
Definition amounts (n : counter_name) (key : series) (l : list effect) : list Q :=
  omap (λ e, match e with
             | Inc n' labels amount =>
                 if bool_decide (n' = n ∧ series_key (ct_labelnames (counters registered n)) labels = key)
                 then Some amount else None
             | IncTotal n' amount => if bool_decide (n' = n ∧ key = []) then Some amount else None
             | _ => None
             end) l.

Definition observed (n : histogram_name) (l : list effect) : observations :=
  omap (λ e, match e with
             | Observe n' labels value => if bool_decide (n' = n) then Some (labels, value) else None
             | _ => None
             end) l.

Definition last_state (l : list effect) : option string :=
  last (omap (λ e, match e with SetState s => Some s | _ => None end) l).

(** Counters without labels are those called directly. *)
Definition well_used (e : effect) : Prop :=
  match e with
  | IncTotal n _ => ct_labelnames (counters registered n) = []
  | _ => True
  end.

(** The value of a series: there is none before the first amount. *)
Definition sums_up (qs : list Q) : option Q := match qs with [] => None | _ => Some (foldl Qplus 0%Q qs) end.

Record truthful (l : list effect) (i : Instruments) : Prop := {
  tr_names : ∀ n, ct_labelnames (counters i n) = ct_labelnames (counters registered n);
  tr_counters : ∀ n key, dget (ct_values (counters i n)) key = sums_up (amounts n key l);
  tr_state : ct_labelnames (circuit i) = ["state"];
  tr_histograms : ∀ n, counts_ok (observed n l) (histograms registered n) (histograms i n);
  tr_circuit : ∀ s, s ∈ CIRCUIT_STATES → dget (ct_values (circuit i)) [s] =
    (λ now, if bool_decide (s = now) then 1%Q else 0%Q) <$> last_state l;
}.

(** *** One counter *)

Lemma counter_step c key q :
  let c' := set_values (dset (ct_values c) key (default 0%Q (dget (ct_values c) key) + q)%Q) c in
  ct_labelnames c' = ct_labelnames c ∧
  ∀ key', dget (ct_values c') key' =
    if decide (key = key') then Some (default 0%Q (dget (ct_values c) key') + q)%Q else dget (ct_values c) key'.
Proof.
  split; [done|]. intros key'. simpl. case_decide as E; [subst; by rewrite dget_dset_eq|by rewrite dget_dset_ne].
Qed.

Lemma inc_labelled_eq labels q c :
  let key := series_key (ct_labelnames c) labels in
  inc_labelled labels q c
  = Ok (set_values (dset (ct_values c) key (default 0%Q (dget (ct_values c) key) + q)%Q) c).
Proof.
  intros key. unfold inc_labelled, Counter_labels, Counter_inc. fold key. simpl. rewrite dset_dsetdefault.
  assert (default 0%Q (dget (dsetdefault (ct_values c) key 0%Q) key) = default 0%Q (dget (ct_values c) key)) as ->; [|done].
  unfold dsetdefault. destruct (dget (ct_values c) key) eqn:E; [by rewrite E|by rewrite dget_dset_eq].
Qed.

Lemma inc_total_eq q c :
  ct_labelnames c = [] →
  Counter_inc None q c = Ok (set_values (dset (ct_values c) [] (default 0%Q (dget (ct_values c) []) + q)%Q) c).
Proof. intros E. unfold Counter_inc. by rewrite E. Qed.

Lemma sums_up_snoc qs q : sums_up (qs ++ [q]) = Some (default 0%Q (sums_up qs) + q)%Q.
Proof. unfold sums_up. rewrite foldl_app. destruct qs; simpl; done. Qed.

(** *** The circuit *)

Lemma set_circuit_spec state g :
  ct_labelnames g = ["state"] →
  ct_labelnames (set_circuit_state state g) = ["state"] ∧
  ∀ s, s ∈ CIRCUIT_STATES →
    dget (ct_values (set_circuit_state state g)) [s] = Some (if bool_decide (s = state) then 1%Q else 0%Q).
Proof.
  intros Hn. unfold set_circuit_state, CIRCUIT_STATES. cbn [foldl].
  assert (∀ known v g, ct_labelnames g = ["state"] → _sanitize_label known = known →
    ct_labelnames (set_labelled [("state", known)] v g) = ["state"] ∧
    ∀ k, dget (ct_values (set_labelled [("state", known)] v g)) k
         = if decide ([known] = k) then Some v else dget (ct_values g) k) as Hset.
  { clear. intros known v g Hn Hk. unfold set_labelled, Counter_labels, Gauge_set. rewrite Hn. simpl.
    rewrite Hk dset_dsetdefault. split; [done|]. intros k.
    case_decide as E; [subst; by rewrite dget_dset_eq|by rewrite dget_dset_ne]. }
  set (g1 := set_labelled _ _ g). destruct (Hset "closed" (if bool_decide ("closed" = state) then 1%Q else 0%Q) g) as [N1 D1]; [done..|].
  fold g1 in N1, D1. set (g2 := set_labelled _ _ g1).
  destruct (Hset "open" (if bool_decide ("open" = state) then 1%Q else 0%Q) g1) as [N2 D2]; [done..|].
  fold g2 in N2, D2. set (g3 := set_labelled _ _ g2).
  destruct (Hset "half_open" (if bool_decide ("half_open" = state) then 1%Q else 0%Q) g2) as [N3 D3]; [done..|].
  fold g3 in N3, D3. split; [done|]. intros s. rewrite !elem_of_cons elem_of_nil.
  intros [->|[->|[->|[]]]]; by rewrite D3 ?D2 ?D1.
Qed.

(** *** One effect *)

Lemma truthful_counter l i n c qs key :
  truthful l i → ct_labelnames c = ct_labelnames (counters i n) →
  (∀ key', dget (ct_values c) key' =
    if decide (key = key') then Some (default 0%Q (dget (ct_values (counters i n)) key') + qs)%Q
    else dget (ct_values (counters i n)) key') →
  ∀ e, (∀ n' key', amounts n' key' [e] = if bool_decide (n = n' ∧ key = key') then [qs] else []) →
  (∀ n', observed n' [e] = []) → last_state [e] = None →
  truthful (l ++ [e]) (MkInstruments (<[n := c]> (counters i)) (histograms i) (circuit i)).
Proof.
  intros [Hn Hc Hs Hh Hst] En Ev e Ha Ho Hl. split; simpl.
  - intros n'. destruct (decide (n = n')) as [<-|Hne]; [by rewrite fn_lookup_insert En|by rewrite fn_lookup_insert_ne].
  - intros n' key'. unfold amounts. rewrite omap_app. fold (amounts n' key' l) (amounts n' key' [e]). rewrite Ha.
    destruct (decide (n = n')) as [<-|Hne].
    + rewrite fn_lookup_insert Ev Hc. case_decide as Ek.
      * rewrite bool_decide_eq_true_2 //. by rewrite sums_up_snoc.
      * rewrite bool_decide_eq_false_2; [naive_solver|]. by rewrite app_nil_r.
    + rewrite fn_lookup_insert_ne // Hc bool_decide_eq_false_2; [naive_solver|]. by rewrite app_nil_r.
  - done.
  - intros n'. unfold observed. rewrite omap_app. fold (observed n' l) (observed n' [e]). rewrite Ho app_nil_r. apply Hh.
  - intros s Hin. rewrite Hst //. unfold last_state in *. rewrite omap_app.
    destruct (omap _ [e]) as [|x xs]; [by rewrite app_nil_r|]. exfalso.
    destruct (last_is_Some (x :: xs)) as [_ [y Hy]]; [done|]. congruence.
Qed.

Lemma last_state_snoc l e :
  last_state (l ++ [e]) = match e with SetState s => Some s | _ => last_state l end.
Proof. unfold last_state. rewrite omap_app. destruct e; rewrite /= ?app_nil_r ?last_snoc //. Qed.

Lemma effect_truthful l i e :
  truthful l i → well_used e → ∃ i', apply_effect i e = Ok i' ∧ truthful (l ++ [e]) i'.
Proof.
  intros Hi Hw. destruct e as [n labels q|n q|n labels v|state]; cbn [apply_effect].
  - rewrite inc_labelled_eq. eexists. split; [reflexivity|].
    apply (truthful_counter l i n _ q (series_key (ct_labelnames (counters i n)) labels)); [done| |apply counter_step| |done|done].
    { done. }
    intros n' key'. rewrite (tr_names _ _ Hi). unfold amounts. simpl.
    case_bool_decide as E; case_bool_decide as E'; try done; [destruct E as [<- <-]|destruct E' as [<- <-]]; by exfalso; apply E' || by exfalso; apply E.
  - simpl in Hw. rewrite inc_total_eq; [by rewrite (tr_names _ _ Hi)|]. eexists. split; [reflexivity|].
    apply (truthful_counter l i n _ q []); [done|done|apply counter_step| |done|done].
    intros n' key'. unfold amounts. simpl.
    case_bool_decide as E; case_bool_decide as E'; try done; naive_solver.
  - destruct Hi as [Hn Hc Hs Hh Hst]. destruct (observe_step _ _ _ (labels, v) (Hh n)) as (h & E & Hh').
    cbn [fst snd] in E. rewrite E.
    eexists. split; [reflexivity|]. split; simpl; [done| |done| |].
    + intros n' key. rewrite Hc. unfold amounts. by rewrite omap_app /= app_nil_r.
    + intros n'. unfold observed. rewrite omap_app. fold (observed n' l). simpl.
      destruct (decide (n = n')) as [<-|Hne].
      * by rewrite fn_lookup_insert bool_decide_eq_true_2.
      * by rewrite fn_lookup_insert_ne // bool_decide_eq_false_2 // app_nil_r.
    + intros s Hin. by rewrite last_state_snoc Hst.
  - destruct Hi as [Hn Hc Hs Hh Hst]. eexists. split; [reflexivity|].
    destruct (set_circuit_spec state (circuit i) Hs) as [Hs' Hg]. split; simpl; [done| |done| |].
    + intros n' key. rewrite Hc. unfold amounts. by rewrite omap_app /= app_nil_r.
    + intros n'. unfold observed. rewrite omap_app /= app_nil_r. apply Hh.
    + intros s Hin. by rewrite last_state_snoc Hg.
Qed.

Lemma registered_truthful : truthful [] registered.
Proof.
  split; [done|by intros [] key|done| |done]. intros n. split; [done..|]. by intros key; destruct n.
Qed.

Lemma effects_well_used e : Forall well_used (effects_of e).
Proof.
  destruct e as [| | | | | |[| | | | | |usage]| | |]; simpl; try (by repeat constructor).
  unfold token_effects. destruct (number_of _), (number_of _); by repeat constructor.
Qed.

Lemma effects_record l0 i0 l :
  truthful l0 i0 → Forall well_used l →
  ∃ i, foldM apply_effect i0 l = Ok i ∧ truthful (l0 ++ l) i.
Proof.
  intros H0 Hw. revert l0 i0 H0. induction Hw as [|e l He _ IH]; intros l0 i0 H0.
  - exists i0. by rewrite app_nil_r.
  - destruct (effect_truthful _ _ _ H0 He) as (i1 & E & H1). destruct (IH _ _ H1) as (i & Ei & Hi).
    exists i. simpl. rewrite E /=. split; [done|]. by rewrite -app_assoc in Hi.
Qed.

End truth.

(** ** A sample *)

#[local] Existing Instance sample_host.

Definition sample_events : list event :=
  [RequestFinished "GET" "/v1/models" 200 (1 # 10); RequestFinished "POST" "/v1/chat/completions" 200 2;
   RequestRejected; RequestFinished "GET" "/v1/models" 200 (3 # 10); IdentitiesEvicted 3; RequestRejected;
   TokensReported (JObj [("prompt_tokens", JInt 7)]); BreakerMoved OPEN; BreakerRefused; BreakerMoved HALF_OPEN].

Example sample_exposition :
  (λ i, (dget (ct_values (counters i HttpRequests)) ["GET"; "/v1/models"; "200"],
         dget (ct_values (counters i RateLimitRejects)) [],
         dget (ct_values (counters i RateLimitEvicted)) [],
         dget (ct_values (counters i LlmTokens)) ["prompt"],
         dget (ct_values (circuit i)) ["half_open"], dget (ct_values (circuit i)) ["open"]))
    <$> record_events sample_events registered
  = Ok (Some 2%Q, Some 2%Q, Some 3%Q, Some 7%Q, Some 1%Q, Some 0%Q).
Proof. vm_compute. reflexivity. Qed.
