(* ===== verification/Steps.v ===== *)
(** * Programs of atomic steps, and their interleavings

    The event loop runs one coroutine at a time, from one [await] to the next.  A
    handler is then a tree of atomic steps on the shared state: this file has such
    programs as a monad, their run without interference, the relation that
    interleaves any number of them with timeouts and cancellations, and the
    reasoning principle for it, a weakest precondition in rely-guarantee style. *)

From stdpp Require Import relations list.
From S2P Require Import Prelude.

Section steps.
Context {W : Type}.

(** ** Programs *)

(** A program ends, makes a step, or makes a step under a timeout: when time is up
    it goes on as [late], whether or not the step was made. *)
Inductive prog (A : Type) : Type :=
| Done (a : A)
| Act {X : Type} (act : W → X * W) (k : X → prog A)
| Within {X : Type} (act : W → X * W) (k : X → prog A) (late : prog A).
Arguments Done {A}.
Arguments Act {A X}.
Arguments Within {A X}.

Fixpoint pbind {A B} (p : prog A) (f : A → prog B) : prog B :=
  match p with
  | Done a => f a
  | Act act k => Act act (λ x, pbind (k x) f)
  | Within act k late => Within act (λ x, pbind (k x) f) (pbind late f)
  end.

(** [asyncio.wait_for]: every step of [p] is under the timeout. *)
Fixpoint with_timeout {A} (p late : prog A) : prog A :=
  match p with
  | Done a => Done a
  | Act act k => Within act (λ x, with_timeout (k x) late) late
  | Within act k inner => Within act (λ x, with_timeout (k x) late) (with_timeout inner late)
  end.

(** Alone and in time. *)
Fixpoint run {A} (p : prog A) (w : W) : A * W :=
  match p with
  | Done a => (a, w)
  | Act act k | Within act k _ => let '(x, w) := act w in run (k x) w
  end.

Lemma run_bind {A B} (p : prog A) (f : A → prog B) w :
  run (pbind p f) w = let '(a, w) := run p w in run (f a) w.
Proof.
  revert w. induction p as [a|X act k IH|X act k IH late _]; intros w; simpl; [done|..];
    destruct (act w); apply IH.
Qed.

Lemma run_timeout {A} (p late : prog A) w : run (with_timeout p late) w = run p w.
Proof.
  revert w. induction p as [a|X act k IH|X act k IH inner _]; intros w; simpl; [done|..];
    destruct (act w); apply IH.
Qed.

(** ** Exceptions *)

(** A program whose result may be an exception. *)
Definition pio (A : Type) : Type := prog (res A).

#[global] Instance prog_ret : MRet pio := λ A a, Done (Ok a).
#[global] Instance prog_bind : MBind pio := λ A B f p,
  pbind p (λ r, match r with Ok a => f a | Err e => Done (Err e) end).

(** One step of the shared state, a result as it is, and [try]. *)
Definition atomic {A} (m : W → res A * W) : pio A := Act m Done.
Definition lift {A} (r : res A) : pio A := Done r.
Definition catch {A} (p : pio A) : pio (res A) := pbind p (λ r, Done (Ok r)).

Fixpoint pio_fold {A S} (body : S → A → pio S) (s : S) (l : list A) : pio S :=
  match l with
  | [] => mret s
  | x :: l' => s' ← body s x; pio_fold body s' l'
  end.

(** ** Interleaving *)

(** The processes at work, each with a tag; [None] has been cancelled. *)
Context {T A : Type}.
Definition procs : Type := list (T * option (prog A)).

(** Cancelling what has ended does nothing. *)
Definition unfinished (p : prog A) : bool := match p with Done _ => false | _ => true end.

(** [joins t p]: a process that may come in. *)
Inductive step (joins : T → prog A → Prop) : W * procs → W * procs → Prop :=
| StepAct w w' ps i t {X} (act : W → X * W) k x :
    ps !! i = Some (t, Some (Act act k)) → act w = (x, w') →
    step joins (w, ps) (w', <[i := (t, Some (k x))]> ps)
| StepWithin w w' ps i t {X} (act : W → X * W) k late x :
    ps !! i = Some (t, Some (Within act k late)) → act w = (x, w') →
    step joins (w, ps) (w', <[i := (t, Some (k x))]> ps)
| StepLate w ps i t {X} (act : W → X * W) k late :
    ps !! i = Some (t, Some (Within act k late)) →
    step joins (w, ps) (w, <[i := (t, Some late)]> ps)
| StepLateAfter w w' ps i t {X} (act : W → X * W) k late x :
    ps !! i = Some (t, Some (Within act k late)) → act w = (x, w') →
    step joins (w, ps) (w', <[i := (t, Some late)]> ps)
| StepCancel w ps i t p :
    ps !! i = Some (t, Some p) → unfinished p = true → step joins (w, ps) (w, <[i := (t, None)]> ps)
| StepJoins w ps t p :
    joins t p → step joins (w, ps) (w, ps ++ [(t, Some p)]).

(** An interleaving as a list of moves; one that is not possible does nothing. *)
Inductive move : Type := Go (i : nat) | Late (i : nat) | Cancel (i : nat).

Definition make_move (st : W * procs) (m : move) : W * procs :=
  let '(w, ps) := st in
  match m with
  | Go i =>
      match ps !! i with
      | Some (t, Some (Act act k)) | Some (t, Some (Within act k _)) =>
          let '(x, w') := act w in (w', <[i := (t, Some (k x))]> ps)
      | _ => st
      end
  | Late i =>
      match ps !! i with
      | Some (t, Some (Within _ _ late)) => (w, <[i := (t, Some late)]> ps)
      | _ => st
      end
  | Cancel i =>
      match ps !! i with
      | Some (t, Some p) => if unfinished p then (w, <[i := (t, None)]> ps) else st
      | _ => st
      end
  end.

Lemma moves_steps joins ms st : rtc (step joins) st (foldl make_move st ms).
Proof.
  revert st. induction ms as [|m ms IH]; intros [w ps]; [done|]. cbn [foldl].
  etrans; [|apply IH]. clear IH. unfold make_move.
  destruct m as [i|i|i]; (destruct (ps !! i) as [[t [p|]]|] eqn:Hi; [|try done|done]).
  - destruct p as [a|X act k|X act k late]; [done|..]; destruct (act w) eqn:E; apply rtc_once;
      by [eapply StepAct|eapply StepWithin].
  - destruct p as [a|X act k|X act k late]; [done|done|]. apply rtc_once. by eapply StepLate.
  - destruct (unfinished p) eqn:E; [|done]. apply rtc_once. by eapply StepCancel.
Qed.

(** A process alone reaches its result. *)
Lemma run_steps joins (p : prog A) w ps i t :
  ps !! i = Some (t, Some p) →
  let '(a, w') := run p w in rtc (step joins) (w, ps) (w', <[i := (t, Some (Done a))]> ps).
Proof.
  revert w ps. induction p as [a|X act k IH|X act k IH late _]; intros w ps Hi; simpl.
  - rewrite list_insert_id //.
  - destruct (act w) as [x w1] eqn:E. specialize (IH x w1 (<[i := (t, Some (k x))]> ps)).
    destruct (run (k x) w1) as [a w']. rewrite list_insert_insert_eq in IH.
    eapply rtc_l; [by eapply StepAct|]. apply IH. rewrite list_lookup_insert_eq //. by eapply lookup_lt_Some.
  - destruct (act w) as [x w1] eqn:E. specialize (IH x w1 (<[i := (t, Some (k x))]> ps)).
    destruct (run (k x) w1) as [a w']. rewrite list_insert_insert_eq in IH.
    eapply rtc_l; [by eapply StepWithin|]. apply IH. rewrite list_lookup_insert_eq //. by eapply lookup_lt_Some.
Qed.
End steps.
Arguments prog : clear implicits.
Arguments Done {W A}.
Arguments Act {W A X}.
Arguments Within {W A X}.
Arguments pio : clear implicits.
Arguments procs : clear implicits.

(** ** Reasoning *)

Section wp.
Context {W : Type}.
(** What always holds of the state, how any process may change it, and what a step of
    the process at hand does besides. *)
Context (inv : W → Prop) (rely guar : W → W → Prop) `{!PreOrder rely}.

(** One step, from any state that others may have left behind. *)
Definition step_ok {X} (act : W → X * W) (post : X → W → Prop) (w : W) : Prop :=
  ∀ w0, rely w w0 → inv w0 →
    let '(x, w1) := act w0 in inv w1 ∧ rely w0 w1 ∧ guar w0 w1 ∧ post x w1.

(** [p] can go on from [w], whatever the others do meanwhile, and ends in [Q]. *)
Fixpoint wp {A} (p : prog W A) (Q : A → W → Prop) (w : W) : Prop :=
  match p with
  | Done a => ∀ w0, rely w w0 → inv w0 → Q a w0
  | Act act k => step_ok act (λ x w1, wp (k x) Q w1) w
  | Within act k late => step_ok act (λ x w1, wp (k x) Q w1 ∧ wp late Q w1) w ∧ wp late Q w
  end.

Lemma step_ok_later {X} (act : W → X * W) post w w' : rely w w' → step_ok act post w → step_ok act post w'.
Proof. intros Hr H w0 Hr0. apply H. by etrans. Qed.

Lemma step_ok_mono {X} (act : W → X * W) (post post' : X → W → Prop) w :
  (∀ x w1, post x w1 → post' x w1) → step_ok act post w → step_ok act post' w.
Proof. intros Hp H w0 Hr Hi. specialize (H w0 Hr Hi). destruct (act w0). naive_solver. Qed.

(** Knowledge is stable. *)
Lemma wp_later {A} (p : prog W A) Q w w' : rely w w' → wp p Q w → wp p Q w'.
Proof.
  revert w w'. induction p as [a|X act k _|X act k _ late IH]; intros w w' Hr; simpl.
  - intros H w0 Hr0. apply H. by etrans.
  - by apply step_ok_later.
  - intros [H Hl]. split; [by eapply step_ok_later|by eapply IH].
Qed.

Lemma wp_mono {A} (p : prog W A) (Q Q' : A → W → Prop) w :
  (∀ a w', Q a w' → Q' a w') → wp p Q w → wp p Q' w.
Proof.
  intros HQ. revert w. induction p as [a|X act k IH|X act k IH late IHl]; intros w; simpl.
  - intros H w0 Hr Hi. by apply HQ, H.
  - apply step_ok_mono. intros x w1. apply IH.
  - intros [H Hl]. split; [|by apply IHl].
    eapply step_ok_mono; [|exact H]. intros x w1 [H1 H2]. split; [by apply IH|by apply IHl].
Qed.

(** What is shown from every later state holds now. *)
Lemma wp_intro {A} (p : prog W A) Q w : (∀ w0, rely w w0 → inv w0 → wp p Q w0) → wp p Q w.
Proof.
  revert w. induction p as [a|X act k _|X act k _ late IH]; intros w H; simpl in *.
  - intros w0 Hr Hi. by apply (H w0 Hr Hi).
  - intros w0 Hr Hi. by apply (H w0 Hr Hi).
  - split; [|apply IH; intros w0 Hr Hi; apply (H w0 Hr Hi)].
    intros w0 Hr Hi. by apply (proj1 (H w0 Hr Hi)).
Qed.

(** The result comes later. *)
Lemma wp_frame {A} (p : prog W A) Q w : wp p Q w → wp p (λ a w', rely w w' ∧ Q a w') w.
Proof.
  assert (∀ w1, rely w w1 → wp p Q w1 → wp p (λ a w', rely w w' ∧ Q a w') w1) as H; [|by apply H].
  induction p as [a|X act k IH|X act k IH late IHl]; intros w1 Hr; simpl in *.
  - intros H w0 Hr0 Hi. split; [by etrans|by apply H].
  - intros H w0 Hr0 Hi. specialize (H w0 Hr0 Hi). destruct (act w0) as [x w2]. destruct H as (? & ? & ? & ?).
    split_and!; [done..|]. apply IH; [do 2 (etrans; [|done]); done|done].
  - intros [H Hl]. split; [|by apply IHl]. intros w0 Hr0 Hi. specialize (H w0 Hr0 Hi).
    destruct (act w0) as [x w2]. destruct H as (? & ? & ? & ? & ?).
    assert (rely w w2) by (do 2 (etrans; [|done]); done). split_and!; [done..|by apply IH|by apply IHl].
Qed.

Lemma wp_bind {A B} (p : prog W A) (f : A → prog W B) Q w :
  wp p (λ a w', wp (f a) Q w') w → wp (pbind p f) Q w.
Proof.
  revert w. induction p as [a|X act k IH|X act k IH late IHl]; intros w; simpl.
  - apply wp_intro.
  - intros H w0 Hr Hi0. specialize (H w0 Hr Hi0). destruct (act w0) as [x w1].
    destruct H as (? & ? & ? & ?). split_and!; [done..|]. by apply IH.
  - intros [H Hl]. split; [|by apply IHl]. intros w0 Hr Hi0. specialize (H w0 Hr Hi0).
    destruct (act w0) as [x w1]. destruct H as (? & ? & ? & ? & ?). split_and!; [done..|by apply IH|by apply IHl].
Qed.

(** A timeout asks that the rest works from wherever the time is up. *)
Lemma wp_timeout {A} (p late : prog W A) Q w :
  wp p Q w → (∀ w', rely w w' → wp late Q w') → wp (with_timeout p late) Q w.
Proof.
  revert w. induction p as [a|X act k IH|X act k IH inner IHi]; intros w Hp Hl; simpl in *; [done|..].
  - split; [|by apply Hl]. intros w0 Hr Hi0. specialize (Hp w0 Hr Hi0). destruct (act w0) as [x w1].
    destruct Hp as (? & ? & ? & ?). assert (rely w w1) by (by etrans).
    split_and!; [done..| |by apply Hl]. apply IH; [done|]. intros w' ?. apply Hl. by etrans.
  - destruct Hp as [Hp Hin]. split; [|by apply IHi]. intros w0 Hr Hi0. specialize (Hp w0 Hr Hi0).
    destruct (act w0) as [x w1]. destruct Hp as (? & ? & ? & ? & ?). assert (rely w w1) by (by etrans).
    assert (∀ w', rely w1 w' → wp late Q w') as Hl' by (intros w' ?; apply Hl; by etrans).
    split_and!; [done..|by apply IH|by apply IHi].
Qed.

Lemma wp_done {A} (a : A) (Q : A → W → Prop) w : (∀ w', rely w w' → Q a w') → wp (Done a) Q w.
Proof. intros H w0 Hr _. by apply H. Qed.

(** *** Programs with exceptions *)

Lemma wp_atomic {A} (m : W → res A * W) (Q : res A → W → Prop) w :
  (∀ w0, rely w w0 → inv w0 → let '(r, w1) := m w0 in
     inv w1 ∧ rely w0 w1 ∧ guar w0 w1 ∧ ∀ w2, rely w1 w2 → Q r w2) →
  wp (atomic m) Q w.
Proof.
  intros H w0 Hr Hi. specialize (H w0 Hr Hi). destruct (m w0) as [r w1].
  destruct H as (? & ? & ? & HQ). split_and!; [done..|]. apply wp_done, HQ.
Qed.

Lemma wp_pio_bind {A B} (p : pio W A) (f : A → pio W B) Q w :
  wp p (λ r w', match r with Ok a => wp (f a) Q w' | Err e => ∀ w2, rely w' w2 → Q (Err e) w2 end) w →
  wp (p ≫= f) Q w.
Proof.
  intros Hp. apply wp_bind. eapply wp_mono; [|exact Hp].
  intros [a|e] w' H; [done|by apply wp_done].
Qed.

Lemma wp_catch {A} (p : pio W A) Q w :
  wp p (λ r w', ∀ w2, rely w' w2 → Q (Ok r) w2) w → wp (catch p) Q w.
Proof. intros Hp. apply wp_bind. eapply wp_mono; [|exact Hp]. intros r w' H. by apply wp_done. Qed.

(** *** Going on, whatever comes out *)

Definition goes {A} (p : prog W A) (w : W) : Prop := wp p (λ _ _, True) w.

Lemma goes_done {A} (a : A) w : goes (Done a) w.
Proof. by apply wp_done. Qed.

Lemma goes_pbind {A B} (p : prog W A) (f : A → prog W B) w :
  goes p w → (∀ a w', goes (f a) w') → goes (pbind p f) w.
Proof. intros Hp Hf. apply wp_bind. eapply wp_mono; [|exact Hp]. intros a w' _. apply Hf. Qed.

Lemma goes_bind {A B} (p : pio W A) (f : A → pio W B) w :
  goes p w → (∀ a w', rely w w' → goes (f a) w') → goes (p ≫= f) w.
Proof.
  intros Hp Hf. apply wp_pio_bind. eapply wp_mono; [|by apply wp_frame].
  intros [a|e] w' [Hr _]; [by apply Hf|done].
Qed.

(** What the rest is to end in, after a part of which only that it goes on matters. *)
Lemma wp_after {A B} (p : pio W A) (f : A → pio W B) Q w :
  goes p w → (∀ a w', rely w w' → wp (f a) Q w') → (∀ e w', rely w w' → Q (Err e) w') → wp (p ≫= f) Q w.
Proof.
  intros Hp Hf He. apply wp_pio_bind. eapply wp_mono; [|by apply wp_frame].
  intros [a|e] w' [Hr _]; [by apply Hf|]. intros w2 Hr2. apply He. by etrans.
Qed.

Lemma wp_goes {A} (p : prog W A) Q w : wp p Q w → goes p w.
Proof. by apply wp_mono. Qed.

(** What is known of the result helps the rest to go on. *)
Lemma goes_bind_wp {A B} (p : pio W A) (f : A → pio W B) w :
  wp p (λ r w', match r with Ok a => goes (f a) w' | Err _ => True end) w → goes (p ≫= f) w.
Proof. intros Hp. apply wp_pio_bind. eapply wp_mono; [|exact Hp]. by intros [a|e] w' H. Qed.

Lemma goes_catch {A} (p : pio W A) w : goes p w → goes (catch p) w.
Proof. intros Hp. apply wp_catch. by eapply wp_mono; [|exact Hp]. Qed.

(** A step that keeps the invariant and tells the rest what it has found. *)
Lemma goes_step {A B} (m : W → res A * W) (f : A → pio W B) w :
  (∀ w0, rely w w0 → inv w0 → let '(r, w1) := m w0 in
     inv w1 ∧ rely w0 w1 ∧ guar w0 w1 ∧ ∀ a, r = Ok a → goes (f a) w1) →
  goes (atomic m ≫= f) w.
Proof.
  intros H. apply wp_pio_bind, wp_atomic. intros w0 Hr Hi. specialize (H w0 Hr Hi).
  destruct (m w0) as [[a|e] w1]; destruct H as (? & ? & ? & Hf); split_and!; try done.
  intros w2 Hr2. eapply wp_later; [exact Hr2|by apply Hf].
Qed.

(** The same under [try], where the exception matters as well. *)
Lemma goes_try_step {A B} (m : W → res A * W) (f : res A → pio W B) w :
  (∀ w0, rely w w0 → inv w0 → let '(r, w1) := m w0 in
     inv w1 ∧ rely w0 w1 ∧ guar w0 w1 ∧ goes (f r) w1) →
  goes (catch (atomic m) ≫= f) w.
Proof.
  intros H. apply wp_pio_bind, wp_catch, wp_atomic. intros w0 Hr Hi. specialize (H w0 Hr Hi).
  destruct (m w0) as [r w1]. destruct H as (? & ? & ? & Hf). split_and!; [done..|].
  intros w2 Hr2 w3 Hr3. eapply wp_later; [|exact Hf]. by etrans.
Qed.

Lemma goes_atomic {A} (m : W → res A * W) w :
  (∀ w0, rely w w0 → inv w0 → let w1 := (m w0).2 in inv w1 ∧ rely w0 w1 ∧ guar w0 w1) → goes (atomic m) w.
Proof.
  intros H. apply wp_atomic. intros w0 Hr Hi. specialize (H w0 Hr Hi). destruct (m w0) as [r w1].
  destruct H as (? & ? & ?). by split_and!.
Qed.

Lemma goes_timeout {A} (p late : prog W A) w : goes p w → (∀ w', goes late w') → goes (with_timeout p late) w.
Proof. intros Hp Hl. apply wp_timeout; [done|]. intros w' _. apply Hl. Qed.

Lemma goes_fold {A S} (body : S → A → pio W S) s l w :
  (∀ s x w', x ∈ l → rely w w' → goes (body s x) w') → goes (pio_fold body s l) w.
Proof.
  assert (∀ k w1, k ⊆ l → rely w w1 → (∀ s x w', x ∈ l → rely w w' → goes (body s x) w') →
    goes (pio_fold body s k) w1) as H.
  { intros k. revert s. induction k as [|x k IH]; intros s w1 Hk Hr Hb; [apply goes_done|].
    apply goes_bind; [apply Hb; [apply Hk; left|done]|].
    intros s' w2 Hr2. apply IH; [set_solver|by etrans|done]. }
  intros Hb. apply H; [done|done|exact Hb].
Qed.
End wp.

(** ** Who is at work *)

Section tags.
Context {W T A : Type} (joins : T → prog W A → Prop).

Lemma insert_tag (ps : procs W T A) i t p q :
  ps !! i = Some (t, p) → (<[i := (t, q)]> ps).*1 = ps.*1.
Proof.
  intros H. rewrite list_fmap_insert. apply list_insert_id. by rewrite list_lookup_fmap H.
Qed.

Lemma lookup_tag (ps : procs W T A) i t p : ps !! i = Some (t, p) → t ∈ ps.*1.
Proof. intros H. apply list_elem_of_fmap. exists (t, p). split; [done|]. by eapply list_elem_of_lookup_2. Qed.

Lemma step_tags (P : T → Prop) st st' :
  (∀ t p, joins t p → P t) → step joins st st' → Forall P st.2.*1 → Forall P st'.2.*1.
Proof.
  intros Hj Hstep HP. destruct Hstep; simpl in *; try by erewrite insert_tag.
  rewrite fmap_app. apply Forall_app. split; [done|]. apply Forall_singleton. by eapply Hj.
Qed.

(** Processes stay, so those that came in are those at the end. *)
Lemma step_tags_stay (joins' : T → prog W A → Prop) st st' : step joins' st st' → st.2.*1 ⊆ st'.2.*1.
Proof. intros Hstep. destruct Hstep; simpl; try by erewrite insert_tag. rewrite fmap_app. set_solver. Qed.

Lemma steps_tags_stay (joins' : T → prog W A → Prop) st st' : rtc (step joins') st st' → st.2.*1 ⊆ st'.2.*1.
Proof. induction 1 as [st|st1 st2 st3 Hstep _ IH]; [done|]. etrans; [by eapply step_tags_stay|exact IH]. Qed.

Lemma steps_joined st st' :
  rtc (step joins) st st' → rtc (step (λ t p, joins t p ∧ t ∈ st'.2.*1)) st st'.
Proof.
  induction 1 as [st|st1 st2 st3 Hstep Hsteps IH]; [done|]. eapply rtc_l; [|exact IH].
  apply steps_tags_stay in Hsteps. destruct Hstep; try by (econstructor; eauto).
  apply StepJoins. split; [done|]. apply Hsteps. simpl. rewrite fmap_app. set_solver.
Qed.
End tags.

(** ** Systems *)

Section system.
Context {W T A : Type}.
Context (inv : W → Prop) (rely : W → W → Prop) (guar : T → W → W → Prop) `{!PreOrder rely}.
Context (joins : T → prog W A → Prop) (post : T → A → W → Prop).

(** The invariant holds, and every process can go on and ends as it should. *)
Definition sys_ok (st : W * procs W T A) : Prop :=
  inv st.1 ∧ ∀ i t p, st.2 !! i = Some (t, Some p) → wp inv rely (guar t) p (post t) st.1.

Lemma sys_ok_post st i t a : sys_ok st → st.2 !! i = Some (t, Some (Done a)) → post t a st.1.
Proof. intros [Hi Hps] H. exact (Hps _ _ _ H _ ltac:(reflexivity) Hi). Qed.

(** A step is one of the process with its tag, or leaves the state alone. *)
Definition footprint (ps : procs W T A) (w w' : W) : Prop :=
  w' = w ∨ ∃ t, t ∈ ps.*1 ∧ rely w w' ∧ guar t w w'.

(** Every step keeps the system fine, and changes the state by the guarantee of its
    process. *)
Lemma step_sys_ok st st' :
  (∀ t p w, joins t p → inv w → wp inv rely (guar t) p (post t) w) →
  step joins st st' → sys_ok st → sys_ok st' ∧ footprint st.2 st.1 st'.1.
Proof.
  intros Hj Hstep [Hi Hps].
  assert (Hmove : ∀ w (ps : procs W T A) i t p p' w',
    inv w' → rely w w' → ps !! i = Some (t, p) →
    (∀ q, p' = Some q → wp inv rely (guar t) q (post t) w') →
    (∀ i t p, ps !! i = Some (t, Some p) → wp inv rely (guar t) p (post t) w) →
    sys_ok (w', <[i := (t, p')]> ps)).
  { intros w ps i t p p' w' Hi' Hr Hit Hp' Hall. split; [done|]. simpl.
    intros j u q [(-> & [= <- ->] & _)|[_ Hj']]%list_lookup_insert_Some; [by apply Hp'|].
    eapply wp_later; [done|exact Hr|by eapply Hall]. }
  destruct Hstep as [w w' ps i t X act k x Hit E|w w' ps i t X act k late x Hit E|w ps i t X act k late Hit
    |w w' ps i t X act k late x Hit E|w ps i t p Hit _|w ps t p Hjoin]; simpl in *.
  - pose proof (Hps _ _ _ Hit w ltac:(reflexivity) Hi) as H. rewrite E in H. destruct H as (? & ? & ? & ?).
    split; [eapply Hmove; [done..| |done]; naive_solver|]. right. exists t. split; [by eapply lookup_tag|done].
  - destruct (Hps _ _ _ Hit) as [H _]. specialize (H w ltac:(reflexivity) Hi). rewrite E in H.
    destruct H as (? & ? & ? & ? & ?).
    split; [eapply Hmove; [done..| |done]; naive_solver|]. right. exists t. split; [by eapply lookup_tag|done].
  - destruct (Hps _ _ _ Hit) as [_ H]. split; [|by left].
    eapply Hmove; [done|reflexivity|done| |done]. by intros q [= <-].
  - destruct (Hps _ _ _ Hit) as [H _]. specialize (H w ltac:(reflexivity) Hi). rewrite E in H.
    destruct H as (? & ? & ? & ? & ?).
    split; [eapply Hmove; [done..| |done]; naive_solver|]. right. exists t. split; [by eapply lookup_tag|done].
  - split; [|by left]. eapply Hmove; [done|reflexivity|done| |done]. done.
  - split; [|by left]. split; [done|]. simpl.
    intros j u q [Hq|[_ Hq]]%lookup_app_Some; [by eapply Hps|].
    apply list_lookup_singleton_Some in Hq as [_ [= <- <-]]. by apply Hj.
Qed.

(** What holds of every step whose tag is allowed holds of every execution. *)
Lemma steps_sys_ok (P : T → Prop) (R : W → W → Prop) `{!PreOrder R} st st' :
  (∀ t p w, joins t p → inv w → wp inv rely (guar t) p (post t) w) →
  (∀ t p, joins t p → P t) → (∀ t w w', P t → rely w w' → guar t w w' → R w w') →
  rtc (step joins) st st' → sys_ok st → Forall P st.2.*1 → sys_ok st' ∧ R st.1 st'.1.
Proof.
  intros Hj Ht HR Hsteps. induction Hsteps as [st|st1 st2 st3 Hstep _ IH]; intros Hok HP; [by split|].
  destruct (step_sys_ok _ _ Hj Hstep Hok) as [Hok2 Hfoot].
  destruct IH as [Hok3 HR3]; [done|by eapply step_tags|]. split; [done|]. etrans; [|exact HR3].
  destruct Hfoot as [->|(t & Hin & Hr & Hg)]; [done|]. eapply HR; [|exact Hr|exact Hg].
  by eapply (proj1 (Forall_forall _ _)).
Qed.
End system.

(** ** Programs on a part of the state *)

Section zoom.
Context {W V : Type} (get : W → V) (put : V → W → W).
Context (get_put : ∀ v w, get (put v w) = v).

Definition zoomed {X} (act : V → X * V) : W → X * W := λ w,
  let '(x, v) := act (get w) in (x, put v w).

Fixpoint zoom {A} (p : prog V A) : prog W A :=
  match p with
  | Done a => Done a
  | Act act k => Act (zoomed act) (λ x, zoom (k x))
  | Within act k late => Within (zoomed act) (λ x, zoom (k x)) (zoom late)
  end.

Lemma run_zoom {A} (p : prog V A) w :
  (∀ w, put (get w) w = w) → (∀ v v' w, put v' (put v w) = put v' w) →
  run (zoom p) w = let '(a, v) := run p (get w) in (a, put v w).
Proof.
  intros put_get put_put. revert w. induction p as [a|X act k IH|X act k IH late _]; intros w; simpl.
  - by rewrite put_get.
  - unfold zoomed. destruct (act (get w)) as [x v]. rewrite IH get_put. destruct (run (k x) v). by rewrite put_put.
  - unfold zoomed. destruct (act (get w)) as [x v]. rewrite IH get_put. destruct (run (k x) v). by rewrite put_put.
Qed.

(** What holds of the part holds of the whole. *)
Context (invV : V → Prop) (relyV guarV : V → V → Prop) (inv : W → Prop) (rely guar : W → W → Prop).
Context (Hinv : ∀ w, inv w → invV (get w)) (Hrely : ∀ w w', rely w w' → relyV (get w) (get w')).
Context (Hput : ∀ v w, inv w → invV v → relyV (get w) v → guarV (get w) v →
  inv (put v w) ∧ rely w (put v w) ∧ guar w (put v w)).

Lemma step_ok_zoom {X} (act : V → X * V) post w :
  step_ok invV relyV guarV act post (get w) →
  step_ok inv rely guar (zoomed act) (λ x w1, post x (get w1)) w.
Proof.
  intros H w0 Hr Hi. specialize (H _ (Hrely _ _ Hr) (Hinv _ Hi)). unfold zoomed.
  destruct (act (get w0)) as [x v]. destruct H as (? & ? & ? & ?).
  rewrite get_put. destruct (Hput v w0) as (? & ? & ?); done.
Qed.

Lemma wp_zoom {A} (p : prog V A) Q w :
  wp invV relyV guarV p Q (get w) → wp inv rely guar (zoom p) (λ a w', Q a (get w')) w.
Proof.
  revert w. induction p as [a|X act k IH|X act k IH late IHl]; intros w H; simpl in *.
  - intros w0 Hr Hi. by apply H; [apply Hrely|apply Hinv].
  - apply step_ok_zoom in H. eapply step_ok_mono; [|exact H]. intros x w1. apply IH.
  - destruct H as [H Hl]. split; [|by apply IHl]. apply step_ok_zoom in H.
    eapply step_ok_mono; [|exact H]. intros x w1 [? ?]. split; [by apply IH|by apply IHl].
Qed.
End zoom.

(** ** A log of the results *)

Section log.
Context {W T A L : Type} (log : W → list L) (entry : T → A → list L).

(** The steps of [p] leave the log alone. *)
Fixpoint quiet {B} (p : prog W B) : Prop :=
  match p with
  | Done _ => True
  | Act act k => ∀ w, log (act w).2 = log w ∧ quiet (k (act w).1)
  | Within act k late => (∀ w, log (act w).2 = log w ∧ quiet (k (act w).1)) ∧ quiet late
  end.

Lemma quiet_bind {B C} (p : prog W B) (f : B → prog W C) : quiet p → (∀ b, quiet (f b)) → quiet (pbind p f).
Proof.
  intros Hp Hf. induction p as [b|X act k IH|X act k IH late IHl]; simpl in *; [apply Hf|..].
  - intros w. destruct (Hp w). auto.
  - destruct Hp as [Hp Hl]. split; [|by apply IHl]. intros w. destruct (Hp w). auto.
Qed.

(** So do those of [p] but for the last, which enters the result. *)
Fixpoint logs (t : T) (p : prog W A) : Prop :=
  let enters rest w w' := match rest with
    | Done a => log w' = log w ++ entry t a
    | _ => log w' = log w
    end in
  match p with
  | Done a => entry t a = []
  | Act act k => ∀ w, let '(x, w') := act w in
      enters (k x) w w' ∧ match k x with Done _ => True | _ => logs t (k x) end
  | Within act k late =>
      (∀ w, let '(x, w') := act w in
        log w' = log w ∧ logs t (k x)) ∧ logs t late
  end.

Definition contribution (tp : T * option (prog W A)) : list L :=
  match tp.2 with Some (Done a) => entry tp.1 a | _ => [] end.

Lemma logs_nil t (p : prog W A) : logs t p → contribution (t, Some p) = [].
Proof. by destruct p. Qed.

Lemma logs_enters t (p : prog W A) w w' :
  logs t p → log w' = log w → log w' = log w ++ contribution (t, Some p).
Proof. intros H E. by rewrite logs_nil // app_nil_r. Qed.

(** Every program enters its result by its own steps. *)
Lemma logs_act t {X} (act : W → X * W) k :
  logs t (Act act k) ↔ ∀ w, let '(x, w') := act w in
    log w' = log w ++ contribution (t, Some (k x)) ∧ (unfinished (k x) = true → logs t (k x)).
Proof.
  split; intros H w; specialize (H w); simpl in *; destruct (act w) as [x w'];
    destruct H as [H1 H2]; destruct (k x); rewrite ?app_nil_r in H1 |- *; naive_solver.
Qed.

Lemma logs_bind {B} t (p : prog W B) (f : B → prog W A) :
  quiet p → (∀ b, logs t (f b)) → logs t (pbind p f).
Proof.
  intros Hp Hf. induction p as [b|X act k IH|X act k IH late IHl]; [apply Hf|..].
  - apply (proj2 (logs_act t act (λ x, pbind (k x) f))). intros w. destruct (Hp w) as [E Hk].
    destruct (act w) as [x w']. split; [|by intros; apply IH]. by apply logs_enters; [apply IH|].
  - destruct Hp as [Hp Hl]. split; [|by apply IHl]. intros w. destruct (Hp w) as [E Hk].
    destruct (act w) as [x w']. split; [done|]. by apply IH.
Qed.

Lemma concat_contribution ps i old new :
  ps !! i = Some old → contribution old = [] →
  concat (contribution <$> <[i := new]> ps) ≡ₚ concat (contribution <$> ps) ++ contribution new.
Proof.
  intros Hi Ho. pose proof (lookup_lt_Some _ _ _ Hi) as Hl.
  rewrite insert_take_drop // -{3}(take_drop_middle _ _ _ Hi) !fmap_app !fmap_cons !concat_app /= Ho /=.
  solve_Permutation.
Qed.

(** The log has what it had, and the results of the processes that have ended. *)
Record log_ok (before : list L) (st : W * procs W T A) : Prop := {
  lk_log : log st.1 ≡ₚ before ++ concat (contribution <$> st.2);
  lk_logs : ∀ i t p, st.2 !! i = Some (t, Some p) → unfinished p = true → logs t p;
}.

Lemma log_ok_move before w ps i t p p' w' :
  log_ok before (w, ps) → ps !! i = Some (t, Some p) → unfinished p = true →
  log w' = log w ++ contribution (t, p') → (∀ q, p' = Some q → unfinished q = true → logs t q) →
  log_ok before (w', <[i := (t, p')]> ps).
Proof.
  intros [Hl Hps] Hi Hu E Hp'. simpl in *. split; simpl.
  - assert (contribution (t, Some p) = []) as Hnil by by destruct p.
    by rewrite E Hl (concat_contribution ps i (t, Some p)) // app_assoc.
  - intros j u q [(-> & [= <- ->] & _)|[_ Hj]]%list_lookup_insert_Some; [by apply Hp'|by eapply Hps].
Qed.

Lemma steps_logged (joins : T → prog W A → Prop) w w' ps :
  (∀ t p, joins t p → logs t p) → rtc (step joins) (w, []) (w', ps) →
  log w' ≡ₚ log w ++ concat (contribution <$> ps).
Proof.
  intros Hj Hsteps. assert (log_ok (log w) (w, [])) as Hok by (split; [by rewrite app_nil_r|done]).
  apply (lk_log (log w) (w', ps)). revert Hok. induction Hsteps as [st|st1 st2 st3 Hstep _ IH]; [done|].
  intros Hok. apply IH. clear IH. destruct Hstep as [w1 w2 l i t X act k x Hi E|w1 w2 l i t X act k late x Hi E
    |w1 l i t X act k late Hi|w1 w2 l i t X act k late x Hi E|w1 l i t p Hi Hu|w1 l t p Hjoin].
  - pose proof (lk_logs _ _ Hok _ _ _ Hi eq_refl) as H. rewrite logs_act in H. specialize (H w1). rewrite E in H.
    destruct H. eapply log_ok_move; [done..|]. by intros q [= <-].
  - destruct (lk_logs _ _ Hok _ _ _ Hi eq_refl) as [H _]. specialize (H w1). rewrite E in H. destruct H.
    eapply log_ok_move; [done..|by apply logs_enters|]. by intros q [= <-].
  - destruct (lk_logs _ _ Hok _ _ _ Hi eq_refl) as [_ H].
    eapply log_ok_move; [done..|by apply logs_enters|]. by intros q [= <-].
  - destruct (lk_logs _ _ Hok _ _ _ Hi eq_refl) as [H Hl]. specialize (H w1). rewrite E in H. destruct H.
    eapply log_ok_move; [done..|by apply logs_enters|]. by intros q [= <-].
  - eapply log_ok_move; [done..|by rewrite app_nil_r|done].
  - destruct Hok as [Hl Hps]. split; simpl in *.
    + apply Hj, logs_nil in Hjoin. rewrite Hl fmap_app concat_app.
      change (concat (contribution <$> [(t, Some p)])) with (contribution (t, Some p) ++ []).
      by rewrite Hjoin !app_nil_r.
    + intros i u q [Hq|[_ Hq]]%lookup_app_Some; [by eapply Hps|].
      apply list_lookup_singleton_Some in Hq as [_ [= <- <-]]. intros _. by apply Hj.
Qed.
End log.

(** ** Refinement *)

Section runs.
Context {W : Type}.

(** [p], run alone, is the computation [m]. *)
Definition runs {A} (p : pio W A) (m : W → res A * W) : Prop := ∀ w, run p w = m w.

Lemma runs_atomic {A} (m : W → res A * W) : runs (atomic m) m.
Proof. intros w. simpl. by destruct (m w). Qed.

Lemma runs_timeout {A} (p late : pio W A) m : runs p m → runs (with_timeout p late) m.
Proof. intros H w. by rewrite run_timeout. Qed.
End runs.
