(* ===== verification/Concurrency.v ===== *)
(** * Concurrent requests

    The handlers of [api/routes.py] and [api/routes_internal.py] as programs of
    atomic steps: a step is a transaction, a call of one of the clients, or pure code
    in between.  Run alone they are the functions of [Routes], [Retrieval] and
    [Internal]; interleaved they show what concurrent requests can do to each other,
    with the indexing timeout and cancelled requests. *)

From stdpp Require Import gmap relations.
From Stdlib Require Import QArith.
From S2P Require Import Prelude PyDict PyString Json Planner Reconciliation Candidates Mmr Engine Store Validation Memory Services Retrieval.
From S2P Require Import Capture Http Identity Provider Routes Internal Steps.
Local Open Scope Z_scope.

Section programs.
Context {host : Host} {pg : Postgres} {uu : Uuids} {si : SessionIds} {se : Search} {utf8 : Utf8}.
Context {S : Type} {llm : LLMProvider S}.
Context (server : nat → request → reply) (app : App).

Local Notation pio := (Steps.pio (Proxy S)).

Definition on_world_step {A} (m : io A) : pio A := atomic (on_world m).

(** ** Indexing *)

Section indexing.
Context (sv : MemoryService).

Definition index_chunk_steps (k : ChunkRow) (vector : option (list json)) : pio bool :=
  vector ← match vector with
           | None => on_world_step (_safe_embed server sv (ck_raw_content k))
           | Some v => mret (Some v)
           end;
  match vector with
  | None => mret false
  | Some v =>
      upserted ← on_world_step (expect_vector_store
        (_ ← upsert server [chunk_point k v] (Z.of_nat (length v)); mret true));
      if (upserted : bool) then (_ ← on_world_step (mark_indexed (ck_id k)); mret true) else mret false
  end.

Definition index_batch_steps (indexed : Z) (batch : list ChunkRow) : pio Z :=
  vectors ← on_world_step (_embed_batch server sv (ck_raw_content <$> batch));
  match vectors with
  | None => mret indexed
  | Some vectors =>
      pio_fold (λ (indexed : Z) (kv : ChunkRow * list json),
        done ← index_chunk_steps kv.1 (Some kv.2);
        mret (if (done : bool) then indexed + 1 else indexed)) indexed (zip batch vectors)
  end.

Definition index_pending_steps (conversation_id : string) : pio Z :=
  rows ← on_world_step (read_tables (λ st, pending_chunks st conversation_id));
  pio_fold index_batch_steps 0 (batches (sv_embed_batch_size sv) rows).

Definition index_turns_steps (now : Q) (conversation_id : string) : pio Z :=
  chunked ← on_world_step (on_tables (_chunk_new_turns now conversation_id));
  _ ← index_pending_steps conversation_id;
  mret chunked.1.

(** ** Memories and rebuilding *)

Definition embed_and_upsert_steps (point_id text : string) (payload : obj) : pio unit :=
  vector ← on_world_step (_safe_embed server sv text);
  match vector with
  | None => mret tt
  | Some v =>
      on_world_step (io_try (upsert server [MkPoint point_id v payload] (Z.of_nat (length v)))
        (λ e, match e with VectorStoreError => Some (mret tt) | _ => None end))
  end.

Definition create_steps (now : Q) (spec : MemoryCreate) : pio Z :=
  memory_id ← on_world_step (on_tables (create_memory now spec));
  _ ← embed_and_upsert_steps (uuid_str memory_id) (mc_content spec)
        (memory_payload (mc_conversation_id spec) (MemoryKind_value (mc_kind spec)) memory_id);
  mret memory_id.

Definition rebuild_batch_steps (s : rebuild_summary) (batch : list ChunkRow) : pio rebuild_summary :=
  vectors ← on_world_step (_embed_batch server sv (ck_raw_content <$> batch));
  match vectors with
  | None => mret (MkSummary (su_chunks s) (su_chunks_failed s + Z.of_nat (length batch))
                    (su_memories s) (su_memories_failed s))
  | Some vectors =>
      pio_fold (λ s (kv : ChunkRow * list json),
        ok ← index_chunk_steps kv.1 (Some kv.2); mret (count_chunk s ok)) s (zip batch vectors)
  end.

Definition rebuild_steps (conversation_id : option string) (force : bool) : pio rebuild_summary :=
  let scope := match conversation_id with Some EmptyString => None | c => c end in
  _ ← (if force
       then on_world_step (on_tables (λ st, (Ok tt, map_chunks
              (λ k, if in_scope scope (ck_conversation k) then set_indexed false k else k) st)))
       else mret tt);
  chunk_rows ← on_world_step (read_tables (rebuild_rows scope));
  memory_rows ← on_world_step (read_tables (rebuild_memories scope));
  s ← pio_fold rebuild_batch_steps (MkSummary 0 0 0 0) (batches (sv_embed_batch_size sv) chunk_rows);
  vectors ← on_world_step (_embed_batch server sv ((λ m, truncate sv (mr_content m)) <$> memory_rows));
  match vectors with
  | None => mret (MkSummary (su_chunks s) (su_chunks_failed s)
                    (Z.of_nat (length memory_rows)) (Z.of_nat (length memory_rows)))
  | Some vectors => pio_fold (λ s mv, on_world_step (rebuild_memory server s mv)) s (zip memory_rows vectors)
  end.

(** ** Retrieval *)

(** Two requests to the services, then up to four queries, each on the tables as
    they are by then. *)
Definition semantic_steps (query conversation_id : string) : pio (list (string * Q)) :=
  query_vec ← on_world_step (_safe_embed server sv query);
  match query_vec with
  | None => mret []
  | Some v => on_world_step (vector_scores server sv conversation_id v)
  end.

Definition lexical_steps (query conversation_id : string) : pio (list (string * Hit)) :=
  memories ← on_world_step (read_tables (memory_matches query conversation_id));
  chunks ← on_world_step (read_tables (chunk_matches query conversation_id));
  mret (slice_to (candidate_pool (sv_retrieval sv)) (py_sorted rank_geb (memories ++ chunks))).

Definition fetch_steps (conversation_id : string) (ids : list string) : pio (list (string * Hit)) :=
  match mapM uuid_parse ids with
  | None => mret []
  | Some uuids =>
      mem_rows ← on_world_step (read_tables (λ st,
        filter (λ m, (mr_conversation m = conversation_id ∧ mr_status m = ACTIVE) ∧ mr_id m ∈ uuids) (me_memories st)));
      chunk_rows ← on_world_step (read_tables (λ st,
        filter (λ k, ck_conversation k = conversation_id ∧ ck_id k ∈ uuids) (me_chunks st)));
      let out := foldl (λ out m, dset out (uuid_str (mr_id m)) (memory_hit m 0)) [] mem_rows in
      mret (foldl (λ out k, dset out (uuid_str (ck_id k)) (chunk_hit k 0)) out chunk_rows)
  end.

Definition candidates_steps (db_up : bool) (query conversation_id : string) (semantic : list (string * Q))
    : pio (list (string * Hit) * Q) :=
  if negb db_up then lift (Err RetrievalError)
  else
    lexical ← lexical_steps query conversation_id;
    let candidates := dupdate [] lexical in
    match filter (λ k, dmem candidates k = false) semantic.*1 with
    | [] => mret (candidates, max_rank lexical)
    | missing => fetched ← fetch_steps conversation_id missing;
                 mret (dupdate candidates fetched, max_rank lexical)
    end.

Definition retrieve_steps (db_up : bool) (now : Q) (query conversation_id : string) (limit : option Z)
    : pio (list RetrievedItem) :=
  let limit := match limit with
               | None | Some 0 => limit_default (sv_retrieval sv)
               | Some n => n
               end in
  semantic ← semantic_steps query conversation_id;
  found ← candidates_steps db_up query conversation_id semantic;
  let '(candidates, top) := found in
  mret (slice_to limit
    (py_sorted item_leb (omap (retrieved_item sv conversation_id now semantic top) candidates))).
End indexing.

(** ** The chat route *)

Section chat.
Context (rq : Request).

Definition inbound_steps (c : string) (messages : list obj) : pio (bool + Response) :=
  if ap_store app then
    r ← catch
      (_ ← on_world_step (on_store (rq_inbound_up rq) (ensure_conversation c));
       on_world_step (on_store (rq_inbound_up rq) (reconcile_history (rq_stamp rq) c messages None)));
    match r with
    | Ok _ => mret (inl true)
    | Err (HistoryDivergenceError c' index diagnostics) =>
        mret (inr (client_error (divergence_text c' index diagnostics) "history_conflict" JNull 409
                     (_conversation_headers c)))
    | Err e => if infrastructure_error e then mret (inl false) else lift (Err e)
    end
  else mret (inl false).

Definition retrieve_items_steps (c : string) (messages : list obj) : pio (list RetrievedItem) :=
  let query := extract_retrieval_query messages in
  match ap_memory app with
  | Some memory =>
      if snonempty query then
        r ← catch (retrieve_steps memory (rq_retrieval_up rq) (rq_now rq) query c None);
        match r with
        | Ok items => mret items
        | Err RetrievalError => mret []
        | Err e => lift (Err e)
        end
      else mret []
  | None => mret []
  end.

Definition plan_steps (c : string) (messages : list obj) (tools : json) : pio (list obj) :=
  match ap_engine app with
  | Some engine =>
      retrieved ← retrieve_items_steps c messages;
      split ← lift (separate_current_request messages);
      plan ← lift (build engine split.1 split.2 tools [] retrieved ∅ (Some c));
      mret (ep_messages plan)
  | None =>
      split ← lift (separate_current_request messages);
      plan ← lift (plan_context split.1 split.2 tools (ap_usable_budget app) (ap_pinned_budget app));
      mret (plan_messages plan)
  end.

Definition assemble_steps (c : string) (messages : list obj) (tools : json) : pio (list obj + Response) :=
  r ← catch (plan_steps c messages tools);
  let refuse text := mret (inr (client_error text "context_length_exceeded" (JStr "messages") 400
                                  (_conversation_headers c))) in
  match r with
  | Ok out => mret (inl out)
  | Err (PlannerOverflowError required usable) => refuse (overflow_text "request" required usable)
  | Err (EngineOverflowError required usable) => refuse (overflow_text "context" required usable)
  | Err e => lift (Err e)
  end.

(** [asyncio.wait_for(memory.index_completed_turns(...))]: its timeout and all other
    exceptions are logged. *)
Definition index_memory_steps (c : string) : pio unit :=
  match ap_memory app with
  | Some memory =>
      if ap_auto_index app
      then with_timeout (_ ← catch (index_turns_steps memory (rq_now rq) c); mret tt) (Done (Ok tt))
      else mret tt
  | None => mret tt
  end.

Definition store_answer_steps (store : bool) (c : string) (messages : list obj)
    (message : json) (metadata : option obj) : pio unit :=
  match message with
  | JNull => mret tt
  | _ =>
      if (store : bool) then
        r ← catch
          (match message with
           | JObj m => on_world_step (on_store (rq_persist_up rq)
                         (reconcile_history (rq_stamp rq) c (messages ++ [m]) metadata))
           | _ => on_world_step (on_store (rq_persist_up rq) (λ db, (Err AttributeError, db)))
           end);
        match r with
        | Ok _ => index_memory_steps c
        | Err (HistoryDivergenceError _ _ _) => mret tt
        | Err e => if infrastructure_error e then mret tt else lift (Err e)
        end
      else mret tt
  end.

Definition persist_assistant_steps (store : bool) (c : string) (messages : list obj)
    (message : json) (metadata : option obj) : pio unit :=
  _ ← atomic (record_tokens match metadata with Some md => oget md "usage" | None => JNull end);
  store_answer_steps store c messages message metadata.

Definition run_callbacks_steps (store : bool) (c : string) (messages : list obj)
    (calls : list (option obj * obj)) : pio unit :=
  foldr (λ call rest,
    _ ← catch (persist_assistant_steps store c messages (from_option JObj JNull call.1) (Some call.2));
    rest) (mret tt) calls.

Definition forward_stream_steps (store : bool) (c : string) (messages : list obj) (out : obj)
    : pio Response :=
  opened ← atomic (call_llm llm_open_stream out);
  match opened with
  | inr e => mret (error_body_response e)
  | inl stream =>
      let run := iter_bytes (ap_max_capture_bytes app) (λ _ _, Ok tt) (ls_chunks stream)
                   (ls_ending stream) in
      _ ← run_callbacks_steps store c messages (sr_calls run);
      mret (set_header RESPONSE_CONVERSATION_HEADER c (streaming_response stream run))
  end.

Definition forward_buffered_steps (store : bool) (c : string) (messages : list obj) (out : obj)
    : pio Response :=
  completed ← atomic (call_llm llm_complete out);
  match completed with
  | inr e => mret (error_body_response e)
  | inl (status, hs, content) =>
      _ ← (if (200 <=? status) && (status <? 300) then
             match buffered_message content with
             | Some (message, metadata) =>
                 persist_assistant_steps store c messages message (or_no_metadata metadata)
             | None => mret tt
             end
           else mret tt);
      mret (set_header RESPONSE_CONVERSATION_HEADER c (upstream_response status hs content))
  end.

Definition forward_steps (store : bool) (c : string) (payload : obj) (out : list obj) : pio Response :=
  let messages := messages_of payload in
  if is_true (oget payload "stream")
  then forward_stream_steps store c messages (outgoing payload out)
  else forward_buffered_steps store c messages (outgoing payload out).

Definition serve_steps (c : string) (payload : obj) : pio Response :=
  let messages := messages_of payload in
  stored ← inbound_steps c messages;
  match stored with
  | inr response => mret response
  | inl store =>
      assembled ← assemble_steps c messages (oget payload "tools");
      match assembled with
      | inr response => mret response
      | inl out => forward_steps store c payload out
      end
  end.

Definition chat_steps : pio Response :=
  match read_payload rq with
  | Err e => match value_error e with
             | Some text => mret (client_error text "invalid_request_body" JNull 400 [])
             | None => lift (Err e)
             end
  | Ok payload =>
      identified ← catch (atomic (identify app rq payload));
      match identified with
      | Err (InvalidConversationId text) =>
          mret (client_error text "invalid_conversation_id" JNull 400 [])
      | Err e => lift (Err e)
      | Ok (c, payload) => serve_steps c payload
      end
  end.
End chat.

(** ** The internal routes *)

Section internal_steps.
Context (security : SecuritySettings) (db_up : bool) (now : Q).

Local Notation handler A := (pio (A + HTTPException)).

Definition invalid_steps {A} (what value : string) : handler A :=
  mret (inr (MkHTTPException 400 ("invalid " +:+ what +:+ ": " +:+ py_repr (JStr value)))).

Definition with_uuid_steps {A} (value what : string) (k : Z → handler A) : handler A :=
  match uuid_parse value with Some id => k id | None => invalid_steps what value end.

Definition with_memory_steps {A} (k : MemoryService → handler A) : handler A :=
  match ap_memory app with
  | Some m => k m
  | None => mret (inr (MkHTTPException 503 "memory service unavailable"))
  end.

Definition create_memory_steps (spec : MemoryCreate) : handler internal_response :=
  with_uuid_steps (mc_conversation_id spec) "conversation_id" (λ _,
    let create := with_memory_steps (λ m,
      r ← catch (create_steps m now spec);
      match r with
      | Ok id => mret (inl (MemoryCreated (uuid_str id)))
      | Err e => match value_error e with
                 | Some text => mret (inr (MkHTTPException 404 text))
                 | None => lift (Err e)
                 end
      end) in
    match mc_supersedes spec with
    | Some target => with_uuid_steps target "supersedes" (λ _, create)
    | None => create
    end).

Definition index_route_steps (conversation_id : string) : handler internal_response :=
  with_uuid_steps conversation_id "conversation_id" (λ id, with_memory_steps (λ m,
    created ← index_turns_steps m now (uuid_str id);
    mret (inl (ChunksCreated created)))).

Definition rebuild_route_steps (conversation_id : option string) (force : bool)
    : handler internal_response :=
  with_memory_steps (λ m,
    let rebuild scope := (summary ← rebuild_steps m scope force; mret (inl (Rebuilt summary))) in
    match conversation_id with
    | Some (String _ _ as c) => with_uuid_steps c "conversation_id" (λ id, rebuild (Some (uuid_str id)))
    | _ => rebuild None
    end).

Definition retrieve_route_steps (q conversation_id : string) (limit : option Z) : handler internal_response :=
  with_uuid_steps conversation_id "conversation_id" (λ id, with_memory_steps (λ m,
    items ← retrieve_steps m db_up now q (uuid_str id) limit;
    mret (inl (Retrieved q items)))).

Definition preview_items_steps (c : string) (messages : list obj) : pio (list RetrievedItem) :=
  let query := extract_retrieval_query messages in
  match ap_memory app with
  | Some m =>
      if snonempty query then
        r ← catch (retrieve_steps m db_up now query c None);
        match r with
        | Ok items => mret items
        | Err RetrievalError => mret []
        | Err e => lift (Err e)
        end
      else mret []
  | None => mret []
  end.

Definition preview_route_steps (conversation_id : string) (messages : list obj) (tools : json)
    : handler internal_response :=
  with_uuid_steps conversation_id "conversation_id" (λ id,
    match ap_engine app with
    | None => mret (inr (MkHTTPException 503 "context engine unavailable"))
    | Some eng =>
        match validate_chat_payload (JObj [("messages", JList (JObj <$> messages)); ("tools", tools)]) with
        | Err e => match e with
                   | PayloadValidationError text => mret (inr (MkHTTPException 400 text))
                   | _ => lift (Err e)
                   end
        | Ok _ =>
            split ← lift (separate_current_request messages);
            retrieved ← preview_items_steps (uuid_str id) messages;
            match build eng split.1 split.2 tools [] retrieved ∅ (Some (uuid_str id)) with
            | Ok plan => mret (inl (Previewed (debug_view plan)))
            | Err (EngineOverflowError required usable) =>
                mret (inr (MkHTTPException 400 (overflow_text "context" required usable)))
            | Err e => lift (Err e)
            end
        end
    end).

(** Superseding a memory is one statement. *)
Definition dispatch_steps (r : internal_request) : handler internal_response :=
  match r with
  | CreateMemory spec => create_memory_steps spec
  | Retrieve q c limit => retrieve_route_steps q c limit
  | IndexConversation c => index_route_steps c
  | RebuildIndex c force => rebuild_route_steps c force
  | ContextPreview c messages tools => preview_route_steps c messages tools
  | SupersedeMemory _ _ => on_world_step (dispatch server (ap_memory app) (ap_engine app) db_up now r)
  end.

Definition internal_route_steps (hs : headers) (r : internal_request) : handler internal_response :=
  match require_internal_auth security hs with
  | Err e => lift (Err e)
  | Ok (Some exc) => mret (inr exc)
  | Ok None => dispatch_steps r
  end.
End internal_steps.

(** A request and what comes of it. *)
Definition outcome : Type := res Response + res (internal_response + HTTPException).

Definition request_steps (security : SecuritySettings) (x : proxy_request) : prog (Proxy S) outcome :=
  match x with
  | ChatRequest rq => pbind (chat_steps rq) (λ r, Done (inl r))
  | ModelsRequest => pbind (atomic list_models) (λ r, Done (inl r))
  | InternalRequest hs db_up now r => pbind (internal_route_steps security db_up now hs r) (λ r, Done (inr r))
  end.
End programs.

(** ** Alone, the programs are the handlers *)

Section refinement.
Context {host : Host} {pg : Postgres} {uu : Uuids} {si : SessionIds} {se : Search} {utf8 : Utf8}.
Context {S : Type} {llm : LLMProvider S}.
Context (server : nat → request → reply) (app : App).

Local Notation proxy_io := (Routes.proxy_io S).
Local Notation pio := (Steps.pio (Proxy S)).

Lemma runs_ret {A} (a : A) : runs (mret a : pio A) (mret a : proxy_io A).
Proof. done. Qed.

Lemma runs_lift {A} (r : res A) : runs (lift r : pio A) (pio_res r).
Proof. done. Qed.

Lemma runs_bind {A B} (p : pio A) (m : proxy_io A) (f : A → pio B) (g : A → proxy_io B) :
  runs p m → (∀ a, runs (f a) (g a)) → runs (p ≫= f) (m ≫= g).
Proof.
  intros Hp Hf w. unfold mbind, prog_bind, pio_bind. rewrite run_bind Hp.
  destruct (m w) as [[a|e] w']; [apply Hf|done].
Qed.

Lemma runs_catch {A} (p : pio A) (m : proxy_io A) : runs p m → runs (catch p) (attempt m).
Proof. intros Hp w. unfold catch, attempt. rewrite run_bind Hp. by destruct (m w). Qed.

(** Computations on the world alone. *)
Lemma runs_world {A} (m : io A) : runs (on_world_step m : pio A) (on_world m).
Proof. apply runs_atomic. Qed.

Lemma runs_world_ret {A} (a : A) : runs (mret a : pio A) (on_world (mret a)).
Proof. by intros []. Qed.

Lemma runs_world_raise {A} e : runs (lift (Err e) : pio A) (on_world (io_raise e)).
Proof. by intros []. Qed.

Lemma runs_world_lift {A} (r : res A) : runs (lift r : pio A) (on_world (io_lift r)).
Proof. by intros []. Qed.

Lemma runs_world_bind {A B} (p : pio A) (m : io A) (f : A → pio B) (g : A → io B) :
  runs p (on_world m) → (∀ a, runs (f a) (on_world (g a))) → runs (p ≫= f) (on_world (m ≫= g)).
Proof.
  intros Hp Hf w. unfold mbind, prog_bind, io_bind. rewrite run_bind Hp. unfold on_world.
  destruct (m (px_world w)) as [[a|e] w']; [|done]. rewrite Hf. unfold on_world. simpl. by destruct (g a w').
Qed.

Lemma runs_world_caught {A} (p : pio A) (m : io A) :
  runs p (on_world m) → runs (catch p) (on_world (caught m)).
Proof.
  intros Hp w. unfold catch. rewrite run_bind Hp. unfold on_world, caught. by destruct (m (px_world w)).
Qed.

Lemma runs_fold {A T} (body : T → A → pio T) (body' : T → A → io T) t l :
  (∀ t x, runs (body t x) (on_world (body' t x))) → runs (pio_fold body t l) (on_world (io_fold body' t l)).
Proof.
  intros Hb. revert t. induction l as [|x l IH]; intros t; [apply runs_world_ret|].
  simpl. apply runs_world_bind; [apply Hb|apply IH].
Qed.

Create HintDb runs.
Hint Resolve runs_ret runs_lift runs_bind runs_catch runs_world runs_world_ret runs_world_raise runs_world_lift
  runs_world_bind runs_world_caught runs_fold runs_atomic runs_timeout : runs.

(** Follow the two programs in step. *)
Ltac follow :=
  repeat first
    [ progress intros
    | solve [auto with runs]
    | apply runs_world_bind | apply runs_bind | apply runs_catch | apply runs_world_caught | apply runs_fold
    | match goal with |- runs (match ?x with _ => _ end) _ => destruct x end
    | match goal with |- runs (if ?x then _ else _) _ => destruct x end ].

Lemma index_chunk_runs sv k v :
  runs (index_chunk_steps server sv k v : pio bool) (on_world (_index_chunk server sv k v)).
Proof. unfold index_chunk_steps, _index_chunk. follow. Qed.
Hint Resolve index_chunk_runs : runs.

Lemma index_turns_runs sv now c :
  runs (index_turns_steps server sv now c : pio Z) (on_world (index_completed_turns server sv now c)).
Proof.
  unfold index_turns_steps, index_completed_turns, index_pending_steps, _index_pending_chunks,
    index_batch_steps, index_batch. follow.
Qed.

Lemma create_runs sv now spec :
  runs (create_steps server sv now spec : pio Z) (on_world (create_and_embed server sv now spec)).
Proof.
  unfold create_steps, create_and_embed, embed_and_upsert_steps, _embed_and_upsert. follow.
Qed.

Lemma rebuild_runs sv scope force :
  runs (rebuild_steps server sv scope force : pio rebuild_summary) (on_world (rebuild_vector_index server sv scope force)).
Proof.
  unfold rebuild_steps, rebuild_vector_index, rebuild_batch_steps, rebuild_batch, _rebuild_chunk. follow.
Qed.
Hint Resolve index_turns_runs create_runs rebuild_runs : runs.

(** A query leaves the state alone. *)
Lemma runs_read {A B} (f : MemDB → A) (g : A → pio B) w :
  run (on_world_step (read_tables f) ≫= g) w = run (g (f (w_mem (px_world w)))) w.
Proof. by destruct w as [[] ? ? ?]. Qed.

Lemma run_pio_bind {A B} (p : pio A) (f : A → pio B) w :
  run (p ≫= f) w = match run p w with (Ok a, w') => run (f a) w' | (Err e, w') => (Err e, w') end.
Proof. unfold mbind, prog_bind. rewrite run_bind. by destruct (run p w) as [[a|e] w']. Qed.

Lemma lexical_run sv query c w :
  run (lexical_steps sv query c : pio _) w
  = (Ok (_lexical_search query c (candidate_pool (sv_retrieval sv)) (w_mem (px_world w))), w).
Proof. unfold lexical_steps, _lexical_search. by rewrite !runs_read. Qed.

Lemma fetch_run c ids w :
  run (fetch_steps c ids : pio _) w = (Ok (_fetch_by_ids c ids (w_mem (px_world w))), w).
Proof. unfold fetch_steps, _fetch_by_ids. destruct (mapM uuid_parse ids); [|done]. by rewrite !runs_read. Qed.

Lemma candidates_run sv db_up query c semantic w :
  run (candidates_steps sv db_up query c semantic : pio _) w
  = (retrieval_candidates sv db_up query c semantic (w_mem (px_world w)), w).
Proof.
  unfold candidates_steps, retrieval_candidates. destruct db_up; [|done]. cbn [negb].
  rewrite run_pio_bind lexical_run. cbv zeta. destruct (filter _ _) as [|k ks]; [done|].
  by rewrite run_pio_bind fetch_run.
Qed.

Lemma retrieve_runs sv db_up now query c limit :
  runs (retrieve_steps server sv db_up now query c limit : pio _) (on_world (retrieve server sv db_up now query c limit)).
Proof.
  unfold retrieve_steps, retrieve. apply runs_world_bind.
  { unfold semantic_steps, _semantic_scores. follow. }
  intros semantic w. rewrite run_pio_bind candidates_run.
  unfold on_world, mbind, io_bind, read_tables, io_lift. destruct w as [world ? sent usage]. simpl.
  by destruct (retrieval_candidates _ _ _ _ _ _) as [[candidates top]|e].
Qed.
Hint Resolve retrieve_runs : runs.

Lemma assemble_runs rq c messages tools :
  runs (assemble_steps server app rq c messages tools : pio _) (assemble server app rq c messages tools).
Proof.
  unfold assemble_steps, assemble, plan_steps, plan_messages_for, retrieve_items_steps, retrieve_items. follow.
Qed.

Lemma index_memory_runs rq c :
  runs (index_memory_steps server app rq c : pio unit) (index_memory server app rq c).
Proof.
  unfold index_memory_steps, index_memory. destruct (ap_memory app) as [m|]; [|done].
  destruct (ap_auto_index app); [|done]. apply runs_timeout. follow.
Qed.
Hint Resolve assemble_runs index_memory_runs : runs.

Lemma store_answer_runs rq store c messages message metadata :
  runs (store_answer_steps server app rq store c messages message metadata : pio unit)
       (store_answer server app rq store c messages message metadata).
Proof. unfold store_answer_steps, store_answer. follow. Qed.
Hint Resolve store_answer_runs : runs.

Lemma persist_assistant_runs rq store c messages message metadata :
  runs (persist_assistant_steps server app rq store c messages message metadata : pio unit)
       (persist_assistant server app rq store c messages message metadata).
Proof. unfold persist_assistant_steps, persist_assistant. follow. Qed.
Hint Resolve persist_assistant_runs : runs.

Lemma run_callbacks_runs rq store c messages calls :
  runs (run_callbacks_steps server app rq store c messages calls : pio unit)
       (run_callbacks server app rq store c messages calls).
Proof.
  unfold run_callbacks_steps, run_callbacks.
  induction calls as [|call calls IH]; [done|]. cbn [foldr]. follow.
Qed.
Hint Resolve run_callbacks_runs : runs.

Lemma serve_runs rq c payload :
  runs (serve_steps server app rq c payload) (serve server app rq c payload).
Proof.
  unfold serve_steps, serve, inbound_steps, inbound_persistence, forward_steps, forward,
    forward_stream_steps, forward_stream, forward_buffered_steps, forward_buffered. follow.
Qed.
Hint Resolve serve_runs : runs.

Lemma chat_runs rq : runs (chat_steps server app rq) (chat_completions server app rq).
Proof. unfold chat_steps, chat_completions. follow. Qed.

Lemma internal_runs security db_up now hs r :
  runs (internal_route_steps server app security db_up now hs r : pio _)
       (on_world (internal_route server security (ap_memory app) (ap_engine app) db_up now hs r)).
Proof.
  intros w. unfold internal_route_steps, on_world, internal_route.
  destruct (require_internal_auth _ _) as [[exc|]|e]; [by destruct w| |by destruct w].
  revert w. change (runs (dispatch_steps server app db_up now r : pio _)
    (on_world (dispatch server (ap_memory app) (ap_engine app) db_up now r))).
  destruct r; try apply runs_world; simpl.
  all: unfold create_memory_steps, create_memory_route, index_route_steps, index_route,
    rebuild_route_steps, rebuild_route, retrieve_route_steps, retrieve_route, preview_route_steps, preview_route,
    preview_items_steps, preview_items; unfold with_uuid_steps, with_uuid, invalid_steps, invalid,
    with_memory_steps, with_memory, abort; follow.
Qed.
End refinement.
