(* ===== verification/Stability.v ===== *)
(** * What stays true while others run

    Whatever the requests at work do, they add rows and marks: what a request has read
    remains known, the vector index stays consistent, and a text that was found in the
    tables of a conversation is still there when it is sent. *)

From stdpp Require Import gmap.
From Stdlib Require Import QArith.
From S2P Require Import Prelude PyDict PyString Json Planner Reconciliation Candidates Engine Store Memory Services Retrieval.
From S2P Require Import Capture Http Identity Provider Routes.
Local Open Scope Z_scope.

(** ** What others may have done meanwhile *)

Section world.
Context {host : Host} {pg : Postgres} {laws : PostgresLaws} {uu : Uuids} {se : Search}.
Context (server : nat → request → reply) (sv : MemoryService).

(** Rows are added and marked; memories may be superseded; requests are sent. *)
Record later (w w' : World) : Prop := {
  lt_db : extends (me_db (w_mem w)) (me_db (w_mem w'));
  lt_known : known (me_chunks (w_mem w)) (me_memories (w_mem w)) (w_mem w');
  lt_log : w_log w `prefix_of` w_log w';
}.

Lemma known_all st : known (me_chunks st) (me_memories st) st.
Proof. by apply known_rows. Qed.

Lemma known_trans K M st st' :
  known K M st → known (me_chunks st) (me_memories st) st' → known K M st'.
Proof.
  intros [H1 H2] [H3 H4]. split.
  - intros k Hk. destruct (H1 k Hk) as (k1 & Hk1 & E). destruct (H3 k1 Hk1) as (k2 & Hk2 & E2).
    exists k2. split; [done|by rewrite E2].
  - intros m Hm. destruct (H2 m Hm) as (m1 & Hm1 & E). destruct (H4 m1 Hm1) as (m2 & Hm2 & E2).
    exists m2. split; [done|by rewrite E2].
Qed.

#[global] Instance later_preorder : PreOrder later.
Proof.
  split; [intros w; split; [done|apply known_all|done]|].
  intros w1 w2 w3 [E1 K1 L1] [E2 K2 L2]. split; [by etrans|by eapply known_trans|by etrans].
Qed.

Lemma known_later K M w w' : later w w' → known K M (w_mem w) → known K M (w_mem w').
Proof. intros [_ Hk _] H. by eapply known_trans. Qed.

(** *** Steps *)

(** A step that stores no message. *)
Record idle (w w' : World) : Prop := {
  id_index : index_ok w';
  id_later : later w w';
  id_messages : db_messages (me_db (w_mem w')) = db_messages (me_db (w_mem w));
}.

Lemma idle_refl w : index_ok w → idle w w.
Proof. intros Hi. by split. Qed.

Lemma idle_net K M w w' : index_ok w → known K M (w_mem w) → net (of_rows K M) w w' → idle w w'.
Proof.
  intros Hi Hk Hn. destruct (net_keeps K M w w' Hn Hk Hi) as (_ & Hi' & E).
  destruct Hn as [Em (new & El & _)]. split; [done| |by rewrite E].
  split; [by rewrite E|rewrite Em; apply known_all|rewrite El; by apply prefix_app_r].
Qed.

Lemma idle_reads w w' : index_ok w → net (λ _, False) w w' → idle w w'.
Proof.
  intros Hi Hn. apply (idle_net [] []); [done|by apply known_rows; apply list_subseteq_nil|].
  destruct Hn as [E (new & El & Hn)]. split; [done|]. exists new. split; [done|].
  intros points a Hin. eapply Forall_impl; [by eapply Hn|done].
Qed.

Lemma tables_grow_known st st' : tables_grow st st' → known (me_chunks st) (me_memories st) st'.
Proof.
  intros [(new & E & _) Hm]. split; [|exact Hm]. intros k Hk. exists k. rewrite E. set_solver.
Qed.

Lemma tables_later w op :
  index_ok w → mem_op_wf op → extends (me_db (w_mem w)) (me_db (run_mem_op (w_mem w) op)) →
  let w' := MkWorld (run_mem_op (w_mem w) op) (w_collection_ready w) (w_log w) in
  index_ok w' ∧ later w w'.
Proof.
  intros Hi Hwf He. split; [by apply run_tables_index|]. split; [done| |done].
  by apply tables_grow_known, run_mem_op_grows; [apply Hi|].
Qed.

Lemma only_draws_extends db db' : only_draws db db' → extends db db'.
Proof. intros (n & -> & Hn). by split. Qed.

(** The operations of the memory service on the tables. *)
Lemma memory_op_db st op :
  mem_ok st → mem_op_wf op →
  match op with MStore _ => False | _ => True end →
  extends (me_db st) (me_db (run_mem_op st op)) ∧
  db_messages (me_db (run_mem_op st op)) = db_messages (me_db st).
Proof.
  intros Hok Hwf Hop. destruct op as [op|now c|now spec|id status]; [done|..]; simpl.
  - pose proof (ca_db _ _ (chunk_pass_added now c st)) as H. split; [by apply only_draws_extends|].
    by destruct H as (n & -> & _).
  - destruct (create_memory now spec st) as [r st'] eqn:E. simpl.
    destruct (create_db _ _ _ _ _ E) as (_ & _ & [-> | ->]); [done|].
    assert (db_ok (bump (me_db st))) as Hb by (apply bump_ok, Hok).
    destruct (ensure_spec _ (mc_conversation_id spec) Hb) as (_ & He & Hm & _).
    rewrite Hm. split; [|done]. etrans; [|exact He]. by apply only_draws_extends, bump_draws.
  - done.
Qed.

Lemma idle_tables w op :
  index_ok w → mem_op_wf op → match op with MStore _ => False | _ => True end →
  idle w (MkWorld (run_mem_op (w_mem w) op) (w_collection_ready w) (w_log w)).
Proof.
  intros Hi Hwf Hop. destruct (memory_op_db (w_mem w) op (ix_tables _ Hi) Hwf Hop) as [He Hm].
  destruct (tables_later w op Hi Hwf He) as [Hi' Hl]. by split.
Qed.

Lemma idle_map f w :
  (∀ k, set_indexed false (f k) = set_indexed false k) →
  index_ok (MkWorld (map_chunks f (w_mem w)) (w_collection_ready w) (w_log w)) →
  idle w (MkWorld (map_chunks f (w_mem w)) (w_collection_ready w) (w_log w)).
Proof.
  intros Hf Hi. split; [done| |done]. split; [done| |done]. apply known_map; [done|apply known_all].
Qed.

Lemma idle_mark k v w :
  index_ok w → known [k] [] (w_mem w) → accepted w [chunk_point k v] →
  idle w (mark_indexed (ck_id k) w).2.
Proof.
  intros Hi Hk Ha. assert (k ∈ [k]) as Hin by set_solver.
  destruct (mark_keeps [k] [] k v w Hin Ha Hk Hi) as (_ & Hi' & _).
  by apply idle_map; [intros x; case_bool_decide|].
Qed.

Lemma idle_bump w : index_ok w → idle w (MkWorld (bump_tables (w_mem w)) (w_collection_ready w) (w_log w)).
Proof.
  intros Hi. split; [by apply bump_index| |done].
  split; [by apply only_draws_extends, bump_draws|by destruct (known_all (w_mem w))|done].
Qed.

(** A transaction of the store. *)
Lemma store_later {A} up (f : DB → res A * DB) op w :
  index_ok w → op_wf op → (∀ db, (f db).2 = (run_op op db).2) →
  let w' := (on_store up f w).2 in
  index_ok w' ∧ later w w' ∧ (w' = w ∨ me_db (w_mem w') = (run_op op (me_db (w_mem w))).2).
Proof.
  intros Hi Hwf Hf. simpl. destruct up; [|split_and!; [done..|by left]].
  destruct (run_op_ok op _ (mk_db _ (ix_tables _ Hi)) Hwf) as [_ He _ _].
  destruct (tables_later w (MStore op) Hi Hwf He) as [H1 H2].
  unfold on_store, on_tables. cbn [run_mem_op] in H1, H2. rewrite -Hf in H1, H2.
  specialize (Hf (me_db (w_mem w))). destruct (f (me_db (w_mem w))) as [r db]. simpl in *.
  split_and!; [done..|by right].
Qed.
End world.

(** ** What is sent is the conversation's own *)

Section material.
Context {host : Host} {pg : Postgres} {laws : PostgresLaws} {uu : Uuids} {se : Search}.
Context (c : string).

(** The text is that of a chunk or of a memory of [c]. *)
Definition stored_text (st : MemDB) (text : string) : Prop :=
  (∃ k, k ∈ me_chunks st ∧ ck_conversation k = c ∧ ck_raw_content k = text) ∨
  (∃ m, m ∈ me_memories st ∧ mr_conversation m = c ∧ mr_content m = text).

Definition stored_item (w : World) (item : RetrievedItem) : Prop := stored_text (w_mem w) (item_content item).
Definition stored_hit (w : World) (kh : string * Hit) : Prop := stored_text (w_mem w) (h_content kh.2).

Lemma stored_later w w' text : later w w' → stored_text (w_mem w) text → stored_text (w_mem w') text.
Proof.
  intros [_ [Hk Hm] _] [(k & Hin & Hc & Ht)|(m & Hin & Hc & Ht)]; [left|right].
  - destruct (Hk k Hin) as (k' & Hin' & E). exists k'. destruct k, k'. unfold set_indexed in E. simpl in *.
    injection E as -> -> -> -> -> -> -> ->. auto.
  - destruct (Hm m Hin) as (m' & Hin' & [= _ Ec _ Et]). exists m'. split; [done|]. by rewrite Ec Et.
Qed.

Lemma stored_hits_later w w' l : later w w' → Forall (stored_hit w) l → Forall (stored_hit w') l.
Proof. intros Hl H. eapply Forall_impl; [exact H|]. intros x. by apply stored_later. Qed.

Lemma memory_matches_stored query w : Forall (stored_hit w) (memory_matches query c (w_mem w)).
Proof.
  apply Forall_forall. intros kh (m & Hm & E)%list_elem_of_omap. case_bool_decide as Hc; [|done].
  destruct (ts_rank _ _); [|done]. injection E as <-. right. exists m. naive_solver.
Qed.

Lemma chunk_matches_stored query w : Forall (stored_hit w) (chunk_matches query c (w_mem w)).
Proof.
  apply Forall_forall. intros kh (k & Hk & E)%list_elem_of_omap. case_bool_decide as Hc; [|done].
  destruct (ts_rank _ _); [|done]. injection E as <-. left. exists k. naive_solver.
Qed.

Lemma dset_forall {V} (P : string * V → Prop) d k v : Forall P d → P (k, v) → Forall P (dset d k v).
Proof. intros Hd Hv. apply Forall_forall. intros x [->|Hx]%elem_of_dset_pair; [done|]. by rewrite Forall_forall in Hd; auto. Qed.

Lemma fold_dset_forall {A V} (P : string * V → Prop) (key : A → string) (value : A → V) l d :
  Forall P d → Forall (λ x, P (key x, value x)) l → Forall P (foldl (λ d x, dset d (key x) (value x)) d l).
Proof. intros Hd Hl. revert d Hd. induction Hl; intros d Hd; simpl; auto using dset_forall. Qed.

Lemma dupdate_forall {V} (P : string * V → Prop) d e : Forall P d → Forall P e → Forall P (dupdate d e).
Proof. intros Hd He. apply (fold_dset_forall P fst snd); [done|]. eapply Forall_impl; [exact He|]. by intros []. Qed.

Lemma retrieved_stored w sv now semantic top l :
  Forall (stored_hit w) l → Forall (stored_item w) (omap (retrieved_item sv c now semantic top) l).
Proof.
  intros Hl. apply Forall_forall. intros item ([key h] & Hin & E)%list_elem_of_omap. unfold retrieved_item in E.
  destruct (_ && _); [done|]. injection E as <-. rewrite Forall_forall in Hl. by apply Hl in Hin.
Qed.

(** A message to be sent: one of the request's own, or the block of a stored text. *)
Definition own_material (ms : list obj) (w : World) (m : obj) : Prop :=
  m ∈ ms ∨ ∃ item, block_of item m ∧ stored_item w item.

(** The outcome of the assembly for [ms] and [tools]. *)
Definition assembled (usable : Z) (ms : list obj) (tools : json) (w : World) (out : list obj) : Prop :=
  (∃ history current, separate_current_request ms = Ok (history, current) ∧ fits_request current tools usable out) ∧
  Forall (own_material ms w) out.

Lemma assembled_later usable ms tools w w' out :
  later w w' → assembled usable ms tools w out → assembled usable ms tools w' out.
Proof.
  intros Hl [Hf Ho]. split; [done|]. eapply Forall_impl; [exact Ho|]. intros m [|(item & Hb & Hi)]; [by left|right].
  exists item. split; [done|]. by eapply stored_later.
Qed.

Lemma separated_subset ms history current :
  separate_current_request ms = Ok (history, current) → history ⊆ ms ∧ current ⊆ ms.
Proof.
  intros [(_ & -> & ->)|(before & user & replies & trailing & -> & -> & -> & _)]%separate_current_request_spec; set_solver.
Qed.

Lemma engine_assembles w eng ms tools history current items p :
  separate_current_request ms = Ok (history, current) →
  build eng history current tools [] items ∅ (Some c) = Ok p → Forall (stored_item w) items →
  assembled (eng_usable eng) ms tools w (ep_messages p).
Proof.
  intros Hs Hp Hi. destruct (separated_subset _ _ _ Hs) as [Hh Hc].
  split; [exists history, current; split; [done|by eapply build_fits]|].
  eapply Forall_impl; [by eapply build_sources|]. intros m [|[[]%not_elem_of_nil|[|(item & Hin & Hb & _)]]];
    [left; auto..|right]. exists item. rewrite Forall_forall in Hi. auto.
Qed.

Lemma planner_assembles w usable reserved ms tools history current p :
  0 ≤ reserved → separate_current_request ms = Ok (history, current) →
  plan_context history current tools usable reserved = Ok p →
  assembled usable ms tools w (plan_messages p).
Proof.
  intros Hr Hs Hp. destruct (separated_subset _ _ _ Hs) as [Hh Hc].
  split; [exists history, current; split; [done|by eapply plan_context_fits]|].
  destruct (plan_context_contents _ _ _ _ _ _ Hp) as (us & kept & dropped & _ & -> & Hin & _ & Hd & _).
  apply Forall_forall. intros m Hm. left. apply elem_of_app in Hm as [Hm|Hm]; [|auto]. apply Hh.
  destruct (is_instruction m) eqn:Ei.
  - assert (m ∈ instructions history) as H; [|by apply list_elem_of_filter in H as [_ ?]].
    rewrite -Hin. by apply list_elem_of_filter.
  - assert (m ∈ dialogue history) as H; [|by apply list_elem_of_filter in H as [_ ?]].
    rewrite Hd. apply elem_of_app. right. by apply list_elem_of_filter.
Qed.
End material.
