(* ===== verification/Interleaving.v ===== *)
(** * What concurrent requests do to each other

    Every step of [Concurrency]'s programs keeps the invariants of the tables and of
    the vector index and only adds to what is stored, in the sense of [Stability].
    From this, by the rules of [Steps], any number of requests may interleave, time out
    and be cancelled; and what one of them sends to the provider is made of its own
    messages and of texts of its own conversation. *)

From stdpp Require Import gmap relations.
From Stdlib Require Import QArith.
From S2P Require Import Prelude PyDict PyString Json Planner Reconciliation Candidates Engine Store Validation Memory Services Retrieval.
From S2P Require Import Capture Http Identity Provider Routes Internal Steps Concurrency Stability.
Local Open Scope Z_scope.

(** ** Every program can go on *)

Create HintDb steps.

Section programs.
Context {host : Host} {pg : Postgres} {laws : PostgresLaws} {uu : Uuids} {si : SessionIds} {se : Search}.
Context {utf8 : Utf8} {jlaws : JsonLaws}.
Context {S : Type} {llm : LLMProvider S}.
Context (server : nat → request → reply) (app : App).

(** What else is to hold, whatever the tables gain beside messages, and the
    conversations the program at hand may write to. *)
Context (J : Proxy S → Prop) (N : string → Prop).
Context (J_idle : ∀ w w', idle (px_world w) (px_world w') → px_sent w' = px_sent w → J w → J w').

Definition sound (w : Proxy S) : Prop := index_ok (px_world w) ∧ J w.

Definition after (w w' : Proxy S) : Prop := later (px_world w) (px_world w').

Definition touches (w w' : Proxy S) : Prop :=
  ∀ c, ¬ N c → rows_of (me_db (w_mem (px_world w'))) c = rows_of (me_db (w_mem (px_world w))) c.

#[global] Instance after_preorder : PreOrder after.
Proof. split; [intros w; by unfold after|]. intros w1 w2 w3. unfold after. by etrans. Qed.

Notation goes := (Steps.goes sound after touches).
Notation wp := (Steps.wp sound after touches).
Notation pio := (Steps.pio (Proxy S)).

Lemma idle_fine w w' :
  idle (px_world w) (px_world w') → px_sent w' = px_sent w → sound w → sound w' ∧ after w w' ∧ touches w w'.
Proof.
  intros Hidle Hsent [_ HJ]. pose proof (J_idle _ _ Hidle Hsent HJ). destruct Hidle as [Hi Hl Hm].
  split_and!; [done|done|]. intros c _. by rewrite Hm.
Qed.

Lemma goes_ret {A} (a : A) w : goes (Done a) w.
Proof. apply goes_done. Qed.

Lemma goes_mret {A} (a : A) w : goes (mret a : pio A) w.
Proof. apply goes_ret. Qed.

Lemma goes_lift {A} (r : res A) w : goes (lift r : pio A) w.
Proof. apply goes_ret. Qed.

#[local] Opaque Steps.goes.
Hint Resolve goes_ret goes_mret goes_lift : steps.

Lemma goes_quiet {A} (m : proxy_io S A) w :
  (∀ w, index_ok (px_world w) → idle (px_world w) (px_world (m w).2) ∧ px_sent (m w).2 = px_sent w) →
  goes (atomic m) w.
Proof.
  intros Hm. apply (goes_atomic sound after touches). intros w0 _ Hs. destruct (Hm w0 (proj1 Hs)).
  by apply idle_fine.
Qed.

(** A step of the tables and services, and one whose result matters. *)
Lemma goes_idle {A} (m : io A) w :
  (∀ w0, later (px_world w) w0 → index_ok w0 → idle w0 (m w0).2) → goes (on_world_step m) w.
Proof.
  intros Hm. apply (goes_atomic sound after touches). intros w0 Hr Hs.
  specialize (Hm _ Hr (proj1 Hs)). unfold on_world. destruct (m (px_world w0)). by apply idle_fine.
Qed.

Lemma goes_idle_step {A B} (m : io A) (f : A → pio B) w :
  (∀ w0, later (px_world w) w0 → index_ok w0 → idle w0 (m w0).2 ∧
     ∀ a w1, m w0 = (Ok a, px_world w1) → later w0 (px_world w1) → goes (f a) w1) →
  goes (on_world_step m ≫= f) w.
Proof.
  intros Hm. apply (goes_step sound after touches (on_world m)). intros w0 Hr Hs. specialize (Hm _ Hr (proj1 Hs)).
  unfold on_world. destruct (m (px_world w0)) as [r world] eqn:E. destruct Hm as [Hidle Hf]. simpl in Hidle.
  set (w1 := MkProxy _ _ _ _). assert (idle (px_world w0) (px_world w1)) as H by done.
  destruct (idle_fine _ _ H eq_refl Hs) as (? & Ha & ?). split_and!; try done. intros a ->. by apply Hf.
Qed.

Lemma goes_net {A} (m : io A) w : preserves (net (λ _, False)) m → goes (on_world_step m) w.
Proof.
  intros Hm. apply goes_idle. intros w0 _ Hi. by apply idle_reads.
Qed.

Lemma goes_read {A} (f : MemDB → A) w : goes (on_world_step (read_tables f)) w.
Proof. apply goes_net. by intros [[] ? ?]. Qed.

(** Rows read by one step are known to the next. *)
Lemma goes_rows {A B} (f : MemDB → list A) (g : list A → pio B) w :
  (∀ rows w1, later (px_world w) (px_world w1) → rows = f (w_mem (px_world w1)) → goes (g rows) w1) →
  goes (on_world_step (read_tables f) ≫= g) w.
Proof.
  intros Hg. apply goes_idle_step. intros w0 Hr Hi. split; [rewrite /read_tables /=; by apply idle_refl|].
  intros rows w1 [= <- ->] _. by apply Hg.
Qed.

(** *** Indexing *)

Section indexing.
Context (sv : MemoryService).

Lemma index_chunk_goes k vector w :
  known [k] [] (w_mem (px_world w)) → goes (index_chunk_steps server sv k vector) w.
Proof.
  intros Hk. unfold index_chunk_steps. apply (goes_bind sound after touches).
  { destruct vector; [auto with steps|]. apply goes_net, safe_embed_net. }
  intros [v|] w' Hr; [|auto with steps]. apply goes_idle_step. intros w0 Hr0 Hi.
  assert (later (px_world w) w0) as Hl by (by etrans).
  assert (known [k] [] (w_mem w0)) as Hk0 by (by eapply known_later). split.
  { apply (idle_net [k] []); [done..|]. apply expect_upsert_net. constructor; [|done]. left. exists k, v. set_solver. }
  intros [] w1 Hup Hl1; [|auto with steps]. apply expect_upsert_true in Hup.
  apply (goes_bind sound after touches); [|auto with steps]. apply goes_idle. intros w2 Hl2 Hi2.
  apply (idle_mark k v); [done| |].
  - eapply known_later; [|exact Hk0]. by etrans.
  - eapply accepted_mono; [|exact Hup]. by destruct Hl2.
Qed.

Lemma known_one K M k st : known K M st → k ∈ K → known [k] [] st.
Proof. intros [Hk _] Hin. split; [|by intros ? ?%not_elem_of_nil]. intros ? ->%list_elem_of_singleton. by apply Hk. Qed.

(** The chunks of a batch, one by one. *)
Lemma index_chunks_goes {T} (f : T → bool → T) (t : T) K (kvs : list (ChunkRow * list json)) w :
  known K [] (w_mem (px_world w)) → kvs.*1 ⊆ K →
  goes (pio_fold (λ t (kv : ChunkRow * list json),
    ok ← index_chunk_steps server sv kv.1 (Some kv.2); mret (f t ok)) t kvs) w.
Proof.
  intros Hk Hsub. apply (goes_fold sound after touches). intros t' kv w' Hin Hr.
  apply (goes_bind sound after touches); [|auto with steps]. apply index_chunk_goes.
  apply (known_one K []); [by eapply known_later|]. apply Hsub. by apply list_elem_of_fmap_2.
Qed.

Lemma zip_subseteq {A B} (l K : list A) (k : list B) : l ⊆ K → (zip l k).*1 ⊆ K.
Proof. intros Hl x (y & -> & Hy)%list_elem_of_fmap. apply Hl. by eapply zip_elem. Qed.

Lemma index_batch_goes K n batch w :
  known K [] (w_mem (px_world w)) → batch ⊆ K → goes (index_batch_steps server sv n batch) w.
Proof.
  intros Hk Hb. unfold index_batch_steps. apply (goes_bind sound after touches); [apply goes_net, embed_batch_net|].
  intros [vectors|] w' Hr; [|auto with steps].
  apply (index_chunks_goes (λ (n : Z) (done : bool), if done then n + 1 else n) n K);
    [by eapply known_later|by apply zip_subseteq].
Qed.

Lemma pending_subseteq st c : pending_chunks st c ⊆ me_chunks st.
Proof.
  intros k Hk. eapply sublist_subseteq in Hk; [|apply sublist_take].
  apply elem_of_py_sorted in Hk. by apply list_elem_of_filter in Hk as [_ ?].
Qed.

Lemma index_pending_goes c w : goes (index_pending_steps server sv c) w.
Proof.
  unfold index_pending_steps. apply goes_rows. intros rows w1 _ E.
  apply (goes_fold sound after touches). intros n b w' Hb Hr'. apply (index_batch_goes rows).
  - eapply known_later; [exact Hr'|]. rewrite E.
    apply known_rows; [apply pending_subseteq|apply list_subseteq_nil].
  - intros k Hk. by apply (batches_from_elem server _ _ _ _ _ Hb Hk).
Qed.

Lemma index_turns_goes now c w : goes (index_turns_steps server sv now c) w.
Proof.
  unfold index_turns_steps. apply (goes_bind sound after touches).
  - apply goes_idle. intros w0 _ Hi. pose proof (idle_tables w0 (MChunk now c) Hi I I) as H.
    unfold on_tables. simpl in H. by destruct (_chunk_new_turns now c (w_mem w0)).
  - intros chunked w' _. apply (goes_bind sound after touches); [apply index_pending_goes|]. auto with steps.
Qed.

(** *** Retrieval *)

Lemma wp_read {A B} (f : MemDB → A) (g : A → pio B) (Q : res B → Proxy S → Prop) w :
  (∀ w0 w', after w w0 → after w0 w' → wp (g (f (w_mem (px_world w0)))) Q w') →
  wp (on_world_step (read_tables f) ≫= g) Q w.
Proof.
  intros Hg. apply (wp_pio_bind sound after touches), (wp_atomic sound after touches). intros w0 Hr Hs.
  unfold on_world, read_tables.
  destruct (idle_fine w0 w0 (idle_refl _ (proj1 Hs)) eq_refl Hs) as (? & ? & ?).
  destruct w0 as [world l sent usage]. simpl in *. split_and!; [done..|]. intros w2 Hl. by apply (Hg (MkProxy world l sent usage)).
Qed.

(** Candidates of [c], or items made of them. *)
Definition hits_of (c : string) (r : res (list (string * Hit))) (w : Proxy S) : Prop :=
  match r with Ok hits => Forall (stored_hit c (px_world w)) hits | Err _ => True end.
Definition items_of (c : string) (r : res (list RetrievedItem)) (w : Proxy S) : Prop :=
  match r with Ok items => Forall (stored_item c (px_world w)) items | Err _ => True end.

Lemma slice_forall {A} (P : A → Prop) n (leb : A → A → bool) l : Forall P l → Forall P (slice_to n (py_sorted leb l)).
Proof.
  intros Hl. apply Forall_forall. intros x Hx. eapply sublist_subseteq in Hx; [|apply slice_to_sublist].
  apply elem_of_py_sorted in Hx. rewrite Forall_forall in Hl. auto.
Qed.

Lemma lexical_wp query c w : wp (lexical_steps sv query c) (hits_of c) w.
Proof.
  unfold lexical_steps. apply wp_read. intros w0 w1 _ Hl1. apply wp_read. intros w2 w3 Hl2 Hl3.
  apply (wp_done sound after touches). intros w4 Hl4. simpl. apply slice_forall, Forall_app_2.
  - eapply stored_hits_later; [|apply memory_matches_stored]. unfold after in *. by repeat (etrans; [eassumption|]).
  - eapply stored_hits_later; [|apply chunk_matches_stored]. unfold after in *. by repeat (etrans; [eassumption|]).
Qed.

Lemma fetch_wp c ids w : wp (fetch_steps c ids) (hits_of c) w.
Proof.
  unfold fetch_steps. destruct (mapM uuid_parse ids) as [uuids|].
  2: { apply (wp_done sound after touches). intros w' _. constructor. }
  apply wp_read. intros w0 w1 _ Hl1. apply wp_read. intros w2 w3 Hl2 Hl3.
  apply (wp_done sound after touches). intros w4 Hl4. simpl.
  apply fold_dset_forall; [apply fold_dset_forall; [constructor|]|].
  - apply Forall_forall. intros m [[[Hc _] _] Hm]%list_elem_of_filter.
    apply (stored_later c (px_world w0)); [unfold after in *; by repeat (etrans; [eassumption|])|]. right. by exists m.
  - apply Forall_forall. intros k [[Hc _] Hk]%list_elem_of_filter.
    apply (stored_later c (px_world w2)); [unfold after in *; by repeat (etrans; [eassumption|])|]. left. by exists k.
Qed.

Lemma semantic_goes query c w : goes (semantic_steps server sv query c) w.
Proof.
  unfold semantic_steps. apply (goes_bind sound after touches); [apply goes_net, safe_embed_net|].
  intros [v|] w1 _; [|auto with steps]. apply goes_net, vector_scores_net.
Qed.

Lemma retrieve_wp db_up now query c limit w : wp (retrieve_steps server sv db_up now query c limit) (items_of c) w.
Proof.
  unfold retrieve_steps. apply (wp_after sound after touches); [apply semantic_goes| |done].
  intros semantic w1 _. apply (wp_pio_bind sound after touches).
  apply (wp_mono _ _ _ _ (λ r w', match r with Ok found => hits_of c (Ok found.1) w' | Err _ => True end)).
  { intros [[candidates top]|e] w2 Hh; [|done]. apply (wp_done sound after touches). intros w3 Hl3. simpl in *.
    apply slice_forall, retrieved_stored. by eapply stored_hits_later. }
  unfold candidates_steps. destruct db_up; cbn [negb]; [|by apply (wp_done sound after touches)].
  apply (wp_pio_bind sound after touches). eapply wp_mono; [|apply lexical_wp].
  intros [lexical|e] w2 Hlex; [|by intros]. simpl in Hlex.
  assert (Forall (stored_hit c (px_world w2)) (dupdate [] lexical)) as Hbase by (by apply dupdate_forall).
  destruct (filter _ _) as [|k ks].
  { apply (wp_done sound after touches). intros w3 Hl3. simpl. by eapply stored_hits_later. }
  apply (wp_pio_bind sound after touches). eapply wp_mono; [|apply (wp_frame sound after touches), fetch_wp].
  intros [fetched|e] w3 [Hl3 Hf]; [|by intros]. apply (wp_done sound after touches). intros w4 Hl4. simpl in *.
  apply dupdate_forall; (eapply stored_hits_later; [|eassumption]); [by etrans|done].
Qed.

Lemma retrieve_goes db_up now query c limit w : goes (retrieve_steps server sv db_up now query c limit) w.
Proof. eapply wp_goes, retrieve_wp. Qed.

(** *** Memories *)

Lemma idle_create now spec w : index_ok w → idle w (on_tables (create_memory now spec) w).2.
Proof.
  intros Hi. pose proof (idle_tables w (MCreate now spec) Hi I I) as H. unfold on_tables. simpl in H.
  by destruct (create_memory now spec (w_mem w)).
Qed.

(** The row a memory was created as. *)
Lemma created_row now spec w id w' :
  index_ok w → on_tables (create_memory now spec) w = (Ok id, w') →
  ∃ row, known [] [row] (w_mem w') ∧ ∀ v, memory_point row v =
    MkPoint (uuid_str id) v (memory_payload (mc_conversation_id spec) (MemoryKind_value (mc_kind spec)) id).
Proof.
  intros Hi. unfold on_tables. destruct (create_memory now spec (w_mem w)) as [r st] eqn:E. intros [= -> <-].
  destruct (create_memory_rows _ _ _ _ _ (mk_memories _ (ix_tables _ Hi)) E)
    as (f & row & target & Em & _ & Eid & Econv & _ & _ & _ & _ & Ekind & _).
  exists row. split.
  - apply known_rows; [apply list_subseteq_nil|]. intros m ->%list_elem_of_singleton. simpl. rewrite Em. set_solver.
  - intros v. unfold memory_point. by rewrite Eid Econv Ekind.
Qed.

Lemma embed_and_upsert_goes row point_id text payload w :
  known [] [row] (w_mem (px_world w)) → (∀ v, memory_point row v = MkPoint point_id v payload) →
  goes (embed_and_upsert_steps server sv point_id text payload) w.
Proof.
  intros Hk Hrow. unfold embed_and_upsert_steps.
  apply (goes_bind sound after touches); [apply goes_net, safe_embed_net|].
  intros [v|] w' Hr; [|auto with steps]. apply goes_idle. intros w0 Hr0 Hi.
  apply (idle_net [] [row]); [done|eapply known_later; [|exact Hk]; by etrans|].
  revert w0 Hr0 Hi. cut (preserves (net (of_rows [] [row])) (io_try
    (upsert server [MkPoint point_id v payload] (Z.of_nat (length v)))
    (λ e, match e with VectorStoreError => Some (mret tt) | _ => None end))); [done|].
  apply preserves_try; [apply _| |].
  - apply upsert_net. constructor; [|done]. right. exists row, v. split; [left|by rewrite Hrow].
  - intros e h. case_match; intros [= <-]; auto with io typeclass_instances.
Qed.

Lemma create_goes now spec w : goes (create_steps server sv now spec) w.
Proof.
  unfold create_steps. apply goes_idle_step. intros w0 _ Hi. split; [by apply idle_create|].
  intros id w1 E _. destruct (created_row _ _ _ _ _ Hi E) as (row & Hk & Hrow).
  apply (goes_bind sound after touches); [by apply (embed_and_upsert_goes row)|auto with steps].
Qed.

(** *** Rebuilding *)

Lemma rebuild_batch_goes K s batch w :
  known K [] (w_mem (px_world w)) → batch ⊆ K → goes (rebuild_batch_steps server sv s batch) w.
Proof.
  intros Hk Hb. unfold rebuild_batch_steps.
  apply (goes_bind sound after touches); [apply goes_net, embed_batch_net|].
  intros [vectors|] w' Hr; [|auto with steps].
  apply (index_chunks_goes count_chunk s K); [by eapply known_later|by apply zip_subseteq].
Qed.

Lemma rebuild_memory_goes M s mv w :
  known [] M (w_mem (px_world w)) → mv.1 ∈ M → goes (on_world_step (rebuild_memory server s mv)) w.
Proof.
  intros Hk Hin. apply goes_idle. intros w0 Hr Hi.
  apply (idle_net [] M); [done|by eapply known_later|]. revert w0 Hr Hi.
  cut (preserves (net (of_rows [] M)) (rebuild_memory server s mv)); [done|]. unfold rebuild_memory.
  apply preserves_bind; [apply _| |auto with io typeclass_instances].
  apply expect_upsert_net. constructor; [|done]. right. by exists mv.1, mv.2.
Qed.

Lemma unmark_goes scope (force : bool) w :
  goes (if force
       then on_world_step (on_tables (λ st, (Ok tt, map_chunks
              (λ k, if in_scope scope (ck_conversation k) then set_indexed false k else k) st)))
       else (mret tt : pio unit)) w.
Proof.
  destruct force; [|auto with steps]. apply goes_idle. intros w0 _ Hi. unfold on_tables. simpl.
  apply idle_map; [|apply unmark_index; [| |done]]; intros k; by destruct (in_scope _ _).
Qed.

Lemma rebuild_goes scope force w : goes (rebuild_steps server sv scope force) w.
Proof.
  unfold rebuild_steps. set (sc := match scope with Some EmptyString => None | c => c end).
  apply (goes_bind sound after touches); [apply unmark_goes|]. intros _ w1 _.
  apply goes_rows. intros chunks w2 _ Ec. apply goes_rows. intros memories w3 Hl3 Em.
  assert (known chunks [] (w_mem (px_world w3))) as Hk.
  { eapply known_later; [exact Hl3|]. apply known_rows; [|apply list_subseteq_nil]. rewrite Ec.
    intros k Hk. apply elem_of_py_sorted in Hk. by apply list_elem_of_filter in Hk as [_ ?]. }
  assert (known [] memories (w_mem (px_world w3))) as Hm.
  { apply known_rows; [apply list_subseteq_nil|]. rewrite Em.
    intros m Hm. by apply list_elem_of_filter in Hm as [_ ?]. }
  apply (goes_bind sound after touches).
  { apply (goes_fold sound after touches). intros s b w4 Hb Hr.
    apply (rebuild_batch_goes chunks); [by eapply known_later|].
    intros k Hin. by apply (batches_from_elem server _ _ _ _ _ Hb Hin). }
  intros s w4 Hr4. apply (goes_bind sound after touches); [apply goes_net, embed_batch_net|].
  intros [vectors|] w5 Hr5; [|auto with steps]. apply (goes_fold sound after touches).
  intros s' mv w6 Hmv%zip_elem Hr6. apply (rebuild_memory_goes memories); [|done].
  eapply known_later; [|exact Hm]. do 2 (etrans; [|done]); done.
Qed.
End indexing.

(** *** The chat route *)

(** A transaction of the store keeps what else is to hold. *)
Definition stable (op : store_op) : Prop := ∀ w world,
  db_ok (me_db (w_mem (px_world w))) → J w → later (px_world w) world →
  me_db (w_mem world) = (run_op op (me_db (w_mem (px_world w)))).2 →
  J (MkProxy world (px_llm w) (px_sent w) (px_usage w)).

(** A payload for the provider may be sent. *)
Definition may_send (world : World) (sent : obj) : Prop := ∀ w s,
  px_world w = world → J w → J (MkProxy world s (px_sent w ++ [sent]) (px_usage w)).

Lemma goes_store {A} up (f : DB → res A * DB) op w :
  op_wf op → N (op_conversation op) → stable op → (∀ db, (f db).2 = (run_op op db).2) →
  goes (on_world_step (on_store up f)) w.
Proof.
  intros Hwf HN HJ Hf. apply (goes_atomic sound after touches). intros w0 _ [Hi HJ0].
  destruct (store_later up f op _ Hi Hwf Hf) as (Hi' & Hl & Hdb).
  pose proof (mk_db _ (ix_tables _ Hi)) as Hok. destruct (run_op_ok op _ Hok Hwf) as [_ _ Ho _].
  unfold on_world. destruct (on_store up f (px_world w0)) as [r w']. simpl in *. unfold sound, touches. simpl.
  destruct Hdb as [-> | Hdb]; [by destruct w0|]. split_and!; [done|by apply (HJ w0)|done|].
  rewrite Hdb. intros c Hc. apply Ho. by intros ->.
Qed.

Section chat.
Context (rq : Request) (Hrq : request_ok app rq).

(** The transactions of a request on conversation [c] with history [ms]. *)
Inductive writes (c : string) (ms : list obj) : store_op → Prop :=
| writes_ensure : writes c ms (OpEnsure c)
| writes_inbound : writes c ms (OpReconcile (rq_stamp rq) c ms None)
| writes_answer m md : obj_wf m → writes c ms (OpReconcile (rq_stamp rq) c (ms ++ [m]) md).

Section conversation.
Context (c : string) (ms : list obj) (HN : N c) (Hms : Forall obj_wf ms).
Context (Hwrites : ∀ op, writes c ms op → stable op).
Context (pl : obj) (Hpl : messages_of pl = ms).
Context (Hsends : ∀ world out,
  assembled c (usable_budget app) ms (oget pl "tools") world out → may_send world (outgoing pl out)).

Lemma inbound_goes w : goes (inbound_steps app rq c ms) w.
Proof.
  unfold inbound_steps. destruct (ap_store app); [|auto with steps].
  apply (goes_bind sound after touches).
  - apply (goes_catch sound after touches), (goes_bind sound after touches).
    + apply (goes_store _ _ (OpEnsure c)); [done|done| |done]. apply Hwrites. constructor.
    + intros _ w1 _. apply (goes_store _ _ (OpReconcile (rq_stamp rq) c ms None)); [done|done| |done].
      apply Hwrites. constructor.
  - intros [ids|e] w1 _; [auto with steps|].
    destruct e; try destruct (infrastructure_error _); auto with steps.
Qed.

Lemma items_wp w : wp (retrieve_items_steps server app rq c ms) (items_of c) w.
Proof.
  unfold retrieve_items_steps. assert (wp (mret [] : pio _) (items_of c) w) as Hnone.
  { apply (wp_done sound after touches). intros w' _. constructor. }
  destruct (ap_memory app) as [memory|]; [|done]. destruct (snonempty _); [|done].
  apply (wp_pio_bind sound after touches), (wp_catch sound after touches).
  eapply wp_mono; [|apply retrieve_wp]. intros r w1 Hr w2 Hl.
  destruct r as [items|[]]; apply (wp_done sound after touches); intros w3 Hl3; try done; try constructor.
  simpl in *. eapply Forall_impl; [exact Hr|]. intros item. apply stored_later. unfold after in *. by etrans.
Qed.

Lemma plan_wp tools w :
  wp (plan_steps server app rq c ms tools)
    (λ r w', match r with Ok out => assembled c (usable_budget app) ms tools (px_world w') out | Err _ => True end) w.
Proof.
  unfold plan_steps, usable_budget. destruct (ap_engine app) as [engine|].
  - apply (wp_pio_bind sound after touches). eapply wp_mono; [|apply items_wp].
    intros [items|e] w1 Hi; [|done].
    destruct (separate_current_request ms) as [[history current]|e] eqn:Es; [|by apply (wp_done sound after touches)].
    change (wp (lift (build engine history current tools [] items ∅ (Some c)) ≫=
      λ plan, mret (ep_messages plan) : pio (list obj)) (λ r w', match r with
      Ok out => assembled c (eng_usable engine) ms tools (px_world w') out | Err _ => True end) w1).
    destruct (build _ _ _ _ _ _ _ _) as [p|e] eqn:Ep; apply (wp_done sound after touches); [|done].
    intros w2 Hl. eapply assembled_later; [exact Hl|]. by eapply engine_assembles.
  - destruct (separate_current_request ms) as [[history current]|e] eqn:Es; [|by apply (wp_done sound after touches)].
    change (wp (lift (plan_context history current tools (ap_usable_budget app) (ap_pinned_budget app)) ≫=
      λ plan, mret (plan_messages plan) : pio (list obj)) (λ r w', match r with
      Ok out => assembled c (ap_usable_budget app) ms tools (px_world w') out | Err _ => True end) w).
    destruct (plan_context _ _ _ _ _) as [p|e] eqn:Ep; apply (wp_done sound after touches); [|done].
    intros w2 Hl. by eapply planner_assembles; [apply (rk_pinned _ _ Hrq)|exact Es|exact Ep].
Qed.

Lemma assemble_wp tools w :
  wp (assemble_steps server app rq c ms tools) (λ r w', match r with
    Ok (inl out) => assembled c (usable_budget app) ms tools (px_world w') out | _ => True end) w.
Proof.
  unfold assemble_steps. apply (wp_pio_bind sound after touches), (wp_catch sound after touches).
  eapply wp_mono; [|apply plan_wp]. intros r w1 Hr w2 Hl.
  destruct r as [out|[]]; apply (wp_done sound after touches); intros w3 Hl3; try done.
  eapply assembled_later; [|exact Hr]. unfold after in *. by etrans.
Qed.

Lemma index_memory_goes w : goes (index_memory_steps server app rq c) w.
Proof.
  unfold index_memory_steps. destruct (ap_memory app) as [memory|]; [|auto with steps].
  destruct (ap_auto_index app); [|auto with steps].
  apply (goes_timeout sound after touches); [|auto with steps].
  apply (goes_bind sound after touches); [|auto with steps].
  apply (goes_catch sound after touches), index_turns_goes.
Qed.

Lemma store_answer_goes store message md w :
  (∀ m, message = JObj m → obj_wf m) → goes (store_answer_steps server app rq store c ms message md) w.
Proof.
  intros Hm. unfold store_answer_steps.
  assert (∀ (r : res (list Z)) w1, goes (match r with
    | Ok _ => index_memory_steps server app rq c
    | Err (HistoryDivergenceError _ _ _) => mret tt
    | Err e => if infrastructure_error e then mret tt else lift (Err e)
    end : pio unit) w1) as Hr.
  { intros [ids|e] w1; [apply index_memory_goes|].
    destruct e; try destruct (infrastructure_error _); auto with steps. }
  assert (∀ A e w1, goes (on_world_step (on_store (rq_persist_up rq) (λ db, (Err (A:=A) e, db)))) w1) as Hidle.
  { intros A e w1. apply goes_idle. intros w0 _ Hi. rewrite on_store_idle. by apply idle_refl. }
  destruct message as [| | | | | |m]; try destruct store; auto with steps;
    (apply (goes_bind sound after touches); [apply (goes_catch sound after touches)|intros; apply Hr]); auto.
  apply (goes_store _ _ (OpReconcile (rq_stamp rq) c (ms ++ [m]) md)); [|done| |done].
  - simpl. apply Forall_app_2; [done|]. constructor; [by apply Hm|done].
  - apply Hwrites. constructor. by apply Hm.
Qed.

Lemma persist_goes store message md w :
  (∀ m, message = JObj m → obj_wf m) → goes (persist_assistant_steps server app rq store c ms message md) w.
Proof.
  intros Hm. unfold persist_assistant_steps. apply (goes_bind sound after touches).
  - apply goes_quiet. intros w0 Hi. split; [by apply idle_refl|done].
  - intros _ w1 _. by apply store_answer_goes.
Qed.

Lemma run_callbacks_goes store calls w :
  (∀ m md, (Some m, md) ∈ calls → obj_wf m) → goes (run_callbacks_steps server app rq store c ms calls) w.
Proof.
  unfold run_callbacks_steps. revert w. induction calls as [|[message md] calls IH]; intros w Hc; cbn [foldr].
  { auto with steps. }
  apply (goes_bind sound after touches).
  - apply (goes_catch sound after touches), persist_goes. destruct message as [m|]; [|done].
    intros ? [= <-]. eapply Hc, elem_of_cons. by left.
  - intros _ w1 _. apply IH. intros m md' Hin. eapply Hc, elem_of_cons. by right.
Qed.

(** What the assembly has made is what is handed to the provider. *)
Lemma goes_call {A} (f : obj → S → res A * S) out w :
  assembled c (usable_budget app) ms (oget pl "tools") (px_world w) out →
  goes (atomic (call_llm f (outgoing pl out))) w.
Proof.
  intros Hout. apply (goes_atomic sound after touches). intros w0 Hl [Hi HJ].
  unfold call_llm. destruct (f _ _) as [r s]. split_and!; [split; [done|]|by unfold after|by intros c' _].
  apply (Hsends (px_world w0)); [by eapply assembled_later|done..].
Qed.

Lemma forward_goes store out w :
  assembled c (usable_budget app) ms (oget pl "tools") (px_world w) out →
  goes (forward_steps server app rq store c pl out) w.
Proof.
  intros Hout. unfold forward_steps. rewrite Hpl. destruct (is_true _).
  - unfold forward_stream_steps. apply (goes_bind sound after touches); [by apply goes_call|].
    intros [stream|e] w1 _; [|auto with steps].
    apply (goes_bind sound after touches); [|auto with steps].
    apply run_callbacks_goes. intros m md. apply iter_bytes_wf; [apply json_loads_wf|apply (rk_capture _ _ Hrq)].
  - unfold forward_buffered_steps. apply (goes_bind sound after touches); [by apply goes_call|].
    intros [[[status hs] content]|e] w1 _; [|auto with steps].
    apply (goes_bind sound after touches); [|auto with steps].
    destruct (_ && _); [|auto with steps].
    destruct (buffered_message content) as [[message md]|] eqn:E; [|auto with steps].
    apply persist_goes. intros m ->. by apply buffered_message_wf in E.
Qed.

Lemma serve_goes w : goes (serve_steps server app rq c pl) w.
Proof.
  unfold serve_steps. rewrite Hpl. apply (goes_bind sound after touches); [apply inbound_goes|].
  intros [store|response] w1 _; [|auto with steps].
  apply (goes_bind_wp sound after touches). eapply wp_mono; [|apply assemble_wp].
  intros [[out|response]|e] w2 Hout; [by apply forward_goes|auto with steps|done].
Qed.
End conversation.

(** The conversations the request may turn out to belong to. *)
Definition names (c : string) : Prop :=
  ∃ raw n payload drawn, read_payload rq = Ok raw ∧
    resolve_conversation_id (rq_headers rq) raw (ap_conversation app) (uuid_at n) = Ok (c, payload, drawn).

Definition history_of : list obj :=
  match read_payload rq with Ok raw => messages_of raw | Err _ => [] end.

Lemma history_of_wf : Forall obj_wf history_of.
Proof.
  unfold history_of. destruct (read_payload rq) as [raw|e] eqn:Er; [|done].
  apply messages_of_wf, (rk_body _ _ Hrq), (read_payload_inv rq raw Er).
Qed.

(** What the request may hand to the provider: its own payload, after validation,
    with the messages that the assembly has chosen. *)
Definition admissible (world : World) (sent : obj) : Prop :=
  ∃ raw c out, rq_body rq = inl (JObj raw) ∧ validate_chat_payload (JObj raw) = Ok tt ∧ names c ∧
    sent = outgoing (ddel raw "conversation_id") out ∧
    assembled c (usable_budget app) (messages_of raw) (oget raw "tools") world out.

Lemma admissible_later world world' sent : later world world' → admissible world sent → admissible world' sent.
Proof.
  intros Hl (raw & c & out & ? & ? & ? & ? & Ha). exists raw, c, out. split_and!; try done.
  by eapply assembled_later.
Qed.

Lemma chat_goes w :
  (∀ c, names c → N c ∧ ∀ op, writes c history_of op → stable op) →
  (∀ world sent, admissible world sent → may_send world sent) →
  goes (chat_steps server app rq) w.
Proof.
  intros Hall Hsend. unfold chat_steps. destruct (read_payload rq) as [raw|e] eqn:Er.
  2: { destruct (value_error e); auto with steps. }
  destruct (read_payload_inv rq raw Er) as [Hb Hv].
  apply (goes_try_step sound after touches). intros w0 _ Hs.
  rewrite identify_eq. set (n := db_draws _).
  destruct (resolve_conversation_id _ _ _ _) as [[[c payload] drawn]|e] eqn:Ei.
  - assert (idle (px_world w0) (px_world (if drawn then bumped w0 else w0))) as Hidle.
    { destruct drawn; [apply idle_bump, Hs|apply idle_refl, Hs]. }
    assert (px_sent (if drawn then bumped w0 else w0) = px_sent w0) as Hsent by by destruct drawn.
    destruct (idle_fine _ _ Hidle Hsent Hs) as (? & ? & ?). split_and!; try done.
    assert (names c) as Hc by by exists raw, n, payload, drawn.
    destruct (Hall c Hc) as [HN Hw]. unfold history_of in Hw. rewrite Er in Hw.
    apply resolve_payload in Ei as ->.
    apply (serve_goes c (messages_of raw)); [done| |done|apply messages_of_ddel|].
    + apply messages_of_wf, (rk_body _ _ Hrq _ Hb).
    + intros world out Ha. apply Hsend. exists raw, c, out. split_and!; try done.
      unfold oget in Ha. by rewrite dget_ddel_ne in Ha.
  - split_and!; [done|done|done|]. destruct e; auto with steps.
Qed.
End chat.

(** *** The internal routes *)

Section internal.
Context (db_up : bool) (now : Q).

Lemma with_uuid_goes {A} value what (k : Z → pio (A + HTTPException)) w :
  (∀ id, goes (k id) w) → goes (with_uuid_steps value what k) w.
Proof. intros Hk. unfold with_uuid_steps. destruct (uuid_parse value); [apply Hk|apply goes_mret]. Qed.

Lemma with_memory_goes {A} (k : MemoryService → pio (A + HTTPException)) w :
  (∀ m, goes (k m) w) → goes (with_memory_steps app k) w.
Proof. intros Hk. unfold with_memory_steps. destruct (ap_memory app); [apply Hk|apply goes_mret]. Qed.

Lemma create_memory_goes spec w : goes (create_memory_steps server app now spec) w.
Proof.
  unfold create_memory_steps. apply with_uuid_goes. intros _.
  destruct (mc_supersedes spec); [apply with_uuid_goes; intros _|]; apply with_memory_goes; intros m;
    (apply (goes_bind sound after touches); [apply (goes_catch sound after touches), create_goes|]);
    intros [id|e] w1 _; try destruct (value_error e); auto with steps.
Qed.

Lemma idle_supersede (memory : option MemoryService) engine id status w :
  index_ok w → idle w (dispatch server memory engine db_up now (SupersedeMemory id status) w).2.
Proof.
  intros Hi. simpl. unfold supersede_route, with_uuid, with_memory.
  destruct (uuid_parse id) as [z|]; [|by apply idle_refl]. destruct memory; [|by apply idle_refl].
  pose proof (idle_tables w (MSupersede z status) Hi I I) as H. cbn [run_mem_op] in H.
  unfold mbind, io_bind, on_tables. destruct (supersede_memory z status (w_mem w)) as [b st]. by destruct b.
Qed.

Lemma preview_goes c messages tools w : goes (preview_route_steps server app db_up now c messages tools) w.
Proof.
  unfold preview_route_steps. apply with_uuid_goes. intros id. destruct (ap_engine app) as [eng|]; [|auto with steps].
  destruct (validate_chat_payload _) as [u|[]]; [|auto with steps..].
  apply (goes_bind sound after touches); [auto with steps|]. intros split w1 _.
  apply (goes_bind sound after touches).
  - unfold preview_items_steps. destruct (ap_memory app) as [m|]; [|auto with steps].
    destruct (snonempty _); [|auto with steps]. apply (goes_bind sound after touches).
    + apply (goes_catch sound after touches), retrieve_goes.
    + intros [items|[]] w2 _; auto with steps.
  - intros retrieved w2 _. destruct (build _ _ _ _ _ _ _ _) as [plan|[]]; auto with steps.
Qed.

Lemma internal_goes security hs r w : goes (internal_route_steps server app security db_up now hs r) w.
Proof.
  unfold internal_route_steps. destruct (require_internal_auth _ _) as [[exc|]|e]; [auto with steps| |auto with steps].
  unfold dispatch_steps. destruct r.
  - apply create_memory_goes.
  - apply goes_idle. intros w0 _ Hi. by apply idle_supersede.
  - apply with_uuid_goes. intros id. apply with_memory_goes. intros m.
    apply (goes_bind sound after touches); [apply retrieve_goes|auto with steps].
  - apply with_uuid_goes. intros id. apply with_memory_goes. intros m.
    apply (goes_bind sound after touches); [apply index_turns_goes|auto with steps].
  - apply with_memory_goes. intros m.
    assert (∀ scope w, goes (summary ← rebuild_steps server m scope force;
      (mret (inl (Rebuilt summary)) : pio (internal_response + HTTPException))) w) as H.
    { intros scope w1. apply (goes_bind sound after touches); [apply rebuild_goes|auto with steps]. }
    destruct conversation_id as [[|x c]|]; [apply H| |apply H]. apply with_uuid_goes. intros id. apply H.
  - apply preview_goes.
Qed.
End internal.

(** *** Any request *)

Definition request_names (x : proxy_request) (c : string) : Prop :=
  match x with ChatRequest rq => names rq c | _ => False end.

(** What a request may write to the store. *)
Definition request_writes (x : proxy_request) (op : store_op) : Prop :=
  match x with ChatRequest rq => ∃ c, names rq c ∧ writes rq c (history_of rq) op | _ => False end.

(** What it may hand to the provider. *)
Definition request_sends (x : proxy_request) (world : World) (sent : obj) : Prop :=
  match x with ChatRequest rq => admissible rq world sent | _ => False end.

Lemma request_goes security x w :
  proxy_request_ok app x → (∀ c, request_names x c → N c) → (∀ op, request_writes x op → stable op) →
  (∀ world sent, request_sends x world sent → may_send world sent) →
  goes (request_steps server app security x) w.
Proof.
  intros Hok HN Hw Hsend. destruct x as [rq| |hs db_up now r]; cbn [request_steps].
  - apply (goes_pbind sound after touches); [|auto with steps]. apply chat_goes; [done| |done].
    intros c Hc. split; [by apply HN|]. intros op Hop. apply Hw. by exists c.
  - apply (goes_pbind sound after touches); [|auto with steps]. apply goes_quiet. intros w0 Hi.
    unfold list_models. destruct (llm_list_models _). split; [by apply idle_refl|done].
  - apply (goes_pbind sound after touches); [|auto with steps]. apply internal_goes.
Qed.
End programs.

(** ** Interleavings *)

Section interleaving.
Context {host : Host} {pg : Postgres} {laws : PostgresLaws} {uu : Uuids} {si : SessionIds} {se : Search}.
Context {utf8 : Utf8} {jlaws : JsonLaws}.
Context {S : Type} {llm : LLMProvider S}.
Context (server : nat → request → reply) (app : App) (security : SecuritySettings).

(** Requests come in at any time. *)
Definition arrives (x : proxy_request) (p : prog (Proxy S) outcome) : Prop :=
  proxy_request_ok app x ∧ p = request_steps server app security x.

(** What a request answers, and the state it leaves, when nothing else runs. *)
Definition serve_outcome (x : proxy_request) (w : Proxy S) : outcome * Proxy S :=
  match x with
  | ChatRequest rq => let '(r, w') := chat_completions server app rq w in (inl r, w')
  | ModelsRequest => let '(r, w') := list_models w in (inl r, w')
  | InternalRequest hs db_up now r =>
      let '(r, w') := on_world (internal_route server security (ap_memory app) (ap_engine app) db_up now hs r) w in
      (inr r, w')
  end.

Lemma request_runs x w : run (request_steps server app security x) w = serve_outcome x w.
Proof.
  destruct x as [rq| |hs db_up now r]; unfold request_steps, serve_outcome; rewrite run_bind.
  - rewrite chat_runs. by destruct (chat_completions _ _ _ _).
  - rewrite runs_atomic. by destruct (list_models _).
  - rewrite internal_runs. by destruct (on_world _ _).
Qed.

(** Alone, the steps of a request are its handler.  A request that nothing
    interrupts runs to its end, with the answer and in the state that the
    handlers, taken as single computations, give it. *)
Theorem request_alone (x : proxy_request) (w : Proxy S) (ps : procs (Proxy S) proxy_request outcome) :
  let p := request_steps server app security x in
  let '(o, w') := serve_outcome x w in
  run p w = (o, w') ∧ w' = serve_request server app security w x ∧
  rtc (step arrives) (w, ps ++ [(x, Some p)]) (w', ps ++ [(x, Some (Done o))]).
Proof.
  intros p. pose proof (request_runs x w) as Hrun. fold p in Hrun.
  pose proof (run_steps arrives p w (ps ++ [(x, Some p)]) (length ps) x) as Hsteps.
  rewrite list_lookup_middle // Hrun in Hsteps. specialize (Hsteps eq_refl).
  destruct (serve_outcome x w) as [o w'] eqn:E. rewrite insert_app_r_alt // Nat.sub_diag /= in Hsteps.
  split_and!; [done| |done].
  unfold serve_outcome, serve_request in *. destruct x as [rq| |hs db_up now r];
    [destruct (chat_completions _ _ _ _)|destruct (list_models _)|destruct (on_world _ _)]; by simplify_eq/=.
Qed.

(** What the requests at work keep always holds, and what all their steps have in
    common holds between beginning and end. *)
Lemma run_system (J : Proxy S → Prop) (R : Proxy S → Proxy S → Prop) `{!PreOrder R} w w' ps :
  (∀ w w', idle (px_world w) (px_world w') → px_sent w' = px_sent w → J w → J w') →
  (∀ x op, x ∈ ps.*1 → proxy_request_ok app x → request_writes app x op → stable J op) →
  (∀ x world sent, x ∈ ps.*1 → request_sends app x world sent → may_send J world sent) →
  (∀ x w w', x ∈ ps.*1 → after w w' → touches (request_names app x) w w' → R w w') →
  index_ok (px_world w) → J w → rtc (step arrives) (w, []) (w', ps) → sound J w' ∧ R w w'.
Proof.
  intros HJ Hw Hsend HR Hi HJw Hsteps%steps_joined.
  destruct (steps_sys_ok (sound J) after (λ x, touches (request_names app x))
    (λ x p, arrives x p ∧ x ∈ ps.*1) (λ _ _ _, True) (λ x, x ∈ ps.*1) R (w, []) (w', ps)) as [[Hs _] HRw]; try done.
  - intros x p w1 [[Hok ->] Hin] _. apply (request_goes server app J); [done|done|done| |].
    + intros op. by apply Hw.
    + intros world sent. by apply (Hsend x).
  - by intros x p [_ ?].
Qed.


End interleaving.

(** ** A sample interleaving *)

#[local] Existing Instances sample_host sample_postgres sample_laws sample_uuids sample_search.
#[local] Existing Instances sample_sessions sample_utf8 sample_json_laws.

#[local] Instance sample_llm : LLMProvider ProviderState :=
  openai_compatible default_ResilienceSettings (answering "answer").

(** A second turn. *)
Definition longer_rq : Request :=
  MkRequest (inl (JObj [("model", JStr "m");
                        ("messages", JList (JObj <$> [chat_message "user" "one"; chat_message "assistant" "two";
                                                      chat_message "user" "three"]));
                        ("conversation_id", JStr (unary_str 4))]))
    [] 0 0 true true true.

Lemma longer_request_ok : request_ok sample_app longer_rq.
Proof.
  split; [|done..]. intros v [= <-]. cbn. unfold dwf.
  split_and!; done || by apply (bool_decide_unpack _).
Qed.

Definition sample_rebuild : proxy_request :=
  InternalRequest [("x-internal-auth", "secret")] true 1 (RebuildIndex None true).

Definition sample_program (x : proxy_request) : prog (Proxy ProviderState) Concurrency.outcome :=
  request_steps good_server sample_app sample_security x.

(** The time limit of the indexing passes once the turn is chunked and embedded, and
    a rebuild that ran beside it is cancelled after it has sent the point and before
    it has marked the chunk. *)
Definition interrupted : Proxy ProviderState * procs (Proxy ProviderState) proxy_request Concurrency.outcome :=
  foldl make_move
    (sample_proxy, [(ChatRequest longer_rq, Some (sample_program (ChatRequest longer_rq)));
                    (sample_rebuild, Some (sample_program sample_rebuild))])
    (replicate 13 (Go 0) ++ replicate 5 (Go 1) ++ [Late 0; Go 0; Cancel 1]).

Lemma interrupted_reached :
  rtc (step (arrives good_server sample_app sample_security)) (sample_proxy, []) (interrupted.1, interrupted.2).
Proof.
  rewrite -surjective_pairing.
  eapply rtc_l; [apply (StepJoins _ _ _ (ChatRequest longer_rq)); split; [exact longer_request_ok|reflexivity]|].
  eapply rtc_l; [apply (StepJoins _ _ _ sample_rebuild); by split|]. apply moves_steps.
Qed.

Definition rows_after (st : Proxy ProviderState * procs (Proxy ProviderState) proxy_request Concurrency.outcome)
    (c : string) : list MessageRow := rows_of (me_db (w_mem (px_world st.1))) c.


(** A request that recalls: it sends only the beginning of the conversation, while
    the turn is being indexed. *)
Definition short_rq : Request :=
  MkRequest (inl (JObj [("model", JStr "m"); ("messages", JList [JObj (chat_message "user" "one")]);
                        ("conversation_id", JStr (unary_str 4))]))
    [] 0 0 true true true.

Lemma short_request_ok : request_ok sample_app short_rq.
Proof.
  split; [|done..]. intros v [= <-]. cbn. unfold dwf.
  split_and!; done || by apply (bool_decide_unpack _).
Qed.

Definition recalling : Proxy ProviderState * procs (Proxy ProviderState) proxy_request Concurrency.outcome :=
  foldl make_move
    (sample_proxy, [(ChatRequest longer_rq, Some (sample_program (ChatRequest longer_rq)));
                    (ChatRequest short_rq, Some (sample_program (ChatRequest short_rq)))])
    (replicate 13 (Go 0) ++ replicate 30 (Go 1) ++ replicate 30 (Go 0)).

Lemma recalling_reached :
  rtc (step (arrives good_server sample_app sample_security)) (sample_proxy, []) (recalling.1, recalling.2).
Proof.
  rewrite -surjective_pairing.
  eapply rtc_l; [apply (StepJoins _ _ _ (ChatRequest longer_rq)); split; [exact longer_request_ok|reflexivity]|].
  eapply rtc_l; [apply (StepJoins _ _ _ (ChatRequest short_rq)); split; [exact short_request_ok|reflexivity]|].
  apply moves_steps.
Qed.

