(* ===== verification/Retries.v ===== *)
(** * Concurrent retries of one request

    A client that hears nothing sends its request again, perhaps while the first one
    is still at work.  Both carry the same history and are answered apart; only one
    answer may enter the transcript. *)

From stdpp Require Import gmap relations.
From Stdlib Require Import QArith.
From S2P Require Import Prelude PyDict PyString Json Planner Reconciliation Candidates Engine Store Memory Services Retrieval.
From S2P Require Import Resilience Capture Http Identity Provider Routes Internal Steps Concurrency Stability Interleaving.
Local Open Scope Z_scope.

(** ** The transcript while the requests are at work *)

Section turn.
Context {host : Host}.
(** The transcript before, and the history that all requests send. *)
Context (before sent : list obj).

Inductive turn : list obj → Prop :=
| turn_before : turn before
| turn_asked new : matches (before ++ new) sent → turn (before ++ new)
| turn_answered new answer : matches (before ++ new) sent → turn (before ++ new ++ [answer]).

(** The history continues what is stored. *)
Definition continues : Prop := ∃ known new, sent = known ++ new ∧ matches before known.

(** Whatever a request stores, its history or its history with an answer, the
    transcript goes through these states only. *)
Lemma turn_step p incoming new stored :
  continues → turn p → (incoming = sent ∨ ∃ m, incoming = sent ++ [m]) →
  new_messages p incoming = Some new → matches stored new → turn (p ++ stored).
Proof.
  intros (known & tail & Esent & Hk) Hp Hin Hnew Hst. destruct Hp as [|added H|added a H].
  - destruct Hin as [->|[m ->]]; rewrite Esent -?app_assoc new_messages_extends // in Hnew; injection Hnew as <-.
    + apply turn_asked. rewrite Esent. by apply Forall2_app.
    + apply Forall2_app_inv_r in Hst as (stored' & [|a l] & Hst & Ha & ->); inversion Ha as [|? ? ? ? _ Hnil].
      inversion Hnil. subst. apply turn_answered. rewrite Esent. by apply Forall2_app.
  - destruct Hin as [->|[m ->]].
    + pose proof (new_messages_extends _ _ [] H) as E. rewrite app_nil_r Hnew in E. injection E as ->.
      inversion Hst. rewrite app_nil_r. by apply turn_asked.
    + rewrite new_messages_extends // in Hnew. injection Hnew as <-.
      inversion Hst as [|a ? ? ? _ Hnil]. inversion Hnil. subst. rewrite -app_assoc. by apply turn_answered.
  - rewrite app_assoc in Hnew. assert (stored = []) as ->; [|rewrite app_nil_r; by apply turn_answered].
    destruct Hin as [->|[m ->]].
    + rewrite new_messages_fewer // in Hnew. injection Hnew as <-. by inversion Hst.
    + destruct (equivalent a m) eqn:Ea; [|by rewrite new_messages_other in Hnew].
      assert (matches ((before ++ added) ++ [a]) (sent ++ [m])) as Hsame by (apply Forall2_app; [done|by constructor]).
      pose proof (new_messages_extends _ _ [] Hsame) as E. rewrite app_nil_r Hnew in E.
      injection E as ->. by inversion Hst.
Qed.
End turn.

(** ** The store *)

Section store.
Context {host : Host} {pg : Postgres} {laws : PostgresLaws} {uu : Uuids}.

Lemma fetch_messages_same db db' c :
  db_messages db' = db_messages db → _fetch_messages db' c = _fetch_messages db c.
Proof. intros E. unfold _fetch_messages, conversation_rows. by rewrite E. Qed.

Lemma stored_matches new stored :
  Forall obj_wf new → Forall2 (λ d m, obj_wf d ∧ py_eq (JObj d) (JObj m) = true) stored new → matches stored new.
Proof.
  intros Hwf H. induction H as [|d m ds ms [Hd Heq] _ IH]; constructor; inversion_clear Hwf;
    [by apply equivalent_py_eq|by apply IH].
Qed.

Lemma new_messages_wf p incoming new : Forall obj_wf incoming → new_messages p incoming = Some new → Forall obj_wf new.
Proof.
  intros Hwf. unfold new_messages. case_decide; [done|].
  destruct (append_from _); intros [= <-]; [by apply Forall_drop|constructor].
Qed.

(** A reconciliation appends what it has found to be new, or nothing. *)
Lemma reconcile_appends now c ms md db p :
  db_ok db → Forall obj_wf ms → get_messages c db = Ok p →
  ∃ stored, get_messages c (reconcile_history now c ms md db).2 = Ok (p ++ stored) ∧
    (stored = [] ∨ ∃ new, new_messages p ms = Some new ∧ matches stored new).
Proof.
  intros Hok Hwf Hp. destruct (reconcile_history now c ms md db) as [r db'] eqn:E. simpl.
  apply (reconcile_inv (λ p i, divergence c (Nat.min (length p) (length i))
    (p !! Nat.min (length p) (length i)) (i !! Nat.min (length p) (length i)))) in E
    as (p' & Hp' & H); [|done..].
  unfold get_messages in *. rewrite Hp in Hp'. injection Hp' as <-. destruct r as [ids|e].
  - destruct H as (new & Hnew & [_ _ _ _ _ Hf]). destruct (Hf _ Hp) as (stored & Hg & Hs).
    exists stored. split; [done|]. right. exists new. split; [done|].
    apply stored_matches; [by eapply new_messages_wf|done].
  - destruct H as [-> _]. exists []. rewrite app_nil_r. auto.
Qed.

(** The transcript of [c] is as it should be while [sent] is retried. *)
Definition retrying (c : string) (before sent : list obj) (db : DB) : Prop :=
  ∃ p, get_messages c db = Ok p ∧ turn before sent p.

Lemma retrying_messages c before sent db db' :
  db_messages db' = db_messages db → retrying c before sent db → retrying c before sent db'.
Proof. intros E (p & Hp & Ht). exists p. split; [|done]. unfold get_messages. by rewrite (fetch_messages_same db). Qed.

Lemma retrying_write rq c c' before sent op db :
  continues before sent → (c' = c → history_of rq = sent) → Forall obj_wf (history_of rq) →
  writes rq c' (history_of rq) op → db_ok db → retrying c before sent db →
  retrying c before sent (run_op op db).2.
Proof.
  intros Hc Hsame Hwf Hop Hok (p & Hp & Ht).
  assert (op_wf op ∧ op_conversation op = c') as [Hopwf Hconv].
  { destruct Hop; simpl; split; try done. apply Forall_app_2; [done|]. by constructor. }
  destruct (decide (c' = c)) as [Ec|Hne].
  2: { destruct (run_op_ok op db Hok Hopwf) as [Hok' _ Ho _]. exists p. split; [|done].
       unfold get_messages, _fetch_messages in *. rewrite !conversation_rows_ok // in Hp |- *.
       rewrite Ho //. congruence. }
  rewrite (Hsame Ec) in Hop Hwf. clear Hsame Hconv Hopwf. destruct Hop as [| |m md Hm]; subst c'.
  - exists p. split; [|done]. simpl. by rewrite /get_messages fetch_ensure.
  - destruct (reconcile_appends (rq_stamp rq) c sent None db p) as (stored & Hg & [->|(new & Hn & Hm)]); [done..| |].
    + exists p. rewrite app_nil_r in Hg. by split.
    + exists (p ++ stored). split; [done|]. eapply turn_step; [done|done|by left|done|done].
  - destruct (reconcile_appends (rq_stamp rq) c (sent ++ [m]) md db p) as (stored & Hg & [->|(new & Hn & Hmt)]);
      [done| |done| |].
    + apply Forall_app_2; [done|]. by constructor.
    + exists p. rewrite app_nil_r in Hg. by split.
    + exists (p ++ stored). split; [done|]. eapply turn_step; [done|done|right; by exists m|done|done].
Qed.
End store.

(** ** The proxy *)

Section retries.
Context {host : Host} {pg : Postgres} {laws : PostgresLaws} {uu : Uuids} {si : SessionIds} {se : Search}.
Context {utf8 : Utf8} {jlaws : JsonLaws}.
Context {S : Type} {llm : LLMProvider S}.
Context (server : nat → request → reply) (app : App) (security : SecuritySettings).

End retries.

(** ** Two clients' sends of one request *)

#[local] Existing Instances sample_host sample_postgres sample_laws sample_uuids sample_search.
#[local] Existing Instances sample_sessions.

(** The provider's answers, and what they parse to. *)
Definition said (text : string) : json :=
  JObj [("choices", JList [JObj [("message", JObj (chat_message "assistant" text))]])].

#[local] Instance two_answers : Utf8 := {|
  utf8_decode := id;
  json_loads_bytes s := if bool_decide (s = "first") then Some (said "hello")
                        else if bool_decide (s = "second") then Some (said "good day") else None;
|}.

#[local] Instance two_answers_laws : JsonLaws.
Proof.
  split; [done|]. intros s v. simpl. repeat case_bool_decide; intros [= <-]; cbn;
    unfold dwf; split_and!; done || by apply (bool_decide_unpack _).
Qed.

(** It answers the same request differently each time. *)
Definition fickle : Upstream :=
  MkUpstream (λ n _ _, Answer (MkLLMStream 200 [("Content-Type", "application/json")]
                                 [if bool_decide (n = 0%nat) then "first" else "second"] Exhausted))
    (λ _ _, 0%Q) (λ _, 0%Q) (λ _, 1%Q).

#[local] Instance fickle_provider : LLMProvider ProviderState := openai_compatible default_ResilienceSettings fickle.

Definition sample_steps : prog (Proxy ProviderState) outcome :=
  request_steps good_server sample_app sample_security (ChatRequest sample_rq).

(** The second send overtakes the first after the provider has answered it. *)
Definition overtaking : Proxy ProviderState * procs (Proxy ProviderState) proxy_request outcome :=
  foldl make_move
    (sample_proxy, [(ChatRequest sample_rq, Some sample_steps); (ChatRequest sample_rq, Some sample_steps)])
    (replicate 10 (Go 0) ++ replicate 20 (Go 1) ++ replicate 20 (Go 0)).

Lemma overtaking_reached :
  rtc (step (arrives good_server sample_app sample_security)) (sample_proxy, []) (overtaking.1, overtaking.2).
Proof.
  rewrite -surjective_pairing.
  do 2 (eapply rtc_l; [apply (StepJoins _ _ _ (ChatRequest sample_rq)); split; [exact sample_request_ok|reflexivity]|]).
  apply moves_steps.
Qed.


(** ** A retry that is not safe *)

(** A client that sends the end of the history only, and whose new message is answered
    as an earlier one was: repeating the request finds that earlier answer and takes
    what is stored already for new, and so does the answer of a concurrent request. *)
Example repeated_answer_duplicates :
  let persisted := [chat_message "user" "first"; chat_message "assistant" "ok";
                    chat_message "user" "second"; chat_message "assistant" "ok"] in
  let request := [chat_message "assistant" "ok"; chat_message "user" "second"] in
  new_messages (take 2 persisted) request = Some [chat_message "user" "second"] ∧
  new_messages persisted request = Some [chat_message "user" "second"] ∧
  new_messages persisted (request ++ [chat_message "assistant" "fine"])
  = Some [chat_message "user" "second"; chat_message "assistant" "fine"].
Proof. vm_compute. auto. Qed.
