(* ===== verification/Traffic.v ===== *)
(** * Traffic: the server under concurrent requests

    [Server.handle] takes one request at a time.  Here a request is a program of steps
    from the middleware through the routes of [Concurrency] and back, so that any
    number of them can be at different points of it, share the limiter, the
    collectors, the tables and the provider, and be cut short. *)

From stdpp Require Import gmap relations.
From Stdlib Require Import QArith.
From S2P Require Import Prelude PyDict PyString Json Store Memory Services Retrieval Resilience RateLimit Capture Http Identity Provider.
From S2P Require Import Routes Internal Metrics Middleware Migrations Settings Main Diagnostics Server Steps Concurrency Stability Interleaving.
Local Open Scope Z_scope.

(** The server and the last reading of the monotonic clock. *)
Record Running : Type := MkRunning {
  ru_clock : Q;
  ru_server : Server;
}.

Definition proxy_of (w : Running) : Proxy ProviderState := sr_proxy (ru_server w).

Definition set_proxy (p : Proxy ProviderState) (w : Running) : Running :=
  MkRunning (ru_clock w) (MkServer (sr_state (ru_server w)) (sr_middleware (ru_server w)) p).

Definition on_middleware {X} (f : ObservabilityMiddleware → X * ObservabilityMiddleware) (w : Running)
    : X * Running :=
  let '(x, mw) := f (sr_middleware (ru_server w)) in
  (x, MkRunning (ru_clock w) (MkServer (sr_state (ru_server w)) mw (proxy_of w))).

(** A reading is never before an earlier one. *)
Definition read_clock (time : Q) (w : Running) : Q :=
  if Qle_bool (ru_clock w) time then time else ru_clock w.

(** The checks before the body is read. *)
Inductive verdict : Type :=
| Passes (max_body_bytes : Z)
| Refuses (response : Response)
| Breaks (e : exn).

(** ** Programs *)

Section programs.
Context {host : Host} {pg : Postgres} {uu : Uuids} {si : SessionIds} {se : Search} {utf8 : Utf8} {checks : UrlChecks}.
Context (server : nat → request → reply) (up : Upstream).
Context (render : Response → headers * list string) (reason : string → string).
Context (parse_internal : Scope → string → option internal_request).
Context (internal_json : internal_response → json) (not_found : Response).
Context (registry : list Collector).
Context (a : AppState).

Definition preflight (sp : Scope) (now : Q) (mw : ObservabilityMiddleware) : verdict * ObservabilityMiddleware :=
  match declared_too_large (_header sp "content-length") (mw_max_body_bytes mw) with
  | Err e => (Breaks e, mw)
  | Ok true => (Refuses (too_large mw), mw)
  | Ok false =>
      match mw_limiter mw with
      | Some rl =>
          if mw_rate_limit_enabled mw
             && bool_decide (normalize_route (sp_path sp) ∉ RATE_LIMIT_EXEMPT_ROUTES)
          then
            match RateLimiter_admit rl (_client_host sp) (_header sp "x-conversation-id") now with
            | Err e => (Breaks e, mw)
            | Ok (d, rl) =>
                let mw := set_limiter rl mw in
                if allowed d then (Passes (mw_max_body_bytes mw), mw)
                else (Refuses (rate_limited d), count_reject mw)
            end
          else (Passes (mw_max_body_bytes mw), mw)
      | None => (Passes (mw_max_body_bytes mw), mw)
      end
  end.

(** The identities in the limiter. *)
Definition live_now (w : Running) : Z :=
  match mw_limiter (sr_middleware (ru_server w)) with Some rl => identity_count rl | None => 0 end.

Section request.
Context (ar : arrival).

Definition preflight_step (w : Running) : verdict * Running :=
  let now := read_clock (ar_now ar) w in
  let '(v, mw) := preflight (ar_scope ar) now (sr_middleware (ru_server w)) in
  (v, MkRunning now (MkServer (sr_state (ru_server w)) mw (proxy_of w))).

(** The routes; all but the chat and the internal ones make at most one step. *)
Definition route_steps (body : string + string) : prog Running (res Response) :=
  let text := match body with inl s => s | inr _ => EmptyString end in
  let llm := openai_compatible (resilience (st_settings a)) up in
  match route parse_internal (ar_scope ar) text with
  | ToChat => zoom proxy_of set_proxy (chat_steps server (route_app a) (request_of reason ar body))
  | ToModels => zoom proxy_of set_proxy (atomic list_models)
  | ToInternal r =>
      zoom proxy_of set_proxy
        (answered ← internal_route_steps server (route_app a) (security (st_settings a))
                      (ar_retrieval_up ar) (ar_now ar) (sp_headers (ar_scope ar)) r;
         mret (internal_answer internal_json answered))
  | ToHealth => Done (Ok (document 200 (healthz (ar_retrieval_up ar) a)))
  | ToReady =>
      zoom proxy_of set_proxy
        (v ← atomic (ready (ar_retrieval_up ar) (ar_now ar) a); mret (document 200 v))
  | ToMetrics => Done (Ok (prometheus_metrics registry))
  | ToDiagnostics =>
      Act (λ w, zoomed proxy_of set_proxy
             (on_breaker (diagnostics_route (sp_headers (ar_scope ar)) (ar_retrieval_up ar)
                            (ar_pool_size ar) (live_now w) (ar_now ar) a)) w)
          (λ r, Done (answered ← r; Ok (document_or answered)))
  | ToNothing => Done (Ok not_found)
  end.

Definition application_steps (given : list received) : prog Running (list sent * option exn) :=
  match request_body EmptyString given with
  | None => Done ([], None)
  | Some body =>
      pbind (route_steps body) (λ r, Done
        match r with
        | Ok response => (response_messages render response, raised_by (rs_body response))
        | Err e => ([], Some e)
        end)
  end.

Definition id_of : string := request_id_of (ar_scope ar) (ar_fresh ar).

(** The application, and the accounting for what it has sent. *)
Definition run_app_steps (given : list received) : prog Running run_result :=
  pbind (application_steps given) (λ out,
    Act (on_middleware (run_app (λ _ _, out) (ar_scope ar) id_of given)) Done).

Definition run_body_steps (max : Z) : prog Running run_result :=
  match _header (ar_scope ar) "content-length" with
  | Some _ => run_app_steps (ar_input ar)
  | None =>
      match _drain_body max 0 [] (ar_input ar) with
      | Oversized => Act (on_middleware (λ mw, reject render (ar_scope ar) id_of (too_large mw) mw)) Done
      | Disconnected => Act (on_middleware (λ mw, (MkRun [] None Returns, count_disconnect mw))) Done
      | Waiting => Done (MkRun [] None Waits)
      | Drained buffered rest => run_app_steps (_replaying_receive buffered rest)
      end
  end.

Definition handle_steps : prog Running run_result :=
  if negb (sp_http (ar_scope ar)) then
    pbind (application_steps (ar_input ar)) (λ '(messages, raised),
      Done (MkRun messages (Some (ar_input ar)) (match raised with Some e => Raises e | None => Returns end)))
  else
    Act preflight_step (λ v,
      match v with
      | Breaks e => Done (MkRun [] None (Raises e))
      | Refuses response => Act (on_middleware (reject render (ar_scope ar) id_of response)) Done
      | Passes max => run_body_steps max
      end).
End request.
End programs.

(** ** Alone, the programs are the server *)

Section alone.
Context {host : Host} {pg : Postgres} {uu : Uuids} {si : SessionIds} {se : Search} {utf8 : Utf8} {checks : UrlChecks}.
Context (server : nat → request → reply) (up : Upstream).
Context (render : Response → headers * list string) (reason : string → string).
Context (parse_internal : Scope → string → option internal_request).
Context (internal_json : internal_response → json) (not_found : Response).
Context (registry : list Collector).
Context (a : AppState).

Notation route_steps := (route_steps server up reason parse_internal internal_json not_found registry a).
Notation application_steps := (application_steps server up render reason parse_internal internal_json not_found registry a).
Notation handle_steps := (handle_steps server up render reason parse_internal internal_json not_found registry a).
Notation route_answer := (route_answer server up reason parse_internal internal_json not_found registry).
Notation application := (application server up render reason parse_internal internal_json not_found registry).
Notation handle := (handle server up render reason parse_internal internal_json not_found registry).

Lemma set_proxy_of w : set_proxy (proxy_of w) w = w.
Proof. by destruct w as [? []]. Qed.

Lemma run_on_proxy {A} (p : pio (Proxy ProviderState) A) m w :
  runs p m → run (zoom proxy_of set_proxy p) w = let '(r, p) := m (proxy_of w) in (r, set_proxy p w).
Proof. intros H. rewrite run_zoom; [done..|apply set_proxy_of|done|]. by rewrite H. Qed.

Lemma route_run ar body w :
  run (route_steps ar body) w =
  let '(r, p) := route_answer a (live_now w) ar body (proxy_of w) in (r, set_proxy p w).
Proof.
  unfold Traffic.route_steps, Server.route_answer. destruct (route _ _ _) as [| |r| | | | |];
    try by rewrite /= set_proxy_of.
  - apply run_on_proxy, chat_runs.
  - apply run_on_proxy, runs_atomic.
  - apply run_on_proxy, runs_bind; [apply internal_runs|]. intros answered. apply runs_ret.
  - apply run_on_proxy, runs_bind; [apply runs_atomic|]. intros v. apply runs_ret.
  - simpl. unfold zoomed, mbind, pio_bind. by destruct (on_breaker _ (proxy_of w)) as [[x|e] p].
Qed.

Lemma application_run ar given w :
  run (application_steps ar given) w =
  let '(out, p) := application a (live_now w) ar (proxy_of w) given in (out, set_proxy p w).
Proof.
  unfold Traffic.application_steps, Server.application.
  destruct (request_body _ _) as [body|]; [|by rewrite /= set_proxy_of].
  rewrite run_bind route_run. by destruct (route_answer _ _ _ _ _) as [r p].
Qed.

(** [call], from the checks on. *)
Lemma call_preflight app sp input fresh now mw :
  sp_http sp = true →
  call render app sp input fresh now mw =
  let '(v, mw) := preflight sp now mw in
  match v with
  | Breaks e => (MkRun [] None (Raises e), mw)
  | Refuses response => reject render sp (request_id_of sp fresh) response mw
  | Passes _ => run_body render app sp (request_id_of sp fresh) input mw
  end.
Proof.
  intros Hh. unfold call, preflight. rewrite Hh. cbn [negb]. fold (request_id_of sp fresh).
  destruct (declared_too_large _ _) as [[]|e]; [done| |done].
  destruct (mw_limiter mw) as [rl|]; [|done]. destruct (_ && _); [|done].
  destruct (RateLimiter_admit _ _ _ _) as [[d rl']|e]; [|done]. by destruct (allowed d).
Qed.

(** What it hands on, and the count of identities that the routes then see. *)
Lemma preflight_passes sp now mw max mw' :
  preflight sp now mw = (Passes max, mw') → max = mw_max_body_bytes mw'.
Proof.
  unfold preflight. destruct (declared_too_large _ _) as [[]|e]; [done| |done].
  destruct (mw_limiter mw) as [rl|]; [|by intros [= <- <-]]. destruct (_ && _); [|by intros [= <- <-]].
  destruct (RateLimiter_admit _ _ _ _) as [[d rl']|e]; [|done]. destruct (allowed d); [|done].
  by intros [= <- <-].
Qed.

Lemma preflight_live ar mw v mw' :
  preflight (ar_scope ar) (ar_now ar) mw = (v, mw') → (∃ max, v = Passes max) →
  live_identities mw ar = match mw_limiter mw' with Some rl => identity_count rl | None => 0 end.
Proof.
  unfold preflight, live_identities. intros E [max ->]. revert E.
  destruct (declared_too_large _ _) as [[]|e]; [done| |done].
  destruct (mw_limiter mw) as [rl|] eqn:El; [|by intros [= _ <-]; rewrite El].
  destruct (_ && _); [|by intros [= _ <-]; rewrite El].
  destruct (RateLimiter_admit _ _ _ _) as [[d rl']|e]; [|done]. destruct (allowed d); [|done].
  by intros [= _ <-].
Qed.

Lemma run_app_given app sp id given mw : run_app_input (run_app app sp id given mw).1 = Some given.
Proof. unfold run_app. by destruct (app sp given) as [messages [e|]]. Qed.

Lemma run_app_alone ar given w :
  run (run_app_steps server up render reason parse_internal internal_json not_found registry a ar given) w =
  let run given := application a (live_now w) ar (proxy_of w) given in
  let '(r, mw) := run_app (λ _ given, (run given).1) (ar_scope ar) (id_of ar) given (sr_middleware (ru_server w)) in
  (r, MkRunning (ru_clock w) (MkServer (sr_state (ru_server w)) mw
        match run_app_input r with Some given => (run given).2 | None => proxy_of w end)).
Proof.
  unfold run_app_steps. rewrite run_bind application_run. cbn zeta.
  pose proof (run_app_given (λ _ given, (application a (live_now w) ar (proxy_of w) given).1)
    (ar_scope ar) (id_of ar) given (sr_middleware (ru_server w))) as Hg.
  unfold run_app in *. destruct (application _ _ _ _ given) as [[messages raised] p] eqn:E. simpl in *.
  unfold on_middleware. simpl. destruct raised; simpl in *; by rewrite E.
Qed.

(** C7: The steps of a request are the server's.  A request that comes at a time not
    before the last reading of the clock, and that nothing interrupts, runs to its
    end with the result of [Server.handle] and leaves the server as that does: the
    middleware, the tables, the services and the provider. *)
Theorem handle_alone (ar : arrival) (w : Running) :
  sp_http (ar_scope ar) = true → (ru_clock w <= ar_now ar)%Q → sr_state (ru_server w) = a →
  run (handle_steps ar) w =
  let '(r, s) := handle (ru_server w) ar in (r, MkRunning (ar_now ar) s).
Proof.
  intros Hh Hle Ha. unfold Traffic.handle_steps, Server.handle. rewrite Hh call_preflight //. cbn [negb run].
  assert (read_clock (ar_now ar) w = ar_now ar) as Eclock.
  { unfold read_clock. by rewrite (proj2 (Qle_bool_iff _ _) Hle). }
  unfold preflight_step. rewrite Eclock.
  destruct (preflight _ _ _) as [v mw] eqn:Ep. destruct v as [max|response|e].
  - rewrite (preflight_live ar _ _ _ Ep (ex_intro _ max eq_refl)) (preflight_passes _ _ _ _ _ Ep) Ha.
    unfold run_body_steps, run_body.
    destruct (_header _ _); [|destruct (_drain_body _ _ _ _); [|done..]]; rewrite run_app_alone;
      unfold live_now, id_of; simpl; by destruct (run_app _ _ _ _ _).
  - simpl. by rewrite ?Ha.
  - simpl. by rewrite ?Ha.
Qed.
End alone.

(** ** Any traffic *)

Section traffic.
Context {host : Host} {pg : Postgres} {laws : PostgresLaws} {uu : Uuids} {si : SessionIds} {se : Search}.
Context {utf8 : Utf8} {jlaws : JsonLaws} {checks : UrlChecks}.
Context (server : nat → request → reply) (up : Upstream).
Context (render : Response → headers * list string) (reason : string → string).
Context (parse_internal : Scope → string → option internal_request).
Context (internal_json : internal_response → json) (not_found : Response).
Context (registry : list Collector).
Context (a : AppState) (Hv : valid (st_settings a)).

Notation route_steps := (route_steps server up reason parse_internal internal_json not_found registry a).
Notation application_steps := (application_steps server up render reason parse_internal internal_json not_found registry a).
Notation run_app_steps := (run_app_steps server up render reason parse_internal internal_json not_found registry a).
Notation run_body_steps := (run_body_steps server up render reason parse_internal internal_json not_found registry a).
Notation handle_steps := (handle_steps server up render reason parse_internal internal_json not_found registry a).

(** The invariant, and what any process may do. *)
Definition running (w : Running) : Prop := server_ok a (ru_server w) (ru_clock w).

Definition moves_on (w w' : Running) : Prop :=
  after (proxy_of w) (proxy_of w') ∧ (ru_clock w <= ru_clock w')%Q.

#[local] Instance moves_on_preorder : PreOrder moves_on.
Proof.
  split; [intros w; split; [by unfold after|apply Qle_refl]|].
  intros w1 w2 w3 [H1 C1] [H2 C2]. split; [unfold after in *; by etrans|by eapply Qle_trans].
Qed.

Notation any := (λ _ _, True).
Notation wp := (Steps.wp running moves_on any).
Notation goes := (Steps.goes running moves_on any).

Lemma zoom_goes {A} (p : prog (Proxy ProviderState) A) w :
  Steps.goes (sound (λ _, True)) after (touches (λ _, True)) p (proxy_of w) →
  goes (zoom proxy_of set_proxy p) w.
Proof.
  intros Hp. eapply (wp_goes running moves_on any), (wp_zoom proxy_of set_proxy); [done| | | |exact Hp].
  - intros w0 []. by split.
  - by intros w0 w1 [].
  - intros p1 w0 [E Hl Hm Hi] [Hi1 _] Ha _. split; [by split|]. split; [|done]. split; [done|apply Qle_refl].
Qed.

Lemma breaker_idle {A} (f : CircuitBreaker → res A * CircuitBreaker) w :
  Steps.goes (sound (λ _, True)) after (touches (λ _, True)) (atomic (on_breaker f)) w.
Proof.
  apply (goes_quiet (λ _, True) (λ _, True)); [done|]. intros w0 Hi. unfold on_breaker.
  destruct (f _). split; [by apply idle_refl|done].
Qed.

Lemma route_goes ar body w : goes (route_steps ar body) w.
Proof.
  unfold Traffic.route_steps. destruct (route _ _ _) as [| |r| | | | |]; try by apply goes_done.
  - apply zoom_goes, chat_goes; [done|by apply request_of_ok|done|done].
  - apply zoom_goes, (goes_quiet (λ _, True) (λ _, True)); [done|]. intros w0 Hi.
    unfold list_models. destruct (llm_list_models _). split; [by apply idle_refl|done].
  - apply zoom_goes, goes_bind; [apply _|by apply internal_goes|]. intros answered w1 _. apply goes_ret.
  - apply zoom_goes, goes_bind; [apply _|apply breaker_idle|]. intros v w1 _. apply goes_ret.
  - intros w0 Hr Hi. unfold zoomed. pose proof (breaker_idle (diagnostics_route (sp_headers (ar_scope ar))
      (ar_retrieval_up ar) (ar_pool_size ar) (live_now w0) (ar_now ar) a) (proxy_of w0)) as H.
    apply (zoom_goes (atomic _)) in H.
    specialize (H w0 ltac:(reflexivity) Hi). unfold zoomed in H.
    destruct (on_breaker _ (proxy_of w0)) as [r p]. destruct H as (? & ? & ? & _). split_and!; [done..|].
    by apply goes_done.
Qed.

Lemma application_goes ar given w : goes (application_steps ar given) w.
Proof.
  unfold Traffic.application_steps. destruct (request_body _ _) as [body|]; [|by apply goes_done].
  apply goes_pbind; [apply _|apply route_goes|]. intros r w1. by apply goes_done.
Qed.

(** *** The middleware's steps *)

(** The body of a request with this result was within the limit, or the request did
    not reach the application and was told why, if anything. *)
Definition max_body : Z := max_body_bytes (Settings.server (st_settings a)).

Definition answered (ar : arrival) (r : run_result) : Prop :=
  sp_http (ar_scope ar) = true →
  match run_app_input r with
  | Some given => body_admitted max_body (ar_scope ar) (ar_input ar) given
  | None =>
      run_sent r = [] ∨
      ∃ response, run_sent r = send_wrapper (id_of ar) <$> response_messages render response ∧
        (rs_status response = 413 ∧ body_too_large max_body (ar_scope ar) (ar_input ar) ∨ rs_status response = 429)
  end.

(** Accounting touches the counters only. *)
Lemma wp_account f (post : run_result → Prop) w :
  (∀ mw, mw_limiter (f mw).2 = mw_limiter mw ∧ mw_max_body_bytes (f mw).2 = mw_max_body_bytes mw) →
  (∀ mw, mw_max_body_bytes mw = max_body → post (f mw).1) →
  wp (Act (on_middleware f) Done) (λ r _, post r) w.
Proof.
  intros Hf Hpost w0 _ [E Hl Hm Hi]. unfold on_middleware. specialize (Hpost _ Hm).
  destruct (Hf (sr_middleware (ru_server w0))) as [Hlim Hmax].
  destruct (f _) as [r mw]. simpl in *. split_and!; [|split; [by unfold after|apply Qle_refl]|done|by intros ? _ _].
  split; simpl; [done| |by rewrite Hmax|done]. intros rl. rewrite Hlim. apply Hl.
Qed.

Lemma run_app_keeps app sp id given mw :
  mw_limiter (run_app app sp id given mw).2 = mw_limiter mw ∧
  mw_max_body_bytes (run_app app sp id given mw).2 = mw_max_body_bytes mw.
Proof. unfold run_app. destruct (app sp given) as [messages [e|]]; simpl; by destruct (response_status _). Qed.

Lemma refused_wp ar (f : ObservabilityMiddleware → Response) w :
  (∀ mw, mw_max_body_bytes mw = max_body →
     rs_status (f mw) = 413 ∧ body_too_large max_body (ar_scope ar) (ar_input ar) ∨ rs_status (f mw) = 429) →
  wp (Act (on_middleware (λ mw, reject render (ar_scope ar) (id_of ar) (f mw) mw)) Done) (λ r _, answered ar r) w.
Proof. intros Hf. apply wp_account; [done|]. intros mw Hm _. right. exists (f mw). split; [done|by apply Hf]. Qed.

Lemma run_app_wp ar given w :
  body_admitted max_body (ar_scope ar) (ar_input ar) given →
  wp (run_app_steps ar given) (λ r _, answered ar r) w.
Proof.
  intros Hb. unfold Traffic.run_app_steps. apply wp_bind; [apply _|].
  eapply wp_mono; [|apply application_goes]. intros out w1 _. apply wp_account; [intros mw; apply run_app_keeps|].
  intros mw _ _. by rewrite run_app_given.
Qed.

Lemma run_body_wp ar w :
  (∀ s, _header (ar_scope ar) "content-length" = Some s → isdigit s = true → ∃ n, int_of s = Ok n ∧ n ≤ max_body) →
  wp (run_body_steps ar max_body) (λ r _, answered ar r) w.
Proof.
  intros Hd. unfold Traffic.run_body_steps. destruct (_header _ _) as [s|] eqn:Eh.
  { apply run_app_wp. unfold body_admitted. rewrite Eh. split; [done|by apply Hd]. }
  pose proof (drain_spec max_body 0 [] (ar_input ar)) as Hdr. destruct (_drain_body _ _ _ _) as [b rest| | |].
  - destruct Hdr as (pre & Ei & -> & Hdis & Hsize & Hcomp). apply run_app_wp.
    unfold body_admitted. rewrite Eh. by exists pre, rest.
  - destruct Hdr as (pre & rest & Ei & Hdis & Hsize). apply (refused_wp _ too_large). intros mw _.
    left. split; [done|]. unfold body_too_large. rewrite Eh. by exists pre, rest.
  - apply wp_account; [done|]. intros mw _ _. by left.
  - intros w0 _ _ _. by left.
Qed.

(** The checks leave the limiter as it should be, at the time they read. *)
Lemma preflight_ok sp now mw :
  limiter_ready mw now →
  let '(v, mw') := preflight sp now mw in
  limiter_ready mw' now ∧ mw_max_body_bytes mw' = mw_max_body_bytes mw ∧ mw_requests mw' = mw_requests mw ∧
  match v with
  | Passes max => max = mw_max_body_bytes mw ∧
      ∀ s, _header sp "content-length" = Some s → isdigit s = true → ∃ n, int_of s = Ok n ∧ n ≤ max
  | Refuses response =>
      rs_status response = 413 ∧ (∀ input, body_too_large (mw_max_body_bytes mw) sp input) ∨ rs_status response = 429
  | Breaks _ => True
  end.
Proof.
  intros Hl. unfold preflight.
  assert (∀ b s, declared_too_large (_header sp "content-length") (mw_max_body_bytes mw) = Ok b →
    _header sp "content-length" = Some s → if b then isdigit s = true ∧ ∃ n, int_of s = Ok n ∧ mw_max_body_bytes mw < n
    else isdigit s = true → ∃ n, int_of s = Ok n ∧ n ≤ mw_max_body_bytes mw) as Hdecl.
  { intros b s Eb Es. rewrite Es in Eb. pose proof (declared_spec s (mw_max_body_bytes mw)) as H. by rewrite Eb in H. }
  destruct (declared_too_large _ _) as [[]|e] eqn:Ed; [| |done].
  - split_and!; [done..|]. left. split; [done|]. intros input. unfold body_too_large.
    destruct (_header sp "content-length") as [s|] eqn:Es; [|done]. by apply (Hdecl true).
  - specialize (λ s, Hdecl false s eq_refl). destruct (mw_limiter mw) as [rl|] eqn:El; [|done].
    destruct (_ && _); [|done]. destruct (Hl rl El) as [Hok Hclock].
    destruct (admit_ok rl (_client_host sp) (_header sp "x-conversation-id") now Hok Hclock)
      as (d & rl' & -> & Hok' & Hclock' & _).
    destruct (allowed d); split_and!; try done; try (by intros ? [= <-]). by right.
Qed.

Lemma read_clock_later time w : (ru_clock w <= read_clock time w)%Q.
Proof.
  unfold read_clock. destruct (Qle_bool _ _) eqn:E; [by apply Qle_bool_iff|apply Qle_refl].
Qed.

Lemma handle_wp ar w : wp (handle_steps ar) (λ r _, answered ar r) w.
Proof.
  unfold Traffic.handle_steps. destruct (sp_http _) eqn:Hh; cbn [negb].
  2: { apply wp_bind; [apply _|]. eapply wp_mono; [|apply application_goes]. intros [messages raised] w1 _.
       apply wp_done. intros w2 _ Hh'. congruence. }
  intros w0 _ [E Hl Hm Hi]. unfold preflight_step. pose proof (read_clock_later (ar_now ar) w0) as Hclock.
  set (now := read_clock _ _) in *. apply (limiter_ready_later _ _ _ Hclock) in Hl.
  pose proof (preflight_ok (ar_scope ar) now _ Hl) as H. destruct (preflight _ _ _) as [v mw].
  destruct H as (Hl' & Hmax & _ & Hcase). rewrite Hm in Hmax Hcase.
  split_and!; [by split|by split; [by unfold after|]|done|]. destruct v as [max|response|e].
  - destruct Hcase as [-> Hd]. by apply run_body_wp.
  - apply (refused_wp _ (λ _, response)). intros mw' _. destruct Hcase as [[Hs Hb]|Hs]; [left|by right]. by split.
  - apply wp_done. intros w1 _ _. by left.
Qed.

(** *** What is accounted for *)

(** The entry of a request with this result. *)
Definition recorded (ar : arrival) (r : run_result) : list (string * string * Z) :=
  if sp_http (ar_scope ar) then
    match response_status (run_sent r), run_app_input r, run_ends r with
    | Some status, _, _ => [record_of (ar_scope ar) status]
    | None, Some _, Raises _ => [record_of (ar_scope ar) 500]
    | None, _, _ => []
    end
  else [].

Definition accounts (w : Running) : list (string * string * Z) := mw_requests (sr_middleware (ru_server w)).

Notation logs := (Steps.logs accounts recorded).
Notation quiet := (Steps.quiet accounts).

Lemma quiet_zoom {A} (p : prog (Proxy ProviderState) A) : quiet (zoom proxy_of set_proxy p).
Proof.
  assert (∀ X (act : Proxy ProviderState → X * Proxy ProviderState) w,
    accounts (zoomed proxy_of set_proxy act w).2 = accounts w) as Hact.
  { intros X act w. unfold zoomed. by destruct (act _). }
  induction p as [b|X act k IH|X act k IH late IHl]; simpl; [done|..]; repeat split; auto.
Qed.

Lemma quiet_application ar given : quiet (application_steps ar given).
Proof.
  unfold Traffic.application_steps. destruct (request_body _ _) as [body|]; [|done].
  apply quiet_bind; [|done]. unfold Traffic.route_steps. destruct (route _ _ _); try done; try apply quiet_zoom.
  intros w. split; [|done]. unfold zoomed. by destruct (on_breaker _ _).
Qed.

(** A last step that enters the result. *)
Lemma logs_account ar f :
  (∀ mw, mw_requests (f mw).2 = mw_requests mw ++ recorded ar (f mw).1) →
  logs ar (Act (on_middleware f) Done).
Proof.
  intros Hf. apply (logs_act accounts recorded ar (on_middleware f) Done). intros w. unfold on_middleware.
  specialize (Hf (sr_middleware (ru_server w))). destruct (f _) as [r mw]. split; [|done]. exact Hf.
Qed.

Lemma recorded_run_app ar given out mw :
  sp_http (ar_scope ar) = true →
  let '(r, mw') := run_app (λ _ _, out) (ar_scope ar) (id_of ar) given mw in
  mw_requests mw' = mw_requests mw ++ recorded ar r.
Proof.
  intros Hh. unfold run_app, recorded. rewrite Hh. destruct out as [messages [e|]]; simpl;
    rewrite response_status_wrapped; destruct (response_status messages); by rewrite /= ?app_nil_r.
Qed.

Lemma logs_run_app ar given : sp_http (ar_scope ar) = true → logs ar (run_app_steps ar given).
Proof.
  intros Hh. unfold Traffic.run_app_steps. apply logs_bind; [apply quiet_application|]. intros out.
  apply logs_account. intros mw. pose proof (recorded_run_app ar given out mw Hh) as H. by destruct (run_app _ _ _ _ _).
Qed.

Lemma logs_refuse ar (f : ObservabilityMiddleware → Response) :
  sp_http (ar_scope ar) = true →
  logs ar (Act (on_middleware (λ mw, reject render (ar_scope ar) (id_of ar) (f mw) mw)) Done).
Proof.
  intros Hh. apply logs_account. intros mw. unfold recorded. rewrite Hh /= response_status_wrapped response_messages_status.
  done.
Qed.

Lemma logs_handle ar : logs ar (handle_steps ar).
Proof.
  unfold Traffic.handle_steps. destruct (sp_http _) eqn:Hh; cbn [negb].
  2: { apply logs_bind; [apply quiet_application|]. intros [messages raised]. simpl. unfold recorded. by rewrite Hh. }
  apply (logs_act accounts recorded ar). intros w. unfold preflight_step.
  assert (mw_requests (preflight (ar_scope ar) (read_clock (ar_now ar) w) (sr_middleware (ru_server w))).2
    = accounts w) as Hmw.
  { unfold preflight. destruct (declared_too_large _ _) as [[]|e]; [done| |done].
    destruct (mw_limiter _) as [rl|]; [|done]. destruct (_ && _); [|done].
    destruct (RateLimiter_admit _ _ _ _) as [[d rl']|e]; [|done]. by destruct (allowed d). }
  destruct (preflight _ _ _) as [v mw]. assert (logs ar
    match v with
    | Passes max => run_body_steps ar max
    | Refuses response => Act (on_middleware (reject render (ar_scope ar) (id_of ar) response)) Done
    | Breaks e => Done (MkRun [] None (Raises e))
    end) as Hrest; [|split; [by apply logs_enters|done]].
  destruct v as [max|response|e]; [|by apply (logs_refuse ar (λ _, response))|by rewrite /= /recorded Hh].
  unfold Traffic.run_body_steps. destruct (_header _ _); [by apply logs_run_app|].
  destruct (_drain_body _ _ _ _); [by apply logs_run_app|by apply (logs_refuse ar too_large)| |by rewrite /= /recorded Hh].
  apply logs_account. intros mw'. by rewrite /= /recorded Hh app_nil_r.
Qed.

(** *** The system *)

(** Requests come in at any time. *)
Definition enters (ar : arrival) (p : prog Running run_result) : Prop := p = handle_steps ar.

(** The results of the requests that have run to their end. *)
Definition finished (ps : procs Running arrival run_result) : list (arrival * run_result) :=
  omap (λ arp : arrival * option (prog Running run_result),
    match arp.2 with Some (Done r) => Some (arp.1, r) | _ => None end) ps.

Lemma finished_contributions ps :
  concat (contribution recorded <$> ps) = concat ((λ x, recorded x.1 x.2) <$> finished ps).
Proof.
  induction ps as [|[ar [[r|X act k|X act k late]|]] ps IH]; [done|..]; [|apply IH..].
  cbn. by f_equal.
Qed.

Lemma running_steps w w' ps :
  running w → rtc (step enters) (w, []) (w', ps) →
  running w' ∧ moves_on w w' ∧ ∀ ar r, (ar, r) ∈ finished ps → answered ar r.
Proof.
  intros Hr Hsteps.
  destruct (steps_sys_ok running moves_on (λ _, any) enters (λ ar r _, answered ar r) (λ _, True) moves_on (w, []) (w', ps))
    as [Hok Hm]; try done.
  { intros ar p w0 -> _. apply handle_wp. }
  split; [apply Hok|]. split; [done|]. intros ar r ([ar' [[r'|X act k|X act k late]|]] & Hin & E)%list_elem_of_omap; try done.
  injection E as -> ->. apply list_elem_of_lookup in Hin as [i Hi].
  exact (sys_ok_post running moves_on (λ _, any) (λ ar r _, answered ar r) (w', ps) i ar r Hok Hi).
Qed.

End traffic.

(** ** Three requests at the same time *)

#[local] Existing Instances sample_host sample_postgres sample_laws sample_uuids sample_search.
#[local] Existing Instances sample_sessions server_checks server_utf8 server_json_laws.

Definition sample_handle_steps (a : AppState) (ar : arrival) : prog Running run_result :=
  handle_steps good_server (answering "answer") body_render id (λ _ _, None) (λ _, JNull)
    (document 404 JNull) [] a ar.

Definition boot (a : AppState) : Running :=
  MkRunning 0 (MkServer a (st_middleware a) (MkProxy empty_world sample_provider [] [])).

(** The second question overtakes the first, the third request declares too much. *)
Definition crossing (a : AppState) : Running * procs Running arrival run_result :=
  foldl make_move
    (boot a, (λ ar, (ar, Some (sample_handle_steps a ar))) <$> [asking; asking; oversized])
    (replicate 8 (Go 0) ++ replicate 3 (Go 2) ++ replicate 40 (Go 1) ++ replicate 40 (Go 0)).

Lemma crossing_reached a :
  rtc (step (enters good_server (answering "answer") body_render id (λ _ _, None) (λ _, JNull)
    (document 404 JNull) [] a)) (boot a, []) ((crossing a).1, (crossing a).2).
Proof.
  rewrite -surjective_pairing.
  do 3 (eapply rtc_l; [by apply StepJoins|]). apply moves_steps.
Qed.

Lemma booted_running a :
  booted = Some a → valid (st_settings a) ∧ running a (boot a).
Proof.
  unfold booted, Main.sample_app.
  destruct (create_app (λ _ _, 0%Q) 0 default_Settings nothing_injected (MkDatabase false)) as [a0|e] eqn:E0; [|done].
  destruct (startup log_exec true scripts a0 (MkMigrated [] [])) as [[[[]|e] a1] d'] eqn:E1; [|done].
  intros [= <-]. destruct (booted_ok log_exec (λ _ _, 0%Q) 0 default_Settings default_Settings nothing_injected
    (MkDatabase false) a0 true scripts (MkMigrated [] []) (Ok tt) a1 d' (MkProxy empty_world sample_provider [] [])
    eq_refl E0 E1 empty_index_ok) as (Hv & _ & Hok). by split.
Qed.

Definition chat_record (status : Z) : string * string * Z := ("POST", "/v1/chat/completions", status).


Lemma handle_alone_witness :
  ∃ a, booted = Some a ∧
    run (sample_handle_steps a asking) (boot a) =
    (let '(r, s) := sample_handle (ru_server (boot a)) asking in (r, MkRunning 1 s)) ∧
    run_sent (run (sample_handle_steps a asking) (boot a)).1
    = [Start 200 [("Content-Type", "application/json"); ("X-Conversation-ID", unary_str 4);
                  ("x-request-id", "fresh")]; Chunk "answer" false].
Proof.
  destruct booted as [a|] eqn:E; [|vm_compute in E; discriminate]. exists a. split; [reflexivity|]. split.
  - apply (handle_alone good_server (answering "answer") body_render id (λ _ _, None) (λ _, JNull)
      (document 404 JNull) [] a asking (boot a)); [reflexivity|vm_compute; discriminate|reflexivity].
  - vm_compute in E. injection E as <-. vm_compute. reflexivity.
Defined.
